(* ===== verification/_CoqProject ===== *)
-Q . S2P
Prelude.v
Text.v
Slots.v
Bitmask.v
Slab.v
Nda.v
Arena.v
Crc.v
Vctp.v
VctpFlow.v
Crdt.v
SlotMap.v
Wal.v
ContextPool.v
SlabPool.v
TaskQueue.v
CircuitBreaker.v
EventHistory.v
Timer.v
Index.v
Context.v
Replay.v
Visibility.v
Archive.v
Engine.v
Recovery.v
EngineProps.v
SearchQuery.v
SearchExec.v
DepGraph.v
PayloadCodec.v
Cron.v
Locks.v
Raft.v
Sharding.v
Lru.v
Nmcp.v
Limiter.v
Replication.v
MutState.v
Saga.v
Schedules.v
Matching.v
Versioning.v
EngineVersions.v
Reset.v
CoreState.v
CoreTx.v
SearchIndex.v
IndexLocks.v
VirtualObjects.v
EngineReplication.v
