(* ===== verification/Prelude.v ===== *)
(** * V.E.L.O.C.I.T.Y.-WorkFlow: a verification development

    The program is a durable workflow engine in Rust.  [velocity-workflow-core]
    holds the data formats (step bitmask, slab header, packets, replicated data
    types); [velocity-workflow-engine] holds the engine proper: [engine.rs] keeps
    one [WorkflowContext] per running workflow in a fixed-capacity pool, writes
    every start, step, signal and closing to a write-ahead log, hands tasks to
    workers through priority queues, fires timers, and maintains a visibility
    index, event histories, an archive and circuit breakers.  After a crash
    [recover_from_wal] rebuilds the pool from the log.

    ** Conventions

    A machine integer is a [Z]; [fits w x] says it has [w] bits ([u8] to [u64] are
    instances) and wrapping, saturating and shifting operations are written out.
    Bytes are [list Z].  A fallible function returns [result], a panicking one runs
    in [exec].  A [HashMap] is a [gmap]; where the source iterates over one, the
    order is an argument.  A clock read is an argument.  A mutex-protected
    operation is one atomic step, and concurrent use is a sequence of steps.
    Code outside the repository is a parameter with the laws its documentation
    states: SHA-256 (class [Sha256] of Slab.v, whose laws say that a digest is 32
    bytes; collision freedom is always an explicit hypothesis on the messages at
    hand) and AES-256-GCM (class [Aes256Gcm] of Vctp.v: a sealed message opens to
    its plaintext and carries a 16-byte tag).  Floating point ([f32], [f64]) is
    [SpecFloat] at its precision.

    ** Files, and the code they model

    - Prelude: integers, bytes, vectors, [result], hint databases.
    - Slots: arrays of optional entries as finite maps, shared by SlotMap,
      ContextPool and Crdt.
    - Bitmask, Slab, Nda, Arena: [core/bitmask.rs], [slab.rs] with [wal.rs],
      [nda.rs], [arena.rs].
    - Crc, Vctp, VctpFlow: the two CRC-32 routines, and [core/vctp.rs]: packet
      formats, checksum, MAC, encryption; replay window, congestion window,
      retransmission tracker.
    - Crdt: [core/crdt.rs].
    - SlotMap: [engine/zero_alloc.rs].
    - Wal: [engine/wal.rs]: Module [Wal] the record codec and file reader, Module
      [WalManager] the writer, rotation, retention and full replay.  A disk maps
      paths to a content and a count of synced bytes; a crash cuts any file
      anywhere at or after its synced prefix, and keeps every creation, rename and
      deletion.
    - ContextPool, SlabPool: the two pools of [engine/workflow_slab_pool.rs].
    - TaskQueue, CircuitBreaker, EventHistory, Timer: the engine files of these
      names ([timer_engine.rs] for the last).  A run is a list of events.
    - Index, Visibility, Archive: secondary indices in general, [visibility.rs],
      [archival.rs].
    - Context: the first part of [engine.rs]: durability configuration, retry
      policy, activity timeouts, [WorkflowContext].
    - Replay: [replay.rs].
    - Engine: the handlers of [WorkflowEngine], each a function from engine and
      clock to engine.  Services a handler only writes to (metrics, trackers,
      dependency graph, matching, pipeline) are recorded as a list of calls in the
      order they are made; EngineVersions carries those to the version registry out.
    - Recovery: [recover_from_wal] and [recover_steps_from_pg].
    - EngineProps: properties of runs of the engine.
    - Text: characters and decimal numbers, for the two text formats below.
    - SearchQuery, SearchExec: [search_query.rs], the tokenizer, parser and printer
      of the query language, and [search_query_executor.rs], its evaluation over
      the visibility index of Visibility.
    - DepGraph: [workflow_dependency_graph.rs].
    - PayloadCodec: [payload_codec.rs]; class [Lawful] is what a chain promises of
      its codecs, with an instance per built-in codec.
    - Cron: [cron.rs].
    - Locks: [distributed_locks.rs]: locks with fencing tokens, shard ownership,
      leader election.
    - Raft: [RaftNode] of [raft_consensus.rs].
    - Sharding: [sharding.rs].
    - Lru: [lru_cache.rs], with the order in which its operations take locks.
    - Nmcp: [velocity-nmcp-protocol]: [frame.rs], and the shared-memory ring of
      [shmem.rs] as two programs that interleave one file operation at a time.
    - Limiter: [concurrency_limiter.rs].
    - Replication: [cluster.rs] and [ndc_replication.rs]: Module [Versions] version
      histories, Module [Ndc] their store, conflict resolution and consistency
      checks, Module [Acks] acknowledgements, Module [Gaps] the dead-letter queue and
      the gap detector, Module [Clusters] the queue between clusters.
    - MutState: [workflow_state_machine.rs]: Module [MutState] the operations on
      [MutableState], Module [Life] the lifecycles as step relations.
    - Saga: [saga.rs]: Module [Saga] the orchestrator, Module [SagaLog] the enhanced
      one with its log and nested sagas.
    - Schedules: [schedules.rs]: Module [Calendar] dates, Module [CalendarSpec] field
      expressions and the next fire time, Module [ScheduleManager] the manager.
    - Matching: [matching_service.rs].
    - Versioning, EngineVersions: [workflow_change_versioning.rs], and the engine of
      Engine with that registry: the recorded calls of the handlers are carried out
      on it, and [WorkflowEngine::get_version] runs between the handlers.
    - Reset: [workflow_reset.rs].
    - CoreState, CoreTx: [core_internals.rs]: Module [MState] the mutable state, Modules
      [Tasks] and [Commands] the command processor and the tasks it generates, Module
      [Refresh] the generator and the refresher, Module [CoreRun] their runs; Module
      [Tx] transactions, Module [WfTask] the workflow task, Module [TimerSeq] the
      ordered timers, Module [Sum] the checksum.
    - SearchIndex, IndexLocks: [search_index.rs]: Module [Attr] values and their order,
      Module [Index] both indices and the queries, Module [Bulk] the buffering
      indexer, Module [Schema] declared attributes, Module [Lifecycle] indices and
      aliases; IndexLocks has the locks every method takes, as programs of threads.
    - VirtualObjects: [virtual_objects.rs]: Module [VObjects] the runtime, Module [Lines]
      the invocations of a key, Module [Awake] awakeables.
    - EngineReplication: [WorkflowEngine::apply_replication_task], over Replication and
      EventHistory.

    ** What the theorems show

    Durability.  A crash after an fsync loses nothing of the log (Wal); a run of
    the engine, a crash and a recovery give back the status, steps, results,
    sequence and signals of every workflow, for logs that fit the retained files
    (Recovery); batching loses fewer than [sync_steps] records (EngineProps);
    what a torn, corrupted or rotated log replays to (Wal).

    Integrity.  Every workflow of every run has a slab whose Merkle root verifies
    and whose bitmask agrees with the stored results (EngineProps, Context); the
    root binds the header and the whole order of completions (Slab); replaying a
    history rebuilds what executing it produced (Replay).

    Refinement.  The bitmask is a finite set, [SlotMap] a finite map, [SlotVec] a
    queue per key, the context pool a bounded map (for keys in distinct buckets),
    the history store a family of append-only logs, the replay window the set of
    accepted numbers, [AWORSet] a map from keys to dots, the indices exact
    listings.

    Delivery.  Tasks and timers are delivered exactly once, in order; retries and
    retransmissions are bounded; following page tokens ends with every match once;
    an open breaker rejects until its cooldown.

    Formats.  Round trips and corruption detection of packets and log records;
    the table-driven CRC-32 equals the bitwise one.

    Search.  A printed query parses back to itself, parsing ends on every input,
    [AND], [OR] and [NOT] bind as usual; the [LIKE] loop decides the language of its
    pattern; a query string executed page by page returns every match once, in
    order (SearchQuery, SearchExec); the attribute index answers a query by its meaning
    over the operations flushed so far, rollovers take fresh names, and threads that
    write attributes never block each other for good (SearchIndex, IndexLocks).

    Graphs.  Both adjacency maps present one list of edges; traversal visits what is
    reachable; cycle detection and topological sorting agree with acyclicity
    (DepGraph).

    Payloads and schedules.  Codec chains keep bytes bytes and round trip
    (PayloadCodec); a cron expression fires at the first minute its fields allow,
    and a due schedule once (Cron); a calendar specification fires at the first
    second of the next day that its fields allow, day numbers and Gregorian dates
    correspond one to one, and the schedule manager counts its actions and running
    workflows exactly (Schedules).

    Replication.  Tasks queued for another cluster and delivered in any order, any
    number of times but at least once, are applied exactly once; of two
    clusters that send each other their histories the one behind takes over and the
    other keeps its own, and they never both take over; acknowledgements, gaps and
    the common prefix of two aligned histories are computed exactly (Replication); the
    engine that receives tasks has in every history the events that were ahead of all
    delivered before, in the order sent, each once (EngineReplication).

    Lifecycles.  Every operation of the state machine succeeds exactly when the
    lifecycles of the execution, its activities, timers and children have a step for
    it, and makes that step (MutState); a failed saga asks
    for the compensations of its completed steps, latest first (Saga); refreshing the
    tasks of an execution generates those of everything that still waits (CoreState);
    rolling a transaction back restores the states of its begin (CoreTx); the
    invocations of a virtual object run one at a time in order of arrival, and an
    awakeable is resolved once (VirtualObjects).

    Versions and resets.  A workflow keeps the version of a code change it was given
    until it is closed, in every run of the engine (EngineVersions); the registry
    is a list of decisions per workflow (Versioning); the branches that resets fork
    form one chain per workflow, each request is carried out at most once, and
    automatic resets are bounded (Reset).

    Matching.  The partitioned matching service is one bounded first-in first-out
    queue per name (Matching).

    Coordination.  Locks and leaders are exclusive for their lease and fencing
    tokens increase (Locks); committed entries of a raft log are stable and applied
    once, in order (Raft); adding or removing a host remaps only the keys it must,
    and a rebalance leaves nothing to move (Sharding); the LRU cache evicts the least
    recently used key that is not pinned (Lru); the limiter counts admissions exactly
    and admits exactly below its limits (Limiter).

    Remote calls.  Over every interleaving the shared-memory ring gives each request
    to the router once and returns its own response, and every fair schedule answers
    all calls (Nmcp).

    Limits of the code are theorems too: a removal in a shared bucket of the
    context pool, wide replay windows, remote removals and concurrent increments
    of the replicated types, reset, restart and unlogged operations of the engine,
    repeated registration in the visibility index, the determinism check, queries
    that panic or do not print back, a cycle flag on acyclic graphs, schedules that
    misfire, ownership that outlives its lock, snapshots of the raft log, a deadlock
    of the cache, calls that time out, admissions from the queue, histories that are
    not aligned, false gaps, work accepted by a closed execution, checksums that miss
    a change, sagas that hang, schedules further away than a day, policies that do
    not buffer, tasks hidden behind the head of their queue, versions that outlive a
    reset, signals reapplied twice, timers that stay fired after a rollback, a checksum
    that depends on the order of a map, two deadlocks of the attribute index and queries
    of it that wrap or panic, objects with two writers.

    ** Fuel and bounds

    Most loops are structural recursion over a list.  [Wal.decode_loop] has the
    length of the input plus one as fuel: every record consumes at least one byte.
    [Timer.pop_due] has the size of the heap, one entry per round.
    [Visibility.all_pages] needs one round more than the number of matches, which
    [query_pages_complete] proves to be enough.  The tokenizer has the length of
    its input plus one, the query parser four calls per token and four more, the
    [LIKE] loop the bound [like_fuel] on the two lengths, the graph algorithms
    the number of nodes plus one; each is proved to suffice.  The cron search makes
    the four years of iterations the source makes, the calendar search its 86400
    seconds; [Schedules.Calendar.year_loop] has a round per 365 days and one more,
    which [calendar_roundtrip] shows to be enough.  Counters that wrap at 64 bits
    (task ids, timer ids, event ids) have the number of operations bounded by an
    explicit hypothesis below 2^64.

    ** Not modelled

    Network services (gRPC, HTTP, VCTP sockets), the C ABI, PostgreSQL, log
    snapshots and background threads (their effects are the modelled operations),
    and the engine modules beside the workflow lifecycle that the files above do
    not name: cluster membership and the transports of replication, shard
    controllers, worker management, the second scheduler, rate limits, the query
    parser of the attribute index, durable promises and calls, and the second history
    implementation.  SDKs, servers, C# code
    and benchmarks are clients. *)

From stdpp Require Export prelude gmap list strings sorting.
From Stdlib Require Export ZArith Lia.

Global Open Scope Z_scope.

(** ** Machine integers

    A Rust [uN] is a [Z] in the range [fits N].  Arithmetic that the source
    writes with plain operators wraps ([wrap]): the workspace's release profile
    leaves overflow checks off. *)

Definition fits (w x : Z) : Prop := 0 <= x < 2 ^ w.

#[export] Instance fits_dec w x : Decision (fits w x).
Proof. unfold fits. apply _. Defined.

Abbreviation u8 := (fits 8).
Abbreviation u16 := (fits 16).
Abbreviation u32 := (fits 32).
Abbreviation u64 := (fits 64).

Definition wrap (w x : Z) : Z := x mod 2 ^ w.

Definition U16_MAX : Z := 65535.
Definition U32_MAX : Z := 4294967295.
Definition U64_MAX : Z := 18446744073709551615.

Definition wrapping_add (w a b : Z) : Z := wrap w (a + b).
Definition wrapping_mul (w a b : Z) : Z := wrap w (a * b).
Definition saturating_add (w a b : Z) : Z := Z.min (2 ^ w - 1) (a + b).
Definition saturating_sub (a b : Z) : Z := Z.max 0 (a - b).

(** [x.count_ones()] on a [w]-bit word. *)
Definition count_ones (w : nat) (x : Z) : Z :=
  Z.of_nat (length (filter (fun i => Z.testbit x i = true) (seqZ 0 (Z.of_nat w)))).

(** [!x] on a [w]-bit word. *)
Definition unot (w x : Z) : Z := Z.lnot x mod 2 ^ w.

(** ** Bitwise notations of the source *)

Declare Scope rust_scope.
Delimit Scope rust_scope with rust.
Infix "&&&" := Z.land (at level 40, left associativity) : rust_scope.
Infix "^^^" := Z.lxor (at level 45, left associativity) : rust_scope.
Infix "|||" := Z.lor (at level 50, left associativity) : rust_scope.
Infix "<<<" := Z.shiftl (at level 38, left associativity) : rust_scope.
Infix ">>>" := Z.shiftr (at level 38, left associativity) : rust_scope.
Global Open Scope rust_scope.

(** ** Results

    [result] is Rust's [Result]; [exec] is a computation that may panic. *)

Inductive result (A E : Type) : Type :=
| Ok (a : A)
| Err (e : E).
Arguments Ok {A E} a.
Arguments Err {A E} e.

Inductive exec (A : Type) : Type :=
| Ret (a : A)
| Panic.
Arguments Ret {A} a.
Arguments Panic {A}.

Definition result_bind {A B E} (m : result A E) (f : A -> result B E) : result B E :=
  match m with Ok a => f a | Err e => Err e end.

Notation "'let?' x ':=' m 'in' k" := (result_bind m (fun x => k))
  (at level 10, x pattern, m at level 200, k at level 200) : rust_scope.

(** ** Little-endian byte strings *)

Abbreviation bytes := (list Z).
Abbreviation is_bytes := (Forall u8).

Fixpoint le_bytes (n : nat) (x : Z) : bytes :=
  match n with
  | O => []
  | S n => x mod 256 :: le_bytes n (x / 256)
  end.

Fixpoint le_val (l : bytes) : Z :=
  match l with
  | [] => 0
  | b :: l => b + 256 * le_val l
  end.

(** [buf[a..b]] for [a <= b <= buf.len()]. *)
Definition slice {A} (a b : nat) (l : list A) : list A := take (b - a) (drop a l).

(** [iter().position(p)]. *)
Fixpoint position {A} (p : A -> bool) (l : list A) : option nat :=
  match l with
  | [] => None
  | x :: l => if p x then Some O else S <$> position p l
  end.

(** [Vec::remove(i)]. *)
Fixpoint vec_remove {A} (i : nat) (l : list A) : list A :=
  match l, i with
  | [], _ => []
  | _ :: l, O => l
  | x :: l, S i => x :: vec_remove i l
  end.

(** [Vec::insert(i, x)] for [i <= len]. *)
Definition vec_insert {A} (i : nat) (x : A) (l : list A) : list A :=
  take i l ++ x :: drop i l.

(** ** Automation *)

Create HintDb velocity.

(** Unfold the range predicates and solve by [lia]. *)
Ltac ranges := unfold fits, wrap, U16_MAX, U32_MAX, U64_MAX in *; lia.

(** Case analysis on every boolean comparison of the goal. *)
Ltac bool_cases :=
  repeat match goal with
  | |- context [ (?a <? ?b)%Z ] => destruct (Z.ltb_spec a b)
  | |- context [ (?a <=? ?b)%Z ] => destruct (Z.leb_spec a b)
  | |- context [ (?a =? ?b)%Z ] => destruct (Z.eqb_spec a b)
  | |- context [ (?a <? ?b)%nat ] => destruct (Nat.ltb_spec a b)
  | |- context [ (?a <=? ?b)%nat ] => destruct (Nat.leb_spec a b)
  | |- context [ (?a =? ?b)%nat ] => destruct (Nat.eqb_spec a b)
  end.

(** ** Lemmas: machine integers *)

Lemma wrap_fits w x : 0 <= w -> fits w (wrap w x).
Proof. intros. unfold fits, wrap. apply Z.mod_pos_bound. by apply Z.pow_pos_nonneg. Qed.

Lemma wrap_id w x : fits w x -> wrap w x = x.
Proof. unfold fits, wrap. apply Z.mod_small. Qed.

Lemma fits_mono w w' x : w <= w' -> fits w x -> fits w' x.
Proof.
  unfold fits. intros ? [??]; split; [done|].
  eapply Z.lt_le_trans; [done|]. apply Z.pow_le_mono_r; lia.
Qed.

Lemma saturating_add_fits w a b : fits w a -> 0 <= b -> fits w (saturating_add w a b).
Proof. unfold fits, saturating_add. lia. Qed.

Lemma fits_testbit_high w x i : fits w x -> 0 <= w <= i -> Z.testbit x i = false.
Proof.
  intros [Hx Hlt] Hi. destruct (Z.eq_dec x 0) as [->|]; [apply Z.testbit_0_l|].
  apply Z.bits_above_log2; [done|]. apply Z.log2_lt_pow2; [lia|].
  eapply Z.lt_le_trans; [done|]. apply Z.pow_le_mono_r; lia.
Qed.

Lemma testbit_fits w x :
  0 <= w -> 0 <= x -> (forall i, w <= i -> Z.testbit x i = false) -> fits w x.
Proof.
  intros Hw Hx Hb. split; [done|].
  destruct (Z.eq_dec x 0) as [->|]; [by apply Z.pow_pos_nonneg|].
  apply Z.log2_lt_pow2; [lia|]. apply Z.nle_gt. intros Hge.
  specialize (Hb (Z.log2 x) Hge). rewrite Z.bit_log2 in Hb; [done|lia].
Qed.

Lemma fits_lor w x y : 0 <= w -> fits w x -> fits w y -> fits w (x ||| y).
Proof.
  intros Hw Hx Hy. apply testbit_fits; [done|..].
  - apply Z.lor_nonneg. destruct Hx, Hy; done.
  - intros i Hi. rewrite Z.lor_spec, !(fits_testbit_high w) by done. done.
Qed.

Lemma fits_lxor w x y : 0 <= w -> fits w x -> fits w y -> fits w (x ^^^ y).
Proof.
  intros Hw Hx Hy. apply testbit_fits; [done|..].
  - apply Z.lxor_nonneg. destruct Hx, Hy; tauto.
  - intros i Hi. rewrite Z.lxor_spec, !(fits_testbit_high w) by done. done.
Qed.

Lemma fits_land w x y : 0 <= w -> fits w x -> 0 <= y -> fits w (x &&& y).
Proof.
  intros Hw Hx Hy. apply testbit_fits; [done|..].
  - apply Z.land_nonneg. by left; destruct Hx.
  - intros i Hi. rewrite Z.land_spec, (fits_testbit_high w x) by done. done.
Qed.

Lemma fits_shiftr w x n : 0 <= w -> 0 <= n -> fits w x -> fits w (x >>> n).
Proof.
  intros Hw Hn Hx. apply testbit_fits; [done|..].
  - apply Z.shiftr_nonneg. by destruct Hx.
  - intros i Hi. rewrite Z.shiftr_spec by lia. apply (fits_testbit_high w); [done|lia].
Qed.

Lemma fits_shiftl1 w i : 0 <= i < w -> fits w (1 <<< i).
Proof.
  intros. unfold fits. rewrite Z.shiftl_1_l. split; [apply Z.pow_nonneg; lia|].
  apply Z.pow_lt_mono_r; lia.
Qed.

Lemma unot_fits w x : 0 <= w -> fits w (unot w x).
Proof. apply wrap_fits. Qed.

Lemma unot_spec w x i : 0 <= i < w -> Z.testbit (unot w x) i = negb (Z.testbit x i).
Proof. intros. unfold unot. rewrite Z.mod_pow2_bits_low, Z.lnot_spec by lia. done. Qed.

Lemma testbit_shiftl1 i j : 0 <= i -> Z.testbit (1 <<< i) j = bool_decide (i = j).
Proof.
  intros. rewrite Z.shiftl_1_l. case_bool_decide.
  - subst. by apply Z.pow2_bits_true.
  - by apply Z.pow2_bits_false.
Qed.

Lemma testbit_land_nonzero x i :
  0 <= x -> 0 <= i -> negb ((x &&& (1 <<< i)) =? 0) = Z.testbit x i.
Proof.
  intros Hx Hi. destruct (Z.testbit x i) eqn:Ht.
  - apply negb_true_iff, Z.eqb_neq. intros Heq.
    apply (f_equal (fun z => Z.testbit z i)) in Heq.
    rewrite Z.land_spec, testbit_shiftl1, Ht, bool_decide_true, Z.testbit_0_l in Heq; done.
  - apply negb_false_iff, Z.eqb_eq. apply Z.bits_inj'. intros n Hn.
    rewrite Z.land_spec, testbit_shiftl1, Z.testbit_0_l by done.
    case_bool_decide; subst; rewrite ?Ht, ?andb_false_r; done.
Qed.

Lemma length_filter_fmap {A B} (f : A -> B) (P : B -> Prop) `{!forall x, Decision (P x)} l :
  length (filter P (f <$> l)) = length (filter (fun x => P (f x)) l).
Proof.
  induction l as [|x l IH]; [done|]. rewrite fmap_cons, !filter_cons.
  destruct (decide (P (f x))); simpl; by rewrite ?IH.
Qed.

Lemma length_filter_ext {A} (P Q : A -> Prop)
  `{!forall x, Decision (P x)} `{!forall x, Decision (Q x)} l :
  (forall x, x ∈ l -> P x <-> Q x) -> length (filter P l) = length (filter Q l).
Proof.
  induction l as [|x l IH]; intros HPQ; [done|]. rewrite !filter_cons.
  rewrite (decide_ext (P x) (Q x)) by (apply HPQ; constructor).
  assert (Hl : length (filter P l) = length (filter Q l))
    by (apply IH; intros; apply HPQ; by constructor).
  destruct (decide (Q x)); simpl; by rewrite Hl.
Qed.

#[export] Hint Resolve wrap_fits saturating_add_fits fits_lor fits_lxor fits_land
  fits_shiftr fits_shiftl1 unot_fits : velocity.

(** ** Lemmas: little-endian codecs *)

Lemma le_bytes_length n x : length (le_bytes n x) = n.
Proof. revert x. induction n; intros; simpl; auto. Qed.

Lemma le_bytes_is_bytes n x : is_bytes (le_bytes n x).
Proof.
  revert x. induction n; intros x; simpl; constructor; auto.
  unfold fits. apply Z.mod_pos_bound. lia.
Qed.

Lemma le_val_le_bytes n x : le_val (le_bytes n x) = x mod 256 ^ Z.of_nat n.
Proof.
  revert x. induction n as [|n IH]; intros x; simpl.
  - by rewrite Z.mod_1_r.
  - rewrite IH, Nat2Z.inj_succ, Z.pow_succ_r, Z.rem_mul_r by lia. lia.
Qed.

Lemma le_val_singleton x : le_val [x] = x.
Proof. simpl. lia. Qed.

Lemma le_val_le_bytes_fits n w x :
  w = 8 * Z.of_nat n -> fits w x -> le_val (le_bytes n x) = x.
Proof.
  intros -> Hx. rewrite le_val_le_bytes. apply Z.mod_small.
  unfold fits in Hx. by rewrite Z.pow_mul_r in Hx by lia.
Qed.

Lemma le_val_fits l : is_bytes l -> fits (8 * Z.of_nat (length l)) (le_val l).
Proof.
  induction 1 as [|b l Hb _ IH]; simpl; [done|].
  unfold fits in *. rewrite Nat2Z.inj_succ, Z.mul_succ_r, Z.pow_add_r by lia. lia.
Qed.

Lemma le_bytes_le_val l : is_bytes l -> le_bytes (length l) (le_val l) = l.
Proof.
  induction 1 as [|b l Hb _ IH]; simpl; [done|].
  replace (b + 256 * le_val l) with (b + le_val l * 256) by lia.
  rewrite Z.mod_add, Z.mod_small, Z.div_add, Z.div_small by ranges. f_equal. done.
Qed.

Lemma le_bytes_inj n w x y :
  w = 8 * Z.of_nat n -> fits w x -> fits w y -> le_bytes n x = le_bytes n y -> x = y.
Proof.
  intros Hw Hx Hy Heq. apply (f_equal le_val) in Heq.
  by rewrite !(le_val_le_bytes_fits n w) in Heq.
Qed.

#[export] Hint Resolve le_bytes_is_bytes : velocity.

#[global] Opaque le_bytes le_val.
#[global] Arguments wrap : simpl never.

(** ** Lemmas: slices and vectors *)

Lemma Forall_snoc {A} (P : A -> Prop) l x : Forall P (l ++ [x]) -> Forall P l /\ P x.
Proof. rewrite Forall_app, Forall_singleton. done. Qed.

Lemma slice_app {A} (l1 l2 l3 : list A) a b :
  a = length l1 -> b = (a + length l2)%nat -> slice a b (l1 ++ l2 ++ l3) = l2.
Proof.
  intros -> ->. unfold slice. rewrite drop_app_length.
  rewrite take_app_length'; [done|lia].
Qed.

Lemma slice_le_skip n x l a b :
  (n <= a)%nat -> slice a b (le_bytes n x ++ l) = slice (a - n) (b - n) l.
Proof.
  intros. unfold slice. rewrite drop_app_ge by (rewrite le_bytes_length; lia).
  rewrite le_bytes_length. f_equal. lia.
Qed.

Lemma slice_le_here n x l : slice 0 n (le_bytes n x ++ l) = le_bytes n x.
Proof.
  unfold slice. rewrite drop_0, Nat.sub_0_r.
  apply take_app_length'. by rewrite le_bytes_length.
Qed.

(** Resolve reads of fixed-width fields from a concatenation of encoded ones. *)
Ltac read_fields :=
  repeat first [ rewrite slice_le_here | rewrite slice_le_skip by lia; cbn [Nat.sub] ].

Lemma slice_length {A} a b (l : list A) :
  (a <= b <= length l)%nat -> length (slice a b l) = (b - a)%nat.
Proof. intros. unfold slice. rewrite length_take, length_drop. lia. Qed.

Lemma slice_Forall {A} (P : A -> Prop) a b l : Forall P l -> Forall P (slice a b l).
Proof. intros. unfold slice. by apply Forall_take, Forall_drop. Qed.

Lemma slice_full {A} (l : list A) : slice 0 (length l) l = l.
Proof. unfold slice. rewrite drop_0. apply take_ge. lia. Qed.

Lemma slice_join {A} a b c (l : list A) :
  (a <= b <= c)%nat -> slice a b l ++ slice b c l = slice a c l.
Proof.
  intros. unfold slice.
  replace (drop b l) with (drop (b - a) (drop a l)) by (rewrite drop_drop; f_equal; lia).
  replace (c - a)%nat with ((b - a) + (c - b))%nat by lia.
  apply take_take_drop.
Qed.

Lemma lookup_slice {A} a b (l : list A) j :
  slice a b l !! j = if decide (j < b - a)%nat then l !! (a + j)%nat else None.
Proof.
  unfold slice. case_decide.
  - by rewrite lookup_take_lt, lookup_drop by lia.
  - apply lookup_take_ge. lia.
Qed.

Lemma slice_insert_out {A} a b i (x : A) l :
  (i < a \/ b <= i)%nat -> slice a b (<[i:=x]> l) = slice a b l.
Proof.
  intros Hi. apply list_eq. intros j. rewrite !lookup_slice. case_decide; [|done].
  by rewrite list_lookup_insert_ne by lia.
Qed.

Lemma slice_insert_in {A} a b i (x : A) l :
  (a <= i < b)%nat -> (i < length l)%nat ->
  slice a b (<[i:=x]> l) = <[(i - a)%nat:=x]> (slice a b l).
Proof.
  intros Hi Hl. apply list_eq. intros j. rewrite lookup_slice.
  destruct (decide (j = i - a)%nat) as [->|Hne].
  - rewrite decide_True by lia. replace (a + (i - a))%nat with i by lia.
    rewrite list_lookup_insert_eq by done. symmetry. apply list_lookup_insert_eq.
    unfold slice. rewrite length_take, length_drop. lia.
  - rewrite (list_lookup_insert_ne (slice a b l)) by congruence.
    rewrite lookup_slice. case_decide; [|done].
    by rewrite list_lookup_insert_ne by lia.
Qed.

Lemma le_val_inj l l' :
  is_bytes l -> is_bytes l' -> length l = length l' -> le_val l = le_val l' -> l = l'.
Proof.
  intros Hl Hl' Hlen Heq. rewrite <- (le_bytes_le_val l), <- (le_bytes_le_val l') by done.
  congruence.
Qed.

Lemma position_Some {A} (p : A -> bool) l i :
  position p l = Some i ->
  exists x, l !! i = Some x /\ p x = true /\
            (forall j y, (j < i)%nat -> l !! j = Some y -> p y = false).
Proof.
  revert i. induction l as [|x l IH]; intros i; simpl; [done|].
  destruct (p x) eqn:Hp; intros Hi.
  - simplify_eq. exists x. split_and!; [done..|]. intros; lia.
  - apply fmap_Some in Hi as (i' & Hi' & ->). destruct (IH i' Hi') as (y & ? & ? & Hlt).
    exists y. split_and!; [done..|]. intros [|j] z ??; simplify_eq/=; [done|].
    apply (Hlt j); [lia|done].
Qed.

Lemma position_None {A} (p : A -> bool) l :
  position p l = None <-> Forall (fun x => p x = false) l.
Proof.
  induction l as [|x l IH]; simpl; [by split|].
  rewrite Forall_cons, <- IH. destruct (p x); [by split; [|intros []]|].
  destruct (position p l); simpl; intuition congruence.
Qed.

Lemma alter_is_insert {A} (f : A -> A) (i : nat) (l : list A) x :
  l !! i = Some x -> alter f i l = <[i := f x]> l.
Proof. intros Hi. rewrite list_insert_alter. apply list_alter_ext; naive_solver. Qed.

Lemma position_ext {A} (p q : A -> bool) l : (forall x, p x = q x) -> position p l = position q l.
Proof. intros Hpq. induction l as [|x l IH]; simpl; [done|]. by rewrite Hpq, IH. Qed.

Lemma existsb_position {A} (p : A -> bool) l :
  existsb p l = match position p l with Some _ => true | None => false end.
Proof.
  induction l as [|x l IH]; simpl; [done|]. rewrite IH. destruct (p x); [done|].
  by destruct (position p l).
Qed.

Lemma position_lookup {A} (p : A -> bool) l i x :
  l !! i = Some x -> p x = true ->
  (forall j y, (j < i)%nat -> l !! j = Some y -> p y = false) ->
  position p l = Some i.
Proof.
  revert i. induction l as [|z l IH]; intros i Hi Hp Hlt; [done|]. simpl.
  destruct i as [|i]; simplify_eq/=; [by rewrite Hp|].
  rewrite (Hlt 0%nat z) by (done || lia).
  rewrite (IH i); [done|done|done|]. intros j y ??. apply (Hlt (S j)); [lia|done].
Qed.

Lemma vec_remove_sublist {A} i (l : list A) : sublist (vec_remove i l) l.
Proof. revert i. induction l as [|x l IH]; intros [|i]; simpl; by constructor. Qed.

Lemma filter_filter {A} (p q : A -> bool) l :
  List.filter p (List.filter q l) = List.filter (fun x => q x && p x) l.
Proof.
  induction l as [|x l IH]; [done|]. simpl. destruct (q x); simpl; [by rewrite IH|done].
Qed.

Lemma filter_sublist {A} (f : A -> bool) (l : list A) : sublist (List.filter f l) l.
Proof. induction l as [|x l IH]; simpl; [done|]. destruct (f x); by constructor. Qed.

Lemma filter_StronglySorted {A} (R : A -> A -> Prop) (p : A -> bool) l : StronglySorted R l -> StronglySorted R (List.filter p l).
Proof.
  induction 1 as [|y l Hs IH Hy]; cbn; [constructor|]. destruct (p y); [|done]. constructor; [done|].
  apply Forall_forall. intros z [Hz _]%list_elem_of_In%List.filter_In. rewrite Forall_forall in Hy. by apply Hy, list_elem_of_In.
Qed.

#[export] Instance bool_filter_Permutation {A} (f : A -> bool) :
  Proper ((≡ₚ) ==> (≡ₚ)) (List.filter f).
Proof.
  induction 1 as [|x l l' _ IH|x y l|l l' l'' _ IH _ IH']; simpl; [done| | |by rewrite IH].
  - destruct (f x); by rewrite IH.
  - destruct (f x), (f y); [constructor|done..].
Qed.

Lemma sublist_Forall {A} (P : A -> Prop) l k : sublist l k -> Forall P k -> Forall P l.
Proof. induction 1; intros Hk; [done|..]; apply Forall_cons in Hk as [? ?]; auto. Qed.

Lemma vec_remove_length {A} i (l : list A) :
  (i < length l)%nat -> length (vec_remove i l) = (length l - 1)%nat.
Proof.
  revert i. induction l as [|x l IH]; intros [|i] Hi; simpl in *; [lia..|].
  rewrite IH; lia.
Qed.

Lemma vec_remove_middle {A} (l1 l2 : list A) x :
  vec_remove (length l1) (l1 ++ x :: l2) = l1 ++ l2.
Proof. induction l1; simpl; congruence. Qed.

Lemma vec_insert_length {A} i x (l : list A) : length (vec_insert i x l) = S (length l).
Proof. unfold vec_insert. rewrite length_app, length_take; simpl. rewrite length_drop. lia. Qed.

Lemma vec_insert_Permutation {A} i x (l : list A) : vec_insert i x l ≡ₚ x :: l.
Proof. unfold vec_insert. rewrite <- Permutation_middle. by rewrite take_drop. Qed.

(** ** Sorting and deduplication

    [values.sort(); values.dedup()]: [dedup] drops an element equal to the one before it. *)

Fixpoint dedup (l : list Z) : list Z :=
  match l with
  | x :: (y :: _) as l' => if x =? y then dedup l' else x :: dedup l'
  | _ => l
  end.

Definition sort_dedup (l : list Z) : list Z := dedup (merge_sort Z.le l).

Lemma elem_of_dedup l x : x ∈ dedup l <-> x ∈ l.
Proof.
  induction l as [|a [|b l] IH]; [done|done|].
  change (dedup (a :: b :: l)) with (if a =? b then dedup (b :: l) else a :: dedup (b :: l)).
  destruct (Z.eqb_spec a b) as [->|Hne]; rewrite ?elem_of_cons, IH, ?elem_of_cons; naive_solver.
Qed.

Lemma dedup_sorted l : StronglySorted Z.le l -> StronglySorted Z.lt (dedup l).
Proof.
  induction 1 as [|a l Hl IH Ha]; [constructor|]. destruct l as [|b l]; [by repeat constructor|].
  change (dedup (a :: b :: l)) with (if a =? b then dedup (b :: l) else a :: dedup (b :: l)).
  destruct (Z.eqb_spec a b) as [->|Hne]; [done|]. constructor; [done|].
  apply Forall_forall. intros x Hx. rewrite elem_of_dedup in Hx. apply StronglySorted_inv in Hl as [_ Hb].
  rewrite Forall_forall in Ha, Hb. pose proof (Ha b ltac:(constructor)).
  apply elem_of_cons in Hx as [->|Hx]; [lia|]. specialize (Hb x Hx). lia.
Qed.

Lemma elem_of_sort_dedup l x : x ∈ sort_dedup l <-> x ∈ l.
Proof. unfold sort_dedup. by rewrite elem_of_dedup, merge_sort_Permutation. Qed.

Lemma sort_dedup_sorted l : StronglySorted Z.lt (sort_dedup l).
Proof. apply dedup_sorted, (StronglySorted_merge_sort Z.le). Qed.

(** Looking up the keys of a map, in any order, gives each of its values once. *)
Lemma omap_perm_values {A} (m : gmap Z A) order :
  order ≡ₚ (map_to_list m).*1 -> omap (fun k => m !! k) order ≡ₚ (map_to_list m).*2.
Proof.
  intros ->. assert (Hsub : forall ka, ka ∈ map_to_list m -> m !! ka.1 = Some ka.2).
  { intros [k a]. apply elem_of_map_to_list. }
  revert Hsub. generalize (map_to_list m) as l. induction l as [|[k a] l IH]; intros Hsub; [done|].
  simpl. pose proof (Hsub (k, a) ltac:(constructor)) as Hk. simpl in Hk. rewrite Hk. f_equiv.
  apply IH. intros ka Hka. apply Hsub. by constructor.
Qed.

(** ** Flattened lists *)

Lemma elem_of_flat_map {A B} (f : A -> list B) l b : b ∈ flat_map f l <-> exists x, b ∈ f x /\ x ∈ l.
Proof.
  rewrite list_elem_of_In, in_flat_map. setoid_rewrite list_elem_of_In. naive_solver.
Qed.

Lemma elem_of_concat {A} (ll : list (list A)) x : x ∈ concat ll <-> exists l, x ∈ l /\ l ∈ ll.
Proof.
  induction ll as [|l ll IH]; cbn [concat].
  - rewrite elem_of_nil. split; [done|]. intros (l & _ & []%elem_of_nil).
  - rewrite elem_of_app, IH. setoid_rewrite elem_of_cons. naive_solver.
Qed.

Lemma NoDup_flat_map {A B} (f : A -> list B) l :
  (forall x, x ∈ l -> NoDup (f x)) ->
  (forall i j x y b, l !! i = Some x -> l !! j = Some y -> b ∈ f x -> b ∈ f y -> i = j) -> NoDup (flat_map f l).
Proof.
  induction l as [|x l IH]; intros Hx Hd; cbn [flat_map]; [constructor|]. apply NoDup_app. split_and!.
  - apply Hx. constructor.
  - intros b Hb (y & Hy & [j Hj]%list_elem_of_lookup)%elem_of_flat_map.
    by specialize (Hd O (Datatypes.S j) x y b eq_refl Hj Hb Hy).
  - apply IH; [intros y Hy; apply Hx; by constructor|]. intros i j y z b Hi Hj Hby Hbz.
    by specialize (Hd (Datatypes.S i) (Datatypes.S j) y z b Hi Hj Hby Hbz) as [= ->].
Qed.

(** ** Threads

    Threads of type [T] over a shared state [S]: [step] is what a thread does in one turn, and
    a schedule lists the threads in the order of their turns. *)

Section threads.
Context {S T : Type} (step : S -> T -> S * T).

Definition turn (x : S * list T) (i : nat) : S * list T :=
  match x.2 !! i with
  | Some t => let '(s, t') := step x.1 t in (s, <[i := t']> x.2)
  | None => x
  end.

Definition turns (x : S * list T) (sched : list nat) : S * list T := foldl turn x sched.

(** The turns of thread [i]. *)
Definition turns_of (i : nat) (sched : list nat) : nat := length (List.filter (Nat.eqb i) sched).

Lemma turns_nil s sched : turns (s, []) sched = (s, []).
Proof. induction sched as [|i sched IH]; [done|]. cbn [turns foldl]. exact IH. Qed.

(** A measure that every turn of a thread decreases is used up by as many turns. *)
Lemma turns_work (work : T -> nat) :
  (forall s t, work (step s t).2 <= pred (work t))%nat ->
  forall sched x i t, x.2 !! i = Some t ->
  exists t', (turns x sched).2 !! i = Some t' /\ (work t' <= work t - turns_of i sched)%nat.
Proof.
  intros Hwork sched. induction sched as [|j sched IH]; intros [s ts] i t Ht; cbn [snd] in *.
  { exists t. split; [done|]. cbn. lia. }
  cbn [turns foldl]. fold (turns (turn (s, ts) j) sched). unfold turns_of. cbn [List.filter].
  destruct (Nat.eqb_spec i j) as [<-|Hne].
  - specialize (Hwork s t). specialize (IH (turn (s, ts) i) i (step s t).2).
    unfold turn in IH. cbn [fst snd] in IH. rewrite Ht in IH. unfold turn. cbn [fst snd]. rewrite Ht.
    destruct (step s t) as [s' t1]. cbn [snd] in *.
    rewrite list_lookup_insert_eq in IH by by eapply lookup_lt_Some.
    destruct (IH eq_refl) as (t' & Hl & Hw). exists t'. split; [done|]. cbn [length].
    fold (turns_of i sched). lia.
  - fold (turns_of i sched). apply IH. unfold turn. cbn [fst snd]. destruct (ts !! j) as [u|]; [|done].
    destruct (step s u). cbn [snd]. by rewrite list_lookup_insert_ne.
Qed.

(** An invariant of every thread, relative to what the thread was given, that the thread keeps and that
    the others respect. *)
Lemma turns_Forall2 {U} (I : S -> U -> T -> Prop) (us : list U) :
  (forall i u s t, us !! i = Some u -> I s u t -> I (step s t).1 u (step s t).2) ->
  (forall i j u v s t t', us !! i = Some u -> us !! j = Some v -> i <> j -> I s u t -> I s v t' ->
     I (step s t).1 v t') ->
  forall sched x, Forall2 (I x.1) us x.2 -> Forall2 (I (turns x sched).1) us (turns x sched).2.
Proof.
  intros Hself Hother sched. induction sched as [|i sched IH]; intros [s ts] Hinv; [done|].
  cbn [turns foldl]. apply IH. unfold turn. cbn [fst snd] in *. destruct (ts !! i) as [t|] eqn:Ht; [|done].
  destruct (Forall2_lookup_r _ _ _ _ _ Hinv Ht) as (u & Hu & Hi).
  specialize (Hself i u s t Hu Hi). pose proof (fun j v t' => Hother i j u v s t t' Hu) as Ho.
  destruct (step s t) as [s' t1]. cbn [fst snd] in *. apply Forall2_lookup. intros j.
  destruct (decide (j = i)) as [->|Hne].
  - rewrite Hu, list_lookup_insert_eq by by eapply lookup_lt_Some. by constructor.
  - rewrite list_lookup_insert_ne by done. pose proof (proj1 (Forall2_lookup _ _ _) Hinv j) as Hj.
    destruct (us !! j) as [v|] eqn:Hv, (ts !! j) as [t'|] eqn:Ht'; inversion Hj; subst; constructor.
    by apply (Ho j v t').
Qed.

End threads.
