(* ===== verification/Text.v ===== *)
(** * Characters and decimal numbers

    A Rust [String] is a list of characters here, a [char] an [ascii]: the code
    points below 256 (Latin-1) are represented.  The file has the character classes
    of [char], integer parsing as [from_str] does it, decimal printing, and the
    splitting of a text at the first character outside a class. *)

From Stdlib Require Export Ascii.
From S2P Require Import Prelude.

Abbreviation chars := (list ascii).
Abbreviation to_string := String.string_of_list_ascii.
Abbreviation of_string := String.list_ascii_of_string.

Definition code (c : ascii) : Z := Z.of_N (N_of_ascii c).

Definition in_range (lo hi : Z) (c : ascii) : bool := (lo <=? code c) && (code c <=? hi).

Definition is_ascii_digit (c : ascii) : bool := in_range 48 57 c.
Definition is_upper (c : ascii) : bool := in_range 65 90 c.
Definition is_lower (c : ascii) : bool := in_range 97 122 c.
Definition is_ascii_alphabetic (c : ascii) : bool := is_upper c || is_lower c.
Definition is_ascii_alphanumeric (c : ascii) : bool := is_ascii_alphabetic c || is_ascii_digit c.

(** [char::is_whitespace] below U+0100. *)
Definition is_whitespace (c : ascii) : bool :=
  in_range 9 13 c || (code c =? 32) || (code c =? 0x85) || (code c =? 0xA0).

(** [to_uppercase] on ASCII letters, and [to_lowercase] on Latin-1. *)
Definition to_upper (c : ascii) : ascii :=
  if is_lower c then ascii_of_N (N_of_ascii c - 32) else c.
Definition to_lower (c : ascii) : ascii :=
  if is_upper c || (in_range 0xC0 0xDE c && negb (code c =? 0xD7))
  then ascii_of_N (N_of_ascii c + 32) else c.

(** ** Splitting *)

Fixpoint take_while (p : ascii -> bool) (l : chars) : chars :=
  match l with
  | c :: l => if p c then c :: take_while p l else []
  | [] => []
  end.

Fixpoint drop_while (p : ascii -> bool) (l : chars) : chars :=
  match l with
  | c :: l' => if p c then drop_while p l' else l
  | [] => []
  end.

(** [l] does not begin with a character of [p]. *)
Definition stops (p : ascii -> bool) (l : chars) : Prop :=
  match l with c :: _ => p c = false | [] => True end.

(** ** Decimal numbers *)

Definition digit_val (c : ascii) : Z := code c - 48.
Definition digit_char (d : Z) : ascii := ascii_of_N (Z.to_N (d + 48)).

Definition digits_val (l : chars) : Z := fold_left (fun acc c => 10 * acc + digit_val c) l 0.

(** [from_str] of an integer type with the range [lo .. hi]: an optional sign, [-] for signed
    types only, and at least one digit. *)
Definition parse_int (lo hi : Z) (s : chars) : option Z :=
  let '(neg, ds) := match s with
                    | c :: r => if code c =? 43 then (false, r)
                                else if (code c =? 45) && (lo <? 0) then (true, r) else (false, s)
                    | [] => (false, [])
                    end in
  match ds with
  | [] => None
  | _ => if forallb is_ascii_digit ds then
           let v := if neg then - digits_val ds else digits_val ds in
           if (lo <=? v) && (v <=? hi) then Some v else None
         else None
  end.

Definition I64_MIN : Z := - 2 ^ 63.
Definition I64_MAX : Z := 2 ^ 63 - 1.
Definition parse_i64 : chars -> option Z := parse_int I64_MIN I64_MAX.
Definition parse_u8 : chars -> option Z := parse_int 0 255.

(** The digits of a natural number, most significant first; the fuel bounds their number. *)
Fixpoint dec_digits (fuel : nat) (n : Z) : chars :=
  match fuel with
  | O => []
  | S fuel => if n <? 10 then [digit_char n] else dec_digits fuel (n / 10) ++ [digit_char (n mod 10)]
  end.

(** [Display] of an integer. *)
Definition print_int (n : Z) : chars :=
  let ds := dec_digits (S (Z.to_nat (Z.log2 (Z.abs n)))) (Z.abs n) in
  if n <? 0 then "-"%char :: ds else ds.

(** ** Lemmas *)

Lemma take_while_app p l rest :
  forallb p l = true -> stops p rest -> take_while p (l ++ rest) = l.
Proof.
  induction l as [|c l IH]; simpl; intros Hl Hr.
  - destruct rest as [|c rest]; [done|]. simpl in *. by rewrite Hr.
  - apply andb_prop in Hl as [-> Hl]. by rewrite IH.
Qed.

Lemma drop_while_app p l rest :
  forallb p l = true -> stops p rest -> drop_while p (l ++ rest) = rest.
Proof.
  induction l as [|c l IH]; simpl; intros Hl Hr.
  - destruct rest as [|c rest]; [done|]. simpl in *. by rewrite Hr.
  - apply andb_prop in Hl as [-> Hl]. by rewrite IH.
Qed.

Lemma drop_while_length p l : (length (drop_while p l) <= length l)%nat.
Proof. induction l as [|c l IH]; simpl; [done|]. destruct (p c); simpl; lia. Qed.

Lemma code_digit d : 0 <= d < 10 -> code (digit_char d) = d + 48.
Proof.
  intros Hd. unfold code, digit_char. rewrite N_ascii_embedding by lia. lia.
Qed.

Lemma digit_char_digit d : 0 <= d < 10 -> is_ascii_digit (digit_char d) = true.
Proof. intros Hd. unfold is_ascii_digit, in_range. rewrite code_digit by done. lia. Qed.

Lemma dec_digits_digits fuel n : 0 <= n -> forallb is_ascii_digit (dec_digits fuel n) = true.
Proof.
  revert n. induction fuel as [|fuel IH]; intros n Hn; simpl; [done|].
  destruct (Z.ltb_spec n 10); simpl; [by rewrite digit_char_digit by lia|].
  rewrite forallb_app, IH by (apply Z.div_pos; lia). simpl.
  by rewrite digit_char_digit by (apply Z.mod_pos_bound; lia).
Qed.

Lemma dec_digits_nonempty fuel n : dec_digits (S fuel) n <> [].
Proof. simpl. destruct (n <? 10); [done|]. by destruct (dec_digits fuel (n / 10)). Qed.

Lemma dec_digits_val fuel n :
  0 <= n < 2 ^ (Z.of_nat fuel) -> (0 < fuel)%nat -> digits_val (dec_digits fuel n) = n.
Proof.
  revert n. induction fuel as [|fuel IH]; intros n Hn Hf; [lia|].
  cbn [dec_digits]. destruct (Z.ltb_spec n 10).
  { unfold digits_val, digit_val. simpl. rewrite code_digit; lia. }
  assert (Hfuel : fuel <> 0%nat) by (intros ->; simpl in Hn; lia).
  assert (Hdiv : 0 <= n / 10 < 2 ^ Z.of_nat fuel).
  { split; [apply Z.div_pos; lia|]. apply Z.div_lt_upper_bound; [lia|].
    rewrite Nat2Z.inj_succ, Z.pow_succ_r in Hn by lia. lia. }
  unfold digits_val in *. rewrite fold_left_app, IH by lia. cbn [fold_left].
  pose proof (Z.mod_pos_bound n 10 ltac:(lia)). unfold digit_val. rewrite code_digit by lia.
  pose proof (Z.div_mod n 10). lia.
Qed.

Lemma print_digits_val n :
  0 <= n -> digits_val (dec_digits (S (Z.to_nat (Z.log2 n))) n) = n.
Proof.
  intros Hn. apply dec_digits_val; [|lia].
  rewrite Nat2Z.inj_succ, Z2Nat.id by apply Z.log2_nonneg.
  destruct (Z.eq_dec n 0) as [->|]; [done|]. split; [done|]. apply Z.log2_spec. lia.
Qed.

(** A printed integer of the range is parsed back. *)
Lemma parse_print_int lo hi n :
  lo <= n <= hi -> lo <= 0 -> parse_int lo hi (print_int n) = Some n.
Proof.
  intros Hn Hlo. unfold print_int. set (ds := dec_digits _ _).
  assert (Hd : forallb is_ascii_digit ds = true) by (apply dec_digits_digits; lia).
  assert (Hv : digits_val ds = Z.abs n) by (apply print_digits_val; lia).
  assert (Hne : ds <> []) by apply dec_digits_nonempty.
  clearbody ds. unfold parse_int. destruct (Z.ltb_spec n 0).
  - replace (code "-" =? 43) with false by done. replace (code "-" =? 45) with true by done.
    replace (lo <? 0) with true by lia. simpl. destruct ds as [|c ds]; [done|]. rewrite Hd.
    replace (- digits_val (c :: ds)) with n by lia.
    replace (lo <=? n) with true by lia. by replace (n <=? hi) with true by lia.
  - destruct ds as [|c ds]; [done|]. 
    assert (Hc : is_ascii_digit c = true) by (by destruct (andb_prop _ _ Hd)).
    unfold is_ascii_digit, in_range in Hc. replace (code c =? 43) with false by lia.
    replace (code c =? 45) with false by lia. simpl andb. cbv iota. rewrite Hd, Hv.
    replace (Z.abs n) with n by lia.
    replace (lo <=? n) with true by lia. replace (n <=? hi) with true by lia. done.
Qed.

Lemma forallb_rev {A} (p : A -> bool) l : forallb p (rev l) = forallb p l.
Proof. induction l as [|x l IH]; cbn; [done|]. rewrite forallb_app, IH. cbn. rewrite andb_true_r. apply andb_comm. Qed.

Lemma print_int_digits n : 0 <= n -> forallb is_ascii_digit (print_int n) = true.
Proof. intros Hn. unfold print_int. replace (n <? 0) with false by lia. apply dec_digits_digits. lia. Qed.

(** A printed number at the end of a text, after a character that is not a digit, can be read off. *)
Definition end_digits (s : chars) : chars := take_while is_ascii_digit (rev s).

Lemma end_digits_number a c n : is_ascii_digit c = false -> 0 <= n -> end_digits (a ++ c :: print_int n) = rev (print_int n).
Proof.
  intros Hc Hn. unfold end_digits. rewrite rev_app_distr. cbn [rev]. rewrite <- app_assoc. apply take_while_app; [|done].
  rewrite forallb_rev. by apply print_int_digits.
Qed.

Lemma end_number_inj a b c d n k :
  is_ascii_digit c = false -> is_ascii_digit d = false -> 0 <= n -> 0 <= k -> a ++ c :: print_int n = b ++ d :: print_int k -> n = k.
Proof.
  intros Hc Hd Hn Hk E. apply (f_equal end_digits) in E. rewrite !end_digits_number in E by done. apply (f_equal (@rev ascii)) in E.
  rewrite !rev_involutive in E. pose proof (parse_print_int 0 (Z.max n k) n ltac:(lia) ltac:(lia)) as P.
  rewrite E, (parse_print_int 0 (Z.max n k) k) in P by lia. congruence.
Qed.

