(* ===== verification/Slots.v ===== *)
(** * Fixed arrays of optional entries

    Several tables of the program are arrays whose slots are free or hold a
    keyed value, searched linearly ([AWORSet], [SlotMap], the workflow pools).
    This file gives such an array its meaning as a finite map, with the effect of
    overwriting, filling and freeing one slot. *)

From S2P Require Import Prelude.

Section slots.
Context {A K V : Type} `{Countable K} (view : A -> option (K * V)).
Implicit Types (l : list A) (k : K) (v : V).

Definition slot_pairs l : list (K * V) := omap view l.
Definition slots_map l : gmap K V := list_to_map (slot_pairs l).
Definition slots_nodup l : Prop := NoDup (slot_pairs l).*1.

(** The tests of the search loops: the slot of a key, and a free slot. *)
Definition slot_key k (a : A) : bool :=
  match view a with Some (k', _) => bool_decide (k' = k) | None => false end.
Definition slot_free (a : A) : bool :=
  match view a with Some _ => false | None => true end.

Lemma slot_pairs_cons a l : slot_pairs (a :: l) = option_list (view a) ++ slot_pairs l.
Proof. unfold slot_pairs. simpl. by destruct (view a). Qed.

Lemma slot_pairs_middle l1 l2 a :
  slot_pairs (l1 ++ a :: l2) ≡ₚ option_list (view a) ++ slot_pairs l1 ++ slot_pairs l2.
Proof.
  unfold slot_pairs. rewrite omap_app. simpl. destruct (view a); simpl; [|done].
  by rewrite Permutation_middle.
Qed.

Lemma slots_split l i a :
  l !! i = Some a ->
  exists l1 l2, l = l1 ++ a :: l2 /\ (forall a', <[i := a']> l = l1 ++ a' :: l2).
Proof.
  intros Hi. exists (take i l), (drop (S i) l). split; [by rewrite take_drop_middle|].
  intros a'. rewrite insert_take_drop; [done|]. by eapply lookup_lt_Some.
Qed.

(** Overwriting a slot of key [k] by another of the same key. *)
Lemma slots_update l i a a' k v v' :
  slots_nodup l -> l !! i = Some a -> view a = Some (k, v) -> view a' = Some (k, v') ->
  slots_map (<[i := a']> l) = <[k := v']> (slots_map l) /\ slots_nodup (<[i := a']> l) /\
  length (slot_pairs (<[i := a']> l)) = length (slot_pairs l).
Proof.
  intros Hnd Hi Ha Ha'. destruct (slots_split l i a Hi) as (l1 & l2 & -> & ->).
  unfold slots_nodup, slots_map in *. pose proof (slot_pairs_middle l1 l2 a) as Hp.
  pose proof (slot_pairs_middle l1 l2 a') as Hp'. rewrite Ha in Hp. rewrite Ha' in Hp'. simpl in *.
  assert (Hnd' : NoDup (slot_pairs (l1 ++ a' :: l2)).*1).
  { rewrite Hp'. rewrite Hp in Hnd. done. }
  rewrite (list_to_map_proper _ _ Hnd Hp), (list_to_map_proper _ _ Hnd' Hp'). simpl.
  rewrite insert_insert_eq. split_and!; [done|done|]. by rewrite Hp, Hp'.
Qed.

(** Filling a free slot with a key the array does not hold. *)
Lemma slots_fill l i a a' k v' :
  slots_nodup l -> l !! i = Some a -> view a = None -> view a' = Some (k, v') ->
  slots_map l !! k = None ->
  slots_map (<[i := a']> l) = <[k := v']> (slots_map l) /\ slots_nodup (<[i := a']> l) /\
  length (slot_pairs (<[i := a']> l)) = S (length (slot_pairs l)).
Proof.
  intros Hnd Hi Ha Ha' Hk. destruct (slots_split l i a Hi) as (l1 & l2 & -> & ->).
  unfold slots_nodup, slots_map in *. pose proof (slot_pairs_middle l1 l2 a) as Hp.
  pose proof (slot_pairs_middle l1 l2 a') as Hp'. rewrite Ha in Hp. rewrite Ha' in Hp'. simpl in *.
  apply not_elem_of_list_to_map in Hk.
  assert (Hnd' : NoDup (slot_pairs (l1 ++ a' :: l2)).*1).
  { rewrite Hp'. simpl. constructor; rewrite <- Hp; done. }
  rewrite (list_to_map_proper _ _ Hnd Hp), (list_to_map_proper _ _ Hnd' Hp'). simpl.
  split_and!; [done|done|]. by rewrite Hp, Hp'.
Qed.

(** Growing the array by a slot with a key it does not hold. *)
Lemma slots_snoc l a k v :
  slots_nodup l -> view a = Some (k, v) -> slots_map l !! k = None ->
  slots_map (l ++ [a]) = <[k := v]> (slots_map l) /\ slots_nodup (l ++ [a]) /\
  length (slot_pairs (l ++ [a])) = S (length (slot_pairs l)).
Proof.
  intros Hnd Ha Hk. pose proof (slot_pairs_middle l [] a) as Hp. rewrite Ha in Hp. simpl in Hp.
  rewrite (app_nil_r (slot_pairs l)) in Hp. unfold slots_nodup, slots_map in *.
  apply not_elem_of_list_to_map in Hk.
  assert (Hnd' : NoDup (slot_pairs (l ++ [a])).*1) by (rewrite Hp; simpl; by constructor).
  rewrite (list_to_map_proper _ _ Hnd' Hp). split_and!; [done|done|]. by rewrite Hp.
Qed.

(** Freeing the slot of key [k]. *)
Lemma slots_clear l i a a' k v :
  slots_nodup l -> l !! i = Some a -> view a = Some (k, v) -> view a' = None ->
  slots_map (<[i := a']> l) = delete k (slots_map l) /\ slots_nodup (<[i := a']> l) /\
  S (length (slot_pairs (<[i := a']> l))) = length (slot_pairs l).
Proof.
  intros Hnd Hi Ha Ha'. destruct (slots_split l i a Hi) as (l1 & l2 & -> & ->).
  unfold slots_nodup, slots_map in *. pose proof (slot_pairs_middle l1 l2 a) as Hp.
  pose proof (slot_pairs_middle l1 l2 a') as Hp'. rewrite Ha in Hp. rewrite Ha' in Hp'. simpl in *.
  rewrite Hp in Hnd. simpl in Hnd. apply NoDup_cons in Hnd as [Hk Hnd].
  assert (Hnd' : NoDup (slot_pairs (l1 ++ a' :: l2)).*1) by by rewrite Hp'.
  rewrite (list_to_map_proper _ _ Hnd' Hp').
  rewrite (list_to_map_proper (slot_pairs (l1 ++ a :: l2)) _ ltac:(rewrite Hp; by constructor) Hp). simpl.
  rewrite delete_insert_id by by apply not_elem_of_list_to_map.
  split_and!; [done|done|]. by rewrite Hp, Hp'.
Qed.

(** What the search for a key finds. *)
Lemma slots_position_Some l k i :
  slots_nodup l -> position (slot_key k) l = Some i ->
  exists a v, l !! i = Some a /\ view a = Some (k, v) /\ slots_map l !! k = Some v.
Proof.
  intros Hnd (a & Hi & Hkey & _)%position_Some. unfold slot_key in Hkey.
  destruct (view a) as [[k' v]|] eqn:Ha; [|done]. apply bool_decide_eq_true in Hkey as ->.
  exists a, v. split_and!; [done|done|]. destruct (slots_split l i a Hi) as (l1 & l2 & -> & _).
  unfold slots_map. apply elem_of_list_to_map_1; [done|]. rewrite slot_pairs_middle, Ha. simpl. by left.
Qed.

Lemma slots_position_None l k :
  position (slot_key k) l = None <-> slots_map l !! k = None.
Proof.
  unfold slots_map. rewrite <- not_elem_of_list_to_map, position_None.
  unfold slot_pairs. rewrite Forall_forall. split.
  - intros Hall ((k' & v) & -> & (a & Ha & Hv)%list_elem_of_omap)%list_elem_of_fmap.
    specialize (Hall a Ha). unfold slot_key in Hall. rewrite Hv in Hall. simpl in Hall.
    by rewrite bool_decide_eq_true_2 in Hall.
  - intros Hk a Ha. unfold slot_key. destruct (view a) as [[k' v]|] eqn:Hv; [|done].
    apply bool_decide_eq_false. intros ->. apply Hk. apply list_elem_of_fmap.
    exists (k, v). split; [done|]. apply list_elem_of_omap. eauto.
Qed.

Lemma slots_lookup_position l k :
  slots_nodup l ->
  slots_map l !! k = position (slot_key k) l ≫= fun i => (l !! i ≫= view) ≫= fun p => Some p.2.
Proof.
  intros Hnd. destruct (position (slot_key k) l) as [i|] eqn:Hp; simpl.
  - destruct (slots_position_Some l k i Hnd Hp) as (a & v & -> & Ha & ->). simpl. by rewrite Ha.
  - by apply slots_position_None.
Qed.

Lemma slots_full l :
  position slot_free l = None -> length (slot_pairs l) = length l.
Proof.
  intros Hp%position_None. unfold slot_pairs. induction Hp as [|a l Ha _ IH]; [done|].
  simpl. unfold slot_free in Ha. destruct (view a); [|done]. simpl. by f_equal.
Qed.

(** A free slot exists as long as some slot holds nothing. *)
Lemma slots_free_exists l :
  (length (slot_pairs l) < length l)%nat -> exists i, position slot_free l = Some i.
Proof.
  intros Hlt. destruct (position slot_free l) as [i|] eqn:Hp; [eauto|].
  apply slots_full in Hp. lia.
Qed.

Lemma slots_free_view l i : position slot_free l = Some i -> exists a, l !! i = Some a /\ view a = None.
Proof.
  intros (a & Hi & Ha & _)%position_Some. exists a. unfold slot_free in Ha. by destruct (view a).
Qed.

Lemma slot_pairs_length l : (length (slot_pairs l) <= length l)%nat.
Proof. unfold slot_pairs. induction l as [|a l IH]; simpl; [lia|].
  destruct (view a); simpl; [by apply le_n_S|by apply le_S]. Qed.

Lemma slots_size l : slots_nodup l -> size (slots_map l) = length (slot_pairs l).
Proof.
  intros Hnd. unfold slots_map. rewrite <- length_map_to_list. apply Permutation_length.
  by apply map_to_list_to_map.
Qed.

Lemma slots_empty n a : view a = None -> slot_pairs (replicate n a) = [].
Proof. intros Ha. unfold slot_pairs. induction n as [|n IH]; simpl; [done|]. by rewrite Ha. Qed.

End slots.
