(* ===== verification/Bitmask.v ===== *)
(** * Step bitmask ([velocity-workflow-core/src/bitmask.rs])

    [Bitmask256] is the 256-bit completion vector of a workflow, four [u64]
    words.  The file models every operation and shows that the bitmask
    implements a finite set of step indices below 256. *)

From S2P Require Import Prelude.

Module Bitmask.

Record Bitmask256 : Type := mkBitmask { bits : list Z }.

Definition bitmask_new : Bitmask256 := mkBitmask [0; 0; 0; 0].

(** [set_step]: out-of-range indices are refused and change nothing. *)
Definition set_step (m : Bitmask256) (step_index : Z) : Bitmask256 * bool :=
  if 256 <=? step_index then (m, false)
  else
    let word := Z.to_nat (step_index / 64) in
    let bit := step_index mod 64 in
    (mkBitmask (<[word := (bits m !!! word) ||| (1 <<< bit)]> (bits m)), true).

Definition is_step_set (m : Bitmask256) (step_index : Z) : bool :=
  if 256 <=? step_index then false
  else
    let word := Z.to_nat (step_index / 64) in
    let bit := step_index mod 64 in
    negb (((bits m !!! word) &&& (1 <<< bit)) =? 0).

Definition clear_step (m : Bitmask256) (step_index : Z) : Bitmask256 * bool :=
  if 256 <=? step_index then (m, false)
  else
    let word := Z.to_nat (step_index / 64) in
    let bit := step_index mod 64 in
    (mkBitmask (<[word := (bits m !!! word) &&& unot 64 (1 <<< bit)]> (bits m)), true).

Definition count_completed (m : Bitmask256) : Z :=
  count_ones 64 (bits m !!! 0%nat) + count_ones 64 (bits m !!! 1%nat)
  + count_ones 64 (bits m !!! 2%nat) + count_ones 64 (bits m !!! 3%nat).

(** ** Well-formedness: four 64-bit words. *)

Definition bitmask_wf (m : Bitmask256) : Prop :=
  length (bits m) = 4%nat /\ Forall u64 (bits m).

(** The abstract value: the set of completed steps. *)
Definition steps (m : Bitmask256) : gset Z :=
  list_to_set (filter (fun i => is_step_set m i = true) (seqZ 0 256)).

Section facts.
Implicit Types m : Bitmask256.

Lemma word_u64 m k : bitmask_wf m -> (k < 4)%nat -> u64 (bits m !!! k).
Proof.
  intros [Hl Hf] Hk. destruct (lookup_lt_is_Some_2 (bits m) k) as [w Hw]; [lia|].
  rewrite (list_lookup_total_correct _ _ _ Hw). by eapply Forall_lookup_1.
Qed.

Lemma word_index i : 0 <= i < 256 -> (Z.to_nat (i / 64) < 4)%nat.
Proof. intros. assert (0 <= i / 64 < 4) by (split; [apply Z.div_pos|apply Z.div_lt_upper_bound]; lia). lia. Qed.

Lemma bit_index i : 0 <= i mod 64 < 64.
Proof. apply Z.mod_pos_bound. lia. Qed.

(** The membership test in terms of the bit it reads. *)
Lemma is_step_set_testbit m i :
  bitmask_wf m -> 0 <= i < 256 ->
  is_step_set m i = Z.testbit (bits m !!! Z.to_nat (i / 64)) (i mod 64).
Proof.
  intros Hm Hi. unfold is_step_set. destruct (Z.leb_spec 256 i); [lia|].
  apply testbit_land_nonzero; [|apply bit_index].
  apply (word_u64 m _ Hm). by apply word_index.
Qed.

Lemma is_step_set_range m i : is_step_set m i = true -> i < 256.
Proof. unfold is_step_set. destruct (Z.leb_spec 256 i); [done|lia]. Qed.

Lemma elem_of_steps m i : i ∈ steps m <-> 0 <= i < 256 /\ is_step_set m i = true.
Proof.
  unfold steps. rewrite elem_of_list_to_set, list_elem_of_filter, elem_of_seqZ. intuition lia.
Qed.

Lemma bitmask_new_wf : bitmask_wf bitmask_new.
Proof. split; [done|]. repeat constructor; unfold fits; lia. Qed.

Lemma same_bit i j :
  0 <= i -> 0 <= j -> i / 64 = j / 64 -> i mod 64 = j mod 64 -> i = j.
Proof. intros. rewrite (Z.div_mod i 64), (Z.div_mod j 64) by lia. congruence. Qed.

(** A word update seen through the membership test. *)
Lemma is_step_set_update m i w j :
  bitmask_wf m -> 0 <= i < 256 -> 0 <= j < 256 -> u64 w ->
  let m' := mkBitmask (<[Z.to_nat (i / 64) := w]> (bits m)) in
  bitmask_wf m' /\
  is_step_set m' j =
    if decide (i / 64 = j / 64) then Z.testbit w (j mod 64) else is_step_set m j.
Proof.
  intros Hm Hi Hj Hw m'. assert (Hm' : bitmask_wf m').
  { destruct Hm as [Hl Hf]. split; simpl; [by rewrite length_insert|].
    by apply Forall_insert. }
  split; [done|]. rewrite !is_step_set_testbit by done. simpl. case_decide as Heq.
  - rewrite <- Heq, list_lookup_total_insert_eq; [done|].
    destruct Hm as [-> _]. by apply word_index.
  - rewrite list_lookup_total_insert_ne; [done|].
    pose proof (Z.div_pos i 64). pose proof (Z.div_pos j 64). lia.
Qed.

Lemma set_step_spec m i j :
  bitmask_wf m -> 0 <= i < 256 -> 0 <= j < 256 ->
  bitmask_wf (set_step m i).1 /\
  is_step_set (set_step m i).1 j = bool_decide (i = j) || is_step_set m j.
Proof.
  intros Hm Hi Hj. unfold set_step. destruct (Z.leb_spec 256 i); [lia|]. simpl.
  pose proof (word_u64 m _ Hm (word_index i Hi)) as Hw. pose proof (bit_index i) as Hb.
  destruct (is_step_set_update m i ((bits m !!! Z.to_nat (i / 64)) ||| (1 <<< (i mod 64))) j)
    as [Hm' ->]; auto with velocity lia.
  split; [done|]. case_decide as Heq.
  - rewrite Z.lor_spec, testbit_shiftl1, orb_comm by lia.
    rewrite (is_step_set_testbit m j), <- Heq by done. f_equal.
    apply bool_decide_ext. split; [|by intros ->]. intros. apply same_bit; lia.
  - rewrite bool_decide_false; [done|]. by intros ->.
Qed.

Lemma clear_step_spec m i j :
  bitmask_wf m -> 0 <= i < 256 -> 0 <= j < 256 ->
  bitmask_wf (clear_step m i).1 /\
  is_step_set (clear_step m i).1 j = negb (bool_decide (i = j)) && is_step_set m j.
Proof.
  intros Hm Hi Hj. unfold clear_step. destruct (Z.leb_spec 256 i); [lia|]. simpl.
  pose proof (word_u64 m _ Hm (word_index i Hi)) as Hw. pose proof (bit_index i) as Hb.
  pose proof (bit_index j) as Hbj.
  pose proof (unot_fits 64 (1 <<< (i mod 64)) ltac:(lia)) as [Hu _].
  destruct (is_step_set_update m i
    ((bits m !!! Z.to_nat (i / 64)) &&& unot 64 (1 <<< (i mod 64))) j)
    as [Hm' ->]; auto with velocity lia.
  split; [done|]. case_decide as Heq.
  - rewrite Z.land_spec, unot_spec, testbit_shiftl1, andb_comm by lia.
    rewrite (is_step_set_testbit m j), <- Heq by done. do 2 f_equal.
    apply bool_decide_ext. split; [|by intros ->]. intros. apply same_bit; lia.
  - rewrite bool_decide_false; [done|]. by intros ->.
Qed.

(** The words of the mask enumerate the steps in order. *)
Lemma count_word m k :
  bitmask_wf m -> (k < 4)%nat ->
  length (filter (fun i => is_step_set m i = true) (seqZ (64 * Z.of_nat k) 64)) =
  length (filter (fun i => Z.testbit (bits m !!! k) i = true) (seqZ 0 64)).
Proof.
  intros Hm Hk. replace (seqZ (64 * Z.of_nat k) 64)
    with (Z.add (64 * Z.of_nat k) <$> seqZ 0 64) by (rewrite fmap_add_seqZ; f_equal; lia).
  rewrite length_filter_fmap. apply length_filter_ext. intros i Hi%elem_of_seqZ.
  rewrite is_step_set_testbit by (done || lia).
  rewrite Z.mul_comm, Z.add_comm, Z.div_add, Z.mod_add, Z.div_small, Z.mod_small by lia.
  by rewrite Z.add_0_l, Nat2Z.id.
Qed.

Lemma count_completed_size m :
  bitmask_wf m -> count_completed m = Z.of_nat (size (steps m)).
Proof.
  intros Hm. unfold steps. rewrite size_list_to_set.
  2: { apply NoDup_filter, NoDup_seqZ. }
  change 256 with (64 + (64 + (64 + 64))). rewrite !seqZ_app by lia.
  rewrite !filter_app, !length_app.
  change (0 + 64 + 64 + 64) with 192. change (0 + 64 + 64) with 128. change (0 + 64) with 64.
  pose proof (count_word m 0 Hm ltac:(lia)) as H0. change (64 * Z.of_nat 0) with 0 in H0.
  pose proof (count_word m 1 Hm ltac:(lia)) as H1. change (64 * Z.of_nat 1) with 64 in H1.
  pose proof (count_word m 2 Hm ltac:(lia)) as H2. change (64 * Z.of_nat 2) with 128 in H2.
  pose proof (count_word m 3 Hm ltac:(lia)) as H3. change (64 * Z.of_nat 3) with 192 in H3.
  rewrite H0, H1, H2, H3. unfold count_completed, count_ones.
  change (Z.of_nat 64) with 64. lia.
Qed.

Lemma steps_set m i :
  bitmask_wf m -> 0 <= i < 256 -> steps (set_step m i).1 = {[i]} ∪ steps m.
Proof.
  intros Hm Hi. apply set_eq. intros j. rewrite elem_of_union, elem_of_singleton, !elem_of_steps.
  destruct (decide (0 <= j < 256)) as [Hj|]; [|intuition lia].
  destruct (set_step_spec m i j) as [_ ->]; [done..|].
  rewrite orb_true_iff, bool_decide_eq_true. intuition congruence.
Qed.

Lemma steps_clear m i :
  bitmask_wf m -> 0 <= i < 256 -> steps (clear_step m i).1 = steps m ∖ {[i]}.
Proof.
  intros Hm Hi. apply set_eq. intros j.
  rewrite elem_of_difference, elem_of_singleton, !elem_of_steps.
  destruct (decide (0 <= j < 256)) as [Hj|]; [|intuition lia].
  destruct (clear_step_spec m i j) as [_ ->]; [done..|].
  rewrite andb_true_iff, negb_true_iff, bool_decide_eq_false. intuition congruence.
Qed.

Lemma set_step_wf m i : bitmask_wf m -> 0 <= i -> bitmask_wf (set_step m i).1.
Proof.
  intros Hm Hi. destruct (decide (i < 256)).
  - apply (set_step_spec m i 0); (done || lia).
  - unfold set_step. destruct (Z.leb_spec 256 i); [done|lia].
Qed.

Lemma steps_new : steps bitmask_new = ∅.
Proof. reflexivity. Qed.
End facts.

#[export] Hint Resolve bitmask_new_wf set_step_wf : velocity.

(** The bitmask implements a finite set of step indices below 256:
    [set_step] adds the index, [clear_step] removes it, [is_step_set] is
    membership and [count_completed] the cardinality; the operations keep the
    mask well formed, and indices from 256 on are refused without effect. *)
Theorem bitmask_refines_set (m : Bitmask256) (i : Z) (Hm : bitmask_wf m) (Hi : 0 <= i) :
  (i < 256 ->
     (set_step m i).2 = true /\ (clear_step m i).2 = true /\
     bitmask_wf (set_step m i).1 /\ bitmask_wf (clear_step m i).1 /\
     steps (set_step m i).1 = {[i]} ∪ steps m /\
     steps (clear_step m i).1 = steps m ∖ {[i]}) /\
  (256 <= i -> set_step m i = (m, false) /\ clear_step m i = (m, false)) /\
  is_step_set m i = bool_decide (i ∈ steps m) /\
  count_completed m = Z.of_nat (size (steps m)).
Proof.
  split_and!.
  - intros Hlt. unfold set_step, clear_step. split_and!.
    1,2: destruct (Z.leb_spec 256 i); [lia|done].
    + by apply set_step_wf.
    + apply (clear_step_spec m i 0); (done || lia).
    + by apply steps_set.
    + by apply steps_clear.
  - intros Hge. unfold set_step, clear_step. destruct (Z.leb_spec 256 i); [done|lia].
  - apply eq_bool_prop_intro. rewrite bool_decide_spec, elem_of_steps.
    rewrite Is_true_true. split; [|tauto]. intros Ht.
    pose proof (is_step_set_range m i Ht). auto.
  - by apply count_completed_size.
Qed.

Lemma bitmask_refines_set_witness :
  bitmask_wf (set_step bitmask_new 42).1 /\
  count_completed (set_step (set_step bitmask_new 42).1 255).1 = 2 /\
  is_step_set (set_step bitmask_new 42).1 42 = true.
Proof.
  assert (Hw : bitmask_wf (set_step bitmask_new 42).1)
    by (apply set_step_wf; [apply bitmask_new_wf|lia]).
  split_and!; [done|vm_compute; reflexivity|].
  destruct (bitmask_refines_set (set_step bitmask_new 42).1 42 Hw ltac:(lia)) as (_ & _ & -> & _).
  vm_compute. reflexivity.
Defined.

End Bitmask.
