(* ===== verification/Slab.v ===== *)
(** * Slab and NDA headers ([velocity-workflow-core/src/slab.rs], [nda.rs], [wal.rs])

    A workflow's [SlabHeader] carries its identity, the step bitmask and a
    SHA-256 root that is chained from step to step.  SHA-256 comes from the
    [sha2] crate and is the parameter [sha256] of the class [Sha256]; nothing is
    assumed of it beyond the size of its output.  Security statements say
    explicitly on which messages they need it to be free of collisions. *)

From S2P Require Import Prelude Bitmask.
Import Bitmask.

(** The interface of the hash: 32 bytes out. *)
Class Sha256 := {
  sha256 : bytes -> bytes;
  sha256_length : forall m, length (sha256 m) = 32%nat;
  sha256_bytes : forall m, is_bytes (sha256 m);
}.

(** [sha256] has no collision among the messages [ms]. *)
Definition collision_free `{Sha256} (ms : list bytes) : Prop :=
  Forall (fun m1 => Forall (fun m2 => sha256 m1 = sha256 m2 -> m1 = m2) ms) ms.

Lemma collision_free_eq `{Sha256} ms m1 m2 :
  collision_free ms -> m1 ∈ ms -> m2 ∈ ms -> sha256 m1 = sha256 m2 -> m1 = m2.
Proof.
  intros Hcf H1 H2. unfold collision_free in Hcf.
  rewrite Forall_forall in Hcf. specialize (Hcf _ H1). rewrite Forall_forall in Hcf. auto.
Qed.

Lemma collision_free_sub `{Sha256} ms ms' : ms' ⊆ ms -> collision_free ms -> collision_free ms'.
Proof.
  intros Hsub Hcf. apply Forall_forall. intros m1 H1. apply Forall_forall. intros m2 H2.
  apply (collision_free_eq ms); auto.
Qed.

(** A concrete instance for the examples: a polynomial digest modulo a prime. *)
Definition poly_digest (m : bytes) : bytes :=
  le_bytes 32 (fold_left (fun acc b => (acc * 257 + b + 1) mod 1000000007) m 0).

Definition poly_sha : Sha256 := {|
  sha256 := poly_digest;
  sha256_length m := le_bytes_length 32 _;
  sha256_bytes m := le_bytes_is_bytes 32 _;
|}.

Definition zero_root : bytes := replicate 32 0.

Module Slab.

Definition MAGIC_VLCT : Z := 0x564C4354.
Definition CURRENT_SCHEMA_VERSION : Z := 1.

Record SlabHeader : Type := mkSlab {
  magic : Z;
  schema_version : Z;
  workflow_id : Z;
  run_id : Z;
  current_step : Z;
  total_steps : Z;
  merkle_root : bytes;
  step_bitmask : Bitmask256;
  prev_merkle_root : bytes;
}.

(** The bytes fed to the hasher, in the order of the [update] calls. *)
Definition slab_preimage (h : SlabHeader) : bytes :=
  le_bytes 4 (magic h) ++ le_bytes 4 (schema_version h) ++
  le_bytes 8 (workflow_id h) ++ le_bytes 8 (run_id h) ++
  le_bytes 4 (current_step h) ++ le_bytes 4 (total_steps h) ++
  prev_merkle_root h ++ flat_map (le_bytes 8) (bits (step_bitmask h)).

Section Hash.
Context `{Sha256}.

Definition recalculate_merkle_root (h : SlabHeader) : SlabHeader :=
  mkSlab (magic h) (schema_version h) (workflow_id h) (run_id h) (current_step h)
    (total_steps h) (sha256 (slab_preimage h)) (step_bitmask h) (prev_merkle_root h).

Definition verify_merkle_root (h : SlabHeader) : bool :=
  bool_decide (merkle_root h = sha256 (slab_preimage h)).

Definition new_chained (wid rid total : Z) (prev_root : bytes) : SlabHeader :=
  recalculate_merkle_root
    (mkSlab MAGIC_VLCT CURRENT_SCHEMA_VERSION wid rid 0 total zero_root bitmask_new prev_root).

Definition slab_new (wid rid total : Z) : SlabHeader :=
  recalculate_merkle_root
    (mkSlab MAGIC_VLCT CURRENT_SCHEMA_VERSION wid rid 0 total zero_root bitmask_new zero_root).

Definition slab_is_valid (h : SlabHeader) : bool := magic h =? MAGIC_VLCT.

Definition mark_step_completed (h : SlabHeader) (step_index : Z) : SlabHeader * bool :=
  let '(mask, ok) := set_step (step_bitmask h) step_index in
  if ok then
    (recalculate_merkle_root
       (mkSlab (magic h) (schema_version h) (workflow_id h) (run_id h)
          (wrap 32 (step_index + 1)) (total_steps h) (merkle_root h) mask (merkle_root h)),
     true)
  else (h, false).

(** [wal_append_step] of the core crate: the error codes -1 and -2. *)
Definition wal_append_step (h : SlabHeader) (step_index : Z) : SlabHeader * result unit Z :=
  if total_steps h <=? step_index then (h, Err (-1))
  else
    let '(h', ok) := mark_step_completed h step_index in
    if ok then (h', Ok tt) else (h', Err (-2)).

(** A run of the slab: the steps completed in order. *)
Definition run_steps (h : SlabHeader) (ss : list Z) : SlabHeader :=
  fold_left (fun h s => (mark_step_completed h s).1) ss h.

(** Every message hashed along a run, the initial header's included. *)
Fixpoint hashed (h : SlabHeader) (ss : list Z) : list bytes :=
  slab_preimage h ::
  match ss with
  | [] => []
  | s :: ss => hashed (mark_step_completed h s).1 ss
  end.

(** ** Well-formedness *)

Definition root_ok (r : bytes) : Prop := length r = 32%nat /\ is_bytes r.

Definition slab_wf (h : SlabHeader) : Prop :=
  u32 (magic h) /\ u32 (schema_version h) /\ u64 (workflow_id h) /\ u64 (run_id h) /\
  u32 (current_step h) /\ u32 (total_steps h) /\ root_ok (merkle_root h) /\
  bitmask_wf (step_bitmask h) /\ root_ok (prev_merkle_root h).

Lemma zero_root_ok : root_ok zero_root.
Proof. split; [done|]. apply Forall_replicate. unfold fits; lia. Qed.

Lemma sha256_root_ok m : root_ok (sha256 m).
Proof. split; [apply sha256_length|apply sha256_bytes]. Qed.

Lemma recalculate_wf h : slab_wf h -> slab_wf (recalculate_merkle_root h).
Proof. unfold slab_wf. simpl. intuition auto using sha256_root_ok. Qed.

Lemma new_chained_wf wid rid total prev :
  u64 wid -> u64 rid -> u32 total -> root_ok prev -> slab_wf (new_chained wid rid total prev).
Proof.
  intros. apply recalculate_wf. unfold slab_wf; simpl. split_and!; try done.
  all: apply zero_root_ok || apply bitmask_new_wf || (vm_compute; done) || (split; vm_compute; done).
Qed.

Lemma slab_new_chained wid rid total : slab_new wid rid total = new_chained wid rid total zero_root.
Proof. reflexivity. Qed.

Lemma mark_step_ok h s :
  0 <= s < 256 ->
  mark_step_completed h s =
    (recalculate_merkle_root
       (mkSlab (magic h) (schema_version h) (workflow_id h) (run_id h)
          (s + 1) (total_steps h) (merkle_root h) (set_step (step_bitmask h) s).1
          (merkle_root h)), true).
Proof.
  intros Hs. unfold mark_step_completed, set_step.
  destruct (Z.leb_spec 256 s); [lia|]. rewrite wrap_id; [done|]. unfold fits; lia.
Qed.

Lemma mark_step_oob h s : 256 <= s -> mark_step_completed h s = (h, false).
Proof. intros. unfold mark_step_completed, set_step. destruct (Z.leb_spec 256 s); [done|lia]. Qed.

Lemma mark_step_wf h s : slab_wf h -> 0 <= s < 256 -> slab_wf (mark_step_completed h s).1.
Proof.
  intros Hh Hs. rewrite mark_step_ok by done. apply recalculate_wf.
  unfold slab_wf in *; simpl. split_and!; intuition auto with velocity.
  all: unfold fits; lia.
Qed.

Lemma recalculate_verifies h : verify_merkle_root (recalculate_merkle_root h) = true.
Proof. unfold verify_merkle_root, slab_preimage. simpl. by rewrite bool_decide_true. Qed.

Lemma run_steps_snoc h ss s :
  run_steps h (ss ++ [s]) = (mark_step_completed (run_steps h ss) s).1.
Proof. unfold run_steps. by rewrite fold_left_app. Qed.

Lemma run_steps_wf h ss :
  slab_wf h -> Forall (fun s => 0 <= s < 256) ss -> slab_wf (run_steps h ss).
Proof.
  induction ss as [|s ss IH] using rev_ind; intros Hh Hss; [done|].
  apply Forall_snoc in Hss as [Hss Hs].
  rewrite run_steps_snoc. apply mark_step_wf; [by apply IH|done].
Qed.

Lemma run_steps_identity h ss :
  Forall (fun s => 0 <= s < 256) ss ->
  let h' := run_steps h ss in
  magic h' = magic h /\ schema_version h' = schema_version h /\
  workflow_id h' = workflow_id h /\ run_id h' = run_id h /\ total_steps h' = total_steps h.
Proof.
  induction ss as [|s ss IH] using rev_ind; intros Hss; [done|].
  apply Forall_snoc in Hss as [Hss Hs].
  rewrite run_steps_snoc, mark_step_ok by done. simpl. apply (IH Hss).
Qed.

(** ** The preimage determines every hashed field *)

Lemma words_inj ws ws' :
  Forall u64 ws -> Forall u64 ws' ->
  flat_map (le_bytes 8) ws = flat_map (le_bytes 8) ws' -> ws = ws'.
Proof.
  intros Hws. revert ws'. induction Hws as [|w ws Hw Hws IH]; intros ws' Hws' Heq.
  - destruct Hws' as [|w' ws' ? ?]; [done|]. by apply (f_equal length) in Heq.
  - destruct Hws' as [|w' ws' Hw' Hws']; [by apply (f_equal length) in Heq|].
    change (le_bytes 8 w ++ flat_map (le_bytes 8) ws =
            le_bytes 8 w' ++ flat_map (le_bytes 8) ws') in Heq.
    apply app_inj_1 in Heq as [H1 H2]; [|by rewrite !le_bytes_length].
    f_equal; [|by apply IH]. by eapply (le_bytes_inj 8 64).
Qed.

Ltac split_app H :=
  apply app_inj_1 in H as [? H]; [|by rewrite ?le_bytes_length].

Lemma slab_preimage_inj h h' :
  slab_wf h -> slab_wf h' -> slab_preimage h = slab_preimage h' ->
  h' = mkSlab (magic h) (schema_version h) (workflow_id h) (run_id h) (current_step h)
         (total_steps h) (merkle_root h') (step_bitmask h) (prev_merkle_root h).
Proof.
  unfold slab_wf, slab_preimage. destruct h as [a1 a2 a3 a4 a5 a6 a7 [ws] a9].
  destruct h' as [b1 b2 b3 b4 b5 b6 b7 [ws'] b9]; simpl.
  intros (?&?&?&?&?&?&_&[_ Hws]&[Hr _]) (?&?&?&?&?&?&_&[_ Hws']&[Hr' _]) Heq.
  do 6 split_app Heq. apply app_inj_1 in Heq as [? Heq]; [|congruence].
  apply words_inj in Heq; [|done..].
  f_equal; try (by symmetry; eapply (le_bytes_inj 4 32)); try (by symmetry; eapply (le_bytes_inj 8 64));
    congruence.
Qed.

(** Completing any list of steps below 256 one after another keeps
    the header well formed and verifiable, records exactly those steps in the
    bitmask, points [current_step] one past the last of them, and links the
    previous root: [prev_merkle_root] is the root the header had before the
    last step. *)
Theorem slab_run_invariant (wid rid total s : Z) (ss : list Z)
  (Hw : u64 wid) (Hr : u64 rid) (Ht : u32 total)
  (Hss : Forall (fun s => 0 <= s < 256) (ss ++ [s])) :
  let before := run_steps (slab_new wid rid total) ss in
  let h := run_steps (slab_new wid rid total) (ss ++ [s]) in
  slab_wf h /\ verify_merkle_root h = true /\ slab_is_valid h = true /\
  steps (step_bitmask h) = list_to_set (ss ++ [s]) /\
  current_step h = s + 1 /\ prev_merkle_root h = merkle_root before.
Proof.
  intros before h. assert (Hwf0 : slab_wf (slab_new wid rid total)).
  { rewrite slab_new_chained. apply new_chained_wf; auto using zero_root_ok. }
  assert (Hsteps : forall ss, Forall (fun s => 0 <= s < 256) ss ->
    steps (step_bitmask (run_steps (slab_new wid rid total) ss)) = list_to_set ss).
  { clear -Hwf0. intros ss. induction ss as [|s ss IH] using rev_ind; intros Hss.
    - reflexivity.
    - apply Forall_snoc in Hss as [Hss Hs].
      rewrite run_steps_snoc, mark_step_ok by done. simpl.
      pose proof (run_steps_wf _ _ Hwf0 Hss) as (_&_&_&_&_&_&_&Hm&_).
      rewrite steps_set, IH by done. set_solver. }
  pose proof (run_steps_identity (slab_new wid rid total) _ Hss) as (Hmagic & _).
  split_and!.
  - by apply run_steps_wf.
  - apply Forall_snoc in Hss as [_ Hs].
    unfold h. rewrite run_steps_snoc, mark_step_ok by done. apply recalculate_verifies.
  - unfold slab_is_valid. fold h in Hmagic. by rewrite Hmagic.
  - by apply Hsteps.
  - apply Forall_snoc in Hss as [_ Hs].
    unfold h. by rewrite run_steps_snoc, mark_step_ok.
  - apply Forall_snoc in Hss as [_ Hs].
    unfold h. by rewrite run_steps_snoc, mark_step_ok.
Qed.

(** C25. Tampering is detected: a header that carries the root of a
    verified header but differs from it in any field does not verify, unless
    SHA-256 collides on the two messages hashed. *)
Theorem slab_tamper_detected (h h' : SlabHeader)
  (Hh : slab_wf h) (Hh' : slab_wf h') (Hv : verify_merkle_root h = true)
  (Hroot : merkle_root h' = merkle_root h) (Hne : h' ≠ h)
  (Hcf : collision_free [slab_preimage h; slab_preimage h']) :
  verify_merkle_root h' = false.
Proof.
  apply bool_decide_eq_false. apply bool_decide_eq_true in Hv. intros Hv'. apply Hne.
  assert (slab_preimage h = slab_preimage h') as Hpre.
  { eapply collision_free_eq; [done|by repeat constructor..|congruence]. }
  rewrite (slab_preimage_inj h h' Hh Hh' Hpre), Hroot. by destruct h.
Qed.

Lemma hashed_head h ss : slab_preimage h ∈ hashed h ss.
Proof. destruct ss; constructor. Qed.

Lemma hashed_last h ss : slab_preimage (run_steps h ss) ∈ hashed h ss.
Proof.
  revert h. induction ss as [|s ss IH]; intros h; [constructor|]. simpl. constructor. apply IH.
Qed.

Lemma hashed_prefix h ss s : hashed h ss ⊆ hashed h (ss ++ [s]).
Proof.
  revert h. induction ss as [|s' ss IH]; intros h; simpl; [set_solver|].
  specialize (IH (mark_step_completed h s').1). set_solver.
Qed.

Lemma run_merkle_root h ss :
  Forall (fun s => 0 <= s < 256) ss -> verify_merkle_root h = true ->
  merkle_root (run_steps h ss) = sha256 (slab_preimage (run_steps h ss)).
Proof.
  destruct ss as [|s ss _] using rev_ind; intros Hss Hv; [by apply bool_decide_eq_true in Hv|].
  apply Forall_snoc in Hss as [_ Hs].
  by rewrite run_steps_snoc, mark_step_ok.
Qed.

(** C24. The chain commits to the whole history: two workflows whose
    slabs end with the same Merkle root have the same identity and completed
    the same steps in the same order, unless SHA-256 collides on two of the
    messages hashed along the two runs. *)
Theorem chain_binds_history (wid rid total wid' rid' total' : Z) (ss ss' : list Z)
  (Hw : u64 wid) (Hr : u64 rid) (Ht : u32 total)
  (Hw' : u64 wid') (Hr' : u64 rid') (Ht' : u32 total')
  (Hss : Forall (fun s => 0 <= s < 256) ss) (Hss' : Forall (fun s => 0 <= s < 256) ss')
  (Hcf : collision_free (hashed (slab_new wid rid total) ss ++
                         hashed (slab_new wid' rid' total') ss'))
  (Hroot : merkle_root (run_steps (slab_new wid rid total) ss) =
           merkle_root (run_steps (slab_new wid' rid' total') ss')) :
  wid = wid' /\ rid = rid' /\ total = total' /\ ss = ss'.
Proof.
  assert (Hwf : slab_wf (slab_new wid rid total) /\ slab_wf (slab_new wid' rid' total')).
  { rewrite !slab_new_chained. split; apply new_chained_wf; auto using zero_root_ok. }
  destruct Hwf as [Hwf Hwf'].
  set (g := slab_new wid rid total) in *. set (g' := slab_new wid' rid' total') in *.
  assert (Hg : verify_merkle_root g = true) by apply recalculate_verifies.
  assert (Hg' : verify_merkle_root g' = true) by apply recalculate_verifies.
  revert ss' Hss' Hcf Hroot. induction ss as [|s ss IH] using rev_ind; intros ss' Hss' Hcf Hroot.
  all: rewrite !run_merkle_root in Hroot by done.
  all: assert (Hpre := collision_free_eq _ _ _ Hcf
         ltac:(apply elem_of_app; left; apply hashed_last)
         ltac:(apply elem_of_app; right; apply hashed_last) Hroot).
  all: apply slab_preimage_inj in Hpre; [|by apply run_steps_wf..].
  - destruct ss' as [|s' ss' _] using rev_ind.
    + simpl in Hpre. injection Hpre. auto.
    + apply Forall_snoc in Hss' as [_ Hs'].
      apply (f_equal current_step) in Hpre.
      rewrite run_steps_snoc, mark_step_ok in Hpre by done. simpl in Hpre. lia.
  - pose proof Hss as Hall. apply Forall_snoc in Hss as [Hss Hs].
    destruct ss' as [|s' ss' _] using rev_ind.
    + apply (f_equal current_step) in Hpre.
      rewrite run_steps_snoc, mark_step_ok in Hpre by done. simpl in Hpre. lia.
    + apply Forall_snoc in Hss' as [Hss' Hs'].
      pose proof (f_equal current_step Hpre) as Hcur.
      pose proof (f_equal prev_merkle_root Hpre) as Hprev.
      rewrite !run_steps_snoc, !mark_step_ok in Hcur, Hprev by done. simpl in Hcur, Hprev.
      destruct (IH Hss ss') as (-> & -> & -> & ->); [done|..|done|].
      * eapply collision_free_sub; [|exact Hcf].
        pose proof (hashed_prefix g ss s). pose proof (hashed_prefix g' ss' s'). set_solver.
      * split_and!; [done..|]. f_equal. f_equal. lia.
Qed.

(** [wal_append_step] completes a step exactly when it is within
    both the planned steps and the 256-bit mask; otherwise it returns -1 or -2
    and leaves the header alone. *)
Theorem wal_append_step_spec (h : SlabHeader) (s : Z) (Hs : 0 <= s) :
  (total_steps h <= s -> wal_append_step h s = (h, Err (-1))) /\
  (s < total_steps h -> 256 <= s -> wal_append_step h s = (h, Err (-2))) /\
  (s < total_steps h -> s < 256 ->
     exists h', wal_append_step h s = (h', Ok tt) /\ h' = (mark_step_completed h s).1 /\
                verify_merkle_root h' = true /\ current_step h' = s + 1).
Proof.
  unfold wal_append_step. destruct (Z.leb_spec (total_steps h) s); split_and!; intros; try lia.
  - done.
  - by rewrite mark_step_oob.
  - rewrite mark_step_ok by lia. eexists. split_and!; [done..|apply recalculate_verifies|done].
Qed.

End Hash.

(** ** Witnesses *)

Lemma slab_run_invariant_witness :
  let H := poly_sha in
  verify_merkle_root (run_steps (slab_new 42 100 5) ([0; 1; 2] ++ [3])) = true /\
  current_step (run_steps (slab_new 42 100 5) ([0; 1; 2] ++ [3])) = 4.
Proof.
  intros H.
  destruct (slab_run_invariant (H := H) 42 100 5 3 [0; 1; 2]) as (_ & Hv & _ & _ & Hc & _);
    [unfold fits; lia..|repeat constructor; lia|]. split; [exact Hv|exact Hc].
Defined.

Lemma slab_tamper_detected_witness :
  let H := poly_sha in
  let h := slab_new 1001 5001 10 in
  verify_merkle_root
    (mkSlab (magic h) (schema_version h) (workflow_id h) (run_id h) 99 (total_steps h)
       (merkle_root h) (step_bitmask h) (prev_merkle_root h)) = false.
Proof.
  intros H h.
  assert (Hwf : slab_wf h).
  { apply new_chained_wf; [unfold fits; lia..|apply zero_root_ok]. }
  apply (slab_tamper_detected (H := H) h).
  - exact Hwf.
  - destruct Hwf as (?&?&?&?&?&?&?&?&?). unfold slab_wf; cbn [magic schema_version workflow_id
      run_id current_step total_steps merkle_root step_bitmask prev_merkle_root].
    split_and!; try assumption; unfold fits; lia.
  - apply recalculate_verifies.
  - reflexivity.
  - intros Heq. apply (f_equal current_step) in Heq. discriminate Heq.
  - apply (bool_decide_unpack _). vm_compute. exact I.
Defined.

Lemma chain_binds_history_witness :
  let H := poly_sha in
  collision_free (hashed (slab_new 7 8 3) [0; 2] ++ hashed (slab_new 7 8 3) [0; 2]) /\
  [0; 2] = [0; 2].
Proof.
  intros H.
  assert (Hcf : collision_free (hashed (slab_new 7 8 3) [0; 2] ++ hashed (slab_new 7 8 3) [0; 2])).
  { apply (bool_decide_unpack _). vm_compute. exact I. }
  split; [exact Hcf|].
  assert (Hss : Forall (fun s => 0 <= s < 256) [0; 2]) by (repeat apply Forall_cons_2; lia || done).
  apply (chain_binds_history (H := H) 7 8 3 7 8 3 [0; 2] [0; 2]);
    [unfold fits; lia..|exact Hss|exact Hss|exact Hcf|reflexivity].
Defined.

Lemma wal_append_step_spec_witness :
  let H := poly_sha in wal_append_step (slab_new 1 2 5) 5 = (slab_new 1 2 5, Err (-1)).
Proof. intros H. apply (wal_append_step_spec (H := H) (slab_new 1 2 5) 5); simpl; lia. Defined.

End Slab.
