(* ===== verification/Nda.v ===== *)
(** * NDA document header ([velocity-workflow-core/src/nda.rs])

    The 48-byte binary document header with its SHA-256 root over the five
    fixed-width fields. *)

From S2P Require Import Prelude Bitmask Slab.

Module Nda.

Definition NDA_MAGIC : Z := 0x3141444E.

Record NdaHeader : Type := mkNda {
  nda_magic : Z;
  nda_flags : Z;
  nda_merkle_root : bytes;
  triple_count : Z;
  command_count : Z;
  string_pool_offset : Z;
}.

(** The bytes hashed: everything but the root. *)
Definition nda_preimage (h : NdaHeader) : bytes :=
  le_bytes 4 (nda_magic h) ++ le_bytes 4 (nda_flags h) ++ le_bytes 4 (triple_count h) ++
  le_bytes 2 (command_count h) ++ le_bytes 2 (string_pool_offset h).

Section Hash.
Context `{Sha256}.

Definition recalculate_merkle (h : NdaHeader) : NdaHeader :=
  mkNda (nda_magic h) (nda_flags h) (sha256 (nda_preimage h)) (triple_count h)
    (command_count h) (string_pool_offset h).

Definition verify_merkle (h : NdaHeader) : bool :=
  bool_decide (nda_merkle_root h = sha256 (nda_preimage h)).

Definition nda_new (triples commands pool : Z) : NdaHeader :=
  recalculate_merkle (mkNda NDA_MAGIC 0 zero_root triples commands pool).

Definition nda_wf (h : NdaHeader) : Prop :=
  u32 (nda_magic h) /\ u32 (nda_flags h) /\ u32 (triple_count h) /\
  u16 (command_count h) /\ u16 (string_pool_offset h).

Lemma nda_preimage_inj h h' :
  nda_wf h -> nda_wf h' -> nda_preimage h = nda_preimage h' ->
  nda_merkle_root h = nda_merkle_root h' -> h = h'.
Proof.
  destruct h as [a1 a2 a3 a4 a5 a6], h' as [b1 b2 b3 b4 b5 b6]. unfold nda_wf, nda_preimage; simpl.
  intros (?&?&?&?&?) (?&?&?&?&?) Heq ->.
  do 4 (apply app_inj_1 in Heq as [? Heq]; [|by rewrite !le_bytes_length]).
  f_equal; (by eapply (le_bytes_inj 4 32)) || by eapply (le_bytes_inj 2 16).
Qed.

(** A freshly built or recalculated document header verifies, and a
    verified header whose fields are altered while its root is kept does not,
    unless SHA-256 collides on the two messages. *)
Theorem nda_tamper_detected (h h' : NdaHeader)
  (Hh : nda_wf h) (Hh' : nda_wf h') (Hroot : nda_merkle_root h' = sha256 (nda_preimage h))
  (Hne : h' ≠ recalculate_merkle h) (Hcf : collision_free [nda_preimage h; nda_preimage h']) :
  verify_merkle (recalculate_merkle h) = true /\ verify_merkle h' = false.
Proof.
  split; [by apply bool_decide_eq_true|]. apply bool_decide_eq_false. intros Hv. apply Hne.
  apply nda_preimage_inj; [done|done|..|done].
  eapply collision_free_eq; [exact Hcf|by repeat constructor..|]. rewrite <- Hv. done.
Qed.

End Hash.

Lemma nda_tamper_detected_witness :
  let H := poly_sha in
  let h := nda_new 10 5 256 in
  verify_merkle (mkNda NDA_MAGIC 0 (nda_merkle_root h) 99 5 256) = false.
Proof.
  intros H h.
  apply (nda_tamper_detected (H := H) (mkNda NDA_MAGIC 0 zero_root 10 5 256)
           (mkNda NDA_MAGIC 0 (nda_merkle_root h) 99 5 256)).
  1,2: unfold nda_wf, fits, NDA_MAGIC; cbn [nda_magic nda_flags triple_count command_count string_pool_offset]; lia.
  - reflexivity.
  - intros Heq. apply (f_equal triple_count) in Heq. discriminate Heq.
  - apply (bool_decide_unpack _). vm_compute. exact I.
Defined.

End Nda.
