(* ===== verification/Arena.v ===== *)
(** * Bump arena ([velocity-workflow-core/src/arena.rs])

    A 64 KB page that hands out consecutive byte ranges.  Index arithmetic is
    [usize] arithmetic (64 bits, wrapping in release builds) and slicing panics
    out of range, so the operations run in [exec]. *)

From S2P Require Import Prelude.

Module Arena.

Definition DEFAULT_ARENA_PAGE_SIZE : Z := 65536.

Record BumpArenaPage : Type := mkArena {
  capacity : Z;
  offset : Z;
  data : bytes;
}.

Definition zlen {A} (l : list A) : Z := Z.of_nat (length l).

Definition arena_new : BumpArenaPage :=
  mkArena DEFAULT_ARENA_PAGE_SIZE 0 (replicate (Z.to_nat DEFAULT_ARENA_PAGE_SIZE) 0).

(** [&l[a..b]]: panics unless [a <= b <= l.len()]. *)
Definition index_range (l : bytes) (a b : Z) : exec bytes :=
  if (a <=? b) && (b <=? zlen l) then Ret (slice (Z.to_nat a) (Z.to_nat b) l) else Panic.

(** [l[a..b].copy_from_slice(src)], with [b - a = src.len()]. *)
Definition copy_range (l : bytes) (a b : Z) (src : bytes) : exec bytes :=
  if (a <=? b) && (b <=? zlen l)
  then Ret (take (Z.to_nat a) l ++ src ++ drop (Z.to_nat b) l) else Panic.

Definition alloc_slice (p : BumpArenaPage) (src : bytes) : exec (BumpArenaPage * option Z) :=
  let len := zlen src in
  if capacity p <? wrap 64 (offset p + len) then Ret (p, None)
  else
    let start := offset p in
    match copy_range (data p) start (wrap 64 (start + len)) src with
    | Ret d => Ret (mkArena (capacity p) (wrap 64 (offset p + len)) d, Some start)
    | Panic => Panic
    end.

Definition get_slice (p : BumpArenaPage) (start len : Z) : exec (option bytes) :=
  if offset p <? wrap 64 (start + len) then Ret None
  else match index_range (data p) start (wrap 64 (start + len)) with
       | Ret s => Ret (Some s)
       | Panic => Panic
       end.

Definition arena_reset (p : BumpArenaPage) : BumpArenaPage := mkArena (capacity p) 0 (data p).

(** ** Invariant *)

Definition arena_wf (p : BumpArenaPage) : Prop :=
  capacity p = DEFAULT_ARENA_PAGE_SIZE /\ zlen (data p) = DEFAULT_ARENA_PAGE_SIZE /\
  0 <= offset p <= DEFAULT_ARENA_PAGE_SIZE.

(** Rust slices are at most [isize::MAX] bytes long. *)
Definition slice_len_ok (l : bytes) : Prop := zlen l < 2 ^ 63.

Lemma arena_new_wf : arena_wf arena_new.
Proof.
  unfold arena_wf, zlen, arena_new. cbn [capacity offset data].
  rewrite length_replicate. unfold DEFAULT_ARENA_PAGE_SIZE. lia.
Qed.

Lemma arena_reset_wf p : arena_wf p -> arena_wf (arena_reset p).
Proof. unfold arena_wf. simpl. unfold DEFAULT_ARENA_PAGE_SIZE. lia. Qed.

Lemma zlen_app {A} (l1 l2 : list A) : zlen (l1 ++ l2) = zlen l1 + zlen l2.
Proof. unfold zlen. rewrite length_app. lia. Qed.

Lemma alloc_slice_fits p src :
  arena_wf p -> slice_len_ok src ->
  alloc_slice p src =
    if decide (offset p + zlen src <= DEFAULT_ARENA_PAGE_SIZE) then
      Ret (mkArena (capacity p) (offset p + zlen src)
             (take (Z.to_nat (offset p)) (data p) ++ src ++
              drop (Z.to_nat (offset p + zlen src)) (data p)), Some (offset p))
    else Ret (p, None).
Proof.
  intros (Hc & Hd & Ho) Hs. unfold alloc_slice. unfold slice_len_ok in Hs.
  assert (0 <= zlen src) by (unfold zlen; lia).
  assert (u64 (offset p + zlen src)) by (unfold fits, DEFAULT_ARENA_PAGE_SIZE in *; lia).
  rewrite wrap_id, Hc by done. case_decide.
  - destruct (Z.ltb_spec DEFAULT_ARENA_PAGE_SIZE (offset p + zlen src)); [lia|].
    unfold copy_range. rewrite Hd.
    destruct (Z.leb_spec (offset p) (offset p + zlen src)); [|lia].
    destruct (Z.leb_spec (offset p + zlen src) DEFAULT_ARENA_PAGE_SIZE); [|lia]. done.
  - destruct (Z.ltb_spec DEFAULT_ARENA_PAGE_SIZE (offset p + zlen src)); [done|lia].
Qed.

Lemma get_slice_in p s n :
  arena_wf p -> 0 <= s -> 0 <= n -> s + n <= offset p ->
  get_slice p s n = Ret (Some (slice (Z.to_nat s) (Z.to_nat (s + n)) (data p))).
Proof.
  intros (Hc & Hd & Ho) ???. unfold get_slice, index_range, DEFAULT_ARENA_PAGE_SIZE in *.
  rewrite wrap_id by (unfold fits; lia).
  destruct (Z.ltb_spec (offset p) (s + n)); [lia|].
  destruct (Z.leb_spec s (s + n)); [|lia].
  destruct (Z.leb_spec (s + n) (zlen (data p))); [done|lia].
Qed.

Lemma alloc_slice_wf p src p' r :
  arena_wf p -> slice_len_ok src -> alloc_slice p src = Ret (p', r) -> arena_wf p'.
Proof.
  intros Hp Hs Ha. rewrite alloc_slice_fits in Ha by done. case_decide; simplify_eq; [|done].
  destruct Hp as (Hc & Hd & Ho). unfold arena_wf. simpl. split_and!; [done| |unfold zlen in *; lia..].
  unfold zlen in *. rewrite !length_app, length_take, length_drop. lia.
Qed.

(** Allocation never panics on a well-formed page.  It returns [None]
    and changes nothing exactly when the bytes do not fit; otherwise the bytes
    are read back unchanged at the returned offset, every range allocated
    before keeps its contents, and the new range starts where those end. *)
Theorem arena_alloc_spec (p : BumpArenaPage) (src : bytes)
  (Hp : arena_wf p) (Hs : slice_len_ok src) :
  (DEFAULT_ARENA_PAGE_SIZE < offset p + zlen src -> alloc_slice p src = Ret (p, None)) /\
  (offset p + zlen src <= DEFAULT_ARENA_PAGE_SIZE ->
     exists p', alloc_slice p src = Ret (p', Some (offset p)) /\ arena_wf p' /\
       offset p' = offset p + zlen src /\
       get_slice p' (offset p) (zlen src) = Ret (Some src) /\
       forall s n, 0 <= s -> 0 <= n -> s + n <= offset p -> get_slice p' s n = get_slice p s n).
Proof.
  rewrite alloc_slice_fits by done. split; intros Hfit; case_decide; try lia; [done|].
  eexists. split; [done|].
  match goal with |- arena_wf ?q /\ _ => assert (Hq : arena_wf q) end.
  { eapply alloc_slice_wf; [exact Hp|exact Hs|]. rewrite alloc_slice_fits by done.
    by rewrite decide_True. }
  destruct Hp as (Hc & Hd & Ho). assert (0 <= zlen src) by (unfold zlen; lia).
  assert (Hlen : length (take (Z.to_nat (offset p)) (data p)) = Z.to_nat (offset p)).
  { rewrite length_take. unfold zlen, DEFAULT_ARENA_PAGE_SIZE in *. lia. }
  split_and!; [done|done|..].
  - rewrite get_slice_in by (done || simpl; lia). simpl. do 2 f_equal.
    apply slice_app; [done|]. unfold zlen in *. lia.
  - intros s n ???. rewrite !get_slice_in; [|done || simpl; lia..].
    simpl. do 2 f_equal. unfold slice.
    rewrite drop_app_le by lia. rewrite take_app_le by (rewrite length_drop; lia).
    rewrite !take_drop_commute, take_take. do 2 f_equal. lia.
Qed.

Lemma arena_alloc_spec_witness :
  exists p', alloc_slice arena_new [72; 101; 108] = Ret (p', Some 0) /\
             get_slice p' 0 3 = Ret (Some [72; 101; 108]).
Proof.
  destruct (arena_alloc_spec arena_new [72; 101; 108] arena_new_wf) as [_ H].
  { unfold slice_len_ok, zlen. cbn [length]. lia. }
  destruct H as (p' & Ha & _ & _ & Hg & _).
  { unfold zlen, arena_new, DEFAULT_ARENA_PAGE_SIZE. cbn [offset length]. lia. }
  exists p'. split; [exact Ha|exact Hg].
Defined.

End Arena.
