(* ===== verification/Crc.v ===== *)
(** * CRC-32 ([velocity-workflow-core/src/vctp.rs], [velocity-workflow-engine/src/wal.rs])

    The repository computes CRC-32 (IEEE, reflected) twice: bit by bit over a
    VCTP packet and with a 256-entry table over a WAL record.  Both are modelled
    here as they are written, and shown to be the same function. *)

From S2P Require Import Prelude.

Module Crc.

Definition POLY : Z := 0xEDB88320.

(** ** The bitwise routine of [VctpPacket::compute_checksum] *)

Definition crc_bit (crc : Z) : Z :=
  if negb ((crc &&& 1) =? 0) then (crc >>> 1) ^^^ POLY else crc >>> 1.

Definition crc_byte (crc b : Z) : Z := Nat.iter 8 crc_bit (crc ^^^ b).

Definition crc32_bitwise (data : bytes) : Z :=
  unot 32 (fold_left crc_byte data 0xFFFFFFFF).

(** ** The table routine of the WAL *)

Definition crc_table_entry (i : Z) : Z :=
  Nat.iter 8 (fun crc => if negb ((crc &&& 1) =? 0) then POLY ^^^ (crc >>> 1) else crc >>> 1) i.

Definition make_crc32_table : list Z := crc_table_entry <$> seqZ 0 256.

Definition crc32_fast (data : bytes) : Z :=
  let table := make_crc32_table in
  fold_left (fun crc byte =>
    let index := Z.to_nat ((crc ^^^ byte) &&& 0xFF) in
    (table !!! index) ^^^ (crc >>> 8)) data 0xFFFFFFFF
  ^^^ 0xFFFFFFFF.

(** ** Algebra of the bit step *)

Lemma crc_bit_alt x : crc_bit x = (x >>> 1) ^^^ (if Z.testbit x 0 then POLY else 0).
Proof.
  unfold crc_bit. assert (Hx : (x &&& 1) = Z.b2z (Z.testbit x 0)).
  { rewrite Z.bit0_mod. change 1 with (Z.ones 1). by rewrite Z.land_ones. }
  rewrite Hx. destruct (Z.testbit x 0); simpl; [done|]. by rewrite Z.lxor_0_r.
Qed.

Lemma crc_bit_lxor x y : crc_bit (x ^^^ y) = crc_bit x ^^^ crc_bit y.
Proof.
  rewrite !crc_bit_alt, Z.shiftr_lxor, Z.lxor_spec.
  apply Z.bits_inj'. intros n Hn. rewrite !Z.lxor_spec.
  destruct (Z.testbit x 0), (Z.testbit y 0); simpl; rewrite ?Z.testbit_0_l;
    destruct (Z.testbit (x >>> 1) n), (Z.testbit (y >>> 1) n), (Z.testbit POLY n); done.
Qed.

Lemma crc_bits_lxor k x y :
  Nat.iter k crc_bit (x ^^^ y) = Nat.iter k crc_bit x ^^^ Nat.iter k crc_bit y.
Proof. induction k as [|k IH]; simpl; [done|]. by rewrite IH, crc_bit_lxor. Qed.

Lemma crc_bits_shiftl k y : Nat.iter k crc_bit (y <<< Z.of_nat k) = y.
Proof.
  revert y. induction k as [|k IH]; intros y; [apply Z.shiftl_0_r|].
  rewrite Nat.iter_succ_r, crc_bit_alt, Z.shiftl_spec_low by lia. rewrite Z.lxor_0_r.
  rewrite Z.shiftr_shiftl_l by lia.
  replace (Z.of_nat (S k) - 1) with (Z.of_nat k) by lia. apply IH.
Qed.

Lemma split_low_byte x : 0 <= x -> x = (x &&& 255) ^^^ ((x >>> 8) <<< 8).
Proof.
  intros Hx. apply Z.bits_inj'. intros n Hn. change 255 with (Z.ones 8).
  rewrite Z.lxor_spec, Z.land_spec, Z.shiftl_spec by lia.
  destruct (decide (n < 8)).
  - rewrite Z.ones_spec_low, (Z.testbit_neg_r _ (n - 8)) by lia. by rewrite andb_true_r, xorb_false_r.
  - rewrite Z.ones_spec_high, Z.shiftr_spec by lia.
    rewrite andb_false_r. simpl. f_equal. lia.
Qed.

(** Eight bit steps are one table step. *)
Lemma crc_bits_table x :
  0 <= x -> Nat.iter 8 crc_bit x = Nat.iter 8 crc_bit (x &&& 255) ^^^ (x >>> 8).
Proof.
  intros Hx. rewrite (split_low_byte x Hx) at 1. rewrite crc_bits_lxor. f_equal.
  apply (crc_bits_shiftl 8).
Qed.

Lemma crc_table_entry_bits i : crc_table_entry i = Nat.iter 8 crc_bit i.
Proof.
  unfold crc_table_entry. generalize 8%nat. intros k. induction k as [|k IH]; [done|].
  cbn [Nat.iter nat_rect]. unfold Nat.iter in IH. rewrite IH. unfold crc_bit at 1.
  by rewrite (Z.lxor_comm POLY).
Qed.

Lemma table_lookup x :
  0 <= x -> make_crc32_table !!! Z.to_nat (x &&& 255) = Nat.iter 8 crc_bit (x &&& 255).
Proof.
  intros Hx. assert (0 <= (x &&& 255) < 256).
  { change 255 with (Z.ones 8). rewrite Z.land_ones by lia. apply Z.mod_pos_bound; lia. }
  apply list_lookup_total_correct. unfold make_crc32_table.
  rewrite list_lookup_fmap, lookup_seqZ_lt by lia. simpl.
  rewrite Z2Nat.id by lia. by rewrite crc_table_entry_bits.
Qed.

(** ** Ranges and injectivity *)

Lemma POLY_u32 : u32 POLY.
Proof. unfold fits, POLY. lia. Qed.

Lemma crc_bit_u32 x : u32 x -> u32 (crc_bit x).
Proof.
  intros Hx. rewrite crc_bit_alt. apply fits_lxor; [lia|apply fits_shiftr; (done || lia)|].
  destruct (Z.testbit x 0); [apply POLY_u32|unfold fits; lia].
Qed.

Lemma crc_bits_u32 k x : u32 x -> u32 (Nat.iter k crc_bit x).
Proof. intros Hx. induction k; simpl; auto using crc_bit_u32. Qed.

(** The bit shifted out reappears as the top bit, so the step loses nothing. *)
Lemma crc_bit_top x : u32 x -> Z.testbit (crc_bit x) 31 = Z.testbit x 0.
Proof.
  intros Hx. rewrite crc_bit_alt, Z.lxor_spec, Z.shiftr_spec by lia.
  rewrite (fits_testbit_high 32 x) by (done || lia).
  by destruct (Z.testbit x 0).
Qed.

Lemma crc_bit_inj x y : u32 x -> u32 y -> crc_bit x = crc_bit y -> x = y.
Proof.
  intros Hx Hy Heq.
  assert (Hb : Z.testbit x 0 = Z.testbit y 0) by (rewrite <- !crc_bit_top; congruence).
  rewrite !crc_bit_alt, Hb in Heq.
  apply (f_equal (fun z => z ^^^ (if Z.testbit y 0 then POLY else 0))) in Heq.
  rewrite !Z.lxor_assoc, Z.lxor_nilpotent, !Z.lxor_0_r in Heq.
  apply Z.bits_inj'. intros n Hn. destruct (decide (n = 0)) as [->|]; [done|].
  apply (f_equal (fun z => Z.testbit z (n - 1))) in Heq.
  rewrite !Z.shiftr_spec in Heq by lia. by replace (n - 1 + 1) with n in Heq by lia.
Qed.

Lemma crc_bits_inj k x y :
  u32 x -> u32 y -> Nat.iter k crc_bit x = Nat.iter k crc_bit y -> x = y.
Proof.
  intros Hx Hy. induction k as [|k IH]; simpl; [done|].
  intros Heq. apply IH. apply crc_bit_inj; auto using crc_bits_u32.
Qed.

Lemma u8_u32 b : u8 b -> u32 b.
Proof. apply fits_mono. lia. Qed.

Lemma crc_byte_u32 c b : u32 c -> u8 b -> u32 (crc_byte c b).
Proof. intros. apply crc_bits_u32, fits_lxor; auto using u8_u32. lia. Qed.

Lemma lxor_cancel_r x y z : x ^^^ z = y ^^^ z -> x = y.
Proof.
  intros Heq. apply (f_equal (fun w => w ^^^ z)) in Heq.
  by rewrite !Z.lxor_assoc, Z.lxor_nilpotent, !Z.lxor_0_r in Heq.
Qed.

Lemma crc_fold_u32 c l : u32 c -> is_bytes l -> u32 (fold_left crc_byte l c).
Proof.
  intros Hc Hl. revert c Hc. induction Hl; intros c Hc; simpl; auto using crc_byte_u32.
Qed.

Lemma crc_fold_inj l c c' :
  is_bytes l -> u32 c -> u32 c' ->
  fold_left crc_byte l c = fold_left crc_byte l c' -> c = c'.
Proof.
  intros Hl. revert c c'. induction Hl as [|b l Hb Hl IH]; intros c c' Hc Hc'; simpl; [done|].
  intros Heq. apply IH in Heq; auto using crc_byte_u32.
  unfold crc_byte in Heq. apply crc_bits_inj in Heq.
  - by apply lxor_cancel_r in Heq.
  - apply fits_lxor; auto using u8_u32. lia.
  - apply fits_lxor; auto using u8_u32. lia.
Qed.

Lemma unot32_inj x y : u32 x -> u32 y -> unot 32 x = unot 32 y -> x = y.
Proof.
  intros Hx Hy Heq. apply Z.bits_inj'. intros n Hn. destruct (decide (n < 32)).
  - apply (f_equal (fun z => negb (Z.testbit z n))) in Heq.
    rewrite !unot_spec, !negb_involutive in Heq by lia. done.
  - rewrite !(fits_testbit_high 32) by (done || lia). done.
Qed.

Lemma init_u32 : u32 0xFFFFFFFF.
Proof. unfold fits. lia. Qed.

Lemma crc32_bitwise_u32 l : u32 (crc32_bitwise l).
Proof. apply unot_fits. lia. Qed.

Lemma crc_byte_inj c b b' : u32 c -> u8 b -> u8 b' -> crc_byte c b = crc_byte c b' -> b = b'.
Proof.
  intros Hc Hb Hb' Heq. unfold crc_byte in Heq.
  apply crc_bits_inj in Heq; [|by apply fits_lxor; auto using u8_u32; lia..].
  rewrite !(Z.lxor_comm c) in Heq. by apply lxor_cancel_r in Heq.
Qed.

#[local] Opaque crc_byte.

(** The CRC of a message pins down each byte given the others. *)
Lemma crc32_bitwise_byte l1 b b' l2 :
  is_bytes l1 -> u8 b -> u8 b' -> is_bytes l2 ->
  crc32_bitwise (l1 ++ b :: l2) = crc32_bitwise (l1 ++ b' :: l2) -> b = b'.
Proof.
  intros H1 Hb Hb' H2. unfold crc32_bitwise. rewrite !fold_left_app. cbn [fold_left].
  pose proof (crc_fold_u32 _ l1 init_u32 H1) as Hc. revert Hc.
  generalize (fold_left crc_byte l1 0xFFFFFFFF). intros c Hc Heq.
  apply unot32_inj in Heq; [|apply crc_fold_u32; [by apply crc_byte_u32|done]..].
  apply crc_fold_inj in Heq; [|done|by apply crc_byte_u32..].
  by apply crc_byte_inj in Heq.
Qed.

Lemma crc32_fast_bitwise (data : bytes) : is_bytes data -> crc32_fast data = crc32_bitwise data.
Proof.
  intros Hdata. unfold crc32_fast, crc32_bitwise.
  assert (Hfold : forall c, u32 c ->
    fold_left (fun crc byte =>
      (make_crc32_table !!! Z.to_nat ((crc ^^^ byte) &&& 0xFF)) ^^^ (crc >>> 8)) data c
    = fold_left crc_byte data c).
  { induction Hdata as [|b l Hb Hl IH]; intros c Hc; [done|]. cbn [fold_left].
    assert (Hcb : u32 (c ^^^ b)) by (apply fits_lxor; auto using u8_u32; lia).
    rewrite table_lookup by apply Hcb.
    replace (c >>> 8) with ((c ^^^ b) >>> 8).
    - rewrite <- crc_bits_table by apply Hcb. apply IH. by apply crc_byte_u32.
    - rewrite Z.shiftr_lxor. rewrite (Z.shiftr_div_pow2 b), (Z.div_small b) by ranges.
      apply Z.lxor_0_r. }
  cbn zeta. rewrite Hfold by apply init_u32.
  pose proof (crc_fold_u32 _ data init_u32 Hdata) as Hc.
  apply Z.bits_inj'. intros n Hn. rewrite Z.lxor_spec. change 4294967295 with (Z.ones 32).
  destruct (decide (n < 32)).
  - by rewrite Z.ones_spec_low, unot_spec, xorb_true_r by lia.
  - rewrite Z.ones_spec_high by lia.
    rewrite (fits_testbit_high 32 (unot _ _)) by (apply unot_fits || lia; lia).
    by rewrite (fits_testbit_high 32) by (done || lia).
Qed.

Lemma crc32_fast_u32 data : is_bytes data -> u32 (crc32_fast data).
Proof. intros. rewrite crc32_fast_bitwise by done. by apply crc32_bitwise_u32. Qed.

(** The table-driven CRC-32 of the WAL computes the same function as
    the bitwise CRC-32 of the VCTP packets, on every byte string. *)
Theorem crc32_fast_eq_bitwise (data : bytes) (Hdata : is_bytes data) :
  crc32_fast data = crc32_bitwise data.
Proof. by apply crc32_fast_bitwise. Qed.

Lemma crc32_fast_eq_bitwise_witness :
  crc32_fast [49; 50; 51; 52; 53; 54; 55; 56; 57] = 0xCBF43926.
Proof.
  rewrite (crc32_fast_eq_bitwise [49; 50; 51; 52; 53; 54; 55; 56; 57]).
  - vm_compute. reflexivity.
  - repeat (constructor; [unfold fits; lia|]). constructor.
Defined.

End Crc.
