(* ===== verification/Vctp.v ===== *)
(** * VCTP packets and ciphers ([velocity-workflow-core/src/vctp.rs], lines 1-324 and 400-440)

    The wire format of the transport: packet header, packet with CRC-32,
    acknowledgements, the XOR stream cipher with its MAC, and the AES-256-GCM
    cipher.  AES-GCM is the [aes_gcm] crate: a parameter with the documented
    round trip and tag length. *)

From S2P Require Import Prelude Bitmask Slab Crc.
Import Crc.

Module Vctp.

Definition VCTP_HEADER_SIZE : nat := 28.
Definition VCTP_ACK_MAGIC : Z := 0x4B435656.
Definition VCTP_MAGIC : Z := 0x50544356.

Inductive EncryptionMode := XorStream | Aes256GcmMode.

#[export] Instance EncryptionMode_eq_dec : EqDecision EncryptionMode.
Proof. solve_decision. Defined.

(** ** Header *)

Record VctpPacketHeader : Type := mkHeader {
  hdr_magic : Z;
  sequence_number : Z;
  hdr_workflow_id : Z;
  slab_offset : Z;
  payload_length : Z;
}.

Definition header_new (seq wid off len : Z) : VctpPacketHeader :=
  mkHeader VCTP_MAGIC seq wid off len.

Definition header_is_valid (h : VctpPacketHeader) : bool := hdr_magic h =? VCTP_MAGIC.

Definition header_to_bytes (h : VctpPacketHeader) : bytes :=
  le_bytes 4 (hdr_magic h) ++ le_bytes 8 (sequence_number h) ++ le_bytes 8 (hdr_workflow_id h)
  ++ le_bytes 4 (slab_offset h) ++ le_bytes 4 (payload_length h).

Definition header_from_bytes (buf : bytes) : option VctpPacketHeader :=
  if (length buf <? VCTP_HEADER_SIZE)%nat then None
  else
    let magic := le_val (slice 0 4 buf) in
    if negb (magic =? VCTP_MAGIC) then None
    else Some (mkHeader magic (le_val (slice 4 12 buf)) (le_val (slice 12 20 buf))
                 (le_val (slice 20 24 buf)) (le_val (slice 24 28 buf))).

(** ** Packet *)

Record VctpPacket : Type := mkPacket {
  header : VctpPacketHeader;
  payload : bytes;
  checksum : Z;
}.

Definition compute_checksum (h : VctpPacketHeader) (p : bytes) : Z :=
  crc32_bitwise (header_to_bytes h ++ p).

Definition packet_new (h : VctpPacketHeader) (p : bytes) : VctpPacket :=
  mkPacket h p (compute_checksum h p).

Definition packet_to_bytes (k : VctpPacket) : bytes :=
  header_to_bytes (header k) ++ payload k ++ le_bytes 4 (checksum k).

Definition verify_checksum (k : VctpPacket) : bool :=
  compute_checksum (header k) (payload k) =? checksum k.

Definition packet_from_bytes (buf : bytes) : option VctpPacket :=
  if (length buf <? VCTP_HEADER_SIZE + 4)%nat then None
  else
    match header_from_bytes buf with
    | None => None
    | Some h =>
        let payload_end := (VCTP_HEADER_SIZE + Z.to_nat (payload_length h))%nat in
        if (length buf <? payload_end + 4)%nat then None
        else
          let k := mkPacket h (slice VCTP_HEADER_SIZE payload_end buf)
                     (le_val (slice payload_end (payload_end + 4) buf)) in
          if verify_checksum k then Some k else None
    end.

(** ** Acknowledgements *)

Record VctpAck : Type := mkAck {
  ack_magic : Z;
  ack_sequence : Z;
  receiver_workflow_id : Z;
}.

Definition ack_new (seq wid : Z) : VctpAck := mkAck VCTP_ACK_MAGIC seq wid.

Definition ack_to_bytes (a : VctpAck) : bytes :=
  le_bytes 4 (ack_magic a) ++ le_bytes 8 (ack_sequence a) ++ le_bytes 8 (receiver_workflow_id a).

Definition ack_from_bytes (buf : bytes) : option VctpAck :=
  if (length buf <? 20)%nat then None
  else
    let magic := le_val (slice 0 4 buf) in
    if negb (magic =? VCTP_ACK_MAGIC) then None
    else Some (mkAck magic (le_val (slice 4 12 buf)) (le_val (slice 12 20 buf))).

(** ** XOR stream cipher *)

Record VctpCipher : Type := mkCipher {
  cipher_key : bytes;
  nonce : Z;
}.

(** The key stream byte at position [i] of packet [sequence]. *)
Definition keystream (c : VctpCipher) (sequence : Z) (i : nat) : Z :=
  let combined_nonce := nonce c ^^^ sequence in
  let key_idx := (i mod 32)%nat in
  let round := Z.of_nat (i / 32) in
  (cipher_key c !!! key_idx) ^^^
  wrap 8 (wrapping_add 64 (wrapping_mul 64 combined_nonce 0x9E3779B97F4A7C15)
            (wrapping_mul 64 round 0x517CC1B727220A95)
          >>> (Z.of_nat (key_idx mod 8) * 8)).

Definition cipher_apply (c : VctpCipher) (data : bytes) (sequence : Z) : bytes :=
  imap (fun i byte => byte ^^^ keystream c sequence i) data.

Definition encrypt_packet (c : VctpCipher) (k : VctpPacket) (sequence : Z) : VctpPacket :=
  mkPacket (header k) (cipher_apply c (payload k) sequence) (checksum k).

Definition decrypt_packet (c : VctpCipher) (k : VctpPacket) (sequence : Z) : VctpPacket :=
  mkPacket (header k) (cipher_apply c (payload k) sequence) (checksum k).

Section Hash.
Context `{Sha256}.

Definition cipher_from_passphrase (passphrase : bytes) (n : Z) : VctpCipher :=
  mkCipher (sha256 passphrase) n.

Definition compute_mac (c : VctpCipher) (data : bytes) (sequence : Z) : bytes :=
  let inner_hash := sha256 (cipher_key c ++ le_bytes 8 sequence ++ data) in
  sha256 (cipher_key c ++ inner_hash).

(** Constant-time comparison: the differences are accumulated by [|=]. *)
Definition verify_mac (c : VctpCipher) (data : bytes) (sequence : Z) (expected : bytes) : bool :=
  let computed := compute_mac c data sequence in
  fold_left (fun diff ab => diff ||| (ab.1 ^^^ ab.2)) (zip computed expected) 0 =? 0.
End Hash.

(** ** AES-256-GCM *)

(** [Aes256Gcm::encrypt]/[decrypt]: sealing may fail on oversized input, a
    sealed message opens to its plaintext under the same key and nonce, and the
    ciphertext carries a 16-byte tag. *)
Class Aes256Gcm := {
  aead_encrypt : bytes -> bytes -> bytes -> option bytes;
  aead_decrypt : bytes -> bytes -> bytes -> option bytes;
  aead_open_seal : forall k n m c, aead_encrypt k n m = Some c -> aead_decrypt k n c = Some m;
  aead_tag_length : forall k n m c, aead_encrypt k n m = Some c -> length c = (length m + 16)%nat;
}.

Section Gcm.
Context `{Aes256Gcm}.

Definition derive_nonce (sequence : Z) : bytes := le_bytes 8 sequence ++ replicate 4 0.

(** [encrypt] panics ([expect]) when sealing fails. *)
Definition gcm_encrypt (key data : bytes) (sequence : Z) : exec bytes :=
  match aead_encrypt key (derive_nonce sequence) data with
  | Some c => Ret c
  | None => Panic
  end.

Definition gcm_decrypt (key data : bytes) (sequence : Z) : option bytes :=
  aead_decrypt key (derive_nonce sequence) data.

Definition set_payload (k : VctpPacket) (p : bytes) : VctpPacket :=
  let h := mkHeader (hdr_magic (header k)) (sequence_number (header k))
             (hdr_workflow_id (header k)) (slab_offset (header k))
             (wrap 32 (Z.of_nat (length p))) in
  mkPacket h p (compute_checksum h p).

Definition gcm_encrypt_packet (key : bytes) (k : VctpPacket) (sequence : Z) : exec VctpPacket :=
  match gcm_encrypt key (payload k) sequence with
  | Ret ciphertext => Ret (set_payload k ciphertext)
  | Panic => Panic
  end.

Definition gcm_decrypt_packet (key : bytes) (k : VctpPacket) (sequence : Z) : VctpPacket * bool :=
  match gcm_decrypt key (payload k) sequence with
  | Some plaintext => (set_payload k plaintext, true)
  | None => (k, false)
  end.
End Gcm.

(** ** Well-formedness *)

Definition header_wf (h : VctpPacketHeader) : Prop :=
  u32 (hdr_magic h) /\ u64 (sequence_number h) /\ u64 (hdr_workflow_id h) /\
  u32 (slab_offset h) /\ u32 (payload_length h).

(** A packet as the sender builds it. *)
Definition packet_wf (k : VctpPacket) : Prop :=
  header_wf (header k) /\ hdr_magic (header k) = VCTP_MAGIC /\ is_bytes (payload k) /\
  payload_length (header k) = Z.of_nat (length (payload k)) /\
  checksum k = compute_checksum (header k) (payload k).

Definition cipher_wf (c : VctpCipher) : Prop :=
  length (cipher_key c) = 32%nat /\ is_bytes (cipher_key c) /\ u64 (nonce c).

(** ** Header codec *)

Lemma header_to_bytes_length h : length (header_to_bytes h) = VCTP_HEADER_SIZE.
Proof. unfold header_to_bytes. by rewrite !length_app, !le_bytes_length. Qed.

Lemma header_to_bytes_bytes h : is_bytes (header_to_bytes h).
Proof. unfold header_to_bytes. rewrite !Forall_app. auto with velocity. Qed.

Lemma header_decode h rest :
  header_wf h -> hdr_magic h = VCTP_MAGIC ->
  header_from_bytes (header_to_bytes h ++ rest) = Some h.
Proof.
  intros (Hm & Hs & Hw & Ho & Hp) Hmagic. unfold header_from_bytes.
  rewrite length_app, header_to_bytes_length.
  destruct (Nat.ltb_spec (VCTP_HEADER_SIZE + length rest) VCTP_HEADER_SIZE); [lia|].
  unfold header_to_bytes. rewrite <- !app_assoc.
  read_fields.
  rewrite !(le_val_le_bytes_fits 4 32), !(le_val_le_bytes_fits 8 64) by done.
  rewrite Hmagic, Z.eqb_refl. simpl. rewrite <- Hmagic. by destruct h.
Qed.

Lemma slice_le_bytes a b n (buf : bytes) :
  is_bytes buf -> (a <= b <= length buf)%nat -> n = (b - a)%nat ->
  le_bytes n (le_val (slice a b buf)) = slice a b buf.
Proof.
  intros Hb Hab ->. rewrite <- (slice_length a b buf) by done.
  apply le_bytes_le_val. by apply slice_Forall.
Qed.

Lemma slice_fits a b n (buf : bytes) :
  is_bytes buf -> (a <= b <= length buf)%nat -> n = 8 * Z.of_nat (b - a) ->
  fits n (le_val (slice a b buf)).
Proof.
  intros Hb Hab ->. rewrite <- (slice_length a b buf) by done.
  apply le_val_fits. by apply slice_Forall.
Qed.

(** A decoded header re-encodes to the bytes it was read from. *)
Lemma header_encode buf h :
  is_bytes buf -> header_from_bytes buf = Some h ->
  (VCTP_HEADER_SIZE <= length buf)%nat /\ header_wf h /\ hdr_magic h = VCTP_MAGIC /\
  header_to_bytes h = slice 0 VCTP_HEADER_SIZE buf.
Proof.
  intros Hbuf. unfold header_from_bytes.
  destruct (Nat.ltb_spec (length buf) VCTP_HEADER_SIZE) as [|Hlen]; [done|].
  destruct (Z.eqb_spec (le_val (slice 0 4 buf)) VCTP_MAGIC) as [Hm|]; [|done].
  simpl. intros [= <-]. unfold VCTP_HEADER_SIZE in *. split_and!; [done| |done|].
  - unfold header_wf; simpl. split_and!; (apply slice_fits; [done|lia|done]).
  - unfold header_to_bytes; simpl.
    rewrite (slice_le_bytes 0 4 4), (slice_le_bytes 4 12 8), (slice_le_bytes 12 20 8),
      (slice_le_bytes 20 24 4), (slice_le_bytes 24 28 4) by (done || lia).
    by rewrite !slice_join by lia.
Qed.

(** The header codec is a bijection between well-formed headers
    and 28-byte strings with the VCTP magic: decoding an encoded header gives it
    back whatever follows, and a decoded header re-encodes to the bytes read. *)
Theorem header_roundtrip :
  (forall h rest, header_wf h -> hdr_magic h = VCTP_MAGIC ->
     header_from_bytes (header_to_bytes h ++ rest) = Some h) /\
  (forall buf h, is_bytes buf -> header_from_bytes buf = Some h ->
     header_wf h /\ header_to_bytes h = slice 0 VCTP_HEADER_SIZE buf).
Proof.
  split; [apply header_decode|]. intros buf h Hb Hd.
  destruct (header_encode buf h Hb Hd) as (_ & ? & _ & ?). done.
Qed.

(** ** Packet codec *)

Lemma compute_checksum_u32 h p : u32 (compute_checksum h p).
Proof. apply crc32_bitwise_u32. Qed.

#[local] Opaque VCTP_HEADER_SIZE.

(** What [packet_from_bytes] accepts. *)
Lemma packet_accept buf k :
  is_bytes buf -> packet_from_bytes buf = Some k ->
  exists n, payload_length (header k) = Z.of_nat n /\
    n = length (payload k) /\ (VCTP_HEADER_SIZE + n + 4 <= length buf)%nat /\
    Z.of_nat n = le_val (slice 24 28 buf) /\
    payload k = slice VCTP_HEADER_SIZE (VCTP_HEADER_SIZE + n) buf /\
    crc32_bitwise (slice 0 (VCTP_HEADER_SIZE + n) buf) = checksum k /\
    checksum k = le_val (slice (VCTP_HEADER_SIZE + n) (VCTP_HEADER_SIZE + n + 4) buf) /\
    header_from_bytes buf = Some (header k).
Proof.
  intros Hbuf. unfold packet_from_bytes.
  destruct (Nat.ltb_spec (length buf) (VCTP_HEADER_SIZE + 4)); [done|].
  destruct (header_from_bytes buf) as [h|] eqn:Hh; [|done].
  destruct (header_encode buf h Hbuf Hh) as (_ & Hwf & Hmagic & Henc).
  assert (Hlen : payload_length h = le_val (slice 24 28 buf)).
  { unfold header_from_bytes in Hh. destruct (length buf <? VCTP_HEADER_SIZE)%nat; [done|].
    destruct (negb _); [done|]. by simplify_eq. }
  destruct Hwf as (_ & _ & _ & _ & [Hpos _]).
  destruct (Nat.ltb_spec (length buf) (VCTP_HEADER_SIZE + Z.to_nat (payload_length h) + 4))
    as [|Hl]; [done|].
  unfold verify_checksum. cbn [header payload checksum].
  destruct (_ =? _) eqn:Hc; [apply Z.eqb_eq in Hc|done].
  intros [= <-]. exists (Z.to_nat (payload_length h)). cbn [header payload checksum].
  rewrite Z2Nat.id by done. split_and!; try done.
  - rewrite slice_length; lia.
  - rewrite <- Hc. unfold compute_checksum. rewrite Henc, slice_join by lia. done.
Qed.

Lemma packet_decode k rest :
  packet_wf k -> packet_from_bytes (packet_to_bytes k ++ rest) = Some k.
Proof.
  intros (Hh & Hmagic & Hp & Hn & Hc). unfold packet_from_bytes, packet_to_bytes.
  rewrite <- !app_assoc, header_decode by done.
  rewrite !length_app, header_to_bytes_length, le_bytes_length, Hn, Nat2Z.id.
  destruct (Nat.ltb_spec (VCTP_HEADER_SIZE + (length (payload k) + (4 + length rest)))
    (VCTP_HEADER_SIZE + 4)); [lia|].
  destruct (Nat.ltb_spec (VCTP_HEADER_SIZE + (length (payload k) + (4 + length rest)))
    (VCTP_HEADER_SIZE + length (payload k) + 4)); [lia|].
  rewrite slice_app by (rewrite ?header_to_bytes_length; done).
  rewrite (app_assoc (header_to_bytes _)).
  rewrite slice_app by (rewrite ?length_app, ?header_to_bytes_length, ?le_bytes_length; done).
  rewrite (le_val_le_bytes_fits 4 32) by (rewrite ?Hc; done || apply compute_checksum_u32).
  unfold verify_checksum. simpl. rewrite <- Hc, Z.eqb_refl. by destruct k.
Qed.

(** A packet built by the sender survives the wire: serializing
    and parsing returns it, also when the datagram has trailing bytes. *)
Theorem packet_roundtrip (seq wid off : Z) (p rest : bytes)
  (Hs : u64 seq) (Hw : u64 wid) (Ho : u32 off) (Hp : is_bytes p)
  (Hl : u32 (Z.of_nat (length p))) :
  let k := packet_new (header_new seq wid off (Z.of_nat (length p))) p in
  packet_from_bytes (packet_to_bytes k ++ rest) = Some k.
Proof.
  intros k. apply packet_decode. unfold packet_wf, header_wf. simpl.
  split_and!; try done; unfold fits, VCTP_MAGIC in *; lia.
Qed.

Lemma packet_to_bytes_length k :
  length (packet_to_bytes k) = (VCTP_HEADER_SIZE + length (payload k) + 4)%nat.
Proof.
  unfold packet_to_bytes. rewrite !length_app, header_to_bytes_length, le_bytes_length. lia.
Qed.

Lemma packet_to_bytes_bytes k : packet_wf k -> is_bytes (packet_to_bytes k).
Proof.
  intros (_ & _ & Hp & _). unfold packet_to_bytes.
  rewrite !Forall_app. auto using header_to_bytes_bytes with velocity.
Qed.

(** Corruption of any single byte of a packet on the wire, outside
    the four bytes of the length field, is detected: the receiver rejects the
    datagram. *)
Theorem packet_corruption_detected (k : VctpPacket) (i : nat) (b : Z)
  (Hk : packet_wf k) (Hb : u8 b) (Hi : (i < length (packet_to_bytes k))%nat)
  (Hfield : (i < 24 \/ 28 <= i)%nat) (Hne : packet_to_bytes k !! i ≠ Some b) :
  packet_from_bytes (<[i:=b]> (packet_to_bytes k)) = None.
Proof.
  destruct (packet_from_bytes _) as [k'|] eqn:Hdec; [exfalso|done].
  pose proof (packet_decode k [] Hk) as Hgood. rewrite app_nil_r in Hgood.
  pose proof (packet_to_bytes_bytes k Hk) as Hbytes.
  rewrite packet_to_bytes_length in Hi. set (buf := packet_to_bytes k) in *.
  apply packet_accept in Hgood as (n & _ & Hn & Hlen & Hval & _ & Hcrc & Hck & _); [|done].
  apply packet_accept in Hdec as (n' & _ & _ & Hlen' & Hval' & _ & Hcrc' & Hck' & _);
    [|by apply Forall_insert].
  rewrite slice_insert_out in Hval' by lia. assert (n' = n) as -> by lia.
  rewrite length_insert in Hlen'. rewrite <- Hn in Hi.
  destruct (decide (i < VCTP_HEADER_SIZE + n)%nat) as [Hbody|Htail].
  - rewrite slice_insert_out in Hck' by lia.
    rewrite slice_insert_in in Hcrc' by lia. rewrite Nat.sub_0_r in Hcrc'.
    rewrite Hck', <- Hck, <- Hcrc in Hcrc'. clear Hck' Hck.
    set (body := slice 0 (VCTP_HEADER_SIZE + n) buf) in *.
    assert (Hbb : is_bytes body) by by apply slice_Forall.
    destruct (lookup_lt_is_Some_2 body i) as [b0 Hb0].
    { unfold body. rewrite slice_length; lia. }
    assert (Hbuf0 : buf !! i = Some b0).
    { unfold body in Hb0. rewrite lookup_slice in Hb0. by case_decide. }
    rewrite insert_take_drop in Hcrc' by (apply lookup_lt_is_Some; eauto).
    rewrite <- (take_drop_middle body i b0) in Hcrc' at 3 by done.
    apply crc32_bitwise_byte in Hcrc'.
    + congruence.
    + by apply Forall_take.
    + done.
    + by eapply (Forall_lookup_1 _ body).
    + by apply Forall_drop.
  - rewrite (slice_insert_out 0) in Hcrc' by lia.
    rewrite slice_insert_in in Hck' by lia.
    rewrite <- Hcrc', Hcrc, Hck in Hck'.
    set (tail := slice (VCTP_HEADER_SIZE + n) (VCTP_HEADER_SIZE + n + 4) buf) in *.
    assert (Htb : is_bytes tail) by by apply slice_Forall.
    apply le_val_inj in Hck'; [|done|by apply Forall_insert|by rewrite length_insert].
    assert (Hj : tail !! (i - (VCTP_HEADER_SIZE + n))%nat = Some b).
    { rewrite Hck'. apply list_lookup_insert_eq. unfold tail. rewrite slice_length; lia. }
    unfold tail in Hj. rewrite lookup_slice in Hj. case_decide; [|done].
    replace (VCTP_HEADER_SIZE + n + (i - (VCTP_HEADER_SIZE + n)))%nat with i in Hj by lia.
    done.
Qed.

(** ** Acknowledgements *)

Lemma ack_decode seq wid rest :
  u64 seq -> u64 wid ->
  ack_from_bytes (ack_to_bytes (ack_new seq wid) ++ rest) = Some (ack_new seq wid).
Proof.
  intros Hs Hw. unfold ack_from_bytes, ack_to_bytes. simpl.
  rewrite !length_app, !le_bytes_length.
  destruct (Nat.ltb_spec (4 + (8 + 8) + length rest) 20); [lia|].
  rewrite <- !app_assoc. read_fields.
  rewrite !(le_val_le_bytes_fits 8 64), (le_val_le_bytes_fits 4 32)
    by (done || unfold fits, VCTP_ACK_MAGIC; lia).
  done.
Qed.

(** ** Ciphers *)

Lemma keystream_u8 c seq i : cipher_wf c -> u8 (keystream c seq i).
Proof.
  intros (Hl & Hk & _). unfold keystream. apply fits_lxor; [lia| |apply wrap_fits; lia].
  assert (i mod 32 < 32)%nat by (apply Nat.mod_upper_bound; lia).
  destruct (lookup_lt_is_Some_2 (cipher_key c) (i mod 32)) as [x Hx]; [lia|].
  rewrite (list_lookup_total_correct _ _ _ Hx). by eapply Forall_lookup_1.
Qed.

Lemma cipher_apply_length c data seq : length (cipher_apply c data seq) = length data.
Proof. apply length_imap. Qed.

Lemma cipher_apply_bytes c data seq :
  cipher_wf c -> is_bytes data -> is_bytes (cipher_apply c data seq).
Proof.
  intros Hc Hd. apply Forall_lookup. intros i x Hx. unfold cipher_apply in Hx.
  rewrite list_lookup_imap in Hx. apply fmap_Some in Hx as (b & Hb & ->).
  apply fits_lxor; [lia| |by apply keystream_u8]. by eapply (Forall_lookup_1 _ data).
Qed.

Lemma cipher_apply_involutive c data seq :
  cipher_apply c (cipher_apply c data seq) seq = data.
Proof.
  unfold cipher_apply. apply list_eq. intros i. rewrite !list_lookup_imap.
  destruct (data !! i); simpl; [|done].
  by rewrite Z.lxor_assoc, Z.lxor_nilpotent, Z.lxor_0_r.
Qed.

Lemma ct_diff_zero l l' d :
  0 <= d -> Forall (fun x => 0 <= x) l -> Forall (fun x => 0 <= x) l' -> length l = length l' ->
  0 <= fold_left (fun diff ab => diff ||| (ab.1 ^^^ ab.2)) (zip l l') d /\
  (fold_left (fun diff ab => diff ||| (ab.1 ^^^ ab.2)) (zip l l') d = 0 <-> d = 0 /\ l = l').
Proof.
  intros Hd Hl. revert l' d Hd. induction Hl as [|x l Hx Hl IH]; intros l' d Hd Hl' Hlen.
  - destruct l'; [|done]. simpl. naive_solver.
  - destruct Hl' as [|y l' Hy Hl']; [done|]. simpl in *.
    assert (Hd' : 0 <= (d ||| (x ^^^ y))) by (apply Z.lor_nonneg, conj; [done|apply Z.lxor_nonneg; tauto]).
    destruct (IH l' _ Hd' Hl') as [Hpos Hiff]; [lia|]. split; [done|].
    rewrite Hiff, Z.lor_eq_0_iff, Z.lxor_eq_0_iff. naive_solver.
Qed.

(** The XOR cipher is its own inverse: decrypting an encrypted
    packet under the same key, nonce and sequence restores it; ciphertext is
    again a byte string of the same length. *)
Theorem cipher_roundtrip (c : VctpCipher) (k : VctpPacket) (seq : Z)
  (Hc : cipher_wf c) (Hp : is_bytes (payload k)) :
  decrypt_packet c (encrypt_packet c k seq) seq = k /\
  is_bytes (payload (encrypt_packet c k seq)) /\
  length (payload (encrypt_packet c k seq)) = length (payload k).
Proof.
  unfold encrypt_packet, decrypt_packet. cbn [payload header checksum]. split_and!.
  - rewrite cipher_apply_involutive. by destruct k.
  - by apply cipher_apply_bytes.
  - apply cipher_apply_length.
Qed.

(** The constant-time MAC check accepts exactly the computed tag. *)
Theorem verify_mac_correct `{Sha256} (c : VctpCipher) (data : bytes) (seq : Z) (tag : bytes)
  (Ht : is_bytes tag) (Hl : length tag = 32%nat) :
  verify_mac c data seq tag = bool_decide (tag = compute_mac c data seq).
Proof.
  unfold verify_mac. set (mac := compute_mac c data seq).
  assert (Hm : is_bytes mac /\ length mac = 32%nat).
  { split; [apply sha256_bytes|apply sha256_length]. }
  destruct (ct_diff_zero mac tag 0) as [_ Hiff]; [lia|..|lia|].
  1,2: eapply Forall_impl; [apply Hm || apply Ht|unfold fits; intros; lia].
  apply eq_bool_prop_intro. rewrite bool_decide_spec, Is_true_true, Z.eqb_eq, Hiff. naive_solver.
Qed.

Lemma set_payload_id k : packet_wf k -> set_payload k (payload k) = k.
Proof.
  intros (Hh & _ & _ & Hn & Hc). destruct k as [[a b c d e] p ck]. unfold set_payload.
  simpl in *. destruct Hh as (_ & _ & _ & _ & He). simpl in He. subst.
  by rewrite wrap_id.
Qed.

(** AES-256-GCM sealing a packet and opening it with the same key
    and sequence number gives back the packet, header, length and checksum
    included, and reports success; the sealed packet's length field and checksum
    match its 16 bytes longer payload. *)
Theorem gcm_packet_roundtrip `{Aes256Gcm} (key : bytes) (k k' : VctpPacket) (seq : Z)
  (Hk : packet_wf k) (Hl : u32 (Z.of_nat (length (payload k)) + 16))
  (He : gcm_encrypt_packet key k seq = Ret k') :
  gcm_decrypt_packet key k' seq = (k, true) /\
  payload_length (header k') = Z.of_nat (length (payload k)) + 16 /\
  verify_checksum k' = true.
Proof.
  unfold gcm_encrypt_packet, gcm_encrypt in He.
  destruct (aead_encrypt key (derive_nonce seq) (payload k)) as [ct|] eqn:Hct; simplify_eq.
  pose proof (aead_tag_length _ _ _ _ Hct) as Hlen.
  unfold gcm_decrypt_packet, gcm_decrypt. split_and!.
  - simpl. rewrite (aead_open_seal _ _ _ _ Hct). f_equal.
    transitivity (set_payload k (payload k)); [done|by apply set_payload_id].
  - simpl. rewrite Hlen, Nat2Z.inj_add, wrap_id; [done|]. done.
  - unfold verify_checksum. simpl. apply Z.eqb_refl.
Qed.

(** ** Witnesses *)

Definition sample_packet : VctpPacket := packet_new (header_new 1 100 0 5) [1; 2; 3; 4; 5].

Lemma sample_packet_wf : packet_wf sample_packet.
Proof.
  unfold packet_wf, header_wf, sample_packet, packet_new, header_new, VCTP_MAGIC.
  cbn [header payload checksum hdr_magic sequence_number hdr_workflow_id slab_offset payload_length].
  split_and!; try reflexivity; try (unfold fits; lia).
  repeat (constructor; [unfold fits; lia|]). constructor.
Qed.

Definition sample_cipher : VctpCipher := mkCipher (seqZ 7 32) 42.

(** A stand-in for the AEAD crate: a zero tag appended to the plaintext. *)
Definition tag_seal (k n m : bytes) : option bytes := Some (m ++ replicate 16 0).

Definition tag_open (k n c : bytes) : option bytes :=
  let m := take (length c - 16) c in
  if decide (c = m ++ replicate 16 0) then Some m else None.

Lemma tag_open_seal k n m c : tag_seal k n m = Some c -> tag_open k n c = Some m.
Proof.
  intros Hc. assert (c = m ++ replicate 16 0) as -> by (unfold tag_seal in Hc; congruence).
  unfold tag_open. rewrite length_app, length_replicate, Nat.add_sub.
  rewrite take_app_length. by rewrite decide_True.
Qed.

Lemma tag_seal_length k n m c : tag_seal k n m = Some c -> length c = (length m + 16)%nat.
Proof.
  intros Hc. assert (c = m ++ replicate 16 0) as -> by (unfold tag_seal in Hc; congruence).
  by rewrite length_app, length_replicate.
Qed.

Definition tag_aead : Aes256Gcm := {|
  aead_encrypt := tag_seal;
  aead_decrypt := tag_open;
  aead_open_seal := tag_open_seal;
  aead_tag_length := tag_seal_length;
|}.

Lemma header_roundtrip_witness :
  header_from_bytes (header_to_bytes (header_new 42 1000 128 256) ++ [9]) =
  Some (header_new 42 1000 128 256).
Proof.
  apply (proj1 header_roundtrip); [|reflexivity].
  unfold header_wf, header_new, VCTP_MAGIC, fits.
  cbn [hdr_magic sequence_number hdr_workflow_id slab_offset payload_length]. lia.
Defined.

Lemma packet_roundtrip_witness :
  packet_from_bytes (packet_to_bytes sample_packet ++ [0; 7]) = Some sample_packet.
Proof.
  apply (packet_roundtrip 1 100 0 [1; 2; 3; 4; 5] [0; 7]);
    try (unfold fits; cbn [length]; lia).
  repeat (constructor; [unfold fits; lia|]). constructor.
Defined.

Lemma packet_corruption_detected_witness :
  packet_from_bytes (<[30%nat := 252]> (packet_to_bytes sample_packet)) = None.
Proof.
  apply (packet_corruption_detected sample_packet 30 252 sample_packet_wf).
  - unfold fits; lia.
  - rewrite packet_to_bytes_length. vm_compute. lia.
  - lia.
  - vm_compute. discriminate.
Defined.

Lemma cipher_roundtrip_witness :
  decrypt_packet sample_cipher (encrypt_packet sample_cipher sample_packet 1) 1 = sample_packet.
Proof.
  apply (cipher_roundtrip sample_cipher sample_packet 1).
  - unfold cipher_wf. split_and!.
    + reflexivity.
    + apply (bool_decide_unpack _). vm_compute. exact I.
    + unfold fits; cbn [nonce sample_cipher]; lia.
  - apply sample_packet_wf.
Defined.

Lemma verify_mac_correct_witness :
  let H := poly_sha in
  verify_mac sample_cipher [104; 105] 1 (compute_mac sample_cipher [104; 105] 1) = true.
Proof.
  intros H. rewrite (verify_mac_correct (H := H)).
  - apply bool_decide_eq_true. reflexivity.
  - apply sha256_bytes.
  - apply sha256_length.
Defined.

Lemma gcm_packet_roundtrip_witness :
  let H := tag_aead in
  exists k', gcm_encrypt_packet [1] sample_packet 9 = Ret k' /\
             gcm_decrypt_packet [1] k' 9 = (sample_packet, true).
Proof.
  intros H. eexists. split; [reflexivity|].
  apply (gcm_packet_roundtrip (H := H) [1] sample_packet _ 9 sample_packet_wf).
  - unfold fits. vm_compute. split; congruence.
  - reflexivity.
Defined.

End Vctp.
