(* ===== verification/VctpFlow.v ===== *)
(** * VCTP flow control ([velocity-workflow-core/src/vctp.rs], lines 326-398 and 442-568)

    Replay protection, AIMD pacing and retransmission tracking. *)

From Stdlib Require Import SpecFloat.
From S2P Require Import Prelude.

Module Replay.

(** ** Sliding-window replay protection *)

Record VctpReplayWindow : Type := mkWindow {
  highest_seq : Z;
  window_mask : Z;
  window_size : Z;
}.

Definition window_new (size : Z) : VctpReplayWindow := mkWindow 0 0 size.

(** [x << s] on [u64] in a release build: the shift amount is taken modulo 64. *)
Definition shl64 (x s : Z) : Z := wrap 64 (x <<< (s mod 64)).

Definition check_and_record (w : VctpReplayWindow) (seq : Z) : VctpReplayWindow * bool :=
  if (seq =? 0) && (highest_seq w =? 0) && (window_mask w =? 0) then
    (mkWindow 0 1 (window_size w), true)
  else if highest_seq w <? seq then
    let shift := seq - highest_seq w in
    let mask := if 64 <=? shift then 1 else shl64 (window_mask w) shift ||| 1 in
    (mkWindow seq mask (window_size w), true)
  else
    let offset := highest_seq w - seq in
    if window_size w <=? offset then (w, false)
    else if negb ((window_mask w &&& shl64 1 offset) =? 0) then (w, false)
    else (mkWindow (highest_seq w) (window_mask w ||| shl64 1 offset) (window_size w), true).

Definition tracked_count (w : VctpReplayWindow) : Z := count_ones 64 (window_mask w).

(** A receiver's decisions on a stream of sequence numbers. *)
Fixpoint decisions (w : VctpReplayWindow) (seqs : list Z) : list bool :=
  match seqs with
  | [] => []
  | s :: seqs => let '(w', ok) := check_and_record w s in ok :: decisions w' seqs
  end.

(** ** Specification: remember every accepted number *)

Record replay_spec : Type := mkSpec {
  seen : gset Z;
  newest : option Z;
}.

Definition spec_fresh (size : Z) (s : replay_spec) (seq : Z) : Prop :=
  (seq ∉ seen s) /\ (match newest s with None => True | Some h => h < seq \/ h - seq < size end).

#[export] Instance spec_fresh_dec size s seq : Decision (spec_fresh size s seq).
Proof. unfold spec_fresh. destruct (newest s); apply _. Defined.

Definition spec_check (size : Z) (s : replay_spec) (seq : Z) : replay_spec * bool :=
  if decide (spec_fresh size s seq) then
    (mkSpec ({[seq]} ∪ seen s)
       (Some (match newest s with None => seq | Some h => Z.max h seq end)), true)
  else (s, false).

Fixpoint spec_decisions (size : Z) (s : replay_spec) (seqs : list Z) : list bool :=
  match seqs with
  | [] => []
  | q :: seqs => let '(s', ok) := spec_check size s q in ok :: spec_decisions size s' seqs
  end.

(** The numbers accepted out of a stream. *)
Definition accepted (ds : list bool) (seqs : list Z) : list Z :=
  fmap fst (filter (fun p => p.2 = true) (zip seqs ds)).

(** ** Simulation relation *)

Definition replay_rel (w : VctpReplayWindow) (s : replay_spec) : Prop :=
  u64 (window_mask w) /\ 0 <= highest_seq w /\
  (forall q, q ∈ seen s -> 0 <= q <= highest_seq w) /\
  (forall i, 0 <= i < 64 -> Z.testbit (window_mask w) i = bool_decide (highest_seq w - i ∈ seen s)) /\
  match newest s with
  | None => seen s = ∅ /\ highest_seq w = 0
  | Some h => highest_seq w = h /\ h ∈ seen s
  end.

Lemma replay_rel_new size : replay_rel (window_new size) (mkSpec ∅ None).
Proof.
  unfold replay_rel, window_new; simpl. split_and!; try done.
  intros i _. rewrite Z.testbit_0_l. symmetry. apply bool_decide_eq_false. set_solver.
Qed.

Lemma shl64_one s : 0 <= s < 64 -> shl64 1 s = (1 <<< s).
Proof.
  intros. unfold shl64. rewrite Z.mod_small by done.
  apply wrap_id. by apply fits_shiftl1.
Qed.

Lemma shl64_testbit x s i :
  0 <= s < 64 -> 0 <= i < 64 ->
  Z.testbit (shl64 x s) i = if decide (s <= i) then Z.testbit x (i - s) else false.
Proof.
  intros Hs Hi. unfold shl64, wrap. rewrite (Z.mod_small s) by done.
  rewrite Z.mod_pow2_bits_low, Z.shiftl_spec by lia. case_decide; [done|].
  apply Z.testbit_neg_r. lia.
Qed.

(** Recording [seq] above the watermark. *)
Lemma replay_rel_advance w s seq :
  replay_rel w s -> highest_seq w < seq ->
  let shift := seq - highest_seq w in
  let mask := if 64 <=? shift then 1 else shl64 (window_mask w) shift ||| 1 in
  replay_rel (mkWindow seq mask (window_size w)) (mkSpec ({[seq]} ∪ seen s) (Some seq)).
Proof.
  intros (Hm & Hh & Hseen & Hbits & Hnew) Hlt shift mask. unfold replay_rel; simpl.
  assert (Hmask : u64 mask).
  { unfold mask. destruct (64 <=? shift); [unfold fits; lia|].
    apply fits_lor; [lia|apply wrap_fits; lia|unfold fits; lia]. }
  split_and!; [done|lia| | |done|set_solver].
  - intros q [->%elem_of_singleton|Hq%Hseen]%elem_of_union; lia.
  - intros i Hi.
    assert (Hold : forall j, 0 < j -> highest_seq w + j ∉ seen s).
    { intros j Hj Hin. apply Hseen in Hin. lia. }
    unfold mask. destruct (Z.leb_spec 64 shift) as [Hs|Hs].
    + rewrite <- (Z.shiftl_0_r 1), testbit_shiftl1 by lia. apply bool_decide_ext.
      rewrite elem_of_union, elem_of_singleton. split; [intros <-; left; lia|].
      intros [?|Hin]; [lia|]. exfalso. apply (Hold (seq - i - highest_seq w)); [lia|].
      by replace (highest_seq w + (seq - i - highest_seq w)) with (seq - i) by lia.
    + rewrite Z.lor_spec, <- (Z.shiftl_0_r 1), testbit_shiftl1, shl64_testbit by lia.
      apply eq_bool_prop_intro. rewrite orb_True, !bool_decide_spec.
      rewrite elem_of_union, elem_of_singleton. case_decide.
      * rewrite Hbits, bool_decide_spec by lia.
        replace (highest_seq w - (i - shift)) with (seq - i) by lia. intuition lia.
      * split; [intros [[]|<-]; left; lia|]. intros [?|Hin]; [right; lia|]. exfalso.
        apply (Hold (seq - i - highest_seq w)); [lia|].
        by replace (highest_seq w + (seq - i - highest_seq w)) with (seq - i) by lia.
Qed.

(** Recording [seq] at offset [highest - seq] inside the window. *)
Lemma replay_rel_mark w s seq h :
  replay_rel w s -> newest s = Some h -> 0 <= seq <= highest_seq w -> highest_seq w - seq < 64 ->
  replay_rel (mkWindow (highest_seq w) (window_mask w ||| shl64 1 (highest_seq w - seq)) (window_size w))
    (mkSpec ({[seq]} ∪ seen s) (Some h)).
Proof.
  intros (Hm & Hh & Hseen & Hbits & Hnew) Hnewest Hseq Hoff. rewrite Hnewest in Hnew.
  unfold replay_rel; simpl. rewrite shl64_one by lia. split_and!; [|done| | |naive_solver|set_solver].
  - apply fits_lor; [lia|done|]. apply fits_shiftl1. lia.
  - intros q [->%elem_of_singleton|Hq%Hseen]%elem_of_union; lia.
  - intros i Hi. rewrite Z.lor_spec, testbit_shiftl1, Hbits by lia.
    apply eq_bool_prop_intro. rewrite orb_True, !bool_decide_spec.
    rewrite elem_of_union, elem_of_singleton. intuition lia.
Qed.

(** The mask bit at the offset of [seq] says whether [seq] was accepted. *)
Lemma replay_bit w s seq :
  replay_rel w s -> 0 <= seq <= highest_seq w -> highest_seq w - seq < 64 ->
  negb ((window_mask w &&& shl64 1 (highest_seq w - seq)) =? 0) = bool_decide (seq ∈ seen s).
Proof.
  intros (Hm & _ & _ & Hbits & _) Hseq Hoff.
  rewrite shl64_one, testbit_land_nonzero, Hbits by (lia || apply Hm).
  by replace (highest_seq w - (highest_seq w - seq)) with seq by lia.
Qed.

Lemma replay_empty_mask w s :
  replay_rel w s -> highest_seq w = 0 -> window_mask w = 0 -> newest s = None.
Proof.
  intros (_ & _ & _ & Hbits & Hnew) Hh Hm. destruct (newest s) as [h|]; [|done].
  destruct Hnew as [Hhh Hin]. specialize (Hbits 0 ltac:(lia)).
  rewrite Hm, Z.testbit_0_l in Hbits. symmetry in Hbits.
  apply bool_decide_eq_false in Hbits. destruct Hbits. by rewrite Z.sub_0_r, Hhh.
Qed.

Lemma replay_step w s seq :
  0 <= window_size w <= 64 -> 0 <= seq -> replay_rel w s ->
  let '(w', ok) := check_and_record w seq in
  let '(s', ok') := spec_check (window_size w) s seq in
  ok = ok' /\ replay_rel w' s' /\ window_size w' = window_size w.
Proof.
  intros Hsize Hseq Hrel. pose proof Hrel as (Hm & Hh & Hseen & Hbits & Hnew).
  unfold check_and_record, spec_check.
  destruct ((seq =? 0) && (highest_seq w =? 0) && (window_mask w =? 0)) eqn:Hfirst.
  { apply andb_true_iff in Hfirst as [[Hs0 Hh0]%andb_true_iff Hm0].
    apply Z.eqb_eq in Hs0, Hh0, Hm0. rewrite (replay_empty_mask w s) in * by done.
    destruct Hnew as [Hempty _]. rewrite decide_True.
    2: { unfold spec_fresh. rewrite (replay_empty_mask w s) by done. rewrite Hempty. set_solver. }
    split_and!; [done| |done]. subst seq. rewrite Hempty.
    unfold replay_rel; simpl. split_and!; [unfold fits; lia|done|set_solver| |done|set_solver].
    intros i Hi. rewrite <- (Z.shiftl_0_r 1), testbit_shiftl1 by lia. apply bool_decide_ext.
    rewrite elem_of_union, elem_of_singleton. set_solver by lia. }
  destruct (Z.ltb_spec (highest_seq w) seq) as [Hlt|Hge].
  { rewrite decide_True.
    2: { unfold spec_fresh. split; [intros Hin%Hseen; lia|].
         destruct (newest s); [|done]. destruct Hnew. lia. }
    split_and!; [done| |done].
    replace (match newest s with None => seq | Some h => h `max` seq end) with seq.
    2: { destruct (newest s); [|done]. destruct Hnew. lia. }
    by apply replay_rel_advance. }
  destruct (newest s) as [h|] eqn:Hnewest.
  2: { exfalso. destruct Hnew as [Hempty Hh0]. assert (seq = 0) as -> by lia.
       rewrite Hh0 in Hfirst. simpl in Hfirst. apply Z.eqb_neq in Hfirst. apply Hfirst.
       apply Z.bits_inj'. intros n Hn. rewrite Z.testbit_0_l. destruct (decide (n < 64)).
       - rewrite Hbits, Hempty by lia. apply bool_decide_eq_false. set_solver.
       - apply (fits_testbit_high 64); [done|lia]. }
  destruct Hnew as [Hhh _].
  destruct (Z.leb_spec (window_size w) (highest_seq w - seq)).
  { rewrite decide_False; [done|]. unfold spec_fresh. rewrite Hnewest. intros [_ ?]. lia. }
  rewrite (replay_bit w s) by (done || lia). case_bool_decide as Hin.
  { rewrite decide_False; [done|]. unfold spec_fresh. naive_solver. }
  rewrite decide_True.
  2: { unfold spec_fresh. rewrite Hnewest. split; [done|lia]. }
  split_and!; [done| |done]. replace (h `max` seq) with h by lia.
  apply replay_rel_mark; (done || lia).
Qed.

Lemma replay_decisions w s seqs :
  0 <= window_size w <= 64 -> Forall u64 seqs -> replay_rel w s ->
  decisions w seqs = spec_decisions (window_size w) s seqs.
Proof.
  intros Hsize Hseqs. revert w s Hsize. induction Hseqs as [|q seqs Hq _ IH]; [done|].
  intros w s Hsize Hrel. simpl.
  pose proof (replay_step w s q Hsize ltac:(apply Hq) Hrel) as Hstep.
  destruct (check_and_record w q) as [w' ok], (spec_check (window_size w) s q) as [s' ok'].
  destruct Hstep as (-> & Hrel' & Hw'). f_equal. rewrite <- Hw'. apply IH; [lia|done].
Qed.

Lemma accepted_cons b ds q seqs :
  accepted (b :: ds) (q :: seqs) = if b then q :: accepted ds seqs else accepted ds seqs.
Proof. unfold accepted. by destruct b. Qed.

Lemma spec_accepted_fresh size s seqs :
  NoDup (accepted (spec_decisions size s seqs) seqs) /\
  (forall q, q ∈ accepted (spec_decisions size s seqs) seqs -> q ∉ seen s).
Proof.
  revert s. induction seqs as [|q seqs IH]; intros s; simpl.
  { unfold accepted. simpl. split; [constructor|set_solver]. }
  unfold spec_check. case_decide as Hf; rewrite accepted_cons.
  - destruct (IH (mkSpec ({[q]} ∪ seen s)
      (Some (match newest s with None => q | Some h => h `max` q end)))) as [Hnd Hfresh].
    simpl in Hfresh. split.
    + constructor; [|done]. intros Hin%Hfresh. set_solver.
    + intros q' Hq'. apply elem_of_cons in Hq' as [->|Hin%Hfresh]; [apply Hf|set_solver].
  - apply IH.
Qed.

(** C37. With a window of at most 64 the bitmask implements the
    specification that remembers every accepted number: on every stream a
    packet is accepted exactly when it was not accepted before and is newer than
    the newest one or less than the window behind it. *)
Theorem replay_window_refines (size : Z) (seqs : list Z)
  (Hsize : 0 <= size <= 64) (Hseqs : Forall u64 seqs) :
  decisions (window_new size) seqs = spec_decisions size (mkSpec ∅ None) seqs.
Proof. by apply (replay_decisions (window_new size)), replay_rel_new. Qed.

(** No sequence number is accepted twice, however the packets
    are reordered, dropped or repeated. *)
Theorem replay_never_accepted_twice (size : Z) (seqs : list Z)
  (Hsize : 0 <= size <= 64) (Hseqs : Forall u64 seqs) :
  NoDup (accepted (decisions (window_new size) seqs) seqs).
Proof.
  rewrite (replay_decisions (window_new size) (mkSpec ∅ None)) by auto using replay_rel_new.
  apply spec_accepted_fresh.
Qed.

(** A window larger than the 64-bit mask does accept a replay: a
    128-wide window takes packet 10 again after packet 100 has cleared the mask. *)
Theorem replay_wide_window_accepts_replay :
  decisions (window_new 128) [10; 100; 10] = [true; true; true].
Proof. vm_compute. reflexivity. Qed.

Lemma replay_window_refines_witness :
  decisions (window_new 64) [0; 1000; 0; 935; 950; 950] =
  spec_decisions 64 (mkSpec ∅ None) [0; 1000; 0; 935; 950; 950].
Proof.
  apply (replay_window_refines 64); [lia|].
  repeat (constructor; [unfold fits; lia|]). constructor.
Defined.

Lemma replay_never_accepted_twice_witness :
  NoDup (accepted (decisions (window_new 64) [50; 25; 75; 50; 25]) [50; 25; 75; 50; 25]).
Proof.
  apply (replay_never_accepted_twice 64); [lia|].
  repeat (constructor; [unfold fits; lia|]). constructor.
Defined.

End Replay.

Module Aimd.

(** ** AIMD pacing

    [f32] is IEEE binary32, from the Standard Library's [SpecFloat]: 24 bits of
    precision, exponents below 128, round to nearest even. *)

Definition f32 : Type := spec_float.
Definition f32_mul : f32 -> f32 -> f32 := SFmul 24 128.

(** [n as f32]. *)
Definition u32_as_f32 (n : Z) : f32 := binary_normalize 24 128 n 0 false.

(** [x as u32]: truncation towards zero, saturating, with [NaN] to 0. *)
Definition f32_as_u32 (x : f32) : Z :=
  match x with
  | S754_zero _ | S754_nan => 0
  | S754_infinity s => if s then 0 else U32_MAX
  | S754_finite s m e =>
      if s then 0
      else Z.min U32_MAX (if 0 <=? e then Zpos m <<< e else Zpos m >>> (- e))
  end.

(** The literal [0.85], the nearest [f32]: 14260634 * 2^-24. *)
Definition f32_0_85 : f32 := S754_finite false 14260634 (-24).

Record AimdController : Type := mkAimd {
  pacing_rate_mbps : Z;
  loss_threshold_percent : Z;
}.

Definition aimd_new : AimdController := mkAimd 100 2.

Definition aimd_update (c : AimdController) (loss_percent : Z) : AimdController :=
  if loss_threshold_percent c <? loss_percent then
    let rate := f32_as_u32 (f32_mul (u32_as_f32 (pacing_rate_mbps c)) f32_0_85) in
    mkAimd (if rate <? 10 then 10 else rate) (loss_threshold_percent c)
  else mkAimd (saturating_add 32 (pacing_rate_mbps c) 10) (loss_threshold_percent c).

Lemma f32_as_u32_fits x : u32 (f32_as_u32 x).
Proof.
  unfold fits, U32_MAX. destruct x as [|[]| |[] m e]; simpl; try (unfold U32_MAX; lia).
  destruct (Z.leb_spec 0 e).
  - assert (0 <= Zpos m <<< e) by (apply Z.shiftl_nonneg; lia). unfold U32_MAX. lia.
  - assert (0 <= Zpos m >>> (- e)) by (apply Z.shiftr_nonneg; lia). unfold U32_MAX. lia.
Qed.

(** Pacing stays a [u32] of at least 10 Mbps under every loss report. *)
Lemma aimd_update_bounds c loss :
  10 <= pacing_rate_mbps c <= U32_MAX -> 10 <= pacing_rate_mbps (aimd_update c loss) <= U32_MAX.
Proof.
  intros Hc. unfold aimd_update, saturating_add.
  destruct (loss_threshold_percent c <? loss); simpl; [|unfold U32_MAX in *; lia].
  destruct (f32_as_u32_fits (f32_mul (u32_as_f32 (pacing_rate_mbps c)) f32_0_85)).
  unfold U32_MAX in *. destruct (Z.ltb_spec (f32_as_u32 (f32_mul (u32_as_f32 (pacing_rate_mbps c)) f32_0_85)) 10); lia.
Qed.

(** The additive rise and multiplicative drop of the unit test: 100, 110, 93. *)
Lemma aimd_cycle :
  pacing_rate_mbps (aimd_update aimd_new 1) = 110 /\
  pacing_rate_mbps (aimd_update (aimd_update aimd_new 1) 5) = 93.
Proof. vm_compute. done. Qed.

End Aimd.

Module Retransmit.

(** ** Retransmission tracking *)

Record pending_entry : Type := mkPending {
  p_seq : Z;
  p_bytes : list Z;
  p_send_time : Z;
  p_retries : Z;
}.

Record VctpRetransmitTracker : Type := mkTracker {
  pending : list pending_entry;
  rtt_ms : Z;
  max_retries : Z;
  rto_multiplier : Z;
}.

Definition tracker_new : VctpRetransmitTracker := mkTracker [] 50 5 2.

Definition track_send (t : VctpRetransmitTracker) (sequence : Z) (packet_bytes : list Z)
  (now_ms : Z) : VctpRetransmitTracker :=
  mkTracker (pending t ++ [mkPending sequence packet_bytes now_ms 0])
    (rtt_ms t) (max_retries t) (rto_multiplier t).

Definition process_ack (t : VctpRetransmitTracker) (ack_sequence now_ms : Z) :
  VctpRetransmitTracker * option Z :=
  match position (fun e => p_seq e =? ack_sequence) (pending t) with
  | Some pos =>
      match pending t !! pos with
      | Some e =>
          let rtt := saturating_sub now_ms (p_send_time e) in
          (mkTracker (vec_remove pos (pending t)) (wrap 64 (rtt_ms t * 7 + rtt) / 8)
             (max_retries t) (rto_multiplier t), Some rtt)
      | None => (t, None)
      end
  | None => (t, None)
  end.

(** The loop of [get_retransmissions] on one entry: due, and below the limit. *)
Definition entry_due (now rto limit : Z) (e : pending_entry) : bool :=
  (rto <? saturating_sub now (p_send_time e)) && (p_retries e <? limit).

Definition retransmit_entry (now rto limit : Z) (e : pending_entry) : pending_entry :=
  if entry_due now rto limit e then mkPending (p_seq e) (p_bytes e) now (p_retries e + 1) else e.

Definition rto_ms (t : VctpRetransmitTracker) : Z := wrapping_mul 64 (rtt_ms t) (rto_multiplier t).

Definition get_retransmissions (t : VctpRetransmitTracker) (now_ms : Z) :
  VctpRetransmitTracker * list (Z * list Z) :=
  let rto := rto_ms t in
  (mkTracker (map (retransmit_entry now_ms rto (max_retries t)) (pending t))
     (rtt_ms t) (max_retries t) (rto_multiplier t),
   map (fun e => (p_seq e, p_bytes e))
     (List.filter (entry_due now_ms rto (max_retries t)) (pending t))).

Definition remove_expired (t : VctpRetransmitTracker) : VctpRetransmitTracker * list Z :=
  (mkTracker (List.filter (fun e => negb (max_retries t <=? p_retries e)) (pending t))
     (rtt_ms t) (max_retries t) (rto_multiplier t),
   map p_seq (List.filter (fun e => max_retries t <=? p_retries e) (pending t))).

Definition pending_count (t : VctpRetransmitTracker) : Z := Z.of_nat (length (pending t)).

(** ** Runs of the tracker *)

Inductive flow_event : Type :=
| Send (sequence : Z) (packet_bytes : list Z) (now : Z)
| Ack (sequence now : Z)
| Poll (now : Z)
| Expire.

Definition flow_step (t : VctpRetransmitTracker) (ev : flow_event) :
  VctpRetransmitTracker * list (Z * list Z) :=
  match ev with
  | Send q bs now => (track_send t q bs now, [])
  | Ack q now => ((process_ack t q now).1, [])
  | Poll now => get_retransmissions t now
  | Expire => ((remove_expired t).1, [])
  end.

(** Everything retransmitted during a run. *)
Fixpoint retransmitted (t : VctpRetransmitTracker) (evs : list flow_event) : list (Z * list Z) :=
  match evs with
  | [] => []
  | ev :: evs => let '(t', out) := flow_step t ev in out ++ retransmitted t' evs
  end.

Fixpoint polls (t : VctpRetransmitTracker) (times : list Z) : VctpRetransmitTracker :=
  match times with
  | [] => t
  | now :: times => polls (get_retransmissions t now).1 times
  end.

Definition tally {A} (f : A -> bool) (l : list A) : Z := Z.of_nat (length (List.filter f l)).

Definition sends (q : Z) (evs : list flow_event) : Z :=
  tally (fun ev => match ev with Send q' _ _ => q' =? q | _ => false end) evs.

(** Retransmissions of [q] that the pending list still allows. *)
Definition budget (q limit : Z) (l : list pending_entry) : Z :=
  foldr (fun e n => (if p_seq e =? q then limit - p_retries e else 0) + n) 0 l.

Definition retries_ok (t : VctpRetransmitTracker) : Prop :=
  0 <= max_retries t /\ Forall (fun e => 0 <= p_retries e <= max_retries t) (pending t).

(** ** Budget of retransmissions *)

Lemma tally_cons {A} (f : A -> bool) x l : tally f (x :: l) = (if f x then 1 else 0) + tally f l.
Proof. unfold tally. simpl. destruct (f x); simpl; lia. Qed.

Lemma tally_app {A} (f : A -> bool) l k : tally f (l ++ k) = tally f l + tally f k.
Proof. induction l as [|x l IH]; [done|]. simpl. rewrite !tally_cons. lia. Qed.

Lemma tally_nonneg {A} (f : A -> bool) l : 0 <= tally f l.
Proof. unfold tally. lia. Qed.

Lemma budget_app q limit l k : budget q limit (l ++ k) = budget q limit l + budget q limit k.
Proof. unfold budget. induction l as [|e l IH]; simpl; [done|]. rewrite IH. lia. Qed.

Lemma budget_nonneg q limit l :
  Forall (fun e => 0 <= p_retries e <= limit) l -> 0 <= budget q limit l.
Proof. induction 1; simpl; [done|]. destruct (_ =? q); lia. Qed.

Lemma budget_sublist q limit l k :
  sublist l k -> Forall (fun e => 0 <= p_retries e <= limit) k -> budget q limit l <= budget q limit k.
Proof.
  induction 1; intros Hk; simpl; [done|..]; apply Forall_cons in Hk as [He Hk];
    specialize (IHsublist Hk); simpl in *; destruct (_ =? q); lia.
Qed.

(** One poll spends exactly what it retransmits. *)
Lemma budget_poll q now rto limit l :
  budget q limit l =
  tally (fun p => p.1 =? q) (map (fun e => (p_seq e, p_bytes e)) (List.filter (entry_due now rto limit) l))
  + budget q limit (map (retransmit_entry now rto limit) l).
Proof.
  induction l as [|e l IH]; [done|]. simpl. rewrite IH.
  assert (retransmit_entry now rto limit e =
    if entry_due now rto limit e then mkPending (p_seq e) (p_bytes e) now (p_retries e + 1) else e) as -> by done.
  destruct (entry_due now rto limit e); simpl; rewrite ?tally_cons; simpl;
    destruct (p_seq e =? q); lia.
Qed.

Lemma process_ack_sublist t q now :
  sublist (pending (process_ack t q now).1) (pending t) /\
  max_retries (process_ack t q now).1 = max_retries t.
Proof.
  unfold process_ack. destruct (position _ _) as [pos|]; [|done].
  destruct (pending t !! pos); [|done]. simpl. split; [|done].
  apply vec_remove_sublist.
Qed.

Lemma flow_step_budget t ev q :
  retries_ok t ->
  retries_ok (flow_step t ev).1 /\ max_retries (flow_step t ev).1 = max_retries t /\
  tally (fun p => p.1 =? q) (flow_step t ev).2 +
    budget q (max_retries t) (pending (flow_step t ev).1) <=
  budget q (max_retries t) (pending t) + max_retries t * sends q [ev].
Proof.
  intros [Hmax Hok]. unfold retries_ok, sends. rewrite tally_cons. change (tally _ []) with 0.
  destruct ev as [q' bs now|q' now|now|]; simpl; change (tally _ []) with 0.
  - split_and!; [done| |done|].
    + apply Forall_app. split; [done|]. repeat constructor; simpl; lia.
    + rewrite budget_app. simpl. destruct (q' =? q); lia.
  - destruct (process_ack_sublist t q' now) as [Hsub ->].
    split_and!; [done|by eapply sublist_Forall|done|].
    pose proof (budget_sublist q _ _ _ Hsub Hok). lia.
  - split_and!; [done| |done|].
    + apply Forall_map. eapply Forall_impl; [done|]. intros e He. simpl in He |- *. unfold retransmit_entry.
      destruct (entry_due _ _ _ e) eqn:Hdue; [|done]. simpl. unfold entry_due in Hdue. lia.
    + rewrite (budget_poll q now (rto_ms t) (max_retries t) (pending t)). lia.
  - pose proof (filter_sublist (fun e => negb (max_retries t <=? p_retries e)) (pending t)) as Hsub.
    split_and!; [done|by eapply sublist_Forall|done|].
    pose proof (budget_sublist q _ _ _ Hsub Hok). lia.
Qed.

Lemma run_budget t evs q :
  retries_ok t ->
  tally (fun p => p.1 =? q) (retransmitted t evs) <=
  budget q (max_retries t) (pending t) + max_retries t * sends q evs.
Proof.
  revert t. induction evs as [|ev evs IH]; intros t Hok; simpl.
  { destruct Hok as [Hmax Hok]. pose proof (budget_nonneg q _ _ Hok). unfold tally, sends, tally; simpl. lia. }
  destruct (flow_step_budget t ev q Hok) as (Hok' & Hmax & Hle).
  destruct (flow_step t ev) as [t' out]. simpl in *. rewrite tally_app.
  specialize (IH t' Hok'). rewrite Hmax in IH. unfold sends in *.
  rewrite tally_cons in *. change (tally _ []) with 0 in Hle. lia.
Qed.

(** Over any interleaving of sends, acknowledgements, polls and
    expiries, a packet sequence number is retransmitted at most five times
    (the tracker's [max_retries]) per time it was sent. *)
Theorem retransmissions_bounded (evs : list flow_event) (q : Z) :
  tally (fun p => p.1 =? q) (retransmitted tracker_new evs) <= 5 * sends q evs.
Proof. apply (run_budget tracker_new). split; [done|constructor]. Qed.

(** ** Unacknowledged packets are given up *)

(** Poll times more than [rto] after [last] and after each other. *)
Fixpoint spaced (rto last : Z) (times : list Z) : Prop :=
  match times with
  | [] => True
  | now :: times => last + rto < now /\ spaced rto now times
  end.

Definition overdue (last limit : Z) (n : nat) (e : pending_entry) : Prop :=
  p_send_time e <= last /\ limit <= p_retries e + Z.of_nat n \/ limit <= p_retries e.

Lemma polls_retries t last times :
  0 <= rto_ms t -> spaced (rto_ms t) last times ->
  Forall (overdue last (max_retries t) (length times)) (pending t) ->
  max_retries (polls t times) = max_retries t /\
  map p_seq (pending (polls t times)) = map p_seq (pending t) /\
  Forall (fun e => max_retries t <= p_retries e) (pending (polls t times)).
Proof.
  intros Hrto. revert t last Hrto. induction times as [|now times IH]; intros t last Hrto Hsp Hp; simpl.
  { split_and!; [done|done|]. eapply Forall_impl; [done|]. unfold overdue. simpl. intros e ?. lia. }
  destruct Hsp as [Hnow Hsp].
  destruct (IH (get_retransmissions t now).1 now Hrto Hsp) as (Hmax & Hseq & Hall).
  - simpl. apply Forall_map. eapply Forall_impl; [done|]. intros e He. simpl in He |- *.
    unfold overdue, retransmit_entry in *. destruct (entry_due _ _ _ e) eqn:Hdue; simpl.
    + unfold entry_due in Hdue. left. simpl in He. lia.
    + unfold entry_due, saturating_sub in Hdue. right.
      apply andb_false_iff in Hdue. lia.
  - split_and!; [done| |done]. etrans; [exact Hseq|]. simpl. rewrite map_map. apply map_ext.
    intros e. unfold retransmit_entry. by destruct (entry_due _ _ _ e).
Qed.

(** A tracker whose packets are never acknowledged reports every one
    of them as expired, and keeps none, once it has been polled [max_retries]
    times at intervals longer than the retransmission timeout. *)
Theorem unacked_packets_expire (t : VctpRetransmitTracker) (last : Z) (times : list Z)
  (Hok : retries_ok t)
  (Hsent : Forall (fun e => p_send_time e <= last) (pending t))
  (Hlen : Z.of_nat (length times) = max_retries t)
  (Hspaced : spaced (rto_ms t) last times) :
  let '(t', expired) := remove_expired (polls t times) in
  expired = map p_seq (pending t) /\ pending t' = [].
Proof.
  destruct (polls_retries t last times) as (Hmax & Hseq & Hall); [|done|..].
  { unfold rto_ms, wrapping_mul, wrap. apply Z.mod_pos_bound. lia. }
  { destruct Hok as [_ Hok]. eapply Forall_impl; [apply Forall_and; split; [exact Hsent|exact Hok]|].
    intros e [Hs He]. simpl in Hs, He. left. lia. }
  unfold remove_expired. rewrite Hmax, <- Hseq. simpl. revert Hall. generalize (pending (polls t times)).
  induction 1 as [|e l He _ IH]; [done|]. simpl. apply Z.leb_le in He. rewrite He. simpl.
  destruct IH as [-> ->]. done.
Qed.

Lemma unacked_packets_expire_witness :
  let t := track_send (track_send tracker_new 7 [1; 2] 0) 8 [3] 0 in
  let '(t', expired) := remove_expired (polls t [101; 202; 303; 404; 505]) in
  expired = [7; 8] /\ pending t' = [].
Proof.
  apply (unacked_packets_expire (track_send (track_send tracker_new 7 [1; 2] 0) 8 [3] 0) 0
           [101; 202; 303; 404; 505]).
  - split; [simpl; lia|]. repeat (constructor; [simpl; lia|]). constructor.
  - repeat (constructor; [simpl; lia|]). constructor.
  - reflexivity.
  - change (rto_ms _) with 100. simpl. lia.
Defined.

End Retransmit.
