(* ===== verification/Crdt.v ===== *)
(** * Replicated data types ([velocity-workflow-core/src/crdt.rs])

    [PNCounter] and [AWORSet], the two CRDTs of multi-region convergence.  The
    set's element array is given its meaning as a finite map from keys to dots
    by [Slots]. *)

From S2P Require Import Prelude Slots.

Module PnCounter.

Record PNCounter : Type := mkPn {
  increments : Z;
  decrements : Z;
}.

Definition pn_new : PNCounter := mkPn 0 0.

(** [x as i64] of a [u64], and [i64] subtraction: two's complement. *)
Definition as_i64 (x : Z) : Z := (x + 2 ^ 63) mod 2 ^ 64 - 2 ^ 63.

Definition pn_value (c : PNCounter) : Z := as_i64 (as_i64 (increments c) - as_i64 (decrements c)).

Definition inc (c : PNCounter) (delta : Z) : PNCounter :=
  mkPn (saturating_add 64 (increments c) delta) (decrements c).

Definition dec (c : PNCounter) (delta : Z) : PNCounter :=
  mkPn (increments c) (saturating_add 64 (decrements c) delta).

Definition pn_merge (self other : PNCounter) : PNCounter :=
  let i := if increments self <? increments other then increments other else increments self in
  let d := if decrements self <? decrements other then decrements other else decrements self in
  mkPn i d.

(** The order of states: [a] is behind [b]. *)
Definition pn_le (a b : PNCounter) : Prop :=
  increments a <= increments b /\ decrements a <= decrements b.

Lemma pn_merge_max a b :
  pn_merge a b = mkPn (Z.max (increments a) (increments b)) (Z.max (decrements a) (decrements b)).
Proof.
  unfold pn_merge.
  f_equal; [destruct (Z.ltb_spec (increments a) (increments b))
           |destruct (Z.ltb_spec (decrements a) (decrements b))]; lia.
Qed.

Lemma as_i64_small x : - 2 ^ 63 <= x < 2 ^ 63 -> as_i64 x = x.
Proof. intros. unfold as_i64. rewrite Z.mod_small; lia. Qed.

(** The counter is a state-based CRDT: merging is the least upper bound of
    the state order (so commutative, associative and idempotent), both updates
    move up in that order, and within the [i64] range the value is increments
    minus decrements. *)
Theorem pn_state_crdt (a b c : PNCounter) (delta : Z)
  (Ha : u64 (increments a) /\ u64 (decrements a)) (Hdelta : u64 delta) :
  (pn_le a (pn_merge a b) /\ pn_le b (pn_merge a b) /\
   (pn_le a c -> pn_le b c -> pn_le (pn_merge a b) c)) /\
  (pn_merge a b = pn_merge b a /\ pn_merge a (pn_merge b c) = pn_merge (pn_merge a b) c /\
   pn_merge a a = a) /\
  (pn_le a (inc a delta) /\ pn_le a (dec a delta)) /\
  (increments a < 2 ^ 63 -> decrements a < 2 ^ 63 -> pn_value a = increments a - decrements a).
Proof.
  rewrite !pn_merge_max. destruct a as [ai ad], b as [bi bd], c as [ci cd].
  unfold pn_le, inc, dec, saturating_add, fits, pn_value in *; simpl in *.
  split_and!; try lia; try (f_equal; lia).
  intros Hi Hd. rewrite !as_i64_small; rewrite ?as_i64_small; lia.
Qed.

Lemma pn_state_crdt_witness :
  pn_merge (mkPn 10 3) (mkPn 15 1) = pn_merge (mkPn 15 1) (mkPn 10 3) /\ pn_value (mkPn 10 3) = 7.
Proof.
  destruct (pn_state_crdt (mkPn 10 3) (mkPn 15 1) pn_new 0) as (_ & (Hc & _) & _ & Hv);
    [unfold fits; simpl; lia|unfold fits; lia|].
  split; [exact Hc|]. apply Hv; simpl; lia.
Defined.

(** The state is one aggregate per counter, not one per replica, so
    merging keeps the larger of two concurrent increments and loses the other. *)
Theorem pn_merge_loses_concurrent_increment (a b : Z)
  (Ha : 0 < a <= b) (Hb : b < 2 ^ 63) :
  pn_value (pn_merge (inc pn_new a) (inc pn_new b)) = b /\
  pn_value (pn_merge (inc pn_new a) (inc pn_new b)) < a + b.
Proof.
  rewrite pn_merge_max. unfold inc, pn_new, saturating_add, pn_value; simpl.
  rewrite !as_i64_small; rewrite ?as_i64_small; lia.
Qed.

Lemma pn_merge_loses_concurrent_increment_witness :
  pn_value (pn_merge (inc pn_new 10) (inc pn_new 15)) = 15.
Proof. apply (pn_merge_loses_concurrent_increment 10 15); lia. Defined.

End PnCounter.

Module Aworset.

Definition AWORSET_CAPACITY : nat := 256.
Definition AWORSET_TOMBSTONE_CAPACITY : nat := 128.

Record Dot : Type := mkDot {
  replica_id : Z;
  counter : Z;
}.

#[export] Instance Dot_eq_dec : EqDecision Dot.
Proof. solve_decision. Defined.

Definition dot_eqb (a b : Dot) : bool :=
  (replica_id a =? replica_id b) && (counter a =? counter b).

Record AworSetEntry : Type := mkEntry {
  key : Z;
  dot : Dot;
  occupied : bool;
}.

Record AWORSet : Type := mkSet {
  set_replica_id : Z;
  local_counter : Z;
  element_count : Z;
  tombstone_count : Z;
  elements : list AworSetEntry;
  tombstones : list Dot;
}.

Definition aworset_new (replica : Z) : AWORSet :=
  mkSet replica 0 0 0
    (replicate AWORSET_CAPACITY (mkEntry 0 (mkDot 0 0) false))
    (replicate AWORSET_TOMBSTONE_CAPACITY (mkDot 0 0)).

(** The loop tests: an occupied slot with this key; a free slot. *)
Definition entry_is (k : Z) (e : AworSetEntry) : bool := occupied e && (key e =? k).
Definition entry_free (e : AworSetEntry) : bool := negb (occupied e).

Definition contains (s : AWORSet) (k : Z) : bool := existsb (entry_is k) (elements s).

Definition set_elements (s : AWORSet) (els : list AworSetEntry) (count : Z) : AWORSet :=
  mkSet (set_replica_id s) (local_counter s) count (tombstone_count s) els (tombstones s).

(** Writing an entry into the first free slot (the loops of [add] and [merge]). *)
Definition fill_slot (s : AWORSet) (k : Z) (d : Dot) : option AWORSet :=
  match position entry_free (elements s) with
  | Some i => Some (set_elements s (<[i := mkEntry k d true]> (elements s))
                      (wrap 16 (element_count s + 1)))
  | None => None
  end.

Definition add (s0 : AWORSet) (k : Z) : AWORSet * option Dot :=
  let s := mkSet (set_replica_id s0) (saturating_add 64 (local_counter s0) 1) (element_count s0)
             (tombstone_count s0) (elements s0) (tombstones s0) in
  let d := mkDot (set_replica_id s) (local_counter s) in
  match position (entry_is k) (elements s) with
  | Some i =>
      (set_elements s (alter (fun e => mkEntry (key e) d (occupied e)) i (elements s))
         (element_count s), Some d)
  | None =>
      if Z.of_nat AWORSET_CAPACITY <=? element_count s then (s, None)
      else match fill_slot s k d with
           | Some s' => (s', Some d)
           | None => (s, None)
           end
  end.

(** [self.tombstones[count] = d; count += 1], guarded by the capacity. *)
Definition push_tombstone (s : AWORSet) (d : Dot) : AWORSet :=
  if tombstone_count s <? Z.of_nat AWORSET_TOMBSTONE_CAPACITY then
    mkSet (set_replica_id s) (local_counter s) (element_count s) (wrap 16 (tombstone_count s + 1))
      (elements s) (<[Z.to_nat (tombstone_count s) := d]> (tombstones s))
  else s.

Definition remove (s : AWORSet) (k : Z) : AWORSet * bool :=
  match position (entry_is k) (elements s) with
  | Some i =>
      match elements s !! i with
      | Some e =>
          let s' := set_elements s (<[i := mkEntry 0 (dot e) false]> (elements s))
                      (wrap 16 (element_count s - 1)) in
          (push_tombstone s' (dot e), true)
      | None => (s, false)
      end
  | None => (s, false)
  end.

(** [self.tombstones.iter().take(self.tombstone_count)]. *)
Definition live_tombstones (s : AWORSet) : list Dot :=
  take (Z.to_nat (tombstone_count s)) (tombstones s).

Definition is_tombstoned (s : AWORSet) (d : Dot) : bool := existsb (dot_eqb d) (live_tombstones s).

(** One iteration of the element loop of [merge]. *)
Definition merge_entry (s : AWORSet) (other_entry : AworSetEntry) : AWORSet :=
  if negb (occupied other_entry) then s
  else match position (entry_is (key other_entry)) (elements s) with
       | Some i =>
           set_elements s
             (alter (fun e => if counter (dot e) <? counter (dot other_entry)
                              then mkEntry (key e) (dot other_entry) (occupied e) else e)
                i (elements s)) (element_count s)
       | None =>
           if is_tombstoned s (dot other_entry) then s
           else if element_count s <? Z.of_nat AWORSET_CAPACITY then
             match fill_slot s (key other_entry) (dot other_entry) with
             | Some s' => s'
             | None => s
             end
           else s
       end.

(** One iteration of the tombstone loop. *)
Definition merge_tombstone (s : AWORSet) (other_ts : Dot) : AWORSet :=
  if tombstone_count s <? Z.of_nat AWORSET_TOMBSTONE_CAPACITY then
    if is_tombstoned s other_ts then s else push_tombstone s other_ts
  else s.

Definition aworset_merge (s other : AWORSet) : AWORSet :=
  let s1 := foldl merge_entry s (elements other) in
  let s2 := foldl merge_tombstone s1 (live_tombstones other) in
  mkSet (set_replica_id s2)
    (if local_counter s2 <? local_counter other then local_counter other else local_counter s2)
    (element_count s2) (tombstone_count s2) (elements s2) (tombstones s2).

Definition keys (s : AWORSet) : list Z :=
  map key (List.filter occupied (elements s)).

(** ** Meaning and well-formedness *)

Definition entry_view (e : AworSetEntry) : option (Z * Dot) :=
  if occupied e then Some (key e, dot e) else None.

(** The set's elements, each with the dot of its add. *)
Definition awor_map (s : AWORSet) : gmap Z Dot := slots_map entry_view (elements s).

Definition awor_wf (s : AWORSet) : Prop :=
  length (elements s) = AWORSET_CAPACITY /\
  slots_nodup entry_view (elements s) /\
  element_count s = Z.of_nat (length (slot_pairs entry_view (elements s))) /\
  length (tombstones s) = AWORSET_TOMBSTONE_CAPACITY /\
  0 <= tombstone_count s <= Z.of_nat AWORSET_TOMBSTONE_CAPACITY.

Lemma position_entry_is k l : position (entry_is k) l = position (slot_key entry_view k) l.
Proof.
  apply position_ext. intros e. unfold entry_is, slot_key, entry_view.
  destruct (occupied e); simpl; [|done]. destruct (Z.eqb_spec (key e) k).
  - by rewrite bool_decide_eq_true_2.
  - by rewrite bool_decide_eq_false_2.
Qed.

Lemma position_entry_free l : position entry_free l = position (slot_free entry_view) l.
Proof.
  apply position_ext. intros e. unfold entry_free, slot_free, entry_view. by destruct (occupied e).
Qed.

Lemma awor_count s : awor_wf s -> element_count s = Z.of_nat (size (awor_map s)).
Proof. intros (_ & Hnd & -> & _). unfold awor_map. by rewrite slots_size. Qed.

Lemma aworset_new_wf replica : awor_wf (aworset_new replica) /\ awor_map (aworset_new replica) = ∅.
Proof.
  assert (Hp : slot_pairs entry_view (elements (aworset_new replica)) = []) by by apply slots_empty.
  unfold awor_wf, awor_map, slots_nodup, slots_map. rewrite Hp.
  split; [|done]. split_and!; done || constructor.
Qed.

Lemma contains_map s k : contains s k = bool_decide (is_Some (awor_map s !! k)).
Proof.
  apply eq_bool_prop_intro. rewrite bool_decide_spec. unfold contains, awor_map.
  rewrite existsb_position, position_entry_is.
  pose proof (slots_position_None entry_view (elements s) k) as Hnone.
  destruct (position _ _) as [i|]; destruct (slots_map _ _ !! k) as [d|]; simpl;
    split; intros ?; eauto; try done.
  - destruct Hnone as [_ Hn]. by discriminate Hn.
  - destruct Hnone as [Hn _]. by discriminate Hn.
Qed.

(** Filling a free slot when the key is absent and there is room. *)
Lemma fill_slot_spec s k d :
  awor_wf s -> awor_map s !! k = None -> element_count s < Z.of_nat AWORSET_CAPACITY ->
  exists s', fill_slot s k d = Some s' /\ awor_wf s' /\ awor_map s' = <[k := d]> (awor_map s) /\
    tombstones s' = tombstones s /\ tombstone_count s' = tombstone_count s /\
    local_counter s' = local_counter s /\ set_replica_id s' = set_replica_id s.
Proof.
  intros (Hlen & Hnd & Hcnt & Ht & Htc) Hk Hlt. unfold fill_slot. rewrite position_entry_free.
  destruct (slots_free_exists entry_view (elements s)) as [i Hi]; [lia|]. rewrite Hi.
  destruct (slots_free_view _ _ _ Hi) as (a & Ha & Hva).
  destruct (slots_fill entry_view (elements s) i a (mkEntry k d true) k d) as (Hm & Hnd' & Hl);
    [done..|]. eexists. split; [done|]. unfold awor_wf, awor_map, set_elements; simpl.
  unfold wrap, AWORSET_CAPACITY in *. rewrite length_insert, Z.mod_small by lia.
  split_and!; (done || lia).
Qed.

Lemma awor_update s i k d d' e e' :
  awor_wf s -> elements s !! i = Some e -> entry_view e = Some (k, d) -> entry_view e' = Some (k, d') ->
  let s' := set_elements s (<[i := e']> (elements s)) (element_count s) in
  awor_wf s' /\ awor_map s' = <[k := d']> (awor_map s).
Proof.
  intros (Hlen & Hnd & Hcnt & Ht & Htc) Hi He He'.
  destruct (slots_update entry_view _ _ _ _ _ _ _ Hnd Hi He He') as (Hm & Hnd' & Hl).
  unfold awor_wf, awor_map, set_elements; simpl. rewrite length_insert, Hl. done.
Qed.

Lemma dot_eqb_spec a b : dot_eqb a b = bool_decide (a = b).
Proof.
  destruct a as [r c], b as [r' c']. unfold dot_eqb; simpl.
  destruct (Z.eqb_spec r r'), (Z.eqb_spec c c'); simpl; symmetry;
    (rewrite bool_decide_eq_true || rewrite bool_decide_eq_false); congruence.
Qed.

Lemma is_tombstoned_spec s d : is_tombstoned s d = bool_decide (d ∈ live_tombstones s).
Proof.
  unfold is_tombstoned. induction (live_tombstones s) as [|t l IH]; [done|].
  cbn [existsb]. rewrite IH, dot_eqb_spec. apply eq_bool_prop_intro.
  rewrite orb_True, !bool_decide_spec, elem_of_cons. done.
Qed.

(** The effect of [add] on the map, for a key present or absent. *)
Lemma add_map s k :
  awor_wf s ->
  let d := mkDot (set_replica_id s) (saturating_add 64 (local_counter s) 1) in
  awor_wf (add s k).1 /\ local_counter (add s k).1 = saturating_add 64 (local_counter s) 1 /\
  live_tombstones (add s k).1 = live_tombstones s /\
  if bool_decide (is_Some (awor_map s !! k) \/ (size (awor_map s) < AWORSET_CAPACITY)%nat)
  then awor_map (add s k).1 = <[k := d]> (awor_map s) /\ (add s k).2 = Some d
  else awor_map (add s k).1 = awor_map s /\ (add s k).2 = None.
Proof.
  intros Hwf d. unfold add.
  set (s1 := mkSet _ _ _ _ _ _).
  assert (Hwf1 : awor_wf s1) by exact Hwf. pose proof (awor_count s Hwf) as Hcnt.
  change (mkDot (set_replica_id s1) (local_counter s1)) with d. cbv zeta.
  rewrite position_entry_is. change (elements s1) with (elements s).
  destruct (position _ (elements s)) as [i|] eqn:Hp.
  - destruct Hwf as (Hlen & Hnd & _).
    destruct (slots_position_Some _ _ _ _ Hnd Hp) as (e & d0 & Hi & He & Hk).
    rewrite (alter_is_insert _ _ _ e) by done.
    destruct (awor_update s1 i k d0 d e (mkEntry (key e) d (occupied e)) Hwf1 Hi He) as [Hw Hm].
    { unfold entry_view in *. simpl. destruct (occupied e); [|done]. by simplify_eq. }
    rewrite bool_decide_eq_true_2 by (left; eauto). done.
  - apply slots_position_None in Hp. change (element_count s1) with (element_count s).
    destruct (Z.leb_spec (Z.of_nat AWORSET_CAPACITY) (element_count s)).
    + rewrite bool_decide_eq_false_2; [done|].
      unfold awor_map in *. rewrite Hp. intros [[? ?]|?]; [done|lia].
    + destruct (fill_slot_spec s1 k d Hwf1) as (s' & -> & Hw & Hm & Ht & Htc & Hc & _);
        [done|done|]. rewrite bool_decide_eq_true_2 by (right; lia). simpl.
      unfold live_tombstones. rewrite Ht, Htc. done.
Qed.

Lemma push_tombstone_spec s d :
  awor_wf s ->
  awor_wf (push_tombstone s d) /\ awor_map (push_tombstone s d) = awor_map s /\
  live_tombstones (push_tombstone s d) =
    (if tombstone_count s <? Z.of_nat AWORSET_TOMBSTONE_CAPACITY
     then live_tombstones s ++ [d] else live_tombstones s).
Proof.
  intros Hwf. unfold push_tombstone.
  destruct (Z.ltb_spec (tombstone_count s) (Z.of_nat AWORSET_TOMBSTONE_CAPACITY)); [|done].
  destruct Hwf as (Hlen & Hnd & Hcnt & Ht & Htc).
  unfold awor_wf, live_tombstones, AWORSET_TOMBSTONE_CAPACITY, wrap in *; simpl.
  rewrite Z.mod_small by lia. split_and!; try done; try lia.
  - by rewrite length_insert.
  - replace (Z.to_nat (tombstone_count s + 1)) with (S (Z.to_nat (tombstone_count s))) by lia.
    erewrite take_S_r by (apply list_lookup_insert_eq; lia).
    by rewrite take_insert_ge by lia.
Qed.

Lemma remove_map s k :
  awor_wf s ->
  awor_wf (remove s k).1 /\ awor_map (remove s k).1 = delete k (awor_map s) /\
  (remove s k).2 = bool_decide (is_Some (awor_map s !! k)) /\
  (forall d, awor_map s !! k = Some d -> tombstone_count s < Z.of_nat AWORSET_TOMBSTONE_CAPACITY ->
     live_tombstones (remove s k).1 = live_tombstones s ++ [d]).
Proof.
  intros Hwf. pose proof Hwf as (Hlen & Hnd & Hcnt & Ht & Htc).
  unfold remove. rewrite position_entry_is.
  destruct (position _ (elements s)) as [i|] eqn:Hp.
  - destruct (slots_position_Some _ _ _ _ Hnd Hp) as (e & d0 & Hi & He & Hk). rewrite Hi.
    destruct (slots_clear entry_view _ _ _ (mkEntry 0 (dot e) false) _ _ Hnd Hi He) as (Hm & Hnd' & Hl);
      [done|].
    set (s' := set_elements _ _ _).
    assert (Hwf' : awor_wf s').
    { unfold awor_wf, s', set_elements, wrap, AWORSET_CAPACITY in *; simpl.
      pose proof (slot_pairs_length entry_view (elements s)).
      rewrite length_insert, Z.mod_small by lia. split_and!; (done || lia). }
    destruct (push_tombstone_spec s' (dot e) Hwf') as (Hw & Hmap & Hlive). simpl.
    assert (d0 = dot e) by (unfold entry_view in He; destruct (occupied e); by simplify_eq). subst d0.
    split_and!; [done|by rewrite Hmap|by rewrite bool_decide_eq_true_2 by eauto|].
    intros d Hd Hlt. rewrite Hlive. change (tombstone_count s') with (tombstone_count s).
    unfold awor_map in Hd. apply Z.ltb_lt in Hlt. rewrite Hlt. by simplify_eq.
  - apply slots_position_None in Hp. unfold awor_map. rewrite Hp. simpl.
    split_and!; [done|by rewrite delete_id|done|done].
Qed.

(** The fixed arrays implement a set of keys: membership is what [contains]
    answers, [add] inserts its key with a dot of the local replica and counter
    unless the key is new and all 256 slots are taken, [remove] deletes exactly
    its key and remembers the dot it saw; both keep the representation invariant. *)
Theorem aworset_refines_map (s : AWORSet) (k : Z) (Hwf : awor_wf s) :
  let d := mkDot (set_replica_id s) (saturating_add 64 (local_counter s) 1) in
  contains s k = bool_decide (is_Some (awor_map s !! k)) /\
  element_count s = Z.of_nat (size (awor_map s)) /\
  (awor_wf (add s k).1 /\
   if bool_decide (is_Some (awor_map s !! k) \/ (size (awor_map s) < AWORSET_CAPACITY)%nat)
   then awor_map (add s k).1 = <[k := d]> (awor_map s) /\ (add s k).2 = Some d
   else awor_map (add s k).1 = awor_map s /\ (add s k).2 = None) /\
  (awor_wf (remove s k).1 /\ awor_map (remove s k).1 = delete k (awor_map s) /\
   (remove s k).2 = contains s k).
Proof.
  intros d. pose proof (add_map s k Hwf) as (Hadd & _ & _ & Hcase).
  pose proof (remove_map s k Hwf) as (Hrem & Hmap & Hres & _).
  rewrite contains_map. split_and!; try done. by apply awor_count.
Qed.

(** ** Merging *)

(** What merging one remote element does to the map, given the local tombstones. *)
Definition merge_one (dead : Dot -> bool) (m : gmap Z Dot) (p : Z * Dot) : gmap Z Dot :=
  match m !! p.1 with
  | Some d => <[p.1 := if counter d <? counter p.2 then p.2 else d]> m
  | None => if dead p.2 then m else <[p.1 := p.2]> m
  end.

Definition same_control (s s' : AWORSet) : Prop :=
  live_tombstones s' = live_tombstones s /\ local_counter s' = local_counter s /\
  tombstone_count s' = tombstone_count s /\ set_replica_id s' = set_replica_id s.

Lemma merge_entry_map s e :
  awor_wf s ->
  (forall k d, entry_view e = Some (k, d) ->
     (size (dom (awor_map s) ∪ {[k]}) <= AWORSET_CAPACITY)%nat) ->
  awor_wf (merge_entry s e) /\ same_control s (merge_entry s e) /\
  awor_map (merge_entry s e) =
    match entry_view e with Some p => merge_one (is_tombstoned s) (awor_map s) p | None => awor_map s end.
Proof.
  intros Hwf Hcap. unfold merge_entry, entry_view, merge_one in *.
  destruct (occupied e); simpl; [|done]. specialize (Hcap _ _ eq_refl).
  pose proof (awor_count s Hwf) as Hcnt. rewrite position_entry_is.
  destruct (position _ (elements s)) as [i|] eqn:Hp.
  - pose proof Hwf as (Hlen & Hnd & _).
    destruct (slots_position_Some _ _ _ _ Hnd Hp) as (a & d0 & Hi & Ha & Hk).
    rewrite (alter_is_insert _ _ _ a) by done. unfold awor_map at 2. rewrite Hk.
    assert (d0 = dot a /\ key a = key e /\ occupied a = true) as (-> & Hka & Hoa).
    { unfold entry_view in Ha. destruct (occupied a); by simplify_eq. }
    destruct (awor_update s i (key e) (dot a)
      (if counter (dot a) <? counter (dot e) then dot e else dot a) a
      (if counter (dot a) <? counter (dot e) then mkEntry (key a) (dot e) (occupied a) else a) Hwf Hi Ha)
      as [Hw Hm]; [|done].
    unfold entry_view. destruct (counter (dot a) <? counter (dot e)); simpl; rewrite Hoa, Hka; done.
  - apply slots_position_None in Hp. change (slots_map entry_view (elements s)) with (awor_map s) in Hp.
    rewrite Hp. destruct (is_tombstoned s (dot e)); [done|].
    assert (Hlt : element_count s < Z.of_nat AWORSET_CAPACITY).
    { rewrite size_union, size_singleton, size_dom in Hcap; [lia|].
      apply not_elem_of_dom in Hp. set_solver. }
    destruct (fill_slot_spec s (key e) (dot e) Hwf Hp Hlt) as (s' & -> & Hw & Hm & Ht & Htc & Hc & Hr).
    apply Z.ltb_lt in Hlt. rewrite Hlt. unfold same_control, live_tombstones. by rewrite Ht, Htc.
Qed.

Lemma merge_one_dom dead m p : dom (merge_one dead m p) ⊆ dom m ∪ {[p.1]}.
Proof. unfold merge_one. destruct (m !! p.1); [|destruct (dead p.2)]; set_solver. Qed.

Lemma merge_entries_map s l :
  awor_wf s ->
  (size (dom (awor_map s) ∪ list_to_set (slot_pairs entry_view l).*1) <= AWORSET_CAPACITY)%nat ->
  awor_wf (foldl merge_entry s l) /\ same_control s (foldl merge_entry s l) /\
  awor_map (foldl merge_entry s l) =
    foldl (merge_one (is_tombstoned s)) (awor_map s) (slot_pairs entry_view l).
Proof.
  revert s. induction l as [|e l IH]; intros s Hwf Hcap; [done|].
  destruct (merge_entry_map s e Hwf) as (Hw & (Ht & Hc & Htc & Hr) & Hm).
  { intros k d He. etrans; [|exact Hcap]. apply subseteq_size. unfold slot_pairs. simpl. rewrite He. set_solver. }
  assert (Hdead : is_tombstoned (merge_entry s e) = is_tombstoned s) by (unfold is_tombstoned; by rewrite Ht).
  destruct (IH (merge_entry s e) Hw) as (Hw' & (Ht' & Hc' & Htc' & Hr') & Hm').
  { etrans; [|exact Hcap]. apply subseteq_size. rewrite Hm. unfold slot_pairs. simpl.
    destruct (entry_view e) as [p|]; [|set_solver].
    pose proof (merge_one_dom (is_tombstoned s) (awor_map s) p). set_solver. }
  simpl. split_and!; [done|by unfold same_control; rewrite Ht', Hc', Htc', Hr'|].
  rewrite Hm', Hm, Hdead. unfold slot_pairs. simpl. by destruct (entry_view e).
Qed.

(** Looking up a key after merging a list of elements with distinct keys. *)
Lemma foldl_merge_one_lookup dead m ps k :
  NoDup ps.*1 ->
  foldl (merge_one dead) m ps !! k =
    match m !! k, (list_to_map ps : gmap Z Dot) !! k with
    | Some d, Some d' => Some (if counter d <? counter d' then d' else d)
    | None, Some d' => if dead d' then None else Some d'
    | r, None => r
    end.
Proof.
  revert m. induction ps as [|[k' d'] ps IH]; intros m Hnd; simpl.
  { rewrite lookup_empty. by destruct (m !! k). }
  apply NoDup_cons in Hnd as [Hk' Hnd]. rewrite IH by done. unfold merge_one; simpl.
  apply (not_elem_of_list_to_map (M := gmap Z)) in Hk'. simpl in Hk'. destruct (decide (k = k')) as [->|Hne].
  - rewrite lookup_insert_eq, Hk'. destruct (m !! k') as [d|] eqn:Hm; [by rewrite lookup_insert_eq|].
    destruct (dead d'); [by rewrite Hm|by rewrite lookup_insert_eq].
  - rewrite (lookup_insert_ne _ k') by done.
    destruct (m !! k') as [d|]; [by rewrite lookup_insert_ne|].
    destruct (dead d'); [done|by rewrite lookup_insert_ne].
Qed.

Lemma merge_tombstone_frame s t :
  awor_wf s -> awor_wf (merge_tombstone s t) /\ awor_map (merge_tombstone s t) = awor_map s.
Proof.
  intros Hwf. unfold merge_tombstone. destruct (_ <? _); [|done].
  destruct (is_tombstoned s t); [done|].
  by destruct (push_tombstone_spec s t Hwf) as (? & ? & _).
Qed.

Lemma merge_tombstones_frame s ts :
  awor_wf s ->
  awor_wf (foldl merge_tombstone s ts) /\ awor_map (foldl merge_tombstone s ts) = awor_map s.
Proof.
  revert s. induction ts as [|t ts IH]; intros s Hwf; [done|]. simpl.
  destruct (merge_tombstone_frame s t Hwf) as [Hw Hm]. by rewrite <- Hm; apply IH.
Qed.

(** The outcome the code gives one key when [s] absorbs [o]. *)
Definition merged_dot (dead : Dot -> bool) (local remote : option Dot) : option Dot :=
  match local, remote with
  | Some d, Some d' => Some (if counter d <? counter d' then d' else d)
  | Some d, None => Some d
  | None, Some d' => if dead d' then None else Some d'
  | None, None => None
  end.

Lemma aworset_merge_map s o :
  awor_wf s -> awor_wf o -> (size (dom (awor_map s) ∪ dom (awor_map o)) <= AWORSET_CAPACITY)%nat ->
  awor_wf (aworset_merge s o) /\
  forall k, awor_map (aworset_merge s o) !! k =
            merged_dot (is_tombstoned s) (awor_map s !! k) (awor_map o !! k).
Proof.
  intros Hs Ho Hcap. unfold awor_map at 2 in Hcap. unfold slots_map in Hcap.
  rewrite dom_list_to_map in Hcap.
  destruct (merge_entries_map s (elements o) Hs Hcap) as (Hw & _ & Hm).
  destruct (merge_tombstones_frame _ (live_tombstones o) Hw) as [Hw' Hm'].
  split; [exact Hw'|]. intros k.
  change (awor_map (aworset_merge s o))
    with (awor_map (foldl merge_tombstone (foldl merge_entry s (elements o)) (live_tombstones o))).
  rewrite Hm', Hm, foldl_merge_one_lookup by apply Ho. unfold merged_dot, awor_map, slots_map.
  by destruct (list_to_map (slot_pairs entry_view (elements s)) !! k),
    (list_to_map (slot_pairs entry_view (elements o)) !! k).
Qed.

(** As long as the union fits the 256 slots, merging keeps every local key,
    takes the dot with the higher counter for a common key, and adds a remote-only
    key exactly when its dot is not among the local tombstones. *)
Theorem aworset_merge_spec (s o : AWORSet)
  (Hs : awor_wf s) (Ho : awor_wf o)
  (Hcap : (size (dom (awor_map s) ∪ dom (awor_map o)) <= AWORSET_CAPACITY)%nat) :
  awor_wf (aworset_merge s o) /\
  forall k, awor_map (aworset_merge s o) !! k =
            merged_dot (is_tombstoned s) (awor_map s !! k) (awor_map o !! k).
Proof. by apply aworset_merge_map. Qed.

(** Replicas that have removed nothing the other holds converge: after
    exchanging states both hold the same keys, and the same dots when equal
    counters for a key mean equal dots. *)
Theorem aworset_add_only_converges (s o : AWORSet)
  (Hs : awor_wf s) (Ho : awor_wf o)
  (Hcap : (size (dom (awor_map s) ∪ dom (awor_map o)) <= AWORSET_CAPACITY)%nat)
  (Hlive : forall k d, awor_map o !! k = Some d -> is_tombstoned s d = false)
  (Hlive' : forall k d, awor_map s !! k = Some d -> is_tombstoned o d = false) :
  dom (awor_map (aworset_merge s o)) = dom (awor_map (aworset_merge o s)) /\
  ((forall k d d', awor_map s !! k = Some d -> awor_map o !! k = Some d' ->
      counter d = counter d' -> d = d') ->
   awor_map (aworset_merge s o) = awor_map (aworset_merge o s)).
Proof.
  destruct (aworset_merge_map s o Hs Ho Hcap) as [_ Hso].
  rewrite (union_comm_L (dom _)) in Hcap.
  destruct (aworset_merge_map o s Ho Hs Hcap) as [_ Hos]. split.
  - apply set_eq. intros k. rewrite !elem_of_dom, Hso, Hos.
    destruct (awor_map s !! k) eqn:Hk, (awor_map o !! k) eqn:Hk'; simpl;
      rewrite ?(Hlive k _ Hk'), ?(Hlive' k _ Hk); split; intros; try done; eauto.
  - intros Heq. apply map_eq. intros k. rewrite Hso, Hos.
    destruct (awor_map s !! k) as [d|] eqn:Hk, (awor_map o !! k) as [d'|] eqn:Hk'; simpl;
      rewrite ?(Hlive k _ Hk'), ?(Hlive' k _ Hk); try done.
    destruct (Z.ltb_spec (counter d) (counter d')), (Z.ltb_spec (counter d') (counter d)); try lia;
      [done|done|]. f_equal. apply (Heq k); [done|done|lia].
Qed.

(** A removal does not travel: replica 1 adds a key, replica 2 receives
    and removes it, and after they exchange states in both directions replica 1
    still holds the key and replica 2 does not, also after another exchange. *)
Theorem aworset_remote_removal_ignored :
  let a := (add (aworset_new 1) 5).1 in
  let b := (remove (aworset_merge (aworset_new 2) a) 5).1 in
  let a1 := aworset_merge a b in
  let b1 := aworset_merge b a1 in
  let a2 := aworset_merge a1 b1 in
  (contains b 5, contains a1 5, contains b1 5, contains a2 5) = (false, true, false, true) /\
  live_tombstones a2 = [mkDot 1 1].
Proof. vm_compute. done. Qed.

Lemma add_new_wf r k : awor_wf (add (aworset_new r) k).1.
Proof. apply add_map, aworset_new_wf. Qed.

Lemma aworset_refines_map_witness :
  contains (add (aworset_new 1) 42).1 42 =
  bool_decide (is_Some (awor_map (add (aworset_new 1) 42).1 !! 42)).
Proof. apply (aworset_refines_map (add (aworset_new 1) 42).1 42 (add_new_wf 1 42)). Defined.

Lemma aworset_merge_spec_witness :
  awor_map (aworset_merge (add (aworset_new 1) 42).1 (add (aworset_new 2) 7).1) !! 7 =
  merged_dot (is_tombstoned (add (aworset_new 1) 42).1)
    (awor_map (add (aworset_new 1) 42).1 !! 7) (awor_map (add (aworset_new 2) 7).1 !! 7).
Proof.
  apply (aworset_merge_spec (add (aworset_new 1) 42).1 (add (aworset_new 2) 7).1
           (add_new_wf 1 42) (add_new_wf 2 7)).
  apply (bool_decide_unpack _). vm_compute. exact I.
Defined.

Lemma aworset_add_only_converges_witness :
  dom (awor_map (aworset_merge (add (aworset_new 1) 42).1 (add (aworset_new 2) 7).1)) =
  dom (awor_map (aworset_merge (add (aworset_new 2) 7).1 (add (aworset_new 1) 42).1)).
Proof.
  apply (aworset_add_only_converges (add (aworset_new 1) 42).1 (add (aworset_new 2) 7).1
           (add_new_wf 1 42) (add_new_wf 2 7)).
  - apply (bool_decide_unpack _). vm_compute. exact I.
  - intros k d _. vm_compute. reflexivity.
  - intros k d _. vm_compute. reflexivity.
Defined.

End Aworset.
