(* ===== verification/SlotMap.v ===== *)
(** * Slot maps ([velocity-workflow-engine/src/zero_alloc.rs])

    [SlotMap] and [SlotVec], the growable slot tables that hold a workflow's
    step outputs, signals and updates.  [SlotMap] refines a finite map, [SlotVec]
    a finite map of first-in first-out queues. *)

From S2P Require Import Prelude Slots.

(** Parallel vectors [keys], [slots] read by index as one vector of pairs. *)
Lemma insert_zip {A B} (l : list A) (k : list B) i a b :
  zip (<[i := a]> l) (<[i := b]> k) = <[i := (a, b)]> (zip l k).
Proof. revert k i. induction l as [|x l IH]; intros [|y k] [|i]; simpl; try done. by rewrite IH. Qed.

Lemma zip_snoc {A B} (l : list A) (k : list B) a b :
  length l = length k -> zip (l ++ [a]) (k ++ [b]) = zip l k ++ [(a, b)].
Proof. intros Hlen. by rewrite zip_with_app. Qed.

Lemma wrap_succ w x : 0 <= w -> wrap w (wrap w x + 1) = wrap w (x + 1).
Proof. intros. unfold wrap. by rewrite Zplus_mod_idemp_l. Qed.

Lemma wrap_pred w x : 0 <= w -> wrap w (wrap w x - 1) = wrap w (x - 1).
Proof. intros. unfold wrap. by rewrite Zminus_mod_idemp_l. Qed.

Lemma omap_cons_list {A B} (f : A -> option B) x l : omap f (x :: l) = option_list (f x) ++ omap f l.
Proof. simpl. by destruct (f x). Qed.

Lemma alter_present {V} (f : V -> V) k (m : gmap Z V) v :
  m !! k = Some v -> alter f k m = <[k := f v]> m.
Proof.
  intros Hk. apply map_eq. intros j. destruct (decide (j = k)) as [->|].
  - by rewrite lookup_alter_eq, lookup_insert_eq, Hk.
  - by rewrite lookup_alter_ne, lookup_insert_ne.
Qed.

Lemma alter_absent {V} (f : V -> V) k (m : gmap Z V) : m !! k = None -> alter f k m = m.
Proof.
  intros Hk. apply map_eq. intros j. destruct (decide (j = k)) as [->|].
  - by rewrite lookup_alter_eq, Hk.
  - by rewrite lookup_alter_ne.
Qed.

Module SlotMap.

Record SlotMap (V : Type) : Type := mkSlotMap {
  keys : list Z;
  slots : list (option V);
  occupied : Z;
}.
Arguments mkSlotMap {V}.
Arguments keys {V}.
Arguments slots {V}.
Arguments occupied {V}.

Section ops.
Context {V : Type}.
Implicit Types (m : SlotMap V) (k : Z) (v : V).

Definition slotmap_with_capacity (capacity : nat) : SlotMap V :=
  mkSlotMap (replicate capacity U64_MAX) (replicate capacity None) 0.

Definition is_some {A} (o : option A) : bool := match o with Some _ => true | None => false end.

(** [(0..self.slots.len()).find(|&i| self.keys[i] == key && self.slots[i].is_some())]. *)
Definition slotmap_find_slot m k : option nat :=
  position (fun ks => (ks.1 =? k) && is_some ks.2) (zip (keys m) (slots m)).

Definition slotmap_insert m k v : SlotMap V :=
  match slotmap_find_slot m k with
  | Some i => mkSlotMap (keys m) (<[i := Some v]> (slots m)) (occupied m)
  | None =>
      match position (fun s => negb (is_some s)) (slots m) with
      | Some i =>
          mkSlotMap (<[i := k]> (keys m)) (<[i := Some v]> (slots m)) (wrap 32 (occupied m + 1))
      | None => mkSlotMap (keys m ++ [k]) (slots m ++ [Some v]) (wrap 32 (occupied m + 1))
      end
  end.

Definition slotmap_get m k : option V :=
  match slotmap_find_slot m k with
  | Some i => match slots m !! i with Some s => s | None => None end
  | None => None
  end.

(** [if let Some(v) = self.get_mut(key) { *v = f(v) }]. *)
Definition slotmap_get_mut m k (f : V -> V) : SlotMap V :=
  match slotmap_find_slot m k with
  | Some i => mkSlotMap (keys m) (alter (fmap f) i (slots m)) (occupied m)
  | None => m
  end.

Definition slotmap_remove m k : SlotMap V * option V :=
  match slotmap_find_slot m k with
  | Some i =>
      let val := match slots m !! i with Some s => s | None => None end in
      (mkSlotMap (<[i := U64_MAX]> (keys m)) (<[i := None]> (slots m))
         (if is_some val then wrap 32 (occupied m - 1) else occupied m), val)
  | None => (m, None)
  end.

Definition slotmap_len m : Z := occupied m.

Definition slotmap_iter m : list (Z * V) :=
  omap (fun ks => match ks.2 with Some v => Some (ks.1, v) | None => None end)
    (zip (keys m) (slots m)).

Definition slotmap_contains_key m k : bool := is_some (slotmap_find_slot m k).

Definition slotmap_clear m : SlotMap V :=
  mkSlotMap (map (fun _ => U64_MAX) (keys m)) (map (fun _ => None) (slots m)) 0.

(** [retain]: the closure may update the value and says whether to keep it. *)
Definition retain_slot (f : Z -> V -> V * bool) (st : list (Z * option V) * Z) (ks : Z * option V) :
  list (Z * option V) * Z :=
  match ks.2 with
  | Some v =>
      let '(v', keep) := f ks.1 v in
      if keep then (st.1 ++ [(ks.1, Some v')], st.2)
      else (st.1 ++ [(U64_MAX, None)], wrap 32 (st.2 - 1))
  | None => (st.1 ++ [ks], st.2)
  end.

Definition slotmap_retain m (f : Z -> V -> V * bool) : SlotMap V :=
  let '(kss, n) := foldl (retain_slot f) ([], occupied m) (zip (keys m) (slots m)) in
  mkSlotMap kss.*1 kss.*2 n.

(** ** Meaning *)

Definition pair_view (ks : Z * option V) : option (Z * V) :=
  match ks.2 with Some v => Some (ks.1, v) | None => None end.

Definition slotmap_map m : gmap Z V := slots_map pair_view (zip (keys m) (slots m)).

Definition slotmap_wf m : Prop :=
  length (keys m) = length (slots m) /\ slots_nodup pair_view (zip (keys m) (slots m)) /\
  occupied m = wrap 32 (Z.of_nat (length (slot_pairs pair_view (zip (keys m) (slots m))))).

Lemma find_slot_position m k :
  slotmap_find_slot m k = position (slot_key pair_view k) (zip (keys m) (slots m)).
Proof.
  apply position_ext. intros [k' [v|]]; unfold slot_key, pair_view; simpl.
  - rewrite andb_true_r. destruct (Z.eqb_spec k' k).
    + by rewrite bool_decide_eq_true_2.
    + by rewrite bool_decide_eq_false_2.
  - by rewrite andb_false_r.
Qed.

Lemma free_slot_position m :
  length (keys m) = length (slots m) ->
  position (fun s => negb (is_some s)) (slots m) =
  position (slot_free pair_view) (zip (keys m) (slots m)).
Proof.
  generalize (keys m). intros ks. revert ks.
  induction (slots m) as [|s l IH]; intros [|k ks] Hlen; simplify_eq/=; [done|].
  unfold slot_free, pair_view at 1; simpl. destruct s; simpl; [|done]. f_equal. by apply IH.
Qed.

Lemma slotmap_get_lookup m k : slotmap_wf m -> slotmap_get m k = slotmap_map m !! k.
Proof.
  intros (Hlen & Hnd & _). unfold slotmap_get, slotmap_map.
  rewrite slots_lookup_position, find_slot_position by done.
  destruct (position _ _) as [i|] eqn:Hp; simpl; [|done].
  destruct (slots_position_Some _ _ _ _ Hnd Hp) as ([k' s] & v & Hi & Hv & _). rewrite Hi. simpl.
  rewrite Hv. simpl. apply lookup_zip_Some in Hi as [_ ->]. unfold pair_view in Hv; simpl in Hv.
  destruct s; by simplify_eq.
Qed.

Lemma slotmap_insert_map m k v :
  slotmap_wf m ->
  slotmap_wf (slotmap_insert m k v) /\ slotmap_map (slotmap_insert m k v) = <[k := v]> (slotmap_map m).
Proof.
  intros (Hlen & Hnd & Hocc). unfold slotmap_insert. rewrite find_slot_position.
  destruct (position _ _) as [i|] eqn:Hp.
  - destruct (slots_position_Some _ _ _ _ Hnd Hp) as ([k' s] & v0 & Hi & Hv & _).
    destruct (slots_update pair_view _ i _ (k', Some v) k v0 v Hnd Hi Hv) as (Hm & Hnd' & Hl).
    { unfold pair_view in *; simpl in *. destruct s; by simplify_eq. }
    rewrite <- insert_zip in Hm, Hnd', Hl. apply lookup_zip_Some in Hi as [Hk' _].
    rewrite (list_insert_id (keys m)) in Hm, Hnd', Hl by done.
    unfold slotmap_wf, slotmap_map; simpl. rewrite length_insert, Hl. done.
  - apply slots_position_None in Hp. rewrite free_slot_position by done.
    destruct (position (slot_free _) _) as [i|] eqn:Hfree.
    + destruct (slots_free_view _ _ _ Hfree) as (a & Hi & Ha).
      destruct (slots_fill pair_view _ i a (k, Some v) k v Hnd Hi Ha eq_refl Hp) as (Hm & Hnd' & Hl).
      rewrite <- insert_zip in Hm, Hnd', Hl.
      unfold slotmap_wf, slotmap_map; simpl. rewrite !length_insert, Hl, Hocc, wrap_succ by done.
      split_and!; try done. f_equal. lia.
    + destruct (slots_snoc pair_view _ (k, Some v) k v Hnd eq_refl Hp) as (Hm & Hnd' & Hl).
      rewrite <- zip_snoc in Hm, Hnd', Hl by done.
      unfold slotmap_wf, slotmap_map; simpl. rewrite !length_app, Hl, Hocc, wrap_succ by done.
      split_and!; try done; [simpl; lia|]. f_equal. lia.
Qed.

Lemma slotmap_remove_map m k :
  slotmap_wf m ->
  slotmap_wf (slotmap_remove m k).1 /\
  slotmap_map (slotmap_remove m k).1 = delete k (slotmap_map m) /\
  (slotmap_remove m k).2 = slotmap_map m !! k.
Proof.
  intros Hwf. pose proof Hwf as (Hlen & Hnd & Hocc).
  pose proof (slotmap_get_lookup m k Hwf) as Hget. unfold slotmap_get in Hget.
  unfold slotmap_remove. rewrite find_slot_position in *.
  destruct (position _ _) as [i|] eqn:Hp; simpl; rewrite Hget.
  - destruct (slots_position_Some _ _ _ _ Hnd Hp) as ([k' s] & v & Hi & Hv & Hk).
    destruct (slots_clear pair_view _ i _ (U64_MAX, None) k v Hnd Hi Hv eq_refl) as (Hm & Hnd' & Hl).
    rewrite <- insert_zip in Hm, Hnd', Hl. fold (slotmap_map m) in Hk.
    unfold slotmap_wf, slotmap_map in *; simpl. rewrite Hk. simpl.
    rewrite !length_insert, Hocc, wrap_pred by done. split_and!; try done. f_equal. lia.
  - split_and!; [done| |done]. by rewrite delete_id.
Qed.

Lemma slotmap_get_mut_map m k f :
  slotmap_wf m ->
  slotmap_wf (slotmap_get_mut m k f) /\
  slotmap_map (slotmap_get_mut m k f) = alter f k (slotmap_map m).
Proof.
  intros Hwf. pose proof Hwf as (Hlen & Hnd & Hocc). unfold slotmap_get_mut.
  rewrite find_slot_position. destruct (position _ _) as [i|] eqn:Hp.
  - destruct (slots_position_Some _ _ _ _ Hnd Hp) as ([k' s] & v0 & Hi & Hv & Hk).
    destruct s as [v|]; [|done]. unfold pair_view in Hv; simpl in Hv. simplify_eq.
    destruct (slots_update pair_view _ i _ (k, Some (f v0)) k v0 (f v0) Hnd Hi eq_refl eq_refl)
      as (Hm & Hnd' & Hl).
    rewrite <- insert_zip in Hm, Hnd', Hl. apply lookup_zip_Some in Hi as [Hk' Hs].
    rewrite (list_insert_id (keys m)) in Hm, Hnd', Hl by done.
    rewrite (alter_is_insert _ _ _ (Some v0)) by done.
    unfold slotmap_wf, slotmap_map in *; simpl. rewrite length_insert, Hl.
    split; [done|]. rewrite Hm. symmetry. by apply alter_present.
  - split; [done|]. apply slots_position_None in Hp. symmetry. by apply alter_absent.
Qed.

(** [retain] slot by slot. *)
Definition retained (f : Z -> V -> V * bool) (ks : Z * option V) : Z * option V :=
  match ks.2 with
  | Some v => let '(v', keep) := f ks.1 v in if keep then (ks.1, Some v') else (U64_MAX, None)
  | None => ks
  end.

Definition retain_value (f : Z -> V -> V * bool) (k : Z) (v : V) : option V :=
  let '(v', keep) := f k v in if keep then Some v' else None.

Lemma foldl_retain_slot f acc c n l :
  n = wrap 32 (c + Z.of_nat (length (slot_pairs pair_view l))) ->
  foldl (retain_slot f) (acc, n) l =
  (acc ++ map (retained f) l, wrap 32 (c + Z.of_nat (length (slot_pairs pair_view (map (retained f) l))))).
Proof.
  revert acc c n. induction l as [|[k s] l IH]; intros acc c n ->; [by rewrite app_nil_r|].
  cbn [foldl map]. rewrite !slot_pairs_cons, !length_app.
  unfold retain_slot at 2, retained at 1 3; cbn [fst snd]. destruct s as [v|].
  - destruct (f k v) as [v' [|]]; unfold pair_view at 1 3; cbn [fst snd];
      change (length (option_list (Some (k, v)))) with 1%nat.
    + change (length (option_list (Some (k, v')))) with 1%nat.
      rewrite (IH _ (c + 1)) by (f_equal; lia). rewrite <- app_assoc. f_equal. f_equal. lia.
    + rewrite (IH _ c) by (rewrite wrap_pred by lia; f_equal; lia).
      by rewrite <- app_assoc.
  - rewrite (IH _ c) by done. rewrite <- app_assoc. done.
Qed.

Lemma retained_pairs f l :
  slot_pairs pair_view (map (retained f) l) =
  omap (fun p => (fun v => (p.1, v)) <$> retain_value f p.1 p.2) (slot_pairs pair_view l).
Proof.
  induction l as [|[k s] l IH]; [done|]. cbn [map]. rewrite !slot_pairs_cons, IH.
  unfold retained, retain_value; cbn [fst snd]. destruct s as [v|]; [|done]. simpl.
  by destruct (f k v) as [v' [|]].
Qed.

Lemma omap_pairs_map (h : Z -> V -> option V) (ps : list (Z * V)) :
  NoDup ps.*1 ->
  NoDup (omap (fun p => (fun v => (p.1, v)) <$> h p.1 p.2) ps).*1 /\
  list_to_map (omap (fun p => (fun v => (p.1, v)) <$> h p.1 p.2) ps) =
  map_imap h (list_to_map ps : gmap Z V).
Proof.
  induction ps as [|[k v] ps IH]; intros Hnd.
  { split; [done|]. simpl. by rewrite map_imap_empty. }
  apply NoDup_cons in Hnd as [Hk Hnd]. destruct (IH Hnd) as [Hnd' Hmap].
  rewrite omap_cons_list. cbn [fst snd list_to_map foldr].
  apply (not_elem_of_list_to_map (M := gmap Z)) in Hk. cbn [fst] in Hk.
  change (foldr _ _ ps) with (list_to_map ps : gmap Z V).
  rewrite map_imap_insert. destruct (h k v) as [v'|]; cbn [fmap option_fmap option_map option_list from_option app].
  - split; [|cbn; by rewrite <- Hmap]. constructor; [|done]. cbn [fst].
    apply (not_elem_of_list_to_map (M := gmap Z)). rewrite Hmap, map_lookup_imap. by rewrite Hk.
  - split; [done|]. etrans; [exact Hmap|]. rewrite delete_id; [done|]. by rewrite map_lookup_imap, Hk.
Qed.

Lemma slotmap_retain_map m f :
  slotmap_wf m ->
  slotmap_wf (slotmap_retain m f) /\
  slotmap_map (slotmap_retain m f) = map_imap (retain_value f) (slotmap_map m).
Proof.
  intros (Hlen & Hnd & Hocc). unfold slotmap_retain.
  rewrite (foldl_retain_slot f [] 0 (occupied m)) by done. simpl.
  destruct (omap_pairs_map (retain_value f) _ Hnd) as [Hnd' Hmap].
  unfold slotmap_wf, slotmap_map, slots_nodup, slots_map; simpl.
  rewrite zip_fst_snd, retained_pairs. rewrite !length_fmap. done.
Qed.

Lemma slotmap_clear_map m :
  slotmap_wf m -> slotmap_wf (slotmap_clear m) /\ slotmap_map (slotmap_clear m) = ∅.
Proof.
  intros (Hlen & _ & _).
  assert (Hp : slot_pairs pair_view (zip (keys (slotmap_clear m)) (slots (slotmap_clear m))) = []).
  { unfold slotmap_clear; simpl. clear Hlen. generalize (keys m) as ks.
    induction (slots m) as [|s l IH]; intros [|k ks]; [done..|]. exact (IH ks). }
  unfold slotmap_wf, slotmap_map, slots_nodup, slots_map. rewrite Hp. simpl.
  rewrite !length_map. split_and!; (done || constructor).
Qed.

Lemma slotmap_iter_perm m : slotmap_wf m -> slotmap_iter m ≡ₚ map_to_list (slotmap_map m).
Proof. intros (_ & Hnd & _). symmetry. by apply map_to_list_to_map. Qed.

(** ** Programs over the map *)

Inductive slot_op : Type :=
| OpInsert (k : Z) (v : V)
| OpGet (k : Z)
| OpGetMut (k : Z) (f : V -> V)
| OpRemove (k : Z)
| OpContains (k : Z)
| OpLen
| OpRetain (f : Z -> V -> V * bool)
| OpClear.

Inductive slot_out : Type :=
| OutUnit
| OutVal (o : option V)
| OutBool (b : bool)
| OutLen (n : Z).

Definition slotmap_op m (o : slot_op) : SlotMap V * slot_out :=
  match o with
  | OpInsert k v => (slotmap_insert m k v, OutUnit)
  | OpGet k => (m, OutVal (slotmap_get m k))
  | OpGetMut k f => (slotmap_get_mut m k f, OutUnit)
  | OpRemove k => let '(m', v) := slotmap_remove m k in (m', OutVal v)
  | OpContains k => (m, OutBool (slotmap_contains_key m k))
  | OpLen => (m, OutLen (slotmap_len m))
  | OpRetain f => (slotmap_retain m f, OutUnit)
  | OpClear => (slotmap_clear m, OutUnit)
  end.

(** The same operations on a finite map. *)
Definition gmap_op (m : gmap Z V) (o : slot_op) : gmap Z V * slot_out :=
  match o with
  | OpInsert k v => (<[k := v]> m, OutUnit)
  | OpGet k => (m, OutVal (m !! k))
  | OpGetMut k f => (alter f k m, OutUnit)
  | OpRemove k => (delete k m, OutVal (m !! k))
  | OpContains k => (m, OutBool (is_some (m !! k)))
  | OpLen => (m, OutLen (wrap 32 (Z.of_nat (size m))))
  | OpRetain f => (map_imap (retain_value f) m, OutUnit)
  | OpClear => (∅, OutUnit)
  end.

Fixpoint run_ops {S} (step : S -> slot_op -> S * slot_out) (st : S) (os : list slot_op) : list slot_out :=
  match os with
  | [] => []
  | o :: os => let '(st', out) := step st o in out :: run_ops step st' os
  end.

Lemma slotmap_contains_lookup m k :
  slotmap_wf m -> slotmap_contains_key m k = is_some (slotmap_map m !! k).
Proof.
  intros (_ & Hnd & _). unfold slotmap_contains_key. rewrite find_slot_position.
  destruct (position _ _) as [i|] eqn:Hp.
  - destruct (slots_position_Some _ _ _ _ Hnd Hp) as (a & v & _ & _ & Hk).
    unfold slotmap_map. by rewrite Hk.
  - apply slots_position_None in Hp. unfold slotmap_map. by rewrite Hp.
Qed.

Lemma slotmap_op_sim m o :
  slotmap_wf m ->
  slotmap_wf (slotmap_op m o).1 /\
  (slotmap_map (slotmap_op m o).1, (slotmap_op m o).2) = gmap_op (slotmap_map m) o.
Proof.
  intros Hwf. destruct o as [k v|k|k f|k|k| |f|]; simpl.
  - by destruct (slotmap_insert_map m k v Hwf) as [? ->].
  - by rewrite slotmap_get_lookup.
  - by destruct (slotmap_get_mut_map m k f Hwf) as [? ->].
  - destruct (slotmap_remove_map m k Hwf) as (Hw & Hm & Hv).
    destruct (slotmap_remove m k) as [m' v]; simpl in *. by rewrite Hm, Hv.
  - by rewrite slotmap_contains_lookup.
  - split; [done|]. destruct Hwf as (_ & Hnd & Hocc). unfold slotmap_len, slotmap_map.
    by rewrite slots_size, Hocc.
  - by destruct (slotmap_retain_map m f Hwf) as [? ->].
  - by destruct (slotmap_clear_map m Hwf) as [? ->].
Qed.

Lemma slotmap_with_capacity_wf n :
  slotmap_wf (slotmap_with_capacity n) /\ slotmap_map (slotmap_with_capacity n) = ∅.
Proof.
  assert (Hp : slot_pairs pair_view (zip (keys (slotmap_with_capacity n)) (slots (slotmap_with_capacity n))) = []).
  { unfold slotmap_with_capacity; simpl. induction n as [|n IH]; [done|exact IH]. }
  unfold slotmap_wf, slotmap_map, slots_nodup, slots_map. rewrite Hp. simpl.
  rewrite !length_replicate. split_and!; (done || constructor).
Qed.

Lemma run_slotmap_sim m os :
  slotmap_wf m -> run_ops slotmap_op m os = run_ops gmap_op (slotmap_map m) os.
Proof.
  revert m. induction os as [|o os IH]; intros m Hwf; [done|]. simpl.
  destruct (slotmap_op_sim m o Hwf) as [Hwf' Heq]. rewrite <- Heq.
  destruct (slotmap_op m o) as [m' out]; simpl in *. f_equal. by apply IH.
Qed.

End ops.

Arguments slot_op : clear implicits.
Arguments slot_out : clear implicits.

(** Every program of inserts, lookups, updates, removals, [retain] and [clear]
    observes on a [SlotMap], whatever capacity it was created with, exactly what
    it would observe on a finite map, growth beyond the capacity included. *)
Theorem slotmap_refines_gmap {V} (capacity : nat) (os : list (slot_op V)) :
  run_ops slotmap_op (slotmap_with_capacity capacity) os = run_ops gmap_op ∅ os.
Proof.
  destruct (slotmap_with_capacity_wf (V := V) capacity) as [Hwf Hm].
  rewrite run_slotmap_sim by done. by rewrite Hm.
Qed.

End SlotMap.

Module SlotVec.

Record SlotVec (V : Type) : Type := mkSlotVec {
  keys : list Z;
  slots : list (list V);
  occupied : Z;
}.
Arguments mkSlotVec {V}.
Arguments keys {V}.
Arguments slots {V}.
Arguments occupied {V}.

Section ops.
Context {V : Type}.
Implicit Types (m : SlotVec V) (k : Z) (v : V).

Definition slotvec_with_capacity (capacity : nat) : SlotVec V :=
  mkSlotVec (replicate capacity U64_MAX) (replicate capacity []) 0.

Definition is_empty {A} (l : list A) : bool := match l with [] => true | _ => false end.

Definition slotvec_find_slot m k : option nat :=
  position (fun ks => (ks.1 =? k) && negb (is_empty ks.2)) (zip (keys m) (slots m)).

Definition slotvec_push m k v : SlotVec V :=
  match position (fun ks => ks.1 =? k) (zip (keys m) (slots m)) with
  | Some i =>
      let l := match slots m !! i with Some l => l | None => [] end in
      mkSlotVec (keys m) (<[i := l ++ [v]]> (slots m))
        (if is_empty l then wrap 32 (occupied m + 1) else occupied m)
  | None =>
      match position (fun ks => is_empty ks.2 && (ks.1 =? U64_MAX)) (zip (keys m) (slots m)) with
      | Some i =>
          let l := match slots m !! i with Some l => l | None => [] end in
          mkSlotVec (<[i := k]> (keys m)) (<[i := l ++ [v]]> (slots m)) (wrap 32 (occupied m + 1))
      | None => mkSlotVec (keys m ++ [k]) (slots m ++ [[v]]) (wrap 32 (occupied m + 1))
      end
  end.

Definition slotvec_get m k : option (list V) :=
  match slotvec_find_slot m k with Some i => slots m !! i | None => None end.

Definition slotvec_pop_front m k : SlotVec V * option V :=
  match slotvec_find_slot m k with
  | Some i =>
      match slots m !! i with
      | Some (v :: rest) =>
          if is_empty rest then
            (mkSlotVec (<[i := U64_MAX]> (keys m)) (<[i := rest]> (slots m)) (wrap 32 (occupied m - 1)), Some v)
          else (mkSlotVec (keys m) (<[i := rest]> (slots m)) (occupied m), Some v)
      | _ => (m, None)
      end
  | None => (m, None)
  end.

Definition slotvec_is_empty_at m k : bool := negb (SlotMap.is_some (slotvec_find_slot m k)).

Definition slotvec_clear m : SlotVec V :=
  mkSlotVec (map (fun _ => U64_MAX) (keys m)) (map (fun _ => []) (slots m)) 0.

(** ** Meaning: a queue per key *)

Definition vec_view (ks : Z * list V) : option (Z * list V) :=
  match ks.2 with [] => None | l => Some (ks.1, l) end.

Definition slotvec_map m : gmap Z (list V) := slots_map vec_view (zip (keys m) (slots m)).

(** The queue of a key; a key without a slot has the empty queue. *)
Definition queue (q : gmap Z (list V)) k : list V := match q !! k with Some l => l | None => [] end.

Definition slotvec_wf m : Prop :=
  length (keys m) = length (slots m) /\ slots_nodup vec_view (zip (keys m) (slots m)) /\
  Forall (fun ks => ks.1 = U64_MAX <-> ks.2 = []) (zip (keys m) (slots m)) /\
  occupied m = wrap 32 (Z.of_nat (length (slot_pairs vec_view (zip (keys m) (slots m))))).

Lemma vec_find_position m k :
  slotvec_find_slot m k = position (slot_key vec_view k) (zip (keys m) (slots m)).
Proof.
  apply position_ext. intros [k' [|v l]]; unfold slot_key, vec_view; simpl.
  - by rewrite andb_false_r.
  - rewrite andb_true_r. destruct (Z.eqb_spec k' k).
    + by rewrite bool_decide_eq_true_2.
    + by rewrite bool_decide_eq_false_2.
Qed.

(** On a key other than the sentinel the first search of [push] finds the key's queue. *)
Lemma vec_push_position m k :
  slotvec_wf m -> k <> U64_MAX ->
  position (fun ks => ks.1 =? k) (zip (keys m) (slots m)) =
  position (slot_key vec_view k) (zip (keys m) (slots m)).
Proof.
  intros (_ & _ & Hfree & _) Hk. induction Hfree as [|[k' l] zs Hkl _ IH]; [done|]. simpl.
  rewrite IH. unfold slot_key at 2, vec_view; simpl in *. destruct l as [|v l].
  - destruct Hkl as [_ ->]; [|done]. destruct (Z.eqb_spec U64_MAX k); [by subst|done].
  - destruct (Z.eqb_spec k' k).
    + by rewrite bool_decide_eq_true_2.
    + by rewrite bool_decide_eq_false_2.
Qed.

Lemma vec_free_position m :
  slotvec_wf m ->
  position (fun ks => is_empty ks.2 && (ks.1 =? U64_MAX)) (zip (keys m) (slots m)) =
  position (slot_free vec_view) (zip (keys m) (slots m)).
Proof.
  intros (_ & _ & Hfree & _). induction Hfree as [|[k' l] zs Hkl _ IH]; [done|]. simpl.
  rewrite IH. unfold slot_free at 2, vec_view; simpl in *. destruct l as [|v l]; simpl; [|done].
  destruct Hkl as [_ ->]; [|done]. done.
Qed.

Lemma vec_view_nonempty k (l : list V) : l <> [] -> vec_view (k, l) = Some (k, l).
Proof. by destruct l. Qed.

Lemma slotvec_push_map m k v :
  slotvec_wf m -> k <> U64_MAX ->
  slotvec_wf (slotvec_push m k v) /\
  slotvec_map (slotvec_push m k v) = <[k := queue (slotvec_map m) k ++ [v]]> (slotvec_map m).
Proof.
  intros Hwf Hk. pose proof Hwf as (Hlen & Hnd & Hfree & Hocc). unfold slotvec_push, queue.
  rewrite vec_push_position by done. destruct (position _ _) as [i|] eqn:Hp.
  - destruct (slots_position_Some _ _ _ _ Hnd Hp) as ([k' l] & l0 & Hi & Hv & Hm0).
    assert (k' = k /\ l = l0 /\ l <> []) as (-> & -> & Hne).
    { unfold vec_view in Hv; simpl in Hv. destruct l; [done|]. by simplify_eq. }
    destruct (slots_update vec_view _ i _ (k, l0 ++ [v]) k l0 (l0 ++ [v]) Hnd Hi Hv) as (Hm & Hnd' & Hl).
    { apply vec_view_nonempty. by destruct l0. }
    unfold slotvec_map at 2. rewrite Hm0. pose proof Hi as [Hki Hli]%lookup_zip_Some. rewrite Hli.
    rewrite <- insert_zip in Hm, Hnd', Hl. rewrite (list_insert_id (keys m)) in Hm, Hnd', Hl by done.
    unfold slotvec_wf, slotvec_map; simpl. rewrite length_insert, Hl.
    replace (is_empty l0) with false by by destruct l0. split_and!; try done.
    rewrite <- (list_insert_id (keys m) i k), insert_zip by done. apply Forall_insert; [done|].
    simpl. split; [done|]. by destruct l0.
  - apply slots_position_None in Hp. unfold slotvec_map at 2. rewrite Hp. simpl.
    rewrite vec_free_position by done. destruct (position (slot_free _) _) as [i|] eqn:Hf.
    + destruct (slots_free_view _ _ _ Hf) as ([k' l] & Hi & Ha).
      assert (l = []) as -> by by destruct l.
      destruct (slots_fill vec_view _ i _ (k, [v]) k [v] Hnd Hi Ha eq_refl Hp) as (Hm & Hnd' & Hl).
      pose proof Hi as [Hki Hli]%lookup_zip_Some. rewrite Hli. simpl.
      rewrite <- insert_zip in Hm, Hnd', Hl.
      unfold slotvec_wf, slotvec_map; simpl. rewrite !length_insert, Hl, Hocc, wrap_succ by done.
      split_and!; try done; [|f_equal; lia]. rewrite insert_zip. by apply Forall_insert.
    + destruct (slots_snoc vec_view _ (k, [v]) k [v] Hnd eq_refl Hp) as (Hm & Hnd' & Hl).
      rewrite <- zip_snoc in Hm, Hnd', Hl by done.
      unfold slotvec_wf, slotvec_map; simpl. rewrite !length_app, Hl, Hocc, wrap_succ by done.
      split_and!; try done; [simpl; lia| |f_equal; lia].
      rewrite zip_snoc by done. apply Forall_app. split; [done|]. by repeat constructor.
Qed.

Lemma slotvec_pop_map m k :
  slotvec_wf m ->
  slotvec_wf (slotvec_pop_front m k).1 /\
  match queue (slotvec_map m) k with
  | [] => slotvec_pop_front m k = (m, None)
  | v :: rest =>
      (slotvec_pop_front m k).2 = Some v /\
      slotvec_map (slotvec_pop_front m k).1 =
        if is_empty rest then delete k (slotvec_map m) else <[k := rest]> (slotvec_map m)
  end.
Proof.
  intros Hwf. pose proof Hwf as (Hlen & Hnd & Hfree & Hocc). unfold slotvec_pop_front, queue.
  rewrite vec_find_position. destruct (position _ _) as [i|] eqn:Hp.
  - destruct (slots_position_Some _ _ _ _ Hnd Hp) as ([k' l] & l0 & Hi & Hv & Hm0).
    unfold slotvec_map at 1 2. rewrite Hm0. pose proof Hi as [Hki Hli]%lookup_zip_Some. rewrite Hli.
    pose proof (Forall_lookup_1 _ _ _ _ Hfree Hi) as Hkl. simpl in Hkl.
    destruct l as [|v rest]; [done|]. unfold vec_view in Hv; simpl in Hv. simplify_eq.
    destruct rest as [|v' rest]; simpl.
    + destruct (slots_clear vec_view _ i _ (U64_MAX, []) k [v] Hnd Hi eq_refl eq_refl) as (Hm & Hnd' & Hl).
      rewrite <- insert_zip in Hm, Hnd', Hl. unfold slotvec_wf, slotvec_map; simpl.
      rewrite !length_insert, Hocc, wrap_pred by done. split_and!; try done; [|f_equal; lia].
      rewrite insert_zip. by apply Forall_insert.
    + destruct (slots_update vec_view _ i _ (k, v' :: rest) k (v :: v' :: rest) (v' :: rest) Hnd Hi eq_refl eq_refl)
        as (Hm & Hnd' & Hl).
      rewrite <- insert_zip in Hm, Hnd', Hl. rewrite (list_insert_id (keys m)) in Hm, Hnd', Hl by done.
      unfold slotvec_wf, slotvec_map; simpl. rewrite length_insert, Hl. split_and!; try done.
      rewrite <- (list_insert_id (keys m) i k), insert_zip by done. apply Forall_insert; [done|].
      simpl. split; [|done]. intros ->. by destruct Hkl as [Hkl _]; specialize (Hkl eq_refl).
  - apply slots_position_None in Hp. unfold slotvec_map. rewrite Hp. done.
Qed.

(** ** First in, first out *)

Inductive vec_op : Type :=
| OpPush (k : Z) (v : V)
| OpPop (k : Z).

(** Values popped, in order, with their key. *)
Fixpoint slotvec_run m (os : list vec_op) : SlotVec V * list (Z * V) :=
  match os with
  | [] => (m, [])
  | OpPush k v :: os => slotvec_run (slotvec_push m k v) os
  | OpPop k :: os =>
      let '(m', o) := slotvec_pop_front m k in
      let '(m'', out) := slotvec_run m' os in
      (m'', match o with Some v => (k, v) :: out | None => out end)
  end.

Definition values_of (k : Z) (l : list (Z * V)) : list V :=
  map snd (List.filter (fun p => p.1 =? k) l).

Definition pushes (os : list vec_op) : list (Z * V) :=
  omap (fun o => match o with OpPush k v => Some (k, v) | OpPop _ => None end) os.

Definition op_key (o : vec_op) : Z := match o with OpPush k _ => k | OpPop k => k end.

Lemma queue_insert (q : gmap Z (list V)) k k' l :
  queue (<[k := l]> q) k' = if decide (k = k') then l else queue q k'.
Proof.
  unfold queue. case_decide; [subst; by rewrite lookup_insert_eq|by rewrite lookup_insert_ne].
Qed.

Lemma queue_delete (q : gmap Z (list V)) k k' :
  queue (delete k q) k' = if decide (k = k') then [] else queue q k'.
Proof.
  unfold queue. case_decide; [subst; by rewrite lookup_delete_eq|by rewrite lookup_delete_ne].
Qed.

Lemma values_of_cons k p l :
  values_of k (p :: l) = if p.1 =? k then p.2 :: values_of k l else values_of k l.
Proof. unfold values_of. simpl. by destruct (p.1 =? k). Qed.

Lemma pushes_cons o os :
  pushes (o :: os) = match o with OpPush k v => (k, v) :: pushes os | OpPop _ => pushes os end.
Proof. by destruct o. Qed.

Lemma slotvec_run_queues m os k :
  slotvec_wf m -> Forall (fun o => op_key o <> U64_MAX) os ->
  let '(m', out) := slotvec_run m os in
  queue (slotvec_map m) k ++ values_of k (pushes os) =
  values_of k out ++ queue (slotvec_map m') k.
Proof.
  intros Hwf Hks. revert m Hwf. induction Hks as [|o os Ho Hos IH]; intros m Hwf.
  { by rewrite app_nil_r. }
  rewrite pushes_cons. destruct o as [k' v|k']; cbn [slotvec_run op_key] in *.
  - destruct (slotvec_push_map m k' v Hwf Ho) as [Hwf' Hm]. specialize (IH _ Hwf').
    destruct (slotvec_run _ os) as [m' out]. rewrite <- IH, Hm, queue_insert.
    rewrite values_of_cons; cbn [fst snd].
    case_decide; destruct (Z.eqb_spec k' k); subst; try done. by rewrite <- app_assoc.
  - destruct (slotvec_pop_map m k' Hwf) as [Hwf' Hpop]. specialize (IH _ Hwf').
    destruct (slotvec_pop_front m k') as [m1 o]. simpl in *.
    destruct (slotvec_run m1 os) as [m' out].
    destruct (queue (slotvec_map m) k') as [|v rest] eqn:Hq; [by simplify_eq|].
    destruct Hpop as [-> Hm]. rewrite values_of_cons; simpl.
    assert (Hq1 : queue (slotvec_map m1) k = if decide (k' = k) then rest else queue (slotvec_map m) k).
    { rewrite Hm. destruct rest; simpl; [apply queue_delete|apply queue_insert]. }
    rewrite Hq1 in IH. case_decide; destruct (Z.eqb_spec k' k); subst; try done.
    rewrite Hq. simpl. by rewrite IH.
Qed.

Lemma slotvec_with_capacity_wf n :
  slotvec_wf (slotvec_with_capacity n) /\ slotvec_map (slotvec_with_capacity n) = ∅.
Proof.
  assert (Hp : slot_pairs vec_view (zip (keys (slotvec_with_capacity n)) (slots (slotvec_with_capacity n))) = []).
  { unfold slotvec_with_capacity; simpl. induction n as [|n IH]; [done|exact IH]. }
  unfold slotvec_wf, slotvec_map, slots_nodup, slots_map. rewrite Hp. simpl.
  rewrite !length_replicate. split_and!; try done; [constructor|].
  clear Hp. induction n as [|n IH]; simpl; by constructor.
Qed.

End ops.

Arguments vec_op : clear implicits.

(** Per key a [SlotVec] is a first-in first-out queue: over any interleaving of
    pushes and pops of ordinary keys, the values popped for a key followed by
    those still queued are the values pushed for it, in order. *)
Theorem slotvec_fifo {V} (capacity : nat) (os : list (vec_op V)) (k : Z)
  (Hkeys : Forall (fun o => op_key o <> U64_MAX) os) :
  let '(m, out) := slotvec_run (slotvec_with_capacity capacity) os in
  values_of k (pushes os) = values_of k out ++ queue (slotvec_map m) k.
Proof.
  destruct (slotvec_with_capacity_wf (V := V) capacity) as [Hwf Hm].
  pose proof (slotvec_run_queues _ os k Hwf Hkeys) as Hrun.
  destruct (slotvec_run _ os) as [m out]. rewrite Hm in Hrun. exact Hrun.
Qed.

Lemma slotvec_fifo_witness :
  let os := [OpPush 7 1; OpPush 8 2; OpPush 7 3; OpPop 7; OpPush 9 4; OpPop 7] in
  let '(m, out) := slotvec_run (slotvec_with_capacity 1) os in
  values_of 7 (pushes os) = values_of 7 out ++ queue (slotvec_map m) 7.
Proof.
  apply (slotvec_fifo 1 [OpPush 7 1; OpPush 8 2; OpPush 7 3; OpPop 7; OpPush 9 4; OpPop 7] 7).
  repeat (constructor; [simpl; discriminate|]). constructor.
Defined.

End SlotVec.
