(* ===== verification/Wal.v ===== *)
(** * Write-ahead log ([velocity-workflow-engine/src/wal.rs])

    Records and their byte format, the log file and its reader, and the manager
    with rotation and retention.  The file system is a finite map from paths to
    files, a file being its bytes and how many of them have been fsynced; path 0
    is the log itself and path [n + 1] its [n]-th rotated copy.  An [io::Error] is
    its kind. *)

From S2P Require Import Prelude Crc.
Import Crc.

Module Wal.

(** "VELO". *)
Definition WAL_MAGIC : bytes := [86; 69; 76; 79].
Definition WAL_VERSION : Z := 1.
Definition WAL_VERSION_MAX : Z := 1.

Inductive WalEventType : Type :=
| WorkflowStarted | StepCompleted | WorkflowCompleted | WorkflowFailed | WorkflowCanceled
| WorkflowTerminated | SignalReceived | TimerScheduled | ActivityScheduled | ChildWorkflowStarted.

#[export] Instance WalEventType_eq_dec : EqDecision WalEventType.
Proof. solve_decision. Defined.

(** [event_type as u8]. *)
Definition event_as_u8 (e : WalEventType) : Z :=
  match e with
  | WorkflowStarted => 1 | StepCompleted => 2 | WorkflowCompleted => 3 | WorkflowFailed => 4
  | WorkflowCanceled => 5 | WorkflowTerminated => 6 | SignalReceived => 7 | TimerScheduled => 8
  | ActivityScheduled => 9 | ChildWorkflowStarted => 10
  end.

Definition event_from_u8 (v : Z) : option WalEventType :=
  match v with
  | 1 => Some WorkflowStarted | 2 => Some StepCompleted | 3 => Some WorkflowCompleted
  | 4 => Some WorkflowFailed | 5 => Some WorkflowCanceled | 6 => Some WorkflowTerminated
  | 7 => Some SignalReceived | 8 => Some TimerScheduled | 9 => Some ActivityScheduled
  | 10 => Some ChildWorkflowStarted
  | _ => None
  end.

Record WalRecord : Type := mkRecord {
  event_type : WalEventType;
  workflow_key : Z;
  data : bytes;
}.

Inductive io_error : Type :=
| UnexpectedEof
| InvalidData
| NotFound.

(** The bytes covered by the checksum. *)
Definition record_body (r : WalRecord) : bytes :=
  [event_as_u8 (event_type r)] ++ le_bytes 8 (workflow_key r)
  ++ le_bytes 4 (wrap 32 (Z.of_nat (length (data r)))) ++ data r.

Definition encode (r : WalRecord) : bytes :=
  let buf := record_body r in
  buf ++ le_bytes 4 (crc32_fast buf).

(** [reader.read_exact(&mut buf)] for a buffer of [n] bytes. *)
Definition read_exact (n : nat) (reader : bytes) : result (bytes * bytes) io_error :=
  if (length reader <? n)%nat then Err UnexpectedEof else Ok (take n reader, drop n reader).

Definition decode (reader : bytes) : result (option (WalRecord * bytes)) io_error :=
  match read_exact 1 reader with
  | Err UnexpectedEof => Ok None
  | Err e => Err e
  | Ok (event_byte, reader) =>
      match event_from_u8 (le_val event_byte) with
      | None => Err InvalidData
      | Some event_type =>
          let? (key_buf, reader) := read_exact 8 reader in
          let workflow_key := le_val key_buf in
          let? (len_buf, reader) := read_exact 4 reader in
          let data_len := le_val len_buf in
          let? (data, reader) := read_exact (Z.to_nat data_len) reader in
          let? (crc_buf, reader) := read_exact 4 reader in
          let check_buf := event_byte ++ le_bytes 8 workflow_key ++ le_bytes 4 (wrap 32 data_len) ++ data in
          if crc32_fast check_buf =? le_val crc_buf then Ok (Some (mkRecord event_type workflow_key data, reader))
          else Err InvalidData
      end
  end.

(** The [while let Some(record) = decode(..)?] loop; a record takes at least 17
    bytes, so the length of the input is enough fuel. *)
Fixpoint decode_loop (fuel : nat) (reader : bytes) : result (list WalRecord) io_error :=
  match fuel with
  | O => Ok []
  | S fuel =>
      let? next := decode reader in
      match next with
      | None => Ok []
      | Some (r, reader) => let? rs := decode_loop fuel reader in Ok (r :: rs)
      end
  end.

(** [read_wal_records] on the bytes of the opened file. *)
Definition read_wal_records (file : bytes) : result (list WalRecord) io_error :=
  let? (magic, reader) := read_exact 4 file in
  if negb (bool_decide (magic = WAL_MAGIC)) then Err InvalidData
  else
    let? (ver_bytes, reader) := read_exact 4 reader in
    if WAL_VERSION_MAX <? le_val ver_bytes then Err InvalidData
    else decode_loop (S (length reader)) reader.

(** ** Records *)

Definition record_wf (r : WalRecord) : Prop :=
  u64 (workflow_key r) /\ is_bytes (data r) /\ u32 (Z.of_nat (length (data r))).

Definition file_header : bytes := WAL_MAGIC ++ le_bytes 4 WAL_VERSION.

(** The bytes of a log file holding the records [rs]. *)
Definition file_of (rs : list WalRecord) : bytes := file_header ++ flat_map encode rs.

Lemma event_u8_roundtrip e : event_from_u8 (event_as_u8 e) = Some e.
Proof. by destruct e. Qed.

Lemma event_as_u8_byte e : u8 (event_as_u8 e).
Proof. destruct e; unfold fits; simpl; lia. Qed.

Lemma read_exact_app n a l : length a = n -> read_exact n (a ++ l) = Ok (a, l).
Proof.
  intros <-. unfold read_exact. rewrite length_app.
  destruct (Nat.ltb_spec (length a + length l) (length a)); [lia|].
  by rewrite take_app_length, drop_app_length.
Qed.

Lemma read_exact_short n l : (length l < n)%nat -> read_exact n l = Err UnexpectedEof.
Proof. intros. unfold read_exact. by destruct (Nat.ltb_spec (length l) n); [|lia]. Qed.

Lemma record_body_bytes r : record_wf r -> is_bytes (record_body r).
Proof.
  intros (Hk & Hd & Hl). unfold record_body. rewrite !Forall_app, Forall_singleton.
  auto using event_as_u8_byte, le_bytes_is_bytes.
Qed.

Lemma record_body_length r : length (record_body r) = (13 + length (data r))%nat.
Proof. unfold record_body. rewrite !length_app, !le_bytes_length. simpl. lia. Qed.

Lemma encode_length r : length (encode r) = (17 + length (data r))%nat.
Proof. unfold encode. rewrite length_app, record_body_length, le_bytes_length. lia. Qed.

(** Reading the five fields of a record with an arbitrary checksum field. *)
Lemma decode_fields r crc rest :
  record_wf r -> length crc = 4%nat ->
  decode (record_body r ++ crc ++ rest) =
    if crc32_fast (record_body r) =? le_val crc then Ok (Some (r, rest)) else Err InvalidData.
Proof.
  intros (Hk & Hd & Hl) Hcrc. unfold decode, record_body at 1. rewrite <- !app_assoc.
  rewrite read_exact_app by done. rewrite le_val_singleton, event_u8_roundtrip.
  rewrite read_exact_app by apply le_bytes_length. cbn [result_bind].
  rewrite read_exact_app by apply le_bytes_length. cbn [result_bind].
  rewrite (wrap_id 32) by done. rewrite (le_val_le_bytes_fits 8 64), (le_val_le_bytes_fits 4 32) by done. rewrite Nat2Z.id.
  rewrite read_exact_app by done. cbn [result_bind].
  rewrite read_exact_app by done. cbn [result_bind].
  unfold record_body. rewrite (wrap_id 32) by done. by destruct r.
Qed.

Lemma decode_encode r rest : record_wf r -> decode (encode r ++ rest) = Ok (Some (r, rest)).
Proof.
  intros Hr. unfold encode. rewrite <- app_assoc, decode_fields by (done || apply le_bytes_length).
  rewrite (le_val_le_bytes_fits 4 32) by (done || apply crc32_fast_u32, record_body_bytes, Hr).
  by rewrite Z.eqb_refl.
Qed.

(** ** Files *)

Lemma decode_nil : decode [] = Ok None.
Proof. done. Qed.

Lemma decode_loop_records fuel rs tail :
  Forall record_wf rs -> (length rs <= fuel)%nat ->
  decode_loop fuel (flat_map encode rs ++ tail) =
    let? ts := decode_loop (fuel - length rs) tail in Ok (rs ++ ts).
Proof.
  intros Hrs. revert fuel. induction Hrs as [|r rs Hr _ IH]; intros fuel Hf.
  { simpl. rewrite Nat.sub_0_r. by destruct (decode_loop fuel tail). }
  destruct fuel as [|fuel]; [simpl in Hf; lia|]. cbn [flat_map decode_loop length].
  rewrite <- app_assoc, decode_encode by done. cbn [result_bind].
  rewrite IH by (simpl in Hf; lia). replace (S fuel - S (length rs))%nat with (fuel - length rs)%nat by lia.
  by destruct (decode_loop _ tail).
Qed.

Lemma flat_map_encode_length rs : (17 * length rs <= length (flat_map encode rs))%nat.
Proof. induction rs as [|r rs IH]; [done|]. cbn [flat_map length]. rewrite length_app, encode_length. lia. Qed.

(** The header of a file is accepted, whatever follows. *)
Lemma read_header tail :
  read_wal_records (file_header ++ tail) = decode_loop (S (length tail)) tail.
Proof.
  unfold read_wal_records, file_header. rewrite <- app_assoc, read_exact_app by done.
  cbn [result_bind]. rewrite bool_decide_eq_true_2 by done. cbn [negb].
  rewrite read_exact_app by apply le_bytes_length. cbn [result_bind].
  rewrite (le_val_le_bytes_fits 4 32) by (done || unfold fits, WAL_VERSION; lia). done.
Qed.

Lemma read_file rs tail :
  Forall record_wf rs ->
  read_wal_records (file_of rs ++ tail) =
    let? ts := decode_loop (S (length (flat_map encode rs ++ tail)) - length rs) tail in Ok (rs ++ ts).
Proof.
  intros Hrs. unfold file_of. rewrite <- app_assoc, read_header, decode_loop_records; [done|done|].
  pose proof (flat_map_encode_length rs). rewrite length_app. lia.
Qed.

Lemma read_file_of rs : Forall record_wf rs -> read_wal_records (file_of rs) = Ok rs.
Proof.
  intros Hrs. rewrite <- (app_nil_r (file_of rs)), read_file by done.
  destruct (S _ - _)%nat; simpl; by rewrite app_nil_r.
Qed.

(** ** Torn writes *)

Lemma read_exact_take k n a l :
  length a = k ->
  read_exact k (take n (a ++ l)) =
    if (n <? k)%nat then Err UnexpectedEof else Ok (a, take (n - k) l).
Proof.
  intros <-. destruct (Nat.ltb_spec n (length a)).
  - apply read_exact_short. rewrite length_take. lia.
  - rewrite take_app_ge by lia. by apply read_exact_app.
Qed.

Lemma decode_torn r n :
  record_wf r -> (0 < n < length (encode r))%nat -> decode (take n (encode r)) = Err UnexpectedEof.
Proof.
  intros Hr Hn. rewrite encode_length in Hn. unfold encode, decode, record_body at 1.
  rewrite <- !app_assoc. rewrite read_exact_take by done.
  destruct (Nat.ltb_spec n 1); [lia|]. rewrite le_val_singleton, event_u8_roundtrip.
  rewrite read_exact_take by apply le_bytes_length. destruct (_ <? 8)%nat eqn:E8; [done|]. cbn [result_bind].
  rewrite read_exact_take by apply le_bytes_length. destruct (_ <? 4)%nat eqn:E4; [done|]. cbn [result_bind].
  destruct Hr as (Hk & Hd & Hl). rewrite (wrap_id 32), (le_val_le_bytes_fits 4 32), Nat2Z.id by done.
  rewrite read_exact_take by done. destruct (_ <? length (data r))%nat eqn:Ed; [done|]. cbn [result_bind].
  apply Nat.ltb_ge in E8, E4, Ed. rewrite read_exact_short; [done|].
  rewrite length_take, le_bytes_length. lia.
Qed.

(** A torn record at the end of a file makes the whole file unreadable. *)
Lemma read_torn rs r n :
  Forall record_wf rs -> record_wf r -> (0 < n < length (encode r))%nat ->
  read_wal_records (file_of rs ++ take n (encode r)) = Err UnexpectedEof.
Proof.
  intros Hrs Hr Hn. rewrite read_file by done. rewrite length_app.
  pose proof (flat_map_encode_length rs). destruct (S _ - _)%nat as [|fuel] eqn:Hf; [lia|].
  cbn [decode_loop]. by rewrite decode_torn.
Qed.

(** Where the first [n] bytes of a file's records end. *)
Lemma take_records rs n :
  (n <= length (flat_map encode rs))%nat ->
  exists k m, (k <= length rs)%nat /\ take n (flat_map encode rs) = flat_map encode (take k rs) ++ m /\
    (m = [] \/ exists r i, r ∈ rs /\ (0 < i < length (encode r))%nat /\ m = take i (encode r)).
Proof.
  revert n. induction rs as [|r rs IH]; intros n Hn; cbn [flat_map] in *.
  { exists 0%nat, []. split_and!; [done| |by left]. by rewrite take_nil. }
  rewrite length_app in Hn. destruct (decide (n < length (encode r))%nat).
  - exists 0%nat, (take n (encode r)). split_and!; [simpl; lia| |].
    + rewrite take_app_le by lia. done.
    + destruct n as [|n]; [by left|]. right. exists r, (S n). split_and!; [by left|lia|lia|done].
  - destruct (IH (n - length (encode r))%nat) as (k & m & Hk & Heq & Hm); [lia|].
    exists (S k), m. split_and!; [simpl; lia| |].
    + rewrite take_app_ge by lia. rewrite Heq. cbn [take flat_map]. by rewrite app_assoc.
    + destruct Hm as [Hm|(r' & i & Hin & Hi & Hm)]; [by left|]. right.
      exists r', i. split_and!; [by right|lia|lia|done].
Qed.

Lemma take_file_boundary rs k : take (length (file_of (take k rs))) (file_of rs) = file_of (take k rs).
Proof.
  assert (Heq : file_of rs = file_of (take k rs) ++ flat_map encode (drop k rs)).
  { unfold file_of. rewrite <- app_assoc, <- flat_map_app, take_drop. done. }
  rewrite Heq. by rewrite take_app_length.
Qed.

(** Reading the first [n] bytes of a log file. *)
Lemma read_truncated rs n :
  Forall record_wf rs -> (n <= length (file_of rs))%nat ->
  (exists k, (k <= length rs)%nat /\ take n (file_of rs) = file_of (take k rs) /\
             read_wal_records (take n (file_of rs)) = Ok (take k rs)) \/
  ((forall k, n <> length (file_of (take k rs))) /\
   read_wal_records (take n (file_of rs)) = Err UnexpectedEof).
Proof.
  intros Hrs Hn. unfold file_of in *. rewrite length_app in Hn.
  assert (Hh : length file_header = 8%nat) by by unfold file_header; rewrite length_app, le_bytes_length.
  destruct (decide (n < 8)%nat) as [Hlt|Hge].
  { right. split; [intros k; rewrite length_app; lia|]. unfold read_wal_records, file_header.
    rewrite <- app_assoc, read_exact_take by done. destruct (n <? 4)%nat eqn:E4; [done|].
    cbn [result_bind]. rewrite bool_decide_eq_true_2 by done. cbn [negb].
    apply Nat.ltb_ge in E4. rewrite read_exact_take by apply le_bytes_length.
    destruct (Nat.ltb_spec (n - 4) 4); [done|lia]. }
  rewrite take_app_ge by lia.
  destruct (take_records rs (n - length file_header)%nat) as (k & m & Hk & Heq & Hm); [lia|].
  rewrite Heq, app_assoc. fold (file_of (take k rs)).
  destruct Hm as [->|(r & i & Hin & Hi & ->)].
  - left. exists k. rewrite app_nil_r. split_and!; [done|done|]. apply read_file_of. by apply Forall_take.
  - right. assert (Hr : record_wf r) by (by rewrite Forall_forall in Hrs; apply Hrs).
    split; [|apply read_torn; [by apply Forall_take|done|done]].
    intros k' Hk'. pose proof (read_torn (take k rs) r i (Forall_take _ _ _ Hrs) Hr Hi) as Herr.
    unfold file_of at 1 in Herr. rewrite <- app_assoc, <- Heq, <- take_app_ge, Hk' in Herr by lia.
    fold (file_of rs) (file_of (take k' rs)) in Herr. by rewrite take_file_boundary, read_file_of in Herr by by apply Forall_take.
Qed.

Lemma flat_map_take_le k rs : (length (flat_map encode (take k rs)) <= length (flat_map encode rs))%nat.
Proof. rewrite <- (take_drop k rs) at 2. rewrite flat_map_app, length_app. lia. Qed.

Lemma file_of_snoc rs r : file_of (rs ++ [r]) = file_of rs ++ encode r.
Proof. unfold file_of. rewrite flat_map_app, app_assoc. cbn [flat_map]. by rewrite app_nil_r. Qed.

Lemma file_of_nil : file_of [] = file_header.
Proof. apply app_nil_r. Qed.

Lemma file_of_length rs : length (file_of rs) = (8 + length (flat_map encode rs))%nat.
Proof. unfold file_of, file_header. by rewrite !length_app, le_bytes_length. Qed.

(** Replaying a log file returns exactly the records appended to it, in order. *)
Theorem wal_file_replay (rs : list WalRecord) (Hrs : Forall record_wf rs) :
  read_wal_records (file_of rs) = Ok rs.
Proof. by apply read_file_of. Qed.

(** C32. A log file cut at any byte replays the records before the cut when the cut is
    at a record boundary; a cut inside a record or the header fails the whole
    replay with [UnexpectedEof], the complete records before it included. *)
Theorem wal_truncated_replay (rs : list WalRecord) (n : nat)
  (Hrs : Forall record_wf rs) (Hn : (n <= length (file_of rs))%nat) :
  (exists k, (k <= length rs)%nat /\ take n (file_of rs) = file_of (take k rs) /\
             read_wal_records (take n (file_of rs)) = Ok (take k rs)) \/
  ((forall k, n <> length (file_of (take k rs))) /\
   read_wal_records (take n (file_of rs)) = Err UnexpectedEof).
Proof. by apply read_truncated. Qed.

(** A record whose event, key, length or data differs in one byte from what was
    written is rejected by its checksum, wherever it is in the file. *)
Theorem wal_corruption_detected (rs : list WalRecord) (r r' : WalRecord) (l1 l2 rest : bytes) (b b' : Z)
  (Hrs : Forall record_wf rs) (Hr : record_wf r) (Hr' : record_wf r')
  (Hbody : record_body r = l1 ++ b :: l2) (Hbody' : record_body r' = l1 ++ b' :: l2) (Hb : b <> b') :
  read_wal_records (file_of rs ++ record_body r' ++ le_bytes 4 (crc32_fast (record_body r)) ++ rest)
  = Err InvalidData.
Proof.
  rewrite read_file by done. rewrite length_app. pose proof (flat_map_encode_length rs).
  destruct (S _ - _)%nat as [|fuel] eqn:Hf; [lia|]. cbn [decode_loop].
  rewrite decode_fields by (done || apply le_bytes_length).
  pose proof (record_body_bytes r Hr) as Hbs. pose proof (record_body_bytes r' Hr') as Hbs'.
  rewrite (le_val_le_bytes_fits 4 32) by (done || by apply crc32_fast_u32).
  destruct (Z.eqb_spec (crc32_fast (record_body r')) (crc32_fast (record_body r))) as [Heq|]; [|done].
  rewrite !crc32_fast_bitwise, Hbody, Hbody' in Heq by done. rewrite Hbody in Hbs. rewrite Hbody' in Hbs'.
  apply Forall_app in Hbs as [H1 [Hb1 H2]%Forall_cons]. apply Forall_app in Hbs' as [_ [Hb2 _]%Forall_cons].
  symmetry in Heq. by apply crc32_bitwise_byte in Heq.
Qed.

Definition sample_record : WalRecord := mkRecord StepCompleted 7 [1; 2; 3].
Definition sample_other : WalRecord := mkRecord StepCompleted 7 [1; 9; 3].

Lemma sample_record_wf : record_wf sample_record /\ record_wf sample_other.
Proof.
  split; (split_and!; [unfold fits; simpl; lia| |unfold fits; simpl; lia]);
    repeat (constructor; [unfold fits; lia|]); constructor.
Qed.

Lemma sample_records_wf : Forall record_wf [sample_record; sample_other].
Proof. destruct sample_record_wf. by repeat (constructor; [done|]). Qed.

Lemma wal_file_replay_witness :
  read_wal_records (file_of [sample_record; sample_other]) = Ok [sample_record; sample_other].
Proof. apply (wal_file_replay [sample_record; sample_other] sample_records_wf). Defined.

Lemma wal_truncated_replay_witness :
  (exists k, (k <= 2)%nat /\ take 30 (file_of [sample_record; sample_other]) = file_of (take k [sample_record; sample_other]) /\
    read_wal_records (take 30 (file_of [sample_record; sample_other])) = Ok (take k [sample_record; sample_other])) \/
  ((forall k, 30%nat <> length (file_of (take k [sample_record; sample_other]))) /\
   read_wal_records (take 30 (file_of [sample_record; sample_other])) = Err UnexpectedEof).
Proof.
  apply (wal_truncated_replay [sample_record; sample_other] 30 sample_records_wf).
  apply (bool_decide_unpack _). vm_compute. exact I.
Defined.

Lemma wal_corruption_detected_witness :
  read_wal_records (file_of [sample_record] ++ record_body sample_other ++
    le_bytes 4 (crc32_fast (record_body sample_record)) ++ []) = Err InvalidData.
Proof.
  destruct sample_record_wf as [H1 H2].
  apply (wal_corruption_detected [sample_record] sample_record sample_other
    ([2] ++ le_bytes 8 7 ++ le_bytes 4 3 ++ [1]) [3] [] 2 9); [by constructor|done|done| | |discriminate];
    vm_compute; reflexivity.
Defined.

End Wal.

Module WalManager.
Import Wal.

(** ** File system *)

Record log_file : Type := mkFile {
  contents : bytes;
  durable : nat;
}.

Abbreviation disk := (gmap nat log_file).

Definition file_len (f : log_file) : Z := Z.of_nat (length (contents f)).

(** [fs::rename]: replaces the destination, and fails when the source is missing. *)
Definition rename (src dst : nat) (d : disk) : result disk io_error :=
  match d !! src with
  | Some f => Ok (<[dst := f]> (delete src d))
  | None => Err NotFound
  end.

Definition file_exists (p : nat) (d : disk) : bool := match d !! p with Some _ => true | None => false end.

(** ** Writer and manager *)

Definition wal_path : nat := 0.
Definition rotated_path (n : nat) : nat := S n.

(** [WalWriter::open]: a missing or empty file gets the header, not yet fsynced. *)
Definition wal_open (d : disk) : disk :=
  let is_new := match d !! wal_path with Some f => (length (contents f) =? 0)%nat | None => true end in
  if is_new then <[wal_path := mkFile file_header 0]> d else d.

Record WalManager : Type := mkManager {
  wdisk : disk;
  record_count : Z;
  unsynced_count : Z;
  max_file_size : Z;
  retain_count : nat;
}.

Definition wal_manager_new (d : disk) (max_size : Z) (retain : nat) : WalManager :=
  mkManager (wal_open d) 0 0 max_size retain.

Definition writer_append (m : WalManager) (r : WalRecord) : WalManager :=
  mkManager (alter (fun f => mkFile (contents f ++ encode r) (durable f)) wal_path (wdisk m))
    (wrap 64 (record_count m + 1)) (wrap 64 (unsynced_count m + 1)) (max_file_size m) (retain_count m).

Definition wal_sync (m : WalManager) : WalManager :=
  if 0 <? unsynced_count m then
    mkManager (alter (fun f => mkFile (contents f) (length (contents f))) wal_path (wdisk m))
      (record_count m) 0 (max_file_size m) (retain_count m)
  else m.

(** [for i in (1..n + 1).rev()]: move copy [i] to [i + 1] when it exists. *)
Fixpoint shift_rotated (n : nat) (d : disk) : result disk io_error :=
  match n with
  | O => Ok d
  | S n' =>
      let? d := (if file_exists (rotated_path n) d then rename (rotated_path n) (rotated_path (S n)) d
                 else Ok d) in
      shift_rotated n' d
  end.

Definition rotate (m : WalManager) : result WalManager io_error :=
  let m := wal_sync m in
  let oldest := rotated_path (retain_count m) in
  let d := if file_exists oldest (wdisk m) then delete oldest (wdisk m) else wdisk m in
  let? d := shift_rotated (retain_count m - 1) d in
  let? d := rename wal_path (rotated_path 1) d in
  Ok (mkManager (wal_open d) 0 0 (max_file_size m) (retain_count m)).

Definition check_rotate (m : WalManager) : result WalManager io_error :=
  match wdisk m !! wal_path with
  | Some f => if max_file_size m <? file_len f then rotate m else Ok m
  | None => Err NotFound
  end.

Definition wal_append (m : WalManager) (r : WalRecord) : result WalManager io_error :=
  let m := writer_append m r in
  match wdisk m !! wal_path with
  | Some f => if max_file_size m <? file_len f then rotate m else Ok m
  | None => Ok m
  end.

(** [read_wal_records(path)], with the opening of the file. *)
Definition read_path (p : nat) (d : disk) : result (list WalRecord) io_error :=
  match d !! p with Some f => read_wal_records (contents f) | None => Err NotFound end.

Definition replay (m : WalManager) : result (list WalRecord) io_error := read_path wal_path (wdisk m).

(** [for i in (1..=n).rev()]. *)
Fixpoint replay_rotated (n : nat) (d : disk) : result (list WalRecord) io_error :=
  match n with
  | O => Ok []
  | S n' =>
      let? rs := (if file_exists (rotated_path n) d then read_path (rotated_path n) d else Ok []) in
      let? rest := replay_rotated n' d in
      Ok (rs ++ rest)
  end.

Definition replay_old (m : WalManager) : result (list WalRecord) io_error :=
  replay_rotated (retain_count m) (wdisk m).

Definition replay_all (m : WalManager) : result (list WalRecord) io_error :=
  let? old := replay_old m in
  let? current := replay m in
  Ok (old ++ current).

Fixpoint append_all (m : WalManager) (rs : list WalRecord) : result WalManager io_error :=
  match rs with
  | [] => Ok m
  | r :: rs => let? m := wal_append m r in append_all m rs
  end.

#[local] Opaque file_of file_header encode read_wal_records.

(** ** Segments

    The state of the disk as a list of segments, the current one first. *)

Definition segment_large (max_size : Z) (rs : list WalRecord) : Prop :=
  max_size < Z.of_nat (length (file_of rs)).

Record wal_inv (m : WalManager) (cur : list WalRecord) (old : list (list WalRecord)) : Prop := {
  inv_current : contents <$> wdisk m !! wal_path = Some (file_of cur);
  inv_rotated : forall i, (i < retain_count m)%nat ->
    contents <$> wdisk m !! rotated_path (S i) = file_of <$> old !! i;
  inv_wf : Forall record_wf cur /\ Forall (Forall record_wf) old;
  inv_old : Forall (fun rs => rs <> [] /\ segment_large (max_file_size m) rs) old;
}.

Lemma wal_inv_new max_size retain : wal_inv (wal_manager_new ∅ max_size retain) [] [].
Proof.
  assert (Hopen : wdisk (wal_manager_new ∅ max_size retain) = {[wal_path := mkFile file_header 0]}) by done.
  constructor; [| |done..].
  - by rewrite Hopen, lookup_singleton_eq, file_of_nil.
  - intros i Hi. by rewrite Hopen, lookup_singleton_ne.
Qed.

Lemma writer_append_inv m cur old r :
  wal_inv m cur old -> record_wf r -> wal_inv (writer_append m r) (cur ++ [r]) old.
Proof.
  intros [Hcur Hrot [Hwf Hwfs] Hold] Hr. constructor; simpl; [| | |done].
  - rewrite lookup_alter_eq, <- option_fmap_compose. rewrite file_of_snoc.
    destruct (wdisk m !! wal_path) as [f|]; simplify_eq/=. by rewrite Hcur.
  - intros i Hi. rewrite lookup_alter_ne by done. by apply Hrot.
  - split; [|done]. apply Forall_app. by rewrite Forall_singleton.
Qed.

Lemma wal_sync_inv m cur old : wal_inv m cur old -> wal_inv (wal_sync m) cur old.
Proof.
  intros [Hcur Hrot Hwf Hold]. unfold wal_sync.
  destruct (0 <? unsynced_count m); [|by constructor]. constructor; simpl; try done.
  - rewrite lookup_alter_eq. by destruct (wdisk m !! wal_path).
  - intros i Hi. rewrite lookup_alter_ne by done. by apply Hrot.
Qed.

Lemma shift_rotated_spec n d :
  d !! rotated_path (S n) = None ->
  exists d', shift_rotated n d = Ok d' /\ d' !! wal_path = d !! wal_path /\
    d' !! rotated_path 1 = None /\
    (forall i, (0 < i <= n)%nat -> d' !! rotated_path (S i) = d !! rotated_path i) /\
    (forall i, (S n < i)%nat -> d' !! rotated_path i = d !! rotated_path i).
Proof.
  revert d. induction n as [|n IH]; intros d Hd.
  { exists d. split_and!; (done || lia). }
  cbn [shift_rotated].
  set (d1 := if file_exists _ d then _ else _).
  assert (exists d1', d1 = Ok d1' /\ d1' !! rotated_path (S n) = None /\
    d1' !! rotated_path (S (S n)) = d !! rotated_path (S n) /\
    (forall p, p <> rotated_path (S n) -> p <> rotated_path (S (S n)) -> d1' !! p = d !! p))
    as (d1' & -> & Hn & Hsn & Hother).
  { unfold d1, file_exists, rename. destruct (d !! rotated_path (S n)) as [f|] eqn:Hf.
    - eexists. split; [done|]. split_and!.
      + rewrite lookup_insert_ne by (unfold rotated_path; lia). apply lookup_delete_eq.
      + apply lookup_insert_eq.
      + intros p Hp1 Hp2. by rewrite lookup_insert_ne, lookup_delete_ne by done.
    - exists d. split_and!; try done. }
  destruct (IH d1' Hn) as (d' & Hshift & Hp & H1 & Hi & Hgt).
  exists d'. cbn [result_bind]. split_and!; [done|..].
  - rewrite Hp. apply Hother; done.
  - done.
  - intros i Hin. destruct (decide (i = S n)) as [->|].
    + by rewrite Hgt by lia.
    + rewrite Hi by lia. apply Hother; unfold rotated_path; lia.
  - intros i Hin. rewrite Hgt by lia. apply Hother; unfold rotated_path; lia.
Qed.

(** The disk after the copies have been shifted: copy [i + 1] is the old copy [i]. *)
Lemma shift_retained retain d :
  exists d',
    shift_rotated (retain - 1)
      (if file_exists (rotated_path retain) d then delete (rotated_path retain) d else d) = Ok d' /\
    d' !! wal_path = d !! wal_path /\
    (forall i, (0 < i < retain)%nat -> d' !! rotated_path (S i) = d !! rotated_path i).
Proof.
  set (d0 := if file_exists _ d then _ else d).
  assert (Hd : forall p, p <> rotated_path retain -> d0 !! p = d !! p).
  { intros p Hp. unfold d0. destruct (file_exists _ d); [by rewrite lookup_delete_ne|done]. }
  assert (Hd0 : d0 !! rotated_path retain = None).
  { unfold d0, file_exists. destruct (d !! rotated_path retain) eqn:Hf; [apply lookup_delete_eq|done]. }
  destruct retain as [|n].
  { exists d0. split_and!; [done|by apply Hd|lia]. }
  replace (S n - 1)%nat with n by lia.
  destruct (shift_rotated_spec n d0 Hd0) as (d' & Hs & Hp & _ & Hi & _).
  exists d'. split_and!; [done|rewrite Hp; by apply Hd|].
  intros i Hin. rewrite Hi by lia. apply Hd. unfold rotated_path. lia.
Qed.

(** Rotation makes the current segment the first copy and drops what is beyond the
    retention. *)
Lemma rotate_inv m cur old :
  wal_inv m cur old -> cur <> [] -> segment_large (max_file_size m) cur ->
  exists m', rotate m = Ok m' /\ wal_inv m' [] (cur :: old) /\
    retain_count m' = retain_count m /\ max_file_size m' = max_file_size m.
Proof.
  intros Hinv Hne Hlarge. apply wal_sync_inv in Hinv.
  assert (Hr : retain_count (wal_sync m) = retain_count m) by (unfold wal_sync; by destruct (0 <? _)).
  assert (Hm : max_file_size (wal_sync m) = max_file_size m) by (unfold wal_sync; by destruct (0 <? _)).
  unfold rotate. destruct Hinv as [Hcur Hrot [Hwf Hwfs] Hold]. rewrite Hr, Hm in *.
  destruct (shift_retained (retain_count m) (wdisk (wal_sync m))) as (d' & -> & Hp & Hshift).
  cbn [result_bind]. unfold rename. rewrite Hp.
  destruct (wdisk (wal_sync m) !! wal_path) as [f|]; simplify_eq/=.
  eexists. split; [done|]. split; [|done]. unfold wal_open.
  rewrite lookup_insert_ne, lookup_delete_eq by done. constructor; simpl.
  - by rewrite lookup_insert_eq, file_of_nil.
  - intros i Hi. rewrite lookup_insert_ne by done. destruct i as [|i].
    + rewrite lookup_insert_eq. simpl. by rewrite Hcur.
    + rewrite lookup_insert_ne, lookup_delete_ne by done. rewrite Hshift by lia. apply Hrot. lia.
  - split; [done|]. by constructor.
  - by constructor.
Qed.

Lemma append_inv m cur old r :
  wal_inv m cur old -> record_wf r ->
  exists m' cur' old', wal_append m r = Ok m' /\ wal_inv m' cur' old' /\
    concat (rev (cur' :: old')) = concat (rev (cur :: old)) ++ [r] /\
    (cur' <> [] \/ exists rs, head old' = Some rs /\ last rs = Some r) /\
    (cur' <> [] -> last cur' = Some r) /\
    retain_count m' = retain_count m /\ max_file_size m' = max_file_size m.
Proof.
  intros Hinv Hr. pose proof (writer_append_inv m cur old r Hinv Hr) as Hinv'. unfold wal_append.
  pose proof (inv_current _ _ _ Hinv') as Hcur.
  destruct (wdisk (writer_append m r) !! wal_path) as [f|]; simplify_eq/=.
  destruct (Z.ltb_spec (max_file_size m) (file_len f)) as [Hgt|Hle].
  - destruct (rotate_inv _ _ _ Hinv') as (m' & -> & Hinv'' & Hret & Hmax).
    + by destruct cur.
    + unfold segment_large, file_len in *. simpl. by rewrite <- Hcur.
    + exists m', [], ((cur ++ [r]) :: old). split_and!; try done.
      * simpl. rewrite !concat_app. simpl. by rewrite !app_nil_r, app_assoc.
      * right. exists (cur ++ [r]). by rewrite last_snoc.
  - exists (writer_append m r), (cur ++ [r]), old. split_and!; try done.
    + simpl. rewrite !concat_app. simpl. by rewrite !app_nil_r, app_assoc.
    + left. by destruct cur.
    + intros _. by rewrite last_snoc.
Qed.

Lemma replay_rotated_segments n d old :
  (forall i, (i < n)%nat -> contents <$> d !! rotated_path (S i) = file_of <$> old !! i) ->
  Forall (Forall record_wf) old ->
  replay_rotated n d = Ok (concat (rev (take n old))).
Proof.
  intros Hrot Hwf. induction n as [|n IH]; [done|]. cbn [replay_rotated].
  rewrite IH by (intros; apply Hrot; lia). pose proof (Hrot n ltac:(lia)) as Hn.
  unfold file_exists, read_path. destruct (old !! n) as [rs|] eqn:Hold.
  - erewrite take_S_r by done. rewrite rev_app_distr. cbn [rev app concat].
    destruct (d !! rotated_path (S n)) as [f|]; simplify_eq/=. rewrite Hn.
    rewrite read_file_of by by eapply Forall_lookup_1. done.
  - destruct (d !! rotated_path (S n)) as [f|]; simplify_eq/=.
    apply lookup_ge_None in Hold. by rewrite !take_ge by lia.
Qed.

Lemma replay_all_segments m cur old :
  wal_inv m cur old -> replay_all m = Ok (concat (rev (cur :: take (retain_count m) old))).
Proof.
  intros [Hcur Hrot [Hwf Hwfs] _]. unfold replay_all, replay_old, replay, read_path.
  rewrite (replay_rotated_segments _ _ old) by done. cbn [result_bind].
  destruct (wdisk m !! wal_path) as [f|]; simplify_eq/=. rewrite Hcur, read_file_of by done.
  cbn [result_bind]. rewrite concat_app. simpl. by rewrite app_nil_r.
Qed.

Lemma append_all_inv m cur old rs :
  wal_inv m cur old -> Forall record_wf rs ->
  exists m' cur' old', append_all m rs = Ok m' /\ wal_inv m' cur' old' /\
    concat (rev (cur' :: old')) = concat (rev (cur :: old)) ++ rs /\
    retain_count m' = retain_count m /\ max_file_size m' = max_file_size m.
Proof.
  intros Hinv Hrs. revert m cur old Hinv. induction Hrs as [|r rs Hr _ IH]; intros m cur old Hinv.
  { exists m, cur, old. split_and!; try done. by rewrite app_nil_r. }
  destruct (append_inv m cur old r Hinv Hr) as (m1 & cur1 & old1 & Happ & Hinv1 & Hcat & _ & _ & Hret & Hmax).
  destruct (IH m1 cur1 old1 Hinv1) as (m2 & cur2 & old2 & Happ2 & Hinv2 & Hcat2 & Hret2 & Hmax2).
  exists m2, cur2, old2. cbn [append_all]. rewrite Happ. cbn [result_bind].
  split_and!; [done|done| |congruence|congruence]. by rewrite Hcat2, Hcat, <- app_assoc.
Qed.

(** The bytes the records of a run take in the log. *)
Definition payload (rs : list WalRecord) : Z := Z.of_nat (length (flat_map encode rs)).

Lemma payload_app rs rs' : payload (rs ++ rs') = payload rs + payload rs'.
Proof. unfold payload. rewrite flat_map_app, length_app. lia. Qed.

(** Each rotated segment holds more than [max_size - 8] payload bytes. *)
Lemma segments_payload max_size old :
  Forall (fun rs => rs <> [] /\ segment_large max_size rs) old ->
  Z.of_nat (length old) * (max_size - 7) <= payload (concat (rev old)).
Proof.
  induction 1 as [|rs old [_ Hlarge] _ IH]; [done|]. cbn [rev length].
  rewrite concat_app, payload_app. simpl. rewrite app_nil_r. unfold segment_large in Hlarge.
  rewrite file_of_length in Hlarge. unfold payload in *. lia.
Qed.

(** Appending to a fresh log always succeeds, through any number of rotations,
    and a full replay returns a suffix of what was appended, in order; it returns
    everything as long as the payload stays below what the retained files hold,
    [retain_count + 1] segments of [max_file_size - 7] bytes. *)
Theorem wal_replay_all_suffix (max_size : Z) (retain : nat) (rs : list WalRecord)
  (Hrs : Forall record_wf rs) :
  exists m lost kept,
    append_all (wal_manager_new ∅ max_size retain) rs = Ok m /\
    rs = lost ++ kept /\ replay_all m = Ok kept /\
    (7 < max_size -> payload rs < (Z.of_nat retain + 1) * (max_size - 7) -> lost = []).
Proof.
  destruct (append_all_inv _ _ _ rs (wal_inv_new max_size retain) Hrs)
    as (m & cur & old & Happ & Hinv & Hcat & Hret & Hmax).
  exists m, (concat (rev (drop retain old))), (concat (rev (cur :: take retain old))).
  change (concat (rev [[]]) ++ rs) with rs in Hcat. cbn [retain_count max_file_size wal_manager_new] in *.
  assert (Hsplit : concat (rev old) = concat (rev (drop retain old)) ++ concat (rev (take retain old))).
  { rewrite <- concat_app, <- rev_app_distr, take_drop. done. }
  cbn [rev] in Hcat |- *. rewrite !concat_app in *. simpl in *. rewrite app_nil_r in *. split_and!.
  - done.
  - rewrite <- Hcat, Hsplit. by rewrite app_assoc.
  - rewrite (replay_all_segments m cur old Hinv), Hret. cbn [rev]. rewrite concat_app. simpl.
    by rewrite app_nil_r.
  - intros Hpos Hpay. pose proof (inv_old _ _ _ Hinv) as Hold. rewrite Hmax in Hold.
    pose proof (segments_payload _ _ Hold) as Hseg. rewrite <- Hcat, payload_app in Hpay.
    assert (0 <= payload cur) by (unfold payload; lia).
    assert (length old <= retain)%nat by nia. by rewrite drop_ge by done.
Qed.

(** ** Runs

    The appends of the handlers, with the explicit fsyncs and those of the background
    thread between them in any order. *)
Inductive log_op : Type := LogAppend (r : WalRecord) | LogSync.

Fixpoint log_run (m : WalManager) (ops : list log_op) : result WalManager io_error :=
  match ops with
  | [] => Ok m
  | LogAppend r :: ops => let? m := wal_append m r in log_run m ops
  | LogSync :: ops => log_run (wal_sync m) ops
  end.

Definition log_op_wf (o : log_op) : Prop := match o with LogAppend r => record_wf r | LogSync => True end.

#[export] Instance log_op_wf_dec o : Decision (log_op_wf o).
Proof. destruct o; apply _. Defined.

(** ** Crashes

    A crash keeps of every file some prefix that contains its fsynced bytes; file
    creations, renames and deletions are taken to be durable when they return. *)
Definition crash (d d' : disk) : Prop :=
  forall p, match d !! p, d' !! p with
            | Some f, Some f' => (durable f <= length (contents f') <= length (contents f))%nat /\
                                 contents f' = take (length (contents f')) (contents f)
            | None, None => True
            | _, _ => False
            end.

Definition file_synced (f : log_file) : Prop := durable f = length (contents f).

(** The records of the current file that are not counted as unsynced. *)
Definition synced (m : WalManager) (cur : list WalRecord) : nat :=
  (length cur - Z.to_nat (unsynced_count m))%nat.

(** Copies are fully fsynced, and the current file is up to its last synced record; if there
    is none, not even the header need be. *)
Record durable_inv (m : WalManager) (cur : list WalRecord) : Prop := {
  dur_count : 0 <= unsynced_count m <= Z.of_nat (length cur);
  dur_rotated : forall n f, wdisk m !! rotated_path n = Some f -> file_synced f;
  dur_current : forall f, wdisk m !! wal_path = Some f -> synced m cur <> 0%nat ->
    (length (file_of (take (synced m cur) cur)) <= durable f)%nat;
}.

Lemma durable_inv_new max_size retain : durable_inv (wal_manager_new ∅ max_size retain) [].
Proof.
  assert (Hopen : wdisk (wal_manager_new ∅ max_size retain) = {[wal_path := mkFile file_header 0]}) by done.
  constructor; [simpl; lia|..]; rewrite Hopen; [|done].
  intros n f. by rewrite lookup_singleton_ne.
Qed.

Lemma writer_append_durable m cur r :
  durable_inv m cur -> Z.of_nat (length cur) + 1 < 2 ^ 64 ->
  durable_inv (writer_append m r) (cur ++ [r]) /\ 0 < unsynced_count (writer_append m r).
Proof.
  intros [Hc Hrot Hcur] Hk.
  assert (Hu : unsynced_count (writer_append m r) = unsynced_count m + 1)
    by (cbn; unfold wrap; apply Z.mod_small; lia).
  split; [|lia]. assert (Hs : synced (writer_append m r) (cur ++ [r]) = synced m cur).
  { unfold synced. rewrite Hu, length_app. simpl. lia. }
  constructor; rewrite ?Hs, ?Hu.
  - rewrite length_app. simpl. lia.
  - intros n f. simpl. rewrite lookup_alter_ne by done. apply Hrot.
  - intros f. simpl. rewrite lookup_alter_eq. destruct (wdisk m !! wal_path) as [g|]; intros; simplify_eq/=.
    rewrite take_app_le by (unfold synced; lia). by apply Hcur.
Qed.

(** After [sync] nothing is unsynced, and what was is fsynced. *)
Lemma wal_sync_durable m cur old :
  wal_inv m cur old -> durable_inv m cur ->
  durable_inv (wal_sync m) cur /\ unsynced_count (wal_sync m) = 0 /\
  (0 < unsynced_count m -> forall f, wdisk (wal_sync m) !! wal_path = Some f -> file_synced f).
Proof.
  intros Hinv [Hc Hrot Hcur]. pose proof (inv_current _ _ _ Hinv) as Hcont.
  unfold wal_sync. destruct (Z.ltb_spec 0 (unsynced_count m)); [|split_and!; [by constructor|lia|lia]].
  assert (Hs : forall f, alter (fun f => mkFile (contents f) (length (contents f))) wal_path (wdisk m) !! wal_path
    = Some f -> file_synced f /\ contents f = file_of cur).
  { intros f. rewrite lookup_alter_eq. by destruct (wdisk m !! wal_path); intros; simplify_eq/=. }
  split_and!; [|done|intros _ f Hf; by apply Hs]. constructor; simpl; [lia| |].
  - intros n f. rewrite lookup_alter_ne by done. apply Hrot.
  - intros f Hf _. destruct (Hs f Hf) as [Hsyn Hf']. unfold file_synced in Hsyn. rewrite Hsyn, Hf', !file_of_length.
    by apply Nat.add_le_mono_l, flat_map_take_le.
Qed.

Lemma shift_rotated_source n d d' p f :
  shift_rotated n d = Ok d' -> d' !! rotated_path p = Some f ->
  exists q, d !! rotated_path q = Some f.
Proof.
  revert d. induction n as [|n IH]; intros d; cbn [shift_rotated].
  { intros; simplify_eq. eauto. }
  unfold file_exists, rename. destruct (d !! rotated_path (S n)) as [g|] eqn:Hg; cbn [result_bind].
  - intros Hs Hf. destruct (IH _ Hs Hf) as (q & Hq).
    destruct (decide (q = S (S n))) as [->|Hne].
    + rewrite lookup_insert_eq in Hq. simplify_eq. eauto.
    + rewrite lookup_insert_ne in Hq by (unfold rotated_path; lia).
      apply lookup_delete_Some in Hq as [_ Hq]. eauto.
  - apply IH.
Qed.

Lemma rotate_durable m cur old m' :
  wal_inv m cur old -> durable_inv m cur -> 0 < unsynced_count m -> rotate m = Ok m' -> durable_inv m' [].
Proof.
  intros Hinv Hd Hun. destruct (wal_sync_durable m cur old Hinv Hd) as (Hd' & _ & Hcur). specialize (Hcur Hun).
  unfold rotate. destruct Hd' as [_ Hrot _].
  destruct (shift_rotated _ _) as [d'|] eqn:Hs; [|done]. cbn [result_bind]. unfold rename.
  destruct (d' !! wal_path) as [f0|] eqn:Hf0; [|done]. cbn [result_bind]. intros [= <-].
  assert (Hf : d' !! wal_path = wdisk (wal_sync m) !! wal_path).
  { destruct (shift_retained (retain_count (wal_sync m)) (wdisk (wal_sync m))) as (d1 & Hs1 & Hp & _).
    rewrite Hs in Hs1. by simplify_eq. }
  rewrite Hf0 in Hf. symmetry in Hf. apply Hcur in Hf.
  unfold wal_open. rewrite lookup_insert_ne, lookup_delete_eq by done.
  constructor; simpl; [lia| |done]. intros n f. rewrite lookup_insert_ne by done.
  destruct (decide (n = 1%nat)) as [->|Hne].
  { rewrite lookup_insert_eq. by intros [= <-]. }
  rewrite lookup_insert_ne, lookup_delete_ne by (done || unfold rotated_path; lia). intros Hn.
  destruct (shift_rotated_source _ _ _ _ _ Hs Hn) as (q & Hq).
  destruct (file_exists _ _); [|by eapply Hrot]. apply lookup_delete_Some in Hq as [_ Hq]. by eapply Hrot.
Qed.

(** The log of a run: what the files hold, how much of it is fsynced, and the parameters. *)
Record log_state (max_size : Z) (retain : nat) (m : WalManager) (rs : list WalRecord)
    (cur : list WalRecord) (old : list (list WalRecord)) : Prop := {
  ls_inv : wal_inv m cur old;
  ls_records : concat (rev (cur :: old)) = rs;
  ls_durable : durable_inv m cur;
  ls_retain : retain_count m = retain;
  ls_size : max_file_size m = max_size;
}.

Lemma log_state_new max_size retain : log_state max_size retain (wal_manager_new ∅ max_size retain) [] [] [].
Proof. constructor; [apply wal_inv_new|done|apply durable_inv_new|done|done]. Qed.

Lemma log_state_split max_size retain m rs cur old :
  log_state max_size retain m rs cur old -> rs = concat (rev old) ++ cur.
Proof. intros [_ <- _ _ _]. simpl. rewrite concat_app. simpl. by rewrite app_nil_r. Qed.

Lemma log_state_sync max_size retain m rs cur old :
  log_state max_size retain m rs cur old -> log_state max_size retain (wal_sync m) rs cur old.
Proof.
  intros [Hinv Hrs Hd <- <-]. constructor; [by apply wal_sync_inv|done|by eapply wal_sync_durable|..];
    unfold wal_sync; by destruct (0 <? _).
Qed.

(** An append adds its record; either the file is rotated, and nothing is unsynced, or the record is. *)
Lemma log_state_append max_size retain m rs cur old r :
  log_state max_size retain m rs cur old -> record_wf r -> Z.of_nat (length rs) + 1 < 2 ^ 64 ->
  exists m' cur' old', wal_append m r = Ok m' /\ log_state max_size retain m' (rs ++ [r]) cur' old' /\
    (unsynced_count m' = 0 \/ unsynced_count m' = unsynced_count m + 1).
Proof.
  intros Hl Hr Hlen. pose proof (log_state_split _ _ _ _ _ _ Hl) as Hsplit. destruct Hl as [Hinv Hrs Hd Hret Hmax].
  assert (Hcl : (length cur <= length rs)%nat) by (rewrite Hsplit, length_app; lia).
  pose proof (writer_append_inv m cur old r Hinv Hr) as Hinv'.
  destruct (writer_append_durable m cur r Hd ltac:(lia)) as [Hd' Hun].
  assert (Hu : unsynced_count (writer_append m r) = unsynced_count m + 1).
  { pose proof (dur_count _ _ Hd). cbn. unfold wrap. apply Z.mod_small. lia. }
  pose proof (inv_current _ _ _ Hinv') as Hcur. unfold wal_append.
  destruct (wdisk (writer_append m r) !! wal_path) as [f|]; simplify_eq/=.
  destruct (Z.ltb_spec (max_file_size m) (file_len f)) as [Hgt|Hle].
  - destruct (rotate_inv _ _ _ Hinv') as (m' & Hrot & Hinv'' & Hret' & Hmax').
    + by destruct cur.
    + unfold segment_large, file_len in *. simpl. by rewrite <- Hcur.
    + exists m', [], ((cur ++ [r]) :: old). split_and!; [done| |].
      * constructor; [done| |by apply (rotate_durable _ _ _ _ Hinv' Hd')|done|done].
        simpl. rewrite !concat_app. simpl. by rewrite !app_nil_r, app_assoc.
      * left. unfold rotate in Hrot. destruct (shift_rotated _ _) as [d|]; [|done]. cbn [result_bind] in Hrot.
        destruct (rename _ _ d); [|done]. cbn [result_bind] in Hrot. by injection Hrot as <-.
  - exists (writer_append m r), (cur ++ [r]), old. split_and!; [done| |by right].
    constructor; [done| |done|done|done]. simpl. rewrite !concat_app. simpl. by rewrite !app_nil_r, app_assoc.
Qed.

Definition log_records (ops : list log_op) : list WalRecord :=
  omap (fun o => match o with LogAppend r => Some r | LogSync => None end) ops.

Lemma log_run_state max_size retain ops : forall m rs cur old,
  log_state max_size retain m rs cur old -> Forall log_op_wf ops ->
  Z.of_nat (length rs) + Z.of_nat (length ops) < 2 ^ 64 ->
  exists m' cur' old', log_run m ops = Ok m' /\ log_state max_size retain m' (rs ++ log_records ops) cur' old'.
Proof.
  induction ops as [|[r|] ops IH]; intros m rs cur old Hl Hwf Hlen.
  - exists m, cur, old. split; [done|]. by rewrite app_nil_r.
  - apply Forall_cons in Hwf as [Hr Hwf]. cbn [length] in Hlen.
    destruct (log_state_append _ _ _ _ _ _ r Hl Hr ltac:(lia)) as (m1 & cur1 & old1 & Happ & Hl1 & _).
    cbn [log_run]. rewrite Happ. cbn [result_bind]. destruct (IH m1 _ _ _ Hl1 Hwf) as (m' & cur' & old' & Hrun & Hl').
    { rewrite length_app. simpl. lia. }
    exists m', cur', old'. split; [done|]. cbn [log_records omap list_omap]. by rewrite <- app_assoc in Hl'.
  - apply Forall_cons in Hwf as [_ Hwf]. cbn [length] in Hlen. cbn [log_run].
    apply log_state_sync in Hl. apply (IH _ _ _ _ Hl Hwf). lia.
Qed.

(** The current file after a crash is one that an append tore, in a record or in the header. *)
Definition torn (d' : disk) : Prop :=
  exists f', d' !! wal_path = Some f' /\ contents f' <> [] /\ forall rs, Forall record_wf rs -> contents f' <> file_of rs.

Lemma reopen_rotated m d' i cur old :
  wal_inv m cur old -> durable_inv m cur -> crash (wdisk m) d' -> (i < retain_count m)%nat ->
  contents <$> wal_open d' !! rotated_path (S i) = file_of <$> old !! i.
Proof.
  intros [_ Hrot _ _] [_ Hdr _] Hcrash Hi. rewrite <- Hrot by done.
  assert (Hopen : wal_open d' !! rotated_path (S i) = d' !! rotated_path (S i)).
  { unfold wal_open. destruct (match d' !! wal_path with Some _ => _ | None => _ end); [|done].
    by rewrite lookup_insert_ne. }
  rewrite Hopen. pose proof (Hcrash (rotated_path (S i))) as Hp.
  destruct (wdisk m !! rotated_path (S i)) as [f|] eqn:Hf, (d' !! rotated_path (S i)) as [f'|]; try done.
  destruct Hp as [Hlen Htake]. simpl. f_equal. rewrite Htake. apply take_ge.
  pose proof (Hdr (S i) f Hf) as Hs. unfold file_synced in Hs. lia.
Qed.

(** Where a crash cuts the current file: at a record at or after the synced ones, or not at a record. *)
Lemma crash_current m cur old d' :
  wal_inv m cur old -> durable_inv m cur -> crash (wdisk m) d' ->
  (exists n, (synced m cur <= n <= length cur)%nat /\
     contents <$> wal_open d' !! wal_path = Some (file_of (take n cur))) \/
  (torn d' /\ wal_open d' = d' /\ read_path wal_path d' = Err UnexpectedEof /\
   (synced m cur < length cur \/ cur = [])%nat).
Proof.
  intros [Hcur _ [Hwf _] _] [_ _ Hdc] Hcrash. pose proof (Hcrash wal_path) as Hp.
  unfold torn, read_path, wal_open. destruct (wdisk m !! wal_path) as [f|] eqn:Hf; [|done].
  destruct (d' !! wal_path) as [f'|] eqn:Hf'; [|done]. destruct Hp as [Hlen Htake]. specialize (Hdc f eq_refl).
  simplify_eq/=. rewrite Hcur in Hlen, Htake.
  assert (Hlow : forall k, (k <= length cur)%nat -> length (contents f') = length (file_of (take k cur)) ->
                 (synced m cur <= k)%nat).
  { intros k Hk Hlk. destruct (decide (synced m cur = 0%nat)) as [|Hs]; [lia|]. specialize (Hdc Hs).
    apply Nat.nlt_ge. intros Hlt. assert (Hsp : take (synced m cur) cur =
      take k cur ++ take (synced m cur - k) (drop k cur)) by (rewrite take_take_drop; f_equal; lia).
    rewrite Hsp, !file_of_length, flat_map_app, length_app in Hdc.
    pose proof (flat_map_encode_length (take (synced m cur - k) (drop k cur))) as Hpos.
    rewrite length_take, length_drop in Hpos. rewrite file_of_length in Hlk. unfold synced in *. lia. }
  destruct (Nat.eqb_spec (length (contents f')) 0) as [H0|H0].
  { left. exists 0%nat. rewrite lookup_insert_eq. simpl. rewrite take_0, file_of_nil. split; [|done].
    destruct (decide (synced m cur = 0%nat)) as [|Hs]; [lia|]. specialize (Hdc Hs).
    rewrite file_of_length in Hdc. lia. }
  destruct (read_truncated cur _ Hwf (proj2 Hlen)) as [(k & Hk & Heq & _)|[Hne Herr]]; rewrite <- Htake in *.
  - left. exists k. rewrite Hf'. simpl. rewrite <- Heq. split; [|done]. split; [|done].
    apply Hlow; [done|]. by rewrite Heq.
  - right. split_and!; [|done|done|].
    + exists f'. split_and!; [done|by destruct (contents f')|]. intros rs Hrs Hc.
      rewrite Hc, read_file_of in Herr by done. done.
    + destruct (decide (synced m cur < length cur)%nat) as [|Hge]; [by left|]. right.
      destruct cur as [|r cur]; [done|]. exfalso. specialize (Hne (length (r :: cur))). rewrite firstn_all in Hne.
      assert (Hs : synced m (r :: cur) <> 0%nat) by (simpl in *; lia). specialize (Hdc Hs).
      rewrite take_ge in Hdc by lia. lia.
Qed.

(** Reopening after a crash: the files hold again what they held, but for records that were not
    synced, or an append was torn and reading the log fails. *)
Lemma crash_reopen max_size retain m rs cur old d' :
  log_state max_size retain m rs cur old -> crash (wdisk m) d' ->
  (exists n, (synced m cur <= n <= length cur)%nat /\
     wal_inv (wal_manager_new d' max_size retain) (take n cur) old) \/
  (torn d' /\ replay_all (wal_manager_new d' max_size retain) = Err UnexpectedEof /\
   replay_old (wal_manager_new d' max_size retain) = Ok (concat (rev (take retain old))) /\
   (synced m cur < length cur \/ cur = [])%nat).
Proof.
  intros [Hinv _ Hd <- <-] Hcrash.
  pose proof (fun i => reopen_rotated m d' i cur old Hinv Hd Hcrash) as Hrot.
  pose proof Hinv as [_ _ [Hwf Hwfs] Hold].
  destruct (crash_current m cur old d' Hinv Hd Hcrash) as [(n & Hn & Hcur)|(Ht & Hopen & Herr & Hs)].
  - left. exists n. split; [done|]. constructor; [done|done| |done]. split; [by apply Forall_take|done].
  - right. assert (Hrep : replay_old (wal_manager_new d' (max_file_size m) (retain_count m)) =
      Ok (concat (rev (take (retain_count m) old)))) by (apply replay_rotated_segments; done).
    split_and!; [done| |done|done]. unfold replay_all. rewrite Hrep. cbn [result_bind].
    unfold replay, wal_manager_new; cbn [wdisk]. rewrite Hopen, Herr. done.
Qed.

(** C2. Durability of [sync]: for every run of appends and fsyncs on a fresh log, with
    rotations as they come, followed by [sync] and a crash, reopening the log replays exactly
    what it would have replayed before the crash, with one exception: when nothing was appended
    since the log was created or last rotated, [sync] does not fsync its eight header bytes, and
    if the crash tears them the replay fails with [UnexpectedEof], although the rotated files
    still hold all records. *)
Theorem wal_sync_survives_crash (max_size : Z) (retain : nat) (ops : list log_op)
  (d' : disk) (m : WalManager)
  (Hops : Forall log_op_wf ops) (Hlen : Z.of_nat (length ops) < 2 ^ 64)
  (Hm : log_run (wal_manager_new ∅ max_size retain) ops = Ok m)
  (Hcrash : crash (wdisk (wal_sync m)) d') :
  replay_all (wal_manager_new d' max_size retain) = replay_all (wal_sync m) \/
  (contents <$> wdisk (wal_sync m) !! wal_path = Some file_header /\
   (exists f', d' !! wal_path = Some f' /\ (0 < length (contents f') < 8)%nat) /\
   replay_all (wal_manager_new d' max_size retain) = Err UnexpectedEof /\
   replay_old (wal_manager_new d' max_size retain) = replay_all (wal_sync m)).
Proof.
  destruct (log_run_state max_size retain ops _ _ _ _ (log_state_new max_size retain) Hops)
    as (m1 & cur & old & Hrun & Hl); [simpl; lia|]. rewrite Hm in Hrun. injection Hrun as <-.
  destruct (wal_sync_durable m cur old (ls_inv _ _ _ _ _ _ Hl) (ls_durable _ _ _ _ _ _ Hl)) as (_ & Hun & _).
  apply log_state_sync in Hl. pose proof Hl as [Hinv _ _ Hret _].
  assert (Hsyn : synced (wal_sync m) cur = length cur) by (unfold synced; rewrite Hun; simpl; lia).
  rewrite (replay_all_segments _ _ _ Hinv), Hret.
  destruct (crash_reopen _ _ _ _ _ _ _ Hl Hcrash) as [(n & Hn & Hinv')|(Ht & Herr & Hold & Hs)].
  - left. rewrite Hsyn in Hn. rewrite (replay_all_segments _ _ _ Hinv'). cbn [retain_count wal_manager_new].
    by rewrite take_ge by lia.
  - right. destruct Hs as [Hs| ->]; [lia|]. pose proof (inv_current _ _ _ Hinv) as Hhead.
    rewrite file_of_nil in Hhead. split_and!; [done| |done|by rewrite Hold; simpl; rewrite concat_app, app_nil_r].
    destruct Ht as (f' & Hf' & Hne & Hnf). exists f'. split; [done|].
    pose proof (Hcrash wal_path) as Hp. rewrite Hf' in Hp.
    destruct (wdisk (wal_sync m) !! wal_path) as [f|]; simplify_eq/=. rewrite Hhead in Hp. destruct Hp as [Hlen' Htake].
    assert (H8 : length file_header = 8%nat) by (rewrite <- file_of_nil, file_of_length; done).
    specialize (Hnf [] ltac:(done)). rewrite file_of_nil in Hnf. split; [by destruct (contents f'); simpl; [|lia]|].
    apply Nat.nle_gt. intros Hge. apply Hnf. rewrite Htake. apply take_ge. lia.
Qed.

Lemma wal_replay_all_suffix_witness :
  exists m lost kept,
    append_all (wal_manager_new ∅ 40 1) [sample_record; sample_other] = Ok m /\
    [sample_record; sample_other] = lost ++ kept /\ replay_all m = Ok kept /\
    (7 < 40 -> payload [sample_record; sample_other] < (Z.of_nat 1 + 1) * (40 - 7) -> lost = []).
Proof. apply (wal_replay_all_suffix 40 1 [sample_record; sample_other] sample_records_wf). Defined.

(** A log with one synced record. *)
Definition sample_log : WalManager := writer_append (wal_manager_new ∅ 1000 3) sample_record.

Lemma sample_log_disk :
  wdisk (wal_sync sample_log) =
  {[wal_path := mkFile (file_header ++ encode sample_record) (length (file_header ++ encode sample_record))]}.
Proof. done. Qed.

Lemma wal_sync_survives_crash_witness :
  replay_all (wal_manager_new (wdisk (wal_sync sample_log)) 1000 3) = replay_all (wal_sync sample_log).
Proof.
  destruct (wal_sync_survives_crash 1000 3 [LogAppend sample_record] (wdisk (wal_sync sample_log)) sample_log)
    as [Heq|(Hhead & _)].
  - constructor; [|done]. apply sample_record_wf.
  - simpl. lia.
  - vm_compute. reflexivity.
  - intros p. rewrite sample_log_disk. destruct (decide (p = wal_path)) as [->|].
    + rewrite lookup_singleton_eq. cbn [contents durable]. split; [lia|]. symmetry. by apply take_ge.
    + by rewrite lookup_singleton_ne.
  - exact Heq.
  - vm_compute in Hhead. discriminate.
Defined.

(** The exception of the theorem above: a record fills the file, which is rotated; [sync] then
    finds nothing to do, a crash keeps three bytes of the new file, and no record can be read. *)
Theorem unsynced_header_torn :
  exists m d', log_run (wal_manager_new ∅ 20 3) [LogAppend sample_record; LogSync] = Ok m /\
    replay_all m = Ok [sample_record] /\ crash (wdisk (wal_sync m)) d' /\
    replay_all (wal_manager_new d' 20 3) = Err UnexpectedEof.
Proof.
  set (full := file_of [sample_record]).
  exists (mkManager (<[wal_path := mkFile file_header 0]> {[rotated_path 1 := mkFile full (length full)]}) 0 0 20 3),
    (<[wal_path := mkFile (take 3 file_header) 0]> {[rotated_path 1 := mkFile full (length full)]}).
  split_and!; [vm_compute; reflexivity|vm_compute; reflexivity| |vm_compute; reflexivity].
  intros p. cbn [wal_sync wdisk unsynced_count Z.ltb Z.compare].
  destruct (decide (p = wal_path)) as [->|]; [rewrite !lookup_insert_eq; vm_compute; split; [lia|done]|].
  rewrite !lookup_insert_ne by done. destruct (decide (p = rotated_path 1)) as [->|]; [|by rewrite !lookup_singleton_ne].
  rewrite !lookup_singleton_eq. cbn [contents durable]. split; [lia|]. by rewrite take_ge.
Qed.

End WalManager.
