(* ===== verification/ContextPool.v ===== *)
(** * Workflow context pool ([velocity-workflow-engine/src/workflow_slab_pool.rs])

    [WorkflowContextPool], the fixed-capacity table that holds every live
    [WorkflowContext] by key: a bucket index, the slot array, the contexts and a
    stack of free slots, all under one mutex.  The pool is polymorphic here in the
    type of contexts.  Under buckets without collisions it refines a bounded
    finite map; a removal in a shared bucket makes the other key unreachable. *)

From S2P Require Import Prelude Slots SlotMap.

Module ContextPool.

Definition WORKFLOW_POOL_CAPACITY : nat := Z.to_nat 8192.
Definition KEY_SLOT_EMPTY : Z := U16_MAX.

Record PoolSlot : Type := mkPoolSlot {
  key : Z;
  active : bool;
}.

Definition PoolSlot_empty : PoolSlot := mkPoolSlot 0 false.

Record WorkflowPoolInner (C : Type) : Type := mkPool {
  key_index : list Z;
  slots : list PoolSlot;
  contexts : list (option C);
  free_list : list Z;
  active_count : Z;
  total_inserted : Z;
  total_removed : Z;
}.
Arguments mkPool {C}.
Arguments key_index {C}.
Arguments slots {C}.
Arguments contexts {C}.
Arguments free_list {C}.
Arguments active_count {C}.
Arguments total_inserted {C}.
Arguments total_removed {C}.

Section pool.
Context {C : Type}.
Implicit Types (p : WorkflowPoolInner C) (k : Z) (c : C).

(** [(0..n).rev().collect()]. *)
Fixpoint rev_range (n : nat) (from : Z) (acc : list Z) : list Z :=
  match n with
  | O => acc
  | S n => rev_range n (from + 1) (from :: acc)
  end.

Lemma rev_range_seqZ n from acc : rev_range n from acc = reverse (seqZ from (Z.of_nat n)) ++ acc.
Proof.
  revert from acc. induction n as [|n IH]; intros from acc; [done|]. cbn [rev_range].
  rewrite IH, (seqZ_cons from (Z.of_nat (S n))) by lia. rewrite reverse_cons, <- app_assoc.
  by replace (Z.pred (Z.of_nat (S n))) with (Z.of_nat n) by lia.
Qed.

Definition pool_new : WorkflowPoolInner C :=
  mkPool (replicate WORKFLOW_POOL_CAPACITY KEY_SLOT_EMPTY)
    (replicate WORKFLOW_POOL_CAPACITY PoolSlot_empty)
    (replicate WORKFLOW_POOL_CAPACITY None)
    (rev_range WORKFLOW_POOL_CAPACITY 0 []) 0 0 0.

(** [key as usize % WORKFLOW_POOL_CAPACITY]. *)
Definition bucket k : nat := Z.to_nat (k mod Z.of_nat WORKFLOW_POOL_CAPACITY).

Definition slot_matches k (s : PoolSlot) : bool := active s && (key s =? k).

Definition find_key_slot_linear p k : option nat := position (slot_matches k) (slots p).

Definition find_key_slot p k : option nat :=
  match key_index p !! bucket k with
  | Some idx =>
      if idx =? KEY_SLOT_EMPTY then None
      else match slots p !! Z.to_nat idx with
           | Some s => if slot_matches k s then Some (Z.to_nat idx) else find_key_slot_linear p k
           | None => find_key_slot_linear p k
           end
  | None => None
  end.

(** [self.free_list.pop()]. *)
Definition pop_free p : option (Z * list Z) :=
  match last (free_list p) with
  | Some i => Some (i, removelast (free_list p))
  | None => None
  end.

(** Taking slot [i] for [k] (the common tail of both inserts). *)
Definition occupy p k c (i : Z) (rest : list Z) : WorkflowPoolInner C :=
  mkPool (<[bucket k := i]> (key_index p)) (<[Z.to_nat i := mkPoolSlot k true]> (slots p))
    (<[Z.to_nat i := Some c]> (contexts p)) rest
    (wrap 64 (active_count p + 1)) (wrap 64 (total_inserted p + 1)) (total_removed p).

Definition pool_insert p k c : WorkflowPoolInner C * option nat :=
  match find_key_slot p k with
  | Some idx =>
      (mkPool (key_index p) (slots p) (<[idx := Some c]> (contexts p)) (free_list p)
         (active_count p) (total_inserted p) (total_removed p), Some idx)
  | None =>
      match pop_free p with
      | Some (i, rest) => (occupy p k c i rest, Some (Z.to_nat i))
      | None => (p, None)
      end
  end.

Definition pool_insert_if_absent p k c : WorkflowPoolInner C * bool :=
  match find_key_slot p k with
  | Some _ => (p, false)
  | None =>
      match pop_free p with
      | Some (i, rest) => (occupy p k c i rest, true)
      | None => (p, false)
      end
  end.

(** The context that [with] passes to its closure. *)
Definition pool_with p k : option C :=
  match find_key_slot p k with
  | Some idx => match contexts p !! idx with Some o => o | None => None end
  | None => None
  end.

(** [with_mut] with a closure that updates the context in place. *)
Definition pool_with_mut p k (f : C -> C) : WorkflowPoolInner C :=
  match find_key_slot p k with
  | Some idx =>
      mkPool (key_index p) (slots p) (alter (fmap f) idx (contexts p)) (free_list p)
        (active_count p) (total_inserted p) (total_removed p)
  | None => p
  end.

Definition pool_remove p k : WorkflowPoolInner C * option C :=
  match find_key_slot p k with
  | Some idx =>
      let ctx := match contexts p !! idx with Some o => o | None => None end in
      (mkPool (<[bucket k := KEY_SLOT_EMPTY]> (key_index p)) (<[idx := PoolSlot_empty]> (slots p))
         (<[idx := None]> (contexts p)) (free_list p ++ [Z.of_nat idx])
         (wrap 64 (active_count p - 1)) (total_inserted p) (wrap 64 (total_removed p + 1)), ctx)
  | None => (p, None)
  end.

(** The pairs [for_each] visits, and the keys. *)
Definition pool_for_each p : list (Z * C) :=
  omap (fun sc : PoolSlot * option C =>
    if active sc.1 then match sc.2 with Some c => Some (key sc.1, c) | None => None end else None)
    (zip (slots p) (contexts p)).

Definition pool_keys p : list Z :=
  map key (List.filter active (slots p)).

Definition pool_len p : Z := active_count p.
Definition pool_available p : nat := length (free_list p).

(** ** Meaning and invariant *)

Definition entry_view (sc : PoolSlot * option C) : option (Z * C) :=
  if active sc.1 then match sc.2 with Some c => Some (key sc.1, c) | None => None end else None.

Definition entries p : list (PoolSlot * option C) := zip (slots p) (contexts p).
Definition pool_map p : gmap Z C := slots_map entry_view (entries p).

(** The slots and the free list; nothing here speaks of the bucket index. *)
Record slots_inv p : Prop := {
  inv_lengths : length (key_index p) = WORKFLOW_POOL_CAPACITY /\
    length (slots p) = WORKFLOW_POOL_CAPACITY /\ length (contexts p) = WORKFLOW_POOL_CAPACITY;
  inv_contexts : Forall (fun sc => active sc.1 = match sc.2 with Some _ => true | None => false end) (entries p);
  inv_nodup : slots_nodup entry_view (entries p);
  inv_free : NoDup (free_list p) /\
    (forall i, i ∈ free_list p <->
      0 <= i /\ exists s, slots p !! Z.to_nat i = Some s /\ active s = false);
  inv_total : (length (free_list p) + length (slot_pairs entry_view (entries p)) = WORKFLOW_POOL_CAPACITY)%nat;
  inv_count : active_count p = Z.of_nat (length (slot_pairs entry_view (entries p)));
}.

(** Every live key has a bucket that is not marked empty, and marked buckets are
    slot numbers. *)
Definition indexed p : Prop :=
  (forall b i, key_index p !! b = Some i -> i = KEY_SLOT_EMPTY \/ 0 <= i < Z.of_nat WORKFLOW_POOL_CAPACITY) /\
  (forall k c, pool_map p !! k = Some c -> exists i, key_index p !! bucket k = Some i /\ i <> KEY_SLOT_EMPTY).

Lemma bucket_lt k : (bucket k < WORKFLOW_POOL_CAPACITY)%nat.
Proof.
  unfold bucket. pose proof (Z.mod_pos_bound k (Z.of_nat WORKFLOW_POOL_CAPACITY) ltac:(done)). lia.
Qed.

Lemma capacity_val : Z.of_nat WORKFLOW_POOL_CAPACITY = 8192.
Proof. done. Qed.

Lemma bucket_small_inj k k' : 0 <= k < 8192 -> 0 <= k' < 8192 -> bucket k = bucket k' -> k = k'.
Proof.
  unfold bucket. rewrite capacity_val. intros Hk Hk'. rewrite !Z.mod_small by done. lia.
Qed.

#[local] Opaque WORKFLOW_POOL_CAPACITY.

Lemma entries_lookup p i s o :
  slots p !! i = Some s -> contexts p !! i = Some o -> entries p !! i = Some (s, o).
Proof. intros. unfold entries. by apply lookup_zip_Some. Qed.

(** The linear scan finds the slot of a live key. *)
Lemma linear_position p k :
  slots_inv p -> find_key_slot_linear p k = position (slot_key entry_view k) (entries p).
Proof.
  intros [(_ & Hls & Hlc) Hctx _ _ _ _]. unfold find_key_slot_linear.
  assert (Hlen : length (slots p) = length (contexts p)) by congruence. clear Hls Hlc.
  unfold entries in *. revert Hlen Hctx. generalize (contexts p) as cs.
  induction (slots p) as [|s l IH]; intros [|o cs] Hlen Hctx; simplify_eq/=; [done|].
  apply Forall_cons in Hctx as [Hs Hctx]. rewrite (IH cs) by done.
  assert (slot_key entry_view k (s, o) = slot_matches k s) as ->; [|done].
  unfold slot_key, entry_view, slot_matches; simpl in *. rewrite Hs. destruct o as [c|]; [|done]. simpl.
  destruct (Z.eqb_spec (key s) k); [by rewrite bool_decide_eq_true_2|by rewrite bool_decide_eq_false_2].
Qed.

(** A slot that matches [k] is where the scan stops: live keys are distinct. *)
Lemma matching_slot p k i s :
  slots_inv p -> slots p !! i = Some s -> slot_matches k s = true ->
  exists c, entries p !! i = Some (s, Some c) /\ entry_view (s, Some c) = Some (k, c) /\
            pool_map p !! k = Some c.
Proof.
  intros [(_ & Hls & Hlc) Hctx Hnd _ _ _] Hi Hm. unfold slot_matches in Hm.
  apply andb_true_iff in Hm as [Ha Hk%Z.eqb_eq].
  destruct (lookup_lt_is_Some_2 (contexts p) i) as [o Ho].
  { apply lookup_lt_Some in Hi. lia. }
  pose proof (entries_lookup p i s o Hi Ho) as He.
  pose proof (Forall_lookup_1 _ _ _ _ Hctx He) as Hso. simpl in Hso. rewrite Ha in Hso.
  destruct o as [c|]; [|done]. exists c. unfold entry_view; simpl. rewrite Ha, Hk. split_and!; [done|done|].
  unfold pool_map, slots_map. apply elem_of_list_to_map_1; [done|].
  unfold slot_pairs. apply list_elem_of_omap. exists (s, Some c).
  split; [by eapply list_elem_of_lookup_2|]. unfold entry_view; simpl. by rewrite Ha, Hk.
Qed.

(** What [find_key_slot] answers when the index covers the live keys. *)
Lemma find_key_slot_spec p k :
  slots_inv p -> indexed p ->
  match find_key_slot p k with
  | Some i => exists s c, slots p !! i = Some s /\ entries p !! i = Some (s, Some c) /\
                entry_view (s, Some c) = Some (k, c) /\ pool_map p !! k = Some c
  | None => pool_map p !! k = None
  end.
Proof.
  intros Hinv [Hrange Hidx]. unfold find_key_slot.
  destruct (key_index p !! bucket k) as [idx|] eqn:Hb.
  2: { apply lookup_ge_None in Hb. destruct Hinv as [(Hl & _) _ _ _ _ _].
       pose proof (bucket_lt k). lia. }
  destruct (Z.eqb_spec idx KEY_SLOT_EMPTY) as [->|Hne].
  { destruct (pool_map p !! k) as [c|] eqn:Hk; [|done]. destruct (Hidx k c Hk) as (i & Hi & ?). congruence. }
  assert (Hlin : match find_key_slot_linear p k with
    | Some i => exists s c, slots p !! i = Some s /\ entries p !! i = Some (s, Some c) /\
                entry_view (s, Some c) = Some (k, c) /\ pool_map p !! k = Some c
    | None => pool_map p !! k = None end).
  { destruct (find_key_slot_linear p k) as [i|] eqn:Hf.
    - pose proof Hf as (s & Hs & Hm & _)%position_Some.
      destruct (matching_slot p k i s Hinv Hs Hm) as (c & ? & ? & ?). eauto 10.
    - rewrite linear_position in Hf by done. by apply slots_position_None in Hf. }
  destruct (slots p !! Z.to_nat idx) as [s|] eqn:Hs; [|done].
  destruct (slot_matches k s) eqn:Hm; [|done].
  destruct (matching_slot p k _ s Hinv Hs Hm) as (c & ? & ? & ?). eauto 10.
Qed.

Lemma pop_free_Some p i rest : pop_free p = Some (i, rest) -> free_list p = rest ++ [i].
Proof.
  unfold pop_free. destruct (last (free_list p)) as [j|] eqn:Hl; [|done]. intros; simplify_eq.
  apply last_Some in Hl as [l ->]. by rewrite removelast_last.
Qed.

Lemma pop_free_None p : pop_free p = None -> free_list p = [].
Proof.
  unfold pop_free. destruct (last (free_list p)) eqn:Hl; [done|]. intros _. by apply last_None.
Qed.

(** Occupying the slot on top of the free list for a key that is not live. *)
Lemma occupy_inv p k c i rest :
  slots_inv p -> pop_free p = Some (i, rest) -> pool_map p !! k = None ->
  slots_inv (occupy p k c i rest) /\ pool_map (occupy p k c i rest) = <[k := c]> (pool_map p).
Proof.
  intros [(Hlk & Hls & Hlc) Hctx Hnd (Hfnd & Hfree) Htot Hcnt] Hpop Hk.
  apply pop_free_Some in Hpop. rewrite Hpop in *.
  destruct (Hfree i) as [(Hi0 & s & Hs & Ha) _]; [set_solver|].
  destruct (lookup_lt_is_Some_2 (contexts p) (Z.to_nat i)) as [o Ho].
  { apply lookup_lt_Some in Hs. lia. }
  pose proof (entries_lookup p _ s o Hs Ho) as He.
  destruct (slots_fill entry_view (entries p) (Z.to_nat i) (s, o) (mkPoolSlot k true, Some c) k c
    Hnd He ltac:(unfold entry_view; simpl; by rewrite Ha) eq_refl Hk) as (Hm & Hnd' & Hl).
  unfold entries in Hm, Hnd', Hl. rewrite <- insert_zip in Hm, Hnd', Hl.
  apply NoDup_app in Hfnd as (Hfnd & Hdisj & _). rewrite length_app in Htot. simpl in Htot.
  split; [|exact Hm]. constructor; unfold occupy, entries; simpl.
  - by rewrite !length_insert.
  - rewrite insert_zip. by apply Forall_insert.
  - exact Hnd'.
  - split; [done|]. intros j. split.
    + intros Hj. destruct (Hfree j) as [(Hj0 & s' & Hs' & Ha') _]; [set_solver|].
      split; [done|]. exists s'. rewrite list_lookup_insert_ne; [done|].
      intros Heq. apply (Hdisj j Hj). assert (j = i) as -> by lia. by left.
    + intros (Hj0 & s' & Hs' & Ha'). destruct (decide (Z.to_nat j = Z.to_nat i)) as [Heq|Hne].
      * rewrite Heq, list_lookup_insert_eq in Hs' by (by eapply lookup_lt_Some). by simplify_eq.
      * rewrite list_lookup_insert_ne in Hs' by done.
        destruct (Hfree j) as [_ Hj]. specialize (Hj (conj Hj0 (ex_intro _ s' (conj Hs' Ha')))).
        apply elem_of_app in Hj as [?|Hj%list_elem_of_singleton]; [done|]. congruence.
  - rewrite Hl. unfold entries in Htot. lia.
  - rewrite Hl, Hcnt. unfold entries in Htot |- *. rewrite wrap_id; [lia|].
    pose proof capacity_val. unfold fits in *. lia.
Qed.

(** Overwriting the context of a live key. *)
Lemma replace_inv p k i s c c' :
  slots_inv p -> entries p !! i = Some (s, Some c) -> entry_view (s, Some c) = Some (k, c) ->
  let p' := mkPool (key_index p) (slots p) (<[i := Some c']> (contexts p)) (free_list p)
              (active_count p) (total_inserted p) (total_removed p) in
  slots_inv p' /\ pool_map p' = <[k := c']> (pool_map p).
Proof.
  intros [(Hlk & Hls & Hlc) Hctx Hnd Hfree Htot Hcnt] He Hv p'.
  assert (Hv' : entry_view (s, Some c') = Some (k, c')).
  { unfold entry_view in *; simpl in *. destruct (active s); by simplify_eq. }
  destruct (slots_update entry_view (entries p) i _ (s, Some c') k c c' Hnd He Hv Hv') as (Hm & Hnd' & Hl).
  unfold entries in Hm, Hnd', Hl. rewrite <- insert_zip in Hm, Hnd', Hl.
  pose proof He as [Hsi _]%lookup_zip_Some. rewrite (list_insert_id (slots p)) in Hm, Hnd', Hl by done.
  split; [|exact Hm]. constructor; unfold entries; simpl; [by rewrite length_insert| |done|done|..].
  - rewrite <- (list_insert_id (slots p) i s), insert_zip by done. apply Forall_insert; [done|]. simpl.
    pose proof (Forall_lookup_1 _ _ _ _ Hctx He) as Hs. by simpl in Hs.
  - by rewrite Hl.
  - by rewrite Hl.
Qed.

(** Freeing the slot of a live key. *)
Lemma release_inv p k i s c ki tr :
  slots_inv p -> entries p !! i = Some (s, Some c) -> entry_view (s, Some c) = Some (k, c) ->
  length ki = WORKFLOW_POOL_CAPACITY ->
  let p' := mkPool ki (<[i := PoolSlot_empty]> (slots p)) (<[i := None]> (contexts p))
              (free_list p ++ [Z.of_nat i]) (wrap 64 (active_count p - 1)) (total_inserted p) tr in
  slots_inv p' /\ pool_map p' = delete k (pool_map p).
Proof.
  intros [(Hlk & Hls & Hlc) Hctx Hnd (Hfnd & Hfree) Htot Hcnt] He Hv Hki p'.
  destruct (slots_clear entry_view (entries p) i _ (PoolSlot_empty, None) k c Hnd He Hv eq_refl) as (Hm & Hnd' & Hl).
  unfold entries in Hm, Hnd', Hl. rewrite <- insert_zip in Hm, Hnd', Hl.
  pose proof He as [Hsi _]%lookup_zip_Some.
  assert (Ha : active s = true) by (unfold entry_view in Hv; simpl in Hv; by destruct (active s)).
  split; [|exact Hm]. constructor; unfold entries; simpl.
  - by rewrite !length_insert.
  - rewrite insert_zip. by apply Forall_insert.
  - exact Hnd'.
  - split.
    + apply NoDup_app. split_and!; [done| |apply NoDup_singleton].
      intros j Hj Hji. apply list_elem_of_singleton in Hji as ->. apply Hfree in Hj as (_ & s' & Hs' & Ha').
      rewrite Nat2Z.id in Hs'. congruence.
    + intros j. rewrite elem_of_app, list_elem_of_singleton. split.
      * intros [Hj| ->].
        -- apply Hfree in Hj as (Hj0 & s' & Hs' & Ha'). split; [done|]. exists s'.
           rewrite list_lookup_insert_ne; [done|]. intros Heq. rewrite <- Heq in Hs'. congruence.
        -- split; [lia|]. exists PoolSlot_empty. rewrite Nat2Z.id.
           split; [|done]. apply list_lookup_insert_eq. by eapply lookup_lt_Some.
      * intros (Hj0 & s' & Hs' & Ha'). destruct (decide (Z.to_nat j = i)) as [<-|Hne]; [right; lia|].
        rewrite list_lookup_insert_ne in Hs' by done. left. apply Hfree. eauto.
  - rewrite length_app. simpl. unfold entries in Htot. lia.
  - rewrite Hcnt, wrap_id; [unfold entries; lia|]. pose proof capacity_val. unfold fits, entries in *. lia.
Qed.

Lemma slots_inv_new : slots_inv pool_new /\ pool_map pool_new = ∅ /\ indexed pool_new.
Proof.
  assert (Hz : entries pool_new = replicate WORKFLOW_POOL_CAPACITY (PoolSlot_empty, None)).
  { unfold entries, pool_new; cbn [slots contexts]. generalize WORKFLOW_POOL_CAPACITY as n.
    induction n as [|n IH]; simpl; [done|]. by rewrite IH. }
  assert (Hp : slot_pairs entry_view (entries pool_new) = []) by (rewrite Hz; by apply slots_empty).
  assert (Hmap : pool_map pool_new = ∅) by (unfold pool_map, slots_map; by rewrite Hp).
  split_and!; [|done|].
  - constructor.
    + unfold pool_new; cbn [key_index slots contexts]. rewrite !length_replicate.
      exact (conj eq_refl (conj eq_refl eq_refl)).
    + rewrite Hz. by apply Forall_replicate.
    + unfold slots_nodup. rewrite Hp. constructor.
    + unfold pool_new; cbn [free_list slots]. rewrite rev_range_seqZ, app_nil_r. split.
      * rewrite reverse_Permutation. apply NoDup_seqZ.
      * intros i. rewrite elem_of_reverse, elem_of_seqZ. split.
        -- intros Hi. split; [lia|]. exists PoolSlot_empty. split; [|done].
           apply lookup_replicate_2. lia.
        -- intros (Hi & s & Hs%lookup_replicate & _). lia.
    + rewrite Hp. unfold pool_new; cbn [free_list].
      rewrite rev_range_seqZ, app_nil_r, length_reverse, length_seqZ. simpl. lia.
    + by rewrite Hp.
  - split.
    + unfold pool_new; cbn [key_index]. intros b i [-> _]%lookup_replicate. by left.
    + intros k c. by rewrite Hmap, lookup_empty.
Qed.

(** Claiming a bucket keeps every live key indexed, colliding keys included. *)
Lemma occupy_indexed p k c i rest :
  slots_inv p -> indexed p -> pop_free p = Some (i, rest) ->
  pool_map (occupy p k c i rest) = <[k := c]> (pool_map p) -> indexed (occupy p k c i rest).
Proof.
  intros Hinv [Hrange Hidx] Hpop Hmap. pose proof Hinv as [(Hlk & Hls & _) _ _ (_ & Hfree) _ _].
  assert (Hi : 0 <= i < Z.of_nat WORKFLOW_POOL_CAPACITY).
  { destruct (Hfree i) as [(Hi0 & s & Hs & _) _].
    - rewrite (pop_free_Some p i rest Hpop). set_solver.
    - apply lookup_lt_Some in Hs. lia. }
  assert (Hne : i <> KEY_SLOT_EMPTY) by (pose proof capacity_val; unfold KEY_SLOT_EMPTY, U16_MAX in *; lia).
  pose proof (bucket_lt k) as Hb. split; [|rewrite Hmap]; unfold occupy; cbn [key_index].
  - intros b j Hj. destruct (decide (b = bucket k)) as [->|].
    + rewrite list_lookup_insert_eq in Hj by lia. simplify_eq. by right.
    + rewrite list_lookup_insert_ne in Hj by done. by apply (Hrange b).
  - intros k' c' Hk'. destruct (decide (bucket k' = bucket k)) as [->|Hneq].
    + exists i. split; [|done]. apply list_lookup_insert_eq. lia.
    + rewrite list_lookup_insert_ne by done. rewrite lookup_insert_ne in Hk' by congruence. by apply (Hidx k' c').
Qed.

(** Clearing the bucket of a key keeps the others indexed when none shares it. *)
Lemma release_indexed p p' k :
  slots_inv p -> indexed p -> pool_map p' = delete k (pool_map p) ->
  key_index p' = <[bucket k := KEY_SLOT_EMPTY]> (key_index p) ->
  (forall k' c', pool_map p !! k' = Some c' -> bucket k' = bucket k -> k' = k) -> indexed p'.
Proof.
  intros [(Hlk & _) _ _ _ _ _] [Hrange Hidx] Hmap Hki Hcol. pose proof (bucket_lt k) as Hb.
  split; rewrite Hki.
  - intros b j Hj. destruct (decide (b = bucket k)) as [->|].
    + rewrite list_lookup_insert_eq in Hj by lia. simplify_eq. by left.
    + rewrite list_lookup_insert_ne in Hj by done. by apply (Hrange b).
  - rewrite Hmap. intros k' c' [Hne Hk']%lookup_delete_Some.
    rewrite list_lookup_insert_ne; [by apply (Hidx k' c')|]. intros Heq. apply Hne. symmetry. by apply (Hcol k' c').
Qed.

(** ** Programs over the pool *)

Inductive pool_op : Type :=
| PInsert (k : Z) (c : C)
| PInsertIfAbsent (k : Z) (c : C)
| PWith (k : Z)
| PWithMut (k : Z) (f : C -> C)
| PRemove (k : Z)
| PLen.

Inductive pool_out : Type :=
| OUnit
| ODone (b : bool)
| OCtx (o : option C)
| OLen (n : Z).

Definition is_some {A} (o : option A) : bool := match o with Some _ => true | None => false end.

Definition pool_step p (o : pool_op) : WorkflowPoolInner C * pool_out :=
  match o with
  | PInsert k c => let '(p', r) := pool_insert p k c in (p', ODone (is_some r))
  | PInsertIfAbsent k c => let '(p', b) := pool_insert_if_absent p k c in (p', ODone b)
  | PWith k => (p, OCtx (pool_with p k))
  | PWithMut k f => (pool_with_mut p k f, OUnit)
  | PRemove k => let '(p', r) := pool_remove p k in (p', OCtx r)
  | PLen => (p, OLen (pool_len p))
  end.

(** A finite map that holds at most [WORKFLOW_POOL_CAPACITY] keys. *)
Definition has_room (m : gmap Z C) : bool := (size m <? WORKFLOW_POOL_CAPACITY)%nat.

Definition bounded_step (m : gmap Z C) (o : pool_op) : gmap Z C * pool_out :=
  match o with
  | PInsert k c => if is_some (m !! k) || has_room m then (<[k := c]> m, ODone true) else (m, ODone false)
  | PInsertIfAbsent k c =>
      if negb (is_some (m !! k)) && has_room m then (<[k := c]> m, ODone true) else (m, ODone false)
  | PWith k => (m, OCtx (m !! k))
  | PWithMut k f => (alter f k m, OUnit)
  | PRemove k => (delete k m, OCtx (m !! k))
  | PLen => (m, OLen (Z.of_nat (size m)))
  end.

Fixpoint run_pool {S} (step : S -> pool_op -> S * pool_out) (st : S) (os : list pool_op) : list pool_out :=
  match os with
  | [] => []
  | o :: os => let '(st', out) := step st o in out :: run_pool step st' os
  end.

Definition pool_op_keys (o : pool_op) : list Z :=
  match o with
  | PInsert k _ | PInsertIfAbsent k _ | PWith k | PWithMut k _ | PRemove k => [k]
  | PLen => []
  end.

(** The pool and the map agree, and all live keys come from [ks]. *)
Definition pool_rel (ks : list Z) p (m : gmap Z C) : Prop :=
  slots_inv p /\ indexed p /\ pool_map p = m /\ (forall k c, m !! k = Some c -> k ∈ ks).

Lemma has_room_free p : slots_inv p -> has_room (pool_map p) = negb (bool_decide (free_list p = [])).
Proof.
  intros [_ _ Hnd _ Htot _]. unfold has_room, pool_map. rewrite slots_size by done.
  destruct (Nat.ltb_spec (length (slot_pairs entry_view (entries p))) WORKFLOW_POOL_CAPACITY);
    destruct (free_list p); simpl in *; (done || lia).
Qed.

Lemma pop_free_room p :
  slots_inv p ->
  match pop_free p with Some _ => has_room (pool_map p) = true | None => has_room (pool_map p) = false end.
Proof.
  intros Hinv. rewrite has_room_free by done. destruct (pop_free p) as [[i rest]|] eqn:Hpop.
  - apply pop_free_Some in Hpop. rewrite Hpop. by destruct rest.
  - apply pop_free_None in Hpop. by rewrite Hpop.
Qed.

Lemma rel_insert_dom (ks : list Z) (m : gmap Z C) k c :
  (forall k c, m !! k = Some c -> k ∈ ks) -> k ∈ ks ->
  forall k' c', <[k := c]> m !! k' = Some c' -> k' ∈ ks.
Proof. intros Hdom Hk k' c' [[-> _]|[_ ?]]%lookup_insert_Some; eauto. Qed.

Lemma rel_replace ks p k i s c c' :
  pool_rel ks p (pool_map p) -> entries p !! i = Some (s, Some c) -> entry_view (s, Some c) = Some (k, c) ->
  pool_map p !! k = Some c ->
  pool_rel ks (mkPool (key_index p) (slots p) (<[i := Some c']> (contexts p)) (free_list p)
              (active_count p) (total_inserted p) (total_removed p)) (<[k := c']> (pool_map p)).
Proof.
  intros (Hinv & [Hrange Hidx] & _ & Hdom) He Hv Hk.
  destruct (replace_inv p k i s c c' Hinv He Hv) as [Hinv' Hmap].
  split_and!; [done| |done|by apply rel_insert_dom; [|eapply Hdom]]. split; [done|]. rewrite Hmap.
  intros k' c2 [[<- _]|[_ Hk']]%lookup_insert_Some; [by apply (Hidx k c)|by apply (Hidx k' c2)].
Qed.

Lemma rel_occupy ks p k c i rest :
  pool_rel ks p (pool_map p) -> k ∈ ks -> pop_free p = Some (i, rest) -> pool_map p !! k = None ->
  pool_rel ks (occupy p k c i rest) (<[k := c]> (pool_map p)).
Proof.
  intros (Hinv & Hidx & _ & Hdom) Hks Hpop Hk.
  destruct (occupy_inv p k c i rest Hinv Hpop Hk) as [Hinv' Hmap].
  split_and!; [done|by apply occupy_indexed|done|by apply rel_insert_dom].
Qed.

Lemma pool_insert_sim ks p k c :
  pool_rel ks p (pool_map p) -> k ∈ ks ->
  if is_some (pool_map p !! k) || has_room (pool_map p)
  then pool_rel ks (pool_insert p k c).1 (<[k := c]> (pool_map p)) /\ is_some (pool_insert p k c).2 = true
  else pool_insert p k c = (p, None).
Proof.
  intros Hrel Hks. pose proof Hrel as (Hinv & Hidx & _ & Hdom).
  pose proof (find_key_slot_spec p k Hinv Hidx) as Hfind. pose proof (pop_free_room p Hinv) as Hroom.
  unfold pool_insert. destruct (find_key_slot p k) as [i|].
  - destruct Hfind as (s & c0 & _ & He & Hv & Hk). rewrite Hk. simpl. split; [|done].
    by apply (rel_replace ks p k i s c0 c).
  - rewrite Hfind. simpl. destruct (pop_free p) as [[i rest]|] eqn:Hpop; rewrite Hroom; [|done].
    split; [|done]. by apply rel_occupy.
Qed.

Lemma pool_insert_if_absent_sim ks p k c :
  pool_rel ks p (pool_map p) -> k ∈ ks ->
  if negb (is_some (pool_map p !! k)) && has_room (pool_map p)
  then pool_rel ks (pool_insert_if_absent p k c).1 (<[k := c]> (pool_map p)) /\
       (pool_insert_if_absent p k c).2 = true
  else pool_insert_if_absent p k c = (p, false).
Proof.
  intros Hrel Hks. pose proof Hrel as (Hinv & Hidx & _ & Hdom).
  pose proof (find_key_slot_spec p k Hinv Hidx) as Hfind. pose proof (pop_free_room p Hinv) as Hroom.
  unfold pool_insert_if_absent. destruct (find_key_slot p k) as [i|].
  - destruct Hfind as (s & c0 & _ & _ & _ & Hk). by rewrite Hk.
  - rewrite Hfind. simpl. destruct (pop_free p) as [[i rest]|] eqn:Hpop; rewrite Hroom; [|done].
    split; [|done]. by apply rel_occupy.
Qed.

Lemma pool_with_lookup p k : slots_inv p -> indexed p -> pool_with p k = pool_map p !! k.
Proof.
  intros Hinv Hidx. pose proof (find_key_slot_spec p k Hinv Hidx) as Hfind. unfold pool_with.
  destruct (find_key_slot p k) as [i|]; [|done]. destruct Hfind as (s & c & _ & He & _ & ->).
  by apply lookup_zip_Some in He as [_ ->].
Qed.

(** Updating in place, seen through lookups; no invariant is needed. *)
Lemma pool_with_mut_same p k f : pool_with (pool_with_mut p k f) k = f <$> pool_with p k.
Proof.
  unfold pool_with at 1, pool_with_mut.
  destruct (find_key_slot p k) as [i|] eqn:Hf; [|unfold pool_with; by rewrite Hf].
  change (find_key_slot _ k) with (find_key_slot p k). unfold pool_with. rewrite Hf. cbn [contexts].
  rewrite list_lookup_alter_eq. by destruct (contexts p !! i) as [[c|]|].
Qed.

Lemma pool_with_mut_live p k k' f :
  is_Some (pool_with (pool_with_mut p k f) k') <-> is_Some (pool_with p k').
Proof.
  unfold pool_with_mut. destruct (find_key_slot p k) as [i|] eqn:Hf; [|done].
  unfold pool_with. change (find_key_slot (mkPool _ _ _ _ _ _ _) k') with (find_key_slot p k').
  destruct (find_key_slot p k') as [j|]; [|done]. cbn [contexts].
  destruct (decide (j = i)) as [->|].
  - rewrite list_lookup_alter_eq. destruct (contexts p !! i) as [[c|]|]; simpl; [|done..].
    split; eauto.
  - by rewrite list_lookup_alter_ne by done.
Qed.

Lemma pool_with_mut_sim ks p k f :
  pool_rel ks p (pool_map p) -> pool_rel ks (pool_with_mut p k f) (alter f k (pool_map p)).
Proof.
  intros Hrel. pose proof Hrel as (Hinv & Hidx & _ & Hdom).
  pose proof (find_key_slot_spec p k Hinv Hidx) as Hfind. unfold pool_with_mut.
  destruct (find_key_slot p k) as [i|]; [|by rewrite alter_absent].
  destruct Hfind as (s & c & _ & He & Hv & Hk).
  pose proof He as [_ Hc]%lookup_zip_Some. rewrite (alter_is_insert _ _ _ (Some c)) by done.
  rewrite (alter_present f k _ c) by done. by apply (rel_replace ks p k i s c (f c)).
Qed.

Lemma pool_remove_sim ks p k :
  (forall k k', k ∈ ks -> k' ∈ ks -> bucket k = bucket k' -> k = k') -> k ∈ ks ->
  pool_rel ks p (pool_map p) ->
  pool_rel ks (pool_remove p k).1 (delete k (pool_map p)) /\ (pool_remove p k).2 = pool_map p !! k.
Proof.
  intros Hcol Hks Hrel. pose proof Hrel as (Hinv & Hidx & _ & Hdom).
  pose proof (find_key_slot_spec p k Hinv Hidx) as Hfind. unfold pool_remove.
  destruct (find_key_slot p k) as [i|]; [|by rewrite delete_id].
  destruct Hfind as (s & c & _ & He & Hv & Hk). pose proof He as [_ Hc]%lookup_zip_Some.
  rewrite Hc. simpl. split; [|done].
  destruct (release_inv p k i s c (<[bucket k := KEY_SLOT_EMPTY]> (key_index p))
    (wrap 64 (total_removed p + 1)) Hinv He Hv) as [Hinv' Hmap].
  { rewrite length_insert. apply Hinv. }
  split_and!; [done| |done|].
  - eapply release_indexed; [exact Hinv|done|done|done|]. intros k' c' Hk' Hb. apply Hcol; eauto.
  - intros k' c' [_ Hk']%lookup_delete_Some. eauto.
Qed.

Lemma pool_step_sim ks p m o :
  (forall k k', k ∈ ks -> k' ∈ ks -> bucket k = bucket k' -> k = k') ->
  Forall (fun k => k ∈ ks) (pool_op_keys o) -> pool_rel ks p m ->
  pool_rel ks (pool_step p o).1 (bounded_step m o).1 /\ (pool_step p o).2 = (bounded_step m o).2.
Proof.
  intros Hcol Hks Hrel. pose proof Hrel as (Hinv & Hidx & <- & Hdom).
  destruct o as [k c|k c|k|k f|k|]; simpl in Hks |- *; rewrite ?Forall_singleton in Hks.
  - pose proof (pool_insert_sim ks p k c Hrel Hks) as Hs. destruct (pool_insert p k c) as [p' r].
    destruct (_ || _); simpl in *; [|by simplify_eq]. destruct Hs as [Hr ->]. done.
  - pose proof (pool_insert_if_absent_sim ks p k c Hrel Hks) as Hs.
    destruct (pool_insert_if_absent p k c) as [p' r].
    destruct (_ && _); simpl in *; [|by simplify_eq]. destruct Hs as [Hr ->]. done.
  - by rewrite pool_with_lookup.
  - split; [|done]. by apply pool_with_mut_sim.
  - destruct (pool_remove_sim ks p k Hcol Hks Hrel) as [Hr Hv].
    destruct (pool_remove p k) as [p' r]; simpl in *. by rewrite Hv.
  - split; [done|]. unfold pool_len. destruct Hinv as [_ _ Hnd _ _ ->]. unfold pool_map. by rewrite slots_size.
Qed.

Lemma run_pool_sim ks p m os :
  (forall k k', k ∈ ks -> k' ∈ ks -> bucket k = bucket k' -> k = k') ->
  Forall (fun k => k ∈ ks) (flat_map pool_op_keys os) -> pool_rel ks p m ->
  run_pool pool_step p os = run_pool bounded_step m os.
Proof.
  intros Hcol. revert p m. induction os as [|o os IH]; intros p m Hks Hrel; [done|].
  cbn [flat_map] in Hks. apply Forall_app in Hks as [Ho Hos].
  destruct (pool_step_sim ks p m o Hcol Ho Hrel) as [Hrel' Hout]. simpl.
  destruct (pool_step p o) as [p' out], (bounded_step m o) as [m' out']. simpl in *. subst.
  f_equal. by apply IH.
Qed.

End pool.

Arguments pool_op : clear implicits.
Arguments pool_out : clear implicits.

(** C6. As long as no two keys of a program share a bucket (agree modulo 8192), every
    program of inserts, conditional inserts, lookups, updates and removals
    observes on the pool what it would on a finite map bounded by 8192 keys. *)
Theorem pool_refines_bounded_map {C} (os : list (pool_op C))
  (Hbuckets : forall k k', k ∈ flat_map pool_op_keys os -> k' ∈ flat_map pool_op_keys os ->
     bucket k = bucket k' -> k = k') :
  run_pool pool_step pool_new os = run_pool bounded_step ∅ os.
Proof.
  destruct (slots_inv_new (C := C)) as (Hinv & Hmap & Hidx).
  apply (run_pool_sim (flat_map pool_op_keys os)); [done|by apply Forall_forall|].
  split_and!; [done|done|done|]. intros k c. by rewrite lookup_empty.
Qed.

(** Removing a key clears the bucket of every key that shares it: after inserting
    workflow 5 of two namespaces (keys [ns << 32 | 5]) and removing the first, the
    second is still listed but can no longer be read, updated or removed, and a
    second insert of it occupies another slot under the same key. *)
Theorem pool_remove_hides_colliding_key :
  let k1 := (1 <<< 32) ||| 5 in
  let k2 := (2 <<< 32) ||| 5 in
  let p := (pool_insert (pool_insert pool_new k1 10).1 k2 20).1 in
  let p' := (pool_remove p k1).1 in
  let p'' := (pool_insert p' k2 30).1 in
  pool_with p k2 = Some 20 /\ pool_with p' k2 = None /\ (pool_remove p' k2).2 = None /\
  pool_keys p' = [k2] /\ pool_len p' = 1 /\ pool_keys p'' = [k2; k2] /\ pool_len p'' = 2.
Proof. vm_compute. repeat split. Qed.

Lemma pool_refines_bounded_map_witness :
  let os := [PInsert 1 10; PInsert 2 20; PRemove 1; PWith 2; PInsertIfAbsent 2 30; PLen] in
  run_pool pool_step pool_new os = run_pool bounded_step ∅ os.
Proof.
  apply (pool_refines_bounded_map [PInsert 1 10; PInsert 2 20; PRemove 1; PWith 2; PInsertIfAbsent 2 30; PLen]).
  assert (Hr : Forall (fun k => 0 <= k < 8192) [1; 2; 1; 2; 2]) by (repeat (constructor; [lia|]); constructor).
  rewrite Forall_forall in Hr. intros k k' Hk Hk'.
  apply bucket_small_inj; [exact (Hr k Hk)|exact (Hr k' Hk')].
Defined.

End ContextPool.
