(* ===== verification/SlabPool.v ===== *)
(** * Workflow slab pool ([velocity-workflow-engine/src/workflow_slab_pool.rs])

    [WorkflowSlabPool]: 65,536 fixed slots of a slab header and inline metadata,
    allocated by a wrapping scan from a cursor and zeroed on eviction.  The
    atomics are plain counters of their width: the model is one caller at a time,
    which is what the pool's interior mutation assumes. *)

From S2P Require Import Prelude Bitmask Slab.
Import Bitmask Slab.

Module SlabPool.

Definition SLAB_POOL_CAPACITY : nat := Z.to_nat 65536.

Record SlotMeta : Type := mkMeta {
  workflow_type_id : Z;
  namespace_id : Z;
  task_queue_hash : Z;
  status : Z;
  start_time_ms : Z;
  close_time_ms : Z;
  event_sequence : Z;
  parent_key : Z;
  child_count : Z;
  child_keys : list Z;
  result_offset : Z;
  result_len : Z;
  input_offset : Z;
  input_len : Z;
  arena_page_index : Z;
}.

Definition SlotMeta_empty : SlotMeta := mkMeta 0 0 0 0 0 0 0 0 0 [0; 0; 0; 0] 0 0 0 0 0.

Definition is_free (m : SlotMeta) : bool := status m =? 0.
Definition is_active (m : SlotMeta) : bool := status m =? 1.

Record SlabSlot : Type := mkSlabSlot {
  header : SlabHeader;
  meta : SlotMeta;
}.

(** All bytes zero, which is also what [evict] writes. *)
Definition SlabSlot_empty : SlabSlot :=
  mkSlabSlot (mkSlab 0 0 0 0 0 0 zero_root bitmask_new zero_root) SlotMeta_empty.

Record WorkflowSlabPool : Type := mkSlabPool {
  slots : list SlabSlot;
  free_cursor : Z;
  active_count : Z;
  total_allocated : Z;
  total_evicted : Z;
}.

Definition slab_pool_new : WorkflowSlabPool :=
  mkSlabPool (replicate SLAB_POOL_CAPACITY SlabSlot_empty) 0 0 0 0.

Definition slot_is_free (p : WorkflowSlabPool) (idx : nat) : bool :=
  match slots p !! idx with Some s => is_free (meta s) | None => false end.

(** The slots in the order of the scan: [(start + i) % SLAB_POOL_CAPACITY]. *)
Definition scan_order (start : Z) : list nat :=
  map (fun i => ((Z.to_nat start + i) mod SLAB_POOL_CAPACITY)%nat) (seq 0 SLAB_POOL_CAPACITY).

Definition allocate (p : WorkflowSlabPool) (h : SlabHeader) (m : SlotMeta) : WorkflowSlabPool * option nat :=
  match List.find (slot_is_free p) (scan_order (free_cursor p)) with
  | Some idx =>
      (mkSlabPool (<[idx := mkSlabSlot h m]> (slots p))
         (wrap 16 (Z.of_nat ((idx + 1) mod SLAB_POOL_CAPACITY)))
         (wrap 64 (active_count p + 1)) (wrap 64 (total_allocated p + 1)) (total_evicted p), Some idx)
  | None => (p, None)
  end.

Definition find_by_workflow_id (p : WorkflowSlabPool) (workflow_id : Z) : option nat :=
  position (fun s => negb (is_free (meta s)) && (Slab.workflow_id (header s) =? workflow_id)) (slots p).

Definition find_by_run_id (p : WorkflowSlabPool) (run_id : Z) : option nat :=
  position (fun s => negb (is_free (meta s)) && (Slab.run_id (header s) =? run_id)) (slots p).

Definition evict (p : WorkflowSlabPool) (idx : nat) : WorkflowSlabPool :=
  if (length (slots p) <=? idx)%nat then p
  else mkSlabPool (<[idx := SlabSlot_empty]> (slots p)) (wrap 16 (Z.of_nat idx))
         (wrap 64 (active_count p - 1)) (total_allocated p) (wrap 64 (total_evicted p + 1)).

Definition is_finished (m : SlotMeta) : bool := (status m =? 2) || (status m =? 3) || (status m =? 4).

(** One iteration of [evict_completed]. *)
Definition evict_if_finished (st : WorkflowSlabPool * Z) (idx : nat) : WorkflowSlabPool * Z :=
  match slots st.1 !! idx with
  | Some s => if is_finished (meta s) then (evict st.1 idx, st.2 + 1) else st
  | None => st
  end.

Definition evict_completed (p : WorkflowSlabPool) : WorkflowSlabPool * Z :=
  foldl evict_if_finished (p, 0) (seq 0 (length (slots p))).

Definition get_header (p : WorkflowSlabPool) (idx : nat) : option SlabHeader :=
  match slots p !! idx with Some s => if is_free (meta s) then None else Some (header s) | None => None end.

Definition get_meta (p : WorkflowSlabPool) (idx : nat) : option SlotMeta :=
  match slots p !! idx with Some s => if is_free (meta s) then None else Some (meta s) | None => None end.

Definition active_slots (p : WorkflowSlabPool) : list nat :=
  List.filter (fun idx => negb (slot_is_free p idx)) (seq 0 (length (slots p))).

(** ** Accounting *)

Definition occupied_slot (s : SlabSlot) : bool := negb (is_free (meta s)).
Definition occupied_count (l : list SlabSlot) : Z := Z.of_nat (length (List.filter occupied_slot l)).

Record slab_pool_wf (p : WorkflowSlabPool) : Prop := {
  wf_length : length (slots p) = SLAB_POOL_CAPACITY;
  wf_cursor : 0 <= free_cursor p < 65536;
  wf_count : active_count p = occupied_count (slots p);
}.

Lemma slab_capacity_val : Z.of_nat SLAB_POOL_CAPACITY = 65536.
Proof. done. Qed.

#[local] Opaque SLAB_POOL_CAPACITY.

Lemma occupied_count_insert l idx s s' :
  l !! idx = Some s ->
  occupied_count (<[idx := s']> l) =
  occupied_count l - (if occupied_slot s then 1 else 0) + (if occupied_slot s' then 1 else 0).
Proof.
  unfold occupied_count. revert idx. induction l as [|x l IH]; intros [|idx] Hs; simplify_eq/=.
  - destruct (occupied_slot s), (occupied_slot s'); simpl; lia.
  - specialize (IH idx Hs). destruct (occupied_slot x); simpl; lia.
Qed.

Lemma occupied_count_bound l : 0 <= occupied_count l <= Z.of_nat (length l).
Proof. unfold occupied_count. pose proof (filter_length_le occupied_slot l). lia. Qed.

(** The scan visits every slot. *)
Lemma scan_order_elem start idx :
  0 <= start < 65536 -> (idx ∈ scan_order start) <-> (idx < SLAB_POOL_CAPACITY)%nat.
Proof.
  intros Hs. pose proof slab_capacity_val as Hc. unfold scan_order. rewrite list_elem_of_In, in_map_iff. split.
  - intros (i & <- & _). apply Nat.mod_upper_bound. lia.
  - intros Hi. set (st := Z.to_nat start). assert (st < SLAB_POOL_CAPACITY)%nat by lia.
    destruct (decide (st <= idx)%nat).
    + exists (idx - st)%nat. split; [rewrite Nat.mod_small; lia|]. apply in_seq. lia.
    + exists (idx + SLAB_POOL_CAPACITY - st)%nat. split; [|apply in_seq; lia].
      replace (st + (idx + SLAB_POOL_CAPACITY - st))%nat with (idx + 1 * SLAB_POOL_CAPACITY)%nat by lia.
      rewrite Nat.Div0.mod_add. apply Nat.mod_small. lia.
Qed.

Lemma allocate_spec p h m :
  slab_pool_wf p -> is_free m = false ->
  match allocate p h m with
  | (p', Some idx) =>
      slot_is_free p idx = true /\ slots p' = <[idx := mkSlabSlot h m]> (slots p) /\ slab_pool_wf p' /\
      active_count p' = active_count p + 1
  | (p', None) => p' = p /\ Forall (fun s => is_free (meta s) = false) (slots p)
  end.
Proof.
  intros [Hlen Hcur Hcnt] Hm. unfold allocate. pose proof slab_capacity_val as Hc.
  destruct (List.find _ _) as [idx|] eqn:Hf.
  - apply find_some in Hf as [Hin Hfree]. split; [done|]. split; [done|].
    unfold slot_is_free in Hfree. destruct (slots p !! idx) as [s|] eqn:Hs; [|done].
    pose proof (occupied_count_insert (slots p) idx s (mkSlabSlot h m) Hs) as Hins.
    unfold occupied_slot in Hins. rewrite Hfree in Hins. simpl in Hins. rewrite Hm in Hins. simpl in Hins.
    pose proof (occupied_count_bound (<[idx := mkSlabSlot h m]> (slots p))) as Hb.
    pose proof (occupied_count_bound (slots p)).
    rewrite length_insert in Hb. simpl. rewrite (wrap_id 64 (active_count p + 1)) by (unfold fits; lia). split; [|done].
    constructor; simpl; [by rewrite length_insert| |lia].
    unfold wrap. apply Z.mod_pos_bound. lia.
  - split; [done|]. apply Forall_lookup. intros idx s Hs.
    pose proof (find_none _ _ Hf idx) as Hn. unfold slot_is_free in Hn. rewrite Hs in Hn. apply Hn.
    apply list_elem_of_In, scan_order_elem; [done|]. rewrite <- Hlen. by eapply lookup_lt_Some.
Qed.

Lemma evict_spec p idx s :
  slab_pool_wf p -> slots p !! idx = Some s -> is_free (meta s) = false ->
  slots (evict p idx) = <[idx := SlabSlot_empty]> (slots p) /\ slab_pool_wf (evict p idx) /\
  active_count (evict p idx) = active_count p - 1.
Proof.
  intros [Hlen Hcur Hcnt] Hs Ho. unfold evict. pose proof (lookup_lt_Some _ _ _ Hs) as Hlt.
  destruct (Nat.leb_spec (length (slots p)) idx); [lia|]. simpl.
  pose proof (occupied_count_insert (slots p) idx s SlabSlot_empty Hs) as Hins.
  unfold occupied_slot in Hins. rewrite Ho in Hins. simpl in Hins.
  pose proof (occupied_count_bound (<[idx := SlabSlot_empty]> (slots p))) as Hb. pose proof (occupied_count_bound (slots p)).
  pose proof slab_capacity_val. rewrite (wrap_id 64 (active_count p - 1)) by (unfold fits; lia).
  split_and!; [done| |done]. constructor; simpl; [by rewrite length_insert| |lia].
  unfold wrap. apply Z.mod_pos_bound. lia.
Qed.

Definition sweep (s : SlabSlot) : SlabSlot := if is_finished (meta s) then SlabSlot_empty else s.
Definition finished_count (l : list SlabSlot) : Z :=
  Z.of_nat (length (List.filter (fun s => is_finished (meta s)) l)).

Lemma finished_not_free m : is_finished m = true -> is_free m = false.
Proof. unfold is_finished, is_free. destruct (Z.eqb_spec (status m) 0) as [->|]; done. Qed.

(** The sweep from slot [i] on, the slots before it being done. *)
Lemma evict_sweep p n pre post :
  slab_pool_wf p -> slots p = pre ++ post ->
  let '(p', n') := foldl evict_if_finished (p, n) (seq (length pre) (length post)) in
  slab_pool_wf p' /\ slots p' = pre ++ map sweep post /\ n' = n + finished_count post /\
  active_count p' = active_count p - finished_count post.
Proof.
  revert p n pre. induction post as [|s post IH]; intros p n pre Hwf Hslots.
  { simpl. split_and!; (done || unfold finished_count; simpl; lia). }
  cbn [length seq foldl]. unfold evict_if_finished at 2. cbn [fst snd].
  assert (Hs : slots p !! length pre = Some s).
  { rewrite Hslots. by apply list_lookup_middle. }
  rewrite Hs. unfold finished_count; cbn [List.filter map]. unfold sweep at 1.
  destruct (is_finished (meta s)) eqn:Hfin.
  - destruct (evict_spec p (length pre) s Hwf Hs (finished_not_free _ Hfin)) as (Hsl & Hwf' & Hact).
    specialize (IH (evict p (length pre)) (n + 1) (pre ++ [SlabSlot_empty]) Hwf').
    rewrite Hsl, Hslots, length_app in IH. simpl in IH.
    replace (length pre + 1)%nat with (S (length pre)) in IH by lia.
    destruct (foldl evict_if_finished _ _) as [p' n']. destruct IH as (Hw & Hsl' & Hn & Ha).
    { rewrite <- app_assoc. simpl. rewrite insert_app_r_alt, Nat.sub_diag by done. done. }
    rewrite <- app_assoc in Hsl'. unfold finished_count in *. simpl. split_and!; [done|done|lia|lia].
  - specialize (IH p n (pre ++ [s]) Hwf). rewrite length_app in IH. simpl in IH.
    replace (length pre + 1)%nat with (S (length pre)) in IH by lia.
    destruct (foldl evict_if_finished _ _) as [p' n']. destruct IH as (Hw & Hsl' & Hn & Ha).
    { by rewrite <- app_assoc. }
    rewrite <- app_assoc in Hsl'. unfold finished_count in *. simpl. split_and!; done.
Qed.

(** A slab pool accounts for its slots: [allocate] takes a free slot and touches no
    other, and fails only when every slot is occupied; [evict] zeroes one slot;
    [evict_completed] zeroes exactly the finished ones and returns their number;
    [active_count] is the number of occupied slots throughout. *)
Theorem slab_pool_accounting (p : WorkflowSlabPool) (h : SlabHeader) (m : SlotMeta) (idx : nat) (s : SlabSlot)
  (Hwf : slab_pool_wf p) (Hm : is_free m = false)
  (Hs : slots p !! idx = Some s) (Hocc : is_free (meta s) = false) :
  (match allocate p h m with
   | (p', Some i) => slot_is_free p i = true /\ slots p' = <[i := mkSlabSlot h m]> (slots p) /\
                     slab_pool_wf p' /\ active_count p' = active_count p + 1
   | (p', None) => p' = p /\ Forall (fun s => is_free (meta s) = false) (slots p)
   end) /\
  (slots (evict p idx) = <[idx := SlabSlot_empty]> (slots p) /\ slab_pool_wf (evict p idx) /\
   active_count (evict p idx) = active_count p - 1) /\
  (let '(p', n) := evict_completed p in
   slab_pool_wf p' /\ slots p' = map sweep (slots p) /\ n = finished_count (slots p) /\
   active_count p' = active_count p - n).
Proof.
  split_and!; [by apply allocate_spec|by eapply evict_spec..|].
  unfold evict_completed. pose proof (evict_sweep p 0 [] (slots p) Hwf eq_refl) as Hsw. simpl in Hsw.
  destruct (foldl _ _ _) as [p' n]. destruct Hsw as (Hw & Hsl & -> & Ha).
  split_and!; [done|done|done|lia].
Qed.

(** A pool with one finished workflow. *)
Definition finished_meta : SlotMeta := mkMeta 1 0 0 2 0 0 0 0 0 [0; 0; 0; 0] 0 0 0 0 0.
Definition running_meta : SlotMeta := mkMeta 1 0 0 1 0 0 0 0 0 [0; 0; 0; 0] 0 0 0 0 0.
Definition sample_slab_header : SlabHeader := header SlabSlot_empty.

Lemma slab_pool_new_wf : slab_pool_wf slab_pool_new.
Proof.
  constructor; unfold slab_pool_new; cbn [slots free_cursor active_count]; [apply length_replicate|lia|].
  unfold occupied_count. induction SLAB_POOL_CAPACITY as [|n IH]; [done|]. exact IH.
Qed.

Lemma sample_allocated :
  exists p i, allocate slab_pool_new sample_slab_header finished_meta = (p, Some i) /\
    slab_pool_wf p /\ slots p !! i = Some (mkSlabSlot sample_slab_header finished_meta).
Proof.
  pose proof (allocate_spec slab_pool_new sample_slab_header finished_meta slab_pool_new_wf eq_refl) as Ha.
  destruct (allocate slab_pool_new sample_slab_header finished_meta) as [p [i|]].
  - destruct Ha as (Hfree & Hsl & Hwf & _). exists p, i. split_and!; [done|done|].
    rewrite Hsl. apply list_lookup_insert_eq. unfold slot_is_free in Hfree.
    destruct (slots slab_pool_new !! i) eqn:Hi; [|done]. by eapply lookup_lt_Some.
  - destruct Ha as [_ Hall]. unfold slab_pool_new in Hall; cbn [slots] in Hall.
    pose proof slab_capacity_val. destruct SLAB_POOL_CAPACITY as [|n]; [done|].
    cbn [replicate] in Hall. apply Forall_cons in Hall as [Hf _]. done.
Qed.

Lemma slab_pool_accounting_witness :
  exists p i, slots (evict p i) = <[i := SlabSlot_empty]> (slots p) /\
    active_count (evict p i) = active_count p - 1.
Proof.
  destruct sample_allocated as (p & i & _ & Hwf & Hs). exists p, i.
  destruct (slab_pool_accounting p sample_slab_header running_meta i
    (mkSlabSlot sample_slab_header finished_meta) Hwf eq_refl Hs eq_refl) as (_ & (He & _ & Ha) & _).
  exact (conj He Ha).
Defined.

End SlabPool.
