(* ===== verification/TaskQueue.v ===== *)
(** * Task queues ([velocity-workflow-engine/src/task_queue.rs])

    The named queues that hand workflow and activity tasks to pollers.  Every
    operation runs under the queue's mutex and is one definition here; a blocking
    poll is its loop body, [poll_check], run again after each wake-up.  An
    [Instant] is a number of milliseconds. *)

From stdpp Require Import sorting.
From S2P Require Import Prelude.

Module TaskQueue.

Inductive TaskKind : Type :=
| WorkflowTask
| ActivityTask
| TimerTask
| SignalTask.

Record TaskItem : Type := mkTask {
  task_id : Z;
  kind : TaskKind;
  workflow_key : Z;
  task_queue_hash : Z;
  step_index : Z;
  activity_name_id : Z;
  attempt : Z;
  priority : Z;
  deadline_ms : Z;
}.

#[export] Instance TaskKind_eq_dec : EqDecision TaskKind.
Proof. solve_decision. Defined.

#[export] Instance TaskItem_eq_dec : EqDecision TaskItem.
Proof. solve_decision. Defined.

Record QueueState : Type := mkQueue {
  deque : list TaskItem;
  shutdown_flag : bool;
  enqueued : Z;
  dequeued : Z;
  expired : Z;
  oldest_task_at : option Z;
}.

Definition QueueState_new : QueueState := mkQueue [] false 0 0 0 None.

(** [self.oldest_task_at.map(|t| t.elapsed())]. *)
Definition backlog_age (s : QueueState) (now : Z) : option Z :=
  match oldest_task_at s with Some t => Some (now - t) | None => None end.

Record QueueStats : Type := mkStats {
  stat_enqueued : Z;
  stat_dequeued : Z;
  stat_expired : Z;
  depth : nat;
  backlog_age_ms : Z;
}.

Record TaskQueue : Type := mkTaskQueue {
  inner : gmap Z QueueState;
  next_task_id : Z;
  total_enqueued : Z;
  total_dequeued : Z;
  total_expired : Z;
}.

Definition task_queue_new : TaskQueue := mkTaskQueue ∅ 1 0 0 0.

Definition with_task_id (t : TaskItem) (id : Z) : TaskItem :=
  mkTask id (kind t) (workflow_key t) (task_queue_hash t) (step_index t) (activity_name_id t)
    (attempt t) (priority t) (deadline_ms t).

(** Where [enqueue] puts a task. *)
Definition deque_insert (task : TaskItem) (d : list TaskItem) : list TaskItem :=
  if 0 <? priority task then
    let pos := match position (fun t => priority task <? priority t) d with
               | Some pos => pos
               | None => length d
               end in
    vec_insert pos task d
  else d ++ [task].

Definition queue_state (q : TaskQueue) (h : Z) : QueueState :=
  match inner q !! h with Some s => s | None => QueueState_new end.

Definition enqueue (q : TaskQueue) (h : Z) (t : TaskItem) (now : Z) : TaskQueue :=
  let task := with_task_id t (next_task_id q) in
  let s := queue_state q h in
  let s' := mkQueue (deque_insert task (deque s)) (shutdown_flag s) (wrap 64 (enqueued s + 1))
              (dequeued s) (expired s)
              (match oldest_task_at s with None => Some now | Some t0 => Some t0 end) in
  mkTaskQueue (<[h := s']> (inner q)) (wrap 64 (next_task_id q + 1))
    (wrap 64 (total_enqueued q + 1)) (total_dequeued q) (total_expired q).

(** Taking the front task off a queue (the common body of the three polls). *)
Definition pop_task (q : TaskQueue) (h : Z) (s : QueueState) : option (TaskQueue * TaskItem) :=
  match deque s with
  | task :: rest =>
      let s' := mkQueue rest (shutdown_flag s) (enqueued s) (wrap 64 (dequeued s + 1)) (expired s)
                  (match rest with [] => None | _ => oldest_task_at s end) in
      Some (mkTaskQueue (<[h := s']> (inner q)) (next_task_id q) (total_enqueued q)
              (wrap 64 (total_dequeued q + 1)) (total_expired q), task)
  | [] => None
  end.

Inductive poll_result : Type :=
| Polled (q : TaskQueue) (t : TaskItem)
| PollShutdown
| PollWait.

(** One pass of the loop of [poll]; [PollWait] is [self.condvar.wait(map)]. *)
Definition poll_check (q : TaskQueue) (h : Z) : poll_result :=
  match inner q !! h with
  | Some s =>
      match pop_task q h s with
      | Some (q', t) => Polled q' t
      | None => if shutdown_flag s then PollShutdown else PollWait
      end
  | None => PollWait
  end.

Definition try_poll (q : TaskQueue) (h : Z) : TaskQueue * option TaskItem :=
  match inner q !! h with
  | Some s => match pop_task q h s with Some (q', t) => (q', Some t) | None => (q, None) end
  | None => (q, None)
  end.

(** [poll_timeout] over the wake-ups of one call: the queue as it is at each, with the
    clock read after the check. *)
Fixpoint poll_timeout (h deadline : Z) (wakeups : list (TaskQueue * Z)) : option (TaskQueue * option TaskItem) :=
  match wakeups with
  | [] => None
  | (q, now) :: wakeups =>
      match poll_check q h with
      | Polled q' t => Some (q', Some t)
      | PollShutdown => Some (q, None)
      | PollWait => if deadline <=? now then Some (q, None) else poll_timeout h deadline wakeups
      end
  end.

Definition pending_count (q : TaskQueue) (h : Z) : nat :=
  match inner q !! h with Some s => length (deque s) | None => 0 end.

Definition total_pending (q : TaskQueue) : nat :=
  map_fold (fun _ s n => (length (deque s) + n)%nat) 0%nat (inner q).

Definition queue_count (q : TaskQueue) : nat := size (inner q).

Definition keep_task (now_ms : Z) (t : TaskItem) : bool :=
  (deadline_ms t =? 0) || (now_ms <? deadline_ms t).

Definition expire_queue (now_ms : Z) (s : QueueState) : QueueState :=
  let d := List.filter (keep_task now_ms) (deque s) in
  mkQueue d (shutdown_flag s) (enqueued s) (dequeued s)
    (wrap 64 (expired s + Z.of_nat (length (deque s) - length d))) (oldest_task_at s).

Definition removed_count (now_ms : Z) (q : TaskQueue) : nat :=
  map_fold (fun _ s n => (length (deque s) - length (List.filter (keep_task now_ms) (deque s)) + n)%nat)
    0%nat (inner q).

Definition remove_expired (q : TaskQueue) (now_ms : Z) : TaskQueue * nat :=
  let removed := removed_count now_ms q in
  (mkTaskQueue (expire_queue now_ms <$> inner q) (next_task_id q) (total_enqueued q) (total_dequeued q)
     (wrap 64 (total_expired q + Z.of_nat removed)), removed).

Definition shutdown (q : TaskQueue) : TaskQueue :=
  mkTaskQueue
    ((fun s => mkQueue (deque s) true (enqueued s) (dequeued s) (expired s) (oldest_task_at s)) <$> inner q)
    (next_task_id q) (total_enqueued q) (total_dequeued q) (total_expired q).

Definition queue_stats (q : TaskQueue) (h now : Z) : QueueStats :=
  match inner q !! h with
  | Some s => mkStats (enqueued s) (dequeued s) (expired s) (length (deque s))
                (match backlog_age s now with Some d => d | None => 0 end)
  | None => mkStats 0 0 0 0 0
  end.

Definition all_queue_stats (q : TaskQueue) (now : Z) : gmap Z QueueStats :=
  (fun s => mkStats (enqueued s) (dequeued s) (expired s) (length (deque s))
              (match backlog_age s now with Some d => d | None => 0 end)) <$> inner q.

(** ** Order within a queue *)

Definition of_priority (p : Z) (t : TaskItem) : bool := priority t =? p.

(** No task of positive priority number has one of a larger number ahead of it. *)
Definition prio_ok (a b : TaskItem) : Prop := 0 < priority b -> priority a <= priority b.
Definition deque_ok (d : list TaskItem) : Prop := StronglySorted prio_ok d.

(** Before the insertion point there is no task of larger number, so equal ones stay ahead. *)
Lemma deque_insert_split task d :
  exists d1 d2, d = d1 ++ d2 /\ deque_insert task d = d1 ++ task :: d2 /\
    (0 < priority task -> Forall (fun t => priority t <= priority task) d1 /\
       match d2 with [] => True | t :: _ => priority task < priority t end) /\
    (priority task <= 0 -> d2 = []).
Proof.
  unfold deque_insert. destruct (Z.ltb_spec 0 (priority task)) as [Hp|Hp].
  - destruct (position _ d) as [pos|] eqn:Hpos.
    + apply position_Some in Hpos as (t & Ht & Hgt%Z.ltb_lt & Hlt).
      exists (take pos d), (drop pos d). split_and!; [by rewrite take_drop|done| |lia]. intros _. split.
      * apply Forall_lookup. intros i x Hx. pose proof Hx as Hi%lookup_lt_Some.
        rewrite length_take in Hi. rewrite lookup_take_lt in Hx by lia.
        pose proof (Hlt i x ltac:(lia) Hx). lia.
      * by rewrite (drop_S _ t) by done.
    + apply position_None in Hpos. exists d, []. rewrite app_nil_r. unfold vec_insert.
      rewrite take_ge, drop_ge by done. split_and!; [done|done| |done]. intros _. split; [|done].
      eapply Forall_impl; [done|]. simpl. intros t Ht. lia.
  - exists d, []. rewrite app_nil_r. split_and!; (done || lia).
Qed.

Lemma deque_insert_ok task d : deque_ok d -> deque_ok (deque_insert task d).
Proof.
  destruct (deque_insert_split task d) as (d1 & d2 & -> & -> & Hpos & Hzero).
  unfold deque_ok. rewrite !StronglySorted_app, StronglySorted_cons. intros (H12 & H1 & H2).
  assert (Ht2 : forall x, x ∈ d2 -> prio_ok task x).
  { intros x Hx Hx0. destruct (Z.le_gt_cases (priority task) 0) as [Hle|Hgt]; [lia|].
    destruct (Hpos Hgt) as [_ Hhead]. destruct d2 as [|t d2]; [by apply elem_of_nil in Hx|].
    apply elem_of_cons in Hx as [->|Hx]; [lia|].
    apply StronglySorted_cons in H2 as [Hall _]. rewrite Forall_forall in Hall.
    pose proof (Hall x Hx Hx0). lia. }
  split_and!; [|done|by apply Forall_forall|done].
  intros x1 x2 Hx1 [->|Hx2]%elem_of_cons; [|by apply H12].
  intros Ht0. destruct (Hpos Ht0) as [Hall _]. rewrite Forall_forall in Hall. by apply Hall.
Qed.

(** A task goes behind all others of its priority. *)
Lemma deque_insert_fifo task d p :
  deque_ok d ->
  List.filter (of_priority p) (deque_insert task d) =
  List.filter (of_priority p) d ++ List.filter (of_priority p) [task].
Proof.
  destruct (deque_insert_split task d) as (d1 & d2 & -> & -> & Hpos & Hzero).
  intros (H12 & H1 & H2)%StronglySorted_app. rewrite !List.filter_app. cbn [List.filter].
  destruct (of_priority p task) eqn:Hp; [apply Z.eqb_eq in Hp|by rewrite app_nil_r].
  assert (List.filter (of_priority p) d2 = []) as ->; [|by rewrite app_nil_r].
  destruct (Z.le_gt_cases (priority task) 0) as [Hle|Hgt]; [by rewrite Hzero by lia|].
  destruct (Hpos Hgt) as [_ Hhead]. destruct d2 as [|t d2]; [done|].
  apply StronglySorted_cons in H2 as [Hall _]. cbn [List.filter]. unfold of_priority at 1.
  destruct (Z.eqb_spec (priority t) p); [lia|].
  clear H12 Hpos Hzero. induction Hall as [|x d2 Hx _ IH]; [done|]. cbn [List.filter].
  destruct (of_priority p x) eqn:Hxp; [|apply IH].
  unfold prio_ok, of_priority in *. apply Z.eqb_eq in Hxp. lia.
Qed.

Lemma deque_insert_perm task d : deque_insert task d ≡ₚ task :: d.
Proof.
  destruct (deque_insert_split task d) as (d1 & d2 & -> & -> & _). by rewrite Permutation_middle.
Qed.

(** ** Runs *)

Inductive queue_event : Type :=
| Enqueue (h : Z) (t : TaskItem) (now : Z)
| Poll (h : Z)
| Expire (now : Z)
| Shutdown.

(** What a run has submitted, delivered and dropped, each with its queue. *)
Record history : Type := mkHistory {
  submitted : list (Z * TaskItem);
  delivered : list (Z * TaskItem);
  dropped : list (Z * TaskItem);
}.

(** A task is overdue when it has a deadline, and the deadline is reached; deadline 0 is none. *)
Definition overdue (now : Z) (t : TaskItem) : Prop := deadline_ms t <> 0 /\ deadline_ms t <= now.

#[export] Instance overdue_dec now t : Decision (overdue now t).
Proof. unfold overdue. apply _. Defined.

(** What an expiry has to drop: the overdue tasks of all queues. *)
Definition expired_tasks (now : Z) (q : TaskQueue) : list (Z * TaskItem) :=
  flat_map (fun hs : Z * QueueState =>
    map (pair hs.1) (List.filter (fun t => bool_decide (overdue now t)) (deque hs.2)))
    (map_to_list (inner q)).

Definition queue_step (st : TaskQueue * history) (ev : queue_event) : TaskQueue * history :=
  let '(q, hist) := st in
  match ev with
  | Enqueue h t now =>
      (enqueue q h t now,
       mkHistory (submitted hist ++ [(h, with_task_id t (next_task_id q))]) (delivered hist) (dropped hist))
  | Poll h =>
      match try_poll q h with
      | (q', Some t) => (q', mkHistory (submitted hist) (delivered hist ++ [(h, t)]) (dropped hist))
      | (q', None) => (q', hist)
      end
  | Expire now =>
      ((remove_expired q now).1,
       mkHistory (submitted hist) (delivered hist) (dropped hist ++ expired_tasks now q))
  | Shutdown => (shutdown q, hist)
  end.

Definition run_queue (evs : list queue_event) : TaskQueue * history :=
  foldl queue_step (task_queue_new, mkHistory [] [] []) evs.

(** The part of a history on one queue. *)
Definition on_queue (h : Z) (l : list (Z * TaskItem)) : list TaskItem :=
  map snd (List.filter (fun p => p.1 =? h) l).

Definition pending (q : TaskQueue) (h : Z) : list TaskItem := deque (queue_state q h).

Lemma on_queue_app h l k : on_queue h (l ++ k) = on_queue h l ++ on_queue h k.
Proof. unfold on_queue. by rewrite List.filter_app, map_app. Qed.

Lemma on_queue_single h h' t : on_queue h [(h', t)] = if h' =? h then [t] else [].
Proof. unfold on_queue. simpl. by destruct (h' =? h). Qed.

Lemma pending_enqueue q h t now h' :
  pending (enqueue q h t now) h' =
  if h =? h' then deque_insert (with_task_id t (next_task_id q)) (pending q h) else pending q h'.
Proof.
  unfold pending, queue_state at 1, enqueue; simpl. destruct (Z.eqb_spec h h') as [->|].
  - by rewrite lookup_insert_eq.
  - rewrite lookup_insert_ne by done. done.
Qed.

Lemma pending_try_poll q h h' :
  match try_poll q h with
  | (q', Some t) => pending q h = t :: pending q' h /\ (h <> h' -> pending q' h' = pending q h') /\
                    next_task_id q' = next_task_id q
  | (q', None) => q' = q /\ pending q h = []
  end.
Proof.
  unfold try_poll, pending, queue_state. destruct (inner q !! h) as [s|] eqn:Hs; [|done].
  unfold pop_task. destruct (deque s) as [|t rest] eqn:Hd; [done|]. simpl.
  rewrite lookup_insert_eq. split_and!; [done| |done]. intros. by rewrite lookup_insert_ne.
Qed.

Lemma pending_expire q now h :
  pending (remove_expired q now).1 h = List.filter (keep_task now) (pending q h).
Proof.
  unfold pending, queue_state, remove_expired; simpl. rewrite lookup_fmap.
  by destruct (inner q !! h).
Qed.

Lemma pending_shutdown q h : pending (shutdown q) h = pending q h.
Proof. unfold pending, queue_state, shutdown; simpl. rewrite lookup_fmap. by destruct (inner q !! h). Qed.

Lemma on_queue_pairs h h' ts : on_queue h (map (pair h') ts) = if h' =? h then ts else [].
Proof.
  unfold on_queue. induction ts as [|t ts IH]; simpl; [by destruct (h' =? h)|].
  destruct (h' =? h); simpl; [by rewrite IH|done].
Qed.

Lemma on_queue_flat_map (f : QueueState -> list TaskItem) l h :
  NoDup l.*1 ->
  on_queue h (flat_map (fun hs : Z * QueueState => map (pair hs.1) (f hs.2)) l) =
  match (list_to_map l : gmap Z QueueState) !! h with Some s => f s | None => [] end.
Proof.
  induction l as [|[h' s] l IH]; intros Hnd; [done|]. apply NoDup_cons in Hnd as [Hh' Hnd].
  cbn [flat_map]. rewrite on_queue_app, IH, on_queue_pairs by done. cbn [fst snd list_to_map foldr].
  change (foldr _ _ l) with (list_to_map l : gmap Z QueueState).
  destruct (Z.eqb_spec h' h) as [->|].
  - rewrite lookup_insert_eq. apply (not_elem_of_list_to_map (M := gmap Z)) in Hh'. cbn [fst] in Hh'.
    rewrite Hh'. by rewrite app_nil_r.
  - by rewrite lookup_insert_ne.
Qed.

Lemma keep_task_overdue now t : keep_task now t = negb (bool_decide (overdue now t)).
Proof.
  unfold keep_task, overdue. destruct (Z.eqb_spec (deadline_ms t) 0), (Z.ltb_spec now (deadline_ms t)); case_bool_decide; cbn; lia || done.
Qed.

Lemma on_queue_expired now q h :
  on_queue h (expired_tasks now q) = List.filter (fun t => bool_decide (overdue now t)) (pending q h).
Proof.
  unfold expired_tasks.
  rewrite (on_queue_flat_map (fun s => List.filter (fun t => bool_decide (overdue now t)) (deque s)))
    by apply NoDup_fst_map_to_list.
  rewrite list_to_map_to_list. unfold pending, queue_state. by destruct (inner q !! h).
Qed.

Lemma filter_split_perm {A} (f g : A -> bool) l :
  (forall x, f x = negb (g x)) -> l ≡ₚ List.filter f l ++ List.filter g l.
Proof.
  intros Hfg. induction l as [|x l IH]; [done|]. simpl. rewrite Hfg. destruct (g x); simpl.
  - rewrite IH at 1. by rewrite Permutation_middle.
  - by rewrite <- IH.
Qed.

Lemma sublist_filter_mono {A} (f : A -> bool) l k : sublist l k -> sublist (List.filter f l) (List.filter f k).
Proof.
  induction 1 as [|x l k _ IH|x l k _ IH]; simpl; [done|..]; destruct (f x); try done.
  - by apply sublist_skip.
  - by apply sublist_cons.
Qed.

Record run_inv (n : nat) (st : TaskQueue * history) : Prop := {
  run_next : next_task_id st.1 = 1 + Z.of_nat n;
  run_ids : map (fun p => task_id p.2) (submitted st.2) = seqZ 1 (Z.of_nat n);
  run_perm : forall h, on_queue h (submitted st.2) ≡ₚ
    on_queue h (delivered st.2) ++ on_queue h (dropped st.2) ++ pending st.1 h;
  run_ok : forall h, deque_ok (pending st.1 h);
  run_fifo : forall h p, sublist
    (List.filter (of_priority p) (on_queue h (delivered st.2) ++ pending st.1 h))
    (List.filter (of_priority p) (on_queue h (submitted st.2)));
}.

Lemma run_inv_enqueue n q hist h t now :
  run_inv n (q, hist) -> Z.of_nat n + 2 < 2 ^ 64 -> run_inv (S n) (queue_step (q, hist) (Enqueue h t now)).
Proof.
  intros [Hnext Hids Hperm Hok Hfifo] Hn. simpl in *.
  constructor; cbn [queue_step fst snd next_task_id enqueue submitted delivered dropped].
  - rewrite Hnext, wrap_id by (unfold fits; lia). lia.
  - rewrite map_app, Hids. replace (Z.of_nat (S n)) with (Z.of_nat n + 1) by lia.
    rewrite seqZ_app by lia. cbn [map snd with_task_id task_id]. by rewrite Hnext.
  - intros h'. rewrite on_queue_app, on_queue_single, pending_enqueue, Hperm.
    destruct (Z.eqb_spec h h') as [->|]; [|by rewrite app_nil_r].
    rewrite deque_insert_perm, <- !app_assoc. by rewrite (Permutation_app_comm _ [_]).
  - intros h'. rewrite pending_enqueue. destruct (h =? h'); [|done]. by apply deque_insert_ok.
  - intros h' p. rewrite on_queue_app, on_queue_single, pending_enqueue.
    destruct (Z.eqb_spec h h') as [->|]; [|by rewrite app_nil_r].
    rewrite !List.filter_app, deque_insert_fifo, app_assoc by done. rewrite <- List.filter_app.
    by apply sublist_app.
Qed.

Lemma run_inv_poll n q hist h : run_inv n (q, hist) -> run_inv n (queue_step (q, hist) (Poll h)).
Proof.
  intros [Hnext Hids Hperm Hok Hfifo]. simpl in *.
  pose proof (fun h' => pending_try_poll q h h') as Hpoll.
  destruct (try_poll q h) as [q' [t|]]; [|destruct (Hpoll h) as [-> _]; by constructor].
  destruct (Hpoll h) as (Hh & _ & Hid).
  assert (Hcase : forall h', on_queue h' (delivered hist ++ [(h, t)]) ++ pending q' h' =
                             on_queue h' (delivered hist) ++ pending q h').
  { intros h'. rewrite on_queue_app, on_queue_single, <- app_assoc. destruct (Z.eqb_spec h h') as [<-|].
    - by rewrite Hh.
    - destruct (Hpoll h') as (_ & -> & _); done. }
  constructor; simpl.
  - by rewrite Hid.
  - done.
  - intros h'. rewrite Hperm. rewrite (Permutation_app_comm (on_queue h' (dropped hist))), app_assoc, <- Hcase.
    by rewrite <- app_assoc, (Permutation_app_comm (pending q' h')).
  - intros h'. destruct (decide (h = h')) as [<-|Hne].
    + specialize (Hok h). rewrite Hh in Hok. by apply StronglySorted_inv in Hok as [? _].
    + destruct (Hpoll h') as (_ & -> & _); done.
  - intros h' p. rewrite Hcase. apply Hfifo.
Qed.

Lemma deque_ok_filter f d : deque_ok d -> deque_ok (List.filter f d).
Proof.
  induction 1 as [|t d Hd IH Ht]; simpl; [constructor|]. destruct (f t); [|done].
  constructor; [done|]. by eapply sublist_Forall; [apply filter_sublist|].
Qed.

Lemma run_inv_expire n q hist now : run_inv n (q, hist) -> run_inv n (queue_step (q, hist) (Expire now)).
Proof.
  intros [Hnext Hids Hperm Hok Hfifo]. unfold queue_step. constructor; cbn [fst snd submitted delivered dropped] in *.
  - done.
  - done.
  - intros h. rewrite Hperm, on_queue_app, on_queue_expired, pending_expire.
    rewrite (filter_split_perm _ _ (pending q h) (keep_task_overdue now)) at 1.
    rewrite <- app_assoc. by rewrite (Permutation_app_comm (List.filter (keep_task now) _)).
  - intros h. rewrite pending_expire. by apply deque_ok_filter.
  - intros h p. rewrite pending_expire. etrans; [|apply Hfifo]. apply sublist_filter_mono.
    apply sublist_app; [done|]. apply filter_sublist.
Qed.

Lemma run_inv_shutdown n q hist : run_inv n (q, hist) -> run_inv n (queue_step (q, hist) Shutdown).
Proof.
  intros [Hnext Hids Hperm Hok Hfifo]. unfold queue_step. constructor; cbn [fst snd] in *; try done;
    intros h; rewrite pending_shutdown; auto.
Qed.

Definition enqueues (evs : list queue_event) : nat :=
  length (List.filter (fun ev => match ev with Enqueue _ _ _ => true | _ => false end) evs).

Lemma run_inv_all evs n st :
  run_inv n st -> Z.of_nat n + Z.of_nat (enqueues evs) + 1 < 2 ^ 64 ->
  run_inv (n + enqueues evs) (foldl queue_step st evs).
Proof.
  revert n st. induction evs as [|ev evs IH]; intros n [q hist] Hinv Hn.
  { unfold enqueues; simpl. by rewrite Nat.add_0_r. }
  cbn [foldl]. destruct ev as [h t now|h|now|]; unfold enqueues in *; cbn [List.filter length] in *.
  - rewrite <- Nat.add_succ_comm. apply IH; [|lia]. apply run_inv_enqueue; [done|lia].
  - apply IH; [by apply run_inv_poll|lia].
  - apply IH; [by apply run_inv_expire|lia].
  - apply IH; [by apply run_inv_shutdown|lia].
Qed.

Lemma run_inv_start : run_inv 0 (task_queue_new, mkHistory [] [] []).
Proof. constructor; try done. intros h. constructor. Qed.

(** What a run dropped had a deadline, and an expiry ran when it was reached. *)
Lemma expired_tasks_overdue now q p : p ∈ expired_tasks now q -> overdue now p.2.
Proof.
  unfold expired_tasks. rewrite elem_of_flat_map. intros (hs & Hp & _).
  apply list_elem_of_fmap in Hp as (t & -> & Ht). apply list_elem_of_In, filter_In in Ht as [_ Ht].
  by apply bool_decide_eq_true in Ht.
Qed.

Lemma dropped_overdue evs :
  Forall (fun p => exists now, Expire now ∈ evs /\ overdue now p.2) (dropped (run_queue evs).2).
Proof.
  induction evs as [|ev evs IH] using rev_ind; [constructor|]. unfold run_queue in *. rewrite foldl_app. cbn [foldl].
  assert (IH' : Forall (fun p => exists now, Expire now ∈ evs ++ [ev] /\ overdue now p.2)
    (dropped (foldl queue_step (task_queue_new, mkHistory [] [] []) evs).2)).
  { eapply Forall_impl; [exact IH|]. intros p (now & Hin & Ho). exists now. split; [by apply elem_of_app; left|done]. }
  destruct (foldl _ _ evs) as [q hist]. destruct ev as [h t now|h|now|]; cbn [queue_step]; try exact IH'.
  - by destruct (try_poll q h) as [q' [t|]].
  - cbn. apply Forall_app. split; [exact IH'|]. apply Forall_forall. intros p Hp%expired_tasks_overdue. exists now.
    split; [apply elem_of_app; right; by constructor|done].
Qed.

(** C18. Tasks are delivered exactly once: at every point of every run, the tasks
    submitted to a queue are those delivered from it, those dropped as expired and
    those still pending, with multiplicity; and all task ids are distinct.  An expiry
    drops exactly the pending tasks with a deadline that is reached: every dropped
    task had one (deadline 0 is none, such a task is never dropped), an expiry ran at
    or after it, and right after an expiry no overdue task is pending. *)
Theorem queue_exactly_once (evs : list queue_event) (h : Z)
  (Hids : Z.of_nat (enqueues evs) + 1 < 2 ^ 64) :
  let '(q, hist) := run_queue evs in
  on_queue h (submitted hist) ≡ₚ
    on_queue h (delivered hist) ++ on_queue h (dropped hist) ++ pending q h /\
  NoDup (map (fun p => task_id p.2) (submitted hist)) /\
  Forall (fun p => exists now, Expire now ∈ evs /\ deadline_ms p.2 <> 0 /\ deadline_ms p.2 <= now) (dropped hist) /\
  (forall now t, t ∈ pending (remove_expired q now).1 h <->
     t ∈ pending q h /\ (deadline_ms t = 0 \/ now < deadline_ms t)).
Proof.
  pose proof (dropped_overdue evs) as Hd. pose proof (run_inv_all evs 0 _ run_inv_start ltac:(lia)) as Hinv. unfold run_queue in *.
  destruct (foldl _ _ _) as [q hist]. destruct Hinv as [_ Hi Hp _ _]. cbn [fst snd Nat.add] in *.
  split_and!; [done|rewrite Hi; apply NoDup_seqZ|exact Hd|]. intros now t.
  rewrite pending_expire, list_elem_of_In, filter_In, <- list_elem_of_In, keep_task_overdue, negb_true_iff, bool_decide_eq_false.
  unfold overdue. by destruct (decide (deadline_ms t = 0)); intuition lia.
Qed.

(** Within a priority a queue is first-in first-out, in every run: the tasks of a
    priority delivered so far followed by those pending are in submission order. *)
Theorem queue_fifo_per_priority (evs : list queue_event) (h p : Z)
  (Hids : Z.of_nat (enqueues evs) + 1 < 2 ^ 64) :
  let '(q, hist) := run_queue evs in
  sublist (List.filter (of_priority p) (on_queue h (delivered hist) ++ pending q h))
          (List.filter (of_priority p) (on_queue h (submitted hist))).
Proof.
  pose proof (run_inv_all evs 0 _ run_inv_start ltac:(lia)) as Hinv. unfold run_queue.
  destruct (foldl _ _ _) as [q hist]. by destruct Hinv as [_ _ _ _ Hf].
Qed.

Lemma poll_check_try_poll q h q' t :
  poll_check q h = Polled q' t <-> try_poll q h = (q', Some t).
Proof.
  unfold poll_check, try_poll. destruct (inner q !! h) as [s|]; [|done].
  destruct (pop_task q h s) as [[q1 t1]|]; [split; intros; by simplify_eq|].
  by destruct (shutdown_flag s).
Qed.

(** A task of priority number 0 goes behind every pending task of its queue, of
    whatever priority; one of a positive number goes ahead of exactly the suffix
    that starts at the first task of a larger number. *)
Theorem enqueue_position (q : TaskQueue) (h : Z) (t : TaskItem) (now : Z) (Hp : 0 <= priority t) :
  let task := with_task_id t (next_task_id q) in
  exists d1 d2, pending q h = d1 ++ d2 /\ pending (enqueue q h t now) h = d1 ++ task :: d2 /\
    (priority t = 0 -> d2 = []) /\
    (0 < priority t -> Forall (fun x => priority x <= priority t) d1 /\
       match d2 with [] => True | x :: _ => priority t < priority x end).
Proof.
  intros task. rewrite pending_enqueue, Z.eqb_refl.
  destruct (deque_insert_split task (pending q h)) as (d1 & d2 & Hd & Hins & Hpos & Hzero).
  exists d1, d2. split_and!; [done|done| |done]. intros H0. apply Hzero. simpl. lia.
Qed.

Definition sample_task (prio deadline : Z) : TaskItem := mkTask 0 ActivityTask 1 9 0 0 1 prio deadline.

Lemma enqueue_position_witness :
  exists d1 d2, pending (enqueue task_queue_new 9 (sample_task 5 0) 0) 9 = d1 ++ d2 /\
    pending (enqueue (enqueue task_queue_new 9 (sample_task 5 0) 0) 9 (sample_task 0 0) 0) 9
      = d1 ++ with_task_id (sample_task 0 0) 2 :: d2 /\ d2 = [].
Proof.
  destruct (enqueue_position (enqueue task_queue_new 9 (sample_task 5 0) 0) 9 (sample_task 0 0) 0)
    as (d1 & d2 & H1 & H2 & H3 & _); [simpl; lia|].
  exists d1, d2. split; [exact H1|]. split; [exact H2|]. apply H3. reflexivity.
Defined.

(** After [shutdown] a blocking poll returns, with a task or with [None], exactly
    on the queues that have been used; on a name that was never enqueued to it
    still waits, and the wake-up of [shutdown] does not end it. *)
Theorem shutdown_reaches_used_queues (q : TaskQueue) (h : Z) :
  poll_check (shutdown q) h = PollWait <-> inner q !! h = None.
Proof.
  unfold poll_check, shutdown; simpl. rewrite lookup_fmap. destruct (inner q !! h) as [s|]; simpl; [|done].
  unfold pop_task; simpl. by destruct (deque s).
Qed.

(** Expiry leaves the backlog clock of an emptied queue running: a queue whose only
    task expired reports depth 0 and a growing backlog age, which the next task
    then inherits. *)
Theorem expiry_keeps_backlog_clock :
  let q := (remove_expired (enqueue task_queue_new 9 (sample_task 0 50) 100) 150).1 in
  depth (queue_stats q 9 1100) = 0%nat /\ backlog_age_ms (queue_stats q 9 1100) = 1000 /\
  backlog_age_ms (queue_stats (enqueue q 9 (sample_task 0 0) 1100) 9 1100) = 1000.
Proof. vm_compute. done. Qed.

Lemma queue_exactly_once_witness :
  let '(q, hist) := run_queue [Enqueue 9 (sample_task 5 0) 0; Enqueue 9 (sample_task 0 7) 0; Poll 9; Expire 8] in
  on_queue 9 (submitted hist) ≡ₚ on_queue 9 (delivered hist) ++ on_queue 9 (dropped hist) ++ pending q 9 /\
  length (dropped hist) = 1%nat.
Proof.
  pose proof (queue_exactly_once [Enqueue 9 (sample_task 5 0) 0; Enqueue 9 (sample_task 0 7) 0; Poll 9; Expire 8] 9 eq_refl) as H.
  split; [exact (proj1 H)|by vm_compute].
Defined.

Lemma queue_fifo_per_priority_witness :
  let '(q, hist) := run_queue [Enqueue 9 (sample_task 5 0) 0; Enqueue 9 (sample_task 5 0) 0; Poll 9] in
  sublist (List.filter (of_priority 5) (on_queue 9 (delivered hist) ++ pending q 9))
          (List.filter (of_priority 5) (on_queue 9 (submitted hist))).
Proof.
  apply (queue_fifo_per_priority [Enqueue 9 (sample_task 5 0) 0; Enqueue 9 (sample_task 5 0) 0; Poll 9] 9 5).
  reflexivity.
Defined.

End TaskQueue.
