(* ===== verification/CircuitBreaker.v ===== *)
(** * Circuit breakers ([velocity-workflow-engine/src/circuit_breaker.rs])

    The three-state breaker of a workflow type and the registry of breakers that
    guards workflow starts.  [now_ms()] is an argument of every operation that
    reads the clock. *)

From S2P Require Import Prelude.

Module CircuitBreaker.

Inductive CircuitState : Type :=
| Closed
| Open
| HalfOpen.

#[export] Instance CircuitState_eq_dec : EqDecision CircuitState.
Proof. solve_decision. Defined.

Record CircuitBreakerConfig : Type := mkConfig {
  failure_threshold : Z;
  cooldown_ms : Z;
  success_threshold : Z;
  half_open_max_requests : Z;
  failure_window_ms : Z;
}.

Definition default_config : CircuitBreakerConfig := mkConfig 5 30000 3 3 60000.
Definition aggressive : CircuitBreakerConfig := mkConfig 3 10000 2 2 30000.
Definition conservative : CircuitBreakerConfig := mkConfig 10 60000 5 5 120000.

Record WorkflowCircuitBreaker : Type := mkBreaker {
  workflow_type_id : Z;
  state : CircuitState;
  config : CircuitBreakerConfig;
  consecutive_failures : Z;
  window_failures : Z;
  half_open_successes : Z;
  half_open_requests : Z;
  opened_at_ms : Z;
  last_transition_ms : Z;
  times_opened : Z;
  total_rejected : Z;
  total_allowed : Z;
  failure_timestamps : list Z;
}.

Definition breaker_new (type_id : Z) (cfg : CircuitBreakerConfig) (now : Z) : WorkflowCircuitBreaker :=
  mkBreaker type_id Closed cfg 0 0 0 0 0 now 0 0 0 [].

Definition transition_to (b : WorkflowCircuitBreaker) (new_state : CircuitState) (now : Z) :
  WorkflowCircuitBreaker :=
  if decide (state b = new_state) then b
  else
    let opening := bool_decide (new_state = Open) in
    mkBreaker (workflow_type_id b) new_state (config b) (consecutive_failures b) (window_failures b)
      (half_open_successes b) (half_open_requests b)
      (if opening then now else opened_at_ms b) now
      (if opening then wrap 64 (times_opened b + 1) else times_opened b)
      (total_rejected b) (total_allowed b) (failure_timestamps b).

(** Field updates of the handlers below. *)
Definition with_half_open (b : WorkflowCircuitBreaker) (successes requests : Z) : WorkflowCircuitBreaker :=
  mkBreaker (workflow_type_id b) (state b) (config b) (consecutive_failures b) (window_failures b)
    successes requests (opened_at_ms b) (last_transition_ms b) (times_opened b)
    (total_rejected b) (total_allowed b) (failure_timestamps b).

Definition with_counts (b : WorkflowCircuitBreaker) (rejected allowed : Z) : WorkflowCircuitBreaker :=
  mkBreaker (workflow_type_id b) (state b) (config b) (consecutive_failures b) (window_failures b)
    (half_open_successes b) (half_open_requests b) (opened_at_ms b) (last_transition_ms b) (times_opened b)
    rejected allowed (failure_timestamps b).

Definition with_failures (b : WorkflowCircuitBreaker) (consecutive window : Z) (stamps : list Z) :
  WorkflowCircuitBreaker :=
  mkBreaker (workflow_type_id b) (state b) (config b) consecutive window
    (half_open_successes b) (half_open_requests b) (opened_at_ms b) (last_transition_ms b) (times_opened b)
    (total_rejected b) (total_allowed b) stamps.

Definition reject (b : WorkflowCircuitBreaker) : WorkflowCircuitBreaker :=
  with_counts b (wrap 64 (total_rejected b + 1)) (total_allowed b).
Definition admit_request (b : WorkflowCircuitBreaker) : WorkflowCircuitBreaker :=
  with_counts b (total_rejected b) (wrap 64 (total_allowed b + 1)).

Definition allow_request (b : WorkflowCircuitBreaker) (now : Z) : WorkflowCircuitBreaker * bool :=
  match state b with
  | Closed => (admit_request b, true)
  | Open =>
      if wrapping_add 64 (opened_at_ms b) (cooldown_ms (config b)) <=? now then
        let b := transition_to b HalfOpen now in
        let b := with_half_open b 0 0 in
        let b := admit_request b in
        (with_half_open b (half_open_successes b) (wrap 32 (half_open_requests b + 1)), true)
      else (reject b, false)
  | HalfOpen =>
      if half_open_requests b <? half_open_max_requests (config b) then
        (admit_request (with_half_open b (half_open_successes b) (wrap 32 (half_open_requests b + 1))), true)
      else (reject b, false)
  end.

Definition record_success (b : WorkflowCircuitBreaker) (now : Z) : WorkflowCircuitBreaker :=
  match state b with
  | Closed => with_failures b 0 0 []
  | HalfOpen =>
      let b := with_half_open b (wrap 32 (half_open_successes b + 1)) (half_open_requests b) in
      if success_threshold (config b) <=? half_open_successes b then
        with_failures (transition_to b Closed now) 0 0 []
      else b
  | Open => b
  end.

Definition prune_old_failures (b : WorkflowCircuitBreaker) (now : Z) : WorkflowCircuitBreaker :=
  let cutoff := saturating_sub now (failure_window_ms (config b)) in
  with_failures b (consecutive_failures b) (window_failures b)
    (List.filter (fun t => cutoff <=? t) (failure_timestamps b)).

Definition record_failure (b : WorkflowCircuitBreaker) (now : Z) : WorkflowCircuitBreaker :=
  let b := with_failures b (consecutive_failures b) (window_failures b) (failure_timestamps b ++ [now]) in
  let b := prune_old_failures b now in
  match state b with
  | Closed =>
      let b := with_failures b (wrap 32 (consecutive_failures b + 1))
                 (wrap 32 (Z.of_nat (length (failure_timestamps b)))) (failure_timestamps b) in
      if (failure_threshold (config b) <=? consecutive_failures b)
         || (failure_threshold (config b) <=? window_failures b)
      then transition_to b Open now else b
  | HalfOpen => transition_to b Open now
  | Open => b
  end.

Definition force_state (b : WorkflowCircuitBreaker) (s : CircuitState) (now : Z) : WorkflowCircuitBreaker :=
  transition_to b s now.

Definition breaker_reset (b : WorkflowCircuitBreaker) (now : Z) : WorkflowCircuitBreaker :=
  with_failures (with_half_open (transition_to b Closed now) 0 0) 0 0 [].

(** ** Registry *)

Record CircuitBreakerRegistry : Type := mkRegistry {
  breakers : gmap Z WorkflowCircuitBreaker;
  registry_config : CircuitBreakerConfig;
  total_requests : Z;
  registry_rejected : Z;
  total_opened : Z;
}.

Definition registry_new : CircuitBreakerRegistry := mkRegistry ∅ default_config 0 0 0.
Definition registry_with_default_config (cfg : CircuitBreakerConfig) : CircuitBreakerRegistry :=
  mkRegistry ∅ cfg 0 0 0.

Definition registry_register (r : CircuitBreakerRegistry) (type_id : Z) (cfg : CircuitBreakerConfig) (now : Z) :
  CircuitBreakerRegistry :=
  mkRegistry (<[type_id := breaker_new type_id cfg now]> (breakers r)) (registry_config r)
    (total_requests r) (registry_rejected r) (total_opened r).

Definition registry_allow_request (r : CircuitBreakerRegistry) (type_id now : Z) : CircuitBreakerRegistry * bool :=
  let b := match breakers r !! type_id with
           | Some b => b
           | None => breaker_new type_id (registry_config r) now
           end in
  let '(b', allowed) := allow_request b now in
  (mkRegistry (<[type_id := b']> (breakers r)) (registry_config r) (wrap 64 (total_requests r + 1))
     (if allowed then registry_rejected r else wrap 64 (registry_rejected r + 1)) (total_opened r), allowed).

Definition registry_record_success (r : CircuitBreakerRegistry) (type_id now : Z) : CircuitBreakerRegistry :=
  match breakers r !! type_id with
  | Some b =>
      let b' := record_success b now in
      mkRegistry (<[type_id := b']> (breakers r)) (registry_config r) (total_requests r) (registry_rejected r)
        (if negb (bool_decide (state b = Closed)) && bool_decide (state b' = Closed)
         then wrap 64 (total_opened r - 1) else total_opened r)
  | None => r
  end.

Definition registry_record_failure (r : CircuitBreakerRegistry) (type_id now : Z) : CircuitBreakerRegistry :=
  match breakers r !! type_id with
  | Some b =>
      let b' := record_failure b now in
      mkRegistry (<[type_id := b']> (breakers r)) (registry_config r) (total_requests r) (registry_rejected r)
        (if negb (bool_decide (state b = Open)) && bool_decide (state b' = Open)
         then wrap 64 (total_opened r + 1) else total_opened r)
  | None => r
  end.

Definition registry_get_state (r : CircuitBreakerRegistry) (type_id : Z) : CircuitState :=
  match breakers r !! type_id with Some b => state b | None => Closed end.

Definition registry_reset (r : CircuitBreakerRegistry) (type_id now : Z) : CircuitBreakerRegistry :=
  mkRegistry (alter (fun b => breaker_reset b now) type_id (breakers r)) (registry_config r)
    (total_requests r) (registry_rejected r) (total_opened r).

Definition registry_reset_all (r : CircuitBreakerRegistry) (now : Z) : CircuitBreakerRegistry :=
  mkRegistry ((fun b => breaker_reset b now) <$> breakers r) (registry_config r)
    (total_requests r) (registry_rejected r) (total_opened r).

Definition open_circuit_count (r : CircuitBreakerRegistry) : nat :=
  length (List.filter (fun p => bool_decide (state p.2 = Open)) (map_to_list (breakers r))).

(** ** Runs of one breaker *)

Inductive breaker_event : Type :=
| Request
| Success
| Failure.

Definition breaker_step (b : WorkflowCircuitBreaker) (ev : breaker_event * Z) : WorkflowCircuitBreaker * option bool :=
  match ev.1 with
  | Request => let '(b', ok) := allow_request b ev.2 in (b', Some ok)
  | Success => (record_success b ev.2, None)
  | Failure => (record_failure b ev.2, None)
  end.

(** The final breaker and the answers given to the requests. *)
Fixpoint breaker_run (b : WorkflowCircuitBreaker) (evs : list (breaker_event * Z)) :
  WorkflowCircuitBreaker * list bool :=
  match evs with
  | [] => (b, [])
  | ev :: evs =>
      let '(b', out) := breaker_step b ev in
      let '(b'', outs) := breaker_run b' evs in
      (b'', match out with Some ok => ok :: outs | None => outs end)
  end.

(** An open circuit rejects every request until its cooldown has elapsed, whatever
    results of earlier requests arrive meanwhile, and stays open. *)
Theorem open_circuit_rejects (b : WorkflowCircuitBreaker) (evs : list (breaker_event * Z))
  (Hopen : state b = Open)
  (Hsum : u64 (opened_at_ms b + cooldown_ms (config b)))
  (Htimes : Forall (fun ev => ev.2 < opened_at_ms b + cooldown_ms (config b)) evs) :
  let '(b', outs) := breaker_run b evs in
  state b' = Open /\ opened_at_ms b' = opened_at_ms b /\ Forall (fun ok => ok = false) outs.
Proof.
  revert b Hopen Hsum Htimes. induction evs as [|[ev now] evs IH]; intros b Hopen Hsum Htimes; [done|].
  apply Forall_cons in Htimes as [Hnow Htimes]. simpl in Hnow.
  assert (Hstep : exists b' out, breaker_step b (ev, now) = (b', out) /\ state b' = Open /\
    opened_at_ms b' = opened_at_ms b /\ config b' = config b /\ (out = None \/ out = Some false)).
  { destruct ev; unfold breaker_step; simpl.
    - unfold allow_request. rewrite Hopen. unfold wrapping_add. rewrite wrap_id by done.
      destruct (Z.leb_spec (opened_at_ms b + cooldown_ms (config b)) now); [lia|]. eauto 10.
    - unfold record_success. rewrite Hopen. eauto 10.
    - unfold record_failure; simpl. rewrite Hopen. eexists _, _. split_and!; eauto. }
  destruct Hstep as (b' & out & Heq & Hopen' & Hat & Hcfg & Hout). cbn [breaker_run]. rewrite Heq.
  specialize (IH b' Hopen'). rewrite Hat, Hcfg in IH. specialize (IH Hsum Htimes).
  destruct (breaker_run b' evs) as [b'' outs]. destruct IH as (H1 & H2 & H3).
  split_and!; [done|done|]. destruct Hout as [-> | ->]; [done|]. by constructor.
Qed.

(** [n] failures in a row, at the given times. *)
Definition failures (b : WorkflowCircuitBreaker) (times : list Z) : WorkflowCircuitBreaker :=
  foldl record_failure b times.

(** The windowed count never exceeds the consecutive one: both are cleared by the same
    successes, and pruning only removes timestamps. *)
Definition window_inv (b : WorkflowCircuitBreaker) : Prop :=
  0 <= consecutive_failures b /\ Z.of_nat (length (failure_timestamps b)) <= consecutive_failures b.

Lemma record_failure_closed b now :
  state b = Closed -> window_inv b -> consecutive_failures b + 1 < 2 ^ 32 ->
  let b' := record_failure b now in
  window_inv b' /\ consecutive_failures b' = consecutive_failures b + 1 /\ config b' = config b /\
  state b' = (if failure_threshold (config b) <=? consecutive_failures b + 1 then Open else Closed).
Proof.
  intros Hst [Hnn Hwin] Hlt. unfold record_failure, prune_old_failures. simpl. rewrite Hst. simpl.
  set (stamps := List.filter _ (failure_timestamps b ++ [now])).
  assert (Hst' : Z.of_nat (length stamps) <= consecutive_failures b + 1).
  { unfold stamps. pose proof (filter_length_le (fun t => saturating_sub now (failure_window_ms (config b)) <=? t)
      (failure_timestamps b ++ [now])) as Hf. rewrite length_app in Hf. simpl in Hf. lia. }
  rewrite (wrap_id 32 (consecutive_failures b + 1)) by (unfold fits; lia).
  rewrite (wrap_id 32 (Z.of_nat (length stamps))) by (unfold fits; lia).
  destruct (Z.leb_spec (failure_threshold (config b)) (consecutive_failures b + 1)) as [Hle|Hgt]; simpl.
  - unfold transition_to; simpl. rewrite Hst. rewrite decide_False by done. simpl.
    split_and!; try done. split; simpl; lia.
  - destruct (Z.leb_spec (failure_threshold (config b)) (Z.of_nat (length stamps))); [lia|].
    split_and!; try done. split; simpl; lia.
Qed.

Lemma record_failure_stays_open b now : state b = Open -> state (record_failure b now) = Open.
Proof. intros Hst. unfold record_failure; simpl. by rewrite Hst. Qed.

Lemma failures_stay_open b times : state b = Open -> state (failures b times) = Open.
Proof.
  unfold failures. revert b. induction times as [|t times IH]; intros b Hst; [done|].
  apply IH. by apply record_failure_stays_open.
Qed.

Lemma failures_count b times :
  state b = Closed -> window_inv b -> consecutive_failures b < failure_threshold (config b) < 2 ^ 32 ->
  state (failures b times) =
    (if failure_threshold (config b) <=? consecutive_failures b + Z.of_nat (length times) then Open else Closed).
Proof.
  unfold failures. revert b. induction times as [|t times IH]; intros b Hst Hwin Hth.
  { simpl. rewrite Z.add_0_r. bool_cases; (done || lia). }
  cbn [foldl length]. rewrite Nat2Z.inj_succ.
  destruct (record_failure_closed b t Hst Hwin) as (Hwin' & Hc & Hcfg & Hst'); [lia|].
  destruct (Z.leb_spec (failure_threshold (config b)) (consecutive_failures b + 1)) as [Hle|Hgt].
  - pose proof (failures_stay_open (record_failure b t) times Hst') as Ho. unfold failures in Ho. rewrite Ho.
    bool_cases; (done || lia).
  - rewrite IH; [|done|done|rewrite Hc, Hcfg; lia]. rewrite Hc, Hcfg. bool_cases; (done || lia).
Qed.

(** A fresh breaker trips at exactly [failure_threshold] failures without a success
    between them, at whatever times they happen: the failure window does not
    spread them out. *)
Theorem breaker_trips_at_threshold (type_id : Z) (cfg : CircuitBreakerConfig) (now : Z) (times : list Z)
  (Hth : 0 < failure_threshold cfg < 2 ^ 32) :
  state (failures (breaker_new type_id cfg now) times) =
    (if failure_threshold cfg <=? Z.of_nat (length times) then Open else Closed).
Proof. rewrite failures_count; [done|done| |simpl; lia]. split; simpl; lia. Qed.

(** A half-open circuit that has handed out its trial requests rejects every
    further one at any later time; only the outcome of a trial can move it, so
    trials that end without one (a canceled or terminated workflow reports
    neither) block the type for good. *)
Theorem half_open_without_outcome_is_stuck (b : WorkflowCircuitBreaker) (times : list Z)
  (Hhalf : state b = HalfOpen) (Hfull : half_open_max_requests (config b) <= half_open_requests b) :
  let '(b', outs) := breaker_run b (map (fun t => (Request, t)) times) in
  state b' = HalfOpen /\ Forall (fun ok => ok = false) outs.
Proof.
  revert b Hhalf Hfull. induction times as [|t times IH]; intros b Hhalf Hfull; [done|].
  cbn [map breaker_run]. unfold breaker_step at 1; cbn [fst snd]. unfold allow_request. rewrite Hhalf.
  destruct (Z.ltb_spec (half_open_requests b) (half_open_max_requests (config b))); [lia|].
  specialize (IH (reject b) Hhalf Hfull). destruct (breaker_run (reject b) _) as [b' outs].
  destruct IH as [H1 H2]. split; [done|]. by constructor.
Qed.

(** Five failures at times 0 to 4. *)
Definition sample_open : WorkflowCircuitBreaker := failures (breaker_new 1 default_config 0) [0; 1; 2; 3; 4].

Lemma open_circuit_rejects_witness :
  let '(b', outs) := breaker_run sample_open [(Request, 10); (Success, 20); (Request, 30003)] in
  state b' = Open /\ opened_at_ms b' = 4 /\ Forall (fun ok => ok = false) outs.
Proof.
  apply (open_circuit_rejects sample_open [(Request, 10); (Success, 20); (Request, 30003)]).
  - reflexivity.
  - change (opened_at_ms sample_open + cooldown_ms (config sample_open)) with 30004. unfold fits. lia.
  - change (opened_at_ms sample_open + cooldown_ms (config sample_open)) with 30004.
    repeat (constructor; [simpl; lia|]). constructor.
Defined.

Lemma breaker_trips_at_threshold_witness :
  state (failures (breaker_new 1 aggressive 0) [0; 1000000; 2000000]) = Open.
Proof. apply (breaker_trips_at_threshold 1 aggressive 0 [0; 1000000; 2000000]). simpl. lia. Defined.

(** After the cooldown three trials are admitted. *)
Definition sample_half_open : WorkflowCircuitBreaker :=
  (breaker_run sample_open [(Request, 30004); (Request, 30005); (Request, 30006)]).1.

Lemma half_open_without_outcome_is_stuck_witness :
  let '(b', outs) := breaker_run sample_half_open (map (fun t => (Request, t)) [10 ^ 9; 10 ^ 12]) in
  state b' = HalfOpen /\ Forall (fun ok => ok = false) outs.
Proof.
  apply (half_open_without_outcome_is_stuck sample_half_open [10 ^ 9; 10 ^ 12]); [reflexivity|].
  change (3 <= 3). lia.
Defined.

End CircuitBreaker.
