(* ===== verification/EventHistory.v ===== *)
(** * Event history ([event_history.rs])

    [HistoryStore] keeps, per workflow key, a vector of numbered events and the
    next event number.  The specification is a map from keys to the list of what
    was recorded; numbers are positions. *)

From S2P Require Import Prelude.

Module EventHistory.

Inductive HistoryEventType :=
| WorkflowStarted | WorkflowCompleted | WorkflowFailed | WorkflowCanceled
| WorkflowTerminated | WorkflowTimedOut | WorkflowContinuedAsNew
| StepCompleted
| ActivityScheduled | ActivityStarted | ActivityCompleted | ActivityFailed | ActivityTimedOut
| SignalReceived | UpdateReceived | QueryReceived
| TimerStarted | TimerFired | TimerCanceled
| ChildWorkflowStarted | ChildWorkflowCompleted | ChildWorkflowFailed
| MarkerRecorded | WorkflowReset.

#[export] Instance HistoryEventType_eq_dec : EqDecision HistoryEventType.
Proof. solve_decision. Defined.

Record HistoryEvent := {
  event_id : Z;
  event_type : HistoryEventType;
  event_workflow_key : Z;
  timestamp_ms : Z;
  event_payload : bytes;
  attributes : gmap string string
}.

Record WorkflowHistory := { events : list HistoryEvent; next_event_id : Z }.

Definition WorkflowHistory_new : WorkflowHistory := {| events := []; next_event_id := 1 |}.

(** [append_with_attrs]: [fetch_add(1)] on the atomic counter wraps. *)
Definition append_with_attrs (h : WorkflowHistory) (ty : HistoryEventType) (key : Z)
    (payload : bytes) (attrs : gmap string string) : WorkflowHistory * Z :=
  let id := next_event_id h in
  ({| events := events h ++
        [{| event_id := id; event_type := ty; event_workflow_key := key; timestamp_ms := 0;
            event_payload := payload; attributes := attrs |}];
      next_event_id := wrap 64 (id + 1) |}, id).

Definition append (h : WorkflowHistory) (ty : HistoryEventType) (key : Z) (payload : bytes)
    : WorkflowHistory * Z :=
  append_with_attrs h ty key payload ∅.

Definition get_event (h : WorkflowHistory) (id : Z) : option HistoryEvent :=
  List.find (fun e => event_id e =? id) (events h).

Definition get_events_by_type (h : WorkflowHistory) (ty : HistoryEventType) : list HistoryEvent :=
  List.filter (fun e => bool_decide (event_type e = ty)) (events h).

Definition last_event_id (h : WorkflowHistory) : Z :=
  match last (events h) with Some e => event_id e | None => 0 end.

Definition get_events_page (h : WorkflowHistory) (start : Z) (max_count : nat) : list HistoryEvent :=
  take max_count (List.filter (fun e => start <=? event_id e) (events h)).

(** ** The store: [Mutex<HashMap<u64, WorkflowHistory>>] *)

Abbreviation HistoryStore := (gmap Z WorkflowHistory).

Definition history_entry (s : HistoryStore) (key : Z) : WorkflowHistory :=
  default WorkflowHistory_new (s !! key).

Definition record_event_with_attrs (s : HistoryStore) (key : Z) (ty : HistoryEventType)
    (payload : bytes) (attrs : gmap string string) : HistoryStore * Z :=
  let '(h, id) := append_with_attrs (history_entry s key) ty key payload attrs in
  (<[key := h]> s, id).

Definition record_event (s : HistoryStore) (key : Z) (ty : HistoryEventType) (payload : bytes)
    : HistoryStore * Z :=
  let '(h, id) := append (history_entry s key) ty key payload in (<[key := h]> s, id).

Definition get_history (s : HistoryStore) (key : Z) : option (list HistoryEvent) :=
  events <$> s !! key.

Definition get_history_page (s : HistoryStore) (key start : Z) (max_count : nat)
    : list HistoryEvent :=
  match s !! key with Some h => get_events_page h start max_count | None => [] end.

Definition event_count (s : HistoryStore) (key : Z) : nat :=
  match s !! key with Some h => length (events h) | None => O end.

Definition workflow_count (s : HistoryStore) : nat := size s.

Definition remove_history (s : HistoryStore) (key : Z) : HistoryStore * bool :=
  (delete key s, bool_decide (is_Some (s !! key))).

(** ** Specification: what was recorded, in order *)

Definition entry : Type := HistoryEventType * bytes * gmap string string.

Inductive history_op :=
| HRecord (key : Z) (e : entry)
| HRemove (key : Z).

Definition step_op (s : HistoryStore) (o : history_op) : HistoryStore :=
  match o with
  | HRecord key (ty, p, a) => (record_event_with_attrs s key ty p a).1
  | HRemove key => (remove_history s key).1
  end.

Definition spec_op (m : gmap Z (list entry)) (o : history_op) : gmap Z (list entry) :=
  match o with
  | HRecord key e => <[key := default [] (m !! key) ++ [e]]> m
  | HRemove key => delete key m
  end.

(** Event [i] of the log of [key], numbered from 1. *)
Definition numbered (key : Z) (i : nat) (e : entry) : HistoryEvent :=
  {| event_id := Z.of_nat i + 1; event_type := e.1.1; event_workflow_key := key;
     timestamp_ms := 0; event_payload := e.1.2; attributes := e.2 |}.

(** The store represents the logs. *)
Definition history_of (key : Z) (l : list entry) : WorkflowHistory :=
  {| events := imap (numbered key) l; next_event_id := Z.of_nat (length l) + 1 |}.

Definition history_rel (s : HistoryStore) (m : gmap Z (list entry)) : Prop :=
  forall key, s !! key = history_of key <$> m !! key.

Definition logs_bounded (n : nat) (m : gmap Z (list entry)) : Prop :=
  forall key l, m !! key = Some l -> (length l <= n)%nat.

Lemma record_event_is_with_attrs s key ty p :
  record_event s key ty p = record_event_with_attrs s key ty p ∅.
Proof. done. Qed.

Lemma append_history_of key l (e : entry) :
  Z.of_nat (length l) + 2 < 2 ^ 64 ->
  append_with_attrs (history_of key l) e.1.1 key e.1.2 e.2 =
  (history_of key (l ++ [e]), Z.of_nat (length l) + 1).
Proof.
  intros Hl. unfold append_with_attrs, history_of. simpl. f_equal. f_equal.
  - rewrite imap_app. simpl. unfold numbered at 3. by rewrite Nat.add_0_r.
  - rewrite length_app, wrap_id by ranges. simpl. lia.
Qed.

Lemma step_op_rel n s m o :
  history_rel s m -> logs_bounded n m -> Z.of_nat n + 2 < 2 ^ 64 ->
  history_rel (step_op s o) (spec_op m o) /\ logs_bounded (S n) (spec_op m o).
Proof.
  intros Hrel Hb Hn. destruct o as [key [[ty p] a]|key]; cbn [step_op spec_op].
  - unfold record_event_with_attrs.
    assert (He : history_entry s key = history_of key (default [] (m !! key))).
    { unfold history_entry. rewrite Hrel. by destruct (m !! key). }
    assert (Hl : (length (default [] (m !! key)) <= n)%nat).
    { destruct (m !! key) eqn:E; simpl; [by eapply Hb|lia]. }
    rewrite He. pose proof (append_history_of key (default [] (m !! key)) (ty, p, a)) as Ha.
    cbn [fst snd] in Ha. rewrite Ha by lia. cbn [fst]. split.
    + intros k. destruct (decide (k = key)) as [->|].
      * by rewrite !lookup_insert_eq.
      * rewrite !lookup_insert_ne by done. apply Hrel.
    + intros k l. rewrite lookup_insert_Some. intros [[<- <-]|[_ Hk]].
      * rewrite length_app. simpl. lia.
      * apply Hb in Hk. lia.
  - cbn [remove_history fst]. split.
    + intros k. destruct (decide (k = key)) as [->|].
      * by rewrite !lookup_delete_eq.
      * rewrite !lookup_delete_ne by done. apply Hrel.
    + intros k l. rewrite lookup_delete_Some. intros [_ Hk]. apply Hb in Hk. lia.
Qed.

Lemma run_ops_rel ops : forall n s m,
  history_rel s m -> logs_bounded n m -> Z.of_nat (n + length ops) + 2 < 2 ^ 64 ->
  history_rel (foldl step_op s ops) (foldl spec_op m ops).
Proof.
  induction ops as [|o ops IH]; intros n s m Hrel Hb Hn; [done|]. simpl in *.
  destruct (step_op_rel n s m o) as [??]; [done|done|lia|].
  apply (IH (S n)); [done|done|lia].
Qed.

Lemma imap_shift {A B} (f : nat -> A -> B) off (l : list A) :
  imap ((fun j => f (off + j)%nat) ∘ S) l = imap (fun j => f (S off + j)%nat) l.
Proof. apply imap_ext. intros j x _. simpl. by rewrite Nat.add_succ_r. Qed.

Lemma filter_numbered_all key (l : list entry) (i off : nat) :
  (i <= off)%nat ->
  List.filter (fun e => Z.of_nat i + 1 <=? event_id e) (imap (fun j => numbered key (off + j)) l)
  = imap (fun j => numbered key (off + j)) l.
Proof.
  revert off. induction l as [|x l IH]; intros off Hi; [done|]. simpl.
  rewrite (proj2 (Z.leb_le _ _)) by lia. f_equal.
  rewrite (imap_shift (numbered key)). apply IH. lia.
Qed.

(** The page of a numbered log starting at event [i + 1]. *)
Lemma filter_numbered key (l : list entry) (i off : nat) :
  (i <= off + length l)%nat -> (off <= i)%nat ->
  List.filter (fun e => Z.of_nat i + 1 <=? event_id e) (imap (fun j => numbered key (off + j)) l)
  = drop (i - off) (imap (fun j => numbered key (off + j)) l).
Proof.
  revert off. induction l as [|e l IH]; intros off Hi Ho; [symmetry; apply drop_nil|].
  destruct (decide (i = off)) as [->|Hne].
  { rewrite Nat.sub_diag, drop_0. by apply filter_numbered_all. }
  simpl. rewrite (imap_shift (numbered key)), (proj2 (Z.leb_gt _ _)) by (simpl; lia).
  simpl in Hi. rewrite IH by lia. by replace (i - off)%nat with (S (i - S off)) by lia.
Qed.

Lemma page_of_log key (l : list entry) (i n : nat) :
  (i <= length l)%nat ->
  get_events_page (history_of key l) (Z.of_nat i + 1) n =
  take n (drop i (imap (numbered key) l)).
Proof.
  intros Hi. unfold get_events_page. simpl. f_equal.
  pose proof (filter_numbered key l i 0 ltac:(lia) ltac:(lia)) as Hf.
  rewrite Nat.sub_0_r in Hf. exact Hf.
Qed.

Lemma find_numbered_from key (l : list entry) (off i : nat) e :
  l !! i = Some e ->
  List.find (fun e => event_id e =? Z.of_nat (off + i) + 1)
    (imap (fun j => numbered key (off + j)) l) = Some (numbered key (off + i) e).
Proof.
  revert off i. induction l as [|x l IH]; intros off [|i] Hi; [done..| |].
  - simplify_eq/=. by rewrite !Nat.add_0_r, Z.eqb_refl.
  - simpl in *. rewrite (proj2 (Z.eqb_neq _ _)) by lia.
    rewrite (imap_shift (numbered key)), Nat.add_succ_r, <- Nat.add_succ_l. by apply IH.
Qed.

Lemma find_numbered key (l : list entry) (i : nat) e :
  l !! i = Some e ->
  get_event (history_of key l) (Z.of_nat i + 1) = Some (numbered key i e).
Proof. intros Hi. exact (find_numbered_from key l 0 i e Hi). Qed.

(** The history store implements per-workflow append-only logs: after
    any sequence of recorded events and removed histories, the history of a key
    is exactly what was recorded under it since its last removal, in order and
    numbered 1, 2, ...; a page starting at event [i + 1] is the corresponding
    slice, and looking an event up by number returns it. *)
Theorem history_refines_log (ops : list history_op) (key : Z)
    (Hn : Z.of_nat (length ops) + 2 < 2 ^ 64) :
  let s := foldl step_op ∅ ops in
  let log := foldl spec_op ∅ ops !! key in
  get_history s key = imap (numbered key) <$> log /\
  event_count s key = length (default [] log) /\
  (forall i n, (i <= length (default [] log))%nat ->
     get_history_page s key (Z.of_nat i + 1) n =
     take n (drop i (imap (numbered key) (default [] log)))) /\
  (forall i e h, default [] log !! i = Some e -> s !! key = Some h ->
     get_event h (Z.of_nat i + 1) = Some (numbered key i e)).
Proof.
  cbv zeta. pose proof (run_ops_rel ops 0 ∅ ∅) as Hrel.
  specialize (Hrel (fun k => eq_refl) ltac:(by intros ???) ltac:(simpl; lia) key).
  unfold get_history, event_count, get_history_page. rewrite Hrel.
  destruct (foldl spec_op ∅ ops !! key) as [l|]; simpl; split_and!.
  - done.
  - by rewrite length_imap.
  - intros. by apply page_of_log.
  - intros i e h Hi [= <-]. by apply find_numbered.
  - done.
  - done.
  - intros i n Hi. by rewrite drop_nil, take_nil.
  - done.
Qed.

Lemma history_refines_log_witness :
  let ops := [HRecord 7 (WorkflowStarted, [1], ∅); HRecord 8 (WorkflowStarted, [2], ∅);
              HRecord 7 (StepCompleted, [3], ∅)] in
  get_history (foldl step_op ∅ ops) 7 =
    Some [numbered 7 0 (WorkflowStarted, [1], ∅); numbered 7 1 (StepCompleted, [3], ∅)].
Proof.
  intros ops. rewrite (proj1 (history_refines_log ops 7 ltac:(vm_compute; reflexivity))).
  reflexivity.
Defined.

End EventHistory.
