(* ===== verification/Timer.v ===== *)
(** * Timers ([velocity-workflow-engine/src/timer_engine.rs])

    The timer heap and one pass of the background thread.  [BinaryHeap] is modelled
    by its contents: [peek] and [pop] take an entry with the earliest deadline,
    here the first such entry of the list.  The library does not say which of two
    equal entries comes first, and nothing below depends on it. *)

From stdpp Require Import sorting.
From S2P Require Import Prelude.

Module Timer.

Record TimerEntry : Type := mkTimer {
  fire_at : Z;
  timer_key : Z;
  timer_id : Z;
}.

Record TimerEngine : Type := mkTimerEngine {
  heap : list TimerEntry;
  timer_shutdown : bool;
  next_timer_id : Z;
}.

Definition timer_engine_new : TimerEngine := mkTimerEngine [] false 1.

(** The entry that [peek] returns, and the heap after [pop]. *)
Fixpoint pop_earliest (h : list TimerEntry) : option (TimerEntry * list TimerEntry) :=
  match h with
  | [] => None
  | e :: h =>
      match pop_earliest h with
      | Some (m, rest) => if fire_at e <=? fire_at m then Some (e, h) else Some (m, e :: rest)
      | None => Some (e, [])
      end
  end.

(** [Instant::now() + delay]: the instants are not bounded here.  The source panics when the sum is no
    [Instant], which takes delays of more than the 2^64 milliseconds that the engine passes. *)
Definition schedule (t : TimerEngine) (key delay now : Z) : TimerEngine * Z :=
  (mkTimerEngine (heap t ++ [mkTimer (now + delay) key (next_timer_id t)]) (timer_shutdown t)
     (wrap 64 (next_timer_id t + 1)), next_timer_id t).

(** Drain the heap, push back every entry with another id. *)
Definition cancel_timer (t : TimerEngine) (id : Z) : TimerEngine * bool :=
  let kept := List.filter (fun e => negb (timer_id e =? id)) (heap t) in
  (mkTimerEngine kept (timer_shutdown t) (next_timer_id t), (length kept <? length (heap t))%nat).

Definition timer_pending_count (t : TimerEngine) : nat := length (heap t).

(** [while let Some(entry) = heap.peek() { if entry.fire_at <= now { fired.push(pop) } else
    { break } }], with the heap's length as fuel. *)
Fixpoint pop_due (fuel : nat) (now : Z) (h : list TimerEntry) : list TimerEntry * list TimerEntry :=
  match fuel with
  | O => ([], h)
  | S fuel =>
      match pop_earliest h with
      | Some (e, rest) =>
          if fire_at e <=? now then
            let '(fired, h') := pop_due fuel now rest in (e :: fired, h')
          else ([], h)
      | None => ([], h)
      end
  end.

(** One pass of the thread: what it fires (the callback runs on each, in order), and for how
    long it waits when nothing is due. *)
Definition timer_pass (t : TimerEngine) (now : Z) : TimerEngine * list TimerEntry * option Z :=
  let '(fired, h) := pop_due (length (heap t)) now (heap t) in
  let wait := match pop_earliest h with Some (e, _) => fire_at e - now | None => 500 end in
  (mkTimerEngine h (timer_shutdown t) (next_timer_id t), fired,
   match fired with [] => Some (Z.min wait 100) | _ => None end).

Definition timer_stop (t : TimerEngine) : TimerEngine := mkTimerEngine (heap t) true (next_timer_id t).

(** ** Popping *)

Lemma pop_earliest_Some h e rest :
  pop_earliest h = Some (e, rest) -> h ≡ₚ e :: rest /\ Forall (fun x => fire_at e <= fire_at x) rest.
Proof.
  revert e rest. induction h as [|x h IH]; intros e rest; simpl; [done|].
  destruct (pop_earliest h) as [[m r]|] eqn:Hp.
  - destruct (IH m r eq_refl) as [Hperm Hmin]. destruct (Z.leb_spec (fire_at x) (fire_at m)) as [Hle|Hlt];
      intros; simplify_eq.
    + split; [done|]. rewrite Hperm. constructor; [done|]. eapply Forall_impl; [exact Hmin|].
      simpl. intros; lia.
    + split; [rewrite Hperm; constructor|]. constructor; [lia|done].
  - intros; simplify_eq. assert (h = []) as -> by (destruct h as [|y h]; [done|]; simpl in Hp;
      destruct (pop_earliest h) as [[]|]; [destruct (fire_at y <=? _)|]; done).
    split; [done|constructor].
Qed.

Lemma pop_earliest_None h : pop_earliest h = None -> h = [].
Proof.
  destruct h as [|x h]; [done|]. simpl. destruct (pop_earliest h) as [[m r]|]; [|done].
  by destruct (fire_at x <=? fire_at m).
Qed.

Definition earlier (a b : TimerEntry) : Prop := fire_at a <= fire_at b.

Lemma pop_due_spec fuel now h :
  (length h <= fuel)%nat ->
  let '(fired, rest) := pop_due fuel now h in
  h ≡ₚ fired ++ rest /\ Forall (fun e => fire_at e <= now) fired /\
  Forall (fun e => now < fire_at e) rest /\ StronglySorted earlier fired.
Proof.
  revert h. induction fuel as [|fuel IH]; intros h Hlen; simpl.
  { destruct h; [|simpl in Hlen; lia]. split_and!; constructor. }
  destruct (pop_earliest h) as [[e rest]|] eqn:Hp.
  - apply pop_earliest_Some in Hp as [Hperm Hmin]. destruct (Z.leb_spec (fire_at e) now).
    + specialize (IH rest). destruct (pop_due fuel now rest) as [fired h'].
      destruct IH as (Hp' & Hf & Hr & Hs).
      { rewrite Hperm in Hlen. simpl in Hlen. lia. }
      split_and!; [by rewrite Hperm, Hp'|by constructor|done|]. constructor; [done|].
      rewrite Hp' in Hmin. by apply Forall_app in Hmin as [? _].
    + split_and!; [done|constructor| |constructor]. rewrite Hperm. constructor; [done|].
      eapply Forall_impl; [exact Hmin|]. simpl. intros; lia.
  - apply pop_earliest_None in Hp as ->. split_and!; constructor.
Qed.

(** ** Runs *)

Inductive timer_op : Type :=
| TSchedule (key delay now : Z)
| TCancel (id : Z)
| TPass (now : Z).

(** The timers scheduled, fired and cancelled so far. *)
Record timer_log : Type := mkLog {
  scheduled : list TimerEntry;
  fired : list TimerEntry;
  cancelled : list TimerEntry;
}.

Definition timer_step (st : TimerEngine * timer_log) (o : timer_op) : TimerEngine * timer_log :=
  let '(t, l) := st in
  match o with
  | TSchedule key delay now =>
      ((schedule t key delay now).1,
       mkLog (scheduled l ++ [mkTimer (now + delay) key (schedule t key delay now).2]) (fired l) (cancelled l))
  | TCancel id =>
      ((cancel_timer t id).1,
       mkLog (scheduled l) (fired l) (cancelled l ++ List.filter (fun e => timer_id e =? id) (heap t)))
  | TPass now => ((timer_pass t now).1.1, mkLog (scheduled l) (fired l ++ (timer_pass t now).1.2) (cancelled l))
  end.

Definition timer_run (os : list timer_op) : TimerEngine * timer_log :=
  foldl timer_step (timer_engine_new, mkLog [] [] []) os.

Definition timers_accounted (st : TimerEngine * timer_log) : Prop :=
  scheduled st.2 ≡ₚ fired st.2 ++ cancelled st.2 ++ heap st.1.

Lemma filter_split {A} (f : A -> bool) (l : list A) :
  l ≡ₚ List.filter f l ++ List.filter (fun x => negb (f x)) l.
Proof.
  induction l as [|x l IH]; simpl; [done|]. destruct (f x); simpl; [by f_equiv|].
  by rewrite <- Permutation_middle, <- IH.
Qed.

Lemma timer_step_accounted st o : timers_accounted st -> timers_accounted (timer_step st o).
Proof.
  destruct st as [t l]. unfold timers_accounted. simpl. intros Hacc. destruct o as [key delay now|id|now]; simpl.
  - rewrite Hacc. by rewrite <- !app_assoc.
  - rewrite Hacc, (filter_split (fun e => timer_id e =? id) (heap t)) at 1. by rewrite <- !app_assoc.
  - unfold timer_pass. pose proof (pop_due_spec (length (heap t)) now (heap t) ltac:(done)) as Hpop.
    destruct (pop_due _ now (heap t)) as [f h]. destruct Hpop as (Hp & _). simpl.
    rewrite Hacc, Hp, <- app_assoc. f_equiv. rewrite !app_assoc. f_equiv. apply Permutation_app_comm.
Qed.

Lemma timer_run_ids os (st : TimerEngine * timer_log) (n : Z) :
  0 < n -> n + Z.of_nat (length os) < 2 ^ 64 ->
  next_timer_id st.1 = n -> NoDup (map timer_id (scheduled st.2)) ->
  Forall (fun e => timer_id e < n) (scheduled st.2) ->
  NoDup (map timer_id (scheduled (foldl timer_step st os).2)).
Proof.
  revert st n. induction os as [|o os IH]; intros [t l] n Hn Hlt Hid Hnd Hb; [done|].
  cbn [foldl length] in *. destruct o as [key delay now|id|now]; cbn [fst snd] in *.
  - apply (IH _ (n + 1)); simpl; rewrite ?Hid; [lia|lia|apply wrap_id; ranges|..].
    + rewrite map_app. apply NoDup_app. split_and!; [done| |apply NoDup_singleton].
      intros x Hx Hx'. apply list_elem_of_singleton in Hx' as ->.
      apply list_elem_of_fmap in Hx as (e & He & Hin). rewrite Forall_forall in Hb.
      specialize (Hb e Hin). cbn in He, Hb. lia.
    + apply Forall_app. split; [|by repeat constructor; simpl; lia].
      eapply Forall_impl; [exact Hb|]. simpl. intros; lia.
  - apply (IH _ n); simpl; (done || lia).
  - apply (IH _ n); [lia|lia| |done|done]. simpl. unfold timer_pass.
    destruct (pop_due _ now (heap t)). done.
Qed.

(** C30. Timers fire exactly once: in any sequence of schedules, cancellations
    and passes, the scheduled timers, whose ids are all distinct, are those fired,
    those cancelled and those still pending; a further pass fires exactly the
    pending timers that are due, in the order of their deadlines, and cancelling
    reports whether the timer was still pending. *)
Theorem timers_fire_exactly_once (os : list timer_op) (now : Z)
  (Hlen : Z.of_nat (length os) + 1 < 2 ^ 64) :
  let '(t, l) := timer_run os in
  scheduled l ≡ₚ fired l ++ cancelled l ++ heap t /\
  NoDup (map timer_id (scheduled l)) /\
  (timer_pass t now).1.2 ≡ₚ List.filter (fun e => fire_at e <=? now) (heap t) /\
  StronglySorted earlier (timer_pass t now).1.2 /\
  heap (timer_pass t now).1.1 ≡ₚ List.filter (fun e => negb (fire_at e <=? now)) (heap t) /\
  (forall id, (cancel_timer t id).2 = existsb (fun e => timer_id e =? id) (heap t)).
Proof.
  assert (Hacc : timers_accounted (timer_run os)).
  { unfold timer_run. assert (H0 : timers_accounted (timer_engine_new, mkLog [] [] [])) by apply Permutation_refl.
    revert H0. generalize (timer_engine_new, mkLog [] [] []) as st.
    induction os as [|o os IH]; intros st Hst; [done|]. apply IH; [simpl in Hlen; lia|].
    by apply timer_step_accounted. }
  assert (Hids : NoDup (map timer_id (scheduled (timer_run os).2))).
  { apply (timer_run_ids os _ 1); simpl; (lia || done || constructor). }
  destruct (timer_run os) as [t l]. unfold timers_accounted in Hacc. simpl in *.
  split; [done|]. split; [done|]. unfold timer_pass.
  pose proof (pop_due_spec (length (heap t)) now (heap t) ltac:(done)) as Hpop.
  destruct (pop_due _ now (heap t)) as [f h]. destruct Hpop as (Hp & Hf & Hr & Hs). simpl.
  assert (Hall : forall p l', Forall (fun e : TimerEntry => p e = true) l' -> List.filter p l' = l').
  { intros p l'. induction 1 as [|e l' He _ IH]; simpl; [done|]. by rewrite He, IH. }
  assert (Hnone : forall p l', Forall (fun e : TimerEntry => p e = false) l' -> List.filter p l' = []).
  { intros p l'. induction 1 as [|e l' He _ IH]; simpl; [done|]. by rewrite He, IH. }
  split_and!; [|done| |].
  - rewrite Hp, List.filter_app, (Hall _ f), (Hnone _ h), app_nil_r; [done|..].
    + eapply Forall_impl; [exact Hr|]. simpl. intros. by apply Z.leb_gt.
    + eapply Forall_impl; [exact Hf|]. simpl. intros. by apply Z.leb_le.
  - rewrite Hp, List.filter_app, (Hall _ h), (Hnone _ f); [done|..].
    + eapply Forall_impl; [exact Hf|]. simpl. intros x Hx. by rewrite (proj2 (Z.leb_le _ _) Hx).
    + eapply Forall_impl; [exact Hr|]. simpl. intros x Hx. by rewrite (proj2 (Z.leb_gt _ _) Hx).
  - intros id. unfold cancel_timer. cbn [snd]. clear.
    induction (heap t) as [|e l IH]; [done|]. simpl. destruct (timer_id e =? id); simpl.
    + apply Nat.ltb_lt. pose proof (sublist_length _ _ (filter_sublist (fun e => negb (timer_id e =? id)) l)). lia.
    + exact IH.
Qed.

Lemma timers_fire_exactly_once_witness :
  let '(t, l) := timer_run [TSchedule 7 50 0; TSchedule 8 10 0; TSchedule 9 20 0; TCancel 3; TPass 15] in
  fired l = [mkTimer 10 8 2] /\ cancelled l = [mkTimer 20 9 3] /\ heap t = [mkTimer 50 7 1] /\
  StronglySorted earlier (timer_pass t 60).1.2.
Proof.
  pose proof (timers_fire_exactly_once
    [TSchedule 7 50 0; TSchedule 8 10 0; TSchedule 9 20 0; TCancel 3; TPass 15] 60 ltac:(done)) as Ht.
  vm_compute in Ht |- *. destruct Ht as (_ & _ & _ & Hs & _). split_and!; try reflexivity. exact Hs.
Defined.

End Timer.
