(* ===== verification/Index.v ===== *)
(** * Secondary indices

    The visibility index and the archive keep, beside a map from workflow keys to
    records, maps from an attribute to the vector of keys that have it.  This file
    gives such an index its meaning relative to the main map: it is exact when
    every bucket lists, without repetition, the keys whose record has the
    attribute.  [Some _] attributes are indexed, [None] are not. *)

From S2P Require Import Prelude.

Abbreviation index := (gmap Z (list Z)).

(** [idx.get(&b)], with an absent bucket read as empty. *)
Definition bucket_keys (idx : index) (b : Z) : list Z := default [] (idx !! b).

(** [idx.entry(b).or_default().push(k)]. *)
Definition index_push (idx : index) (b k : Z) : index := <[b := bucket_keys idx b ++ [k]]> idx.

(** [if let Some(keys) = idx.get_mut(&b) { keys.retain(|x| *x != k) }]. *)
Definition index_retain (idx : index) (b k : Z) : index :=
  alter (List.filter (fun x => negb (x =? k))) b idx.

(** [keys.iter().filter_map(|k| map.get(k).cloned()).collect()] of a bucket. *)
Definition list_bucket {A} (m : gmap Z A) (idx : index) (b : Z) : list A :=
  omap (fun k => m !! k) (bucket_keys idx b).

Section exact.
Context {A : Type}.
Implicit Types (m : gmap Z A) (idx : index) (proj : A -> option Z).

(** The key belongs to bucket [b]. *)
Definition in_bucket m proj (b k : Z) : Prop := exists a, m !! k = Some a /\ proj a = Some b.

Definition index_exact m proj idx : Prop :=
  forall b, NoDup (bucket_keys idx b) /\ forall k, k ∈ bucket_keys idx b <-> in_bucket m proj b k.

Lemma bucket_push idx b k b' :
  bucket_keys (index_push idx b k) b' = if decide (b = b') then bucket_keys idx b ++ [k] else bucket_keys idx b'.
Proof.
  unfold bucket_keys at 1, index_push. case_decide; subst.
  - by rewrite lookup_insert_eq.
  - by rewrite lookup_insert_ne.
Qed.

Lemma bucket_retain idx b k b' :
  bucket_keys (index_retain idx b k) b' =
  if decide (b = b') then List.filter (fun x => negb (x =? k)) (bucket_keys idx b) else bucket_keys idx b'.
Proof.
  unfold bucket_keys, index_retain. case_decide; subst.
  - rewrite lookup_alter_eq. by destruct (idx !! b').
  - by rewrite lookup_alter_ne.
Qed.

Lemma elem_of_retain (l : list Z) k x :
  x ∈ List.filter (fun x => negb (x =? k)) l <-> x <> k /\ x ∈ l.
Proof.
  rewrite !list_elem_of_In, List.filter_In, negb_true_iff, Z.eqb_neq. tauto.
Qed.

Lemma index_empty_exact proj : index_exact ∅ proj ∅.
Proof. intros b. split; [constructor|]. intros k. split; [by intros ?%elem_of_nil|]. by intros (a & ? & _). Qed.

(** Registering a record under a key that is not in the map. *)
Lemma index_exact_fresh m proj idx k a :
  index_exact m proj idx -> m !! k = None ->
  index_exact (<[k := a]> m) proj
    (match proj a with Some b => index_push idx b k | None => idx end).
Proof.
  intros Hex Hk b. destruct (Hex b) as [Hnd Hin].
  assert (Hnk : k ∉ bucket_keys idx b) by (rewrite Hin; intros (a' & Ha' & _); congruence).
  assert (Hiff : forall k', in_bucket (<[k := a]> m) proj b k' <->
                            (k' = k /\ proj a = Some b) \/ (k' <> k /\ k' ∈ bucket_keys idx b)).
  { intros k'. rewrite Hin. unfold in_bucket. setoid_rewrite lookup_insert_Some. naive_solver. }
  setoid_rewrite Hiff. destruct (proj a) as [b'|] eqn:Hp.
  - rewrite bucket_push. case_decide as Hb; subst.
    + split; [apply NoDup_app; split_and!; [done|set_solver|apply NoDup_singleton]|].
      intros k'. rewrite elem_of_app, list_elem_of_singleton. split; [|naive_solver].
      intros [?|?]; [|naive_solver]. right. split; [set_solver|done].
    + split; [done|]. intros k'. split; [|naive_solver]. intros ?. right. split; [set_solver|done].
  - split; [done|]. intros k'. split; [|naive_solver]. intros ?. right. split; [set_solver|done].
Qed.

(** Removing a key, its bucket filtered. *)
Lemma index_exact_delete m proj idx k a :
  index_exact m proj idx -> m !! k = Some a ->
  index_exact (delete k m) proj
    (match proj a with Some b => index_retain idx b k | None => idx end).
Proof.
  intros Hex Hk b. destruct (Hex b) as [Hnd Hin].
  assert (Hiff : forall k', in_bucket (delete k m) proj b k' <-> k' <> k /\ k' ∈ bucket_keys idx b).
  { intros k'. rewrite Hin. unfold in_bucket. setoid_rewrite lookup_delete_Some. naive_solver. }
  setoid_rewrite Hiff.
  assert (Hother : proj a <> Some b -> k ∉ bucket_keys idx b).
  { rewrite Hin. intros Hne (a' & Ha' & Hb). congruence. }
  assert (Hkeep : proj a <> Some b ->
    NoDup (bucket_keys idx b) /\ forall k', k' ∈ bucket_keys idx b <-> k' <> k /\ k' ∈ bucket_keys idx b).
  { intros Hne. split; [done|]. intros k'. specialize (Hother Hne). set_solver. }
  destruct (proj a) as [b'|]; [|by apply Hkeep].
  rewrite bucket_retain. case_decide as Hb; [subst|apply Hkeep; congruence].
  split; [|apply elem_of_retain]. eapply sublist_NoDup; [done|apply filter_sublist].
Qed.

(** Moving a key from the bucket of its old record to that of its new one. *)
Lemma index_exact_update m proj idx k a a' :
  index_exact m proj idx -> m !! k = Some a ->
  index_exact (<[k := a']> m) proj
    (match proj a' with
     | Some b' => index_push (match proj a with Some b => index_retain idx b k | None => idx end) b' k
     | None => match proj a with Some b => index_retain idx b k | None => idx end
     end).
Proof.
  intros Hex Hk. rewrite <- insert_delete_eq.
  apply index_exact_fresh; [by apply (index_exact_delete _ _ _ _ a)|apply lookup_delete_eq].
Qed.

(** An update that leaves the attribute alone leaves the index exact. *)
Lemma index_exact_same m proj idx k a a' :
  index_exact m proj idx -> m !! k = Some a -> proj a' = proj a ->
  index_exact (<[k := a']> m) proj idx.
Proof.
  intros Hex Hk Hp b. destruct (Hex b) as [Hnd Hin]. split; [done|]. intros k'. rewrite Hin.
  unfold in_bucket. destruct (decide (k' = k)) as [->|].
  - rewrite lookup_insert_eq, Hk. split; intros (x & [= <-] & Hx); eexists; (split; [done|]); congruence.
  - by rewrite lookup_insert_ne.
Qed.

(** Reading the records of a duplicate-free list of keys that are exactly those of the
    records satisfying [P]. *)
Lemma lookup_keys_perm m (P : A -> bool) (ks : list Z) :
  NoDup ks -> (forall k, k ∈ ks <-> exists a, m !! k = Some a /\ P a = true) ->
  omap (fun k => m !! k) ks ≡ₚ List.filter P (map_to_list m).*2 /\
  length ks = length (List.filter P (map_to_list m).*2).
Proof.
  intros Hnd Hin. set (l := List.filter (fun ka => P ka.2) (map_to_list m)).
  assert (Hl : List.filter P (map_to_list m).*2 = l.*2).
  { unfold l. clear. induction (map_to_list m) as [|[k a] l' IH]; [done|].
    rewrite fmap_cons. simpl. destruct (P a); [|exact IH]. rewrite fmap_cons. by f_equal. }
  assert (Hmem : forall k a, (k, a) ∈ l <-> m !! k = Some a /\ P a = true).
  { intros k a. unfold l. rewrite list_elem_of_In, List.filter_In, <- list_elem_of_In.
    by rewrite elem_of_map_to_list. }
  assert (Hkeys : ks ≡ₚ l.*1).
  { apply NoDup_Permutation; [done| |].
    - eapply sublist_NoDup; [apply (NoDup_fst_map_to_list m)|]. apply fmap_sublist, filter_sublist.
    - intros k. rewrite Hin, list_elem_of_fmap. split.
      + intros (a & Ha). exists (k, a). by rewrite Hmem.
      + intros ([k' a] & -> & Hka%Hmem). eauto. }
  rewrite Hl. split; [|by rewrite Hkeys, !length_fmap].
  rewrite Hkeys. assert (Hsub : forall ka, ka ∈ l -> m !! ka.1 = Some ka.2).
  { intros [k a] Hka. apply Hmem in Hka as [? _]. done. }
  clear -Hsub. induction l as [|[k a] l IH]; [done|]. simpl.
  pose proof (Hsub (k, a) ltac:(constructor)) as Hka. simpl in Hka. rewrite Hka.
  constructor. apply IH. intros ka Hka'. apply Hsub. by constructor.
Qed.

Definition has_bucket proj (b : Z) (a : A) : bool := bool_decide (proj a = Some b).

(** An exact index lists and counts exactly the records with the attribute. *)
Lemma list_bucket_exact m proj idx b :
  index_exact m proj idx ->
  list_bucket m idx b ≡ₚ List.filter (has_bucket proj b) (map_to_list m).*2 /\
  length (bucket_keys idx b) = length (List.filter (has_bucket proj b) (map_to_list m).*2).
Proof.
  intros Hex. destruct (Hex b) as [Hnd Hin]. apply lookup_keys_perm; [done|].
  intros k. rewrite Hin. unfold in_bucket, has_bucket. by setoid_rewrite bool_decide_eq_true.
Qed.

(** Any selection of buckets, in any order, reads exactly the records with one of them. *)
Lemma list_buckets_exact m proj idx (P : Z -> bool) (bs : list (Z * list Z)) :
  index_exact m proj idx -> bs ≡ₚ List.filter (fun bk => P bk.1) (map_to_list idx) ->
  flat_map (fun bk => omap (fun k => m !! k) bk.2) bs ≡ₚ
  List.filter (fun a => match proj a with Some b => P b | None => false end) (map_to_list m).*2.
Proof.
  intros Hex Hbs. assert (Hb : forall b ks, (b, ks) ∈ bs <-> idx !! b = Some ks /\ P b = true).
  { intros b ks. rewrite Hbs, list_elem_of_In, List.filter_In, <- list_elem_of_In.
    by rewrite elem_of_map_to_list. }
  assert (Hnd : NoDup bs.*1).
  { rewrite Hbs. eapply sublist_NoDup; [apply (NoDup_fst_map_to_list idx)|].
    apply fmap_sublist, filter_sublist. }
  assert (Hflat : flat_map (fun bk => omap (fun k => m !! k) bk.2) bs =
                  omap (fun k => m !! k) (flat_map snd bs)).
  { clear. induction bs as [|[b ks] bs IH]; [done|]. simpl. by rewrite omap_app, IH. }
  rewrite Hflat. apply lookup_keys_perm.
  - assert (Hsub : forall b ks, (b, ks) ∈ bs -> ks = bucket_keys idx b).
    { intros b ks [Hi _]%Hb. unfold bucket_keys. by rewrite Hi. }
    clear Hb Hbs Hflat. induction bs as [|[b ks] bs IH]; [constructor|]. simpl in *.
    apply NoDup_cons in Hnd as [Hnb Hnd]. rewrite (Hsub b ks) by constructor.
    apply NoDup_app. split_and!; [apply Hex| |apply IH; [done|]; intros; apply Hsub; by constructor].
    intros k Hk Hk'. apply Hex in Hk as (a & Ha & Hpa).
    apply list_elem_of_In, in_flat_map in Hk' as ([b' ks'] & Hbk & Hk'%list_elem_of_In).
    apply list_elem_of_In in Hbk. simpl in Hk'. rewrite (Hsub b' ks') in Hk' by by constructor.
    apply Hex in Hk' as (a' & Ha' & Hpa'). apply Hnb. simplify_eq.
    apply list_elem_of_fmap. by exists (b, ks').
  - intros k. rewrite list_elem_of_In, in_flat_map. split.
    + intros ([b ks] & Hbk%list_elem_of_In & Hk%list_elem_of_In). simpl in Hk.
      apply Hb in Hbk as [Hi HP]. assert (Hin : k ∈ bucket_keys idx b) by (unfold bucket_keys; by rewrite Hi).
      apply Hex in Hin as (a & Ha & Hp). exists a. by rewrite Hp.
    + intros (a & Ha & HP). destruct (proj a) as [b|] eqn:Hp; [|done].
      assert (Hk : k ∈ bucket_keys idx b) by (apply Hex; by exists a).
      unfold bucket_keys in Hk. destruct (idx !! b) as [ks|] eqn:Hi; [|by apply elem_of_nil in Hk].
      exists (b, ks). rewrite <- !list_elem_of_In, Hb. done.
Qed.

End exact.
