(* ===== verification/Context.v ===== *)
(** * Workflow contexts ([velocity-workflow-engine/src/engine.rs], first part)

    The data the engine keeps per workflow: the status, the slab header, the slot
    tables of step results, signals and updates, and the activity timeouts with
    their retry policy.  An [Instant] and a [Duration] are numbers of
    milliseconds; operations that read the clock take it as an argument. *)

From Stdlib Require Import SpecFloat.
From S2P Require Import Prelude Bitmask Slab SlotMap.
Import Bitmask.

Module Context.
Import SlotMap SlotVec.

(** ** Durability configuration *)

Record DurabilityConfig : Type := mkDurability {
  sync_steps : Z;
  flush_interval_ms : Z;
  direct_execution : bool;
}.

Definition strict : DurabilityConfig := mkDurability 0 0 false.
Definition batched (steps flush : Z) : DurabilityConfig := mkDurability steps flush false.
Definition async_only (flush : Z) : DurabilityConfig := mkDurability U32_MAX flush false.
Definition with_direct_execution (c : DurabilityConfig) : DurabilityConfig :=
  mkDurability (sync_steps c) (flush_interval_ms c) true.
Definition with_direct_execution_if (c : DurabilityConfig) (condition : bool) : DurabilityConfig :=
  if condition then with_direct_execution c else c.

(** ** Activity timeouts and retries

    [f64] is IEEE binary64 from the Standard Library's [SpecFloat]; [powi] is the
    repeated squaring the compiler runtime performs. *)

Definition f64 : Type := spec_float.
Definition f64_mul : f64 -> f64 -> f64 := SFmul 53 1024.
Definition f64_div : f64 -> f64 -> f64 := SFdiv 53 1024.
Definition u64_as_f64 (n : Z) : f64 := binary_normalize 53 1024 n 0 false.

(** [x as u64]: truncation towards zero, saturating, with [NaN] to 0. *)
Definition f64_as_u64 (x : f64) : Z :=
  match x with
  | S754_zero _ | S754_nan => 0
  | S754_infinity s => if s then 0 else U64_MAX
  | S754_finite s m e =>
      if s then 0
      else Z.min U64_MAX (if 0 <=? e then Zpos m <<< e else Zpos m >>> (- e))
  end.

Fixpoint powi_loop (a r : f64) (n : positive) : f64 :=
  match n with
  | xH => f64_mul r a
  | xO n => powi_loop (f64_mul a a) r n
  | xI n => powi_loop (f64_mul a a) (f64_mul r a) n
  end.

Definition powi (a : f64) (n : Z) : f64 :=
  match n with
  | Z0 => u64_as_f64 1
  | Zpos n => powi_loop a (u64_as_f64 1) n
  | Zneg n => f64_div (u64_as_f64 1) (powi_loop a (u64_as_f64 1) n)
  end.

(** [x as i32] of a [u32]. *)
Definition u32_as_i32 (x : Z) : Z := if x <? 2 ^ 31 then x else x - 2 ^ 32.

Record ActivityRetryPolicy : Type := mkRetry {
  max_attempts : Z;
  initial_interval : Z;
  backoff_coefficient : f64;
  max_interval : option Z;
}.

Definition retry_policy_new (attempts interval : Z) (coefficient : f64) : ActivityRetryPolicy :=
  mkRetry attempts interval coefficient None.

Definition with_max_interval (p : ActivityRetryPolicy) (interval : Z) : ActivityRetryPolicy :=
  mkRetry (max_attempts p) (initial_interval p) (backoff_coefficient p) (Some interval).

Definition calculate_delay (p : ActivityRetryPolicy) (attempt : Z) : Z :=
  let delay := f64_as_u64 (f64_mul (u64_as_f64 (initial_interval p))
                             (powi (backoff_coefficient p) (u32_as_i32 attempt))) in
  match max_interval p with Some max => Z.min delay max | None => delay end.

Record ActivityTimeouts : Type := mkTimeouts {
  schedule_to_start : option Z;
  start_to_close : option Z;
  schedule_to_close : option Z;
  heartbeat_timeout : option Z;
  scheduled_at : Z;
  started_at : option Z;
  retry_policy : option ActivityRetryPolicy;
  attempt : Z;
}.

Definition timeouts_new (sts stc scc hb : option Z) (now : Z) : ActivityTimeouts :=
  mkTimeouts sts stc scc hb now None None 1.

Definition with_retry_policy (t : ActivityTimeouts) (p : ActivityRetryPolicy) : ActivityTimeouts :=
  mkTimeouts (schedule_to_start t) (start_to_close t) (schedule_to_close t) (heartbeat_timeout t)
    (scheduled_at t) (started_at t) (Some p) (attempt t).

Definition mark_started (t : ActivityTimeouts) (now : Z) : ActivityTimeouts :=
  mkTimeouts (schedule_to_start t) (start_to_close t) (schedule_to_close t) (heartbeat_timeout t)
    (scheduled_at t) (Some now) (retry_policy t) (attempt t).

Definition with_attempt (t : ActivityTimeouts) (a : Z) : ActivityTimeouts :=
  mkTimeouts (schedule_to_start t) (start_to_close t) (schedule_to_close t) (heartbeat_timeout t)
    (scheduled_at t) (started_at t) (retry_policy t) a.

(** [later.duration_since(earlier)] is zero when [earlier] is later. *)
Definition duration_since (later earlier : Z) : Z := Z.max 0 (later - earlier).

Inductive timeout_kind : Type := ScheduleToStart | StartToClose | ScheduleToClose.

Definition schedule_to_start_expired (t : ActivityTimeouts) (now : Z) : bool :=
  match schedule_to_start t with
  | Some d => match started_at t with None => d <? duration_since now (scheduled_at t) | Some _ => false end
  | None => false
  end.

Definition start_to_close_expired (t : ActivityTimeouts) (now : Z) : bool :=
  match start_to_close t, started_at t with
  | Some d, Some started => d <? duration_since now started
  | _, _ => false
  end.

Definition schedule_to_close_expired (t : ActivityTimeouts) (now : Z) : bool :=
  match schedule_to_close t with
  | Some d => d <? duration_since now (scheduled_at t)
  | None => false
  end.

Definition check_timeouts (t : ActivityTimeouts) (now : Z) : option timeout_kind :=
  if schedule_to_start_expired t now then Some ScheduleToStart
  else if start_to_close_expired t now then Some StartToClose
  else if schedule_to_close_expired t now then Some ScheduleToClose
  else None.

(** ** Status *)

Inductive WorkflowStatus : Type :=
| Void
| Running
| Completed
| Failed
| Canceled
| Terminated
| ContinuedAsNew
| TimedOut.

#[export] Instance WorkflowStatus_eq_dec : EqDecision WorkflowStatus.
Proof. solve_decision. Defined.

(** [status as u8]. *)
Definition status_as_u8 (s : WorkflowStatus) : Z :=
  match s with
  | Void => 0 | Running => 1 | Completed => 2 | Failed => 3
  | Canceled => 4 | Terminated => 5 | ContinuedAsNew => 6 | TimedOut => 7
  end.

#[export] Instance status_as_u8_inj : Inj (=) (=) status_as_u8.
Proof. by intros [] []. Qed.

Inductive ParentClosePolicy : Type :=
| PolicyTerminate
| PolicyCancel
| PolicyAbandon.

(** ** Contexts *)

Record WorkflowContext : Type := mkContext {
  workflow_id : Z;
  run_id : Z;
  workflow_type_id : Z;
  namespace_id : Z;
  task_queue_hash : Z;
  slab : Slab.SlabHeader;
  status : WorkflowStatus;
  step_results : SlotMap bytes;
  signal_buffer : SlotVec bytes;
  update_buffer : SlotVec bytes;
  start_time : Z;
  close_time : option Z;
  event_sequence : Z;
  parent_key : option Z;
  child_keys : list Z;
  input_data : option bytes;
  result_data : option bytes;
  activity_timeouts : SlotMap ActivityTimeouts;
  activity_inputs : SlotMap bytes;
  workflow_execution_timeout : option Z;
  workflow_run_timeout : option Z;
  workflow_task_timeout : option Z;
}.

(** Assignments to groups of fields. *)
Definition with_progress (c : WorkflowContext) (sl : Slab.SlabHeader) (res : SlotMap bytes)
    (sig upd : SlotVec bytes) (seq : Z) : WorkflowContext :=
  mkContext (workflow_id c) (run_id c) (workflow_type_id c) (namespace_id c) (task_queue_hash c)
    sl (status c) res sig upd (start_time c) (close_time c) seq (parent_key c) (child_keys c)
    (input_data c) (result_data c) (activity_timeouts c) (activity_inputs c)
    (workflow_execution_timeout c) (workflow_run_timeout c) (workflow_task_timeout c).

Definition with_status (c : WorkflowContext) (st : WorkflowStatus) (close : option Z)
    (res : option bytes) : WorkflowContext :=
  mkContext (workflow_id c) (run_id c) (workflow_type_id c) (namespace_id c) (task_queue_hash c)
    (slab c) st (step_results c) (signal_buffer c) (update_buffer c) (start_time c) close
    (event_sequence c) (parent_key c) (child_keys c) (input_data c) res
    (activity_timeouts c) (activity_inputs c)
    (workflow_execution_timeout c) (workflow_run_timeout c) (workflow_task_timeout c).

Definition with_start (c : WorkflowContext) (ns : Z) (input : option bytes) : WorkflowContext :=
  mkContext (workflow_id c) (run_id c) (workflow_type_id c) ns (task_queue_hash c)
    (slab c) (status c) (step_results c) (signal_buffer c) (update_buffer c) (start_time c) (close_time c)
    (event_sequence c) (parent_key c) (child_keys c) input (result_data c)
    (activity_timeouts c) (activity_inputs c)
    (workflow_execution_timeout c) (workflow_run_timeout c) (workflow_task_timeout c).

Definition with_family (c : WorkflowContext) (parent : option Z) (children : list Z) : WorkflowContext :=
  mkContext (workflow_id c) (run_id c) (workflow_type_id c) (namespace_id c) (task_queue_hash c)
    (slab c) (status c) (step_results c) (signal_buffer c) (update_buffer c) (start_time c) (close_time c)
    (event_sequence c) parent children (input_data c) (result_data c)
    (activity_timeouts c) (activity_inputs c)
    (workflow_execution_timeout c) (workflow_run_timeout c) (workflow_task_timeout c).

Definition with_activities (c : WorkflowContext) (ts : SlotMap ActivityTimeouts) (ins : SlotMap bytes) :
    WorkflowContext :=
  mkContext (workflow_id c) (run_id c) (workflow_type_id c) (namespace_id c) (task_queue_hash c)
    (slab c) (status c) (step_results c) (signal_buffer c) (update_buffer c) (start_time c) (close_time c)
    (event_sequence c) (parent_key c) (child_keys c) (input_data c) (result_data c) ts ins
    (workflow_execution_timeout c) (workflow_run_timeout c) (workflow_task_timeout c).

Definition with_execution_timeout (c : WorkflowContext) (t : option Z) : WorkflowContext :=
  mkContext (workflow_id c) (run_id c) (workflow_type_id c) (namespace_id c) (task_queue_hash c)
    (slab c) (status c) (step_results c) (signal_buffer c) (update_buffer c) (start_time c) (close_time c)
    (event_sequence c) (parent_key c) (child_keys c) (input_data c) (result_data c)
    (activity_timeouts c) (activity_inputs c) t (workflow_run_timeout c) (workflow_task_timeout c).

Section ops.
Context `{Sha256}.
Implicit Types (c : WorkflowContext) (step : Z).

Definition context_new (wid rid type_id hash total now : Z) : WorkflowContext :=
  mkContext wid rid type_id 0 hash (Slab.slab_new wid rid total) Running
    (slotmap_with_capacity 64) (slotvec_with_capacity 16) (slotvec_with_capacity 16)
    now None 0 None [] None None (slotmap_with_capacity 16) (slotmap_with_capacity 16) None None None.

Definition is_step_completed c step : bool := is_step_set (Slab.step_bitmask (slab c)) step.

(** The result of [mark_step_completed] is not looked at. *)
Definition complete_step c step (res : bytes) : WorkflowContext :=
  with_progress c (Slab.mark_step_completed (slab c) step).1 (slotmap_insert (step_results c) step res)
    (signal_buffer c) (update_buffer c) (wrap 64 (event_sequence c + 1)).

Definition get_step_result c step : option bytes := slotmap_get (step_results c) step.

Definition signal c (name : Z) (payload : bytes) : WorkflowContext :=
  with_progress c (slab c) (step_results c) (slotvec_push (signal_buffer c) name payload)
    (update_buffer c) (wrap 64 (event_sequence c + 1)).

Definition update c (name : Z) (payload : bytes) : WorkflowContext :=
  with_progress c (slab c) (step_results c) (signal_buffer c)
    (slotvec_push (update_buffer c) name payload) (wrap 64 (event_sequence c + 1)).

Definition has_update c (name : Z) : bool := negb (slotvec_is_empty_at (update_buffer c) name).
Definition has_signal c (name : Z) : bool := negb (slotvec_is_empty_at (signal_buffer c) name).

Definition take_update c (name : Z) : WorkflowContext * option bytes :=
  let '(buf, p) := slotvec_pop_front (update_buffer c) name in
  (with_progress c (slab c) (step_results c) (signal_buffer c) buf (event_sequence c), p).

Definition take_signal c (name : Z) : WorkflowContext * option bytes :=
  let '(buf, p) := slotvec_pop_front (signal_buffer c) name in
  (with_progress c (slab c) (step_results c) buf (update_buffer c) (event_sequence c), p).

Definition complete c (res : option bytes) (now : Z) : WorkflowContext :=
  with_status c Completed (Some now) res.
Definition fail c (now : Z) : WorkflowContext := with_status c Failed (Some now) (result_data c).
Definition cancel c (now : Z) : WorkflowContext := with_status c Canceled (Some now) (result_data c).
Definition terminate c (now : Z) : WorkflowContext := with_status c Terminated (Some now) (result_data c).

End ops.

(** [(namespace_id << 32) | workflow_id] on [u64]. *)
Definition make_key (ns wid : Z) : Z := wrap 64 (ns <<< 32) ||| wid.

Definition context_key (c : WorkflowContext) : Z := make_key (namespace_id c) (workflow_id c).

(** ** Keys

    Keys name a workflow uniquely as long as both halves fit 32 bits. *)

Lemma shiftl_lor_small ns wid : 0 <= ns -> 0 <= wid < 2 ^ 32 -> (ns <<< 32) ||| wid = ns * 2 ^ 32 + wid.
Proof.
  intros Hns Hw. rewrite Z.shiftl_mul_pow2 by lia.
  assert (Hland : Z.land (ns * 2 ^ 32) wid = 0).
  { apply Z.bits_inj'. intros n Hn. rewrite Z.land_spec, Z.testbit_0_l. destruct (Z.ltb_spec n 32).
    - by rewrite Z.mul_pow2_bits_low.
    - rewrite (fits_testbit_high 32 wid), andb_false_r; [done|done|lia]. }
  rewrite <- Z.lxor_lor by done. by rewrite <- Z.add_nocarry_lxor.
Qed.

Lemma make_key_val ns wid : u32 ns -> u32 wid -> make_key ns wid = ns * 2 ^ 32 + wid.
Proof.
  intros Hns Hw. unfold make_key. rewrite wrap_id; [apply shiftl_lor_small; ranges|].
  unfold fits in *. rewrite Z.shiftl_mul_pow2; lia.
Qed.

(** Distinct (namespace, workflow id) pairs have distinct keys as long as
    both fit 32 bits, and the namespace is recovered by shifting; a workflow id of
    33 bits takes the key of a workflow of another namespace. *)
Theorem workflow_key_injective (ns wid ns' wid' : Z)
  (Hns : u32 ns) (Hw : u32 wid) (Hns' : u32 ns') (Hw' : u32 wid') :
  (make_key ns wid = make_key ns' wid' <-> ns = ns' /\ wid = wid') /\
  make_key ns wid >>> 32 = ns /\ u64 (make_key ns wid) /\
  make_key 0 (2 ^ 32 + wid) = make_key 1 wid.
Proof.
  rewrite (make_key_val ns wid), (make_key_val ns' wid') by done.
  rewrite (make_key_val 1 wid) by done. unfold fits in *. split_and!; try lia.
  - rewrite Z.shiftr_div_pow2, Z.div_add_l, (Z.div_small wid) by lia. lia.
  - unfold make_key. rewrite Z.shiftl_0_l. change (wrap 64 0) with 0. rewrite Z.lor_0_l. lia.
Qed.

(** ** Invariant of a context *)

Section invariant.
Context `{Sha256}.
Implicit Types (c : WorkflowContext).

Record context_wf c : Prop := {
  wf_slab : Slab.slab_wf (slab c);
  wf_root : Slab.verify_merkle_root (slab c) = true;
  wf_results : slotmap_wf (step_results c);
  wf_signals : slotvec_wf (signal_buffer c);
  wf_updates : slotvec_wf (update_buffer c);
}.

Lemma context_new_wf wid rid ty hash total now :
  u64 wid -> u64 rid -> u32 total -> context_wf (context_new wid rid ty hash total now).
Proof.
  intros Hw Hr Ht. constructor; cbn [slab step_results signal_buffer update_buffer context_new].
  - rewrite Slab.slab_new_chained. apply Slab.new_chained_wf; auto using Slab.zero_root_ok.
  - apply Slab.recalculate_verifies.
  - apply slotmap_with_capacity_wf.
  - apply slotvec_with_capacity_wf.
  - apply slotvec_with_capacity_wf.
Qed.

Lemma with_start_wf c ns input : context_wf c -> context_wf (with_start c ns input).
Proof. by intros []; constructor. Qed.

Lemma with_status_wf c st close res : context_wf c -> context_wf (with_status c st close res).
Proof. by intros []; constructor. Qed.

Lemma mark_any_step h (s : Z) :
  0 <= s -> Slab.slab_wf h -> Slab.verify_merkle_root h = true ->
  Slab.slab_wf (Slab.mark_step_completed h s).1 /\
  Slab.verify_merkle_root (Slab.mark_step_completed h s).1 = true.
Proof.
  intros Hs Hwf Hv. destruct (decide (s < 256)).
  - split; [apply Slab.mark_step_wf; [done|lia]|].
    rewrite Slab.mark_step_ok by lia. apply Slab.recalculate_verifies.
  - by rewrite Slab.mark_step_oob by lia.
Qed.

Lemma complete_step_wf c step res : 0 <= step -> context_wf c -> context_wf (complete_step c step res).
Proof.
  intros Hs [Hsl Hr Hres Hsig Hupd]. destruct (mark_any_step (slab c) step) as [??]; [done..|].
  constructor; cbn [complete_step with_progress slab step_results signal_buffer update_buffer]; try done.
  by apply slotmap_insert_map.
Qed.

Lemma signal_wf c name payload : name <> U64_MAX -> context_wf c -> context_wf (signal c name payload).
Proof. intros Hn []; constructor; try done. by apply slotvec_push_map. Qed.

Lemma update_wf c name payload : name <> U64_MAX -> context_wf c -> context_wf (update c name payload).
Proof. intros Hn []; constructor; try done. by apply slotvec_push_map. Qed.

Lemma is_step_completed_complete c step res (j : Z) :
  context_wf c -> 0 <= step -> 0 <= j < 256 ->
  is_step_completed (complete_step c step res) j = bool_decide (step = j) || is_step_completed c j.
Proof.
  intros [(_&_&_&_&_&_&_&Hm&_) _ _ _ _] Hs Hj.
  unfold is_step_completed, complete_step, with_progress; cbn [slab].
  destruct (decide (step < 256)).
  - rewrite Slab.mark_step_ok by lia. cbn [fst Slab.step_bitmask Slab.recalculate_merkle_root].
    by apply set_step_spec.
  - rewrite Slab.mark_step_oob by lia. rewrite bool_decide_eq_false_2 by lia. done.
Qed.

Lemma get_step_result_complete c step res j :
  context_wf c ->
  get_step_result (complete_step c step res) j = if decide (step = j) then Some res else get_step_result c j.
Proof.
  intros [_ _ Hres _ _]. unfold get_step_result, complete_step, with_progress; cbn [step_results].
  destruct (slotmap_insert_map (step_results c) step res Hres) as [Hwf' Hmap].
  rewrite !slotmap_get_lookup, Hmap by done. case_decide; subst.
  - by rewrite lookup_insert_eq.
  - by rewrite lookup_insert_ne.
Qed.

Lemma is_step_completed_high c (j : Z) : 256 <= j -> is_step_completed c j = false.
Proof. intros Hj. unfold is_step_completed, is_step_set. by rewrite (proj2 (Z.leb_le _ _)) by lia. Qed.

Lemma is_step_completed_new wid rid ty hash total now j :
  0 <= j -> is_step_completed (context_new wid rid ty hash total now) j = false.
Proof.
  intros Hj. destruct (decide (j < 256)); [|apply is_step_completed_high; lia].
  unfold is_step_completed. cbn. destruct (is_step_set bitmask_new j) eqn:E; [|done].
  assert (Hin : j ∈ steps bitmask_new) by (apply elem_of_steps; split; [lia|done]).
  rewrite steps_new in Hin. set_solver.
Qed.

Lemma get_step_result_new wid rid ty hash total now j :
  get_step_result (context_new wid rid ty hash total now) j = None.
Proof.
  unfold get_step_result, context_new; cbn [step_results].
  rewrite slotmap_get_lookup; [|apply slotmap_with_capacity_wf].
  by rewrite (proj2 (slotmap_with_capacity_wf 64)).
Qed.

(** A context whose bitmask agrees with its stored results. *)
Definition context_inv c : Prop :=
  context_wf c /\ forall j, 0 <= j < 256 -> is_step_completed c j = is_some (get_step_result c j).

Lemma context_new_inv wid rid ty hash total now :
  u64 wid -> u64 rid -> u32 total -> context_inv (context_new wid rid ty hash total now).
Proof.
  intros. split; [by apply context_new_wf|]. intros j Hj.
  by rewrite is_step_completed_new, get_step_result_new by lia.
Qed.

Lemma complete_step_inv c step res : 0 <= step -> context_inv c -> context_inv (complete_step c step res).
Proof.
  intros Hs [Hwf Hag]. split; [by apply complete_step_wf|]. intros j Hj.
  rewrite is_step_completed_complete, get_step_result_complete, Hag by done.
  case_decide; subst; [by rewrite bool_decide_eq_true_2|by rewrite bool_decide_eq_false_2].
Qed.

Lemma signal_inv c name payload : name <> U64_MAX -> context_inv c -> context_inv (signal c name payload).
Proof. intros Hn [Hwf Hag]. split; [by apply signal_wf|exact Hag]. Qed.

Lemma with_status_inv c st close res : context_inv c -> context_inv (with_status c st close res).
Proof. intros [Hwf Hag]. split; [by apply with_status_wf|exact Hag]. Qed.

Lemma with_start_inv c ns input : context_inv c -> context_inv (with_start c ns input).
Proof. intros [Hwf Hag]. split; [by apply with_start_wf|exact Hag]. Qed.

(** The steps completed in a run, the last result of each. *)
Definition complete_steps c (evs : list (Z * bytes)) : WorkflowContext :=
  foldl (fun c e => complete_step c e.1 e.2) c evs.

Definition last_result (evs : list (Z * bytes)) (j : Z) : option bytes :=
  foldl (fun acc e => if decide (e.1 = j) then Some e.2 else acc) None evs.

Lemma last_result_snoc evs e j :
  last_result (evs ++ [e]) j = if decide (e.1 = j) then Some e.2 else last_result evs j.
Proof. unfold last_result. by rewrite foldl_app. Qed.

(** Whatever steps a workflow completes, in any order and with
    repetitions, its slab stays well formed and verifiable, a lookup returns the
    result of the last completion of the step, and the bitmask test agrees with
    the stored results for the 256 steps it can represent; for larger steps it
    always answers that the step is not completed. *)
Theorem context_steps_recorded (wid rid ty hash total now j : Z) (evs : list (Z * bytes))
  (Hw : u64 wid) (Hr : u64 rid) (Ht : u32 total)
  (Hevs : Forall (fun e => u32 e.1) evs) (Hj : u32 j) :
  let c := complete_steps (context_new wid rid ty hash total now) evs in
  context_wf c /\
  get_step_result c j = last_result evs j /\
  is_step_completed c j = (j <? 256) && is_some (last_result evs j) /\
  event_sequence c = wrap 64 (Z.of_nat (length evs)).
Proof.
  cbv zeta. induction evs as [|[s res] evs IH] using rev_ind.
  - split_and!; [by apply context_new_wf|by apply get_step_result_new| |done].
    rewrite andb_false_r. apply is_step_completed_new. ranges.
  - apply Forall_snoc in Hevs as [Hevs Hs]. simpl in Hs.
    destruct (IH Hevs) as (Hwf & Hres & Hset & Hseq). unfold complete_steps in *.
    rewrite foldl_app, last_result_snoc. cbn [foldl fst snd] in *.
    set (c := foldl _ _ evs) in *. split_and!.
    + apply complete_step_wf; [ranges|done].
    + rewrite get_step_result_complete, Hres by done. done.
    + destruct (Z.ltb_spec j 256); cbn [andb] in *.
      * rewrite is_step_completed_complete, Hset by (done || ranges).
        case_decide; subst; [by rewrite bool_decide_eq_true_2|by rewrite bool_decide_eq_false_2].
      * by apply is_step_completed_high.
    + unfold complete_step, with_progress; cbn [event_sequence].
      rewrite Hseq, wrap_succ, length_app by lia. f_equal. simpl. lia.
Qed.

End invariant.

Lemma workflow_key_injective_witness :
  make_key 3 7 >>> 32 = 3 /\ make_key 0 (2 ^ 32 + 7) = make_key 1 7.
Proof.
  destruct (workflow_key_injective 3 7 3 7) as (_ & Hs & _ & Hc);
    [split; vm_compute; done..|]. exact (conj Hs Hc).
Defined.

Lemma context_steps_recorded_witness :
  let c := complete_steps (H := poly_sha) (context_new (H := poly_sha) 1 1 1 1 5 0)
             [(2, [7]); (300, [8]); (2, [9])] in
  get_step_result c 2 = Some [9] /\ get_step_result c 300 = Some [8] /\
  is_step_completed c 300 = false.
Proof.
  pose proof (context_steps_recorded (H := poly_sha) 1 1 1 1 5 0) as Hc.
  assert (Hev : Forall (fun e : Z * bytes => u32 e.1) [(2, [7]); (300, [8]); (2, [9])])
    by (repeat constructor; done).
  destruct (Hc 2 [(2, [7]); (300, [8]); (2, [9])] ltac:(done) ltac:(done) ltac:(done) Hev ltac:(done))
    as (_ & H2 & _).
  destruct (Hc 300 [(2, [7]); (300, [8]); (2, [9])] ltac:(done) ltac:(done) ltac:(done) Hev ltac:(done))
    as (_ & H300 & Hset & _).
  split; [exact H2|]. split; [exact H300|exact Hset].
Defined.

End Context.
