(* ===== verification/Replay.v ===== *)
(** * Replay engine ([velocity-workflow-engine/src/replay.rs])

    Reconstruction of a workflow's state from its event history: one step per
    event, the determinism checksum, the cache, and the conversion of a replay
    result into a context. *)

From S2P Require Import Prelude Bitmask Slab SlotMap EventHistory Context.
Import EventHistory.
Import (hints) Context.

Module Replay.

Inductive ReplayActivityStatus : Type := ActScheduled | ActStarted | ActCompleted | ActFailed | ActTimedOut.
Inductive ReplayTimerStatus : Type := TmStarted | TmFired | TmCanceled.
Inductive ReplayChildStatus : Type := ChStarted | ChCompleted | ChFailed.

#[export] Instance ReplayTimerStatus_eq_dec : EqDecision ReplayTimerStatus.
Proof. solve_decision. Defined.

Record ReplayActivityState : Type := mkActivity {
  act_step : Z;
  act_name : Z;
  act_status : ReplayActivityStatus;
  act_result : option bytes;
}.

Record ReplayTimerState : Type := mkReplayTimer {
  tm_id : Z;
  tm_started_at : Z;
  tm_status : ReplayTimerStatus;
  tm_fired_at : option Z;
}.

Record ReplayChildState : Type := mkChild {
  child_key : Z;
  child_status : ReplayChildStatus;
  child_result : option bytes;
}.

(** The local variables of [replay]; together with the key and the number of events they are
    its result, whose [success] is always [true] and [error] always [None]. *)
Record replay_state : Type := mkReplay {
  r_status : Context.WorkflowStatus;
  r_steps : gmap Z bytes;
  r_signals : gmap Z (list bytes);
  r_activities : list ReplayActivityState;
  r_timers : list ReplayTimerState;
  r_children : list ReplayChildState;
  r_replayed : nat;
  r_to_event : Z;
  r_checksum : Z;
}.

Record ReplayResult : Type := mkResult {
  res_key : Z;
  res_total_events : nat;
  res_state : replay_state;
  res_success : bool;
}.

Record ReplayEngine : Type := mkReplayEngine {
  replay_cache : gmap Z ReplayResult;
  max_replay_events : nat;
  total_replays : Z;
}.

Definition with_max_events (n : nat) : ReplayEngine := mkReplayEngine ∅ n 0.
Definition replay_engine_new : ReplayEngine := with_max_events (Z.to_nat 100000).

(** [event_type as u64]. *)
Definition event_type_code (t : HistoryEventType) : Z :=
  match t with
  | WorkflowStarted => 1 | WorkflowCompleted => 2 | WorkflowFailed => 3 | WorkflowCanceled => 4
  | WorkflowTerminated => 5 | WorkflowTimedOut => 6 | WorkflowContinuedAsNew => 7
  | StepCompleted => 10
  | ActivityScheduled => 20 | ActivityStarted => 21 | ActivityCompleted => 22 | ActivityFailed => 23
  | ActivityTimedOut => 24
  | SignalReceived => 30 | UpdateReceived => 31 | QueryReceived => 32
  | TimerStarted => 40 | TimerFired => 41 | TimerCanceled => 42
  | ChildWorkflowStarted => 50 | ChildWorkflowCompleted => 51 | ChildWorkflowFailed => 52
  | MarkerRecorded => 60 | WorkflowReset => 70
  end.

Definition FNV_OFFSET : Z := 0xcbf29ce484222325.
Definition FNV_PRIME : Z := 0x100000001b3.

Definition fnv_step (checksum x : Z) : Z := wrapping_mul 64 (checksum ^^^ x) FNV_PRIME.

Definition event_checksum (checksum : Z) (ev : HistoryEvent) : Z :=
  fnv_step (fnv_step (fnv_step checksum (event_type_code (EventHistory.event_type ev))) (event_id ev))
    (Z.of_nat (length (event_payload ev))).

(** [iter_mut().rev().find(p)], updated with [f]. *)
Fixpoint alter_first {A} (p : A -> bool) (f : A -> A) (l : list A) : list A :=
  match l with
  | [] => []
  | x :: l => if p x then f x :: l else x :: alter_first p f l
  end.
Definition alter_last {A} (p : A -> bool) (f : A -> A) (l : list A) : list A :=
  reverse (alter_first p f (reverse l)).

(** The little-endian number in the first [n] bytes, and what follows them. *)
Definition head_val (n : nat) (p : bytes) : Z := le_val (slice 0 n p).
Definition tail_some (n : nat) (p : bytes) : option bytes :=
  if (n <? length p)%nat then Some (drop n p) else None.

Definition set_core (st : replay_state) (s : Context.WorkflowStatus) (steps : gmap Z bytes)
    (sigs : gmap Z (list bytes)) : replay_state :=
  mkReplay s steps sigs (r_activities st) (r_timers st) (r_children st) (r_replayed st) (r_to_event st)
    (r_checksum st).
Definition set_status (st : replay_state) (s : Context.WorkflowStatus) : replay_state :=
  set_core st s (r_steps st) (r_signals st).
Definition set_lists (st : replay_state) (acts : list ReplayActivityState) (tms : list ReplayTimerState)
    (chs : list ReplayChildState) : replay_state :=
  mkReplay (r_status st) (r_steps st) (r_signals st) acts tms chs (r_replayed st) (r_to_event st)
    (r_checksum st).

Definition set_activity (st : replay_state) (p : bytes) (s : ReplayActivityStatus)
    (upd : option bytes -> option bytes) : replay_state :=
  if (4 <=? length p)%nat then
    set_lists st
      (alter_last (fun a => act_step a =? head_val 4 p)
         (fun a => mkActivity (act_step a) (act_name a) s (upd (act_result a))) (r_activities st))
      (r_timers st) (r_children st)
  else st.

Definition close_timer (st : replay_state) (ev : HistoryEvent) (s : ReplayTimerStatus) : replay_state :=
  let p := event_payload ev in
  if (8 <=? length p)%nat then
    set_lists st (r_activities st)
      (alter_last (fun t => (tm_id t =? head_val 8 p) && bool_decide (tm_status t = TmStarted))
         (fun t => mkReplayTimer (tm_id t) (tm_started_at t) s (Some (event_id ev))) (r_timers st))
      (r_children st)
  else st.

Definition close_child (st : replay_state) (p : bytes) (s : ReplayChildStatus)
    (upd : option bytes -> option bytes) : replay_state :=
  if (8 <=? length p)%nat then
    set_lists st (r_activities st) (r_timers st)
      (alter_last (fun c => child_key c =? head_val 8 p)
         (fun c => mkChild (child_key c) s (upd (child_result c))) (r_children st))
  else st.

(** The [match event.event_type] of the loop. *)
Definition apply_event (st : replay_state) (ev : HistoryEvent) : replay_state :=
  let p := event_payload ev in
  match EventHistory.event_type ev with
  | WorkflowStarted => set_status st Context.Running
  | WorkflowCompleted => set_status st Context.Completed
  | WorkflowFailed => set_status st Context.Failed
  | WorkflowCanceled => set_status st Context.Canceled
  | WorkflowTerminated => set_status st Context.Terminated
  | WorkflowTimedOut => set_status st Context.TimedOut
  | WorkflowContinuedAsNew => set_status st Context.ContinuedAsNew
  | StepCompleted =>
      if (4 <=? length p)%nat then
        set_core st (r_status st) (<[head_val 4 p := default [] (tail_some 4 p)]> (r_steps st)) (r_signals st)
      else st
  | ActivityScheduled =>
      if (12 <=? length p)%nat then
        set_lists st
          (r_activities st ++ [mkActivity (head_val 4 p) (le_val (slice 4 12 p)) ActScheduled None])
          (r_timers st) (r_children st)
      else st
  | ActivityStarted => set_activity st p ActStarted id
  | ActivityCompleted => set_activity st p ActCompleted (fun _ => tail_some 4 p)
  | ActivityFailed => set_activity st p ActFailed id
  | ActivityTimedOut => set_activity st p ActTimedOut id
  | SignalReceived =>
      if (8 <=? length p)%nat then
        let name := head_val 8 p in
        set_core st (r_status st) (r_steps st)
          (<[name := default [] (r_signals st !! name) ++ [default [] (tail_some 8 p)]]> (r_signals st))
      else st
  | TimerStarted =>
      if (8 <=? length p)%nat then
        set_lists st (r_activities st)
          (r_timers st ++ [mkReplayTimer (head_val 8 p) (event_id ev) TmStarted None]) (r_children st)
      else st
  | TimerFired => close_timer st ev TmFired
  | TimerCanceled => close_timer st ev TmCanceled
  | ChildWorkflowStarted =>
      if (8 <=? length p)%nat then
        set_lists st (r_activities st) (r_timers st)
          (r_children st ++ [mkChild (head_val 8 p) ChStarted None])
      else st
  | ChildWorkflowCompleted => close_child st p ChCompleted (fun _ => tail_some 8 p)
  | ChildWorkflowFailed => close_child st p ChFailed id
  | UpdateReceived | QueryReceived | MarkerRecorded | WorkflowReset => st
  end.

Definition replay_init : replay_state := mkReplay Context.Void ∅ ∅ [] [] [] 0 0 FNV_OFFSET.

Definition replay_event (st : replay_state) (ev : HistoryEvent) : replay_state :=
  let st := mkReplay (r_status st) (r_steps st) (r_signals st) (r_activities st) (r_timers st)
              (r_children st) (S (r_replayed st)) (event_id ev) (event_checksum (r_checksum st) ev) in
  apply_event st ev.

(** The loop, with its two [break]s. *)
Fixpoint replay_loop (max : nat) (cutoff : Z) (st : replay_state) (history : list HistoryEvent) :
    replay_state :=
  match history with
  | [] => st
  | ev :: history =>
      if cutoff <? event_id ev then st
      else if (max <=? r_replayed st)%nat then st
      else replay_loop max cutoff (replay_event st ev) history
  end.

Definition replay (e : ReplayEngine) (key : Z) (history : list HistoryEvent) (up_to : option Z) :
    ReplayEngine * ReplayResult :=
  (mkReplayEngine (replay_cache e) (max_replay_events e) (wrap 64 (total_replays e + 1)),
   mkResult key (length history)
     (replay_loop (max_replay_events e) (default U64_MAX up_to) replay_init history) true).

Definition replay_from_store (e : ReplayEngine) (key : Z) (s : HistoryStore) (up_to : option Z) :
    ReplayEngine * ReplayResult :=
  let '(e, r) := replay e key (default [] (get_history s key)) up_to in
  (mkReplayEngine (<[key := r]> (replay_cache e)) (max_replay_events e) (total_replays e), r).

(** [HashMap] iteration orders of the step results and of the signals are arguments; the keys
    they list are read in the maps. *)
Definition apply_replay `{Sha256} (r : ReplayResult) (step_order signal_order : list Z) (now : Z) :
    option Context.WorkflowContext :=
  if negb (res_success r) then None
  else
    let st := res_state r in
    let total := match step_order with
                 | [] => 0
                 | _ => wrap 32 (foldr Z.max 0 step_order + 1)
                 end in
    let c := Context.context_new (res_key r &&& 0xFFFFFFFF) 0 0 0 total now in
    let c := Context.with_status c (r_status st) (Context.close_time c) (Context.result_data c) in
    let c := foldl (fun c k => match r_steps st !! k with
                               | Some d => Context.complete_step c k d | None => c end) c step_order in
    Some (foldl (fun c k => foldl (fun c p => Context.signal c k p) c (default [] (r_signals st !! k)))
            c signal_order).

Definition results_agree (a b : replay_state) : bool :=
  bool_decide (r_status a = r_status b) && bool_decide (r_steps a = r_steps b)
  && (r_replayed a =? r_replayed b)%nat && (r_to_event a =? r_to_event b)
  && (r_checksum a =? r_checksum b).

Definition verify_determinism (e : ReplayEngine) (key : Z) (history : list HistoryEvent) : ReplayEngine * bool :=
  let '(e, r1) := replay e key history None in
  let '(e, r2) := replay e key history None in
  let a := res_state r1 in
  let b := res_state r2 in
  (e, results_agree a b && (length (r_timers a) =? length (r_timers b))%nat
      && (length (r_children a) =? length (r_children b))%nat).

Definition compare_replay_results (a b : ReplayResult) : bool :=
  let a := res_state a in
  let b := res_state b in
  results_agree a b && (length (r_activities a) =? length (r_activities b))%nat
  && (length (r_timers a) =? length (r_timers b))%nat
  && (length (r_children a) =? length (r_children b))%nat.

Definition get_cached (e : ReplayEngine) (key : Z) : option ReplayResult := replay_cache e !! key.
Definition invalidate_cache (e : ReplayEngine) (key : Z) : ReplayEngine :=
  mkReplayEngine (delete key (replay_cache e)) (max_replay_events e) (total_replays e).
Definition clear_cache (e : ReplayEngine) : ReplayEngine :=
  mkReplayEngine ∅ (max_replay_events e) (total_replays e).

(** ** The loop on a numbered history *)

Lemma r_replayed_event st ev : r_replayed (replay_event st ev) = S (r_replayed st).
Proof.
  unfold replay_event, apply_event, set_activity, close_timer, close_child.
  by destruct (EventHistory.event_type ev); simpl; repeat case_match.
Qed.

Lemma replay_loop_prefix key (l : list entry) (off : nat) max (n : Z) st :
  r_replayed st = off -> 0 <= n ->
  replay_loop max n st (imap (fun j => numbered key (off + j)) l) =
  foldl replay_event st (take (Nat.min (Z.to_nat n) max - off) (imap (fun j => numbered key (off + j)) l)).
Proof.
  revert off st. induction l as [|e l IH]; intros off st Hoff Hn; [by destruct (Z.to_nat n `min` max - off)%nat|].
  simpl. rewrite Nat.add_0_r. rewrite (imap_shift (numbered key)).
  destruct (Z.ltb_spec n (Z.of_nat off + 1)).
  { by replace (Z.to_nat n `min` max - off)%nat with 0%nat by lia. }
  rewrite Hoff. destruct (Nat.leb_spec max off).
  { by replace (Z.to_nat n `min` max - off)%nat with 0%nat by lia. }
  replace (Z.to_nat n `min` max - off)%nat with (S (Z.to_nat n `min` max - S off)) by lia. simpl.
  apply (IH (S off)); [|done]. by rewrite r_replayed_event, Hoff.
Qed.

(** Replaying a stored history up to an event, or to its end,
    applies exactly the events up to that number, at most [max_replay_events] of
    them, in order. *)
Theorem replay_applies_prefix (e : ReplayEngine) (key n : Z) (l : list entry) (Hn : 0 <= n) :
  let history := imap (numbered key) l in
  res_state (replay e key history (Some n)).2 =
    foldl replay_event replay_init (take (Nat.min (Z.to_nat n) (max_replay_events e)) history) /\
  res_state (replay e key history None).2 = res_state (replay e key history (Some U64_MAX)).2.
Proof.
  split; [|done]. pose proof (replay_loop_prefix key l 0 (max_replay_events e) n replay_init eq_refl Hn) as Hp.
  rewrite Nat.sub_0_r in Hp. exact Hp.
Qed.

Lemma replay_applies_prefix_witness :
  res_state (replay (with_max_events 10) 7
    (imap (numbered 7) [(WorkflowStarted, [], ∅); (WorkflowFailed, [], ∅)]) (Some 1)).2 =
  replay_event replay_init (numbered 7 0 (WorkflowStarted, [], ∅)).
Proof.
  rewrite (proj1 (replay_applies_prefix (with_max_events 10) 7 1
    [(WorkflowStarted, [], ∅); (WorkflowFailed, [], ∅)] ltac:(lia))).
  reflexivity.
Defined.

(** The determinism check accepts every history: it replays the
    same events twice through the same function, and a replay always reports
    success. *)
Theorem verify_determinism_always_true (e : ReplayEngine) (key : Z) (history : list HistoryEvent) :
  (verify_determinism e key history).2 = true /\ res_success (replay e key history None).2 = true.
Proof.
  split; [|done]. unfold verify_determinism, results_agree. simpl.
  rewrite !bool_decide_true, !Nat.eqb_refl, !Z.eqb_refl by done. done.
Qed.

(** ** Replay against contexts *)

Section contexts.
Context `{Sha256}.

(** The replayed state describes the context. *)
Record describes (st : replay_state) (c : Context.WorkflowContext) : Prop := {
  desc_wf : Context.context_wf c;
  desc_status : r_status st = Context.status c;
  desc_steps : forall s, r_steps st !! s = Context.get_step_result c s;
  desc_signals : forall n, default [] (r_signals st !! n) =
                           SlotVec.queue (SlotVec.slotvec_map (Context.signal_buffer c)) n;
}.

Lemma le_app_length n x p : (n <=? length (le_bytes n x ++ p))%nat = true.
Proof. apply Nat.leb_le. rewrite length_app, le_bytes_length. lia. Qed.

Lemma tail_drop n p : default [] (tail_some n p) = drop n p.
Proof. unfold tail_some. destruct (Nat.ltb_spec n (length p)); [done|]. simpl. by rewrite drop_ge. Qed.

Lemma head_val_fits n w p : w = 8 * Z.of_nat n -> is_bytes p -> (n <= length p)%nat -> fits w (head_val n p).
Proof.
  intros -> Hp Hn. unfold head_val, slice. rewrite drop_0.
  assert (Hlen : length (take (n - 0) p) = n) by (rewrite length_take; lia).
  rewrite <- Hlen at 1. apply le_val_fits. by apply Forall_take.
Qed.

(** Counting an event changes nothing of this. *)
Lemma describes_counted st c key i ev :
  describes st c -> exists st', describes st' c /\ replay_event st (numbered key i ev) = apply_event st' (numbered key i ev).
Proof. intros []. eexists. split; [|reflexivity]. by constructor. Qed.

Lemma describes_status st c s close res :
  describes st c -> describes (set_status st s) (Context.with_status c s close res).
Proof. intros []; constructor; try done. by apply Context.with_status_wf. Qed.

Lemma describes_closed st c key i en s close res :
  describes st c -> (forall st', apply_event st' (numbered key i en) = set_status st' s) ->
  describes (replay_event st (numbered key i en)) (Context.with_status c s close res).
Proof.
  intros Hd Hev. destruct (describes_counted st c key i en Hd) as (st' & Hd' & ->). rewrite Hev.
  by apply describes_status.
Qed.

Lemma describes_step st c key i p attrs :
  is_bytes p -> describes st c ->
  describes (replay_event st (numbered key i (StepCompleted, p, attrs)))
    (if (4 <=? length p)%nat then Context.complete_step c (head_val 4 p) (drop 4 p) else c).
Proof.
  intros Hp Hd. destruct (describes_counted st c key i (StepCompleted, p, attrs) Hd) as (st' & Hd' & ->).
  cbn [apply_event numbered EventHistory.event_type event_payload fst snd].
  destruct (Nat.leb_spec 4 (length p)) as [Hlen|]; [|done]. rewrite tail_drop.
  pose proof (head_val_fits 4 32 p eq_refl Hp Hlen) as Hs. destruct Hd' as [Hwf Hst Hsteps Hsig].
  constructor; try done.
  - apply Context.complete_step_wf; [ranges|done].
  - intros s. cbn [r_steps set_core]. rewrite Context.get_step_result_complete, <- Hsteps by done.
    case_decide; subst; [by rewrite lookup_insert_eq|by rewrite lookup_insert_ne].
Qed.

Lemma describes_signal st c key i p attrs :
  head_val 8 p <> U64_MAX -> describes st c ->
  describes (replay_event st (numbered key i (SignalReceived, p, attrs)))
    (if (8 <=? length p)%nat then Context.signal c (head_val 8 p) (drop 8 p) else c).
Proof.
  intros Hmax Hd. destruct (describes_counted st c key i (SignalReceived, p, attrs) Hd) as (st' & Hd' & ->).
  cbn [apply_event numbered EventHistory.event_type event_payload fst snd].
  destruct (Nat.leb_spec 8 (length p)) as [Hlen|]; [|done]. rewrite tail_drop.
  destruct Hd' as [Hwf Hst Hsteps Hsig]. constructor; try done.
  - by apply Context.signal_wf.
  - intros n. cbn [r_signals set_core Context.signal Context.with_progress Context.signal_buffer].
    destruct (SlotVec.slotvec_push_map (Context.signal_buffer c) (head_val 8 p) (drop 8 p) (Context.wf_signals _ Hwf) Hmax)
      as [_ ->].
    rewrite SlotVec.queue_insert, <- !Hsig. case_decide; subst.
    + by rewrite lookup_insert_eq.
    + by rewrite lookup_insert_ne.
Qed.

Lemma describes_new key wid rid ty hash total now data attrs :
  u64 wid -> u64 rid -> u32 total ->
  describes (replay_event replay_init (numbered key 0 (WorkflowStarted, data, attrs)))
    (Context.context_new wid rid ty hash total now).
Proof.
  intros. constructor; [by apply Context.context_new_wf|done| |].
  - intros s. change (r_steps _) with (∅ : gmap Z bytes).
    unfold Context.get_step_result, Context.context_new. cbn [Context.step_results].
    rewrite SlotMap.slotmap_get_lookup by apply SlotMap.slotmap_with_capacity_wf.
    rewrite (proj2 (SlotMap.slotmap_with_capacity_wf 64)). by rewrite !lookup_empty.
  - intros n. change (r_signals _) with (∅ : gmap Z (list bytes)).
    unfold SlotVec.queue, Context.context_new. cbn [Context.signal_buffer]. rewrite (proj2 (SlotVec.slotvec_with_capacity_wf 16)).
    by rewrite !lookup_empty.
Qed.

(** A numbered history that is not too long is replayed to its end. *)
Lemma replay_all_events (e : ReplayEngine) key (l : list entry) :
  (length l <= max_replay_events e)%nat -> Z.of_nat (length l) <= U64_MAX ->
  res_state (replay e key (imap (numbered key) l) None).2 = foldl replay_event replay_init (imap (numbered key) l).
Proof.
  intros Hmax Hlen. pose proof (replay_loop_prefix key l 0 (max_replay_events e) U64_MAX replay_init eq_refl ltac:(done)) as Hp.
  rewrite Nat.sub_0_r, take_ge in Hp; [exact Hp|]. rewrite length_imap. clear -Hmax Hlen. lia.
Qed.

End contexts.

End Replay.
