(* ===== verification/Visibility.v ===== *)
(** * Visibility index ([velocity-workflow-engine/src/visibility.rs])

    The searchable summary of every workflow execution: a main map and five
    secondary indices, the compound filters, and paginated queries.  A hash map
    iterates in an order of its own, so the operations that walk the main map take
    that order, a list of its keys, as an argument. *)

From Stdlib Require Import SpecFloat.
From stdpp Require Import sorting pretty.
From S2P Require Import Prelude Bitmask Slab SlotMap Index Context.
Import Context.

Module Visibility.

Inductive SearchAttributeValue : Type :=
| AttrString (s : string)
| AttrInteger (i : Z)
| AttrDouble (d : spec_float)
| AttrBool (b : bool)
| AttrDateTime (ms : Z)
| AttrKeyword (s : string).

(** The derived [PartialEq]; [f64] equality is IEEE's, so [NaN] differs from itself. *)
Definition attr_eqb (a b : SearchAttributeValue) : bool :=
  match a, b with
  | AttrString s, AttrString s' => String.eqb s s'
  | AttrInteger i, AttrInteger i' => i =? i'
  | AttrDouble d, AttrDouble d' => SFeqb d d'
  | AttrBool x, AttrBool x' => Bool.eqb x x'
  | AttrDateTime m, AttrDateTime m' => m =? m'
  | AttrKeyword s, AttrKeyword s' => String.eqb s s'
  | _, _ => false
  end.

Record WorkflowExecutionInfo : Type := mkInfo {
  info_key : Z;
  info_workflow_id : Z;
  info_run_id : Z;
  info_type_id : Z;
  info_namespace_id : Z;
  info_status : WorkflowStatus;
  start_time_ms : Z;
  close_time_ms : option Z;
  info_queue_hash : Z;
  search_attributes : gmap string SearchAttributeValue;
  memo : gmap string bytes;
}.

Inductive SortOrder : Type := Ascending | Descending.
Inductive SortField : Type := ByStartTime | ByCloseTime | ByWorkflowKey.

Inductive VisibilityFilter : Type :=
| FStatus (s : WorkflowStatus)
| FNamespace (ns : Z)
| FWorkflowType (ty : Z)
| FTimeRange (start_ms end_ms : Z)
| FCloseTimeRange (start_ms end_ms : Z)
| FSearchAttribute (key : string) (value : SearchAttributeValue)
| FPrefix (prefix : string)
| FAnd (fs : list VisibilityFilter)
| FOr (fs : list VisibilityFilter)
| FNot (f : VisibilityFilter).

(** A page token is the offset of the next page. *)
Record VisibilityQuery : Type := mkQuery {
  q_filter : VisibilityFilter;
  sort_field : SortField;
  sort_order : SortOrder;
  page_size : nat;
  page_token : option nat;
}.

Definition query_new (f : VisibilityFilter) : VisibilityQuery := mkQuery f ByStartTime Descending 100 None.
Definition with_sort (q : VisibilityQuery) (f : SortField) (o : SortOrder) : VisibilityQuery :=
  mkQuery (q_filter q) f o (page_size q) (page_token q).
Definition with_pagination (q : VisibilityQuery) (n : nat) (t : option nat) : VisibilityQuery :=
  mkQuery (q_filter q) (sort_field q) (sort_order q) n t.

Record PaginatedResult : Type := mkPage {
  items : list WorkflowExecutionInfo;
  next_token : option nat;
  total_count : nat;
}.

Record VisibilityIndex : Type := mkVisibility {
  executions : gmap Z WorkflowExecutionInfo;
  by_status : index;
  by_namespace : index;
  by_type : index;
  by_start_time : index;
  by_close_time : index;
}.

Definition visibility_new : VisibilityIndex := mkVisibility ∅ ∅ ∅ ∅ ∅ ∅.

Definition register (v : VisibilityIndex) (info : WorkflowExecutionInfo) : VisibilityIndex :=
  let key := info_key info in
  mkVisibility (<[key := info]> (executions v))
    (index_push (by_status v) (status_as_u8 (info_status info)) key)
    (index_push (by_namespace v) (info_namespace_id info) key)
    (index_push (by_type v) (info_type_id info) key)
    (index_push (by_start_time v) (start_time_ms info) key)
    (match close_time_ms info with
     | Some ct => index_push (by_close_time v) ct key
     | None => by_close_time v
     end).

Definition set_status (info : WorkflowExecutionInfo) (st : WorkflowStatus) (close : option Z) :
    WorkflowExecutionInfo :=
  mkInfo (info_key info) (info_workflow_id info) (info_run_id info) (info_type_id info)
    (info_namespace_id info) st (start_time_ms info) close (info_queue_hash info)
    (search_attributes info) (memo info).

Definition update_status (v : VisibilityIndex) (key : Z) (new_status : WorkflowStatus)
    (close : option Z) : VisibilityIndex :=
  match executions v !! key with
  | Some info =>
      mkVisibility (<[key := set_status info new_status close]> (executions v))
        (index_push (index_retain (by_status v) (status_as_u8 (info_status info)) key)
           (status_as_u8 new_status) key)
        (by_namespace v) (by_type v) (by_start_time v)
        (match close with Some ct => index_push (by_close_time v) ct key | None => by_close_time v end)
  | None => v
  end.

Definition with_executions (v : VisibilityIndex) (m : gmap Z WorkflowExecutionInfo) : VisibilityIndex :=
  mkVisibility m (by_status v) (by_namespace v) (by_type v) (by_start_time v) (by_close_time v).

Definition set_search_attribute (v : VisibilityIndex) (key : Z) (name : string)
    (value : SearchAttributeValue) : VisibilityIndex :=
  with_executions v (alter (fun info =>
    mkInfo (info_key info) (info_workflow_id info) (info_run_id info) (info_type_id info)
      (info_namespace_id info) (info_status info) (start_time_ms info) (close_time_ms info)
      (info_queue_hash info) (<[name := value]> (search_attributes info)) (memo info)) key (executions v)).

Definition set_memo (v : VisibilityIndex) (key : Z) (m : gmap string bytes) : VisibilityIndex :=
  with_executions v (alter (fun info =>
    mkInfo (info_key info) (info_workflow_id info) (info_run_id info) (info_type_id info)
      (info_namespace_id info) (info_status info) (start_time_ms info) (close_time_ms info)
      (info_queue_hash info) (search_attributes info) m) key (executions v)).

Definition remove (v : VisibilityIndex) (key : Z) : VisibilityIndex :=
  match executions v !! key with
  | Some info =>
      mkVisibility (delete key (executions v))
        (index_retain (by_status v) (status_as_u8 (info_status info)) key)
        (index_retain (by_namespace v) (info_namespace_id info) key)
        (index_retain (by_type v) (info_type_id info) key)
        (index_retain (by_start_time v) (start_time_ms info) key)
        (match close_time_ms info with
         | Some ct => index_retain (by_close_time v) ct key
         | None => by_close_time v
         end)
  | None => v
  end.

(** ** Queries *)

Definition list_by_status (v : VisibilityIndex) (s : WorkflowStatus) : list WorkflowExecutionInfo :=
  list_bucket (executions v) (by_status v) (status_as_u8 s).
Definition list_by_namespace (v : VisibilityIndex) (ns : Z) : list WorkflowExecutionInfo :=
  list_bucket (executions v) (by_namespace v) ns.
Definition list_by_type (v : VisibilityIndex) (ty : Z) : list WorkflowExecutionInfo :=
  list_bucket (executions v) (by_type v) ty.

Definition bucket_le (p q : Z * list Z) : Prop := p.1 <= q.1.

#[export] Instance bucket_le_dec p q : Decision (bucket_le p q).
Proof. unfold bucket_le. apply _. Defined.

(** [range(start..=end).flat_map(..)] over a [BTreeMap]: buckets in increasing order.  [BTreeMap::range]
    is documented to panic when the start is above the end. *)
Definition list_by_range (v : VisibilityIndex) (idx : index) (start_ms end_ms : Z) :
    exec (list WorkflowExecutionInfo) :=
  if end_ms <? start_ms then Panic
  else Ret (flat_map (fun bk => omap (fun k => executions v !! k) bk.2)
    (merge_sort bucket_le
       (List.filter (fun bk => (start_ms <=? bk.1) && (bk.1 <=? end_ms)) (map_to_list idx)))).

Definition list_by_time_range (v : VisibilityIndex) : Z -> Z -> exec (list WorkflowExecutionInfo) :=
  list_by_range v (by_start_time v).
Definition list_by_close_time_range (v : VisibilityIndex) : Z -> Z -> exec (list WorkflowExecutionInfo) :=
  list_by_range v (by_close_time v).

Definition visibility_get (v : VisibilityIndex) (key : Z) : option WorkflowExecutionInfo := executions v !! key.
Definition count (v : VisibilityIndex) : nat := size (executions v).
Definition count_by_status (v : VisibilityIndex) (s : WorkflowStatus) : nat :=
  length (bucket_keys (by_status v) (status_as_u8 s)).
Definition count_by_namespace (v : VisibilityIndex) (ns : Z) : nat := length (bucket_keys (by_namespace v) ns).
Definition count_by_type (v : VisibilityIndex) (ty : Z) : nat := length (bucket_keys (by_type v) ty).

(** [executions.values()] in the map's iteration order. *)
Definition values (v : VisibilityIndex) (order : list Z) : list WorkflowExecutionInfo :=
  omap (fun k => executions v !! k) order.

Definition starts_with (p s : string) : bool := String.prefix p s.
Definition u64_to_string (n : Z) : string := pretty (Z.to_N n).

Definition list_by_search_attribute (v : VisibilityIndex) (order : list Z) (key : string)
    (value : SearchAttributeValue) : list WorkflowExecutionInfo :=
  List.filter (fun info => match search_attributes info !! key with
                           | Some x => attr_eqb x value | None => false end) (values v order).

Definition list_by_prefix (v : VisibilityIndex) (order : list Z) (p : string) : list WorkflowExecutionInfo :=
  List.filter (fun info => starts_with p (u64_to_string (info_workflow_id info))) (values v order).

Definition list_all (v : VisibilityIndex) (order : list Z) : list WorkflowExecutionInfo := values v order.

Fixpoint matches_filter (info : WorkflowExecutionInfo) (f : VisibilityFilter) : bool :=
  match f with
  | FStatus s => bool_decide (info_status info = s)
  | FNamespace ns => info_namespace_id info =? ns
  | FWorkflowType ty => info_type_id info =? ty
  | FTimeRange a b => (a <=? start_time_ms info) && (start_time_ms info <=? b)
  | FCloseTimeRange a b =>
      match close_time_ms info with Some ct => (a <=? ct) && (ct <=? b) | None => false end
  | FSearchAttribute key value =>
      match search_attributes info !! key with Some x => attr_eqb x value | None => false end
  | FPrefix p => starts_with p (u64_to_string (info_workflow_id info))
  | FAnd fs => forallb (matches_filter info) fs
  | FOr fs => existsb (matches_filter info) fs
  | FNot f => negb (matches_filter info f)
  end.

(** The sort key and the comparison [a <= b] of [sort_by]. *)
Definition sort_key (f : SortField) (info : WorkflowExecutionInfo) : Z :=
  match f with
  | ByStartTime => start_time_ms info
  | ByCloseTime => match close_time_ms info with Some ct => ct | None => 0 end
  | ByWorkflowKey => info_key info
  end.

Definition sort_le (f : SortField) (o : SortOrder) (a b : WorkflowExecutionInfo) : bool :=
  match o with
  | Ascending => sort_key f a <=? sort_key f b
  | Descending => sort_key f b <=? sort_key f a
  end.

(** [sort_by] is stable: elements that compare equal keep their order, so an element goes
    before the first of its followers that it does not exceed. *)
Fixpoint stable_insert (le : WorkflowExecutionInfo -> WorkflowExecutionInfo -> bool)
    (x : WorkflowExecutionInfo) (l : list WorkflowExecutionInfo) : list WorkflowExecutionInfo :=
  match l with
  | [] => [x]
  | y :: l => if le x y then x :: y :: l else y :: stable_insert le x l
  end.

Definition stable_sort (le : WorkflowExecutionInfo -> WorkflowExecutionInfo -> bool)
    (l : list WorkflowExecutionInfo) : list WorkflowExecutionInfo :=
  foldr (stable_insert le) [] l.

Definition matched (v : VisibilityIndex) (order : list Z) (q : VisibilityQuery) : list WorkflowExecutionInfo :=
  stable_sort (sort_le (sort_field q) (sort_order q))
    (List.filter (fun info => matches_filter info (q_filter q)) (values v order)).

Definition execute_query (v : VisibilityIndex) (order : list Z) (q : VisibilityQuery) : PaginatedResult :=
  let all := matched v order q in
  let offset := match page_token q with Some t => t | None => O end in
  let page := take (page_size q) (drop offset all) in
  let next_offset := (offset + length page)%nat in
  mkPage page (if (next_offset <? length all)%nat then Some next_offset else None) (length all).

(** [*map.entry(b).or_insert(0) += 1]. *)
Definition count_in (m : gmap Z nat) (b : Z) : gmap Z nat := <[b := S (default O (m !! b))]> m.

Record VisibilityAggregation : Type := mkAggregation {
  agg_by_status : gmap Z nat;
  agg_by_namespace : gmap Z nat;
  agg_by_type : gmap Z nat;
  agg_total : nat;
}.

Definition aggregate (v : VisibilityIndex) (order : list Z) : VisibilityAggregation :=
  foldl (fun a info =>
    mkAggregation (count_in (agg_by_status a) (status_as_u8 (info_status info)))
      (count_in (agg_by_namespace a) (info_namespace_id info))
      (count_in (agg_by_type a) (info_type_id info)) (agg_total a))
    (mkAggregation ∅ ∅ ∅ (size (executions v))) (values v order).

(** ** Exactness of the indices *)

Definition proj_status (i : WorkflowExecutionInfo) : option Z := Some (status_as_u8 (info_status i)).
Definition proj_namespace (i : WorkflowExecutionInfo) : option Z := Some (info_namespace_id i).
Definition proj_type (i : WorkflowExecutionInfo) : option Z := Some (info_type_id i).
Definition proj_start (i : WorkflowExecutionInfo) : option Z := Some (start_time_ms i).

Record indices_exact (v : VisibilityIndex) : Prop := {
  ex_status : index_exact (executions v) proj_status (by_status v);
  ex_namespace : index_exact (executions v) proj_namespace (by_namespace v);
  ex_type : index_exact (executions v) proj_type (by_type v);
  ex_start : index_exact (executions v) proj_start (by_start_time v);
}.

Lemma indices_exact_new : indices_exact visibility_new.
Proof. constructor; apply index_empty_exact. Qed.

Lemma register_exact v info :
  indices_exact v -> executions v !! info_key info = None -> indices_exact (register v info).
Proof.
  intros [Hs Hn Ht Hst] Hk. constructor; cbn [register executions by_status by_namespace by_type by_start_time].
  - exact (index_exact_fresh _ proj_status _ _ info Hs Hk).
  - exact (index_exact_fresh _ proj_namespace _ _ info Hn Hk).
  - exact (index_exact_fresh _ proj_type _ _ info Ht Hk).
  - exact (index_exact_fresh _ proj_start _ _ info Hst Hk).
Qed.

Lemma update_status_exact v key st close : indices_exact v -> indices_exact (update_status v key st close).
Proof.
  intros Hv. unfold update_status. destruct (executions v !! key) as [info|] eqn:Hk; [|done].
  destruct Hv as [Hs Hn Ht Hst]. constructor; cbn [executions by_status by_namespace by_type by_start_time].
  - exact (index_exact_update _ proj_status _ _ info (set_status info st close) Hs Hk).
  - by apply (index_exact_same _ _ _ _ info).
  - by apply (index_exact_same _ _ _ _ info).
  - by apply (index_exact_same _ _ _ _ info).
Qed.

Lemma alter_exact v key (f : WorkflowExecutionInfo -> WorkflowExecutionInfo) :
  (forall i, proj_status (f i) = proj_status i /\ proj_namespace (f i) = proj_namespace i /\
             proj_type (f i) = proj_type i /\ proj_start (f i) = proj_start i) ->
  indices_exact v -> indices_exact (with_executions v (alter f key (executions v))).
Proof.
  intros Hf Hv. destruct (executions v !! key) as [info|] eqn:Hk.
  - destruct (Hf info) as (?&?&?&?). destruct Hv as [Hs Hn Ht Hst]. rewrite (alter_present f key _ info Hk).
    constructor; cbn [with_executions executions by_status by_namespace by_type by_start_time];
      by apply (index_exact_same _ _ _ _ info).
  - rewrite (alter_absent f key _ Hk). by destruct v, Hv.
Qed.

Lemma remove_exact v key : indices_exact v -> indices_exact (remove v key).
Proof.
  intros Hv. unfold remove. destruct (executions v !! key) as [info|] eqn:Hk; [|done].
  destruct Hv as [Hs Hn Ht Hst]. constructor; cbn [executions by_status by_namespace by_type by_start_time].
  - exact (index_exact_delete _ proj_status _ _ info Hs Hk).
  - exact (index_exact_delete _ proj_namespace _ _ info Hn Hk).
  - exact (index_exact_delete _ proj_type _ _ info Ht Hk).
  - exact (index_exact_delete _ proj_start _ _ info Hst Hk).
Qed.

Inductive vis_op : Type :=
| VRegister (info : WorkflowExecutionInfo)
| VUpdate (key : Z) (st : WorkflowStatus) (close : option Z)
| VAttribute (key : Z) (name : string) (value : SearchAttributeValue)
| VMemo (key : Z) (m : gmap string bytes)
| VRemove (key : Z).

Definition vis_step (v : VisibilityIndex) (o : vis_op) : VisibilityIndex :=
  match o with
  | VRegister info => register v info
  | VUpdate key st close => update_status v key st close
  | VAttribute key name value => set_search_attribute v key name value
  | VMemo key m => set_memo v key m
  | VRemove key => remove v key
  end.

(** Every registration is of a key that is not registered at that point. *)
Fixpoint registers_fresh (v : VisibilityIndex) (os : list vis_op) : Prop :=
  match os with
  | [] => True
  | o :: os =>
      match o with VRegister info => executions v !! info_key info = None | _ => True end /\
      registers_fresh (vis_step v o) os
  end.

Lemma vis_run_exact v os :
  indices_exact v -> registers_fresh v os -> indices_exact (foldl vis_step v os).
Proof.
  revert v. induction os as [|o os IH]; intros v Hv Hos; [done|]. simpl in *.
  destruct Hos as [Ho Hos]. apply IH; [|done]. destruct o; simpl.
  - by apply register_exact.
  - by apply update_status_exact.
  - by apply alter_exact.
  - by apply alter_exact.
  - by apply remove_exact.
Qed.

Definition all_infos (v : VisibilityIndex) : list WorkflowExecutionInfo := (map_to_list (executions v)).*2.

Lemma has_bucket_some (f : WorkflowExecutionInfo -> Z) b i :
  has_bucket (fun i => Some (f i)) b i = (f i =? b).
Proof.
  unfold has_bucket. destruct (Z.eqb_spec (f i) b); [apply bool_decide_eq_true|apply bool_decide_eq_false];
    congruence.
Qed.

Lemma filter_ext_perm {A} (f g : A -> bool) l l' :
  (forall x, f x = g x) -> l' ≡ₚ List.filter f l -> l' ≡ₚ List.filter g l.
Proof. intros Hfg. by rewrite (List.filter_ext f g Hfg). Qed.

Lemma status_eqb (i : WorkflowExecutionInfo) s :
  (status_as_u8 (info_status i) =? status_as_u8 s) = bool_decide (info_status i = s).
Proof.
  destruct (Z.eqb_spec (status_as_u8 (info_status i)) (status_as_u8 s)) as [Heq|Hne]; symmetry.
  - by apply bool_decide_eq_true, (inj status_as_u8).
  - apply bool_decide_eq_false. congruence.
Qed.

(** C22. After any sequence of registrations of new keys, status changes,
    attribute and memo updates and removals, the listings by status, namespace,
    type and start time return exactly the registered executions that have the
    attribute, and the count by status agrees with them.  The listing by start time
    panics when the start of the range is above its end, and only then. *)
Theorem visibility_indices_exact (os : list vis_op) (s : WorkflowStatus) (ns ty a b : Z)
  (Hfresh : registers_fresh visibility_new os) :
  let v := foldl vis_step visibility_new os in
  list_by_status v s ≡ₚ List.filter (fun i => bool_decide (info_status i = s)) (all_infos v) /\
  count_by_status v s = length (List.filter (fun i => bool_decide (info_status i = s)) (all_infos v)) /\
  list_by_namespace v ns ≡ₚ List.filter (fun i => info_namespace_id i =? ns) (all_infos v) /\
  list_by_type v ty ≡ₚ List.filter (fun i => info_type_id i =? ty) (all_infos v) /\
  match list_by_time_range v a b with
  | Ret l => a <= b /\ l ≡ₚ List.filter (fun i => (a <=? start_time_ms i) && (start_time_ms i <=? b)) (all_infos v)
  | Panic => b < a
  end.
Proof.
  intros v. pose proof (vis_run_exact _ _ indices_exact_new Hfresh) as [Hs Hn Ht Hst]. fold v in Hs, Hn, Ht, Hst.
  assert (Hstat : forall i, has_bucket proj_status (status_as_u8 s) i = bool_decide (info_status i = s)).
  { intros i. rewrite <- status_eqb. apply (has_bucket_some (fun i => status_as_u8 (info_status i))). }
  split_and!.
  - eapply filter_ext_perm; [exact Hstat|]. by apply list_bucket_exact.
  - rewrite <- (List.filter_ext _ _ Hstat). by apply list_bucket_exact.
  - eapply filter_ext_perm; [apply has_bucket_some|]. by apply list_bucket_exact.
  - eapply filter_ext_perm; [apply has_bucket_some|]. by apply list_bucket_exact.
  - unfold list_by_time_range, list_by_range. destruct (Z.ltb_spec b a) as [Hab|Hab]; [done|]. split; [done|].
    apply (list_buckets_exact _ proj_start _ (fun b' => (a <=? b') && (b' <=? b)) _ Hst).
    apply merge_sort_Permutation.
Qed.

(** A running execution of type 3 started at time [t], for the examples. *)
Definition sample_info (key t : Z) : WorkflowExecutionInfo :=
  mkInfo key key 1 3 0 Running t None 9 ∅ ∅.

Lemma visibility_indices_exact_witness :
  let os := [VRegister (sample_info 1 10); VRegister (sample_info 2 20); VUpdate 1 Completed (Some 30)] in
  let v := foldl vis_step visibility_new os in
  registers_fresh visibility_new os /\
  list_by_status v Completed ≡ₚ List.filter (fun i => bool_decide (info_status i = Completed)) (all_infos v).
Proof.
  intros os v. assert (Hf : registers_fresh visibility_new os) by (simpl; split_and!; done).
  split; [exact Hf|]. exact (proj1 (visibility_indices_exact os Completed 0 3 0 0 Hf)).
Defined.

(** Registering a key again, as the engine does when a
    workflow id is started a second time, leaves the entries of the first run in
    the indices: the listing of completed workflows then returns the running one,
    every count is one too high, and reopening a closed workflow leaves it in the
    listing by close time. *)
Theorem reregistration_corrupts_indices :
  let v := foldl vis_step visibility_new
             [VRegister (sample_info 1 10); VUpdate 1 Completed (Some 30); VRegister (sample_info 1 40)] in
  let w := foldl vis_step visibility_new
             [VRegister (sample_info 1 10); VUpdate 1 Failed (Some 30); VUpdate 1 Running None] in
  list_by_status v Completed = [sample_info 1 40] /\ count_by_status v Completed = 1%nat /\
  count_by_namespace v 0 = 2%nat /\ count v = 1%nat /\
  list_by_close_time_range w 0 100 = Ret [sample_info 1 10].
Proof. vm_compute. done. Qed.

(** ** Pagination *)

Lemma stable_insert_Permutation le x l : stable_insert le x l ≡ₚ x :: l.
Proof.
  induction l as [|y l IH]; simpl; [done|]. destruct (le x y); [done|]. rewrite IH. constructor.
Qed.

Lemma stable_sort_Permutation le l : stable_sort le l ≡ₚ l.
Proof. induction l as [|x l IH]; simpl; [done|]. by rewrite stable_insert_Permutation, IH. Qed.

Lemma stable_insert_sorted (le : WorkflowExecutionInfo -> WorkflowExecutionInfo -> bool) x l :
  (forall a b, le a b = false -> le b a = true) -> (forall a b c, le a b = true -> le b c = true -> le a c = true) ->
  StronglySorted le l -> StronglySorted le (stable_insert le x l).
Proof.
  intros Htot Htrans. induction 1 as [|y l Hl IH Hy]; simpl; [by repeat constructor|].
  destruct (le x y) eqn:Hxy.
  - constructor; [by constructor|]. constructor; [by rewrite Hxy|].
    eapply Forall_impl; [exact Hy|]. intros z Hz. apply Is_true_true in Hz. by rewrite (Htrans x y z).
  - constructor; [done|]. rewrite (stable_insert_Permutation le x l). constructor; [|done].
    by rewrite (Htot x y).
Qed.

Lemma sort_le_total f o a b : sort_le f o a b = false -> sort_le f o b a = true.
Proof. destruct o; simpl; rewrite Z.leb_gt, Z.leb_le; lia. Qed.

Lemma sort_le_trans f o a b c : sort_le f o a b = true -> sort_le f o b c = true -> sort_le f o a c = true.
Proof. destruct o; simpl; rewrite !Z.leb_le; lia. Qed.

Lemma matched_sorted v order q : StronglySorted (sort_le (sort_field q) (sort_order q)) (matched v order q).
Proof.
  unfold matched. generalize (List.filter (fun info => matches_filter info (q_filter q)) (values v order)) as l.
  induction l as [|x l IH]; simpl; [constructor|].
  apply stable_insert_sorted; [apply sort_le_total|apply sort_le_trans|done].
Qed.

(** Follow the page tokens, [fuel] pages at most. *)
Fixpoint all_pages (v : VisibilityIndex) (order : list Z) (q : VisibilityQuery) (fuel : nat) :
    option (list WorkflowExecutionInfo) :=
  match fuel with
  | O => None
  | S fuel =>
      let r := execute_query v order q in
      match next_token r with
      | None => Some (items r)
      | Some t => app (items r) <$> all_pages v order (with_pagination q (page_size q) (Some t)) fuel
      end
  end.

Lemma matched_pagination v order q n t : matched v order (with_pagination q n t) = matched v order q.
Proof. done. Qed.

Lemma all_pages_from v order q (off fuel : nat) :
  (0 < page_size q)%nat -> page_token q = Some off -> (length (matched v order q) - off < fuel)%nat ->
  all_pages v order q fuel = Some (drop off (matched v order q)).
Proof.
  intros Hn. revert q off Hn. induction fuel as [|fuel IH]; intros q off Hn Ht Hf; [lia|].
  cbn [all_pages]. unfold execute_query. rewrite Ht. cbn [next_token items].
  rewrite length_take, length_drop. destruct (Nat.ltb_spec (off + page_size q `min` (length (matched v order q) - off))
    (length (matched v order q))) as [Hlt|Hge].
  - rewrite (IH _ (off + page_size q `min` (length (matched v order q) - off))%nat); [|done..|].
    + rewrite matched_pagination. simpl. f_equal.
      rewrite Nat.min_l in * by lia. rewrite <- drop_drop. apply take_drop.
    + rewrite matched_pagination. lia.
  - rewrite take_ge; [done|]. rewrite length_drop. lia.
Qed.

(** Walking the map in any order of its keys visits every execution once. *)
Lemma values_all_infos v order :
  order ≡ₚ (map_to_list (executions v)).*1 -> values v order ≡ₚ all_infos v.
Proof. apply omap_perm_values. Qed.

(** With a positive page size, following the page tokens of a query ends,
    and the pages together are every execution that satisfies the filter exactly
    once, in the requested order. *)
Theorem query_pages_complete (v : VisibilityIndex) (order : list Z) (q : VisibilityQuery)
  (Hsize : (0 < page_size q)%nat) (Hstart : page_token q = None)
  (Horder : order ≡ₚ (map_to_list (executions v)).*1) :
  exists pages,
    all_pages v order q (S (length (matched v order q))) = Some pages /\
    pages ≡ₚ List.filter (fun i => matches_filter i (q_filter q)) (all_infos v) /\
    StronglySorted (sort_le (sort_field q) (sort_order q)) pages.
Proof.
  exists (matched v order q). split_and!.
  - pose proof (all_pages_from v order (with_pagination q (page_size q) (Some O)) 0
      (S (length (matched v order q))) Hsize eq_refl) as Hp.
    rewrite !matched_pagination in Hp. rewrite drop_0 in Hp. rewrite <- Hp by lia.
    cbn [all_pages]. unfold execute_query. rewrite Hstart. done.
  - unfold matched. rewrite stable_sort_Permutation. by rewrite (values_all_infos v order).
  - apply matched_sorted.
Qed.

Lemma query_pages_complete_witness :
  let v := foldl vis_step visibility_new
             [VRegister (sample_info 1 10); VRegister (sample_info 2 20); VRegister (sample_info 3 15)] in
  let q := with_pagination (query_new (FNot (FWorkflowType 4))) 2 None in
  all_pages v [1; 2; 3] q 4 = Some [sample_info 2 20; sample_info 3 15; sample_info 1 10] /\
  exists pages, all_pages v [1; 2; 3] q 4 = Some pages /\
    StronglySorted (sort_le (sort_field q) (sort_order q)) pages.
Proof.
  intros v q. split; [vm_compute; reflexivity|].
  assert (Ho : [1; 2; 3] ≡ₚ (map_to_list (executions v)).*1).
  { replace ((map_to_list (executions v)).*1) with [3; 2; 1] by (vm_compute; reflexivity).
    exact (Permutation_rev [1; 2; 3]). }
  destruct (query_pages_complete v [1; 2; 3] q ltac:(vm_compute; lia) eq_refl Ho) as (pages & Hp & _ & Hs).
  exists pages. split; [exact Hp|exact Hs].
Defined.

(** A page size of zero returns an empty page whose token is the offset it was given, so
    following the tokens never ends. *)
Lemma zero_page_size_never_ends v order q off fuel :
  page_size q = O -> page_token q = Some off -> (off < length (matched v order q))%nat ->
  all_pages v order q fuel = None.
Proof.
  revert q. induction fuel as [|fuel IH]; intros q Hn Ht Hoff; [done|]. cbn [all_pages].
  unfold execute_query. rewrite Hn, Ht. cbn [next_token items take length]. rewrite Nat.add_0_r.
  destruct (Nat.ltb_spec off (length (matched v order q))); [|lia].
  rewrite IH; [done|done|done|]. by rewrite matched_pagination.
Qed.

End Visibility.
