(* ===== verification/Archive.v ===== *)
(** * Workflow archive ([velocity-workflow-engine/src/archival.rs])

    Cold storage of finished workflows: a map of records with three secondary
    indices, and the policy that decides which statuses are archived. *)

From S2P Require Import Prelude Bitmask Slab SlotMap Index Context.
Import Context.

Module Archive.

Record ArchiveRecord : Type := mkArchive {
  rec_key : Z;
  rec_workflow_id : Z;
  rec_run_id : Z;
  rec_type_id : Z;
  rec_namespace_id : Z;
  rec_status : WorkflowStatus;
  rec_input : option bytes;
  rec_result : option bytes;
  step_count : Z;
  rec_step_results : gmap Z bytes;
  rec_event_count : Z;
  archived_at_ms : Z;
  rec_start_ms : Z;
  rec_close_ms : Z;
}.

Record ArchiveStore : Type := mkStore {
  records : gmap Z ArchiveRecord;
  rec_by_namespace : index;
  rec_by_type : index;
  rec_by_status : index;
  next_archive_id : Z;
}.

Definition archive_new : ArchiveStore := mkStore ∅ ∅ ∅ ∅ 1.

Definition archive (s : ArchiveStore) (r : ArchiveRecord) : ArchiveStore * Z :=
  let key := rec_key r in
  (mkStore (<[key := r]> (records s))
     (index_push (rec_by_namespace s) (rec_namespace_id r) key)
     (index_push (rec_by_type s) (rec_type_id r) key)
     (index_push (rec_by_status s) (status_as_u8 (rec_status r)) key)
     (wrap 64 (next_archive_id s + 1)), next_archive_id s).

Definition archive_get (s : ArchiveStore) (key : Z) : option ArchiveRecord := records s !! key.

Definition archived_by_namespace (s : ArchiveStore) (ns : Z) : list ArchiveRecord :=
  list_bucket (records s) (rec_by_namespace s) ns.
Definition archived_by_type (s : ArchiveStore) (ty : Z) : list ArchiveRecord :=
  list_bucket (records s) (rec_by_type s) ty.
Definition archived_by_status (s : ArchiveStore) (st : WorkflowStatus) : list ArchiveRecord :=
  list_bucket (records s) (rec_by_status s) (status_as_u8 st).

Definition archive_count (s : ArchiveStore) : nat := size (records s).
Definition archive_count_by_namespace (s : ArchiveStore) (ns : Z) : nat :=
  length (bucket_keys (rec_by_namespace s) ns).
Definition archive_count_by_status (s : ArchiveStore) (st : WorkflowStatus) : nat :=
  length (bucket_keys (rec_by_status s) (status_as_u8 st)).

Definition archive_delete (s : ArchiveStore) (key : Z) : ArchiveStore * bool :=
  match records s !! key with
  | Some r =>
      (mkStore (delete key (records s))
         (index_retain (rec_by_namespace s) (rec_namespace_id r) key)
         (index_retain (rec_by_type s) (rec_type_id r) key)
         (index_retain (rec_by_status s) (status_as_u8 (rec_status r)) key)
         (next_archive_id s), true)
  | None => (s, false)
  end.

Record ArchivePolicy : Type := mkPolicy {
  auto_archive_completed : bool;
  auto_archive_failed : bool;
  auto_archive_canceled : bool;
  auto_archive_terminated : bool;
  retention_days : Z;
}.

Definition default_completed : ArchivePolicy := mkPolicy true false false false 0.
Definition archive_all : ArchivePolicy := mkPolicy true true true true 0.

Definition should_archive (p : ArchivePolicy) (st : WorkflowStatus) : bool :=
  match st with
  | Completed => auto_archive_completed p
  | Failed => auto_archive_failed p
  | Canceled => auto_archive_canceled p
  | Terminated => auto_archive_terminated p
  | _ => false
  end.

(** ** Indices *)

Definition arch_status (r : ArchiveRecord) : option Z := Some (status_as_u8 (rec_status r)).
Definition arch_namespace (r : ArchiveRecord) : option Z := Some (rec_namespace_id r).
Definition arch_type (r : ArchiveRecord) : option Z := Some (rec_type_id r).

Record archive_exact (s : ArchiveStore) : Prop := {
  arch_ex_status : index_exact (records s) arch_status (rec_by_status s);
  arch_ex_namespace : index_exact (records s) arch_namespace (rec_by_namespace s);
  arch_ex_type : index_exact (records s) arch_type (rec_by_type s);
}.

Lemma archive_new_exact : archive_exact archive_new.
Proof. constructor; apply index_empty_exact. Qed.

(** The indices stay exact as long as a key is archived at most once between deletions. *)
Lemma archive_fresh_exact s r :
  archive_exact s -> records s !! rec_key r = None -> archive_exact (archive s r).1.
Proof.
  intros [Hs Hn Ht] Hk. constructor; cbn [archive fst records rec_by_status rec_by_namespace rec_by_type].
  - exact (index_exact_fresh _ arch_status _ _ r Hs Hk).
  - exact (index_exact_fresh _ arch_namespace _ _ r Hn Hk).
  - exact (index_exact_fresh _ arch_type _ _ r Ht Hk).
Qed.

Lemma archive_delete_exact s key : archive_exact s -> archive_exact (archive_delete s key).1.
Proof.
  intros Hex. unfold archive_delete. destruct (records s !! key) as [r|] eqn:Hk; [|done].
  destruct Hex as [Hs Hn Ht]. constructor; cbn [fst records rec_by_status rec_by_namespace rec_by_type].
  - exact (index_exact_delete _ arch_status _ _ r Hs Hk).
  - exact (index_exact_delete _ arch_namespace _ _ r Hn Hk).
  - exact (index_exact_delete _ arch_type _ _ r Ht Hk).
Qed.

(** A deleted record is gone from every listing, and no other record is. *)
Lemma archive_delete_listing s key ns :
  archive_exact s ->
  archived_by_namespace (archive_delete s key).1 ns ≡ₚ
  List.filter (has_bucket arch_namespace ns) (map_to_list (delete key (records s))).*2.
Proof.
  intros Hex. pose proof (archive_delete_exact s key Hex) as [_ Hn _].
  unfold archived_by_namespace. rewrite (proj1 (list_bucket_exact _ _ _ ns Hn)).
  unfold archive_delete. destruct (records s !! key) eqn:Hk; [done|]. cbn [fst].
  by rewrite delete_id.
Qed.

End Archive.
