(* ===== verification/Engine.v ===== *)
(** * The workflow engine ([velocity-workflow-engine/src/engine.rs])

    The handlers of [WorkflowEngine], composed of the components modelled in the
    other files: the context pool, the task queue, the timers, the write-ahead log,
    the visibility index, the archive, the histories and the circuit breakers.
    Services the engine only writes to (matching, metrics, trackers, the dependency
    graph, the deployment pipeline, the hardware layer, the change registry) are a
    log of the calls made to them.  A handler reads the clocks once: [instant] is
    the monotonic clock, [wall] the milliseconds since the epoch. *)

From S2P Require Import Prelude Bitmask Slab SlotMap Wal ContextPool TaskQueue CircuitBreaker.
From S2P Require Import EventHistory Timer Index Context Replay Visibility Archive.
Import (hints) Context.

Module Engine.
Import Context ContextPool WalManager.

Record clock : Type := mkClock {
  instant : Z;
  wall : Z;
}.

(** Calls to write-only services.  [DeploymentOutcome] stands for the lookup of the active
    deployment of the type and, when the pipeline has one, the record of the outcome. *)
Inductive service_call : Type :=
| MatchingAddTask (key hash : Z)
| HalSlabWrite (key : Z) (root : bytes)
| MetricsInc (name : string)
| MetricsGauge (name : string) (value : Z)
| TrackStart (type_id : Z)
| TrackCompletion (type_id : Z)
| TrackFailure (type_id : Z)
| TrackCancellation (type_id : Z)
| TrackTermination (type_id : Z)
| ChangeRegister (key : Z)
| ChangeUnregister (key : Z)
| DeploymentOutcome (type_id : Z) (ok : bool)
| GraphAddChild (parent child child_id : Z)
| GraphRemove (key : Z)
| ResetPoint (key event_id : Z).

Record WorkflowEngine : Type := mkEngine {
  workflows : WorkflowPoolInner WorkflowContext;
  task_queue : TaskQueue.TaskQueue;
  timer_engine : Timer.TimerEngine;
  wal : option WalManager;
  visibility : Visibility.VisibilityIndex;
  archive_store : Archive.ArchiveStore;
  archive_policy : Archive.ArchivePolicy;
  next_run_id : Z;
  history_store : gmap Z EventHistory.WorkflowHistory;
  replay_engine : Replay.ReplayEngine;
  circuit_breaker : CircuitBreaker.CircuitBreakerRegistry;
  pending_retries : gmap Z (list (Z * Z));
  durability_config : DurabilityConfig;
  steps_since_sync : Z;
  last_sync_instant : Z;
  calls : list service_call;
}.

(** Assignments to one component. *)
Definition set_workflows (e : WorkflowEngine) (p : WorkflowPoolInner WorkflowContext) : WorkflowEngine :=
  mkEngine p (task_queue e) (timer_engine e) (wal e) (visibility e) (archive_store e) (archive_policy e)
    (next_run_id e) (history_store e) (replay_engine e) (circuit_breaker e) (pending_retries e)
    (durability_config e) (steps_since_sync e) (last_sync_instant e) (calls e).
Definition set_task_queue (e : WorkflowEngine) (q : TaskQueue.TaskQueue) : WorkflowEngine :=
  mkEngine (workflows e) q (timer_engine e) (wal e) (visibility e) (archive_store e) (archive_policy e)
    (next_run_id e) (history_store e) (replay_engine e) (circuit_breaker e) (pending_retries e)
    (durability_config e) (steps_since_sync e) (last_sync_instant e) (calls e).
Definition set_timers (e : WorkflowEngine) (t : Timer.TimerEngine) : WorkflowEngine :=
  mkEngine (workflows e) (task_queue e) t (wal e) (visibility e) (archive_store e) (archive_policy e)
    (next_run_id e) (history_store e) (replay_engine e) (circuit_breaker e) (pending_retries e)
    (durability_config e) (steps_since_sync e) (last_sync_instant e) (calls e).
Definition set_wal (e : WorkflowEngine) (w : option WalManager) : WorkflowEngine :=
  mkEngine (workflows e) (task_queue e) (timer_engine e) w (visibility e) (archive_store e) (archive_policy e)
    (next_run_id e) (history_store e) (replay_engine e) (circuit_breaker e) (pending_retries e)
    (durability_config e) (steps_since_sync e) (last_sync_instant e) (calls e).
Definition set_visibility (e : WorkflowEngine) (v : Visibility.VisibilityIndex) : WorkflowEngine :=
  mkEngine (workflows e) (task_queue e) (timer_engine e) (wal e) v (archive_store e) (archive_policy e)
    (next_run_id e) (history_store e) (replay_engine e) (circuit_breaker e) (pending_retries e)
    (durability_config e) (steps_since_sync e) (last_sync_instant e) (calls e).
Definition set_archive (e : WorkflowEngine) (a : Archive.ArchiveStore) : WorkflowEngine :=
  mkEngine (workflows e) (task_queue e) (timer_engine e) (wal e) (visibility e) a (archive_policy e)
    (next_run_id e) (history_store e) (replay_engine e) (circuit_breaker e) (pending_retries e)
    (durability_config e) (steps_since_sync e) (last_sync_instant e) (calls e).
Definition set_next_run_id (e : WorkflowEngine) (n : Z) : WorkflowEngine :=
  mkEngine (workflows e) (task_queue e) (timer_engine e) (wal e) (visibility e) (archive_store e)
    (archive_policy e) n (history_store e) (replay_engine e) (circuit_breaker e) (pending_retries e)
    (durability_config e) (steps_since_sync e) (last_sync_instant e) (calls e).
Definition set_history (e : WorkflowEngine) (h : gmap Z EventHistory.WorkflowHistory) : WorkflowEngine :=
  mkEngine (workflows e) (task_queue e) (timer_engine e) (wal e) (visibility e) (archive_store e)
    (archive_policy e) (next_run_id e) h (replay_engine e) (circuit_breaker e) (pending_retries e)
    (durability_config e) (steps_since_sync e) (last_sync_instant e) (calls e).
Definition set_replay (e : WorkflowEngine) (r : Replay.ReplayEngine) : WorkflowEngine :=
  mkEngine (workflows e) (task_queue e) (timer_engine e) (wal e) (visibility e) (archive_store e)
    (archive_policy e) (next_run_id e) (history_store e) r (circuit_breaker e) (pending_retries e)
    (durability_config e) (steps_since_sync e) (last_sync_instant e) (calls e).
Definition set_breaker (e : WorkflowEngine) (b : CircuitBreaker.CircuitBreakerRegistry) : WorkflowEngine :=
  mkEngine (workflows e) (task_queue e) (timer_engine e) (wal e) (visibility e) (archive_store e)
    (archive_policy e) (next_run_id e) (history_store e) (replay_engine e) b (pending_retries e)
    (durability_config e) (steps_since_sync e) (last_sync_instant e) (calls e).
Definition set_retries (e : WorkflowEngine) (r : gmap Z (list (Z * Z))) : WorkflowEngine :=
  mkEngine (workflows e) (task_queue e) (timer_engine e) (wal e) (visibility e) (archive_store e)
    (archive_policy e) (next_run_id e) (history_store e) (replay_engine e) (circuit_breaker e) r
    (durability_config e) (steps_since_sync e) (last_sync_instant e) (calls e).
Definition set_durability (e : WorkflowEngine) (c : DurabilityConfig) (steps last : Z) : WorkflowEngine :=
  mkEngine (workflows e) (task_queue e) (timer_engine e) (wal e) (visibility e) (archive_store e)
    (archive_policy e) (next_run_id e) (history_store e) (replay_engine e) (circuit_breaker e)
    (pending_retries e) c steps last (calls e).

(** A call to a write-only service. *)
Definition call (e : WorkflowEngine) (c : service_call) : WorkflowEngine :=
  mkEngine (workflows e) (task_queue e) (timer_engine e) (wal e) (visibility e) (archive_store e)
    (archive_policy e) (next_run_id e) (history_store e) (replay_engine e) (circuit_breaker e)
    (pending_retries e) (durability_config e) (steps_since_sync e) (last_sync_instant e) (calls e ++ [c]).

(** [let _ = wal.append(..)]: an error of the rotation that follows the write is dropped. *)
Definition append_ignoring (m : WalManager) (r : Wal.WalRecord) : WalManager :=
  match wal_append m r with Ok m' => m' | Err _ => writer_append m r end.

Definition log_event (e : WorkflowEngine) (ty : Wal.WalEventType) (key : Z) (data : bytes) : WorkflowEngine :=
  match wal e with
  | Some m => set_wal e (Some (append_ignoring m (Wal.mkRecord ty key data)))
  | None => e
  end.

Definition record_history (e : WorkflowEngine) (key : Z) (ty : EventHistory.HistoryEventType)
    (payload : bytes) : WorkflowEngine :=
  set_history e (EventHistory.record_event (history_store e) key ty payload).1.

Definition enqueue_task (e : WorkflowEngine) (kind : TaskQueue.TaskKind) (key hash step name attempt : Z)
    (ck : clock) : WorkflowEngine :=
  set_task_queue e
    (TaskQueue.enqueue (task_queue e) hash (TaskQueue.mkTask 0 kind key hash step name attempt 0 0) (instant ck)).

Definition change_status (e : WorkflowEngine) (key : Z) (st : WorkflowStatus) (close : option Z) :
    WorkflowEngine :=
  set_visibility e (Visibility.update_status (visibility e) key st close).

(** ** Construction *)

Definition engine_new (ck : clock) : WorkflowEngine :=
  mkEngine pool_new TaskQueue.task_queue_new Timer.timer_engine_new None Visibility.visibility_new
    Archive.archive_new Archive.default_completed 1 ∅ Replay.replay_engine_new CircuitBreaker.registry_new ∅
    strict 0 (instant ck) [].

(** [WalManager::new(path, max)] keeps three rotated files. *)
Definition WAL_RETAIN : nat := 3.

Definition with_wal (d : disk) (max_size : Z) (ck : clock) : WorkflowEngine :=
  set_wal (engine_new ck) (Some (wal_manager_new d max_size WAL_RETAIN)).

Definition enable_wal (e : WorkflowEngine) (d : disk) (max_size : Z) : WorkflowEngine :=
  set_wal e (Some (wal_manager_new d max_size WAL_RETAIN)).

Definition with_durability_config (e : WorkflowEngine) (c : DurabilityConfig) (ck : clock) : WorkflowEngine :=
  set_durability e c 0 (instant ck).

(** The callback [init_timers] installs: what a pass of the timer thread does to the engine. *)
Definition timer_tick (e : WorkflowEngine) (ck : clock) : WorkflowEngine :=
  let '(t, fired, _) := Timer.timer_pass (timer_engine e) (instant ck) in
  foldl (fun e en => record_history e (Timer.timer_key en) EventHistory.TimerFired
                       (le_bytes 8 (Timer.timer_id en)))
    (set_timers e t) fired.

Section handlers.
Context `{Sha256}.
Implicit Types (e : WorkflowEngine) (ck : clock) (key : Z).

(** ** Reading a workflow *)

Definition get_status e key : WorkflowStatus :=
  match pool_with (workflows e) key with Some c => status c | None => Void end.
Definition get_current_step e key : Z :=
  match pool_with (workflows e) key with Some c => Slab.current_step (slab c) | None => 0 end.
Definition engine_is_step_completed e key (step : Z) : bool :=
  match pool_with (workflows e) key with Some c => is_step_completed c step | None => false end.
Definition engine_get_step_result e key (step : Z) : option bytes :=
  match pool_with (workflows e) key with Some c => get_step_result c step | None => None end.
Definition get_total_steps e key : Z :=
  match pool_with (workflows e) key with Some c => Slab.total_steps (slab c) | None => 0 end.
Definition get_activity_input e key (step : Z) : option bytes :=
  match pool_with (workflows e) key with
  | Some c => SlotMap.slotmap_get (activity_inputs c) step
  | None => None
  end.
Definition get_event_sequence e key : Z :=
  match pool_with (workflows e) key with Some c => event_sequence c | None => 0 end.
Definition workflow_count e : Z := pool_len (workflows e).
Definition get_type_id e key : Z :=
  match pool_with (workflows e) key with Some c => workflow_type_id c | None => 0 end.
Definition get_queue_hash e key : Z :=
  match pool_with (workflows e) key with Some c => task_queue_hash c | None => 0 end.

Definition update_context e key (f : WorkflowContext -> WorkflowContext) : WorkflowEngine :=
  set_workflows e (pool_with_mut (workflows e) key f).

(** ** Starting *)

Definition start_history_payload (type_id ns : Z) : bytes :=
  [116; 121; 112; 101; 61] ++ le_bytes 8 type_id ++ [59; 110; 115; 61] ++ le_bytes 8 ns.

Definition start_wal_data (wid type_id ns hash total : Z) : bytes :=
  le_bytes 8 wid ++ le_bytes 8 type_id ++ le_bytes 8 ns ++ le_bytes 8 hash ++ le_bytes 4 total.

Definition start_workflow_with_attrs e (wid type_id ns hash total : Z) (input : option bytes)
    (attrs : gmap string Visibility.SearchAttributeValue) ck : WorkflowEngine * Z :=
  let run_id := next_run_id e in
  let e := set_next_run_id e (wrap 64 (run_id + 1)) in
  let key := make_key ns wid in
  let ctx := with_start (context_new wid run_id type_id hash total (instant ck)) ns input in
  let e := enqueue_task e TaskQueue.WorkflowTask key hash 0 0 1 ck in
  let e := call e (MatchingAddTask key hash) in
  let e := set_workflows e (pool_insert (workflows e) key ctx).1 in
  let e := set_visibility e (Visibility.register (visibility e)
             (Visibility.mkInfo key wid run_id type_id ns Running (wall ck) None hash attrs ∅)) in
  let e := record_history e key EventHistory.WorkflowStarted (start_history_payload type_id ns) in
  let e := call e (MetricsInc "velocity_workflow_started_total") in
  let e := call e (MetricsGauge "velocity_workflows_running" (pool_len (workflows e))) in
  let e := call e (TrackStart type_id) in
  let e := call e (ChangeRegister key) in
  (log_event e Wal.WorkflowStarted key (start_wal_data wid type_id ns hash total), key).

Definition start_workflow e (wid type_id ns hash total : Z) (input : option bytes) ck : WorkflowEngine * Z :=
  start_workflow_with_attrs e wid type_id ns hash total input ∅ ck.

Definition try_start_workflow e (wid type_id ns hash total : Z) (input : option bytes) ck :
    WorkflowEngine * option Z :=
  let '(b, allowed) := CircuitBreaker.registry_allow_request (circuit_breaker e) type_id (wall ck) in
  let e := set_breaker e b in
  if allowed then
    let '(e, key) := start_workflow e wid type_id ns hash total input ck in (e, Some key)
  else (call e (MetricsInc "velocity_workflow_rejected_by_circuit_breaker_total"), None).

(** ** Completing steps *)

Definition step_wal_data (step : Z) (res : bytes) : bytes := le_bytes 4 step ++ res.

(** The context update every variant performs: the queue hash and the new root of the slab, or
    [None] when there is no such workflow. *)
Definition apply_step e key (step : Z) (res : bytes) : WorkflowEngine * option (Z * bytes) :=
  let e := update_context e key (fun c => complete_step c step res) in
  (e, match pool_with (workflows e) key with
      | Some c => Some (task_queue_hash c, Slab.merkle_root (slab c))
      | None => None
      end).

Definition next_step_task e key (hash step : Z) ck : WorkflowEngine :=
  enqueue_task e TaskQueue.WorkflowTask key hash (wrap 32 (step + 1)) 0 1 ck.

Definition engine_complete_step e key (step : Z) (res : bytes) ck : WorkflowEngine :=
  let e := log_event e Wal.StepCompleted key (step_wal_data step res) in
  let '(e, found) := apply_step e key step res in
  match found with
  | None => e
  | Some (hash, root) => next_step_task (call e (HalSlabWrite key root)) key hash step ck
  end.

Definition sync_wal e : WorkflowEngine :=
  match wal e with Some m => set_wal e (Some (wal_sync m)) | None => e end.

Definition complete_step_sync e key (step : Z) (res : bytes) ck : WorkflowEngine :=
  let e := sync_wal (log_event e Wal.StepCompleted key (step_wal_data step res)) in
  let '(e, found) := apply_step e key step res in
  match found with
  | None => e
  | Some (hash, root) => next_step_task (call e (HalSlabWrite key root)) key hash step ck
  end.

Definition complete_step_strict e key (step : Z) (res : bytes) ck : WorkflowEngine :=
  let e := sync_wal (log_event e Wal.StepCompleted key (step_wal_data step res)) in
  let '(e, found) := apply_step e key step res in
  match found with
  | None => e
  | Some (hash, root) =>
      let e := call e (HalSlabWrite key root) in
      if direct_execution (durability_config e) then e else next_step_task e key hash step ck
  end.

(** The fsync decision of batched mode. *)
Definition batch_sync e ck : WorkflowEngine :=
  let count := wrap 32 (steps_since_sync e + 1) in
  let e := set_durability e (durability_config e) count (last_sync_instant e) in
  let step_threshold := sync_steps (durability_config e) <=? count in
  let time_threshold := flush_interval_ms (durability_config e) <=?
                        duration_since (instant ck) (last_sync_instant e) in
  if step_threshold || time_threshold then
    let e := sync_wal e in
    set_durability e (durability_config e) 0 (instant ck)
  else e.

Definition complete_step_durable e key (step : Z) (res : bytes) ck : WorkflowEngine :=
  if sync_steps (durability_config e) =? 0 then complete_step_strict e key step res ck
  else
    let e := log_event e Wal.StepCompleted key (step_wal_data step res) in
    let '(e, found) := apply_step e key step res in
    match found with
    | None => e
    | Some (hash, root) =>
        let e := batch_sync (call e (HalSlabWrite key root)) ck in
        if direct_execution (durability_config e) then e else next_step_task e key hash step ck
    end.

(** ** Activities *)

Definition positive_ms (ms : Z) : option Z := if 0 <? ms then Some ms else None.

Definition schedule_activity_with_timeouts e key (step name : Z) (args : bytes) (sts stc scc hb : Z) ck :
    WorkflowEngine :=
  match pool_with (workflows e) key with
  | Some c =>
      let t := timeouts_new (positive_ms sts) (positive_ms stc) (positive_ms scc) (positive_ms hb) (instant ck) in
      let e := update_context e key (fun c =>
        with_activities c (SlotMap.slotmap_insert (activity_timeouts c) step t)
          (if decide (args = []) then activity_inputs c
           else SlotMap.slotmap_insert (activity_inputs c) step args)) in
      enqueue_task e TaskQueue.ActivityTask key (task_queue_hash c) step name 1 ck
  | None => e
  end.

Definition schedule_activity e key (step name : Z) (args : bytes) ck : WorkflowEngine :=
  schedule_activity_with_timeouts e key step name args 0 0 0 0 ck.

Definition complete_activity e key (step : Z) (res : bytes) ck : WorkflowEngine :=
  engine_complete_step e key step res ck.

Definition fail_activity_with_retry e key (step : Z) ck : WorkflowEngine * bool :=
  match pool_with (workflows e) key with
  | None => (e, false)
  | Some c =>
      match SlotMap.slotmap_get (activity_timeouts c) step with
      | None => (e, false)
      | Some t =>
          match retry_policy t with
          | None => (e, false)
          | Some policy =>
              if attempt t <? max_attempts policy then
                let a := wrap 32 (attempt t + 1) in
                let e := update_context e key (fun c =>
                  with_activities c
                    (SlotMap.slotmap_get_mut (activity_timeouts c) step (fun t => with_attempt t a))
                    (activity_inputs c)) in
                let delay := calculate_delay policy a in
                let hash := task_queue_hash c in
                if delay <? 10 then (enqueue_task e TaskQueue.ActivityTask key hash step 0 a ck, true)
                else
                  let e := set_retries e
                    (<[key := default [] (pending_retries e !! key) ++ [(step, hash)]]> (pending_retries e)) in
                  (set_timers e (Timer.schedule (timer_engine e) key delay (instant ck)).1, true)
              else (e, false)
          end
      end
  end.

Definition activity_attempt e key (step : Z) : Z :=
  match pool_with (workflows e) key with
  | Some c => match SlotMap.slotmap_get (activity_timeouts c) step with Some t => attempt t | None => 1 end
  | None => 1
  end.

Definition process_fired_timer e key ck : WorkflowEngine :=
  let entries := default [] (pending_retries e !! key) in
  foldl (fun e en => enqueue_task e TaskQueue.ActivityTask key en.2 en.1 0 (activity_attempt e key en.1) ck)
    (set_retries e (delete key (pending_retries e))) entries.

Definition schedule_timer e key (delay_ms : Z) ck : WorkflowEngine * Z :=
  let '(t, id) := Timer.schedule (timer_engine e) key delay_ms (instant ck) in (set_timers e t, id).

(** ** Signals and updates *)

Definition signal_wal_data (name : Z) (payload : bytes) : bytes := le_bytes 8 name ++ payload.

Definition if_running (f : WorkflowContext -> WorkflowContext) (c : WorkflowContext) : WorkflowContext :=
  if decide (status c = Running) then f c else c.

Definition signal_workflow e key (name : Z) (payload : bytes) ck : WorkflowEngine :=
  let e := log_event e Wal.SignalReceived key (signal_wal_data name payload) in
  let e := update_context e key (if_running (fun c => signal c name payload)) in
  let hash := get_queue_hash e key in
  if 0 <? hash then enqueue_task e TaskQueue.SignalTask key hash 0 name 1 ck else e.

Definition engine_has_signal e key (name : Z) : bool :=
  match pool_with (workflows e) key with Some c => has_signal c name | None => false end.

Definition engine_take_signal e key (name : Z) : WorkflowEngine * option bytes :=
  (update_context e key (fun c => (take_signal c name).1),
   match pool_with (workflows e) key with Some c => (take_signal c name).2 | None => None end).

Definition update_workflow e key (name : Z) (payload : bytes) ck : WorkflowEngine :=
  let hash := match pool_with (workflows e) key with
              | Some c => if decide (status c = Running) then task_queue_hash c else 0
              | None => 0
              end in
  let e := update_context e key (if_running (fun c => update c name payload)) in
  if 0 <? hash then enqueue_task e TaskQueue.SignalTask key hash 0 name 1 ck else e.

Definition engine_has_update e key (name : Z) : bool :=
  match pool_with (workflows e) key with Some c => has_update c name | None => false end.

Definition engine_take_update e key (name : Z) : WorkflowEngine * option bytes :=
  (update_context e key (fun c => (take_update c name).1),
   match pool_with (workflows e) key with Some c => (take_update c name).2 | None => None end).

(** ** Closing a workflow *)

Definition archive_record key (c : WorkflowContext) : Archive.ArchiveRecord :=
  Archive.mkArchive key (workflow_id c) (run_id c) (workflow_type_id c) (namespace_id c) (status c)
    (input_data c) (result_data c) (Slab.total_steps (slab c))
    (foldl (fun m ks => <[wrap 32 ks.1 := ks.2]> m) ∅ (SlotMap.slotmap_iter (step_results c)))
    (event_sequence c) 0 0 0.

Definition maybe_auto_archive e key : WorkflowEngine :=
  if Archive.should_archive (archive_policy e) (get_status e key) then
    match pool_with (workflows e) key with
    | Some c => set_archive e (Archive.archive (archive_store e) (archive_record key c)).1
    | None => e
    end
  else e.

(** The calls at the end of every closing handler. *)
Definition forget e key : WorkflowEngine := call (call e (GraphRemove key)) (ChangeUnregister key).

Definition complete_workflow e key (res : option bytes) ck : WorkflowEngine :=
  let e := update_context e key (fun c => complete c res (instant ck)) in
  let e := change_status e key Completed (Some (wall ck)) in
  let e := record_history e key EventHistory.WorkflowCompleted [] in
  let e := call e (MetricsInc "velocity_workflow_completed_total") in
  let e := call e (MetricsGauge "velocity_workflows_running" (workflow_count e)) in
  let type_id := get_type_id e key in
  let e := call e (TrackCompletion type_id) in
  let e := set_breaker e (CircuitBreaker.registry_record_success (circuit_breaker e) type_id (wall ck)) in
  let e := call e (DeploymentOutcome type_id true) in
  let e := forget e key in
  let e := log_event e Wal.WorkflowCompleted key [] in
  maybe_auto_archive e key.

Definition fail_workflow e key ck : WorkflowEngine :=
  let e := update_context e key (fun c => fail c (instant ck)) in
  let e := change_status e key Failed (Some (wall ck)) in
  let e := record_history e key EventHistory.WorkflowFailed [] in
  let e := call e (MetricsInc "velocity_workflow_failed_total") in
  let type_id := get_type_id e key in
  let e := call e (DeploymentOutcome type_id false) in
  let e := call e (TrackFailure type_id) in
  let e := set_breaker e (CircuitBreaker.registry_record_failure (circuit_breaker e) type_id (wall ck)) in
  let e := forget e key in
  let e := log_event e Wal.WorkflowFailed key [] in
  maybe_auto_archive e key.

Definition cancel_workflow e key ck : WorkflowEngine :=
  let e := update_context e key (fun c => cancel c (instant ck)) in
  let e := change_status e key Canceled (Some (wall ck)) in
  let e := record_history e key EventHistory.WorkflowCanceled [] in
  let e := call e (MetricsInc "velocity_workflow_canceled_total") in
  let e := call e (TrackCancellation (get_type_id e key)) in
  let e := forget e key in
  let e := log_event e Wal.WorkflowCanceled key [] in
  maybe_auto_archive e key.

Definition terminate_workflow e key ck : WorkflowEngine :=
  let e := update_context e key (fun c => terminate c (instant ck)) in
  let e := change_status e key Terminated (Some (wall ck)) in
  let e := record_history e key EventHistory.WorkflowTerminated [] in
  let e := call e (MetricsInc "velocity_workflow_terminated_total") in
  let e := call e (TrackTermination (get_type_id e key)) in
  let e := forget e key in
  let e := log_event e Wal.WorkflowTerminated key [] in
  maybe_auto_archive e key.

(** ** Purging *)

Definition purge_workflow e key : WorkflowEngine :=
  let e := set_workflows e (pool_remove (workflows e) key).1 in
  let e := set_visibility e (Visibility.remove (visibility e) key) in
  let e := set_history e (EventHistory.remove_history (history_store e) key).1 in
  set_archive e (Archive.archive_delete (archive_store e) key).1.

Definition is_closed (st : WorkflowStatus) : bool :=
  match st with
  | Completed | Failed | Canceled | Terminated | TimedOut => true
  | _ => false
  end.

Definition purge_completed e (order : list Z) : WorkflowEngine * nat :=
  let keys := map Visibility.info_key
                (List.filter (fun i => is_closed (Visibility.info_status i))
                   (Visibility.list_all (visibility e) order)) in
  (foldl purge_workflow e keys, length keys).

(** ** Children, timeouts, reset, new runs *)

Definition start_child_workflow e (parent child_id type_id hash total : Z) (input : option bytes) ck :
    WorkflowEngine * Z :=
  let '(e, child) := start_workflow e child_id type_id (parent >>> 32) hash total input ck in
  let e := update_context e parent (fun c => with_family c (parent_key c) (child_keys c ++ [child])) in
  let e := update_context e child (fun c => with_family c (Some parent) (child_keys c)) in
  (call e (GraphAddChild parent child child_id), child).

Definition apply_parent_close_policy e (parent : Z) (policy : ParentClosePolicy) ck : WorkflowEngine :=
  let children := match pool_with (workflows e) parent with Some c => child_keys c | None => [] end in
  foldl (fun e child =>
    match policy with
    | PolicyTerminate => terminate_workflow e child ck
    | PolicyCancel => cancel_workflow e child ck
    | PolicyAbandon => e
    end) e children.

Definition check_activity_timeouts e ck : list (Z * Z * timeout_kind) :=
  flat_map (fun kc => omap (fun st => match check_timeouts st.2 (instant ck) with
                                      | Some k => Some (kc.1, wrap 32 st.1, k)
                                      | None => None
                                      end) (SlotMap.slotmap_iter (activity_timeouts kc.2)))
    (pool_for_each (workflows e)).

Definition workflow_timed_out (now : Z) (c : WorkflowContext) : bool :=
  if decide (status c = Running) then
    match workflow_execution_timeout c with
    | Some d => if d <? duration_since now (start_time c) then true
                else match workflow_run_timeout c with
                     | Some d => d <? duration_since now (start_time c) | None => false end
    | None => match workflow_run_timeout c with
              | Some d => d <? duration_since now (start_time c) | None => false end
    end
  else false.

Definition check_workflow_timeouts e ck : WorkflowEngine * nat :=
  let keys := map fst (List.filter (fun kc => workflow_timed_out (instant ck) kc.2)
                         (pool_for_each (workflows e))) in
  (foldl (fun e key => terminate_workflow e key ck) e keys, length keys).

Definition set_workflow_execution_timeout e key (timeout_ms : Z) : WorkflowEngine :=
  update_context e key (fun c => with_execution_timeout c (positive_ms timeout_ms)).

Definition clear_steps (m : Bitmask.Bitmask256) (from upto : Z) : Bitmask.Bitmask256 :=
  foldl (fun m s => (Bitmask.clear_step m s).1) m (seqZ from (upto - from)).

Definition with_bitmask (h : Slab.SlabHeader) (m : Bitmask.Bitmask256) : Slab.SlabHeader :=
  Slab.mkSlab (Slab.magic h) (Slab.schema_version h) (Slab.workflow_id h) (Slab.run_id h)
    (Slab.current_step h) (Slab.total_steps h) (Slab.merkle_root h) m (Slab.prev_merkle_root h).

Definition reset_context (event_id : Z) (c : WorkflowContext) : WorkflowContext :=
  with_status
    (with_progress c
       (with_bitmask (slab c)
          (clear_steps (Slab.step_bitmask (slab c)) event_id (Slab.total_steps (slab c))))
       (SlotMap.slotmap_retain (step_results c) (fun step v => (v, step <? event_id)))
       (signal_buffer c) (update_buffer c) (event_sequence c))
    Running None (result_data c).

Definition reset_workflow e key (event_id : Z) : WorkflowEngine * bool :=
  match pool_with (workflows e) key with
  | Some c =>
      if decide (status c = Running \/ status c = Failed) then
        let e := call e (ResetPoint key event_id) in
        let e := update_context e key (reset_context event_id) in
        let e := change_status e key Running None in
        (record_history e key EventHistory.WorkflowReset [], true)
      else (e, false)
  | None => (e, false)
  end.

Definition signal_with_start e (wid type_id ns hash total name : Z) (payload : bytes) ck :
    WorkflowEngine * Z * bool :=
  let key := make_key ns wid in
  if decide (get_status e key = Running) then (signal_workflow e key name payload ck, key, false)
  else
    let '(e, wk) := start_workflow e wid type_id ns hash total None ck in
    (signal_workflow e wk name payload ck, wk, true).

Definition continue_as_new e key (new_input : option bytes) ck : WorkflowEngine * Z :=
  let '(wid, type_id, ns, hash, total) :=
    match pool_with (workflows e) key with
    | Some c => (workflow_id c, workflow_type_id c, namespace_id c, task_queue_hash c,
                 Slab.total_steps (slab c))
    | None => (0, 0, 0, 0, 0)
    end in
  if (wid =? 0) && (type_id =? 0) && (ns =? 0) then (e, 0)
  else
    let e := update_context e key (fun c => with_status c ContinuedAsNew (Some (instant ck)) (result_data c)) in
    let e := change_status e key ContinuedAsNew (Some (wall ck)) in
    let e := record_history e key EventHistory.WorkflowContinuedAsNew [] in
    let run := next_run_id e in
    let e := set_next_run_id e (wrap 64 (run + 1)) in
    let new_key := make_key ns run in
    let ctx := with_start (context_new run run type_id hash total (instant ck)) ns new_input in
    let e := enqueue_task e TaskQueue.WorkflowTask new_key hash 0 0 1 ck in
    let e := set_workflows e (pool_insert (workflows e) new_key ctx).1 in
    let e := set_visibility e (Visibility.register (visibility e)
               (Visibility.mkInfo new_key run run type_id ns Running 0 None hash ∅ ∅)) in
    (record_history e new_key EventHistory.WorkflowStarted [], new_key).

Definition engine_shutdown e : WorkflowEngine :=
  set_timers (set_task_queue e (TaskQueue.shutdown (task_queue e))) (Timer.timer_stop (timer_engine e)).

End handlers.

End Engine.
