(* ===== verification/Recovery.v ===== *)
(** * Crash recovery ([recover_from_wal] of [velocity-workflow-engine/src/engine.rs])

    Rebuilding the engine from the log, and what the rebuilt engine has in common
    with the one that wrote it. *)

From S2P Require Import Prelude Bitmask Slab SlotMap Slots Wal ContextPool TaskQueue CircuitBreaker.
From S2P Require Import EventHistory Timer Index Context Replay Visibility Archive Engine.
Import (hints) Context.

Module Recovery.
Import Context ContextPool WalManager Engine.

Inductive recover_error : Type :=
| WalNotEnabled
| WalReplayFailed (err : Wal.io_error).

Section recover.
Context `{Sha256}.
Implicit Types (e : WorkflowEngine) (ck : clock) (p : WorkflowPoolInner WorkflowContext) (r : Wal.WalRecord).

(** The context built from the data of a start record. *)
Definition recovered_context (key : Z) (data : bytes) ck : WorkflowContext :=
  let c := context_new (le_val (slice 0 8 data)) (key &&& 0xFFFFFFFF) (le_val (slice 8 16 data))
             (le_val (slice 24 32 data)) (le_val (slice 32 36 data)) (instant ck) in
  with_start c (le_val (slice 16 24 data)) (input_data c).

(** The body of the first loop; the number counts the workflows recovered. *)
Definition recover_record ck (st : WorkflowPoolInner WorkflowContext * nat) r :
    WorkflowPoolInner WorkflowContext * nat :=
  let '(p, n) := st in
  let key := Wal.workflow_key r in
  let data := Wal.data r in
  match Wal.event_type r with
  | Wal.WorkflowStarted =>
      if (length data <? 36)%nat then (p, n)
      else
        let '(p, inserted) := pool_insert_if_absent p key (recovered_context key data ck) in
        (p, if inserted then S n else n)
  | Wal.StepCompleted =>
      (pool_with_mut p key (fun c =>
         if (4 <=? length data)%nat then complete_step c (le_val (slice 0 4 data)) (drop 4 data) else c), n)
  | Wal.SignalReceived =>
      (pool_with_mut p key (fun c =>
         if (8 <=? length data)%nat then signal c (le_val (slice 0 8 data)) (drop 8 data) else c), n)
  | Wal.WorkflowCompleted =>
      (pool_with_mut p key (fun c =>
         complete c (if decide (data = []) then None else Some data) (instant ck)), n)
  | Wal.WorkflowFailed => (pool_with_mut p key (fun c => fail c (instant ck)), n)
  | Wal.WorkflowCanceled => (pool_with_mut p key (fun c => cancel c (instant ck)), n)
  | Wal.WorkflowTerminated => (pool_with_mut p key (fun c => terminate c (instant ck)), n)
  | Wal.TimerScheduled | Wal.ActivityScheduled | Wal.ChildWorkflowStarted => (p, n)
  end.

Definition closed_at_recovery (st : WorkflowStatus) : bool :=
  match st with
  | Completed | Failed | Canceled | Terminated | ContinuedAsNew | TimedOut => true
  | Void | Running => false
  end.

Definition register_recovered (p : WorkflowPoolInner WorkflowContext) (v : Visibility.VisibilityIndex)
    (key : Z) : Visibility.VisibilityIndex :=
  match pool_with p key with
  | Some c =>
      match Visibility.visibility_get v key with
      | None =>
          Visibility.register v
            (Visibility.mkInfo key (workflow_id c) (run_id c) (workflow_type_id c) (namespace_id c) (status c)
               0 (if closed_at_recovery (status c) then Some 0 else None) (task_queue_hash c) ∅ ∅)
      | Some _ => v
      end
  | None => v
  end.

Definition wal_history_type (t : Wal.WalEventType) : option EventHistory.HistoryEventType :=
  match t with
  | Wal.WorkflowStarted => Some EventHistory.WorkflowStarted
  | Wal.StepCompleted => Some EventHistory.StepCompleted
  | Wal.SignalReceived => Some EventHistory.SignalReceived
  | Wal.WorkflowCompleted => Some EventHistory.WorkflowCompleted
  | Wal.WorkflowFailed => Some EventHistory.WorkflowFailed
  | Wal.WorkflowCanceled => Some EventHistory.WorkflowCanceled
  | Wal.WorkflowTerminated => Some EventHistory.WorkflowTerminated
  | Wal.TimerScheduled | Wal.ActivityScheduled | Wal.ChildWorkflowStarted => None
  end.

Definition rebuild_history e r : WorkflowEngine :=
  match wal_history_type (Wal.event_type r) with
  | Some ty => record_history e (Wal.workflow_key r) ty (Wal.data r)
  | None => e
  end.

(** One turn of the verification loop: the engine and the number verified. *)
Definition verify_replay (st : WorkflowEngine * nat) (key : Z) : WorkflowEngine * nat :=
  let '(e, n) := st in
  match default [] (EventHistory.get_history (history_store e) key) with
  | [] => (e, n)
  | history =>
      let '(re, res) := Replay.replay (replay_engine e) key history None in
      (set_replay e re, if Replay.res_success res then S n else n)
  end.

Definition recover_from_wal e ck : result (WorkflowEngine * (nat * nat)) recover_error :=
  match wal e with
  | None => Err WalNotEnabled
  | Some m =>
      match replay_all m with
      | Err err => Err (WalReplayFailed err)
      | Ok records =>
          let '(p, recovered) := foldl (recover_record ck) (workflows e, O) records in
          let e := set_workflows e p in
          let max_run_id := foldr Z.max 0 (pool_keys p) in
          let e := if 0 <? max_run_id then set_next_run_id e (wrap 64 (max_run_id + 1)) else e in
          let e := set_visibility e (foldl (register_recovered p) (visibility e) (pool_keys p)) in
          let e := foldl rebuild_history e records in
          let '(e, verified) := foldl verify_replay (e, O) (pool_keys (workflows e)) in
          let e := call e (MetricsInc "velocity_wal_recovery_records") in
          let e := Nat.iter verified (fun e => call e (MetricsInc "velocity_wal_recovery_verified")) e in
          Ok (e, (length records, recovered))
      end
  end.

(** Merging the step journal of the database; [load_steps] is the adapter's query. *)
Definition merge_steps e (load_steps : Z -> result (list (Z * option bytes)) string) :
    WorkflowEngine * (nat * nat) :=
  let '(e, (with_steps, total)) :=
    foldl (fun (st : WorkflowEngine * (nat * nat)) key =>
      let '(e, (ws, total)) := st in
      match load_steps key, pool_with (workflows e) key with
      | Ok steps, Some c =>
          let '(c', k) := foldl (fun (ck : WorkflowContext * nat) sr =>
            if is_step_completed ck.1 sr.1 then ck
            else (complete_step ck.1 sr.1 (default [] sr.2), S ck.2)) (c, O) steps in
          (update_context e key (fun _ => c'), (if (0 <? k)%nat then S ws else ws, (total + k)%nat))
      | _, _ => (e, (ws, total))
      end) (e, (O, O)) (pool_keys (workflows e)) in
  let e := if (0 <? total)%nat then
             Nat.iter total (fun e => call e (MetricsInc "velocity_pg_step_recovery_steps"))
               (call e (MetricsInc "velocity_pg_step_recovery_records"))
           else e in
  (e, (with_steps, total)).

Definition recover_steps_from_pg e (adapter : option (Z -> result (list (Z * option bytes)) string)) :
    WorkflowEngine * (nat * nat) :=
  match adapter with None => (e, (O, O)) | Some load_steps => merge_steps e load_steps end.

(** ** What the log preserves *)

(** The fields of a context that the log records determine.  A signal to a closed workflow
    is logged but not delivered, so the pending signals and the event sequence are part of the view
    only of the workflows that got none ([full]). *)
Record durable_view : Type := mkView {
  v_workflow_id : Z;
  v_type_id : Z;
  v_namespace_id : Z;
  v_queue_hash : Z;
  v_status : WorkflowStatus;
  v_bitmask : Bitmask.Bitmask256;
  v_current_step : Z;
  v_total_steps : Z;
  v_results : SlotMap.SlotMap bytes;
  v_events : option (SlotVec.SlotVec bytes * Z);
}.

Definition durable_of (full : bool) (c : WorkflowContext) : durable_view :=
  mkView (workflow_id c) (workflow_type_id c) (namespace_id c) (task_queue_hash c) (status c)
    (Slab.step_bitmask (slab c)) (Slab.current_step (slab c)) (Slab.total_steps (slab c))
    (step_results c) (if full then Some (signal_buffer c, event_sequence c) else None).

Lemma durable_complete_step b c c' step res :
  durable_of b c = durable_of b c' -> durable_of b (complete_step c step res) = durable_of b (complete_step c' step res).
Proof.
  unfold durable_of, complete_step, with_progress, Slab.mark_step_completed. cbn.
  intros Heq. injection Heq as -> -> -> -> -> Hmask Hcur Htot -> Hev. rewrite <- Hmask.
  destruct (Bitmask.set_step (Slab.step_bitmask (slab c)) step) as [mask ok].
  destruct b; [injection Hev as -> ->|]; destruct ok; cbn; by rewrite ?Hmask, ?Hcur, ?Htot.
Qed.

Lemma durable_signal b c c' name payload :
  durable_of b c = durable_of b c' -> durable_of b (signal c name payload) = durable_of b (signal c' name payload).
Proof.
  unfold durable_of, signal, with_progress. cbn. intros Heq. injection Heq as -> -> -> -> -> -> -> -> -> Hev.
  destruct b; [injection Hev as -> ->|]; done.
Qed.

(** An undelivered signal is invisible in the smaller view. *)
Lemma durable_signal_dropped c c' name payload :
  durable_of false c = durable_of false c' -> durable_of false c = durable_of false (signal c' name payload).
Proof. done. Qed.

Lemma durable_status b c c' st close close' res res' :
  durable_of b c = durable_of b c' ->
  durable_of b (with_status c st close res) = durable_of b (with_status c' st close' res').
Proof. unfold durable_of, with_status. cbn. intros Heq. injection Heq. intros. congruence. Qed.

(** The pools agree on the durable part of every workflow. *)
Definition same_durable (full : Z -> bool) (m m' : gmap Z WorkflowContext) : Prop :=
  forall k, durable_of (full k) <$> m !! k = durable_of (full k) <$> m' !! k.

Lemma same_durable_alter full m m' key f f' :
  same_durable full m m' ->
  (forall c c', m !! key = Some c -> m' !! key = Some c' -> durable_of (full key) c = durable_of (full key) c' ->
                durable_of (full key) (f c) = durable_of (full key) (f' c')) ->
  same_durable full (alter f key m) (alter f' key m').
Proof.
  intros Heq Hf k. pose proof (Heq k) as Hk. destruct (decide (k = key)) as [->|].
  - rewrite !lookup_alter_eq. destruct (m !! key) as [c|] eqn:Hm, (m' !! key) as [c'|] eqn:Hm';
      [|discriminate..|done].
    apply (inj Some) in Hk. apply (f_equal Some). by apply Hf.
  - by rewrite !lookup_alter_ne.
Qed.

Lemma same_durable_insert full m m' key c c' :
  same_durable full m m' -> durable_of (full key) c = durable_of (full key) c' ->
  same_durable full (<[key := c]> m) (<[key := c']> m').
Proof.
  intros Heq Hc k. destruct (decide (k = key)) as [->|].
  - rewrite !lookup_insert_eq. cbn. by rewrite Hc.
  - by rewrite !lookup_insert_ne.
Qed.

Lemma same_durable_room full m m' : same_durable full m m' -> has_room m = has_room m'.
Proof.
  intros Heq. unfold has_room. rewrite <- !size_dom. replace (dom m') with (dom m); [done|].
  apply set_eq. intros k. specialize (Heq k). rewrite !elem_of_dom, <- !not_eq_None_Some.
  by destruct (m !! k), (m' !! k).
Qed.

(** ** Runs of logged operations *)

Inductive step_mode : Type := Plain | Sync | Durable.

Inductive engine_op : Type :=
| OpStart (wid type_id ns hash total : Z) (input : option bytes)
| OpStep (mode : step_mode) (key step : Z) (res : bytes)
| OpSignal (key name : Z) (payload : bytes)
| OpComplete (key : Z) (res : option bytes)
| OpFail (key : Z)
| OpCancel (key : Z)
| OpTerminate (key : Z).

Definition engine_step e (oc : engine_op * clock) : WorkflowEngine :=
  let '(o, ck) := oc in
  match o with
  | OpStart wid type_id ns hash total input => (start_workflow e wid type_id ns hash total input ck).1
  | OpStep Plain key step res => engine_complete_step e key step res ck
  | OpStep Sync key step res => complete_step_sync e key step res ck
  | OpStep Durable key step res => complete_step_durable e key step res ck
  | OpSignal key name payload => signal_workflow e key name payload ck
  | OpComplete key res => complete_workflow e key res ck
  | OpFail key => fail_workflow e key ck
  | OpCancel key => cancel_workflow e key ck
  | OpTerminate key => terminate_workflow e key ck
  end.

Definition op_key (o : engine_op) : Z :=
  match o with
  | OpStart wid _ ns _ _ _ => make_key ns wid
  | OpStep _ key _ _ | OpSignal key _ _ | OpComplete key _ | OpFail key | OpCancel key | OpTerminate key => key
  end.

(** The record the operation appends to the log. *)
Definition op_record (o : engine_op) : Wal.WalRecord :=
  match o with
  | OpStart wid type_id ns hash total _ =>
      Wal.mkRecord Wal.WorkflowStarted (make_key ns wid) (start_wal_data wid type_id ns hash total)
  | OpStep _ key step res => Wal.mkRecord Wal.StepCompleted key (step_wal_data step res)
  | OpSignal key name payload => Wal.mkRecord Wal.SignalReceived key (signal_wal_data name payload)
  | OpComplete key _ => Wal.mkRecord Wal.WorkflowCompleted key []
  | OpFail key => Wal.mkRecord Wal.WorkflowFailed key []
  | OpCancel key => Wal.mkRecord Wal.WorkflowCanceled key []
  | OpTerminate key => Wal.mkRecord Wal.WorkflowTerminated key []
  end.

(** What the operation does to the pool. *)
Definition op_pool p (run : Z) (o : engine_op) ck : WorkflowPoolInner WorkflowContext :=
  match o with
  | OpStart wid type_id ns hash total input =>
      (pool_insert p (make_key ns wid)
         (with_start (context_new wid run type_id hash total (instant ck)) ns input)).1
  | OpStep _ key step res => pool_with_mut p key (fun c => complete_step c step res)
  | OpSignal key name payload => pool_with_mut p key (if_running (fun c => signal c name payload))
  | OpComplete key res => pool_with_mut p key (fun c => complete c res (instant ck))
  | OpFail key => pool_with_mut p key (fun c => fail c (instant ck))
  | OpCancel key => pool_with_mut p key (fun c => cancel c (instant ck))
  | OpTerminate key => pool_with_mut p key (fun c => terminate c (instant ck))
  end.

Lemma log_event_workflows e ty key data : workflows (log_event e ty key data) = workflows e.
Proof. unfold log_event. by destruct (wal e). Qed.

Lemma sync_wal_workflows e : workflows (sync_wal e) = workflows e.
Proof. unfold sync_wal. by destruct (wal e). Qed.

Lemma archive_workflows e key : workflows (maybe_auto_archive e key) = workflows e.
Proof.
  unfold maybe_auto_archive. destruct (Archive.should_archive _ _); [|done].
  by destruct (pool_with (workflows e) key).
Qed.

Lemma batch_sync_workflows e ck : workflows (batch_sync e ck) = workflows e.
Proof.
  unfold batch_sync. cbv zeta. destruct (_ || _); [|done].
  cbn [set_durability workflows]. by rewrite sync_wal_workflows.
Qed.

Lemma log_event_wal e ty key data :
  wal (log_event e ty key data) = (fun m => append_ignoring m (Wal.mkRecord ty key data)) <$> wal e.
Proof. unfold log_event. by destruct (wal e) as [m|] eqn:E. Qed.

Lemma archive_wal e key : wal (maybe_auto_archive e key) = wal e.
Proof.
  unfold maybe_auto_archive. destruct (Archive.should_archive _ _); [|done].
  by destruct (pool_with (workflows e) key).
Qed.

(** The step handlers: the context update, then things that touch neither the pool nor the log
    except for an fsync. *)
Lemma apply_step_fst e key step res :
  (apply_step e key step res).1 = update_context e key (fun c => complete_step c step res).
Proof. done. Qed.

Lemma engine_step_workflows e o ck :
  workflows (engine_step e (o, ck)) = op_pool (workflows e) (next_run_id e) o ck.
Proof.
  destruct o as [wid ty ns hash total input|mode key step res|key name payload|key res|key|key|key];
    cbn [engine_step op_pool].
  - unfold start_workflow, start_workflow_with_attrs. cbv zeta. cbn [fst]. by rewrite log_event_workflows.
  - assert (Hstep : forall e', workflows e' = workflows e ->
      workflows (apply_step e' key step res).1 = pool_with_mut (workflows e) key (fun c => complete_step c step res)).
    { intros e' He. rewrite apply_step_fst. unfold update_context; cbn [set_workflows workflows]. by rewrite He. }
    destruct mode; [unfold engine_complete_step|unfold complete_step_sync|unfold complete_step_durable, complete_step_strict];
      cbv zeta.
    + specialize (Hstep _ (log_event_workflows e Wal.StepCompleted key (step_wal_data step res))).
      by destruct (apply_step _ key step res) as [e' [[h r]|]].
    + set (e0 := sync_wal _). specialize (Hstep e0). unfold e0 in Hstep at 1.
      rewrite sync_wal_workflows, log_event_workflows in Hstep. specialize (Hstep eq_refl).
      by destruct (apply_step e0 key step res) as [e' [[h r]|]].
    + destruct (_ =? 0).
      * set (e0 := sync_wal _). specialize (Hstep e0). unfold e0 in Hstep at 1.
        rewrite sync_wal_workflows, log_event_workflows in Hstep. specialize (Hstep eq_refl).
        destruct (apply_step e0 key step res) as [e' [[h r]|]]; [|done].
        by destruct (direct_execution _).
      * specialize (Hstep _ (log_event_workflows e Wal.StepCompleted key (step_wal_data step res))).
        destruct (apply_step _ key step res) as [e' [[h r]|]]; [|done].
        destruct (direct_execution _); cbn [next_step_task enqueue_task set_task_queue workflows];
          by rewrite batch_sync_workflows.
  - unfold signal_workflow. cbv zeta.
    destruct (0 <? _); cbn [enqueue_task set_task_queue update_context set_workflows workflows];
      by rewrite log_event_workflows.
  - unfold complete_workflow. cbv zeta. rewrite archive_workflows, log_event_workflows. done.
  - unfold fail_workflow. cbv zeta. rewrite archive_workflows, log_event_workflows. done.
  - unfold cancel_workflow. cbv zeta. rewrite archive_workflows, log_event_workflows. done.
  - unfold terminate_workflow. cbv zeta. rewrite archive_workflows, log_event_workflows. done.
Qed.

(** The log after an operation: the record, then possibly an fsync. *)
Definition logged (m m' : WalManager) r : Prop :=
  m' = append_ignoring m r \/ m' = wal_sync (append_ignoring m r).

Lemma sync_logged e0 m r :
  wal e0 = Some (append_ignoring m r) -> exists m', wal (sync_wal e0) = Some m' /\ logged m m' r.
Proof. intros He. unfold sync_wal. rewrite He. eexists. split; [done|]. by right. Qed.

Lemma engine_step_wal e o ck m :
  wal e = Some m -> exists m', wal (engine_step e (o, ck)) = Some m' /\ logged m m' (op_record o).
Proof.
  intros Hm. assert (Hlog : forall e' ty key data, wal e' = Some m ->
    exists m', wal (log_event e' ty key data) = Some m' /\ logged m m' (Wal.mkRecord ty key data)).
  { intros e' ty key data He. rewrite log_event_wal, He. eexists. split; [done|]. by left. }
  destruct o as [wid ty ns hash total input|mode key step res|key name payload|key res|key|key|key];
    cbn [engine_step op_record].
  - unfold start_workflow, start_workflow_with_attrs. cbv zeta. cbn [fst]. by apply Hlog.
  - assert (Hl : wal (log_event e Wal.StepCompleted key (step_wal_data step res)) =
                 Some (append_ignoring m (Wal.mkRecord Wal.StepCompleted key (step_wal_data step res))))
      by by rewrite log_event_wal, Hm.
    pose proof (sync_logged _ m _ Hl) as Hs.
    assert (Hl' := ex_intro (fun m' => wal _ = Some m' /\ logged m m' _) _ (conj Hl (or_introl eq_refl))).
    destruct mode; [unfold engine_complete_step|unfold complete_step_sync|unfold complete_step_durable, complete_step_strict];
      cbv zeta; unfold apply_step; cbv zeta.
    + by destruct (pool_with _ key).
    + by destruct (pool_with _ key).
    + destruct (_ =? 0).
      * destruct (pool_with _ key); [|done]. by destruct (direct_execution _).
      * destruct (pool_with _ key) as [c|]; [|done]. cbn beta iota.
        set (e1 := call _ _).
        assert (Hb : exists m', wal (batch_sync e1 ck) = Some m' /\
          logged m m' (Wal.mkRecord Wal.StepCompleted key (step_wal_data step res))).
        { unfold batch_sync. cbv zeta. destruct (_ || _); [|exact Hl'].
          cbn [set_durability wal]. by apply sync_logged. }
        by destruct (direct_execution _).
  - unfold signal_workflow. cbv zeta.
    destruct (0 <? _); cbn [enqueue_task set_task_queue update_context set_workflows wal]; by apply Hlog.
  - unfold complete_workflow. cbv zeta. rewrite archive_wal. by apply Hlog.
  - unfold fail_workflow. cbv zeta. rewrite archive_wal. by apply Hlog.
  - unfold cancel_workflow. cbv zeta. rewrite archive_wal. by apply Hlog.
  - unfold terminate_workflow. cbv zeta. rewrite archive_wal. by apply Hlog.
Qed.

(** ** Simulation *)

(** The operation is well typed and starts only a workflow that is not there; a workflow of
    [full] is signaled only while it runs or before it is there. *)
Definition op_ok (full : Z -> bool) p (o : engine_op) : Prop :=
  match o with
  | OpStart wid type_id ns hash total _ =>
      u64 wid /\ u64 type_id /\ u64 ns /\ u64 hash /\ u32 total /\ pool_with p (make_key ns wid) = None
  | OpStep _ _ step _ => u32 step
  | OpSignal key name _ => u64 name /\ (full key = true -> forall c, pool_with p key = Some c -> status c = Running)
  | _ => True
  end.

Lemma start_wal_data_length wid ty ns hash total : length (start_wal_data wid ty ns hash total) = 36%nat.
Proof. unfold start_wal_data. by rewrite !length_app, !le_bytes_length. Qed.

Lemma recovered_context_start key wid ty ns hash total ck :
  u64 wid -> u64 ty -> u64 ns -> u64 hash -> u32 total ->
  recovered_context key (start_wal_data wid ty ns hash total) ck =
  with_start (context_new wid (key &&& 0xFFFFFFFF) ty hash total (instant ck)) ns None.
Proof.
  intros Hw Hty Hns Hh Ht. unfold recovered_context, start_wal_data.
  rewrite <- (app_nil_r (le_bytes 4 total)). read_fields.
  by rewrite (le_val_le_bytes_fits 8 64 wid), (le_val_le_bytes_fits 8 64 ty),
    (le_val_le_bytes_fits 8 64 ns), (le_val_le_bytes_fits 8 64 hash), (le_val_le_bytes_fits 4 32 total).
Qed.

Lemma durable_start b wid rid rid' ty hash total now now' ns input input' :
  durable_of b (with_start (context_new wid rid ty hash total now) ns input) =
  durable_of b (with_start (context_new wid rid' ty hash total now') ns input').
Proof. done. Qed.

(** Both pools are sound and agree on what is durable. *)
Definition pools_agree (full : Z -> bool) (ks : list Z) p q : Prop :=
  pool_rel ks p (pool_map p) /\ pool_rel ks q (pool_map q) /\ same_durable full (pool_map p) (pool_map q).

Lemma pool_rel_new (ks : list Z) : pool_rel ks (@pool_new WorkflowContext) (pool_map pool_new).
Proof.
  destruct (slots_inv_new (C := WorkflowContext)) as (Hi & Hmap & Hx).
  split; [exact Hi|]. split; [exact Hx|]. split; [reflexivity|]. intros key c. by rewrite Hmap, lookup_empty.
Qed.

Lemma pool_rel_map (ks : list Z) p m : pool_rel ks p m -> pool_map p = m.
Proof. by intros (_ & _ & Hm & _). Qed.

Lemma agree_with_mut full ks p q key f f' :
  pools_agree full ks p q ->
  (forall c c', pool_with p key = Some c -> durable_of (full key) c = durable_of (full key) c' ->
                durable_of (full key) (f c) = durable_of (full key) (f' c')) ->
  pools_agree full ks (pool_with_mut p key f) (pool_with_mut q key f').
Proof.
  intros (Hp & Hq & Hd) Hf.
  pose proof (pool_with_mut_sim ks p key f Hp) as Hp'. pose proof (pool_with_mut_sim ks q key f' Hq) as Hq'.
  pose proof (pool_rel_map _ _ _ Hp') as Hmp. pose proof (pool_rel_map _ _ _ Hq') as Hmq.
  unfold pools_agree. rewrite Hmp, Hmq. split_and!; [done|done|]. apply same_durable_alter; [done|].
  intros c c' Hc _ Hcc. apply Hf; [|done]. destruct Hp as (Hinv & Hidx & _). by rewrite pool_with_lookup.
Qed.

Lemma agree_insert full ks p q key c c' :
  pools_agree full ks p q -> key ∈ ks -> pool_with p key = None -> durable_of (full key) c = durable_of (full key) c' ->
  pools_agree full ks (pool_insert p key c).1 (pool_insert_if_absent q key c').1.
Proof.
  intros (Hp & Hq & Hd) Hks Hnone Hc. pose proof Hp as (Hinv & Hidx & _).
  rewrite pool_with_lookup in Hnone by done.
  pose proof (Hd key) as Hk. rewrite Hnone in Hk.
  assert (Hq0 : pool_map q !! key = None) by by destruct (pool_map q !! key).
  pose proof (pool_insert_sim ks p key c Hp Hks) as Hi.
  pose proof (pool_insert_if_absent_sim ks q key c' Hq Hks) as Hi'.
  rewrite Hnone in Hi. rewrite Hq0 in Hi'. cbn [is_some negb andb orb] in Hi, Hi'.
  rewrite <- (same_durable_room _ _ _ Hd) in Hi'. unfold pools_agree. destruct (has_room (pool_map p)).
  - destruct Hi as [Hi _], Hi' as [Hi' _].
    rewrite (pool_rel_map _ _ _ Hi), (pool_rel_map _ _ _ Hi'). split_and!; [done|done|].
    by apply same_durable_insert.
  - by rewrite Hi, Hi'.
Qed.

Lemma op_sim full ks p q n run o ck ck' :
  pools_agree full ks p q -> op_key o ∈ ks -> op_ok full p o ->
  pools_agree full ks (op_pool p run o ck) (recover_record ck' (q, n) (op_record o)).1.
Proof.
  intros Hagree Hks Hok.
  destruct o as [wid ty ns hash total input|mode key step res|key name payload|key res|key|key|key];
    cbn [op_pool op_record recover_record Wal.event_type Wal.workflow_key Wal.data op_key] in *.
  - destruct Hok as (Hw & Hty & Hns & Hh & Ht & Hnone).
    rewrite start_wal_data_length, recovered_context_start by done.
    change (36 <? 36)%nat with false. cbn iota.
    pose proof (agree_insert full ks p q _ _ _ Hagree Hks Hnone
      (durable_start _ wid run (make_key ns wid &&& 0xFFFFFFFF) ty hash total (instant ck) (instant ck') ns input None)) as Hi.
    by destruct (pool_insert_if_absent q _ _).
  - cbn [fst]. apply agree_with_mut; [done|]. intros c c' _ Hc. unfold step_wal_data.
    rewrite Replay.le_app_length, slice_le_here, (le_val_le_bytes_fits 4 32) by done.
    rewrite drop_app_length' by by rewrite le_bytes_length. by apply durable_complete_step.
  - destruct Hok as [Hname Hrun]. cbn [fst]. apply agree_with_mut; [done|]. intros c c' Hp Hc.
    unfold signal_wal_data, if_running.
    rewrite Replay.le_app_length, slice_le_here, (le_val_le_bytes_fits 8 64) by done.
    rewrite drop_app_length' by by rewrite le_bytes_length. destruct (full key).
    + rewrite decide_True by by apply Hrun. by apply durable_signal.
    + case_decide; [by apply durable_signal|by apply durable_signal_dropped].
  - cbn [fst]. apply agree_with_mut; [done|]. intros c c' _ Hc. by apply durable_status.
  - cbn [fst]. apply agree_with_mut; [done|]. intros c c' _ Hc. by apply durable_status.
  - cbn [fst]. apply agree_with_mut; [done|]. intros c c' _ Hc. by apply durable_status.
  - cbn [fst]. apply agree_with_mut; [done|]. intros c c' _ Hc. by apply durable_status.
Qed.

(** ** The log along a run *)

Lemma logged_state max_size m m' rs cur old r :
  log_state max_size WAL_RETAIN m rs cur old -> Wal.record_wf r -> Z.of_nat (length rs) + 1 < 2 ^ 64 ->
  logged m m' r -> exists cur' old', log_state max_size WAL_RETAIN m' (rs ++ [r]) cur' old'.
Proof.
  intros Hl Hr Hlen Hm. destruct (log_state_append _ _ _ _ _ _ r Hl Hr Hlen) as (m1 & cur' & old' & Happ & Hl' & _).
  unfold logged, append_ignoring in Hm. rewrite Happ in Hm.
  exists cur', old'. destruct Hm as [->| ->]; [done|by apply log_state_sync].
Qed.

(** A log that fits the retained files is replayed completely. *)
Lemma segments_replay M m cur old :
  wal_inv m cur old -> max_file_size m = M -> 7 < M ->
  payload (concat (rev (cur :: old))) < (Z.of_nat (retain_count m) + 1) * (M - 7) ->
  replay_all m = Ok (concat (rev (cur :: old))).
Proof.
  intros Hinv Hmax Hpos Hpay. rewrite (replay_all_segments m cur old Hinv).
  assert (Hlen : (length old <= retain_count m)%nat).
  { pose proof (inv_old _ _ _ Hinv) as Hold. rewrite Hmax in Hold. apply segments_payload in Hold.
    cbn [rev] in Hpay. rewrite concat_app, payload_app in Hpay.
    assert (0 <= payload (concat [cur])) by (unfold payload; lia). nia. }
  by rewrite take_ge.
Qed.

(** ** Runs *)

Fixpoint ops_ok (full : Z -> bool) e (ops : list (engine_op * clock)) : Prop :=
  match ops with
  | [] => True
  | oc :: ops => op_ok full (workflows e) oc.1 /\ ops_ok full (engine_step e oc) ops
  end.

Definition op_records (ops : list (engine_op * clock)) : list Wal.WalRecord := map (fun oc => op_record oc.1) ops.

Lemma run_log max_size ops : forall e m rs cur old,
  wal e = Some m -> log_state max_size WAL_RETAIN m rs cur old ->
  Z.of_nat (length rs) + Z.of_nat (length ops) < 2 ^ 64 ->
  Forall Wal.record_wf (op_records ops) ->
  exists m' cur' old', wal (foldl engine_step e ops) = Some m' /\
    log_state max_size WAL_RETAIN m' (rs ++ op_records ops) cur' old'.
Proof.
  induction ops as [|[o ck] ops IH]; intros e m rs cur old Hm Hl Hlen Hwf.
  { exists m, cur, old. by rewrite app_nil_r. }
  cbn [op_records map length foldl fst] in *. apply Forall_cons in Hwf as [Hr Hwf].
  destruct (engine_step_wal e o ck m Hm) as (m1 & Hm1 & Hlog).
  destruct (logged_state max_size m m1 rs cur old _ Hl Hr ltac:(lia) Hlog) as (cur1 & old1 & Hl1).
  destruct (IH _ m1 _ _ _ Hm1 Hl1 ltac:(rewrite length_app; simpl; lia) Hwf) as (m' & cur' & old' & Hm' & Hl').
  exists m', cur', old'. split; [done|]. by rewrite <- app_assoc in Hl'.
Qed.

Lemma run_pools full ks ck' ops : forall e q n,
  pools_agree full ks (workflows e) q -> Forall (fun oc => op_key oc.1 ∈ ks) ops -> ops_ok full e ops ->
  pools_agree full ks (workflows (foldl engine_step e ops)) (foldl (recover_record ck') (q, n) (op_records ops)).1.
Proof.
  induction ops as [|[o ck] ops IH]; intros e q n Hag Hks Hok; [done|].
  cbn [op_records map foldl fst ops_ok] in *. apply Forall_cons in Hks as [Ho Hks]. destruct Hok as [Hok1 Hok].
  pose proof (op_sim full ks (workflows e) q n (next_run_id e) o ck ck' Hag Ho Hok1) as Hag1.
  rewrite <- engine_step_workflows in Hag1.
  destruct (recover_record ck' (q, n) (op_record o)) as [q1 n1]. by apply IH.
Qed.

(** ** Recovery *)

Lemma rebuild_history_workflows rs e : workflows (foldl rebuild_history e rs) = workflows e.
Proof.
  revert e. induction rs as [|r rs IH]; intros e; [done|]. cbn [foldl]. rewrite IH.
  unfold rebuild_history. by destruct (wal_history_type _).
Qed.

Lemma verify_replay_workflows keys e n : workflows (foldl verify_replay (e, n) keys).1 = workflows e.
Proof.
  revert e n. induction keys as [|k keys IH]; intros e n; [done|]. cbn [foldl verify_replay].
  destruct (default [] _) as [|ev evs]; [apply IH|]. cbn [Replay.replay]. rewrite IH. done.
Qed.

Lemma iter_call_workflows n c e : workflows (Nat.iter n (fun e => call e c) e) = workflows e.
Proof. by induction n. Qed.

Lemma recover_workflows e ck m records :
  wal e = Some m -> replay_all m = Ok records ->
  exists e', recover_from_wal e ck =
               Ok (e', (length records, (foldl (recover_record ck) (workflows e, O) records).2)) /\
             workflows e' = (foldl (recover_record ck) (workflows e, O) records).1.
Proof.
  intros Hm Hrep. unfold recover_from_wal. rewrite Hm, Hrep.
  destruct (foldl (recover_record ck) (workflows e, O) records) as [p n]. cbv zeta. cbn [fst snd].
  set (e1 := foldl rebuild_history _ records).
  assert (He1 : workflows e1 = p).
  { unfold e1. rewrite rebuild_history_workflows. cbn [set_visibility workflows]. by destruct (0 <? _). }
  pose proof (verify_replay_workflows (pool_keys (workflows e1)) e1 O) as Hv.
  destruct (foldl verify_replay (e1, O) (pool_keys (workflows e1))) as [e2 v]. cbn [fst] in Hv.
  eexists. split; [done|]. rewrite iter_call_workflows. cbn [call workflows]. congruence.
Qed.

Definition engine_disk e : disk := match wal e with Some m => wdisk m | None => ∅ end.

(** The observations of a workflow that its durable part determines. *)
Lemma durable_observations b e e' key :
  durable_of b <$> pool_with (workflows e') key = durable_of b <$> pool_with (workflows e) key ->
  get_status e' key = get_status e key /\ get_current_step e' key = get_current_step e key /\
  (forall step, engine_get_step_result e' key step = engine_get_step_result e key step /\
                engine_is_step_completed e' key step = engine_is_step_completed e key step) /\
  (b = true -> get_event_sequence e' key = get_event_sequence e key /\
     forall name, engine_has_signal e' key name = engine_has_signal e key name /\
                  (engine_take_signal e' key name).2 = (engine_take_signal e key name).2).
Proof.
  unfold get_status, get_current_step, get_event_sequence, engine_get_step_result, engine_is_step_completed,
    engine_has_signal, engine_take_signal, get_step_result, is_step_completed, has_signal, take_signal.
  destruct (pool_with (workflows e') key) as [c'|], (pool_with (workflows e) key) as [c|];
    cbn [fmap option_fmap option_map snd]; [|discriminate..|done].
  unfold durable_of. intros Heq. injection Heq. intros Hev -> _ -> -> -> _ _ _ _.
  split_and!; try done. intros ->. injection Hev as -> ->. split; [done|].
  intros name. by destruct (SlotVec.slotvec_pop_front (signal_buffer c) name).
Qed.

(** The workflows of an engine rebuilt from the records of a run. *)
Lemma recovered_agree full max_size ops ck0 d' ck ck' :
  ops_ok full (with_wal ∅ max_size ck0) ops ->
  replay_all (wal_manager_new d' max_size WAL_RETAIN) = Ok (op_records ops) ->
  exists e' recovered,
    recover_from_wal (with_wal d' max_size ck) ck' = Ok (e', (length ops, recovered)) /\
    forall key, durable_of (full key) <$> pool_with (workflows e') key =
      durable_of (full key) <$> pool_with (workflows (foldl engine_step (with_wal ∅ max_size ck0) ops)) key.
Proof.
  intros Hok Hrep. set (e := foldl engine_step _ ops).
  destruct (recover_workflows (with_wal d' max_size ck) ck' _ _ eq_refl Hrep) as (e' & Hrec & Hw).
  exists e', (foldl (recover_record ck') (pool_new, O) (op_records ops)).2.
  split. { rewrite Hrec. unfold op_records. by rewrite length_map. }
  assert (Hag : pools_agree full (map (fun oc => op_key oc.1) ops) (workflows e) (workflows e')).
  { rewrite Hw. apply run_pools; [| |done].
    - unfold pools_agree. cbn [with_wal set_wal engine_new workflows].
      split; [apply pool_rel_new|]. split; [apply pool_rel_new|]. by intros k.
    - apply Forall_forall. intros oc Hoc. apply list_elem_of_fmap. by exists oc. }
  intros key. destruct Hag as ((Hi & Hx & _) & (Hi' & Hx' & _) & Hsame). by rewrite !pool_with_lookup by done.
Qed.

(** C1. Durability of the whole engine.  On an engine with a fresh log run any
    sequence of starts of workflows that are not there, step completions in the three
    modes, signals, completions, failures, cancellations and terminations; fsync, and
    crash.  If the records fit the log files that are retained, recovery from what the
    crash left gives every workflow back its status, current step, completed steps and
    step results, and every workflow of any set [full] that was signaled only while it
    was running its event sequence and pending signals too; or the crash tore the
    eight header bytes of a log file without records, and recovery reports
    [UnexpectedEof]. *)
Theorem recovery_restores_durable_state (max_size : Z) (full : Z -> bool) (ops : list (engine_op * clock))
  (ck0 ck ck' : clock) (d' : disk)
  (Hok : ops_ok full (with_wal ∅ max_size ck0) ops)
  (Hwf : Forall Wal.record_wf (op_records ops))
  (Hlen : Z.of_nat (length ops) < 2 ^ 64)
  (Hsize : 7 < max_size)
  (Hfit : payload (op_records ops) < (Z.of_nat WAL_RETAIN + 1) * (max_size - 7))
  (Hcrash : crash (engine_disk (sync_wal (foldl engine_step (with_wal ∅ max_size ck0) ops))) d') :
  let e := foldl engine_step (with_wal ∅ max_size ck0) ops in
  (exists e' recovered,
    recover_from_wal (with_wal d' max_size ck) ck' = Ok (e', (length ops, recovered)) /\
    forall key,
      durable_of (full key) <$> pool_with (workflows e') key = durable_of (full key) <$> pool_with (workflows e) key /\
      get_status e' key = get_status e key /\ get_current_step e' key = get_current_step e key /\
      (forall step, engine_get_step_result e' key step = engine_get_step_result e key step /\
                    engine_is_step_completed e' key step = engine_is_step_completed e key step) /\
      (full key = true -> get_event_sequence e' key = get_event_sequence e key /\
         forall name, engine_has_signal e' key name = engine_has_signal e key name /\
                      (engine_take_signal e' key name).2 = (engine_take_signal e key name).2)) \/
  (contents <$> engine_disk (sync_wal e) !! wal_path = Some Wal.file_header /\ torn d' /\
   recover_from_wal (with_wal d' max_size ck) ck' = Err (WalReplayFailed Wal.UnexpectedEof)).
Proof.
  intros e. destruct (run_log max_size ops (with_wal ∅ max_size ck0) _ _ _ _ eq_refl
    (log_state_new max_size WAL_RETAIN) ltac:(simpl; lia) Hwf) as (m & cur & old & Hm & Hl).
  fold e in Hm, Hcrash. cbn [app] in Hl. unfold engine_disk, sync_wal in Hcrash |- *.
  rewrite Hm in Hcrash |- *. cbn [set_wal wal] in Hcrash |- *.
  destruct (wal_sync_durable m cur old (ls_inv _ _ _ _ _ _ Hl) (ls_durable _ _ _ _ _ _ Hl)) as (_ & Hun & _).
  apply log_state_sync in Hl. assert (Hsyn : synced (wal_sync m) cur = length cur) by (unfold synced; rewrite Hun; simpl; lia).
  destruct (crash_reopen _ _ _ _ _ _ _ Hl Hcrash) as [(n & Hn & Hinv')|(Ht & Herr & _ & Hs)].
  - left. rewrite take_ge in Hinv' by lia. pose proof (ls_records _ _ _ _ _ _ Hl) as Hcat.
    assert (Hrep : replay_all (wal_manager_new d' max_size WAL_RETAIN) = Ok (op_records ops)).
    { rewrite <- Hcat. apply (segments_replay max_size); [done..|]. by rewrite Hcat. }
    destruct (recovered_agree full max_size ops ck0 d' ck ck' Hok Hrep) as (e' & r & Hrec & Hd).
    exists e', r. split; [done|]. intros key. split; [by apply Hd|]. by apply durable_observations.
  - right. split_and!; [|done|].
    + destruct Hs as [Hs| ->]; [lia|]. rewrite (inv_current _ _ _ (ls_inv _ _ _ _ _ _ Hl)). by rewrite Wal.file_of_nil.
    + unfold recover_from_wal. cbn [with_wal set_wal wal]. by rewrite Herr.
Qed.

(** ** Replay of the rebuilt histories

    [recover_from_wal] writes the histories again and replays them; what the replay of a
    workflow sees is what the log gave its context. *)






















End recover.

(** ** An example run *)

Lemma crash_refl (d : disk) :
  map_Forall (fun _ f => durable f <= length (contents f))%nat d -> crash d d.
Proof.
  intros Hd p. destruct (d !! p) as [f|] eqn:Hp; [|done]. specialize (Hd p f Hp). simpl in Hd.
  split; [lia|]. by rewrite take_ge.
Qed.

Definition example_clock : clock := mkClock 100 5000.

Definition example_ops : list (engine_op * clock) :=
  [(OpStart 1 2 0 9 3 (Some [1]), example_clock); (OpStep Durable 1 0 [5], example_clock);
   (OpSignal 1 4 [7], example_clock); (OpStep Plain 1 1 [6], example_clock);
   (OpComplete 1 None, example_clock)].

#[local] Instance example_sha : Sha256 := poly_sha.

Abbreviation example_engine := (foldl engine_step (with_wal ∅ 1000 example_clock) example_ops).

Lemma example_crash :
  crash (engine_disk (sync_wal example_engine)) (engine_disk (sync_wal example_engine)).
Proof.
  assert (Hd : bool_decide (map_Forall (fun _ f => durable f <= length (contents f))%nat
                 (engine_disk (sync_wal example_engine))) = true) by (vm_compute; reflexivity).
  exact (crash_refl _ (proj1 (bool_decide_eq_true _) Hd)).
Qed.

Lemma recovery_restores_durable_state_witness :
  exists e' recovered,
    recover_from_wal (with_wal (engine_disk (sync_wal example_engine)) 1000 example_clock) example_clock =
      Ok (e', (5%nat, recovered)) /\
    get_status e' 1 = Completed /\ engine_get_step_result e' 1 1 = Some [6].
Proof.
  assert (Hok : ops_ok (fun _ => true) (with_wal ∅ 1000 example_clock) example_ops).
  { cbn [example_ops ops_ok op_ok fst]. split_and!; try exact I; try (vm_compute; reflexivity);
      try (split; vm_compute; congruence).
    intros _ c Hc. vm_compute in Hc. injection Hc as <-. reflexivity. }
  assert (Hwf : Forall Wal.record_wf (op_records example_ops)).
  { assert (Hb : bool_decide (Forall Wal.record_wf (op_records example_ops)) = true) by (vm_compute; reflexivity).
    exact (proj1 (bool_decide_eq_true _) Hb). }
  destruct (recovery_restores_durable_state 1000 (fun _ => true) example_ops example_clock example_clock example_clock
    (engine_disk (sync_wal example_engine)) Hok Hwf ltac:(vm_compute; reflexivity) ltac:(vm_compute; reflexivity)
    ltac:(vm_compute; reflexivity) example_crash) as [(e' & n & Hrec & Hall)|(Hhead & _)].
  - exists e', n. destruct (Hall 1) as (_ & Hs & _ & Hstep & _). split; [exact Hrec|]. split.
    + rewrite Hs. vm_compute. reflexivity.
    + rewrite (proj1 (Hstep 1)). vm_compute. reflexivity.
  - vm_compute in Hhead. discriminate.
Defined.



End Recovery.
