(* ===== verification/EngineProps.v ===== *)
(** * Properties of the engine's handlers

    Invariants of every run, the loss bound of batched fsyncs, retries, and the
    operations the log does not cover. *)

From S2P Require Import Prelude Bitmask Slab SlotMap Slots Wal ContextPool TaskQueue CircuitBreaker.
From S2P Require Import EventHistory Timer Index Context Replay Visibility Archive Engine Recovery.
Import (hints) Context.

Module EngineProps.
Import Context ContextPool WalManager Engine Recovery.

Section props.
Context `{Sha256}.
Implicit Types (e : WorkflowEngine) (ck : clock) (p : WorkflowPoolInner WorkflowContext).

(** ** Every live context stays well formed *)

(** The handlers of the engine that can change a workflow, and those around them; only
    [reset_workflow] and recovery are missing. *)
Inductive handler : Type :=
| HLogged (o : engine_op)
| HStartAttrs (wid type_id ns hash total : Z) (input : option bytes)
    (attrs : gmap string Visibility.SearchAttributeValue)
| HTryStart (wid type_id ns hash total : Z) (input : option bytes)
| HSignalWithStart (wid type_id ns hash total name : Z) (payload : bytes)
| HChild (parent child_id type_id hash total : Z) (input : option bytes)
| HContinue (key : Z) (input : option bytes)
| HTakeSignal (key name : Z)
| HUpdate (key name : Z) (payload : bytes)
| HTakeUpdate (key name : Z)
| HActivity (key step name : Z) (args : bytes) (sts stc scc hb : Z)
| HActivityDone (key step : Z) (res : bytes)
| HActivityFailed (key step : Z)
| HTimer (key delay : Z)
| HTimerTick
| HFiredTimer (key : Z)
| HClosePolicy (parent : Z) (policy : ParentClosePolicy)
| HTimeout (key ms : Z)
| HCheckTimeouts
| HPurge (key : Z)
| HPurgeCompleted (order : list Z)
| HSync
| HShutdown.

Definition handle e (hc : handler * clock) : WorkflowEngine :=
  let '(h, ck) := hc in
  match h with
  | HLogged o => engine_step e (o, ck)
  | HStartAttrs wid ty ns hash total input attrs =>
      (start_workflow_with_attrs e wid ty ns hash total input attrs ck).1
  | HTryStart wid ty ns hash total input => (try_start_workflow e wid ty ns hash total input ck).1
  | HSignalWithStart wid ty ns hash total name payload =>
      (signal_with_start e wid ty ns hash total name payload ck).1.1
  | HChild parent child ty hash total input => (start_child_workflow e parent child ty hash total input ck).1
  | HContinue key input => (continue_as_new e key input ck).1
  | HTakeSignal key name => (engine_take_signal e key name).1
  | HUpdate key name payload => update_workflow e key name payload ck
  | HTakeUpdate key name => (engine_take_update e key name).1
  | HActivity key step name args sts stc scc hb =>
      schedule_activity_with_timeouts e key step name args sts stc scc hb ck
  | HActivityDone key step res => complete_activity e key step res ck
  | HActivityFailed key step => (fail_activity_with_retry e key step ck).1
  | HTimer key delay => (schedule_timer e key delay ck).1
  | HTimerTick => timer_tick e ck
  | HFiredTimer key => process_fired_timer e key ck
  | HClosePolicy parent policy => apply_parent_close_policy e parent policy ck
  | HTimeout key ms => set_workflow_execution_timeout e key ms
  | HCheckTimeouts => (check_workflow_timeouts e ck).1
  | HPurge key => purge_workflow e key
  | HPurgeCompleted order => (purge_completed e order).1
  | HSync => sync_wal e
  | HShutdown => engine_shutdown e
  end.

(** Arguments of the right width; the name [u64::MAX] marks a free slot of the signal and update
    tables. *)
Definition handler_typed (h : handler) : Prop :=
  match h with
  | HLogged (OpStart wid _ _ _ total _) | HStartAttrs wid _ _ _ total _ _ | HTryStart wid _ _ _ total _ =>
      u64 wid /\ u32 total
  | HSignalWithStart wid _ _ _ total name _ => u64 wid /\ u32 total /\ name <> U64_MAX
  | HChild _ child _ _ total _ => u64 child /\ u32 total
  | HLogged (OpStep _ _ step _) | HActivityDone _ step _ => u32 step
  | HLogged (OpSignal _ name _) | HUpdate _ name _ => name <> U64_MAX
  | _ => True
  end.

(** The invariant of a run: every context of the pool is sound, and run ids are 64 bits wide. *)
Definition engine_ok e : Prop :=
  (forall i c, contexts (workflows e) !! i = Some (Some c) -> context_inv c) /\ u64 (next_run_id e).

(** Whatever leaves the pool and the run ids alone keeps it. *)
Lemma ok_same e e' :
  engine_ok e -> workflows e' = workflows e -> next_run_id e' = next_run_id e -> engine_ok e'.
Proof. intros He Hw Hr. unfold engine_ok. by rewrite Hw, Hr. Qed.

Ltac ok_setter := intros He; refine (ok_same _ _ He _ _); done.

Lemma ok_call e c : engine_ok e -> engine_ok (call e c). Proof. ok_setter. Qed.
Lemma ok_visibility e v : engine_ok e -> engine_ok (set_visibility e v). Proof. ok_setter. Qed.
Lemma ok_breaker e b : engine_ok e -> engine_ok (set_breaker e b). Proof. ok_setter. Qed.
Lemma ok_timers e t : engine_ok e -> engine_ok (set_timers e t). Proof. ok_setter. Qed.
Lemma ok_retries e r : engine_ok e -> engine_ok (set_retries e r). Proof. ok_setter. Qed.
Lemma ok_archive_set e a : engine_ok e -> engine_ok (set_archive e a). Proof. ok_setter. Qed.
Lemma ok_history_set e h : engine_ok e -> engine_ok (set_history e h). Proof. ok_setter. Qed.
Lemma ok_queue e q : engine_ok e -> engine_ok (set_task_queue e q). Proof. ok_setter. Qed.
Lemma ok_durability e c s l : engine_ok e -> engine_ok (set_durability e c s l). Proof. ok_setter. Qed.
Lemma ok_history e key ty data : engine_ok e -> engine_ok (record_history e key ty data). Proof. ok_setter. Qed.
Lemma ok_status e key st close : engine_ok e -> engine_ok (change_status e key st close). Proof. ok_setter. Qed.
Lemma ok_enqueue e kind key hash step name att ck :
  engine_ok e -> engine_ok (enqueue_task e kind key hash step name att ck).
Proof. ok_setter. Qed.

Lemma ok_log e ty key data : engine_ok e -> engine_ok (log_event e ty key data).
Proof. unfold log_event. destruct (wal e); [ok_setter|done]. Qed.

Lemma ok_sync e : engine_ok e -> engine_ok (sync_wal e).
Proof. unfold sync_wal. destruct (wal e); [ok_setter|done]. Qed.

Lemma ok_archive e key : engine_ok e -> engine_ok (maybe_auto_archive e key).
Proof.
  unfold maybe_auto_archive. destruct (Archive.should_archive _ _); [|done].
  destruct (pool_with _ key); [apply ok_archive_set|done].
Qed.

Lemma ok_run e run : engine_ok e -> engine_ok (set_next_run_id e (wrap 64 run)).
Proof. intros [Hc _]. split; [done|]. apply wrap_fits. lia. Qed.

(** The three ways a pool changes: in place, by an insertion, by a removal. *)
Lemma ok_update e key f :
  engine_ok e -> (forall c, context_inv c -> context_inv (f c)) -> engine_ok (update_context e key f).
Proof.
  intros [Hc Hr] Hf. split; [|done]. intros i c. unfold update_context, pool_with_mut. cbn [set_workflows workflows].
  destruct (find_key_slot _ key) as [idx|]; [|apply Hc]. cbn [contexts].
  rewrite list_lookup_alter. case_decide; [|apply Hc]. subst.
  destruct (contexts (workflows e) !! i) as [[c0|]|] eqn:Hi; [|done..]. cbn. intros [= <-]. by eapply Hf, Hc.
Qed.

Lemma ok_insert e key c : engine_ok e -> context_inv c -> engine_ok (set_workflows e (pool_insert (workflows e) key c).1).
Proof.
  intros [Hc Hr] Hinv. split; [|done]. cbn [set_workflows workflows].
  assert (Hins : forall j i c', <[j := Some c]> (contexts (workflows e)) !! i = Some (Some c') -> context_inv c').
  { intros j i c'. rewrite list_lookup_insert. case_decide; [by intros [= <-]|apply Hc]. }
  unfold pool_insert. destruct (find_key_slot _ key); [apply Hins|].
  destruct (pop_free _) as [[i rest]|]; [apply Hins|apply Hc].
Qed.

Lemma ok_remove e key : engine_ok e -> engine_ok (set_workflows e (pool_remove (workflows e) key).1).
Proof.
  intros [Hc Hr]. split; [|done]. cbn [set_workflows workflows]. unfold pool_remove.
  destruct (find_key_slot _ key) as [idx|]; [|apply Hc]. intros i c. cbn [fst contexts].
  rewrite list_lookup_insert. case_decide; [done|apply Hc].
Qed.

Lemma ok_with e key c : engine_ok e -> pool_with (workflows e) key = Some c -> context_inv c.
Proof.
  intros [Hc _]. unfold pool_with. destruct (find_key_slot _ key) as [i|]; [|done].
  destruct (contexts (workflows e) !! i) eqn:Hi; [|done]. intros ->. by eapply Hc.
Qed.

Create HintDb engine_ok.
#[local] Hint Resolve ok_call ok_visibility ok_breaker ok_timers ok_retries ok_archive_set ok_history_set
  ok_queue ok_durability ok_history ok_status ok_enqueue ok_log ok_sync ok_archive ok_run ok_update ok_insert
  ok_remove : engine_ok.

Lemma take_signal_inv c name : context_inv c -> context_inv (take_signal c name).1.
Proof.
  intros [[] Hag]. unfold take_signal.
  destruct (SlotVec.slotvec_pop_map (signal_buffer c) name) as [Hwf _]; [done|].
  destruct (SlotVec.slotvec_pop_front (signal_buffer c) name). split; [by constructor|exact Hag].
Qed.

Lemma take_update_inv c name : context_inv c -> context_inv (take_update c name).1.
Proof.
  intros [[] Hag]. unfold take_update.
  destruct (SlotVec.slotvec_pop_map (update_buffer c) name) as [Hwf _]; [done|].
  destruct (SlotVec.slotvec_pop_front (update_buffer c) name). split; [by constructor|exact Hag].
Qed.

Lemma update_inv c name payload : name <> U64_MAX -> context_inv c -> context_inv (update c name payload).
Proof. intros Hn [Hwf Hag]. split; [by apply update_wf|exact Hag]. Qed.

Lemma ok_foldl {A} (f : WorkflowEngine -> A -> WorkflowEngine) (l : list A) :
  (forall e x, engine_ok e -> engine_ok (f e x)) -> forall e, engine_ok e -> engine_ok (foldl f e l).
Proof. intros Hf. induction l as [|x l IH]; intros e He; [done|]. cbn [foldl]. auto. Qed.

Lemma started_inv wid run ty hash total now ns input :
  u64 wid -> u64 run -> u32 total -> context_inv (with_start (context_new wid run ty hash total now) ns input).
Proof. intros. by apply with_start_inv, context_new_inv. Qed.

Lemma ok_start e wid ty ns hash total input attrs ck :
  engine_ok e -> u64 wid -> u32 total ->
  engine_ok (start_workflow_with_attrs e wid ty ns hash total input attrs ck).1.
Proof.
  intros He Hw Ht. unfold start_workflow_with_attrs. cbv zeta. cbn [fst].
  assert (Hc : context_inv (with_start (context_new wid (next_run_id e) ty hash total (instant ck)) ns input))
    by (apply started_inv; [done|apply He|done]).
  eauto 12 with engine_ok.
Qed.

Lemma ok_apply_step e key step res : engine_ok e -> u32 step -> engine_ok (apply_step e key step res).1.
Proof.
  intros He Hs. unfold apply_step. cbv zeta. cbn [fst]. apply ok_update; [done|].
  intros c. apply complete_step_inv. ranges.
Qed.

Lemma ok_batch e ck : engine_ok e -> engine_ok (batch_sync e ck).
Proof. intros He. unfold batch_sync. cbv zeta. destruct (_ || _); eauto with engine_ok. Qed.

Lemma ok_terminate e key ck : engine_ok e -> engine_ok (terminate_workflow e key ck).
Proof.
  intros He. unfold terminate_workflow, forget. cbv zeta.
  pose proof (ok_update e key _ He (fun c => with_status_inv c Terminated (Some (instant ck)) (result_data c))).
  eauto 10 with engine_ok.
Qed.

Lemma ok_cancel e key ck : engine_ok e -> engine_ok (cancel_workflow e key ck).
Proof.
  intros He. unfold cancel_workflow, forget. cbv zeta.
  pose proof (ok_update e key _ He (fun c => with_status_inv c Canceled (Some (instant ck)) (result_data c))).
  eauto 10 with engine_ok.
Qed.

Lemma ok_signal e key name payload ck :
  engine_ok e -> name <> U64_MAX -> engine_ok (signal_workflow e key name payload ck).
Proof.
  intros He Hn. unfold signal_workflow. cbv zeta.
  assert (H1 : engine_ok (update_context (log_event e Wal.SignalReceived key (signal_wal_data name payload)) key
                 (if_running (fun c => signal c name payload)))).
  { apply ok_update; [by apply ok_log|]. intros c Hc. unfold if_running. case_decide; [by apply signal_inv|done]. }
  destruct (0 <? _); eauto with engine_ok.
Qed.

Lemma ok_step e o ck : engine_ok e -> handler_typed (HLogged o) -> engine_ok (engine_step e (o, ck)).
Proof.
  intros He Ho. destruct o as [wid ty ns hash total input|mode key step res|key name payload|key res|key|key|key];
    cbn [engine_step handler_typed] in *.
  - destruct Ho. by apply ok_start.
  - pose proof (fun e' He' => ok_apply_step e' key step res He' Ho) as Happ.
    pose proof (ok_log e Wal.StepCompleted key (step_wal_data step res) He) as Hl.
    pose proof (Happ _ Hl) as H1. pose proof (Happ _ (ok_sync _ Hl)) as H2.
    destruct mode; [unfold engine_complete_step|unfold complete_step_sync|
      unfold complete_step_durable, complete_step_strict; destruct (_ =? 0)]; cbv zeta;
      destruct (apply_step _ key step res) as [e' [[h r]|]]; cbn [fst] in *; try done;
      unfold next_step_task; repeat case_match; eauto using ok_batch with engine_ok.
  - by apply ok_signal.
  - unfold complete_workflow, forget. cbv zeta.
    pose proof (ok_update e key _ He (fun c => with_status_inv c Completed (Some (instant ck)) res)).
    eauto 12 with engine_ok.
  - unfold fail_workflow, forget. cbv zeta.
    pose proof (ok_update e key _ He (fun c => with_status_inv c Failed (Some (instant ck)) (result_data c))).
    eauto 12 with engine_ok.
  - by apply ok_cancel.
  - by apply ok_terminate.
Qed.

Lemma ok_continue e key input ck : engine_ok e -> engine_ok (continue_as_new e key input ck).1.
Proof.
  intros He. unfold continue_as_new.
  assert (Ht : forall wid ty ns hash total, match pool_with (workflows e) key with
    | Some c => (workflow_id c, workflow_type_id c, namespace_id c, task_queue_hash c, Slab.total_steps (slab c))
    | None => (0, 0, 0, 0, 0) end = (wid, ty, ns, hash, total) -> u32 total).
  { intros wid ty ns hash total. destruct (pool_with (workflows e) key) as [c|] eqn:Hc; intros [= <- <- <- <- <-].
    - by destruct (ok_with e key c He Hc) as [[(_ & _ & _ & _ & _ & Ht & _) _ _ _ _] _].
    - split; done. }
  destruct (match pool_with _ key with Some _ => _ | None => _ end) as [[[[wid ty] ns] hash] total].
  specialize (Ht _ _ _ _ _ eq_refl). destruct (_ && _); [done|]. cbv zeta. cbn [fst].
  pose proof (ok_update e key _ He (fun c => with_status_inv c ContinuedAsNew (Some (instant ck)) (result_data c))).
  assert (Hc : context_inv (with_start (context_new (next_run_id e) (next_run_id e) ty hash total (instant ck)) ns input))
    by (apply started_inv; [apply He|apply He|done]).
  eauto 12 with engine_ok.
Qed.

Lemma ok_purge e key : engine_ok e -> engine_ok (purge_workflow e key).
Proof. intros He. unfold purge_workflow. cbv zeta. eauto with engine_ok. Qed.

(** Updates of a context outside its slab, results and buffers. *)
Lemma context_inv_same c c' :
  context_inv c -> slab c' = slab c -> step_results c' = step_results c -> signal_buffer c' = signal_buffer c ->
  update_buffer c' = update_buffer c -> context_inv c'.
Proof.
  intros [[] Hag] Hs Hr Hb Hu. split; [constructor; congruence|]. intros j Hj. specialize (Hag j Hj).
  unfold is_step_completed, get_step_result in *. by rewrite Hs, Hr.
Qed.

Lemma ok_outside e key f :
  engine_ok e -> (forall c, slab (f c) = slab c /\ step_results (f c) = step_results c /\
                            signal_buffer (f c) = signal_buffer c /\ update_buffer (f c) = update_buffer c) ->
  engine_ok (update_context e key f).
Proof. intros He Hf. apply ok_update; [done|]. intros c Hc. destruct (Hf c) as (?&?&?&?). by apply (context_inv_same c). Qed.

Lemma ok_handle e h ck : engine_ok e -> handler_typed h -> engine_ok (handle e (h, ck)).
Proof.
  intros He Hh.
  destruct h as [o|wid type_id ns hash total input attrs|wid type_id ns hash total input
    |wid type_id ns hash total name payload|parent child_id type_id hash total input|key input|key name
    |key name payload|key name|key step name args sts stc scc hb|key step res|key step|key delay| |key
    |parent policy|key ms| |key|order| |]; cbn [handle].
  - by apply ok_step.
  - apply ok_start; [done|apply Hh..].
  - unfold try_start_workflow. destruct (CircuitBreaker.registry_allow_request _ _ _) as [b []]; [|by apply ok_call, ok_breaker].
    pose proof (ok_start (set_breaker e b) wid type_id ns hash total input ∅ ck (ok_breaker _ _ He) (proj1 Hh) (proj2 Hh)) as Hs.
    unfold start_workflow. by destruct (start_workflow_with_attrs _ _ _ _ _ _ _ _ _).
  - destruct Hh as (Hw & Ht & Hn). unfold signal_with_start. cbv zeta. case_decide; [by apply ok_signal|].
    pose proof (ok_start e wid type_id ns hash total None ∅ ck He Hw Ht) as Hs.
    unfold start_workflow. destruct (start_workflow_with_attrs _ _ _ _ _ _ _ _ _). by apply ok_signal.
  - unfold start_child_workflow.
    pose proof (ok_start e child_id type_id (parent >>> 32) hash total input ∅ ck He (proj1 Hh) (proj2 Hh)) as Hs.
    unfold start_workflow. destruct (start_workflow_with_attrs _ _ _ _ _ _ _ _ _) as [e' child]. cbn [fst] in *.
    apply ok_call, ok_outside; [by apply ok_outside|done].
  - by apply ok_continue.
  - apply ok_update; [done|]. intros c. apply take_signal_inv.
  - unfold update_workflow. cbv zeta. assert (H1 : engine_ok (update_context e key (if_running (fun c => update c name payload)))).
    { apply ok_update; [done|]. intros c Hc. unfold if_running. case_decide; [by apply update_inv|done]. }
    destruct (0 <? _); eauto with engine_ok.
  - apply ok_update; [done|]. intros c. apply take_update_inv.
  - unfold schedule_activity_with_timeouts. destruct (pool_with _ key); [|done]. cbv zeta.
    apply ok_enqueue. by apply ok_outside.
  - by apply (ok_step e (OpStep Plain key step res) ck).
  - unfold fail_activity_with_retry. destruct (pool_with _ key) as [c|]; [|done].
    destruct (SlotMap.slotmap_get _ step) as [t|]; [|done]. destruct (retry_policy t) as [policy|]; [|done].
    destruct (_ <? _); [|done]. cbv zeta. set (e1 := update_context e key _).
    assert (H1 : engine_ok e1) by by apply ok_outside. destruct (_ <? 10); cbn [fst]; eauto with engine_ok.
  - unfold schedule_timer. destruct (Timer.schedule _ _ _ _). by apply ok_timers.
  - unfold timer_tick. destruct (Timer.timer_pass _ _) as [[t fired] rest].
    apply ok_foldl; [intros; by apply ok_history|by apply ok_timers].
  - unfold process_fired_timer. cbv zeta. apply ok_foldl; [intros; by apply ok_enqueue|by apply ok_retries].
  - unfold apply_parent_close_policy. cbv zeta. apply ok_foldl; [|done]. intros e' child He'.
    destruct policy; [by apply ok_terminate|by apply ok_cancel|done].
  - by apply ok_outside.
  - unfold check_workflow_timeouts. cbv zeta. cbn [fst]. apply ok_foldl; [|done]. intros. by apply ok_terminate.
  - by apply ok_purge.
  - unfold purge_completed. cbv zeta. cbn [fst]. apply ok_foldl; [|done]. intros. by apply ok_purge.
  - by apply ok_sync.
  - by apply ok_timers, ok_queue.
Qed.

Lemma ok_new d max_size ck : engine_ok (with_wal d max_size ck).
Proof.
  split; [|split; done]. intros i c. cbn [with_wal set_wal engine_new workflows pool_new contexts].
  intros Hc. by apply lookup_replicate in Hc as [? _].
Qed.

(** C3. In every run of an engine with a fresh pool through any of its handlers except
    [reset_workflow], repeated starts, late signals, purges and new runs included,
    with arguments of the right width and no signal or update named [u64::MAX], every
    workflow that can be looked up has a well-formed slab header whose Merkle root
    verifies, well-formed result, signal and update tables, and a bitmask that agrees
    with the stored results on the 256 steps it can represent. *)
Theorem engine_contexts_stay_wf (hs : list (handler * clock)) (d : disk) (max_size key : Z)
  (ck0 : clock) (c : WorkflowContext)
  (Hhs : Forall (fun hc => handler_typed hc.1) hs)
  (Hc : pool_with (workflows (foldl handle (with_wal d max_size ck0) hs)) key = Some c) :
  context_wf c /\ forall j, 0 <= j < 256 -> is_step_completed c j = SlotMap.is_some (get_step_result c j).
Proof.
  eapply ok_with; [clear Hc|exact Hc]. generalize (ok_new d max_size ck0). generalize (with_wal d max_size ck0).
  induction Hhs as [|[h ck] hs Hh _ IH]; intros e He; [done|]. cbn [foldl]. by apply IH, ok_handle.
Qed.

(** ** Batched fsyncs *)

(** A durable completion of a step of a workflow that is there: what the batch counter counts. *)
Definition counted e (o : engine_op) : bool :=
  match o with OpStep Durable key _ _ => SlotMap.is_some (pool_with (workflows e) key) | _ => false end.

Fixpoint durable_steps e (ops : list (engine_op * clock)) : Z :=
  match ops with
  | [] => 0
  | oc :: ops => Z.b2z (counted e oc.1) + durable_steps (engine_step e oc) ops
  end.

Lemma durable_steps_nonneg ops : forall e, 0 <= durable_steps e ops.
Proof.
  induction ops as [|oc ops IH]; intros e; [done|]. cbn [durable_steps].
  specialize (IH (engine_step e oc)). destruct (counted e oc.1); simpl; lia.
Qed.

Lemma durable_steps_app ops ops' : forall e,
  durable_steps e (ops ++ ops') = durable_steps e ops + durable_steps (foldl engine_step e ops) ops'.
Proof. induction ops as [|oc ops IH]; intros e; [done|]. cbn [app durable_steps foldl]. rewrite IH. lia. Qed.

(** The configuration and the counter. *)
Definition counters e : DurabilityConfig * Z := (durability_config e, steps_since_sync e).

Lemma counters_pair e cfg k : counters e = (cfg, k) -> durability_config e = cfg /\ steps_since_sync e = k.
Proof. intros Heq. split; [exact (f_equal fst Heq)|exact (f_equal snd Heq)]. Qed.

Lemma log_event_counters e ty key data : counters (log_event e ty key data) = counters e.
Proof. unfold log_event. by destruct (wal e). Qed.

Lemma sync_wal_counters e : counters (sync_wal e) = counters e.
Proof. unfold sync_wal. by destruct (wal e). Qed.

Lemma archive_counters e key : counters (maybe_auto_archive e key) = counters e.
Proof.
  unfold maybe_auto_archive. destruct (Archive.should_archive _ _); [|done].
  by destruct (pool_with (workflows e) key).
Qed.

(** Everything but a counted step in batched mode leaves the counter alone. *)
Lemma uncounted_counters e o ck :
  (if counted e o then sync_steps (durability_config e) = 0 else True) ->
  counters (engine_step e (o, ck)) = counters e.
Proof.
  destruct o as [wid ty ns hash total input|[] key step res|key name payload|key res|key|key|key];
    cbn [counted engine_step]; intros Hc.
  - unfold start_workflow, start_workflow_with_attrs. cbv zeta. cbn [fst]. by rewrite log_event_counters.
  - unfold engine_complete_step, apply_step. cbv zeta.
    destruct (pool_with _ key); unfold counters; cbn; apply log_event_counters.
  - unfold complete_step_sync, apply_step. cbv zeta.
    transitivity (counters (sync_wal (log_event e Wal.StepCompleted key (step_wal_data step res))));
      [by destruct (pool_with _ key)|by rewrite sync_wal_counters, log_event_counters].
  - unfold complete_step_durable, complete_step_strict, apply_step. cbv zeta. destruct (Z.eqb_spec (sync_steps (durability_config e)) 0).
    + clear Hc. transitivity (counters (sync_wal (log_event e Wal.StepCompleted key (step_wal_data step res))));
        [by destruct (pool_with _ key); [destruct (direct_execution _)|]|by rewrite sync_wal_counters, log_event_counters].
    + destruct (pool_with (workflows e) key) eqn:Hp; [done|]. unfold update_context. cbn [set_workflows workflows].
      rewrite log_event_workflows, pool_with_mut_same, Hp. cbn. apply log_event_counters.
  - unfold signal_workflow. cbv zeta. destruct (0 <? _); unfold counters; cbn; apply log_event_counters.
  - unfold complete_workflow. cbv zeta. by rewrite archive_counters, log_event_counters.
  - unfold fail_workflow. cbv zeta. by rewrite archive_counters, log_event_counters.
  - unfold cancel_workflow. cbv zeta. by rewrite archive_counters, log_event_counters.
  - unfold terminate_workflow. cbv zeta. by rewrite archive_counters, log_event_counters.
Qed.

(** In strict mode a durable step leaves its record fsynced. *)
Lemma strict_step_wal e o ck m :
  wal e = Some m -> counted e o = true -> sync_steps (durability_config e) = 0 ->
  wal (engine_step e (o, ck)) = Some (wal_sync (append_ignoring m (op_record o))).
Proof.
  intros Hm Hc Hs. destruct o as [|[] key step res| | | | |]; try done.
  cbn [engine_step op_record]. unfold complete_step_durable, complete_step_strict, apply_step. cbv zeta.
  rewrite Hs. change (0 =? 0) with true. cbv iota.
  transitivity (wal (sync_wal (log_event e Wal.StepCompleted key (step_wal_data step res)))).
  - destruct (pool_with _ key); [|done]. by destruct (direct_execution _).
  - unfold sync_wal. by rewrite log_event_wal, Hm.
Qed.

(** In batched mode it is counted, or everything is fsynced and the count starts again. *)
Lemma batched_step e o ck m :
  wal e = Some m -> counted e o = true -> 0 < sync_steps (durability_config e) < 2 ^ 32 ->
  0 <= steps_since_sync e < sync_steps (durability_config e) ->
  (counters (engine_step e (o, ck)) = (durability_config e, steps_since_sync e + 1) /\
   steps_since_sync e + 1 < sync_steps (durability_config e)) \/
  (counters (engine_step e (o, ck)) = (durability_config e, 0) /\
   wal (engine_step e (o, ck)) = Some (wal_sync (append_ignoring m (op_record o)))).
Proof.
  intros Hm Hc HN Hs. destruct o as [|[] key step res| | | | |]; try done. cbn [counted] in Hc.
  destruct (pool_with (workflows e) key) as [c0|] eqn:Hlive; [|done].
  cbn [engine_step op_record]. unfold complete_step_durable. cbv zeta.
  rewrite (proj2 (Z.eqb_neq _ 0)) by lia. unfold apply_step. cbv zeta.
  unfold update_context. cbn [set_workflows workflows]. rewrite log_event_workflows, pool_with_mut_same, Hlive.
  cbn [fmap option_fmap option_map]. set (e1 := call _ _).
  assert (H1 : counters e1 = counters e) by (unfold e1, counters; cbn; apply log_event_counters).
  assert (Hw1 : wal e1 = Some (append_ignoring m (Wal.mkRecord Wal.StepCompleted key (step_wal_data step res)))).
  { unfold e1. cbn [call set_workflows wal]. by rewrite log_event_wal, Hm. }
  assert (H1c : durability_config e1 = durability_config e) by exact (f_equal fst H1).
  assert (H1s : steps_since_sync e1 = steps_since_sync e) by exact (f_equal snd H1).
  clearbody e1.
  assert (Hb : (counters (batch_sync e1 ck) = (durability_config e, steps_since_sync e + 1) /\
                steps_since_sync e + 1 < sync_steps (durability_config e)) \/
    (counters (batch_sync e1 ck) = (durability_config e, 0) /\ wal (batch_sync e1 ck) =
       Some (wal_sync (append_ignoring m (Wal.mkRecord Wal.StepCompleted key (step_wal_data step res)))))).
  { unfold batch_sync. cbv zeta. cbn [set_durability durability_config last_sync_instant].
    rewrite H1c, H1s, (wrap_id 32 (steps_since_sync e + 1)) by ranges.
    destruct (Z.leb_spec (sync_steps (durability_config e)) (steps_since_sync e + 1)) as [Hge|Hlt]; cbn [orb];
      [right|destruct (_ <=? _); [right|left; done]];
      unfold sync_wal; cbn [set_durability wal]; rewrite Hw1; (split; [|done]);
      unfold counters; cbn; by rewrite ?H1c. }
  by destruct (direct_execution _).
Qed.

(** The log of the run so far, and the operations whose records may be lost: as many as the log
    counts as unsynced, with no more durable steps among them than the batch counter. *)
Definition batch_inv (max_size : Z) (e0 : WorkflowEngine) (ops : list (engine_op * clock)) : Prop :=
  let e := foldl engine_step e0 ops in
  exists m cur old kept lost,
    wal e = Some m /\ log_state max_size WAL_RETAIN m (op_records ops) cur old /\
    durability_config e = durability_config e0 /\
    0 <= steps_since_sync e < Z.max 1 (sync_steps (durability_config e0)) /\
    ops = kept ++ lost /\ Z.of_nat (length lost) = unsynced_count m /\
    durable_steps (foldl engine_step e0 kept) lost <= steps_since_sync e.

Lemma batch_inv_step max_size e0 ops o ck :
  u32 (sync_steps (durability_config e0)) -> Z.of_nat (length ops) + 1 < 2 ^ 64 -> Wal.record_wf (op_record o) ->
  batch_inv max_size e0 ops -> batch_inv max_size e0 (ops ++ [(o, ck)]).
Proof.
  intros Hu Hlen Hr (m & cur & old & kept & lost & Hm & Hl & Hcfg & Hs & Hops & Hlost & Hd).
  unfold batch_inv. rewrite foldl_snoc. set (e := foldl engine_step e0 ops) in *. cbv zeta.
  assert (Hrs : op_records (ops ++ [(o, ck)]) = op_records ops ++ [op_record o]) by (unfold op_records; by rewrite map_app).
  assert (Hlen' : Z.of_nat (length (op_records ops)) + 1 < 2 ^ 64) by (unfold op_records; rewrite length_map; done).
  destruct (log_state_append _ _ _ _ _ _ _ Hl Hr Hlen') as (m1 & cur1 & old1 & Happ & Hl1 & Hun).
  assert (Hai : append_ignoring m (op_record o) = m1) by (unfold append_ignoring; by rewrite Happ).
  pose proof (wal_sync_durable m1 cur1 old1 (ls_inv _ _ _ _ _ _ Hl1) (ls_durable _ _ _ _ _ _ Hl1)) as (_ & Hun0 & _).
  rewrite Hrs. destruct (engine_step_wal e o ck m Hm) as (m' & Hm' & Hlog). unfold logged in Hlog. rewrite Hai in Hlog.
  assert (Hsynced : wal (engine_step e (o, ck)) = Some (wal_sync m1) -> forall k,
    counters (engine_step e (o, ck)) = (durability_config e0, k) ->
    0 <= k < Z.max 1 (sync_steps (durability_config e0)) -> batch_inv max_size e0 (ops ++ [(o, ck)])).
  { intros Hw k Hk Hk'. apply counters_pair in Hk as [Hk1 Hk2]. unfold batch_inv. rewrite foldl_snoc. fold e. cbv zeta.
    exists (wal_sync m1), cur1, old1, (ops ++ [(o, ck)]), []. rewrite Hrs, Hk1, Hk2, Hun0, app_nil_r.
    cbn [durable_steps length]. split_and!; try (done || lia). by apply log_state_sync. }
  unfold batch_inv in Hsynced. rewrite foldl_snoc, Hrs in Hsynced. fold e in Hsynced. cbv zeta in Hsynced.
  assert (Hkeep : forall k, counters (engine_step e (o, ck)) = (durability_config e0, k) ->
    0 <= k < Z.max 1 (sync_steps (durability_config e0)) -> steps_since_sync e + Z.b2z (counted e o) <= k ->
    m' = m1 -> exists m cur old kept lost,
    wal (engine_step e (o, ck)) = Some m /\ log_state max_size WAL_RETAIN m (op_records ops ++ [op_record o]) cur old /\
    durability_config (engine_step e (o, ck)) = durability_config e0 /\
    0 <= steps_since_sync (engine_step e (o, ck)) < Z.max 1 (sync_steps (durability_config e0)) /\
    ops ++ [(o, ck)] = kept ++ lost /\ Z.of_nat (length lost) = unsynced_count m /\
    durable_steps (foldl engine_step e0 kept) lost <= steps_since_sync (engine_step e (o, ck))).
  { intros k Hk Hk' Hle ->. apply counters_pair in Hk as [-> ->]. exists m1, cur1, old1. destruct Hun as [Hz|Hz]; rewrite Hz.
    - exists (ops ++ [(o, ck)]), []. rewrite app_nil_r. cbn [durable_steps length]. split_and!; (done || lia).
    - exists kept, (lost ++ [(o, ck)]). rewrite Hops at 2. rewrite app_assoc, length_app, durable_steps_app.
      rewrite <- foldl_app, <- Hops. fold e. cbn [durable_steps length fst]. split_and!; (done || lia). }
  destruct (counted e o) eqn:Hc.
  - destruct (decide (sync_steps (durability_config e) = 0)) as [H0|H0].
    + apply Hsynced with (steps_since_sync e); [by rewrite (strict_step_wal e o ck m), Hai| |done].
      rewrite uncounted_counters by by rewrite Hc. unfold counters. by rewrite Hcfg.
    + rewrite Hcfg in H0. pose proof (batched_step e o ck m Hm Hc) as Hb. rewrite Hcfg in Hb.
      destruct Hb as [[Hk Hlt]|[Hk Hw]]; [ranges|ranges|..].
      * destruct Hlog as [->| ->]; [apply Hkeep with (steps_since_sync e + 1); [done|lia|simpl; lia|done]|].
        by apply Hsynced with (steps_since_sync e + 1); [|done|lia].
      * rewrite Hai in Hw. by apply Hsynced with 0; [done|done|lia].
  - assert (Hk : counters (engine_step e (o, ck)) = (durability_config e0, steps_since_sync e)).
    { rewrite uncounted_counters by by rewrite Hc. unfold counters. by rewrite Hcfg. }
    destruct Hlog as [->| ->]; [apply Hkeep with (steps_since_sync e); [done|done|simpl; lia|done]|].
    by apply Hsynced with (steps_since_sync e).
Qed.

Lemma batch_inv_run max_size e0 ops ops' :
  u32 (sync_steps (durability_config e0)) -> Z.of_nat (length (ops ++ ops')) < 2 ^ 64 ->
  Forall Wal.record_wf (op_records ops') ->
  batch_inv max_size e0 ops -> batch_inv max_size e0 (ops ++ ops').
Proof.
  intros Hu. revert ops. induction ops' as [|[o ck] ops' IH]; intros ops Hlen Hwf Hinv; [by rewrite app_nil_r|].
  apply Forall_cons in Hwf as [Hr Hwf]. rewrite length_app in Hlen. cbn [length] in Hlen.
  rewrite cons_middle, app_assoc. apply IH; [rewrite !length_app; simpl; lia|done|].
  apply batch_inv_step; [done|lia|done|done].
Qed.

(** C31. What a crash can lose under the durability configuration.  Run any operations, in any
    mixture of modes, on an engine with a fresh log, and crash at any point without a final
    fsync.  If the records fit the retained files, the log replays the records of the run up to
    some operation, and among the operations after it there are fewer than [sync_steps] durable
    step completions of workflows that are there (none in strict mode, where [sync_steps] is
    0); or the crash tore the last record or the header, and the replay fails with
    [UnexpectedEof]. *)
Theorem batched_loss_bounded (max_size : Z) (cfg : DurabilityConfig) (ops : list (engine_op * clock))
  (ck0 : clock) (d' : disk)
  (Hcfg : u32 (sync_steps cfg))
  (Hwf : Forall Wal.record_wf (op_records ops))
  (Hlen : Z.of_nat (length ops) < 2 ^ 64)
  (Hsize : 7 < max_size)
  (Hfit : payload (op_records ops) < (Z.of_nat WAL_RETAIN + 1) * (max_size - 7))
  (Hcrash : crash (engine_disk (foldl engine_step (with_durability_config (with_wal ∅ max_size ck0) cfg ck0) ops)) d') :
  let e0 := with_durability_config (with_wal ∅ max_size ck0) cfg ck0 in
  (exists kept lost, ops = kept ++ lost /\
     replay_all (wal_manager_new d' max_size WAL_RETAIN) = Ok (op_records kept) /\
     durable_steps (foldl engine_step e0 kept) lost < Z.max 1 (sync_steps cfg)) \/
  (torn d' /\ replay_all (wal_manager_new d' max_size WAL_RETAIN) = Err Wal.UnexpectedEof).
Proof.
  intros e0. assert (Hinv : batch_inv max_size e0 []).
  { eexists _, [], [], [], []. split; [done|]. split; [apply log_state_new|].
    unfold e0. cbn. split_and!; (done || lia). }
  apply (batch_inv_run max_size e0 [] ops Hcfg Hlen Hwf) in Hinv.
  destruct Hinv as (m & cur & old & kept & lost & Hm & Hl & _ & Hs & Hops & Hlost & Hd). cbn [app] in *.
  unfold engine_disk in Hcrash. fold e0 in Hcrash. rewrite Hm in Hcrash.
  destruct (crash_reopen _ _ _ _ _ _ _ Hl Hcrash) as [(n & Hn & Hinv')|(Ht & Herr & _)]; [left|by right].
  pose proof (log_state_split _ _ _ _ _ _ Hl) as Hsplit.
  set (k := (length (concat (rev old)) + n)%nat).
  assert (Hk : concat (rev (take n cur :: old)) = take k (op_records ops)).
  { unfold k. rewrite Hsplit, take_app_add'; [|done]. simpl. rewrite concat_app. simpl. by rewrite app_nil_r. }
  assert (Hle : (length kept <= k)%nat).
  { apply (f_equal length) in Hops, Hsplit. unfold op_records in Hsplit.
    rewrite length_map, length_app in *. unfold k, synced in *. lia. }
  exists (take k ops), (drop k ops). split_and!.
  - by rewrite take_drop.
  - assert (Hkr : op_records (take k ops) = take k (op_records ops)) by (symmetry; apply firstn_map).
    rewrite Hkr, <- Hk. apply (segments_replay max_size); [done..|]. rewrite Hk. unfold payload in *.
    pose proof (Wal.flat_map_take_le k (op_records ops)). cbn [retain_count wal_manager_new]. lia.
  - rewrite <- (take_drop (k - length kept) lost), durable_steps_app in Hd.
    pose proof (durable_steps_nonneg (take (k - length kept) lost) (foldl engine_step e0 kept)) as Hnn.
    rewrite <- foldl_app in Hd. rewrite Hops, take_app_ge, drop_app_ge by done. cbn in Hs. lia.
Qed.

(** ** Retries *)

(** The state of one activity of one workflow. *)
Definition activity_state e key (step : Z) (t : ActivityTimeouts) : Prop :=
  exists c, pool_with (workflows e) key = Some c /\ SlotMap.slotmap_wf (activity_timeouts c) /\
            SlotMap.slotmap_get (activity_timeouts c) step = Some t.

Fixpoint fail_times e key (step : Z) (cks : list clock) : list bool :=
  match cks with
  | [] => []
  | ck :: cks => let '(e', b) := fail_activity_with_retry e key step ck in b :: fail_times e' key step cks
  end.

Lemma fail_activity_retried e key step t policy ck :
  activity_state e key step t -> retry_policy t = Some policy -> attempt t < max_attempts policy ->
  0 <= attempt t -> u32 (max_attempts policy) ->
  (fail_activity_with_retry e key step ck).2 = true /\
  activity_state (fail_activity_with_retry e key step ck).1 key step (with_attempt t (attempt t + 1)).
Proof.
  intros (c & Hc & Hwf & Hget) Hpol Hlt H0 Hmax. unfold fail_activity_with_retry.
  rewrite Hc, Hget, Hpol, (proj2 (Z.ltb_lt _ _)), (wrap_id 32 (attempt t + 1)) by (done || ranges). cbv zeta.
  set (f := fun c => with_activities c _ (activity_inputs c)).
  assert (Hst : exists c', pool_with (pool_with_mut (workflows e) key f) key = Some c' /\
    SlotMap.slotmap_wf (activity_timeouts c') /\
    SlotMap.slotmap_get (activity_timeouts c') step = Some (with_attempt t (attempt t + 1))).
  { exists (f c). rewrite pool_with_mut_same, Hc. split; [done|]. unfold f. cbn [with_activities activity_timeouts].
    rewrite SlotMap.slotmap_get_lookup in Hget by done. split.
    - exact (proj1 (SlotMap.slotmap_get_mut_map (activity_timeouts c) step _ Hwf)).
    - rewrite SlotMap.slotmap_get_lookup by exact (proj1 (SlotMap.slotmap_get_mut_map (activity_timeouts c) step _ Hwf)).
      rewrite (proj2 (SlotMap.slotmap_get_mut_map (activity_timeouts c) step _ Hwf)).
      by rewrite lookup_alter_eq, Hget. }
  destruct (_ <? 10); cbn [fst snd]; (split; [done|exact Hst]).
Qed.

Lemma fail_activity_exhausted e key step t policy ck :
  activity_state e key step t -> retry_policy t = Some policy -> max_attempts policy <= attempt t ->
  fail_activity_with_retry e key step ck = (e, false).
Proof.
  intros (c & Hc & _ & Hget) Hpol Hge. unfold fail_activity_with_retry.
  by rewrite Hc, Hget, Hpol, (proj2 (Z.ltb_ge _ _)).
Qed.

(** An activity with a retry policy is retried until its attempts are used
    up and never again: of [n] consecutive failures exactly the first
    [max_attempts - attempt] are retried. *)
Theorem activity_retries_bounded (e : WorkflowEngine) (key step : Z) (t : ActivityTimeouts)
  (policy : ActivityRetryPolicy) (cks : list clock)
  (Ht : activity_state e key step t) (Hpol : retry_policy t = Some policy)
  (Hatt : 0 <= attempt t) (Hmax : u32 (max_attempts policy)) :
  let k := Nat.min (length cks) (Z.to_nat (max_attempts policy - attempt t)) in
  fail_times e key step cks = replicate k true ++ replicate (length cks - k) false.
Proof.
  cbv zeta. revert e t Ht Hpol Hatt. induction cks as [|ck cks IH]; intros e t Ht Hpol Hatt; [done|].
  cbn [fail_times length]. destruct (decide (attempt t < max_attempts policy)).
  - destruct (fail_activity_retried e key step t policy ck) as [Hb Hst]; [done..|].
    destruct (fail_activity_with_retry e key step ck) as [e' b]. cbn [fst snd] in Hb, Hst. subst b.
    rewrite (IH e' _ Hst Hpol) by (cbn; lia). cbn [with_attempt attempt].
    replace (Z.to_nat (max_attempts policy - attempt t)) with
      (S (Z.to_nat (max_attempts policy - (attempt t + 1)))) by lia.
    cbn [Nat.min replicate app Nat.sub]. done.
  - rewrite (fail_activity_exhausted e key step t policy ck) by (done || lia).
    rewrite (IH e t) by done. replace (Z.to_nat (max_attempts policy - attempt t)) with O by lia.
    rewrite !Nat.min_0_r. cbn [replicate app Nat.sub]. by rewrite Nat.sub_0_r.
Qed.

(** ** Reset *)

Lemma clear_steps_wf (m : Bitmask.Bitmask256) (ss : list Z) :
  Bitmask.bitmask_wf m -> Forall (fun s => 0 <= s) ss ->
  Bitmask.bitmask_wf (foldl (fun m s => (Bitmask.clear_step m s).1) m ss).
Proof.
  revert m. induction ss as [|s ss IH]; intros m Hm Hss; [done|]. apply Forall_cons in Hss as [Hs Hss].
  cbn [foldl]. apply IH; [|done]. destruct (decide (s < 256)).
  - apply (Bitmask.clear_step_spec m s 0); (done || lia).
  - unfold Bitmask.clear_step. by rewrite (proj2 (Z.leb_le _ _)) by lia.
Qed.

Lemma clear_steps_cleared (ss : list Z) (j : Z) : forall m,
  Bitmask.bitmask_wf m -> Forall (fun s => 0 <= s) ss -> 0 <= j < 256 ->
  (j ∈ ss \/ Bitmask.is_step_set m j = false) ->
  Bitmask.is_step_set (foldl (fun m s => (Bitmask.clear_step m s).1) m ss) j = false.
Proof.
  induction ss as [|s ss IH]; intros m Hm Hss Hj Hor.
  { destruct Hor as [Hin|?]; [by apply elem_of_nil in Hin|done]. }
  apply Forall_cons in Hss as [Hs Hss]. cbn [foldl]. destruct (decide (s < 256)).
  - destruct (Bitmask.clear_step_spec m s j) as [Hm' Hset]; [done|lia|done|].
    apply IH; [done|done|done|]. rewrite Hset, elem_of_cons in *.
    destruct Hor as [[->|?]|Hf]; [right; by rewrite bool_decide_eq_true_2|by left|].
    right. by rewrite Hf, andb_false_r.
  - unfold Bitmask.clear_step. rewrite (proj2 (Z.leb_le _ _)) by lia. cbn [fst].
    apply IH; [done|done|done|]. rewrite elem_of_cons in Hor. destruct Hor as [[->|?]|?]; [lia|by left|by right].
Qed.

(** Resetting a workflow invalidates its slab: once a completed step at or
    after the reset point is cleared from the bitmask, the Merkle root, which is not
    recomputed, no longer verifies, unless the hash has a collision on the two
    headers. *)
Theorem reset_breaks_merkle_root (c : WorkflowContext) (event_id s : Z)
  (Hwf : context_wf c) (Hev : 0 <= event_id <= s) (Hs : s < 256) (Hst : s < Slab.total_steps (slab c))
  (Hdone : is_step_completed c s = true)
  (Hcf : collision_free [Slab.slab_preimage (slab c); Slab.slab_preimage (slab (reset_context event_id c))]) :
  is_step_completed (reset_context event_id c) s = false /\
  Slab.verify_merkle_root (slab (reset_context event_id c)) = false.
Proof.
  destruct Hwf as [Hsl Hroot _ _ _]. set (c' := reset_context event_id c).
  set (ss := seqZ event_id (Slab.total_steps (slab c) - event_id)).
  assert (Hss : Forall (fun s => 0 <= s) ss).
  { apply Forall_forall. intros x Hx. apply elem_of_seqZ in Hx. lia. }
  pose proof Hsl as (Ha & Hb & Hc & Hd & He & Hf & Hg & Hm & Hi).
  assert (Hclr : is_step_completed c' s = false).
  { apply clear_steps_cleared; [done|done|lia|]. left. apply elem_of_seqZ. lia. }
  split; [done|]. unfold Slab.verify_merkle_root in *. apply bool_decide_eq_false. intros Heq.
  apply bool_decide_eq_true in Hroot.
  assert (Hsl' : Slab.slab_wf (slab c')).
  { unfold Slab.slab_wf, c', reset_context, with_status, with_progress, with_bitmask. cbn [slab]. cbn.
    split_and!; try done. by apply clear_steps_wf. }
  assert (Hpre : Slab.slab_preimage (slab c) = Slab.slab_preimage (slab c')).
  { apply (collision_free_eq _ _ _ Hcf); [set_solver|set_solver|]. rewrite <- Heq, <- Hroot. done. }
  pose proof (Slab.slab_preimage_inj _ _ Hsl Hsl' Hpre) as Hinj.
  unfold is_step_completed in Hdone, Hclr. rewrite Hinj in Hclr. cbn in Hclr. congruence.
Qed.

(** ** What the history does not record *)

Lemma log_event_history e ty key data : history_store (log_event e ty key data) = history_store e.
Proof. unfold log_event. by destruct (wal e). Qed.

Lemma sync_wal_history e : history_store (sync_wal e) = history_store e.
Proof. unfold sync_wal. by destruct (wal e). Qed.

Lemma batch_sync_history e ck : history_store (batch_sync e ck) = history_store e.
Proof.
  unfold batch_sync. cbv zeta. destruct (_ || _); [|done].
  cbn [set_durability history_store]. by rewrite sync_wal_history.
Qed.

(** Step completions, in all three modes, and signals leave the
    event histories unchanged, so replaying the history of a workflow that was not
    restarted yields none of its step results or signals. *)
Theorem steps_not_in_history (e : WorkflowEngine) (mode : step_mode) (key step name : Z)
  (res payload : bytes) (ck : clock) :
  history_store (engine_step e (OpStep mode key step res, ck)) = history_store e /\
  history_store (engine_step e (OpSignal key name payload, ck)) = history_store e.
Proof.
  split; cbn [engine_step].
  - destruct mode; [unfold engine_complete_step|unfold complete_step_sync|unfold complete_step_durable, complete_step_strict];
      unfold apply_step; cbv zeta.
    + destruct (pool_with _ key); cbn; apply log_event_history.
    + destruct (pool_with _ key); cbn; by rewrite sync_wal_history, log_event_history.
    + destruct (_ =? 0).
      * destruct (pool_with _ key); [destruct (direct_execution _)|]; cbn; by rewrite sync_wal_history, log_event_history.
      * destruct (pool_with _ key); [|cbn; apply log_event_history].
        cbn beta iota. destruct (direct_execution _);
          cbn [next_step_task enqueue_task set_task_queue history_store]; rewrite batch_sync_history;
          cbn [call update_context set_workflows history_store]; by rewrite log_event_history.
  - unfold signal_workflow. cbv zeta. destruct (0 <? _); cbn; apply log_event_history.
Qed.

(** ** What recovery does not restore *)

Definition no_clock : clock := mkClock 0 0.

(** A run of steps and operations, and the engine recovered from its log. *)
Definition run (ops : list engine_op) : WorkflowEngine :=
  foldl engine_step (with_wal ∅ 100000 no_clock) (map (fun o => (o, no_clock)) ops).

Definition recovered e : option WorkflowEngine :=
  match recover_from_wal (with_wal (engine_disk e) 100000 no_clock) no_clock with
  | Ok (e', _) => Some e'
  | Err _ => None
  end.

(** A workflow id that is started again is not recovered: recovery
    keeps the context of the first run, so the running second run comes back as
    completed, with the step results of the first. *)
Theorem restart_is_not_recovered :
  let e := run [OpStart 1 2 0 9 3 None; OpStep Plain 1 0 [5]; OpComplete 1 None; OpStart 1 2 0 9 3 None] in
  get_status e 1 = Running /\ engine_get_step_result e 1 0 = None /\
  ((fun e' => (get_status e' 1, engine_get_step_result e' 1 0)) <$> recovered e) = Some (Completed, Some [5]).
Proof. vm_compute. split_and!; reflexivity. Qed.

(** A signal to a closed workflow is not delivered, but it is logged: recovery delivers it. *)
Theorem late_signal_recovered :
  let e := run [OpStart 1 2 0 9 3 None; OpComplete 1 None; OpSignal 1 4 [7]] in
  engine_has_signal e 1 4 = false /\ get_event_sequence e 1 = 0 /\
  ((fun e' => (get_status e' 1, engine_has_signal e' 1 4, get_event_sequence e' 1)) <$> recovered e) =
    Some (Completed, true, 1).
Proof. vm_compute. split_and!; reflexivity. Qed.

(** Resets, updates, taken signals, purges and new runs are not in the
    log, so recovery undoes them: the steps cleared by a reset are completed again,
    an update is lost, a taken signal is delivered again, a purged workflow is back
    and the new run of a continued workflow is gone. *)
Theorem unlogged_operations_are_undone :
  let e := run [OpStart 1 2 0 9 3 None; OpStep Plain 1 0 [5]; OpSignal 1 4 [7]] in
  let reset := (reset_workflow e 1 0).1 in
  let updated := update_workflow e 1 6 [8] no_clock in
  let taken := (engine_take_signal e 1 4).1 in
  let purged := purge_workflow e 1 in
  let '(continued, new_key) := continue_as_new e 1 None no_clock in
  (engine_is_step_completed reset 1 0 = false /\
   (fun e => engine_is_step_completed e 1 0) <$> recovered reset = Some true) /\
  (engine_has_update updated 1 6 = true /\ (fun e => engine_has_update e 1 6) <$> recovered updated = Some false) /\
  (engine_has_signal taken 1 4 = false /\ (fun e => engine_has_signal e 1 4) <$> recovered taken = Some true) /\
  (get_status purged 1 = Void /\ (fun e => get_status e 1) <$> recovered purged = Some Running) /\
  (get_status continued new_key = Running /\
   (fun e => (get_status e 1, get_status e new_key)) <$> recovered continued = Some (Running, Void)).
Proof. vm_compute. split_and!; reflexivity. Qed.

(** Continuing as new takes the run id as the new workflow id, which can
    be the id of a workflow that is running: that workflow is replaced, its
    completed steps are lost. *)
Theorem continue_as_new_replaces_running_workflow :
  let e := run [OpStart 3 2 0 9 5 None; OpStep Plain 3 0 [1]; OpStart 7 2 0 9 5 None] in
  let '(e', new_key) := continue_as_new e 7 None no_clock in
  get_status e 3 = Running /\ engine_is_step_completed e 3 0 = true /\
  new_key = 3 /\ engine_is_step_completed e' 3 0 = false /\ pool_len (workflows e') = 2.
Proof. vm_compute. split_and!; reflexivity. Qed.

End props.

(** ** Witnesses *)

#[local] Existing Instance example_sha.

(** A workflow with a child, an update that is taken, a timer and a new run of the child. *)
Definition example_handlers : list (handler * clock) :=
  [(HLogged (OpStart 1 2 0 9 3 None), example_clock); (HChild 1 5 2 9 4 None, example_clock);
   (HLogged (OpStep Durable 1 0 [5]), example_clock); (HUpdate 1 6 [8], example_clock);
   (HTakeUpdate 1 6, example_clock); (HTimer 1 10, example_clock); (HContinue 5 None, example_clock);
   (HPurge 5, example_clock)].

Lemma engine_contexts_stay_wf_witness :
  exists c, pool_with (workflows (foldl handle (with_wal ∅ 1000 example_clock) example_handlers)) 1 = Some c /\
    Slab.verify_merkle_root (slab c) = true.
Proof.
  assert (Hhs : Forall (fun hc => handler_typed hc.1) example_handlers)
    by (repeat (constructor; [cbn [handler_typed fst]; try exact I; repeat split; vm_compute; congruence|]); constructor).
  destruct (pool_with (workflows (foldl handle (with_wal ∅ 1000 example_clock) example_handlers)) 1) as [c|] eqn:Hc.
  - exists c. split; [reflexivity|].
    exact (wf_root _ (proj1 (engine_contexts_stay_wf example_handlers ∅ 1000 1 example_clock c Hhs Hc))).
  - vm_compute in Hc. discriminate.
Defined.

Definition example_batched : WorkflowEngine :=
  with_durability_config
    (sync_wal (foldl engine_step (with_wal ∅ 1000 example_clock) [(OpStart 1 2 0 9 3 None, example_clock)]))
    (batched 2 1000) example_clock.

(** Three durable steps in batches of two, and a crash that leaves the disk as it is. *)
Definition example_batch : list (engine_op * clock) :=
  [(OpStart 1 2 0 9 3 None, example_clock); (OpStep Durable 1 0 [5], example_clock);
   (OpStep Durable 1 1 [6], example_clock); (OpStep Durable 1 2 [7], example_clock)].

Lemma batched_loss_bounded_witness :
  let e0 := with_durability_config (with_wal ∅ 1000 example_clock) (batched 2 1000) example_clock in
  exists kept lost, example_batch = kept ++ lost /\
    replay_all (wal_manager_new (engine_disk (foldl engine_step e0 example_batch)) 1000 WAL_RETAIN) =
      Ok (op_records kept) /\
    durable_steps (foldl engine_step e0 kept) lost < 2.
Proof.
  intros e0. set (d := engine_disk (foldl engine_step e0 example_batch)).
  assert (Hd : crash d d).
  { apply crash_refl, (proj1 (bool_decide_eq_true _)). vm_compute. reflexivity. }
  assert (Hwf : Forall Wal.record_wf (op_records example_batch)).
  { apply (proj1 (bool_decide_eq_true _)). vm_compute. reflexivity. }
  destruct (batched_loss_bounded 1000 (batched 2 1000) example_batch example_clock d
    ltac:(split; vm_compute; congruence) Hwf ltac:(vm_compute; reflexivity) ltac:(vm_compute; reflexivity)
    ltac:(vm_compute; reflexivity) Hd) as [Hk|[_ Herr]]; [exact Hk|].
  vm_compute in Herr. discriminate.
Defined.

(** An activity of workflow 1 with three attempts and a one-millisecond backoff. *)
Definition example_retry : ActivityTimeouts :=
  with_retry_policy (timeouts_new None None None None 0) (retry_policy_new 3 1 (u64_as_f64 1)).

Definition example_activity : WorkflowEngine :=
  update_context example_batched 1 (fun c =>
    with_activities c (SlotMap.slotmap_insert (activity_timeouts c) 0 example_retry) (activity_inputs c)).

Lemma activity_retries_bounded_witness :
  fail_times example_activity 1 0 [example_clock; example_clock; example_clock; example_clock] =
  [true; true; false; false].
Proof.
  assert (Ht : activity_state example_activity 1 0 example_retry).
  { destruct (pool_with (workflows example_batched) 1) as [c|] eqn:Hc; [|vm_compute in Hc; discriminate].
    exists (with_activities c (SlotMap.slotmap_insert (activity_timeouts c) 0 example_retry) (activity_inputs c)).
    split; [unfold example_activity, update_context; cbn [set_workflows workflows];
            rewrite pool_with_mut_same, Hc; reflexivity|].
    assert (Hwf : SlotMap.slotmap_wf (activity_timeouts c)).
    { vm_compute in Hc. injection Hc as <-. apply (SlotMap.slotmap_with_capacity_wf 16). }
    destruct (SlotMap.slotmap_insert_map (activity_timeouts c) 0 example_retry Hwf) as [Hwf' Hmap].
    cbn [with_activities activity_timeouts]. split; [exact Hwf'|].
    rewrite SlotMap.slotmap_get_lookup, Hmap by exact Hwf'. apply lookup_insert_eq. }
  exact (activity_retries_bounded example_activity 1 0 example_retry (retry_policy_new 3 1 (u64_as_f64 1))
    [example_clock; example_clock; example_clock; example_clock] Ht eq_refl ltac:(vm_compute; discriminate)
    ltac:(split; vm_compute; congruence)).
Defined.

Lemma reset_breaks_merkle_root_witness :
  let c := complete_step (context_new 1 1 2 9 3 0) 1 [5] in
  Slab.verify_merkle_root (slab c) = true /\ Slab.verify_merkle_root (slab (reset_context 0 c)) = false.
Proof.
  intros c. assert (Hwf : context_wf c).
  { apply complete_step_wf; [done|]. apply context_new_wf; done. }
  split; [exact (wf_root _ Hwf)|].
  refine (proj2 (reset_breaks_merkle_root c 0 1 Hwf _ _ _ _ _)).
  - done.
  - done.
  - vm_compute. reflexivity.
  - vm_compute. reflexivity.
  - repeat constructor; intros Heq; first [reflexivity|vm_compute in Heq; discriminate].
Defined.

End EngineProps.
