(* ===== verification/SearchQuery.v ===== *)
(** * Search queries ([velocity-workflow-engine/src/search_query.rs])

    The SQL-like query language of visibility searches: the tokenizer, the
    recursive-descent parser and the printer ([Display]).  Parsing a printed
    expression gives the expression back; the parser terminates on every input; the
    one input shape on which it panics is a query that ends in [LIKE]. *)

From Stdlib Require Import SpecFloat.
From S2P Require Import Prelude Text.

Module SearchQuery.

Abbreviation f64 := spec_float.

Inductive CompareOp : Type := OpEq | OpNe | OpLt | OpGt | OpLe | OpGe.

Inductive QueryValue : Type :=
| VString (s : string)
| VInteger (i : Z)
| VDouble (d : f64)
| VBool (b : bool)
| VNull.

Inductive QueryExpr : Type :=
| Comparison (field : string) (op : CompareOp) (value : QueryValue)
| And (l r : QueryExpr)
| Or (l r : QueryExpr)
| Not (e : QueryExpr)
| Between (field : string) (low high : QueryValue)
| In_ (field : string) (values : list QueryValue)
| Like (field pattern : string)
| IsNull (field : string)
| IsNotNull (field : string).

Inductive Token : Type :=
| TIdent (s : string)
| TStringLit (s : string)
| TIntLit (i : Z)
| TFloatLit (d : f64)
| TEq | TNe | TLt | TGt | TLe | TGe
| TLParen | TRParen | TComma
| TAnd | TOr | TNot | TBetween | TIn | TLike | TIs | TNull | TTrue | TFalse.

(** Where the source formats a token with [Debug] into the message, the token itself is kept. *)
Inductive QueryError : Type :=
| EmptyQuery
| UnexpectedChar (c : ascii) (pos : nat)
| UnterminatedString
| InvalidNumber (s : string)
| UnexpectedToken (t : Token) (pos : nat)
| UnexpectedEnd
| MissingRParen
| ExpectedField (t : Token)
| ExpectedOperator (t : Token)
| ExpectedValue (t : Token)
| ExpectedAnd
| ExpectedLParen
| ExpectedRParen
| ExpectedString
| ExpectedNull
| ExpectedNullOrNot.

(** How a parse can end without a value: an error, an out-of-bounds index ([self.tokens[pos]]
    without a check), or the fuel of the model used up, which never happens. *)
Inductive stop : Type :=
| Failed (e : QueryError)
| IndexPanic
| OutOfFuel.

Abbreviation parse A := (result A stop).

(** ** Tokenizer *)

(** [str::parse::<f64>] of [-]digits[.digits]: the decimal fraction, rounded once to binary64. *)
Definition f64_of_decimal (neg : bool) (m : Z) (scale : nat) : f64 :=
  match m with
  | Zpos p =>
      let '(q, e, l) := SFdiv_core_binary 53 1024 (Zpos p) 0 (10 ^ Z.of_nat scale) 0 in
      binary_round_aux 53 1024 neg q e l
  | _ => S754_zero neg
  end.

Definition parse_f64 (whole frac : chars) : option f64 :=
  let '(neg, ds) := match whole with
                    | c :: r => if code c =? 45 then (true, r) else (false, whole)
                    | [] => (false, [])
                    end in
  match ds ++ frac with
  | [] => None
  | all => Some (f64_of_decimal neg (digits_val all) (length frac))
  end.

(** [read_string] after the opening quote: a backslash takes the next character literally. *)
Fixpoint read_string (pos : nat) (l : chars) : parse (chars * nat * chars) :=
  match l with
  | [] => Err (Failed UnterminatedString)
  | c :: l =>
      if code c =? 39 then Ok ([], S pos, l)
      else
        match l with
        | d :: l' =>
            if code c =? 92 then
              let? (s, pos, rest) := read_string (S (S pos)) l' in Ok (d :: s, pos, rest)
            else let? (s, pos, rest) := read_string (S pos) l in Ok (c :: s, pos, rest)
        | [] => Err (Failed UnterminatedString)
        end
  end.

(** The optional minus sign. *)
Definition split_sign (l : chars) : chars * chars :=
  match l with
  | c :: r => if code c =? 45 then ([c], r) else ([], l)
  | [] => ([], [])
  end.

(** [read_number]: the token and the number of characters taken. *)
Definition read_number (l : chars) : parse (Token * chars) :=
  let '(sign, l1) := split_sign l in
  let ds := take_while is_ascii_digit l1 in
  let l2 := drop_while is_ascii_digit l1 in
  match l2 with
  | c :: l3 =>
      if code c =? 46 then
        let fs := take_while is_ascii_digit l3 in
        match parse_f64 (sign ++ ds) fs with
        | Some d => Ok (TFloatLit d, drop_while is_ascii_digit l3)
        | None => Err (Failed (InvalidNumber (to_string (sign ++ ds ++ c :: fs))))
        end
      else match parse_i64 (sign ++ ds) with
           | Some i => Ok (TIntLit i, l2)
           | None => Err (Failed (InvalidNumber (to_string (sign ++ ds))))
           end
  | [] => match parse_i64 (sign ++ ds) with
          | Some i => Ok (TIntLit i, l2)
          | None => Err (Failed (InvalidNumber (to_string (sign ++ ds))))
          end
  end.

Definition is_word_start (c : ascii) : bool := is_ascii_alphabetic c || (code c =? 95).
Definition is_word_char (c : ascii) : bool := is_ascii_alphanumeric c || (code c =? 95).

Definition upper (s : chars) : string := to_string (map to_upper s).

Definition keywords : list (string * Token) :=
  [("AND", TAnd); ("OR", TOr); ("NOT", TNot); ("BETWEEN", TBetween); ("IN", TIn); ("LIKE", TLike);
   ("IS", TIs); ("NULL", TNull); ("TRUE", TTrue); ("FALSE", TFalse)]%string.

(** The arms of the match on a word, in order; the last one is an identifier. *)
Definition word_token (w : chars) : Token :=
  match find (fun kt => String.eqb (upper w) kt.1) keywords with
  | Some (_, t) => t
  | None => TIdent (to_string w)
  end.

(** The position after [l] became [rest]. *)
Definition advanced (pos : nat) (l rest : chars) : nat := pos + (length l - length rest).

(** One token at the head of [c :: l], whose first character is not white space. *)
Definition next_token (pos : nat) (c : ascii) (l : chars) : parse (Token * nat * chars) :=
  if code c =? 40 then Ok (TLParen, S pos, l)
  else if code c =? 41 then Ok (TRParen, S pos, l)
  else if code c =? 44 then Ok (TComma, S pos, l)
  else if code c =? 61 then Ok (TEq, S pos, l)
  else if code c =? 33 then
    match l with
    | d :: l' => if code d =? 61 then Ok (TNe, S (S pos), l') else Err (Failed (UnexpectedChar c (S pos)))
    | [] => Err (Failed (UnexpectedChar c (S pos)))
    end
  else if code c =? 60 then
    match l with
    | d :: l' => if code d =? 61 then Ok (TLe, S (S pos), l')
                 else if code d =? 62 then Ok (TNe, S (S pos), l') else Ok (TLt, S pos, l)
    | [] => Ok (TLt, S pos, l)
    end
  else if code c =? 62 then
    match l with
    | d :: l' => if code d =? 61 then Ok (TGe, S (S pos), l') else Ok (TGt, S pos, l)
    | [] => Ok (TGt, S pos, l)
    end
  else if code c =? 39 then
    let? (s, pos, rest) := read_string (S pos) l in Ok (TStringLit (to_string s), pos, rest)
  else if is_ascii_digit c || (code c =? 45) then
    let? (t, rest) := read_number (c :: l) in Ok (t, advanced pos (c :: l) rest, rest)
  else if is_word_start c then
    let rest := drop_while is_word_char (c :: l) in
    Ok (word_token (take_while is_word_char (c :: l)), advanced pos (c :: l) rest, rest)
  else Err (Failed (UnexpectedChar c pos)).

Fixpoint tokenize_loop (fuel : nat) (pos : nat) (l : chars) : parse (list Token) :=
  match fuel with
  | O => Err OutOfFuel
  | S fuel =>
      let l' := drop_while is_whitespace l in
      match l' with
      | [] => Ok []
      | c :: r =>
          let? (t, pos', rest) := next_token (advanced pos l l') c r in
          let? ts := tokenize_loop fuel pos' rest in Ok (t :: ts)
      end
  end.

Definition tokenize (l : chars) : parse (list Token) := tokenize_loop (S (length l)) 0 l.

(** ** Parser

    A parser state is the list of tokens from [self.pos] on. *)

Definition value_of (t : Token) : parse QueryValue :=
  match t with
  | TStringLit s => Ok (VString s)
  | TIntLit i => Ok (VInteger i)
  | TFloatLit d => Ok (VDouble d)
  | TTrue => Ok (VBool true)
  | TFalse => Ok (VBool false)
  | TNull => Ok VNull
  | _ => Err (Failed (ExpectedValue t))
  end.

Definition parse_value (ts : list Token) : parse (QueryValue * list Token) :=
  match ts with
  | [] => Err (Failed UnexpectedEnd)
  | t :: ts => let? v := value_of t in Ok (v, ts)
  end.

(** The loop over the values of [IN (..)]. *)
Fixpoint parse_values (ts : list Token) : parse (list QueryValue * list Token) :=
  match ts with
  | [] => Err (Failed UnexpectedEnd)
  | t :: ts =>
      let? v := value_of t in
      match ts with
      | TComma :: ts => let? (vs, rest) := parse_values ts in Ok (v :: vs, rest)
      | _ => Ok ([v], ts)
      end
  end.

Definition op_of (t : Token) : option CompareOp :=
  match t with
  | TEq => Some OpEq | TNe => Some OpNe | TLt => Some OpLt
  | TGt => Some OpGt | TLe => Some OpLe | TGe => Some OpGe
  | _ => None
  end.

(** [parse_primary] after the field name. *)
Definition parse_field (field : string) (ts : list Token) : parse (QueryExpr * list Token) :=
  match ts with
  | [] => Err (Failed UnexpectedEnd)
  | TIs :: TNot :: TNull :: ts => Ok (IsNotNull field, ts)
  | TIs :: TNot :: _ => Err (Failed ExpectedNull)
  | TIs :: TNull :: ts => Ok (IsNull field, ts)
  | TIs :: _ => Err (Failed ExpectedNullOrNot)
  | TBetween :: ts =>
      let? (low, ts) := parse_value ts in
      match ts with
      | TAnd :: ts => let? (high, ts) := parse_value ts in Ok (Between field low high, ts)
      | _ => Err (Failed ExpectedAnd)
      end
  | TIn :: TLParen :: ts =>
      let? (vs, ts) := parse_values ts in
      match ts with
      | TRParen :: ts => Ok (In_ field vs, ts)
      | _ => Err (Failed ExpectedRParen)
      end
  | TIn :: _ => Err (Failed ExpectedLParen)
  | TLike :: [] => Err IndexPanic
  | TLike :: TStringLit s :: ts => Ok (Like field s, ts)
  | TLike :: _ => Err (Failed ExpectedString)
  | t :: ts =>
      match op_of t with
      | Some op => let? (v, ts) := parse_value ts in Ok (Comparison field op v, ts)
      | None => Err (Failed (ExpectedOperator t))
      end
  end.

Fixpoint parse_or (fuel : nat) (ts : list Token) : parse (QueryExpr * list Token) :=
  match fuel with
  | O => Err OutOfFuel
  | S fuel => let? (lhs, ts) := parse_and fuel ts in or_loop fuel lhs ts
  end
with or_loop (fuel : nat) (lhs : QueryExpr) (ts : list Token) : parse (QueryExpr * list Token) :=
  match fuel with
  | O => Err OutOfFuel
  | S fuel =>
      match ts with
      | TOr :: ts => let? (rhs, ts) := parse_and fuel ts in or_loop fuel (Or lhs rhs) ts
      | _ => Ok (lhs, ts)
      end
  end
with parse_and (fuel : nat) (ts : list Token) : parse (QueryExpr * list Token) :=
  match fuel with
  | O => Err OutOfFuel
  | S fuel => let? (lhs, ts) := parse_not fuel ts in and_loop fuel lhs ts
  end
with and_loop (fuel : nat) (lhs : QueryExpr) (ts : list Token) : parse (QueryExpr * list Token) :=
  match fuel with
  | O => Err OutOfFuel
  | S fuel =>
      match ts with
      | TAnd :: ts => let? (rhs, ts) := parse_not fuel ts in and_loop fuel (And lhs rhs) ts
      | _ => Ok (lhs, ts)
      end
  end
with parse_not (fuel : nat) (ts : list Token) : parse (QueryExpr * list Token) :=
  match fuel with
  | O => Err OutOfFuel
  | S fuel =>
      match ts with
      | TNot :: ts => let? (e, ts) := parse_primary fuel ts in Ok (Not e, ts)
      | _ => parse_primary fuel ts
      end
  end
with parse_primary (fuel : nat) (ts : list Token) : parse (QueryExpr * list Token) :=
  match fuel with
  | O => Err OutOfFuel
  | S fuel =>
      match ts with
      | [] => Err (Failed UnexpectedEnd)
      | TLParen :: ts =>
          let? (e, ts) := parse_or fuel ts in
          match ts with
          | TRParen :: ts => Ok (e, ts)
          | _ => Err (Failed MissingRParen)
          end
      | TIdent field :: ts => parse_field field ts
      | t :: _ => Err (Failed (ExpectedField t))
      end
  end.

(** Every level of the grammar uses one unit of fuel, and four levels consume a token. *)
Definition parse_fuel (ts : list Token) : nat := 4 * length ts + 4.

Definition parse_tokens (ts : list Token) : parse QueryExpr :=
  let? (e, rest) := parse_or (parse_fuel ts) ts in
  match rest with
  | [] => Ok e
  | t :: _ => Err (Failed (UnexpectedToken t (length ts - length rest)))
  end.

Definition parse_query (input : chars) : parse QueryExpr :=
  let? ts := tokenize input in
  match ts with
  | [] => Err (Failed EmptyQuery)
  | _ => parse_tokens ts
  end.

(** ** Printer *)

Section printer.
(** [Display] of [f64]. *)
Variable f64_display : f64 -> chars.

Definition quoted (s : string) : chars := "'"%char :: of_string s ++ ["'"%char].

Definition print_value (v : QueryValue) : chars :=
  match v with
  | VString s => quoted s
  | VInteger i => print_int i
  | VDouble d => f64_display d
  | VBool b => of_string (if b then "true" else "false")
  | VNull => of_string "NULL"
  end.

Definition print_op (op : CompareOp) : chars :=
  of_string match op with
            | OpEq => "=" | OpNe => "!=" | OpLt => "<" | OpGt => ">" | OpLe => "<=" | OpGe => ">="
            end.

(** [vals.join(", ")]. *)
Fixpoint join (sep : chars) (ls : list chars) : chars :=
  match ls with
  | [] => []
  | [l] => l
  | l :: ls => l ++ sep ++ join sep ls
  end.

Fixpoint print_expr (e : QueryExpr) : chars :=
  match e with
  | Comparison field op v => of_string field ++ of_string " " ++ print_op op ++ of_string " " ++ print_value v
  | And l r => of_string "(" ++ print_expr l ++ of_string " AND " ++ print_expr r ++ of_string ")"
  | Or l r => of_string "(" ++ print_expr l ++ of_string " OR " ++ print_expr r ++ of_string ")"
  | Not e => of_string "NOT (" ++ print_expr e ++ of_string ")"
  | Between field low high =>
      of_string field ++ of_string " BETWEEN " ++ print_value low ++ of_string " AND " ++ print_value high
  | In_ field vs =>
      of_string field ++ of_string " IN (" ++ join (of_string ", ") (map print_value vs) ++ of_string ")"
  | Like field p => of_string field ++ of_string " LIKE " ++ quoted p
  | IsNull field => of_string field ++ of_string " IS NULL"
  | IsNotNull field => of_string field ++ of_string " IS NOT NULL"
  end.
End printer.

(** ** The parser returns

    A parse of [ts] is [good n] when it consumed at least [n] tokens of it, or failed with an
    error of the language, or panicked on a final [LIKE]; never does it run out of fuel. *)

Definition good {A} (n : nat) (ts : list Token) (r : parse (A * list Token)) : Prop :=
  match r with
  | Ok (_, rest) => rest `suffix_of` ts /\ (length rest + n <= length ts)%nat
  | Err (Failed _) => True
  | Err IndexPanic => last ts = Some TLike
  | Err OutOfFuel => False
  end.

Lemma last_suffix {A} (l l' : list A) x : l' `suffix_of` l -> last l' = Some x -> last l = Some x.
Proof. intros [k ->] Hl. by rewrite last_app, Hl. Qed.

Lemma good_weaken {A} m n ts ts' (r : parse (A * list Token)) :
  ts' `suffix_of` ts -> (length ts' + n <= length ts + m)%nat -> good m ts' r -> good n ts r.
Proof.
  intros Hs Hl. destruct r as [[a rest]|[e| |]]; simpl; [|done| |done].
  - intros [Hr Hlen]. split; [by etrans|lia].
  - by apply last_suffix.
Qed.

Lemma good_bind {A B} m n ts (r : parse (A * list Token)) (k : A * list Token -> parse (B * list Token)) :
  good m ts r ->
  (forall a rest, rest `suffix_of` ts -> (length rest + m <= length ts)%nat ->
     good n ts (k (a, rest))) ->
  good n ts (result_bind r k).
Proof.
  destruct r as [[a rest]|[e| |]]; simpl; [|done..].
  intros [Hs Hl] Hk. by apply Hk.
Qed.

Lemma suffix_tail {A} (x : A) l ts : x :: l `suffix_of` ts -> l `suffix_of` ts.
Proof. intros H. etrans; [|exact H]. by apply suffix_cons_r. Qed.

Lemma parse_value_good ts : good 1 ts (parse_value ts).
Proof.
  destruct ts as [|t ts]; [done|]. simpl.
  destruct t; simpl; try done; (split; [by apply suffix_cons_r|lia]).
Qed.

Lemma parse_values_good ts : good 1 ts (parse_values ts).
Proof.
  induction ts as [ts IH] using (induction_ltof1 _ length). unfold ltof in IH.
  destruct ts as [|t ts]; [done|]. cbn [parse_values].
  destruct (value_of t) as [v|[e| |]] eqn:Hv; cbn [result_bind]; [|done|by destruct t..].
  assert (Hone : good 1 (t :: ts) (Ok ([v], ts))) by (split; [by apply suffix_cons_r|simpl; lia]).
  destruct ts as [|[] ts]; try exact Hone.
  apply (good_bind 1).
  - eapply good_weaken; [|  |apply IH; simpl; lia]; [by do 2 apply suffix_cons_r|simpl; lia].
  - intros vs rest Hs Hl. split; [done|lia].
Qed.

Lemma parse_field_good field ts : good 1 ts (parse_field field ts).
Proof.
  assert (Hkeep : forall (e : QueryExpr) rest, rest `suffix_of` ts -> (length rest < length ts)%nat ->
    good 1 ts (Ok (e, rest))) by (intros; split; [done|lia]).
  assert (Hval : forall rest (k : QueryValue * list Token -> parse (QueryExpr * list Token)),
    rest `suffix_of` ts -> (length rest < length ts)%nat ->
    (forall v r, r `suffix_of` ts -> (length r < length ts)%nat -> good 1 ts (k (v, r))) ->
    good 1 ts (result_bind (parse_value rest) k)).
  { intros rest k Hs Hl Hk. apply (good_bind 1).
    - eapply good_weaken; [exact Hs| |apply parse_value_good]. lia.
    - intros v r Hr Hlr. apply Hk; [done|lia]. }
  destruct ts as [|t ts]; [done|].
  assert (Hts : ts `suffix_of` t :: ts) by by apply suffix_cons_r.
  destruct t; cbn [parse_field op_of]; try done; try (apply Hval; [done|simpl; lia|intros v r Hr Hl; by apply Hkeep]).
  - apply Hval; [done|simpl; lia|]. intros low r Hr Hl.
    destruct r as [|[] r]; try done. apply suffix_tail in Hr as Hr'.
    apply Hval; [done|simpl in *; lia|]. intros high r' Hr2 Hl2. by apply Hkeep.
  - destruct ts as [|[] ts]; try done. apply (good_bind 1).
    + eapply good_weaken; [| |apply parse_values_good]; [by eapply suffix_tail|simpl; lia].
    + intros vs r Hr Hl. destruct r as [|[] r]; try done.
      apply Hkeep; [by eapply suffix_tail|simpl in *; lia].
  - destruct ts as [|[] ts]; try done. apply Hkeep; [by eapply suffix_tail|simpl; lia].
  - destruct ts as [|[] ts]; try done.
    + destruct ts as [|[] ts]; try done.
      apply Hkeep; [by do 2 eapply suffix_tail|simpl; lia].
    + apply Hkeep; [by eapply suffix_tail|simpl; lia].
Qed.

(** The six mutually recursive parsers, by the fuel they need. *)
Record parsers_good (fuel : nat) : Prop := {
  or_good ts : (4 * length ts + 4 <= fuel)%nat -> good 1 ts (parse_or fuel ts);
  or_loop_good e ts : (4 * length ts + 1 <= fuel)%nat -> good 0 ts (or_loop fuel e ts);
  and_good ts : (4 * length ts + 3 <= fuel)%nat -> good 1 ts (parse_and fuel ts);
  and_loop_good e ts : (4 * length ts + 1 <= fuel)%nat -> good 0 ts (and_loop fuel e ts);
  not_good ts : (4 * length ts + 2 <= fuel)%nat -> good 1 ts (parse_not fuel ts);
  primary_good ts : (4 * length ts + 1 <= fuel)%nat -> good 1 ts (parse_primary fuel ts);
}.

(** One parser after another on what it left. *)
Lemma good_then {A B} m n ts (r : parse (A * list Token)) (k : A * list Token -> parse (B * list Token)) :
  good (S m) ts r ->
  (forall a rest, (length rest < length ts)%nat -> good n rest (k (a, rest))) ->
  good (S (m + n)) ts (result_bind r k).
Proof.
  intros Hr Hk. apply (good_bind (S m)); [done|]. intros a rest Hs Hl.
  apply (good_weaken n (S (m + n)) ts rest); [done|lia|]. apply Hk. lia.
Qed.

Lemma all_parsers_good fuel : parsers_good fuel.
Proof.
  induction fuel as [|fuel [Hor Horl Hand Handl Hnot Hprim]]; [split; intros; lia|].
  split; cbn [parse_or or_loop parse_and and_loop parse_not parse_primary].
  - intros ts Hf. apply (good_then 0 0); [apply Hand; lia|]. intros e rest Hl. apply Horl. lia.
  - intros e [|t ts] Hf; [by split|]. destruct t; try (by split; simpl; [|lia]).
    cbn [length] in Hf. apply (good_weaken 1 0 _ ts); [by apply suffix_cons_r|simpl; lia|].
    apply (good_then 0 0); [apply Hand; lia|]. intros r rest Hl. apply Horl. lia.
  - intros ts Hf. apply (good_then 0 0); [apply Hnot; lia|]. intros e rest Hl. apply Handl. lia.
  - intros e [|t ts] Hf; [by split|]. destruct t; try (by split; simpl; [|lia]).
    cbn [length] in Hf. apply (good_weaken 1 0 _ ts); [by apply suffix_cons_r|simpl; lia|].
    apply (good_then 0 0); [apply Hnot; lia|]. intros r rest Hl. apply Handl. lia.
  - intros ts Hf. assert (Hp : good 1 ts (parse_primary fuel ts)) by (apply Hprim; lia).
    destruct ts as [|t ts]; [done|]. destruct t; try exact Hp. cbn [length] in Hf.
    apply (good_weaken 1 1 _ ts); [by apply suffix_cons_r|simpl; lia|].
    apply (good_then 0 0); [apply Hprim; lia|]. intros r rest Hl. split; [done|lia].
  - intros [|t ts] Hf; [done|]. cbn [length] in Hf. destruct t; try done.
    + apply (good_weaken 1 1 _ ts); [by apply suffix_cons_r|simpl; lia|]. apply parse_field_good.
    + apply (good_weaken 1 1 _ ts); [by apply suffix_cons_r|simpl; lia|].
      apply (good_then 0 0); [apply Hor; lia|]. intros r [|[] rest] Hl; try done.
      split; [by apply suffix_cons_r|simpl; lia].
Qed.

(** The tokenizer fails only with errors of the language. *)
Definition lexed {A} (r : parse A) (P : A -> Prop) : Prop :=
  match r with Ok a => P a | Err (Failed _) => True | _ => False end.

Lemma read_string_lexed pos l :
  lexed (read_string pos l) (fun '(_, _, rest) => (length rest < length l)%nat).
Proof.
  revert pos. induction l as [l IH] using (induction_ltof1 _ length). unfold ltof in IH. intros pos.
  destruct l as [|c l]; [done|]. cbn [read_string].
  destruct (code c =? 39); [simpl; lia|]. destruct l as [|d l]; [done|].
  destruct (code c =? 92).
  - specialize (IH l ltac:(simpl; lia) (S (S pos))).
    destruct (read_string _ l) as [[[s p] rest]|[]]; simpl in *; try done; lia.
  - specialize (IH (d :: l) ltac:(simpl; lia) (S pos)).
    destruct (read_string _ (d :: l)) as [[[s p] rest]|[]]; simpl in *; try done; lia.
Qed.

Lemma read_number_lexed c l :
  is_ascii_digit c || (code c =? 45) = true ->
  lexed (read_number (c :: l)) (fun '(_, rest) => (length rest <= length l)%nat).
Proof.
  intros Hc. unfold read_number. cbn [split_sign].
  assert (Hlen : forall p m, (length m <= length l -> length (drop_while p m) <= length l)%nat).
  { intros p m Hm. pose proof (drop_while_length p m). lia. }
  assert (Hd : (length (drop_while is_ascii_digit
                          (if (code c =? 45)%Z then l else c :: l)) <= length l)%nat).
  { destruct (code c =? 45); [by apply Hlen|]. rewrite orb_false_r in Hc. simpl. rewrite Hc. by apply Hlen. }
  destruct (code c =? 45); cbv iota beta in *;
    (destruct (drop_while is_ascii_digit _) as [|x l2]; simpl in Hd |- *;
     repeat case_match; simpl in *; try done; try lia; apply Hlen; simpl; lia).
Qed.

Lemma word_start_char c : is_word_start c = true -> is_word_char c = true.
Proof.
  unfold is_word_start, is_word_char, is_ascii_alphanumeric.
  destruct (is_ascii_alphabetic c), (is_ascii_digit c); done.
Qed.

Lemma next_token_lexed pos c l :
  lexed (next_token pos c l) (fun '(_, _, rest) => (length rest <= length l)%nat).
Proof.
  unfold next_token.
  repeat (destruct (Z.eqb (code c) _);
    [first [cbn [lexed]; lia
           |destruct l as [|d l]; [cbn [lexed]; first [done|lia]|];
            repeat (destruct (Z.eqb (code d) _); [cbn [lexed length]; lia|]);
            first [done|cbn [lexed length]; lia]
           |pose proof (read_string_lexed (S pos) l) as Hs;
            destruct (read_string _ l) as [[[s p] rest]|[]]; cbn [lexed result_bind] in *; first [done|lia]]|]).
  destruct (is_ascii_digit c || _) eqn:?.
  { pose proof (read_number_lexed c l ltac:(done)) as Hn.
    destruct (read_number _) as [[t rest]|[]]; simpl in *; done. }
  destruct (is_word_start c) eqn:Hs; [|done]. cbn [lexed drop_while].
  rewrite word_start_char by done. apply drop_while_length.
Qed.

Lemma tokenize_lexed fuel pos l :
  (length l < fuel)%nat -> lexed (tokenize_loop fuel pos l) (fun _ => True).
Proof.
  revert pos l. induction fuel as [|fuel IH]; intros pos l Hf; [lia|]. cbn [tokenize_loop].
  pose proof (drop_while_length is_whitespace l) as Hw.
  destruct (drop_while is_whitespace l) as [|c r]; [done|]. simpl in Hw.
  pose proof (next_token_lexed (advanced pos l (c :: r)) c r) as Ht.
  destruct (next_token _ c r) as [[[t p] rest]|[]]; simpl in *; try done.
  specialize (IH p rest ltac:(lia)). by destruct (tokenize_loop fuel p rest) as [|[]].
Qed.

(** ** Printing and parsing *)

Definition tok_value (v : QueryValue) : Token :=
  match v with
  | VString s => TStringLit s
  | VInteger i => TIntLit i
  | VDouble d => TFloatLit d
  | VBool b => if b then TTrue else TFalse
  | VNull => TNull
  end.

Definition tok_op (op : CompareOp) : Token :=
  match op with OpEq => TEq | OpNe => TNe | OpLt => TLt | OpGt => TGt | OpLe => TLe | OpGe => TGe end.

Fixpoint tok_values (vs : list QueryValue) : list Token :=
  match vs with
  | [] => []
  | [v] => [tok_value v]
  | v :: vs => tok_value v :: TComma :: tok_values vs
  end.

(** The tokens of a printed expression. *)
Fixpoint tok_expr (e : QueryExpr) : list Token :=
  match e with
  | Comparison field op v => [TIdent field; tok_op op; tok_value v]
  | And l r => TLParen :: tok_expr l ++ TAnd :: tok_expr r ++ [TRParen]
  | Or l r => TLParen :: tok_expr l ++ TOr :: tok_expr r ++ [TRParen]
  | Not e => TNot :: TLParen :: tok_expr e ++ [TRParen]
  | Between field low high => [TIdent field; TBetween; tok_value low; TAnd; tok_value high]
  | In_ field vs => TIdent field :: TIn :: TLParen :: tok_values vs ++ [TRParen]
  | Like field p => [TIdent field; TLike; TStringLit p]
  | IsNull field => [TIdent field; TIs; TNull]
  | IsNotNull field => [TIdent field; TIs; TNot; TNull]
  end.

(** What the syntax can express: field names are words that are no keywords, strings have no
    quotes or backslashes, integers are [i64], and lists of values are not empty. *)
Definition word_ok (w : chars) : bool :=
  match w with c :: _ => is_word_start c | [] => false end && forallb is_word_char w.
Definition field_ok (s : string) : bool :=
  word_ok (of_string s) && match word_token (of_string s) with TIdent _ => true | _ => false end.
Definition text_ok (s : string) : bool :=
  forallb (fun c => negb (code c =? 39) && negb (code c =? 92)) (of_string s).
Definition value_ok (v : QueryValue) : bool :=
  match v with
  | VString s => text_ok s
  | VInteger i => (I64_MIN <=? i) && (i <=? I64_MAX)
  | VDouble _ => false
  | _ => true
  end.
Fixpoint expr_ok (e : QueryExpr) : bool :=
  match e with
  | Comparison field _ v => field_ok field && value_ok v
  | And l r | Or l r => expr_ok l && expr_ok r
  | Not e => expr_ok e
  | Between field low high => field_ok field && value_ok low && value_ok high
  | In_ field vs => field_ok field && forallb value_ok vs && match vs with [] => false | _ => true end
  | Like field p => field_ok field && text_ok p
  | IsNull field | IsNotNull field => field_ok field
  end.

(** The tokens of [p] come first when [p] is followed by [rest]. *)
Definition lexes (p : chars) (ts : list Token) (rest : chars) : Prop :=
  forall fuel pos, (length (p ++ rest) < fuel)%nat ->
  exists fuel' pos', (length rest < fuel')%nat /\
    tokenize_loop fuel pos (p ++ rest) = let? us := tokenize_loop fuel' pos' rest in Ok (ts ++ us).

(** [rest] ends a word or a number before it. *)
Definition delimited (rest : chars) : Prop := stops (fun c => is_word_char c || (code c =? 46)) rest.

Lemma lexes_nil rest : lexes [] [] rest.
Proof.
  intros fuel pos Hf. exists fuel, pos. split; [done|]. simpl.
  by destruct (tokenize_loop fuel pos rest).
Qed.

Lemma lexes_app p q ts us rest : lexes p ts (q ++ rest) -> lexes q us rest -> lexes (p ++ q) (ts ++ us) rest.
Proof.
  intros Hp Hq fuel pos Hf. rewrite <- (app_assoc p q rest) in *.
  destruct (Hp fuel pos Hf) as (f1 & p1 & Hf1 & ->).
  destruct (Hq f1 p1 Hf1) as (f2 & p2 & Hf2 & ->). exists f2, p2. split; [done|].
  destruct (tokenize_loop f2 p2 rest); [|done]. simpl. by rewrite app_assoc.
Qed.

Lemma lexes_space rest : lexes (of_string " ") [] rest.
Proof.
  intros fuel pos Hf. exists fuel, (S pos). split; [simpl in Hf; lia|].
  destruct fuel as [|fuel]; [simpl in Hf; lia|]. cbn [String.list_ascii_of_string app tokenize_loop].
  change (drop_while is_whitespace (" "%char :: rest)) with (drop_while is_whitespace rest).
  pose proof (drop_while_length is_whitespace rest) as Hl.
  destruct (drop_while is_whitespace rest) as [|c r] eqn:Hd; [done|].
  replace (advanced pos (" "%char :: rest) (c :: r)) with (advanced (S pos) rest (c :: r))
    by (unfold advanced; simpl in *; lia).
  destruct (next_token _ c r) as [[[t p] l]|]; [|done]. cbn [result_bind].
  by destruct (tokenize_loop fuel p l).
Qed.

Lemma lexes_token c p t rest :
  is_whitespace c = false -> (forall pos, exists pos', next_token pos c (p ++ rest) = Ok (t, pos', rest)) ->
  lexes (c :: p) [t] rest.
Proof.
  intros Hc Ht fuel pos Hf. destruct fuel as [|fuel]; [simpl in Hf; lia|].
  cbn [app tokenize_loop drop_while]. rewrite Hc.
  destruct (Ht (advanced pos (c :: p ++ rest) (c :: p ++ rest))) as [pos' ->].
  exists fuel, pos'. split; [simpl in Hf; rewrite length_app in Hf; lia|]. done.
Qed.

(** Decide the tests of [next_token] on [c] from the range of its code. *)
Ltac decide_code c :=
  repeat match goal with
         | |- context [code c =? ?k] => rewrite (proj2 (Z.eqb_neq (code c) k)) by lia
         end.

Lemma word_start_code c :
  is_word_start c = true -> 65 <= code c <= 90 \/ 97 <= code c <= 122 \/ code c = 95.
Proof. unfold is_word_start, is_ascii_alphabetic, is_upper, is_lower, in_range. lia. Qed.

Lemma lexes_word w rest :
  word_ok w = true -> delimited rest -> lexes w [word_token w] rest.
Proof.
  intros Hw Hr. destruct w as [|c p]; [done|]. apply andb_prop in Hw as [Hc Hp].
  pose proof (word_start_code c Hc) as Hcode.
  assert (Hrest : stops is_word_char rest).
  { destruct rest as [|d rest]; [done|]. by apply orb_false_elim in Hr as [? _]. }
  apply lexes_token. { unfold is_whitespace, in_range. lia. }
  intros pos. unfold next_token. decide_code c.
  replace (is_ascii_digit c) with false by (unfold is_ascii_digit, in_range; lia).
  simpl orb. cbv iota. rewrite Hc.
  change (c :: p ++ rest) with ((c :: p) ++ rest).
  rewrite drop_while_app, take_while_app by done. by eexists.
Qed.

Lemma field_token s : field_ok s = true -> word_token (of_string s) = TIdent s.
Proof.
  unfold field_ok. intros [_ Ht]%andb_prop. unfold word_token in *.
  destruct (find _ keywords) as [[k t]|] eqn:Hk; [|by rewrite String.string_of_list_ascii_of_string].
  apply find_some in Hk as [Hin _]. cbn [keywords In] in Hin.
  by repeat (destruct Hin as [Hin|Hin]; [injection Hin as <- <-|]).
Qed.

Lemma lexes_field s rest : field_ok s = true -> delimited rest -> lexes (of_string s) [TIdent s] rest.
Proof.
  intros Hs Hr. rewrite <- (field_token s) by done. apply lexes_word; [|done].
  by apply andb_prop in Hs as [? _].
Qed.

Lemma read_string_text pos s rest :
  text_ok (to_string s) = true -> exists pos', read_string pos (s ++ "'"%char :: rest) = Ok (s, pos', rest).
Proof.
  unfold text_ok. rewrite String.list_ascii_of_string_of_list_ascii.
  revert pos. induction s as [|c s IH]; intros pos Hs; [by eexists|].
  cbn [forallb] in Hs. apply andb_prop in Hs as [Hc Hs]. apply andb_prop in Hc as [Hq Hb].
  cbn [app read_string]. destruct (code c =? 39); [done|]. destruct (code c =? 92); [done|].
  destruct (IH (S pos) Hs) as [pos' Hp]. rewrite Hp.
  destruct (s ++ "'"%char :: rest) as [|d l] eqn:Hd; [by destruct s|]. simpl. by eexists.
Qed.

Lemma lexes_quoted s rest : text_ok s = true -> lexes (quoted s) [TStringLit s] rest.
Proof.
  intros Hs. apply lexes_token; [done|]. intros pos. unfold next_token. simpl Z.eqb. cbv iota.
  rewrite <- app_assoc. cbn [app].
  destruct (read_string_text (S pos) (of_string s) rest) as [pos' ->].
  { by rewrite String.string_of_list_ascii_of_string. }
  cbn [result_bind]. rewrite String.string_of_list_ascii_of_string. by eexists.
Qed.

Lemma lexes_op op rest : lexes (print_op op) [tok_op op] (" "%char :: rest).
Proof. destruct op; (apply lexes_token; [done|]; intros pos; by eexists). Qed.

Lemma lexes_lparen rest : lexes (of_string "(") [TLParen] rest.
Proof. apply lexes_token; [done|]; intros pos; by eexists. Qed.
Lemma lexes_rparen rest : lexes (of_string ")") [TRParen] rest.
Proof. apply lexes_token; [done|]; intros pos; by eexists. Qed.
Lemma lexes_comma rest : lexes (of_string ",") [TComma] rest.
Proof. apply lexes_token; [done|]; intros pos; by eexists. Qed.

(** [read_number] on a printed integer. *)
Lemma read_number_int i rest :
  I64_MIN <= i <= I64_MAX -> delimited rest -> read_number (print_int i ++ rest) = Ok (TIntLit i, rest).
Proof.
  intros Hi Hr.
  assert (Hp : parse_i64 (print_int i) = Some i) by (apply parse_print_int; unfold I64_MIN in *; lia).
  unfold print_int in *. set (ds := dec_digits _ _) in *.
  assert (Hds : forallb is_ascii_digit ds = true) by (apply dec_digits_digits; lia).
  assert (Hne : ds <> []) by apply dec_digits_nonempty. clearbody ds.
  assert (Hstop : stops is_ascii_digit rest /\ stops (fun c => code c =? 46) rest).
  { destruct rest as [|d rest]; [done|]. apply orb_false_elim in Hr as [Hw Hd]. split; [|done].
    unfold is_word_char, is_ascii_alphanumeric in Hw. simpl.
    by destruct (is_ascii_digit d); [rewrite orb_true_r in Hw|]. }
  destruct Hstop as [Hdig Hdot].
  assert (Hsplit : exists sign, (sign = [] \/ sign = ["-"%char]) /\
    (if i <? 0 then "-"%char :: ds else ds) = sign ++ ds).
  { destruct (i <? 0); [exists ["-"%char]|exists []]; auto. }
  destruct Hsplit as (sign & Hsign & Heq). rewrite Heq in *. rewrite <- app_assoc.
  assert (Hread : split_sign (sign ++ ds ++ rest) = (sign, ds ++ rest)).
  { destruct Hsign as [-> | ->]; [|done]. destruct ds as [|d ds]; [done|]. cbn [app split_sign].
    destruct (andb_prop _ _ Hds) as [Hd _]. unfold is_ascii_digit, in_range in Hd.
    by replace (code d =? 45) with false by lia. }
  unfold read_number. rewrite Hread. rewrite drop_while_app, take_while_app by done. rewrite Hp.
  destruct rest as [|d rest]; [done|]. simpl in Hdot. by rewrite Hdot.
Qed.

Lemma lexes_int i rest : I64_MIN <= i <= I64_MAX -> delimited rest -> lexes (print_int i) [TIntLit i] rest.
Proof.
  intros Hi Hr. pose proof (read_number_int i rest Hi Hr) as Hn.
  assert (Hhd : exists c p, print_int i = c :: p /\ is_ascii_digit c || (code c =? 45) = true).
  { unfold print_int. destruct (i <? 0); [by eexists _, _|].
    pose proof (dec_digits_digits (S (Z.to_nat (Z.log2 (Z.abs i)))) (Z.abs i) ltac:(lia)) as Hd.
    pose proof (dec_digits_nonempty (Z.to_nat (Z.log2 (Z.abs i))) (Z.abs i)) as Hne.
    destruct (dec_digits _ _) as [|c p]; [done|]. exists c, p. split; [done|].
    by destruct (andb_prop _ _ Hd) as [-> _]. }
  destruct Hhd as (c & p & Heq & Hc). rewrite Heq in *.
  assert (Hcode : 48 <= code c <= 57 \/ code c = 45).
  { unfold is_ascii_digit, in_range in Hc. lia. }
  apply lexes_token. { unfold is_whitespace, in_range. lia. }
  intros pos. unfold next_token. rewrite Hc.
  do 8 rewrite (proj2 (Z.eqb_neq (code c) _)) by lia.
  change (c :: p ++ rest) with ((c :: p) ++ rest). rewrite Hn. by eexists.
Qed.

Section roundtrip.
Variable f64_display : f64 -> chars.

Lemma lexes_eq p ts us rest : lexes p us rest -> us = ts -> lexes p ts rest.
Proof. by intros Hp <-. Qed.

(** A keyword between spaces, and at the end. *)
Lemma lexes_padded w rest :
  word_ok (of_string w) = true ->
  lexes (of_string " " ++ of_string w ++ of_string " ") [word_token (of_string w)] rest.
Proof.
  intros Hw. eapply lexes_eq; [eapply lexes_app; [apply lexes_space|eapply lexes_app]|].
  - by apply lexes_word.
  - apply lexes_space.
  - done.
Qed.

Lemma lexes_last w rest :
  word_ok (of_string w) = true -> delimited rest ->
  lexes (of_string " " ++ of_string w) [word_token (of_string w)] rest.
Proof.
  intros Hw Hr. eapply lexes_eq; [eapply lexes_app; [apply lexes_space|by apply lexes_word]|done].
Qed.

Lemma lexes_value v rest :
  value_ok v = true -> delimited rest -> lexes (print_value f64_display v) [tok_value v] rest.
Proof.
  intros Hv Hr. destruct v as [s|i|d|b|]; simpl in *.
  - by apply lexes_quoted.
  - apply lexes_int; [lia|done].
  - done.
  - destruct b; by apply lexes_word.
  - by apply lexes_word.
Qed.

Lemma lexes_values vs rest :
  vs <> [] -> forallb value_ok vs = true -> delimited rest ->
  lexes (join (of_string ", ") (map (print_value f64_display) vs)) (tok_values vs) rest.
Proof.
  intros Hne Hv Hr. induction vs as [|v vs IH]; [done|]. cbn [forallb] in Hv.
  apply andb_prop in Hv as [Hv Hvs]. destruct vs as [|v' vs]; [by apply lexes_value|].
  specialize (IH ltac:(done) Hvs). cbn [map join] in *.
  eapply lexes_eq; [eapply lexes_app; [by apply lexes_value|eapply lexes_app; [|exact IH]]|].
  - change (of_string ", ") with (of_string "," ++ of_string " ").
    eapply lexes_app; [apply lexes_comma|apply lexes_space].
  - done.
Qed.

Lemma lexes_expr e rest :
  expr_ok e = true -> delimited rest -> lexes (print_expr f64_display e) (tok_expr e) rest.
Proof.
  revert rest. induction e as [field op v|l IHl r IHr|l IHl r IHr|e IHe|field low high|field vs|field p|field|field];
    intros rest Hok Hr; cbn [expr_ok print_expr tok_expr] in *;
    repeat match goal with H : _ && _ = true |- _ => apply andb_prop in H as [? ?] end.
  - apply (lexes_app _ _ [TIdent field] [tok_op op; tok_value v]); [by apply lexes_field|].
    apply (lexes_app _ _ [] [tok_op op; tok_value v]); [apply lexes_space|].
    apply (lexes_app _ _ [tok_op op] [tok_value v]); [apply lexes_op|].
    apply (lexes_app _ _ [] [tok_value v]); [apply lexes_space|]. by apply lexes_value.
  - eapply lexes_eq; [eapply lexes_app; [apply lexes_lparen|]|reflexivity].
    eapply lexes_app; [by apply IHl|]. eapply (lexes_app _ _ [TAnd]); [by apply (lexes_padded "AND")|].
    eapply lexes_app; [by apply IHr|]. apply lexes_rparen.
  - eapply lexes_eq; [eapply lexes_app; [apply lexes_lparen|]|reflexivity].
    eapply lexes_app; [by apply IHl|]. eapply (lexes_app _ _ [TOr]); [by apply (lexes_padded "OR")|].
    eapply lexes_app; [by apply IHr|]. apply lexes_rparen.
  - change (of_string "NOT (") with (of_string "NOT" ++ of_string " " ++ of_string "(").
    rewrite <- !app_assoc. eapply lexes_eq; [eapply lexes_app; [by apply lexes_word|]|reflexivity].
    eapply (lexes_app _ _ []); [apply lexes_space|].
    eapply (lexes_app _ _ [TLParen]); [apply lexes_lparen|].
    eapply lexes_app; [by apply IHe|]. apply lexes_rparen.
  - eapply lexes_eq; [eapply lexes_app; [by apply lexes_field|]|reflexivity].
    eapply (lexes_app _ _ [TBetween]); [by apply (lexes_padded "BETWEEN")|].
    eapply (lexes_app _ _ [tok_value low]); [by apply lexes_value|].
    eapply (lexes_app _ _ [TAnd]); [by apply (lexes_padded "AND")|]. by apply lexes_value.
  - change (of_string " IN (") with ((of_string " " ++ of_string "IN" ++ of_string " ") ++ of_string "(").
    rewrite <- (app_assoc _ (of_string "(")). eapply lexes_eq; [eapply lexes_app; [by apply lexes_field|]|reflexivity].
    eapply (lexes_app _ _ [TIn]); [by apply (lexes_padded "IN")|].
    eapply (lexes_app _ _ [TLParen]); [apply lexes_lparen|].
    eapply lexes_app; [|apply lexes_rparen]. apply lexes_values; [by intros ->|done|done].
  - eapply lexes_eq; [eapply lexes_app; [by apply lexes_field|]|reflexivity].
    eapply (lexes_app _ _ [TLike]); [by apply (lexes_padded "LIKE")|]. by apply lexes_quoted.
  - eapply lexes_eq; [eapply lexes_app; [by apply lexes_field|]|reflexivity].
    change (of_string " IS NULL") with ((of_string " " ++ of_string "IS" ++ of_string " ") ++ of_string "NULL").
    eapply (lexes_app _ _ [TIs]); [by apply (lexes_padded "IS")|]. by apply lexes_word.
  - eapply lexes_eq; [eapply lexes_app; [by apply lexes_field|]|reflexivity].
    change (of_string " IS NOT NULL") with ((of_string " " ++ of_string "IS" ++ of_string " ") ++
      of_string "NOT" ++ of_string " " ++ of_string "NULL").
    eapply (lexes_app _ _ [TIs]); [by apply (lexes_padded "IS")|].
    eapply (lexes_app _ _ [TNot]); [by apply lexes_word|]. eapply (lexes_app _ _ []); [apply lexes_space|].
    by apply lexes_word.
Qed.

Lemma tokenize_print e : expr_ok e = true -> tokenize (print_expr f64_display e) = Ok (tok_expr e).
Proof.
  intros He. destruct (lexes_expr e [] He I (S (length (print_expr f64_display e))) 0%nat) as (fuel & pos & Hf & Ht).
  { rewrite app_nil_r. lia. }
  rewrite app_nil_r in Ht. unfold tokenize. rewrite Ht. destruct fuel; [simpl in Hf; lia|]. simpl.
  by rewrite app_nil_r.
Qed.
End roundtrip.

Lemma value_of_tok v : value_of (tok_value v) = Ok v.
Proof. by destruct v as [| | |[]|]. Qed.

Lemma parse_value_tok v ts : parse_value (tok_value v :: ts) = Ok (v, ts).
Proof. unfold parse_value. by rewrite value_of_tok. Qed.

Lemma parse_values_tok vs ts :
  vs <> [] -> parse_values (tok_values vs ++ TRParen :: ts) = Ok (vs, TRParen :: ts).
Proof.
  induction vs as [|v vs IH]; [done|]. intros _. destruct vs as [|v' vs].
  - simpl. by rewrite value_of_tok.
  - cbn [tok_values app parse_values]. rewrite value_of_tok. cbn [result_bind].
    assert (Hrec := IH ltac:(done)). cbn [tok_values] in Hrec |- *. by rewrite Hrec.
Qed.

(** [t] does not continue an expression. *)
Definition closes (ts : list Token) : Prop :=
  match ts with (TAnd | TOr) :: _ => False | _ => True end.

Lemma and_loop_closes fuel e ts : closes ts -> and_loop (S fuel) e ts = Ok (e, ts).
Proof. by destruct ts as [|[] ts]. Qed.
Lemma or_loop_closes fuel e ts : closes ts -> or_loop (S fuel) e ts = Ok (e, ts).
Proof. by destruct ts as [|[] ts]. Qed.

Ltac burn fuel := do 6 (destruct fuel as [|fuel]; [simpl in *; lia|]).

(** The upper levels of the grammar pass through what [parse_not] returns. *)
Lemma parse_or_not fuel e ts rest :
  parse_not fuel ts = Ok (e, rest) -> closes rest -> (0 < fuel)%nat ->
  parse_or (S (S fuel)) ts = Ok (e, rest).
Proof.
  intros Hn Hc Hf. destruct fuel as [|fuel]; [lia|].
  cbn [parse_or parse_and]. rewrite Hn. cbn [result_bind].
  rewrite and_loop_closes by done. cbn [result_bind]. by rewrite or_loop_closes.
Qed.

Lemma parse_not_tok e fuel rest :
  expr_ok e = true -> (4 * length (tok_expr e) + 2 <= fuel)%nat ->
  parse_not fuel (tok_expr e ++ rest) = Ok (e, rest).
Proof.
  revert fuel rest. induction e as [field op v|l IHl r IHr|l IHl r IHr|e IHe|field low high|field vs|field p|field|field];
    intros fuel rest Hok Hf; cbn [expr_ok tok_expr length app] in *;
    repeat match goal with H : _ && _ = true |- _ => apply andb_prop in H as [? ?] end;
    rewrite ?length_app in Hf; cbn [length] in Hf; rewrite ?length_app in Hf; cbn [length] in Hf; burn fuel;
    repeat (rewrite <- app_assoc; cbn [app]); cbn [parse_not parse_primary].
  - destruct op; cbn [tok_op parse_field op_of]; by rewrite parse_value_tok.
  - cbn [parse_or parse_and]. rewrite IHl by (done || lia). cbn [result_bind and_loop].
    rewrite IHr by (done || lia). done.
  - cbn [parse_or parse_and]. rewrite IHl by (done || lia). cbn [result_bind and_loop or_loop parse_and].
    rewrite IHr by (done || lia). done.
  - rewrite (parse_or_not _ e _ (TRParen :: rest)); [done|apply IHe; [done|lia]|done|lia].
  - cbn [parse_field]. rewrite parse_value_tok. cbn [result_bind]. by rewrite parse_value_tok.
  - cbn [parse_field]. rewrite parse_values_tok by (by intros ->). done.
  - done.
  - done.
  - done.
Qed.

(** ** Precedence *)

(** [e AND e1 AND .. ], a clause, and [c OR c1 OR ..], without parentheses. *)
Definition clause : Type := QueryExpr * list QueryExpr.
Definition clause_tokens (c : clause) : list Token :=
  tok_expr c.1 ++ flat_map (fun e => TAnd :: tok_expr e) c.2.
Definition clause_expr (c : clause) : QueryExpr := fold_left And c.2 c.1.
Definition clause_ok (c : clause) : bool := expr_ok c.1 && forallb expr_ok c.2.
Definition clauses_tokens (c : clause) (cs : list clause) : list Token :=
  clause_tokens c ++ flat_map (fun c => TOr :: clause_tokens c) cs.

Lemma and_loop_clause fuel a es rest :
  forallb expr_ok es = true -> match rest with TAnd :: _ => False | _ => True end ->
  (4 * length (flat_map (fun e => TAnd :: tok_expr e) es) + 1 <= fuel)%nat ->
  and_loop fuel a (flat_map (fun e => TAnd :: tok_expr e) es ++ rest) = Ok (fold_left And es a, rest).
Proof.
  revert fuel a. induction es as [|e es IH]; intros fuel a Hok Hr Hf.
  { destruct fuel; [lia|]. by destruct rest as [|[] rest]. }
  cbn [forallb] in Hok. apply andb_prop in Hok as [He Hes].
  cbn [flat_map app length] in *. rewrite length_app in Hf.
  destruct fuel as [|fuel]; [lia|]. cbn [and_loop]. rewrite <- app_assoc.
  rewrite parse_not_tok by (done || lia). cbn [result_bind fold_left]. apply IH; [done|done|lia].
Qed.

Lemma parse_and_clause fuel c rest :
  clause_ok c = true -> match rest with TAnd :: _ => False | _ => True end ->
  (4 * length (clause_tokens c) + 3 <= fuel)%nat ->
  parse_and fuel (clause_tokens c ++ rest) = Ok (clause_expr c, rest).
Proof.
  intros [He Hes]%andb_prop Hr Hf. unfold clause_tokens in *. rewrite length_app in Hf.
  destruct fuel as [|fuel]; [lia|]. cbn [parse_and]. rewrite <- app_assoc.
  rewrite parse_not_tok by (done || lia). cbn [result_bind]. apply and_loop_clause; [done|done|lia].
Qed.

Lemma or_loop_clauses fuel a cs :
  forallb clause_ok cs = true ->
  (4 * length (flat_map (fun c => TOr :: clause_tokens c) cs) + 1 <= fuel)%nat ->
  or_loop fuel a (flat_map (fun c => TOr :: clause_tokens c) cs) =
    Ok (fold_left Or (map clause_expr cs) a, []).
Proof.
  revert fuel a. induction cs as [|c cs IH]; intros fuel a Hok Hf.
  { by destruct fuel; [simpl in Hf; lia|]. }
  cbn [forallb] in Hok. apply andb_prop in Hok as [Hc Hcs].
  cbn [flat_map length map fold_left] in *. rewrite length_app in Hf. cbn [length] in Hf.
  destruct fuel as [|fuel]; [lia|]. cbn [or_loop app].
  rewrite parse_and_clause; [|done|by destruct cs|lia]. cbn [result_bind]. apply IH; [done|lia].
Qed.

(** [NOT] binds tighter than [AND], [AND] tighter than [OR], and both
    associate to the left: a disjunction of conjunctions written without
    parentheses is parsed as that. *)
Theorem query_precedence (c : clause) (cs : list clause) (Hok : forallb clause_ok (c :: cs) = true) :
  parse_tokens (clauses_tokens c cs) = Ok (fold_left Or (map clause_expr cs) (clause_expr c)).
Proof.
  cbn [forallb] in Hok. apply andb_prop in Hok as [Hc Hcs].
  unfold parse_tokens, parse_fuel, clauses_tokens. rewrite length_app.
  set (fuel := (4 * _ + 4)%nat). assert (Hf : fuel = S (fuel - 1)) by lia. rewrite Hf. cbn [parse_or].
  rewrite parse_and_clause; [|done|by destruct cs|lia]. cbn [result_bind].
  rewrite or_loop_clauses by (done || lia). done.
Qed.

Lemma parse_print (f64_display : f64 -> chars) e :
  expr_ok e = true -> parse_query (print_expr f64_display e) = Ok e.
Proof.
  intros Hok. unfold parse_query. rewrite tokenize_print by done. cbn [result_bind].
  assert (Hne : tok_expr e <> []) by by destruct e.
  destruct (tok_expr e) as [|t ts] eqn:Hts; [done|]. rewrite <- Hts.
  unfold parse_tokens, parse_fuel.
  pose proof (parse_not_tok e (4 * length (tok_expr e) + 2) [] Hok ltac:(lia)) as Hn.
  rewrite app_nil_r in Hn.
  replace (4 * length (tok_expr e) + 4)%nat with (S (S (4 * length (tok_expr e) + 2))) by lia.
  by rewrite (parse_or_not _ e _ [] Hn) by (done || lia).
Qed.

(** C23. Parsing a printed query gives the query back: for every
    expression whose field names are words other than keywords, whose strings
    contain no quote or backslash, whose integers are [i64] and which has no floating-point
    constants, tokenizing and parsing its printed form succeeds and returns it. *)
Theorem query_roundtrip (f64_display : f64 -> chars) (e : QueryExpr) (Hok : expr_ok e = true) :
  parse_query (print_expr f64_display e) = Ok e.
Proof. by apply parse_print. Qed.

(** The query parser returns on every input: tokenizer and parser never
    run out of the fuel their input's length gives, every failure is an error of
    the language, and the unchecked index after [LIKE] panics only on a query whose
    last token is [LIKE]. *)
Theorem parse_query_returns (input : chars) :
  match parse_query input with
  | Ok _ | Err (Failed _) => True
  | Err IndexPanic => exists ts, tokenize input = Ok ts /\ last ts = Some TLike
  | Err OutOfFuel => False
  end.
Proof.
  unfold parse_query. pose proof (tokenize_lexed (S (length input)) 0%nat input ltac:(lia)) as Hl.
  unfold tokenize. destruct (tokenize_loop _ 0 input) as [ts|[]]; try done. cbn [result_bind].
  destruct ts as [|t ts]; [done|]. unfold parse_tokens.
  pose proof (or_good _ (all_parsers_good (parse_fuel (t :: ts))) (t :: ts) ltac:(unfold parse_fuel; lia)) as Hg.
  destruct (parse_or _ (t :: ts)) as [[e rest]|[err| |]]; cbn [result_bind good] in *; [by destruct rest|done| |done].
  by exists (t :: ts).
Qed.

(** A query that ends in [LIKE] does panic. *)
Lemma trailing_like_panics : parse_query (of_string "WorkflowId LIKE") = Err IndexPanic.
Proof. reflexivity. Qed.

(** Outside the condition of the round trip: a quote in a string is not escaped by the printer,
    and a nested [NOT] has to be parenthesised. *)
Lemma quote_does_not_roundtrip (f64_display : f64 -> chars) :
  parse_query (print_expr f64_display (Comparison "Name" OpEq (VString "O'Neil"))) =
    Err (Failed UnterminatedString) /\
  parse_query (of_string "NOT NOT Closed = true") = Err (Failed (ExpectedField TNot)).
Proof. by split. Qed.

Lemma query_precedence_witness :
  parse_tokens (clauses_tokens (Comparison "A" OpEq (VInteger 1), [])
    [(Not (IsNull "B"), [Comparison "C" OpLt (VBool true)])]) =
  Ok (Or (Comparison "A" OpEq (VInteger 1)) (And (Not (IsNull "B")) (Comparison "C" OpLt (VBool true)))).
Proof. apply query_precedence. reflexivity. Defined.

Lemma query_roundtrip_witness :
  parse_query (print_expr (fun _ => []) (And (In_ "Status" [VString "Running"; VNull]) (Not (Like "Kind" "pay%")))) =
  Ok (And (In_ "Status" [VString "Running"; VNull]) (Not (Like "Kind" "pay%"))).
Proof. apply query_roundtrip. reflexivity. Defined.

End SearchQuery.
