(* ===== verification/SearchExec.v ===== *)
(** * Query executor ([velocity-workflow-engine/src/search_query_executor.rs])

    Evaluation of parsed queries on the executions of the visibility index: the
    mapping of field names, the comparison of values of different types, the [LIKE]
    matcher, and the paginated execution of a query string.  [like] is what the
    comment of the matcher says: [%] is any sequence, [_] one character. *)

From Stdlib Require Import SpecFloat.
From stdpp Require Import sorting.
From S2P Require Import Prelude Text Bitmask Slab SlotMap Index Context Visibility SearchQuery.
Import Context Visibility SearchQuery.

Module SearchExec.

(** ** Values and fields *)

Inductive ComparableValue : Type :=
| CString (s : string)
| CInteger (i : Z)
| CDouble (d : f64)
| CBool (b : bool).

(** [x as i64] of a [u64], and [i as f64]. *)
Definition u64_as_i64 (x : Z) : Z := if x <? 2 ^ 63 then x else x - 2 ^ 64.
Definition i64_as_f64 (i : Z) : f64 := binary_normalize 53 1024 i 0 false.

Definition status_to_string (s : WorkflowStatus) : string :=
  match s with
  | Void => "Void"
  | Running => "Running"
  | Completed => "Completed"
  | Context.Failed => "Failed"
  | Canceled => "Canceled"
  | Terminated => "Terminated"
  | ContinuedAsNew => "ContinuedAsNew"
  | TimedOut => "TimedOut"
  end%string.

Definition attr_value (a : SearchAttributeValue) : ComparableValue :=
  match a with
  | AttrString s | AttrKeyword s => CString s
  | AttrInteger i => CInteger i
  | AttrDouble d => CDouble d
  | AttrBool b => CBool b
  | AttrDateTime t => CInteger (u64_as_i64 t)
  end.

(** [field] is one of the names of an arm of the match. *)
Definition named (field : string) (names : list string) : bool := existsb (String.eqb field) names.

Definition resolve_field (field : string) (info : WorkflowExecutionInfo) : option ComparableValue :=
  if named field ["WorkflowId"; "WorkflowID"]%string then
    Some (CString (u64_to_string (info_workflow_id info)))
  else if named field ["RunId"; "RunID"]%string then Some (CString (u64_to_string (info_run_id info)))
  else if named field ["WorkflowType"; "WorkflowTypeId"; "WorkflowType_id"]%string then
    Some (CInteger (u64_as_i64 (info_type_id info)))
  else if named field ["NamespaceId"; "Namespace"]%string then
    Some (CInteger (u64_as_i64 (info_namespace_id info)))
  else if named field ["ExecutionStatus"; "Status"]%string then
    Some (CString (status_to_string (info_status info)))
  else if named field ["StartTime"; "ExecutionTime"; "StartTimestamp"]%string then
    Some (CInteger (u64_as_i64 (start_time_ms info)))
  else if named field ["CloseTime"; "CloseTimestamp"]%string then
    (fun t => CInteger (u64_as_i64 t)) <$> close_time_ms info
  else if named field ["TaskQueue"; "TaskQueueHash"]%string then
    Some (CInteger (u64_as_i64 (info_queue_hash info)))
  else attr_value <$> (search_attributes info !! field).

(** ** Comparison *)

Definition bool_compare (a b : bool) : comparison :=
  match a, b with
  | false, true => Lt
  | true, false => Gt
  | _, _ => Eq
  end.

(** [partial_cmp(..).unwrap_or(Equal)]. *)
Definition f64_cmp (a b : f64) : comparison := default Eq (SFcompare a b).

Definition value_ordering (field : ComparableValue) (query : QueryValue) : option comparison :=
  match field, query with
  | CString fs, VString qs => Some (String.compare fs qs)
  | CString fs, VInteger qi => (fun fi => fi ?= qi) <$> parse_i64 (of_string fs)
  | CInteger fi, VInteger qi => Some (fi ?= qi)
  | CInteger fi, VDouble qd => Some (f64_cmp (i64_as_f64 fi) qd)
  | CDouble fd, VDouble qd => Some (f64_cmp fd qd)
  | CDouble fd, VInteger qi => Some (f64_cmp fd (i64_as_f64 qi))
  | CBool fb, VBool qb => Some (bool_compare fb qb)
  | CString fs, VBool qb =>
      Some (String.compare (to_string (map to_lower (of_string fs))) (if qb then "true" else "false")%string)
  | _, _ => None
  end.

Definition op_holds (op : CompareOp) (o : comparison) : bool :=
  match op, o with
  | OpEq, Eq => true | OpEq, _ => false
  | OpNe, Eq => false | OpNe, _ => true
  | OpLt, Lt => true | OpLt, _ => false
  | OpGt, Gt => true | OpGt, _ => false
  | OpLe, Gt => false | OpLe, _ => true
  | OpGe, Lt => false | OpGe, _ => true
  end.

Definition compare_values (field : ComparableValue) (op : CompareOp) (query : QueryValue) : bool :=
  match value_ordering field query with
  | Some o => op_holds op o
  | None => false
  end.

(** ** The [LIKE] matcher

    The two indices are the rests of value and pattern; [star] holds the pattern
    after the last [%] and the rest of the value it was last tried at. *)

Definition is_any (c : ascii) : bool := code c =? 95.
Definition is_star (c : ascii) : bool := code c =? 37.

Fixpoint like_loop (fuel : nat) (v p : chars) (star : option (chars * chars)) : option bool :=
  match fuel with
  | O => None
  | S fuel =>
      match v with
      | [] => Some (match drop_while is_star p with [] => true | _ => false end)
      | x :: v' =>
          match p with
          | c :: p' =>
              if is_any c || Ascii.eqb c x then like_loop fuel v' p' star
              else if is_star c then like_loop fuel v p' (Some (p', v))
              else match star with
                   | Some (sp, sv) => like_loop fuel (tail sv) sp (Some (sp, tail sv))
                   | None => Some false
                   end
          | [] => match star with
                  | Some (sp, sv) => like_loop fuel (tail sv) sp (Some (sp, tail sv))
                  | None => Some false
                  end
          end
      end
  end.

(** Enough iterations of the loop for a value and a pattern of these lengths. *)
Definition like_fuel (n m : nat) : nat := S (S m * (S n * S m) + n * S m + m).

Definition like_match (value pattern : string) : bool :=
  let v := of_string value in
  let p := of_string pattern in
  default false (like_loop (like_fuel (length v) (length p)) v p None).

(** ** Evaluation *)

Fixpoint evaluate (expr : QueryExpr) (info : WorkflowExecutionInfo) : bool :=
  match expr with
  | Comparison field op value =>
      match resolve_field field info with
      | Some fv => compare_values fv op value
      | None => false
      end
  | And lhs rhs => evaluate lhs info && evaluate rhs info
  | Or lhs rhs => evaluate lhs info || evaluate rhs info
  | Not inner => negb (evaluate inner info)
  | Between field low high =>
      match resolve_field field info with
      | Some fv => compare_values fv OpGe low && compare_values fv OpLe high
      | None => false
      end
  | In_ field vs =>
      match resolve_field field info with
      | Some fv => existsb (compare_values fv OpEq) vs
      | None => false
      end
  | Like field pattern =>
      match resolve_field field info with
      | Some (CString s) => like_match s pattern
      | _ => false
      end
  | IsNull field => match resolve_field field info with None => true | Some _ => false end
  | IsNotNull field => match resolve_field field info with None => false | Some _ => true end
  end.

Definition execute (v : VisibilityIndex) (order : list Z) (expr : QueryExpr) : list WorkflowExecutionInfo :=
  List.filter (evaluate expr) (list_all v order).

(** The sort key here puts running workflows last by close time. *)
Definition exec_sort_key (f : SortField) (info : WorkflowExecutionInfo) : Z :=
  match f with
  | ByStartTime => start_time_ms info
  | ByCloseTime => default (2 ^ 64 - 1) (close_time_ms info)
  | ByWorkflowKey => info_key info
  end.

Definition exec_le (f : SortField) (o : SortOrder) (a b : WorkflowExecutionInfo) : bool :=
  match o with
  | Ascending => exec_sort_key f a <=? exec_sort_key f b
  | Descending => exec_sort_key f b <=? exec_sort_key f a
  end.

Definition exec_query (v : VisibilityIndex) (order : list Z) (expr : QueryExpr) (f : SortField)
    (o : SortOrder) (page_size : nat) (page_token : option nat) : PaginatedResult :=
  let results := stable_sort (exec_le f o) (execute v order expr) in
  let total := length results in
  let offset := default O page_token in
  let page := take page_size (drop offset results) in
  let next := (offset + length page)%nat in
  mkPage page (if (next <? total)%nat then Some next else None) total.

Definition execute_string (v : VisibilityIndex) (order : list Z) (query : chars) :
    parse (list WorkflowExecutionInfo) :=
  let? expr := parse_query query in Ok (execute v order expr).

Definition execute_string_query (v : VisibilityIndex) (order : list Z) (query : chars) (f : SortField)
    (o : SortOrder) (page_size : nat) (page_token : option nat) : parse PaginatedResult :=
  let? expr := parse_query query in Ok (exec_query v order expr f o page_size page_token).

(** ** What [LIKE] means *)

Inductive like : chars -> chars -> Prop :=
| like_nil : like [] []
| like_any p x v : like p v -> like ("_"%char :: p) (x :: v)
| like_char c p v : like p v -> like (c :: p) (c :: v)
| like_star p u v : like p v -> like ("%"%char :: p) (u ++ v).

Lemma is_any_eq c : is_any c = true -> c = "_"%char.
Proof.
  unfold is_any, code. intros H%Z.eqb_eq. apply (f_equal Z.to_N) in H. rewrite N2Z.id in H.
  apply (f_equal ascii_of_N) in H. by rewrite ascii_N_embedding in H.
Qed.

Lemma is_star_eq c : is_star c = true -> c = "%"%char.
Proof.
  unfold is_star, code. intros H%Z.eqb_eq. apply (f_equal Z.to_N) in H. rewrite N2Z.id in H.
  apply (f_equal ascii_of_N) in H. by rewrite ascii_N_embedding in H.
Qed.

Lemma like_star_0 p v : like p v -> like ("%"%char :: p) v.
Proof. intros H. exact (like_star p [] v H). Qed.

Lemma like_stars p : drop_while is_star p = [] -> like p [].
Proof.
  induction p as [|c p IH]; simpl; intros H; [constructor|].
  destruct (is_star c) eqn:Hc; [|done]. rewrite (is_star_eq c Hc). apply like_star_0. by apply IH.
Qed.

Lemma like_nil_stars p : like p [] -> drop_while is_star p = [].
Proof.
  intros H. assert (Hgen : forall v, like p v -> v = [] -> drop_while is_star p = []); [|by apply (Hgen [])].
  clear H. induction 1 as [| | |p u v H IH]; try done. intros [_ Hv]%app_eq_nil. by apply IH.
Qed.

Lemma like_step_match c x p v : is_any c || Ascii.eqb c x = true -> like p v -> like (c :: p) (x :: v).
Proof.
  intros [Hc| ->%Ascii.eqb_eq]%orb_prop H; [rewrite (is_any_eq c Hc)|]; by constructor.
Qed.

(** The inverse: a character other than [%] matches the first one of the value. *)
Lemma like_cons_inv c p v :
  is_star c = false -> like (c :: p) v ->
  exists x v', v = x :: v' /\ is_any c || Ascii.eqb c x = true /\ like p v'.
Proof.
  intros Hc H. inversion H; subst; [by eexists _, _|eexists _, _; split_and!; [done| |done]|done].
  by rewrite Ascii.eqb_refl, orb_true_r.
Qed.

Lemma like_star_inv p v : like ("%"%char :: p) v -> ~ In "%"%char v -> exists u w, v = u ++ w /\ like p w.
Proof. intros H Hv. inversion H; subst; [destruct Hv; by left|by eexists _, _]. Qed.

(** ** Soundness *)

(** What a state of the loop still has to find. *)
Definition like_pending (v p : chars) (star : option (chars * chars)) : Prop :=
  like p v \/ exists sp sv u w, star = Some (sp, sv) /\ sv = u ++ w /\ like sp w.

Lemma pending_retry sp sv :
  like_pending (tail sv) sp (Some (sp, tail sv)) -> exists u w, sv = u ++ w /\ like sp w.
Proof.
  assert (Ht : exists h, sv = h ++ tail sv) by (destruct sv as [|x sv]; [by exists []|by exists [x]]).
  destruct Ht as [h Ht]. intros [H|(sp' & sv' & u & w & [= <- <-] & Hw & H)].
  - by exists h, (tail sv).
  - exists (h ++ u), w. by rewrite <- app_assoc, <- Hw.
Qed.

Lemma like_loop_sound fuel v p star : like_loop fuel v p star = Some true -> like_pending v p star.
Proof.
  revert v p star. induction fuel as [|fuel IH]; intros v p star H; [done|]. cbn [like_loop] in H.
  assert (Hretry : match star with
                   | Some (sp, sv) => like_loop fuel (tail sv) sp (Some (sp, tail sv))
                   | None => Some false end = Some true -> like_pending v p star).
  { destruct star as [[sp sv]|]; [|done]. intros (u & w & -> & Hl)%IH%pending_retry.
    right. by exists sp, (u ++ w), u, w. }
  destruct v as [|x v]; [|destruct p as [|c p]; [by apply Hretry|]].
  - left. apply like_stars. by destruct (drop_while is_star p).
  - destruct (is_any c || Ascii.eqb c x) eqn:Hc.
    { apply IH in H as [H|H]; [left; by apply like_step_match|by right]. }
    destruct (is_star c) eqn:Hs; [|by apply Hretry]. rewrite (is_star_eq c Hs).
    left. apply IH in H as [H|(sp & sv & u & w & [= <- <-] & -> & H)]; [by apply like_star_0|by constructor].
Qed.

(** ** Termination *)

(** A bound on the iterations left: a new [%] shortens the pattern after the star, a retry the
    value at the star, and a match the pattern. *)
Definition potential (n m : nat) (p : chars) (star : option (chars * chars)) : nat :=
  match star with
  | Some (sp, sv) => length sp * (S n * S m) + length sv * S m
  | None => S m * (S n * S m) + n * S m
  end + length p.

(** The sizes of a state of the loop on a value of length [n] and a pattern of length [m]. *)
Definition sized (n m : nat) (v p : chars) (star : option (chars * chars)) : Prop :=
  match star with
  | Some (sp, sv) =>
      (length p <= length sp)%nat /\ (length sp <= m)%nat /\
      (length v <= length sv)%nat /\ (length sv <= n)%nat
  | None => (length p <= m)%nat /\ (length v <= n)%nat
  end.

Lemma sized_star n m x v c p star :
  sized n m (x :: v) (c :: p) star ->
  sized n m (x :: v) p (Some (p, x :: v)) /\
  (potential n m p (Some (p, x :: v)) < potential n m (c :: p) star)%nat.
Proof.
  unfold sized, potential. cbn [length]. generalize (length p) as lp, (length v) as lv. intros lp lv H.
  assert (Hlp : (lp < S m)%nat) by (destruct star as [[sp sv]|]; simpl in H; lia).
  assert (Hlv : (S lv <= n)%nat) by (destruct star as [[sp sv]|]; simpl in H; lia).
  split; [lia|].
  pose proof (Nat.mul_le_mono_r (S lv) n (S m) Hlv).
  assert (Hk : forall s, (S lp <= s)%nat -> (lp * (S n * S m) + S n * S m <= s * (S n * S m))%nat).
  { intros s Hs. pose proof (Nat.mul_le_mono_r (S lp) s (S n * S m) Hs). lia. }
  destruct star as [[sp sv]|]; [pose proof (Hk (length sp) ltac:(lia))|pose proof (Hk (S m) ltac:(lia))]; lia.
Qed.

Lemma sized_retry n m x v p sp sv :
  sized n m (x :: v) p (Some (sp, sv)) ->
  sized n m (tail sv) sp (Some (sp, tail sv)) /\
  (potential n m sp (Some (sp, tail sv)) < potential n m p (Some (sp, sv)))%nat.
Proof. unfold sized, potential. destruct sv as [|y sv]; simpl; [lia|]. split; lia. Qed.

Lemma like_loop_returns n m fuel v p star :
  sized n m v p star -> (potential n m p star < fuel)%nat -> is_Some (like_loop fuel v p star).
Proof.
  revert v p star. induction fuel as [|fuel IH]; intros v p star Hs Hf; [lia|]. cbn [like_loop].
  destruct v as [|x v]; [done|].
  assert (Hretry : is_Some match star with
            | Some (sp, sv) => like_loop fuel (tail sv) sp (Some (sp, tail sv))
            | None => Some false end).
  { destruct star as [[sp sv]|]; [|done]. destruct (sized_retry _ _ _ _ _ _ _ Hs). apply IH; [done|lia]. }
  destruct p as [|c p]; [done|]. destruct (is_any c || Ascii.eqb c x).
  { apply IH; [destruct star as [[sp sv]|]; simpl in *; lia|unfold potential in *; simpl in *; lia]. }
  destruct (is_star c); [|done]. destruct (sized_star _ _ _ _ _ _ _ Hs). apply IH; [done|lia].
Qed.

(** ** Completeness *)

(** Since the last [%] the loop has matched [q], which has no [%], with [u]. *)
Definition tracked (v p : chars) (star : option (chars * chars)) : Prop :=
  match star with
  | Some (sp, sv) => exists q u, sp = q ++ p /\ sv = u ++ v /\ length q = length u /\
                       forallb (fun c => negb (is_star c)) q = true /\ ~ In "%"%char sv
  | None => ~ In "%"%char v
  end.

(** A match remains: here, or at the star with a shorter rest of the value. *)
Definition remaining (v p : chars) (star : option (chars * chars)) : Prop :=
  like p v \/ exists sp x u w, star = Some (sp, x :: u ++ w) /\ like sp w.

Lemma like_prefix q p w :
  forallb (fun c => negb (is_star c)) q = true -> like (q ++ p) w ->
  exists w1 w2, w = w1 ++ w2 /\ length w1 = length q /\ like p w2.
Proof.
  revert w. induction q as [|c q IH]; intros w Hq H; [by exists [], w|].
  simpl in Hq. apply andb_prop in Hq as [Hc Hq]. apply negb_true_iff in Hc.
  apply like_cons_inv in H as (x & w' & -> & _ & H); [|done].
  destruct (IH w' Hq H) as (w1 & w2 & -> & Hl & Hp). exists (x :: w1), w2. simpl. by rewrite Hl.
Qed.

(** Two suffixes of a list, the shorter one inside the longer one. *)
Lemma shorter_suffix {A} (a b c d : list A) :
  a ++ b = c ++ d -> (length d <= length b)%nat -> exists e, b = e ++ d.
Proof.
  revert c. induction a as [|x a IH]; intros c H Hl; simpl in H; [by exists c|].
  destruct c as [|y c]; simpl in H.
  - exfalso. subst d. simpl in Hl. rewrite length_app in Hl. lia.
  - injection H as _ H. by apply (IH c).
Qed.

(** A match that an earlier [%] can still give is one the next [%] gives. *)
Lemma remaining_star v p star :
  tracked v ("%"%char :: p) star -> remaining v ("%"%char :: p) star -> exists u w, v = u ++ w /\ like p w.
Proof.
  intros Ht [H|(sp & x & y & w & -> & H)].
  { apply like_star_inv; [done|]. destruct star as [[sp sv]|]; [|done].
    destruct Ht as (q & u & _ & -> & _ & _ & Hn). contradict Hn. apply in_or_app. by right. }
  destruct Ht as (q & u & -> & Hv & Hl & Hq & Hn).
  destruct (like_prefix _ _ _ Hq H) as (w1 & w2 & -> & Hl1 & H2).
  apply like_star_inv in H2 as (a & b & -> & Hb).
  - destruct (shorter_suffix u v (x :: y ++ w1 ++ a) b) as [e ->]; [|
      |by exists e, b].
    { rewrite <- Hv. simpl. by rewrite <- !app_assoc. }
    apply (f_equal length) in Hv. simpl in Hv. rewrite !length_app in Hv. lia.
  - contradict Hn. right. apply in_or_app. right. apply in_or_app. by right.
Qed.

Lemma remaining_match c x v p star :
  is_any c || Ascii.eqb c x = true -> is_star c = false ->
  tracked (x :: v) (c :: p) star -> remaining (x :: v) (c :: p) star ->
  tracked v p star /\ remaining v p star.
Proof.
  intros Hc Hs Ht Hr. split.
  - destruct star as [[sp sv]|]; simpl in *; [|tauto]. destruct Ht as (q & u & -> & -> & Hl & Hq & Hn).
    exists (q ++ [c]), (u ++ [x]). rewrite <- !app_assoc, !length_app, forallb_app. simpl.
    rewrite Hl, Hq, Hs. done.
  - destruct Hr as [H|H]; [left|by right].
    by destruct (like_cons_inv _ _ _ Hs H) as (? & ? & [= <- <-] & _ & ?).
Qed.

(** Where nothing matches here, the match is at the star, one character on or later. *)
Lemma remaining_retry v p sp sv :
  ~ like p v -> tracked v p (Some (sp, sv)) -> remaining v p (Some (sp, sv)) ->
  tracked (tail sv) sp (Some (sp, tail sv)) /\ remaining (tail sv) sp (Some (sp, tail sv)).
Proof.
  intros Hno Ht [H|(sp' & x & u & w & [= <- ->] & H)]; [done|]. split.
  - exists [], []. split_and!; try done. destruct Ht as (_ & _ & _ & _ & _ & _ & Hn).
    contradict Hn. by right.
  - cbn [tail]. destruct u as [|y u]; [by left|right]. by exists sp, y, u, w.
Qed.

Lemma like_loop_complete fuel v p star b :
  tracked v p star -> remaining v p star -> like_loop fuel v p star = Some b -> b = true.
Proof.
  revert v p star. induction fuel as [|fuel IH]; intros v p star Ht Hr H; [done|]. cbn [like_loop] in H.
  assert (Hretry : ~ like p v -> match star with
                   | Some (sp, sv) => like_loop fuel (tail sv) sp (Some (sp, tail sv))
                   | None => Some false end = Some b -> b = true).
  { intros Hno Hl. destruct star as [[sp sv]|]; [|by destruct Hr as [|(? & ? & ? & ? & ? & _)]].
    destruct (remaining_retry _ _ _ _ Hno Ht Hr). by eapply IH. }
  destruct v as [|x v]; [|destruct p as [|c p]].
  - destruct Hr as [Hp|(sp & x & u & w & -> & Hp)]; [by rewrite (like_nil_stars _ Hp) in H; injection H|].
    destruct Ht as (q & u' & -> & Hv & Hl & Hq & _).
    destruct (like_prefix _ _ _ Hq Hp) as (w1 & w2 & -> & Hl1 & _).
    apply (f_equal length) in Hv. simpl in Hv. rewrite !length_app in Hv. simpl in Hv. lia.
  - apply Hretry; [|done]. intros Hl. inversion Hl.
  - destruct (is_star c) eqn:Hs.
    + rewrite (is_star_eq c Hs) in *.
      assert (Hx : Ascii.eqb "%" x = false).
      { apply Ascii.eqb_neq. intros <-. destruct star as [[sp sv]|]; [|by destruct Ht; left].
        destruct Ht as (q & u & _ & -> & _ & _ & Hn). destruct Hn. apply in_or_app. right. by left. }
      rewrite Hx in H. cbn [is_any orb] in H. simpl in H.
      destruct (remaining_star _ _ _ Ht Hr) as (u & w & Hv & Hw).
      eapply IH; [| |exact H].
      * exists [], []. split_and!; try done. destruct star as [[sp sv]|]; [|done].
        destruct Ht as (q & u' & _ & -> & _ & _ & Hn). contradict Hn. apply in_or_app. by right.
      * destruct u as [|y u]; simpl in Hv; [left; by subst w|right].
        exists p, y, u, w. by rewrite Hv.
    + destruct (is_any c || Ascii.eqb c x) eqn:Hc.
      * destruct (remaining_match _ _ _ _ _ Hc Hs Ht Hr). by eapply IH.
      * apply Hretry; [|done]. intros Hl.
        destruct (like_cons_inv _ _ _ Hs Hl) as (? & ? & [= <- <-] & Hc' & _). congruence.
Qed.

Lemma like_match_returns value pattern :
  exists b, like_loop (like_fuel (length (of_string value)) (length (of_string pattern)))
              (of_string value) (of_string pattern) None = Some b /\ like_match value pattern = b.
Proof.
  unfold like_match. set (v := of_string value). set (p := of_string pattern).
  destruct (like_loop_returns (length v) (length p) (like_fuel (length v) (length p)) v p None) as [b Hb].
  - done.
  - unfold potential, like_fuel. lia.
  - rewrite Hb. by exists b.
Qed.

Lemma like_match_sound value pattern : like_match value pattern = true -> like (of_string pattern) (of_string value).
Proof.
  destruct (like_match_returns value pattern) as (b & Hb & ->). intros ->.
  by destruct (like_loop_sound _ _ _ _ Hb) as [|(? & ? & ? & ? & ? & _)].
Qed.

Lemma like_match_complete value pattern :
  ~ In "%"%char (of_string value) -> like (of_string pattern) (of_string value) -> like_match value pattern = true.
Proof.
  destruct (like_match_returns value pattern) as (b & Hb & ->). intros Hn Hl.
  eapply like_loop_complete; [| |exact Hb]; [done|by left].
Qed.

Lemma like_match_iff value pattern :
  ~ In "%"%char (of_string value) -> like_match value pattern = true <-> like (of_string pattern) (of_string value).
Proof. intros Hn. split; [apply like_match_sound|by apply like_match_complete]. Qed.

(** The [LIKE] matcher, a single loop that backtracks to the last [%] only,
    decides the language of the pattern: it ends, what it accepts matches, and
    every match is accepted when the value itself contains no [%]. *)
Theorem like_match_correct (value pattern : string) :
  (like_match value pattern = true -> like (of_string pattern) (of_string value)) /\
  (~ In "%"%char (of_string value) -> like (of_string pattern) (of_string value) ->
   like_match value pattern = true) /\
  is_Some (like_loop (like_fuel (length (of_string value)) (length (of_string pattern)))
             (of_string value) (of_string pattern) None).
Proof.
  split_and!; [apply like_match_sound|apply like_match_complete|].
  destruct (like_match_returns value pattern) as (b & -> & _). done.
Qed.

(** A [%] in the value is taken by the [%] of the pattern as an ordinary character. *)
Lemma like_percent_value :
  like_match "%abc" "%" = false /\ like (of_string "%") (of_string "%abc").
Proof. split; [reflexivity|]. exact (like_star [] (of_string "%abc") [] like_nil). Qed.

(** ** What a query means

    Independent of the evaluator: which value a field has, when a value is below, equal to or above a
    value of the query, and which executions satisfy an expression. *)

(** [x as i64]: the number of the signed range that is [x] modulo 2^64. *)
Definition signed (x i : Z) : Prop := - 2 ^ 63 <= i < 2 ^ 63 /\ exists k, x = i + 2 ^ 64 * k.

Inductive attr_denotes : SearchAttributeValue -> ComparableValue -> Prop :=
| denotes_string s : attr_denotes (AttrString s) (CString s)
| denotes_keyword s : attr_denotes (AttrKeyword s) (CString s)
| denotes_integer i : attr_denotes (AttrInteger i) (CInteger i)
| denotes_double d : attr_denotes (AttrDouble d) (CDouble d)
| denotes_bool b : attr_denotes (AttrBool b) (CBool b)
| denotes_time t i : signed t i -> attr_denotes (AttrDateTime t) (CInteger i).

(** The names with a meaning of their own, by what they name. *)
Definition id_names : list string := ["WorkflowId"; "WorkflowID"]%string.
Definition run_names : list string := ["RunId"; "RunID"]%string.
Definition type_names : list string := ["WorkflowType"; "WorkflowTypeId"; "WorkflowType_id"]%string.
Definition namespace_names : list string := ["NamespaceId"; "Namespace"]%string.
Definition status_names : list string := ["ExecutionStatus"; "Status"]%string.
Definition start_names : list string := ["StartTime"; "ExecutionTime"; "StartTimestamp"]%string.
Definition close_names : list string := ["CloseTime"; "CloseTimestamp"]%string.
Definition queue_names : list string := ["TaskQueue"; "TaskQueueHash"]%string.
Definition reserved_names : list string :=
  id_names ++ run_names ++ type_names ++ namespace_names ++ status_names ++ start_names ++ close_names ++ queue_names.

Inductive field_value (info : WorkflowExecutionInfo) : string -> ComparableValue -> Prop :=
| value_id f : f ∈ id_names -> field_value info f (CString (u64_to_string (info_workflow_id info)))
| value_run f : f ∈ run_names -> field_value info f (CString (u64_to_string (info_run_id info)))
| value_type f i : f ∈ type_names -> signed (info_type_id info) i -> field_value info f (CInteger i)
| value_namespace f i : f ∈ namespace_names -> signed (info_namespace_id info) i -> field_value info f (CInteger i)
| value_status f : f ∈ status_names -> field_value info f (CString (status_to_string (info_status info)))
| value_start f i : f ∈ start_names -> signed (start_time_ms info) i -> field_value info f (CInteger i)
| value_close f t i : f ∈ close_names -> close_time_ms info = Some t -> signed t i -> field_value info f (CInteger i)
| value_queue f i : f ∈ queue_names -> signed (info_queue_hash info) i -> field_value info f (CInteger i)
| value_attr f a v :
    f ∉ reserved_names -> search_attributes info !! f = Some a -> attr_denotes a v -> field_value info f v.

(** Three-way order from a strict order and an equality. *)
Definition ordered {A} (lt eq : A -> A -> Prop) (c : comparison) (a b : A) : Prop :=
  match c with Lt => lt a b | Eq => eq a b | Gt => lt b a end.

(** Texts by their characters, from the left; a proper prefix comes first. *)
Inductive text_lt : chars -> chars -> Prop :=
| text_end c l : text_lt [] (c :: l)
| text_here c d l m : code c < code d -> text_lt (c :: l) (d :: m)
| text_later c l m : text_lt l m -> text_lt (c :: l) (c :: m).

Definition text_order (c : comparison) (s t : string) : Prop := ordered text_lt eq c (of_string s) (of_string t).
Definition int_order (c : comparison) (i j : Z) : Prop := ordered Z.lt eq c i j.
Definition bool_order (c : comparison) (a b : bool) : Prop := ordered (fun a b => a = false /\ b = true) eq c a b.
(** Floating point numbers by their IEEE order; a NaN counts as equal to everything. *)
Definition float_order (c : comparison) (a b : f64) : Prop :=
  ordered (fun a b => SFltb a b = true) (fun a b => SFeqb a b = true \/ a = S754_nan \/ b = S754_nan) c a b.

(** How the value of a field stands to a value of the query; values of other types do not compare. *)
Definition stands (v : ComparableValue) (c : comparison) (q : QueryValue) : Prop :=
  match v, q with
  | CString fs, VString qs => text_order c fs qs
  | CString fs, VInteger qi => exists fi, parse_i64 (of_string fs) = Some fi /\ int_order c fi qi
  | CString fs, VBool qb =>
      text_order c (to_string (map to_lower (of_string fs))) (if qb then "true" else "false")%string
  | CInteger fi, VInteger qi => int_order c fi qi
  | CInteger fi, VDouble qd => float_order c (i64_as_f64 fi) qd
  | CDouble fd, VDouble qd => float_order c fd qd
  | CDouble fd, VInteger qi => float_order c fd (i64_as_f64 qi)
  | CBool fb, VBool qb => bool_order c fb qb
  | _, _ => False
  end.

Definition holds (op : CompareOp) (v : ComparableValue) (q : QueryValue) : Prop :=
  match op with
  | OpEq => stands v Eq q
  | OpNe => stands v Lt q \/ stands v Gt q
  | OpLt => stands v Lt q
  | OpGt => stands v Gt q
  | OpLe => stands v Lt q \/ stands v Eq q
  | OpGe => stands v Gt q \/ stands v Eq q
  end.

Fixpoint satisfies (expr : QueryExpr) (info : WorkflowExecutionInfo) : Prop :=
  match expr with
  | Comparison f op q => exists v, field_value info f v /\ holds op v q
  | And l r => satisfies l info /\ satisfies r info
  | Or l r => satisfies l info \/ satisfies r info
  | Not e => ~ satisfies e info
  | Between f low high => exists v, field_value info f v /\ holds OpGe v low /\ holds OpLe v high
  | In_ f qs => exists v q, field_value info f v /\ q ∈ qs /\ stands v Eq q
  | Like f p => exists s, field_value info f (CString s) /\ like (of_string p) (of_string s)
  | IsNull f => ~ exists v, field_value info f v
  | IsNotNull f => exists v, field_value info f v
  end.

(** No field that a [LIKE] of the expression is about has a [%] in its value. *)
Fixpoint no_percent (expr : QueryExpr) (info : WorkflowExecutionInfo) : Prop :=
  match expr with
  | And l r | Or l r => no_percent l info /\ no_percent r info
  | Not e => no_percent e info
  | Like f _ => forall s, field_value info f (CString s) -> ~ In "%"%char (of_string s)
  | _ => True
  end.

Lemma signed_iff x i : 0 <= x < 2 ^ 64 -> signed x i <-> i = u64_as_i64 x.
Proof.
  intros Hx. unfold signed, u64_as_i64. destruct (Z.ltb_spec x (2 ^ 63)); split.
  - intros [Hi [k Hk]]. lia.
  - intros ->. split; [lia|]. exists 0. lia.
  - intros [Hi [k Hk]]. lia.
  - intros ->. split; [lia|]. exists 1. lia.
Qed.

Lemma named_elem f names : named f names = true <-> f ∈ names.
Proof.
  unfold named. rewrite existsb_exists, list_elem_of_In. split.
  - intros (x & Hx & ->%String.eqb_eq). done.
  - intros Hf. exists f. by rewrite String.eqb_refl.
Qed.

Lemma named_false f names : named f names = false -> f ∉ names.
Proof. intros H Hf. apply named_elem in Hf. congruence. Qed.

(** The numbers of an execution fit their 64 bits. *)
Record info_fits (info : WorkflowExecutionInfo) : Prop := mkFits {
  fits_type : u64 (info_type_id info);
  fits_namespace : u64 (info_namespace_id info);
  fits_start : u64 (start_time_ms info);
  fits_close : forall t, close_time_ms info = Some t -> u64 t;
  fits_queue : u64 (info_queue_hash info);
  fits_attrs : forall f t, search_attributes info !! f = Some (AttrDateTime t) -> u64 t;
}.

Lemma attr_denotes_iff a v :
  (forall t, a = AttrDateTime t -> u64 t) -> attr_denotes a v <-> v = attr_value a.
Proof.
  intros Hf. split.
  - destruct 1 as [| | | | |t i Ht]; cbn; try done. f_equal. apply signed_iff; [by apply Hf|done].
  - intros ->. destruct a; constructor. apply signed_iff; [by apply Hf|done].
Qed.

Lemma field_value_sound info f v : info_fits info -> resolve_field f info = Some v -> field_value info f v.
Proof.
  intros [F1 F2 F3 F4 F5 F6] H. unfold resolve_field in H.
  destruct (named f ["WorkflowId"; "WorkflowID"]%string) eqn:N1; [injection H as <-; apply value_id; by apply named_elem|].
  destruct (named f ["RunId"; "RunID"]%string) eqn:N2; [injection H as <-; apply value_run; by apply named_elem|].
  destruct (named f ["WorkflowType"; "WorkflowTypeId"; "WorkflowType_id"]%string) eqn:N3;
    [injection H as <-; apply value_type; [by apply named_elem|by apply signed_iff]|].
  destruct (named f ["NamespaceId"; "Namespace"]%string) eqn:N4;
    [injection H as <-; apply value_namespace; [by apply named_elem|by apply signed_iff]|].
  destruct (named f ["ExecutionStatus"; "Status"]%string) eqn:N5; [injection H as <-; apply value_status; by apply named_elem|].
  destruct (named f ["StartTime"; "ExecutionTime"; "StartTimestamp"]%string) eqn:N6;
    [injection H as <-; apply value_start; [by apply named_elem|by apply signed_iff]|].
  destruct (named f ["CloseTime"; "CloseTimestamp"]%string) eqn:N7.
  { destruct (close_time_ms info) as [t|] eqn:Ht; [|done]. injection H as <-. apply (value_close _ _ t); [by apply named_elem|done|].
    apply signed_iff; [by apply F4|done]. }
  destruct (named f ["TaskQueue"; "TaskQueueHash"]%string) eqn:N8;
    [injection H as <-; apply value_queue; [by apply named_elem|by apply signed_iff]|].
  destruct (search_attributes info !! f) as [a|] eqn:Ha; [|done]. injection H as <-. apply (value_attr _ _ a); [|done|].
  - unfold reserved_names. rewrite !elem_of_app.
    apply named_false in N1, N2, N3, N4, N5, N6, N7, N8. tauto.
  - apply attr_denotes_iff; [|done]. intros t ->. by apply (F6 f).
Qed.

Lemma field_value_complete info f v : info_fits info -> field_value info f v -> resolve_field f info = Some v.
Proof.
  intros [F1 F2 F3 F4 F5 F6]. unfold u64, fits in *.
  destruct 1 as [f H|f H|f i H Hi|f i H Hi|f H|f i H Hi|f t i H Ht Hi|f i H Hi|f a v H Ha Hv];
    try (apply signed_iff in Hi as ->; [|naive_solver]);
    try (unfold id_names, run_names, type_names, namespace_names, status_names, start_names, close_names, queue_names in H;
         repeat (apply elem_of_cons in H as [->|H]; [cbn; rewrite ?Ht; reflexivity|]); by apply not_elem_of_nil in H).
  unfold reserved_names in H. rewrite !not_elem_of_app in H. destruct H as (N1 & N2 & N3 & N4 & N5 & N6 & N7 & N8).
  assert (Hn : forall names, f ∉ names -> named f names = false).
  { intros names Hf. apply not_true_iff_false. by rewrite named_elem. }
  apply Hn in N1, N2, N3, N4, N5, N6, N7, N8. unfold resolve_field.
  unfold id_names, run_names, type_names, namespace_names, status_names, start_names, close_names, queue_names in *.
  rewrite N1, N2, N3, N4, N5, N6, N7, N8, Ha. cbn. f_equal. symmetry. apply attr_denotes_iff; [|done]. intros t ->. by apply (F6 f).
Qed.

Lemma field_value_iff info f v : info_fits info -> field_value info f v <-> resolve_field f info = Some v.
Proof. intros Hi. split; [by apply field_value_complete|by apply field_value_sound]. Qed.

Lemma code_compare c d : Ascii.compare c d = (code c ?= code d).
Proof. unfold Ascii.compare, code. apply eq_sym, N2Z.inj_compare. Qed.

Lemma code_inj c d : code c = code d -> c = d.
Proof.
  unfold code. intros H%N2Z.inj. rewrite <- (ascii_N_embedding c), <- (ascii_N_embedding d). by rewrite H.
Qed.

Lemma text_order_iff c s t : text_order c s t <-> String.compare s t = c.
Proof.
  unfold text_order. revert t. induction s as [|x s IH]; intros [|y t]; cbn [of_string String.compare].
  - destruct c; cbn; split; try done; intros H; inversion H.
  - destruct c; cbn; split; try done; intros H; inversion H. constructor.
  - destruct c; cbn; split; try done; intros H; inversion H. constructor.
  - rewrite code_compare. destruct (Z.compare_spec (code x) (code y)) as [E|E|E].
    + apply code_inj in E as ->. rewrite <- IH. destruct c; cbn; split; intros H.
      * by injection H.
      * by f_equal.
      * inversion H; subst; [lia|done].
      * by constructor.
      * inversion H; subst; [lia|done].
      * by constructor.
    + destruct c; cbn; split; try done; intros H.
      * injection H as -> _. lia.
      * by constructor.
      * inversion H; subst; lia.
    + destruct c; cbn; split; try done; intros H.
      * injection H as -> _. lia.
      * inversion H; subst; lia.
      * by constructor.
Qed.

Lemma int_order_iff c i j : int_order c i j <-> (i ?= j) = c.
Proof. unfold int_order. destruct c; cbn; [by rewrite Z.compare_eq_iff|by rewrite Z.compare_lt_iff|by rewrite Z.compare_gt_iff]. Qed.

Lemma bool_order_iff c a b : bool_order c a b <-> bool_compare a b = c.
Proof. unfold bool_order. destruct c, a, b; cbn; naive_solver. Qed.

Lemma SFcompare_opp a b : SFcompare b a = CompOpp <$> SFcompare a b.
Proof.
  destruct a as [sa|sa| |sa ma ea], b as [sb|sb| |sb mb eb]; cbn; try (by destruct sa); try (by destruct sb); try (by destruct sa, sb); try done.
  destruct sa, sb; cbn; try done; rewrite (Z.compare_antisym ea eb); destruct (ea ?= eb); cbn; try done;
    rewrite (Pos.compare_cont_antisym ma mb Eq); cbn; by destruct (Pos.compare_cont Eq ma mb).
Qed.

Lemma SFcompare_nan a b : SFcompare a b = None <-> a = S754_nan \/ b = S754_nan.
Proof.
  destruct a as [sa|sa| |sa ma ea], b as [sb|sb| |sb mb eb]; cbn; try (by destruct sa); try (by destruct sb); try (by destruct sa, sb);
    try (split; [done|by intros [?|?]]); try (split; [auto|done]).
  all: repeat match goal with b : bool |- _ => destruct b end; cbn; try (split; [done|by intros [?|?]]); destruct (ea ?= eb);
    split; try done; by intros [?|?].
Qed.

Lemma float_order_iff c a b : float_order c a b <-> f64_cmp a b = c.
Proof.
  unfold float_order, f64_cmp, SFltb, SFeqb. pose proof (SFcompare_nan a b) as Hn. destruct c; cbn; rewrite ?(SFcompare_opp a b);
    destruct (SFcompare a b) as [[]|]; cbn; try naive_solver.
Qed.

Lemma stands_iff v c q : stands v c q <-> value_ordering v q = Some c.
Proof.
  destruct v, q; cbn; rewrite ?text_order_iff, ?int_order_iff, ?bool_order_iff, ?float_order_iff; try naive_solver.
  destruct (parse_i64 (of_string s)) as [fi|]; cbn; [|naive_solver]. split.
  - intros (fi' & E & H%int_order_iff). simplify_eq. done.
  - intros [= H]. exists fi. by rewrite int_order_iff.
Qed.

Lemma holds_iff op v q : holds op v q <-> compare_values v op q = true.
Proof.
  unfold compare_values. destruct op; cbn [holds]; rewrite ?stands_iff; destruct (value_ordering v q) as [[]|]; cbn; naive_solver.
Qed.

(** The evaluator decides the meaning. *)
Lemma evaluate_satisfies expr info :
  info_fits info -> no_percent expr info -> evaluate expr info = true <-> satisfies expr info.
Proof.
  intros Hi. assert (Hf : forall f (P : ComparableValue -> Prop),
    (exists v, field_value info f v /\ P v) <-> exists v, resolve_field f info = Some v /\ P v).
  { intros f P. by setoid_rewrite (fun v => field_value_iff info f v Hi). }
  assert (Hs : forall f, (exists v, field_value info f v) <-> is_Some (resolve_field f info)).
  { intros f. by setoid_rewrite (fun v => field_value_iff info f v Hi). }
  induction expr as [f op q|l IHl r IHr|l IHl r IHr|e IH|f low high|f qs|f p|f|f]; cbn [evaluate satisfies no_percent]; intros Hp.
  - rewrite Hf. setoid_rewrite holds_iff. destruct (resolve_field f info) as [v|]; naive_solver.
  - destruct Hp as [Hl Hr]. by rewrite andb_true_iff, (IHl Hl), (IHr Hr).
  - destruct Hp as [Hl Hr]. by rewrite orb_true_iff, (IHl Hl), (IHr Hr).
  - by rewrite negb_true_iff, <- (IH Hp), not_true_iff_false.
  - rewrite Hf. setoid_rewrite holds_iff. destruct (resolve_field f info) as [v|]; [|naive_solver].
    rewrite andb_true_iff. naive_solver.
  - setoid_rewrite (fun v => field_value_iff info f v Hi). destruct (resolve_field f info) as [v|]; [|naive_solver].
    rewrite existsb_exists. setoid_rewrite <- list_elem_of_In. setoid_rewrite <- (holds_iff OpEq). cbn. naive_solver.
  - setoid_rewrite (fun v => field_value_iff info f v Hi) in Hp. setoid_rewrite (fun v => field_value_iff info f v Hi).
    destruct (resolve_field f info) as [[s|i|d|b]|]; [|naive_solver..]. specialize (Hp s eq_refl). rewrite (like_match_iff s p Hp). naive_solver.
  - rewrite Hs. destruct (resolve_field f info); split; try done. intros H. by destruct H.
  - rewrite Hs. by destruct (resolve_field f info).
Qed.

(** ** From the query string to the pages *)

(** Follow the page tokens of a request, [fuel] pages at most. *)
Fixpoint walk (request : option nat -> parse PaginatedResult) (token : option nat) (fuel : nat) :
    option (parse (list WorkflowExecutionInfo)) :=
  match fuel with
  | O => None
  | S fuel =>
      match request token with
      | Err e => Some (Err e)
      | Ok r =>
          match Visibility.next_token r with
          | None => Some (Ok (items r))
          | Some t => (fun rest => let? l := rest in Ok (items r ++ l)) <$> walk request (Some t) fuel
          end
      end
  end.

Lemma walk_pages v order expr f o (size fuel off : nat) :
  let all := stable_sort (exec_le f o) (execute v order expr) in
  (0 < size)%nat -> (length all - off < fuel)%nat ->
  walk (fun t => Ok (exec_query v order expr f o size t)) (Some off) fuel = Some (Ok (drop off all)).
Proof.
  intros all Hn. revert off. induction fuel as [|fuel IH]; intros off Hf; [lia|]. cbn [walk].
  change (exec_query v order expr f o size (Some off)) with
    (let page := take size (drop off all) in let next := (off + length page)%nat in
     mkPage page (if (next <? length all)%nat then Some next else None) (length all)).
  cbn zeta. cbn [Visibility.next_token items]. rewrite length_take, length_drop.
  destruct (Nat.ltb_spec (off + size `min` (length all - off)) (length all)) as [Hlt|Hge].
  - rewrite IH by lia. cbn [fmap option_fmap option_map result_bind]. do 2 f_equal.
    rewrite Nat.min_l by lia. rewrite <- drop_drop. apply take_drop.
  - do 2 f_equal. apply take_ge. rewrite length_drop. lia.
Qed.

Lemma walk_ext r r' : (forall t, r t = r' t) -> forall t fuel, walk r t fuel = walk r' t fuel.
Proof.
  intros Hr t fuel. revert t. induction fuel as [|fuel IH]; intros t; [done|]. cbn [walk]. rewrite Hr.
  destruct (r' t) as [p|]; [|done]. by destruct (Visibility.next_token p); [rewrite IH|].
Qed.

Lemma exec_sorted f o l : StronglySorted (exec_le f o) (stable_sort (exec_le f o) l).
Proof.
  induction l as [|x l IH]; simpl; [constructor|].
  apply stable_insert_sorted; [| |done]; unfold exec_le; intros; destruct o; lia.
Qed.

(** The key an execution is sorted by; one that has not closed counts as closing last. *)
Inductive sort_key (info : WorkflowExecutionInfo) : SortField -> Z -> Prop :=
| key_start : sort_key info ByStartTime (start_time_ms info)
| key_closed t : close_time_ms info = Some t -> sort_key info ByCloseTime t
| key_open : close_time_ms info = None -> sort_key info ByCloseTime (2 ^ 64 - 1)
| key_key : sort_key info ByWorkflowKey (info_key info).

Definition in_order (f : SortField) (o : SortOrder) (a b : WorkflowExecutionInfo) : Prop :=
  forall ka kb, sort_key a f ka -> sort_key b f kb -> match o with Ascending => ka <= kb | Descending => kb <= ka end.

Lemma sort_key_iff info f k : sort_key info f k <-> k = exec_sort_key f info.
Proof.
  split.
  - destruct 1 as [|t Ht|Ht|]; cbn; by rewrite ?Ht.
  - intros ->. destruct f; cbn; [constructor| |constructor]. destruct (close_time_ms info) eqn:E; cbn; by constructor.
Qed.

Lemma exec_le_in_order f o a b : exec_le f o a b -> in_order f o a b.
Proof.
  unfold exec_le, in_order. intros H ka kb ->%sort_key_iff ->%sort_key_iff. apply Is_true_true in H. destruct o; lia.
Qed.

(** C35. Searching by a query string: the printed form of a query, executed
    page by page (with pages of at least one entry) until no token is returned, gives exactly the
    executions of the index that satisfy the query, each once and in the requested order.  The query
    has no floating point literals and no quotes or backslashes in its texts, and the values of the
    fields that its [LIKE]s are about have no [%]. *)
Theorem search_pages_complete (f64_display : f64 -> chars) (v : VisibilityIndex) (order : list Z)
    (expr : QueryExpr) (f : SortField) (o : SortOrder) (size : nat)
    (Hexpr : expr_ok expr = true) (Hsize : (0 < size)%nat)
    (Horder : order ≡ₚ (map_to_list (executions v)).*1)
    (Hfits : Forall info_fits (all_infos v)) (Hlike : Forall (no_percent expr) (all_infos v)) :
  exists pages keep,
    walk (execute_string_query v order (print_expr f64_display expr) f o size) None
      (S (length (all_infos v))) = Some (Ok pages) /\
    (forall info, info ∈ all_infos v -> keep info = true <-> satisfies expr info) /\
    pages ≡ₚ List.filter keep (all_infos v) /\ StronglySorted (in_order f o) pages.
Proof.
  assert (Hlen : (length (execute v order expr) <= length (all_infos v))%nat).
  { unfold execute, list_all. rewrite <- (values_all_infos v order) by done. apply List.filter_length_le. }
  exists (stable_sort (exec_le f o) (execute v order expr)), (evaluate expr). split_and!.
  - pose proof (walk_pages v order expr f o size (S (length (all_infos v))) 0 Hsize) as Hw.
    cbn zeta in Hw. rewrite (Permutation_length (stable_sort_Permutation _ _)), drop_0 in Hw.
    rewrite <- Hw by lia.
    assert (Hreq : forall t, execute_string_query v order (print_expr f64_display expr) f o size t =
                             Ok (exec_query v order expr f o size t)).
    { intros t. unfold execute_string_query. by rewrite parse_print. }
    rewrite (walk_ext _ _ Hreq). reflexivity.
  - rewrite Forall_forall in Hfits, Hlike. intros info Hin. apply evaluate_satisfies; auto.
  - rewrite stable_sort_Permutation. unfold execute, list_all. by rewrite (values_all_infos v order).
  - induction (exec_sorted f o (execute v order expr)) as [|x l _ IH Hx]; constructor; [done|].
    eapply Forall_impl; [exact Hx|]. intros y. apply exec_le_in_order.
Qed.

Definition sample_index : VisibilityIndex :=
  foldl vis_step visibility_new
    [VRegister (sample_info 1 10); VRegister (sample_info 2 20); VRegister (sample_info 3 15)].

Lemma search_pages_complete_witness :
  exists pages,
    walk (execute_string_query sample_index [1; 2; 3] (of_string "StartTime BETWEEN 12 AND 30")
            ByStartTime Ascending 1) None 4 = Some (Ok pages) /\
    pages = [sample_info 3 15; sample_info 2 20].
Proof.
  assert (Ho : [1; 2; 3] ≡ₚ (map_to_list (executions sample_index)).*1).
  { replace ((map_to_list (executions sample_index)).*1) with [3; 2; 1] by (vm_compute; reflexivity).
    exact (Permutation_rev [1; 2; 3]). }
  assert (Hall : all_infos sample_index = [sample_info 3 15; sample_info 2 20; sample_info 1 10]) by (vm_compute; reflexivity).
  assert (Hfits : Forall info_fits (all_infos sample_index)).
  { rewrite Hall. repeat constructor; try (intros; discriminate); cbn; lia. }
  assert (Hlike : Forall (no_percent (Between "StartTime" (VInteger 12) (VInteger 30))) (all_infos sample_index)).
  { by apply Forall_true. }
  destruct (search_pages_complete (fun _ => []) sample_index [1; 2; 3]
    (Between "StartTime" (VInteger 12) (VInteger 30)) ByStartTime Ascending 1 eq_refl ltac:(lia) Ho Hfits Hlike)
    as (pages & keep & Hp & _ & _).
  exists pages. rewrite Hall in Hp. split; [exact Hp|].
  enough (Some (Ok pages) = Some (Ok [sample_info 3 15; sample_info 2 20] : parse _)) by congruence.
  rewrite <- Hp. vm_compute. reflexivity.
Defined.

(** The field a hash above [2^63] is stored in compares as a negative number. *)
Lemma large_hash_is_negative info :
  info_queue_hash info = 2 ^ 63 -> resolve_field "TaskQueueHash" info = Some (CInteger (- 2 ^ 63)).
Proof. unfold resolve_field. simpl. intros ->. done. Qed.

End SearchExec.
