(* ===== verification/DepGraph.v ===== *)
(** * Dependency graph ([velocity-workflow-engine/src/workflow_dependency_graph.rs])

    The directed multigraph of relations between workflows: adjacency lists in both
    directions, bounded breadth-first traversal, impact analysis, cycle detection by
    depth-first search and topological sorting.  The key orders in which hash maps
    are walked are arguments; the loops have fuel, and the theorems show that the
    number of nodes is enough of it. *)

From stdpp Require Import relations sorting.
From S2P Require Import Prelude.

Module DepGraph.

Inductive DependencyType : Type :=
| ParentChild | SignalSender | UpdateTarget | CancelRequest
| AwaitingCompletion | DepContinuedAsNew | SagaStep | SagaCompensation.

#[export] Instance DependencyType_eq_dec : EqDecision DependencyType.
Proof. solve_decision. Defined.

Definition dep_code (t : DependencyType) : nat :=
  match t with
  | ParentChild => 0 | SignalSender => 1 | UpdateTarget => 2 | CancelRequest => 3
  | AwaitingCompletion => 4 | DepContinuedAsNew => 5 | SagaStep => 6 | SagaCompensation => 7
  end.

Definition dep_of_code (n : nat) : DependencyType :=
  match n with
  | 0 => ParentChild | 1 => SignalSender | 2 => UpdateTarget | 3 => CancelRequest
  | 4 => AwaitingCompletion | 5 => DepContinuedAsNew | 6 => SagaStep | _ => SagaCompensation
  end%nat.

#[export] Instance DependencyType_countable : Countable DependencyType.
Proof. refine (inj_countable' dep_code dep_of_code _). by intros []. Defined.

Record DependencyEdge : Type := mkEdge {
  from_key : Z;
  to_key : Z;
  dep_type : DependencyType;
  created_at_ms : Z;
  metadata : option string;
}.

Inductive DependencyDirection : Type := Downstream | Upstream | Both.

Record WorkflowDependencyGraph : Type := mkGraph {
  outgoing : gmap Z (list DependencyEdge);
  incoming : gmap Z (list DependencyEdge);
  edges_added : Z;
  edges_removed : Z;
}.

Definition graph_new : WorkflowDependencyGraph := mkGraph ∅ ∅ 0 0.

(** ** Updates *)

(** [map.entry(k).or_default().push(e)]. *)
Definition push_edge (k : Z) (e : DependencyEdge) (m : gmap Z (list DependencyEdge)) :
    gmap Z (list DependencyEdge) :=
  <[k := default [] (m !! k) ++ [e]]> m.

Definition add_dependency (g : WorkflowDependencyGraph) (from to now : Z) (ty : DependencyType)
    (meta : option string) : WorkflowDependencyGraph :=
  let edge := mkEdge from to ty now meta in
  mkGraph (push_edge from edge (outgoing g)) (push_edge to edge (incoming g))
    (wrap 64 (edges_added g + 1)) (edges_removed g).

Definition remove_workflow (g : WorkflowDependencyGraph) (k : Z) : nat * WorkflowDependencyGraph :=
  let removed_out := length (default [] (outgoing g !! k)) in
  let removed_in := length (default [] (incoming g !! k)) in
  let out := List.filter (fun e => negb (to_key e =? k)) <$> delete k (outgoing g) in
  let inc := List.filter (fun e => negb (from_key e =? k)) <$> delete k (incoming g) in
  let total := (removed_out + removed_in)%nat in
  (total, mkGraph out inc (edges_added g) (wrap 64 (edges_removed g + Z.of_nat total))).

(** ** Queries *)

Definition get_dependencies (g : WorkflowDependencyGraph) (k : Z) : list DependencyEdge :=
  default [] (outgoing g !! k).
Definition get_dependents (g : WorkflowDependencyGraph) (k : Z) : list DependencyEdge :=
  default [] (incoming g !! k).
Definition get_dependencies_by_type (g : WorkflowDependencyGraph) (k : Z) (ty : DependencyType) :
    list DependencyEdge :=
  List.filter (fun e => bool_decide (dep_type e = ty)) (get_dependencies g k).

Definition edge_count (g : WorkflowDependencyGraph) : nat :=
  map_fold (fun _ es n => (length es + n)%nat) O (outgoing g).
Definition node_count (g : WorkflowDependencyGraph) : nat :=
  size (dom (outgoing g) ∪ dom (incoming g) : gset Z).

(** ** Breadth-first traversal *)

Record bfs : Type := mkBfs {
  visited : gset Z;
  edges_traversed : list DependencyEdge;
  queue : list (Z * nat);
  has_cycle : bool;
}.

(** The body of the loops over the edges of the current node. *)
Definition visit_edge (next : DependencyEdge -> Z) (depth : nat) (s : bfs) (e : DependencyEdge) : bfs :=
  let n := next e in
  let traversed := edges_traversed s ++ [e] in
  if decide (n ∈ visited s) then mkBfs (visited s) traversed (queue s) true
  else mkBfs ({[n]} ∪ visited s) traversed (queue s ++ [(n, S depth)]) (has_cycle s).

Definition expand (g : WorkflowDependencyGraph) (dir : DependencyDirection) (current : Z) (depth : nat)
    (s : bfs) : bfs :=
  let s := match dir with
           | Upstream => foldl (visit_edge from_key depth) s (get_dependents g current)
           | Downstream | Both => foldl (visit_edge to_key depth) s (get_dependencies g current)
           end in
  match dir with
  | Both => foldl (visit_edge from_key depth) s (get_dependents g current)
  | _ => s
  end.

Fixpoint bfs_loop (g : WorkflowDependencyGraph) (dir : DependencyDirection) (max_depth fuel : nat)
    (s : bfs) : option bfs :=
  match fuel with
  | O => None
  | S fuel =>
      match queue s with
      | [] => Some s
      | (current, depth) :: q =>
          let s := mkBfs (visited s) (edges_traversed s) q (has_cycle s) in
          if (max_depth <=? depth)%nat then bfs_loop g dir max_depth fuel s
          else bfs_loop g dir max_depth fuel (expand g dir current depth s)
      end
  end.

(** Every key an edge names. *)
Definition all_edges (m : gmap Z (list DependencyEdge)) : list DependencyEdge :=
  (map_to_list m) ≫= snd.
Definition endpoints (g : WorkflowDependencyGraph) : gset Z :=
  let es := all_edges (outgoing g) ++ all_edges (incoming g) in
  list_to_set (map from_key es) ∪ list_to_set (map to_key es) ∪ dom (outgoing g).

Record DependencyTraversalResult : Type := mkTraversal {
  tr_visited : gset Z;
  tr_edges : list DependencyEdge;
  tr_depth : nat;
  tr_has_cycle : bool;
}.

Definition traverse (g : WorkflowDependencyGraph) (start : Z) (dir : DependencyDirection)
    (max_depth : nat) : option DependencyTraversalResult :=
  let s0 := mkBfs {[start]} [] [(start, O)] false in
  (fun s => mkTraversal (visited s) (edges_traversed s)
              (if decide (visited s = ∅) then O else length (edges_traversed s) `min` max_depth)
              (has_cycle s))
  <$> bfs_loop g dir max_depth (S (size ({[start]} ∪ endpoints g))) s0.

(** ** Impact analysis *)

Record ImpactAnalysis : Type := mkImpact {
  affected_workflows : gset Z;
  by_type : gmap DependencyType (list Z);
  max_cascade_depth : nat;
  impact_has_cycle : bool;
}.

Definition push_target (m : gmap DependencyType (list Z)) (e : DependencyEdge) :
    gmap DependencyType (list Z) :=
  <[dep_type e := default [] (m !! dep_type e) ++ [to_key e]]> m.

Definition analyze_impact (g : WorkflowDependencyGraph) (k : Z) : option ImpactAnalysis :=
  (fun t => mkImpact (tr_visited t ∖ {[k]})
              (sort_dedup <$> foldl push_target ∅ (tr_edges t))
              (tr_depth t) (tr_has_cycle t))
  <$> traverse g k Downstream 100.

(** ** Cycle detection *)

Record dfs : Type := mkDfs {
  d_visited : gset Z;
  in_stack : gset Z;
  path : list Z;
  cycles : list (list Z);
}.

(** The search runs out of fuel, or unwraps the position of a key that is not on the path. *)
Inductive dfs_stop : Type := DfsFuel | UnwrapNone.

(** [path[position(next)..]]. *)
Fixpoint path_from (next : Z) (p : list Z) : option (list Z) :=
  match p with
  | [] => None
  | x :: p' => if x =? next then Some p else path_from next p'
  end.

(** The body of the loop over the edges; [search] is the recursive call. *)
Definition scan_edge (search : Z -> dfs -> result dfs dfs_stop) (r : result dfs dfs_stop) (e : DependencyEdge) :
    result dfs dfs_stop :=
  let? s := r in
  let next := to_key e in
  if decide (next ∉ d_visited s) then search next s
  else if decide (next ∈ in_stack s) then
    match path_from next (path s) with
    | Some cycle => Ok (mkDfs (d_visited s) (in_stack s) (path s) (cycles s ++ [cycle]))
    | None => Err UnwrapNone
    end
  else Ok s.

Definition enter (node : Z) (s : dfs) : dfs :=
  mkDfs ({[node]} ∪ d_visited s) ({[node]} ∪ in_stack s) (path s ++ [node]) (cycles s).
Definition leave (node : Z) (s : dfs) : dfs :=
  mkDfs (d_visited s) (in_stack s ∖ {[node]}) (removelast (path s)) (cycles s).

Fixpoint dfs_cycle (g : WorkflowDependencyGraph) (fuel : nat) (node : Z) (s : dfs) : result dfs dfs_stop :=
  match fuel with
  | O => Err DfsFuel
  | S fuel =>
      let? s := foldl (scan_edge (dfs_cycle g fuel)) (Ok (enter node s)) (default [] (outgoing g !! node)) in
      Ok (leave node s)
  end.

(** [keys] is the iteration order of [outgoing]. *)
Definition detect_cycles (g : WorkflowDependencyGraph) (keys : list Z) : result (list (list Z)) dfs_stop :=
  let? s := foldl (fun r node =>
      let? s := r in
      if decide (node ∈ d_visited s) then Ok s else dfs_cycle g (S (size (endpoints g))) node s)
    (Ok (mkDfs ∅ ∅ [] [])) keys in
  Ok (cycles s).

(** ** Topological sort *)

Definition count_target (m : gmap Z nat) (e : DependencyEdge) : gmap Z nat :=
  <[to_key e := S (default O (m !! to_key e))]> m.

(** [keys] is the iteration order of [outgoing]; the map does not depend on it. *)
Definition in_degrees (g : WorkflowDependencyGraph) (keys : list Z) : gmap Z nat :=
  foldl (fun m node => foldl count_target (<[node := default O (m !! node)]> m) (get_dependencies g node))
    ∅ keys.

Definition relax (s : gmap Z nat * list Z) (e : DependencyEdge) : gmap Z nat * list Z :=
  let '(deg, q) := s in
  match deg !! to_key e with
  | Some d => let d := Nat.pred d in
              (<[to_key e := d]> deg, if (d =? 0)%nat then q ++ [to_key e] else q)
  | None => s
  end.

Fixpoint kahn (g : WorkflowDependencyGraph) (fuel : nat) (deg : gmap Z nat) (q res : list Z) :
    option (list Z) :=
  match fuel with
  | O => None
  | S fuel =>
      match q with
      | [] => Some res
      | node :: q =>
          let '(deg, q) := foldl relax (deg, q) (get_dependencies g node) in
          kahn g fuel deg q (res ++ [node])
      end
  end.

(** [order] is the iteration order of the map of degrees. *)
Definition topological_sort (g : WorkflowDependencyGraph) (keys order : list Z) : option (option (list Z)) :=
  let deg := in_degrees g keys in
  let start := List.filter (fun n => bool_decide (deg !! n = Some O)) order in
  (fun res => if (length res =? size deg)%nat then Some res else None)
  <$> kahn g (S (size deg)) deg start [].

(** ** The adjacency lists refine a list of edges *)

Inductive graph_op : Type :=
| AddDependency (from to now : Z) (ty : DependencyType) (meta : option string)
| RemoveWorkflow (k : Z).

Definition graph_step (g : WorkflowDependencyGraph) (o : graph_op) : WorkflowDependencyGraph :=
  match o with
  | AddDependency from to now ty meta => add_dependency g from to now ty meta
  | RemoveWorkflow k => (remove_workflow g k).2
  end.

(** The graph as its edges in the order they were added. *)
Definition touches (k : Z) (e : DependencyEdge) : bool := (from_key e =? k) || (to_key e =? k).

Definition self_loop (k : Z) (e : DependencyEdge) : bool := (from_key e =? k) && (to_key e =? k).

Definition edges_step (es : list DependencyEdge) (o : graph_op) : list DependencyEdge :=
  match o with
  | AddDependency from to now ty meta => es ++ [mkEdge from to ty now meta]
  | RemoveWorkflow k => List.filter (fun e => negb (touches k e)) es
  end.

Abbreviation graph_after ops := (foldl graph_step graph_new ops).
Abbreviation edges_after ops := (foldl edges_step [] ops).

(** An adjacency map lists, for every key, the edges with that key. *)
Definition adjacency (key : DependencyEdge -> Z) (m : gmap Z (list DependencyEdge))
    (es : list DependencyEdge) : Prop :=
  forall k, default [] (m !! k) = List.filter (fun e => key e =? k) es.

Definition refines (g : WorkflowDependencyGraph) (es : list DependencyEdge) : Prop :=
  adjacency from_key (outgoing g) es /\ adjacency to_key (incoming g) es.

Lemma adjacency_push key m es e :
  adjacency key m es -> adjacency key (push_edge (key e) e m) (es ++ [e]).
Proof.
  intros Hm k. unfold push_edge. rewrite List.filter_app. simpl.
  destruct (Z.eqb_spec (key e) k) as [<-|Hne].
  - rewrite lookup_insert_eq. simpl. by rewrite Hm.
  - rewrite lookup_insert_ne by done. by rewrite Hm, app_nil_r.
Qed.

(** Dropping the entry of [k] and the edges that name [k] at their other end. *)
Lemma adjacency_remove key other m es k :
  adjacency key m es ->
  adjacency key (List.filter (fun e => negb (other e =? k)) <$> delete k m)
    (List.filter (fun e => negb ((key e =? k) || (other e =? k))) es).
Proof.
  intros Hm j. rewrite lookup_fmap, filter_filter. destruct (decide (j = k)) as [->|Hj].
  - rewrite lookup_delete_eq. simpl. symmetry. clear Hm.
    induction es as [|e es IH]; [done|]. simpl. by destruct (key e =? k); simpl; [|rewrite andb_false_r].
  - rewrite lookup_delete_ne by done. specialize (Hm j).
    assert (Hd : forall o : option (list DependencyEdge),
      default [] (List.filter (fun e => negb (other e =? k)) <$> o) =
      List.filter (fun e => negb (other e =? k)) (default [] o)) by by intros [].
    rewrite Hd, Hm, filter_filter. apply List.filter_ext. intros e.
    destruct (Z.eqb_spec (key e) j), (Z.eqb_spec (key e) k), (Z.eqb_spec (other e) k); simpl; congruence.
Qed.

Lemma step_refines g es o : refines g es -> refines (graph_step g o) (edges_step es o).
Proof.
  intros [Hout Hin]. destruct o as [from to now ty meta|k]; split; simpl.
  - exact (adjacency_push from_key _ _ (mkEdge from to ty now meta) Hout).
  - exact (adjacency_push to_key _ _ (mkEdge from to ty now meta) Hin).
  - exact (adjacency_remove from_key to_key _ _ k Hout).
  - intros j. pose proof (adjacency_remove to_key from_key _ _ k Hin j) as Hj. rewrite Hj.
    f_equal. apply List.filter_ext. intros e. unfold touches. by rewrite orb_comm.
Qed.

Lemma refines_after ops : refines (graph_after ops) (edges_after ops).
Proof.
  assert (Hgen : forall g es, refines g es -> refines (foldl graph_step g ops) (foldl edges_step es ops)).
  { induction ops as [|o ops IH]; intros g es H; [done|]. apply IH. by apply step_refines. }
  apply Hgen. by split; intros k; cbn [outgoing incoming graph_new]; rewrite lookup_empty.
Qed.

Lemma map_fold_adjacency (key : DependencyEdge -> Z) (m : gmap Z (list DependencyEdge)) es :
  (forall k l, m !! k = Some l -> l = List.filter (fun e => key e =? k) es) ->
  map_fold (fun _ l n => (length l + n)%nat) O m =
  length (List.filter (fun e => bool_decide (is_Some (m !! key e))) es).
Proof.
  revert m. apply (map_fold_weak_ind (fun r m => (forall k l, m !! k = Some l ->
    l = List.filter (fun e => key e =? k) es) ->
    r = length (List.filter (fun e => bool_decide (is_Some (m !! key e))) es))).
  { intros _. induction es as [|e es IH]; [done|]. simpl. by rewrite lookup_empty. }
  intros k l m r Hk IH Hm. rewrite IH; clear IH.
  2: { intros j l' Hj. apply Hm. rewrite lookup_insert_ne; [done|]. intros ->. congruence. }
  assert (Hl : length l = length (List.filter (fun e => key e =? k) es))
    by (f_equal; apply Hm; apply lookup_insert_eq).
  rewrite Hl. clear Hl Hm.
  induction es as [|e es IH]; [done|]. simpl. destruct (Z.eqb_spec (key e) k) as [He|Hne].
  - rewrite He, Hk, lookup_insert_eq. rewrite (bool_decide_eq_true_2 (is_Some (Some _))) by done.
    rewrite (bool_decide_eq_false_2 (is_Some None)) by (intros H; by destruct H). simpl. by rewrite IH.
  - rewrite lookup_insert_ne by done. destruct (bool_decide _); simpl; lia.
Qed.

Lemma edge_count_refines g es : refines g es -> edge_count g = length es.
Proof.
  intros [Hout _]. unfold edge_count. rewrite (map_fold_adjacency from_key _ es).
  - rewrite List.forallb_filter_id; [done|]. apply forallb_forall.
    intros e He. apply bool_decide_eq_true. specialize (Hout (from_key e)).
    destruct (outgoing g !! from_key e) as [l|]; [done|]. simpl in Hout.
    assert (Hin : In e []) by (rewrite Hout; apply List.filter_In; by rewrite Z.eqb_refl). done.
  - intros k l Hk. specialize (Hout k). by rewrite Hk in Hout.
Qed.

(** The two adjacency maps stay consistent through every run of additions
    and removals: both list, key by key and in order of insertion, the edges of one
    list, from which removing a workflow drops every edge that touches it; the edge
    count is its length, and removal reports the edges it dropped, a self-loop twice. *)
Theorem graph_refines_edge_list (ops : list graph_op) (k : Z) :
  let g := graph_after ops in
  let es := edges_after ops in
  get_dependencies g k = List.filter (fun e => from_key e =? k) es /\
  get_dependents g k = List.filter (fun e => to_key e =? k) es /\
  edge_count g = length es /\
  (remove_workflow g k).1 =
    (length (List.filter (touches k) es) +
     length (List.filter (self_loop k) es))%nat.
Proof.
  intros g es. destruct (refines_after ops) as [Hout Hin]. fold g es in Hout, Hin.
  split; [apply Hout|]. split; [apply Hin|]. split; [by apply edge_count_refines|].
  simpl. rewrite (Hout k), (Hin k). unfold touches, self_loop. clear.
  induction es as [|e es IH]; [done|]. simpl. destruct (from_key e =? k), (to_key e =? k); simpl; lia.
Qed.

(** ** Breadth-first traversal visits what is reachable within the depth *)

(** The keys the traversal goes to from [x]. *)
Definition next_keys (g : WorkflowDependencyGraph) (dir : DependencyDirection) (x : Z) : list Z :=
  match dir with
  | Downstream => map to_key (get_dependencies g x)
  | Upstream => map from_key (get_dependents g x)
  | Both => map to_key (get_dependencies g x) ++ map from_key (get_dependents g x)
  end.

Definition adjacent (g : WorkflowDependencyGraph) (dir : DependencyDirection) (x y : Z) : Prop :=
  y ∈ next_keys g dir x.

(** [visit_edge] on keys: the part of the state that decides what is visited. *)
Definition visit_key (depth : nat) (s : gset Z * list (Z * nat)) (n : Z) : gset Z * list (Z * nat) :=
  if decide (n ∈ s.1) then s else ({[n]} ∪ s.1, s.2 ++ [(n, S depth)]).

Definition core (s : bfs) : gset Z * list (Z * nat) := (visited s, queue s).

Lemma visit_edges_core next depth s es :
  core (foldl (visit_edge next depth) s es) = foldl (visit_key depth) (core s) (map next es).
Proof.
  revert s. induction es as [|e es IH]; intros s; [done|]. simpl. rewrite IH. f_equal.
  unfold visit_edge, visit_key. simpl. by destruct (decide _).
Qed.

Lemma expand_core g dir x depth s :
  core (expand g dir x depth s) = foldl (visit_key depth) (core s) (next_keys g dir x).
Proof.
  unfold expand, next_keys. destruct dir; rewrite ?foldl_app, !visit_edges_core; done.
Qed.

(** The traversed edges are one fewer than the visited keys until an edge leads back. *)
Definition tree_count (s : bfs) : Prop :=
  if has_cycle s then (size (visited s) < S (length (edges_traversed s)))%nat
  else size (visited s) = S (length (edges_traversed s)).

Lemma visit_edges_tree next depth s es : tree_count s -> tree_count (foldl (visit_edge next depth) s es).
Proof.
  revert s. induction es as [|e es IH]; intros s Hs; [done|]. simpl. apply IH.
  unfold visit_edge, tree_count in *. destruct (decide _) as [Hin|Hin]; simpl; rewrite length_app; simpl.
  - destruct (has_cycle s); lia.
  - rewrite size_union by set_solver. rewrite size_singleton. destruct (has_cycle s); lia.
Qed.

Lemma expand_tree g dir x depth s : tree_count s -> tree_count (expand g dir x depth s).
Proof. intros Hs. unfold expand. destruct dir; auto using visit_edges_tree. Qed.

(** One more seen node is one fewer to see. *)
Lemma size_seen (U X : gset Z) n : n ∈ U -> n ∉ X -> size (U ∖ X) = S (size (U ∖ ({[n]} ∪ X))).
Proof.
  intros Hin Hnin. replace (U ∖ X) with ({[n]} ∪ U ∖ ({[n]} ∪ X)).
  - rewrite (size_union {[n]} (U ∖ ({[n]} ∪ X))) by set_solver. by rewrite size_singleton.
  - apply set_eq. intros z. destruct (decide (z = n)) as [->|]; set_solver.
Qed.

Section traversal.
Context (g : WorkflowDependencyGraph) (dir : DependencyDirection) (start : Z) (max_depth : nat).
Local Abbreviation adj := (adjacent g dir).

(** [D] records the depth every visited key was found at, [h] the depth of the head of the
    queue; the keys other than [except] that have left the queue have been expanded. *)
Record bfs_inv (except : option Z) (h : nat) (vis : gset Z) (q : list (Z * nat)) (D : gmap Z nat) : Prop := {
  inv_dom : dom D = vis;
  inv_start : D !! start = Some O;
  inv_sound n d : D !! n = Some d -> nsteps adj d start n /\ (d <= max_depth)%nat /\ (d <= S h)%nat;
  inv_queue n d : (n, d) ∈ q -> D !! n = Some d /\ (h <= d)%nat;
  inv_sorted : StronglySorted le (snd <$> q);
  inv_done n d : D !! n = Some d -> Some n <> except -> (n, d) ∉ q -> (d < max_depth)%nat ->
    forall y, adj n y -> exists d', D !! y = Some d' /\ (d' <= S d)%nat;
}.

Lemma StronglySorted_snoc (l : list nat) x :
  StronglySorted le l -> Forall (fun y => (y <= x)%nat) l -> StronglySorted le (l ++ [x]).
Proof.
  induction 1 as [|y l Hl IH Hy]; intros Hx; simpl; [by repeat constructor|].
  apply Forall_cons in Hx as [Hyx Hx]. constructor; [by apply IH|]. apply Forall_app. by split; [|constructor].
Qed.

(** Visiting a neighbour of the key [c] that is being expanded. *)
Lemma visit_key_inv c depth vis q D y :
  bfs_inv (Some c) depth vis q D -> D !! c = Some depth -> (depth < max_depth)%nat -> adj c y ->
  exists D', bfs_inv (Some c) depth (visit_key depth (vis, q) y).1 (visit_key depth (vis, q) y).2 D' /\
    D ⊆ D' /\ is_Some (D' !! y).
Proof.
  intros Hinv Hc Hd Hy. destruct Hinv as [Hdom Hst Hsound Hq Hsort Hdone]. unfold visit_key. simpl.
  destruct (decide (y ∈ vis)) as [Hin|Hnin]; simpl.
  { exists D. split; [by split|]. split; [done|]. apply elem_of_dom. by rewrite Hdom. }
  assert (Hfresh : D !! y = None) by (apply not_elem_of_dom; by rewrite Hdom).
  assert (Hsub : D ⊆ <[y := S depth]> D) by by apply insert_subseteq.
  exists (<[y := S depth]> D). split; [split|split; [done|rewrite lookup_insert_eq; done]].
  - rewrite dom_insert_L. by rewrite Hdom.
  - rewrite lookup_insert_ne; [done|]. by intros ->; rewrite Hst in Hfresh.
  - intros n d. destruct (decide (n = y)) as [->|Hne].
    + rewrite lookup_insert_eq. intros [= <-]. split; [|lia].
      eapply nsteps_r; [by apply (Hsound c depth)|done].
    + rewrite lookup_insert_ne by done. apply Hsound.
  - intros n d [Hnd|Hnd]%elem_of_app.
    + destruct (Hq n d Hnd) as [Hn Hh]. split; [|done]. by eapply lookup_weaken.
    + apply list_elem_of_singleton in Hnd as [= -> ->]. rewrite lookup_insert_eq. split; [done|lia].
  - rewrite fmap_app. apply StronglySorted_snoc; [done|]. apply Forall_forall. intros z Hz.
    apply list_elem_of_fmap in Hz as ([n d] & -> & Hnd). destruct (Hq n d Hnd) as [Hn _].
    by destruct (Hsound n d Hn) as (_ & _ & ?).
  - intros n d Hn Hex Hnq Hlt z Hz. rewrite not_elem_of_app in Hnq. destruct Hnq as [Hnq Hny].
    rewrite lookup_insert_ne in Hn.
    + destruct (Hdone n d Hn Hex Hnq Hlt z Hz) as (d' & Hd' & Hle). exists d'. split; [|done].
      by eapply lookup_weaken.
    + intros ->. rewrite lookup_insert_eq in Hn. injection Hn as <-. destruct Hny. by constructor.
Qed.

Lemma visit_keys_inv c depth vis q D ys :
  bfs_inv (Some c) depth vis q D -> D !! c = Some depth -> (depth < max_depth)%nat ->
  (forall y, y ∈ ys -> adj c y) ->
  exists D', let s := foldl (visit_key depth) (vis, q) ys in
    bfs_inv (Some c) depth s.1 s.2 D' /\ D ⊆ D' /\ forall y, y ∈ ys -> is_Some (D' !! y).
Proof.
  revert vis q D. induction ys as [|y ys IH]; intros vis q D Hinv Hc Hd Hys.
  { exists D. split; [done|]. split; [done|]. by intros y Hy%elem_of_nil. }
  destruct (visit_key_inv c depth vis q D y Hinv Hc Hd) as (D1 & Hinv1 & Hsub1 & Hy); [apply Hys; by constructor|].
  cbn [foldl]. destruct (visit_key depth (vis, q) y) as [vis1 q1].
  destruct (IH vis1 q1 D1 Hinv1) as (D2 & Hinv2 & Hsub2 & Hys2); [by eapply lookup_weaken|done| |].
  { intros z Hz. apply Hys. by constructor. }
  exists D2. split; [done|]. split; [by transitivity D1|].
  intros z [->|Hz]%elem_of_cons; [|by apply Hys2]. destruct Hy as [d Hy]. exists d. by eapply lookup_weaken.
Qed.

(** Taking the head off the queue. *)
Lemma pop_inv h vis c d q D :
  bfs_inv None h vis ((c, d) :: q) D -> bfs_inv (Some c) d vis q D /\ D !! c = Some d.
Proof.
  intros [Hdom Hst Hsound Hq Hsort Hdone]. destruct (Hq c d) as [Hc Hh]; [by constructor|]. split; [|done].
  simpl in Hsort. apply StronglySorted_inv in Hsort as [Hsort Hall]. split; try done.
  - intros n e Hn. destruct (Hsound n e Hn) as (? & ? & ?). split; [done|lia].
  - intros n e Hn. split; [apply Hq; by constructor|]. rewrite Forall_forall in Hall. apply Hall.
    apply list_elem_of_fmap. by exists (n, e).
  - intros n e Hn Hne Hnq. apply Hdone; [done|done|]. rewrite not_elem_of_cons. split; [congruence|done].
Qed.

Lemma expand_inv h vis c d q D :
  bfs_inv None h vis ((c, d) :: q) D -> (d < max_depth)%nat ->
  exists D', let s := foldl (visit_key d) (vis, q) (next_keys g dir c) in bfs_inv None d s.1 s.2 D'.
Proof.
  intros [Hinv Hc]%pop_inv Hd.
  destruct (visit_keys_inv c d vis q D (next_keys g dir c) Hinv Hc Hd) as (D' & Hinv' & Hsub & Hys); [done|].
  exists D'. cbn zeta. destruct Hinv' as [Hdom Hst Hsound Hq Hsort Hdone]. split; try done.
  intros n e Hn _ Hnq He y Hy. destruct (decide (n = c)) as [->|Hne]; [|apply (Hdone n e Hn); congruence].
  pose proof (lookup_weaken _ _ _ _ Hc Hsub) as Hc'. simplify_eq.
  destruct (Hys y Hy) as [d' Hd']. exists d'. split; [done|]. by destruct (Hsound y d' Hd') as (_ & _ & ?).
Qed.

Lemma skip_inv h vis c d q D :
  bfs_inv None h vis ((c, d) :: q) D -> (max_depth <= d)%nat -> bfs_inv None d vis q D.
Proof.
  intros [[Hdom Hst Hsound Hq Hsort Hdone] Hc]%pop_inv Hd. split; try done.
  intros n e Hn _ Hnq He. apply (Hdone n e Hn); [|done|done]. intros [= ->]. simplify_eq. lia.
Qed.

Lemma visit_keys_potential (U : gset Z) d ys vis q :
  (forall y, y ∈ ys -> y ∈ U) ->
  let s := foldl (visit_key d) (vis, q) ys in
  (length s.2 + size (U ∖ s.1) = length q + size (U ∖ vis))%nat.
Proof.
  revert vis q. induction ys as [|y ys IH]; intros vis q Hys; [done|]. cbn [foldl].
  assert (Hkey : visit_key d (vis, q) y = if decide (y ∈ vis) then (vis, q) else ({[y]} ∪ vis, q ++ [(y, S d)]))
    by done.
  rewrite Hkey. destruct (decide (y ∈ vis)) as [Hin|Hnin]; [apply IH; set_solver|].
  cbn zeta in IH |- *. rewrite IH by set_solver. rewrite length_app. simpl.
  rewrite (size_seen U vis y); [lia|apply Hys; by constructor|done].
Qed.

Lemma bfs_loop_inv (U : gset Z) fuel h s D :
  (forall x y, adj x y -> y ∈ U) ->
  bfs_inv None h (visited s) (queue s) D -> tree_count s ->
  (length (queue s) + size (U ∖ visited s) < fuel)%nat ->
  exists s' h' D', bfs_loop g dir max_depth fuel s = Some s' /\ bfs_inv None h' (visited s') [] D' /\ tree_count s'.
Proof.
  intros HU. revert h s D. induction fuel as [|fuel IH]; intros h s D Hinv Ht Hf; [lia|]. cbn [bfs_loop].
  destruct (queue s) as [|[c d] q] eqn:Hq.
  { exists s, h, D. by split. }
  simpl in Hf. destruct (Nat.leb_spec max_depth d) as [Hle|Hlt].
  { apply (IH d _ D); [by eapply skip_inv|done|simpl; lia]. }
  destruct (expand_inv _ _ _ _ _ _ Hinv Hlt) as [D' Hinv'].
  pose proof (expand_core g dir c d (mkBfs (visited s) (edges_traversed s) q (has_cycle s))) as Hcore.
  unfold core in Hcore at 2. cbn [visited queue] in Hcore.
  pose proof (visit_keys_potential U d (next_keys g dir c) (visited s) q (HU c)) as Hpot.
  cbn zeta in Hinv', Hpot. rewrite <- Hcore in Hinv', Hpot.
  apply (IH d _ D' Hinv'); [by apply expand_tree|]. unfold core in Hpot. simpl in Hpot. lia.
Qed.

(** With an empty queue everything within the depth has been found. *)
Lemma bfs_complete h vis D k n :
  bfs_inv None h vis [] D -> (k <= max_depth)%nat -> nsteps adj k start n ->
  exists d, D !! n = Some d /\ (d <= k)%nat.
Proof.
  intros [Hdom Hst Hsound Hq Hsort Hdone]. revert n. induction k as [|k IH]; intros n Hk Hn.
  { inversion Hn; subst. by exists O. }
  apply nsteps_inv_r in Hn as (m & Hm & Hmn). destruct (IH m ltac:(lia) Hm) as (d & Hd & Hle).
  destruct (Hdone m d Hd) with n as (d' & Hd' & Hle'); [done|by intros ?%elem_of_nil|lia|done|].
  exists d'. split; [done|lia].
Qed.

Lemma bfs_visited h vis D n :
  bfs_inv None h vis [] D -> n ∈ vis <-> exists k, (k <= max_depth)%nat /\ nsteps adj k start n.
Proof.
  intros Hinv. rewrite <- (inv_dom _ _ _ _ _ Hinv), elem_of_dom. split.
  - intros [d Hd]. exists d. by destruct (inv_sound _ _ _ _ _ Hinv n d Hd) as (? & ? & _).
  - intros (k & Hk & Hn). destruct (bfs_complete h vis D k n Hinv Hk Hn) as (d & Hd & _). by exists d.
Qed.
End traversal.

Lemma all_edges_in m k e : e ∈ default [] (m !! k) -> e ∈ all_edges m.
Proof.
  intros He. destruct (m !! k) as [l|] eqn:Hk; [|by apply elem_of_nil in He].
  apply list_elem_of_bind. exists (k, l). split; [done|]. by apply elem_of_map_to_list.
Qed.

Lemma adjacent_endpoints g dir x y : adjacent g dir x y -> y ∈ endpoints g.
Proof.
  assert (Hto : y ∈ map to_key (get_dependencies g x) -> y ∈ endpoints g).
  { intros (e & -> & He%all_edges_in)%list_elem_of_fmap. unfold endpoints.
    rewrite !elem_of_union, !elem_of_list_to_set. left. right. apply list_elem_of_fmap. exists e.
    split; [done|]. apply elem_of_app. by left. }
  assert (Hfrom : y ∈ map from_key (get_dependents g x) -> y ∈ endpoints g).
  { intros (e & -> & He%all_edges_in)%list_elem_of_fmap. unfold endpoints.
    rewrite !elem_of_union, !elem_of_list_to_set. left. left. apply list_elem_of_fmap. exists e.
    split; [done|]. apply elem_of_app. by right. }
  unfold adjacent, next_keys. destruct dir; [done|done|]. rewrite elem_of_app. tauto.
Qed.

Lemma traverse_spec g start dir max_depth :
  exists t, traverse g start dir max_depth = Some t /\
    (forall n, n ∈ tr_visited t <-> exists k, (k <= max_depth)%nat /\ nsteps (adjacent g dir) k start n) /\
    (if tr_has_cycle t then (size (tr_visited t) < S (length (tr_edges t)))%nat
     else size (tr_visited t) = S (length (tr_edges t))).
Proof.
  set (s0 := mkBfs {[start]} [] [(start, O)] false).
  assert (Hinv : bfs_inv g dir start max_depth None 0 (visited s0) (queue s0) {[start := O]}).
  { split; simpl.
    - apply dom_singleton_L.
    - apply lookup_singleton_eq.
    - intros n d [<- <-]%lookup_singleton_Some. split; [constructor|lia].
    - intros n d [= -> ->]%list_elem_of_singleton. by rewrite lookup_singleton_eq.
    - by repeat constructor.
    - intros n d [<- <-]%lookup_singleton_Some _ []. by constructor. }
  destruct (bfs_loop_inv g dir start max_depth ({[start]} ∪ endpoints g)
              (S (size ({[start]} ∪ endpoints g))) 0 s0 {[start := O]})
    as (s & h & D & Hs & Hend & Ht).
  - intros x y Hy. apply elem_of_union_r. by eapply adjacent_endpoints.
  - done.
  - unfold tree_count, s0. cbn [visited edges_traversed has_cycle length]. by rewrite size_singleton.
  - unfold s0. cbn [visited queue length]. assert (Hsz : size ({[start]} ∪ endpoints g) = S (size (({[start]} ∪ endpoints g) ∖ {[start]}))); [|lia].
    rewrite (size_difference _ {[start]}) by set_solver. rewrite size_singleton.
    assert (size ({[start]} ∪ endpoints g) <> O); [|lia]. apply size_non_empty_iff. set_solver.
  - unfold traverse. fold s0. rewrite Hs. eexists. split; [done|]. split; [|done].
    intros n. by eapply bfs_visited.
Qed.

(** C36. Breadth-first traversal ends, and visits exactly the workflows that a path of at
    most [max_depth] edges in the chosen direction leads to; the reported cycle flag
    says whether the traversed edges are more than a tree has. *)
Theorem traverse_visits_reachable (g : WorkflowDependencyGraph) (start : Z) (dir : DependencyDirection)
    (max_depth : nat) :
  exists t, traverse g start dir max_depth = Some t /\
    (forall n, n ∈ tr_visited t <-> exists k, (k <= max_depth)%nat /\ nsteps (adjacent g dir) k start n) /\
    (tr_has_cycle t = true <-> (size (tr_visited t) <= length (tr_edges t))%nat).
Proof.
  destruct (traverse_spec g start dir max_depth) as (t & Ht & Hv & Hc). exists t. split; [done|]. split; [done|].
  destruct (tr_has_cycle t); split; intros; done || lia.
Qed.

(** A diamond has no cycle, but its traversal reports one; and the reported depth is a number of
    edges: a node with two children has depth 2. *)
Lemma diamond_reports_cycle :
  let g := graph_after [AddDependency 1 2 0 ParentChild None; AddDependency 1 3 0 ParentChild None;
                        AddDependency 2 4 0 ParentChild None; AddDependency 3 4 0 ParentChild None] in
  (tr_has_cycle <$> traverse g 1 Downstream 10) = Some true /\
  detect_cycles g [1; 2; 3] = Ok [] /\
  (max_cascade_depth <$> analyze_impact g 2) = Some 1%nat /\
  (max_cascade_depth <$> analyze_impact g 1) = Some 4%nat.
Proof. vm_compute. done. Qed.

(** ** Orders and cycles *)

Definition acyclic (R : Z -> Z -> Prop) : Prop := forall x, ~ tc R x x.

(** Every element comes after the ones it is related to. *)
Definition ordered (R : Z -> Z -> Prop) (l : list Z) : Prop :=
  forall l1 x l2, l = l1 ++ x :: l2 -> forall y, R x y -> y ∈ l1.

Lemma ordered_nil R : ordered R [].
Proof. intros l1 x l2 H. by destruct l1. Qed.

Lemma ordered_snoc R l x : ordered R l -> (forall y, R x y -> y ∈ l) -> ordered R (l ++ [x]).
Proof.
  intros Hl Hx l1 z l2 Heq y Hy. destruct l2 as [|w l2 _] using rev_ind.
  - apply app_inj_tail in Heq as [-> ->]. by apply Hx.
  - replace (l1 ++ z :: l2 ++ [w]) with ((l1 ++ z :: l2) ++ [w]) in Heq by by rewrite <- app_assoc.
    apply app_inj_tail in Heq as [-> _]. by eapply Hl.
Qed.

Lemma ordered_tc R l l1 x l2 y : ordered R l -> l = l1 ++ x :: l2 -> tc R x y -> y ∈ l1.
Proof.
  intros Hl. revert l1 x l2. intros l1 x l2 Heq Hxy. revert l1 l2 Heq.
  induction Hxy as [x y Hy|x y z Hy _ IH]; intros l1 l2 Heq; [by eapply Hl|].
  pose proof (Hl l1 x l2 Heq y Hy) as Hin. apply list_elem_of_split in Hin as (a & b & ->).
  apply elem_of_app. left. apply (IH a (b ++ x :: l2)). by rewrite Heq, <- app_assoc.
Qed.

Lemma ordered_acyclic R l x : ordered R l -> NoDup l -> x ∈ l -> ~ tc R x x.
Proof.
  intros Hl Hnd (l1 & l2 & Heq)%list_elem_of_split Hx. pose proof (ordered_tc R l l1 x l2 x Hl Heq Hx) as Hin.
  rewrite Heq in Hnd. apply NoDup_app in Hnd as (_ & Hdis & _). apply (Hdis x Hin). by constructor.
Qed.

Lemma tc_flip_loop (R : Z -> Z -> Prop) x y : tc (fun a b => R b a) x y -> tc R y x.
Proof. induction 1 as [x y H|x y z H _ IH]; [by constructor|]. by eapply tc_r. Qed.

Lemma Sorted_tc (R : Z -> Z -> Prop) l : Sorted R l -> StronglySorted (tc R) l.
Proof.
  intros Hl. apply Sorted_StronglySorted; [intros a b c; apply tc_transitive|].
  induction Hl as [|x l Hl IH Hx]; [constructor|]. constructor; [done|]. destruct Hx; by repeat constructor.
Qed.

Lemma sorted_dup_loop (R : Z -> Z -> Prop) l : StronglySorted R l -> NoDup l \/ exists x, R x x.
Proof.
  induction 1 as [|x l Hl IH Hx]; [left; constructor|]. destruct (decide (x ∈ l)) as [Hin|Hnin].
  - right. exists x. rewrite Forall_forall in Hx. by apply Hx.
  - destruct IH as [IH|IH]; [left; by constructor|by right].
Qed.

(** A finite set without sources has a cycle. *)
Lemma no_source_cycle (R : Z -> Z -> Prop) (X : gset Z) x :
  x ∈ X -> (forall y, y ∈ X -> exists z, z ∈ X /\ R z y) -> exists y, tc R y y.
Proof.
  intros Hx Hsrc.
  assert (Hlong : forall k, exists y l, length l = k /\ Sorted R (y :: l) /\ Forall (.∈ X) (y :: l)).
  { induction k as [|k (y & l & Hlen & Hs & Hall)].
    { exists x, []. split; [done|]. split; [by repeat constructor|]. by repeat constructor. }
    apply Forall_cons in Hall as [Hy Hall]. destruct (Hsrc y Hy) as (z & Hz & Hzy).
    exists z, (y :: l). split; [simpl; by rewrite Hlen|]. split; [by constructor; [|constructor]|].
    by constructor; [|constructor]. }
  destruct (Hlong (size X)) as (y & l & Hlen & Hs & Hall).
  destruct (sorted_dup_loop _ _ (Sorted_tc R _ Hs)) as [Hnd|Hloop]; [|done]. exfalso.
  assert (Hsub : list_to_set (y :: l) ⊆ X).
  { intros z Hz%elem_of_list_to_set. rewrite Forall_forall in Hall. by apply Hall. }
  apply subseteq_size in Hsub. rewrite size_list_to_set in Hsub by done. simpl in Hsub. lia.
Qed.

(** ** Topological sort *)

Definition in_count (n : Z) (l : list DependencyEdge) : nat := length (List.filter (fun e => to_key e =? n) l).

Lemma in_count_app n l l' : in_count n (l ++ l') = (in_count n l + in_count n l')%nat.
Proof. unfold in_count. by rewrite List.filter_app, length_app. Qed.

Lemma in_count_cons n e l : in_count n (e :: l) = ((if (to_key e =? n)%Z then 1 else 0) + in_count n l)%nat.
Proof. unfold in_count. simpl. by destruct (to_key e =? n). Qed.

#[global] Instance in_count_perm n : Proper (Permutation ==> eq) (in_count n).
Proof.
  intros l l' Hl. unfold in_count.
  induction Hl; simpl; repeat (destruct (to_key _ =? n); simpl); congruence || lia.
Qed.

Lemma in_count_pos n l : (0 < in_count n l)%nat <-> exists e, e ∈ l /\ to_key e = n.
Proof.
  induction l as [|e l IH].
  { split; [unfold in_count; simpl; lia|]. by intros (e & He%elem_of_nil & _). }
  rewrite in_count_cons. destruct (Z.eqb_spec (to_key e) n) as [He|Hne].
  - split; [|lia]. intros _. exists e. split; [by constructor|done].
  - rewrite Nat.add_0_l, IH. split; intros (e' & He' & Hn).
    + exists e'. split; [by constructor|done].
    + apply elem_of_cons in He' as [->|He']; [done|]. by exists e'.
Qed.

Lemma filter_disjoint {A} (p q r : A -> bool) l :
  (forall x, p x = q x || r x) -> (forall x, q x && r x = false) ->
  List.filter p l ≡ₚ List.filter q l ++ List.filter r l.
Proof.
  intros Hp Hd. induction l as [|x l IH]; [done|]. simpl. specialize (Hp x). specialize (Hd x).
  destruct (p x), (q x), (r x); simpl in *; try done; rewrite IH; [done|by rewrite Permutation_middle].
Qed.

(** The edges of the keys in [ks], gathered key by key. *)
Lemma gather_perm (es : list DependencyEdge) ks :
  NoDup ks ->
  (ks ≫= fun k => List.filter (fun e => from_key e =? k) es) ≡ₚ
  List.filter (fun e => bool_decide (from_key e ∈ ks)) es.
Proof.
  induction 1 as [|k ks Hk Hnd IH]; simpl.
  { by induction es. }
  rewrite (filter_disjoint (fun e => bool_decide (from_key e ∈ k :: ks)) (fun e => from_key e =? k)
    (fun e => bool_decide (from_key e ∈ ks))); [by apply Permutation_app_head|..];
    intros e; destruct (Z.eqb_spec (from_key e) k) as [->|Hne]; simpl; repeat case_bool_decide; try done; set_solver.
Qed.

Lemma count_targets_spec m l n :
  default O (foldl count_target m l !! n) = (default O (m !! n) + in_count n l)%nat /\
  (is_Some (foldl count_target m l !! n) <-> is_Some (m !! n) \/ n ∈ map to_key l).
Proof.
  revert m. induction l as [|e l IH]; intros m.
  { split; [unfold in_count; simpl; lia|]. simpl. rewrite elem_of_nil. tauto. }
  simpl foldl. destruct (IH (count_target m e)) as [-> ->]. rewrite in_count_cons. unfold count_target.
  cbn [map]. rewrite elem_of_cons. destruct (Z.eqb_spec (to_key e) n) as [->|Hne].
  - rewrite lookup_insert_eq. simpl. split; [lia|]. split; [auto|]. intros _. left. done.
  - rewrite lookup_insert_ne by done. split; [lia|]. split; [tauto|]. intros [?|[?|?]]; [auto|congruence|auto].
Qed.

Lemma in_degrees_spec g ks m n :
  let m' := foldl (fun m node =>
    foldl count_target (<[node := default O (m !! node)]> m) (get_dependencies g node)) m ks in
  default O (m' !! n) = (default O (m !! n) + in_count n (ks ≫= get_dependencies g))%nat /\
  (is_Some (m' !! n) <-> is_Some (m !! n) \/ n ∈ ks \/ n ∈ map to_key (ks ≫= get_dependencies g)).
Proof.
  revert m. induction ks as [|k ks IH]; intros m.
  { split; [unfold in_count; simpl; lia|]. simpl. rewrite !elem_of_nil. tauto. }
  cbn [foldl]. set (m1 := <[k := default O (m !! k)]> m).
  destruct (IH (foldl count_target m1 (get_dependencies g k))) as [-> ->]. clear IH.
  destruct (count_targets_spec m1 (get_dependencies g k) n) as [-> ->].
  assert (Hm1 : default O (m1 !! n) = default O (m !! n) /\ (is_Some (m1 !! n) <-> is_Some (m !! n) \/ n = k)).
  { unfold m1. destruct (decide (n = k)) as [->|Hne].
    - rewrite lookup_insert_eq. simpl. split; [done|]. split; [auto|done].
    - rewrite lookup_insert_ne by done. split; [done|]. split; [auto|]. by intros [?|?]. }
  destruct Hm1 as [-> ->]. cbn [mbind list_bind]. rewrite in_count_app, map_app, elem_of_app, elem_of_cons.
  split; [lia|tauto].
Qed.

Section kahn.
Context (g : WorkflowDependencyGraph) (es : list DependencyEdge) (Hg : refines g es) (V : gset Z).
Context (HV : forall e, e ∈ es -> from_key e ∈ V /\ to_key e ∈ V).

(** [y] must come before [x]. *)
Definition precedes (x y : Z) : Prop := exists e, e ∈ es /\ to_key e = x /\ from_key e = y.

(** The edges whose source is not in [res]. *)
Definition open_edges (res : list Z) : list DependencyEdge :=
  List.filter (fun e => negb (bool_decide (from_key e ∈ res))) es.

Lemma open_edges_snoc res n :
  n ∉ res -> open_edges res ≡ₚ List.filter (fun e => from_key e =? n) es ++ open_edges (res ++ [n]).
Proof.
  clear. intros Hn. apply filter_disjoint; intros e; rewrite (bool_decide_ext _ _ (elem_of_app res [n] (from_key e)));
    destruct (Z.eqb_spec (from_key e) n) as [->|Hne]; simpl; repeat case_bool_decide; try done;
    rewrite ?list_elem_of_singleton in *; naive_solver.
Qed.

(** [pend] are the edges of the last node of [res] that have not been relaxed. *)
Record kahn_inv (deg : gmap Z nat) (q res : list Z) (pend : list DependencyEdge) : Prop := {
  kahn_dom : dom deg = V;
  kahn_deg n d : deg !! n = Some d -> d = in_count n (pend ++ open_edges res);
  kahn_nodup : NoDup (res ++ q);
  kahn_zero n : n ∈ res ++ q <-> deg !! n = Some O;
  kahn_ordered : ordered precedes res;
  kahn_pend e : e ∈ pend -> e ∈ es;
}.

Lemma relax_inv deg q res e pend :
  kahn_inv deg q res (e :: pend) ->
  kahn_inv (relax (deg, q) e).1 (relax (deg, q) e).2 res pend.
Proof.
  intros [Hdom Hdeg Hnd Hz Hord Hp]. unfold relax.
  assert (Hto : to_key e ∈ dom deg) by (rewrite Hdom; apply HV; apply Hp; by constructor).
  apply elem_of_dom in Hto as [d Hd]. rewrite Hd. pose proof (Hdeg _ _ Hd) as Hcount.
  cbn [app] in Hcount. rewrite in_count_cons, Z.eqb_refl in Hcount.
  assert (Hother : forall n d', n <> to_key e -> deg !! n = Some d' -> d' = in_count n (pend ++ open_edges res)).
  { intros n d' Hne Hn. specialize (Hdeg n d' Hn). cbn [app] in Hdeg. rewrite in_count_cons in Hdeg.
    by destruct (Z.eqb_spec (to_key e) n); [congruence|]. }
  cbn [fst snd]. split.
  - rewrite dom_insert_L. apply elem_of_dom_2 in Hd. set_solver.
  - intros n d'. destruct (decide (n = to_key e)) as [->|Hne].
    + rewrite lookup_insert_eq. intros [= <-]. lia.
    + rewrite lookup_insert_ne by done. by apply Hother.
  - destruct (Nat.pred d =? 0)%nat; [|done]. rewrite app_assoc. apply NoDup_app. split; [done|].
    split; [|apply NoDup_singleton]. intros n Hn ->%list_elem_of_singleton. apply Hz in Hn.
    rewrite Hd in Hn. injection Hn as ->. lia.
  - intros n. destruct (Nat.eqb_spec (Nat.pred d) 0) as [H0|H0].
    + rewrite app_assoc, elem_of_app, list_elem_of_singleton, Hz. destruct (decide (n = to_key e)) as [->|Hne].
      * rewrite lookup_insert_eq, H0. tauto.
      * rewrite lookup_insert_ne by done. tauto.
    + rewrite Hz. destruct (decide (n = to_key e)) as [->|Hne]; [|by rewrite lookup_insert_ne].
      rewrite lookup_insert_eq, Hd. split; intros [= ?]; lia.
  - done.
  - intros e' He'. apply Hp. by constructor.
Qed.

Lemma relax_all_inv deg q res pend :
  kahn_inv deg q res pend ->
  kahn_inv (foldl relax (deg, q) pend).1 (foldl relax (deg, q) pend).2 res [].
Proof.
  revert deg q. induction pend as [|e pend IH]; intros deg q Hinv; [done|]. cbn [foldl].
  apply relax_inv in Hinv. destruct (relax (deg, q) e) as [deg' q']. by apply IH.
Qed.

(** Taking a node off the queue opens its edges for relaxation. *)
Lemma pop_kahn deg node q res :
  kahn_inv deg (node :: q) res [] -> kahn_inv deg q (res ++ [node]) (get_dependencies g node).
Proof.
  intros [Hdom Hdeg Hnd Hz Hord _]. destruct Hg as [Hout _].
  assert (Hnin : node ∉ res).
  { apply NoDup_app in Hnd as (_ & Hdis & _). intros Hin. apply (Hdis node Hin). by constructor. }
  assert (Hperm : open_edges res ≡ₚ get_dependencies g node ++ open_edges (res ++ [node])).
  { unfold get_dependencies. rewrite (Hout node). by apply open_edges_snoc. }
  split.
  - done.
  - intros n d Hn. specialize (Hdeg n d Hn). cbn [app] in Hdeg. by rewrite <- Hperm.
  - by rewrite <- app_assoc.
  - intros n. by rewrite <- app_assoc.
  - apply ordered_snoc; [done|]. intros y (e & He & Hto & <-).
    assert (Hzero : deg !! node = Some O) by (apply Hz; apply elem_of_app; right; by constructor).
    apply Hdeg in Hzero. cbn [app] in Hzero. destruct (decide (from_key e ∈ res)) as [Hin|Hopen]; [done|].
    exfalso. assert (Hpos : (0 < in_count node (open_edges res))%nat); [|lia]. apply in_count_pos. exists e. split; [|done].
    apply list_elem_of_In, List.filter_In. split; [by apply list_elem_of_In|].
    by rewrite bool_decide_eq_false_2.
  - intros e He. unfold get_dependencies in He. rewrite (Hout node) in He.
    apply list_elem_of_In, List.filter_In in He as [He _]. by apply list_elem_of_In.
Qed.

Lemma kahn_bound deg q res pend : kahn_inv deg q res pend -> (length (res ++ q) <= size V)%nat.
Proof.
  intros [Hdom _ Hnd Hz _ _]. rewrite <- (size_list_to_set (C := gset Z) (res ++ q)) by done.
  apply subseteq_size. intros n Hn%elem_of_list_to_set%Hz. rewrite <- Hdom. by apply elem_of_dom_2 in Hn.
Qed.

Lemma kahn_returns fuel deg q res :
  kahn_inv deg q res [] -> (size V < fuel + length res)%nat ->
  exists l deg', kahn g fuel deg q res = Some l /\ kahn_inv deg' [] l [].
Proof.
  revert deg q res. induction fuel as [|fuel IH]; intros deg q res Hinv Hf.
  { pose proof (kahn_bound _ _ _ _ Hinv) as Hb. rewrite length_app in Hb. lia. }
  cbn [kahn]. destruct q as [|node q]; [by exists res, deg|].
  apply pop_kahn, relax_all_inv in Hinv. destruct (foldl relax (deg, q) _) as [deg' q']. cbn [fst snd] in Hinv.
  apply (IH _ _ _ Hinv). rewrite length_app. simpl. lia.
Qed.

(** The nodes that are never listed contain a cycle. *)
Lemma kahn_stuck deg l x : kahn_inv deg [] l [] -> x ∈ V -> x ∉ l -> exists y, tc (fun a b => precedes b a) y y.
Proof.
  intros [Hdom Hdeg Hnd Hz Hord _] Hx Hnx. rewrite app_nil_r in Hz.
  apply (no_source_cycle _ (V ∖ list_to_set l) x); [set_solver|].
  intros y Hy. apply elem_of_difference in Hy as [Hy Hny]. rewrite elem_of_list_to_set in Hny.
  rewrite <- Hdom in Hy. apply elem_of_dom in Hy as [d Hd]. pose proof (Hdeg y d Hd) as Hc. cbn [app] in Hc.
  assert (Hpos : (0 < in_count y (open_edges l))%nat).
  { destruct d; [|lia]. destruct Hny. by apply Hz. }
  apply in_count_pos in Hpos as (e & He & Hto).
  apply list_elem_of_In, List.filter_In in He as [He Hopen]. apply list_elem_of_In in He.
  apply negb_true_iff, bool_decide_eq_false in Hopen.
  exists (from_key e). split; [|by exists e]. destruct (HV e He). set_solver.
Qed.
End kahn.

Lemma adjacent_precedes g es x y : refines g es -> adjacent g Downstream x y <-> precedes es y x.
Proof.
  intros [Hout _]. unfold adjacent, next_keys, get_dependencies. rewrite (Hout x), list_elem_of_fmap.
  split; intros (e & H).
  - destruct H as [-> He]. apply list_elem_of_In, List.filter_In in He as [He Hx].
    exists e. split; [by apply list_elem_of_In|]. lia.
  - destruct H as (He & Hto & Hfrom). exists e. split; [done|]. apply list_elem_of_In, List.filter_In.
    split; [by apply list_elem_of_In|lia].
Qed.

Lemma tc_iff (R S : Z -> Z -> Prop) x y : (forall a b, R a b <-> S a b) -> tc R x y -> tc S x y.
Proof. intros HRS. induction 1; [by constructor; apply HRS|]. eapply tc_l; [by apply HRS|done]. Qed.

(** The keys that are walked are those of the edges' sources and of emptied entries. *)
Lemma source_key g es keys e :
  refines g es -> keys ≡ₚ (map_to_list (outgoing g)).*1 -> e ∈ es -> from_key e ∈ keys.
Proof.
  intros [Hout _] Hkeys He. rewrite Hkeys. specialize (Hout (from_key e)).
  destruct (outgoing g !! from_key e) as [l|] eqn:Hl.
  - apply list_elem_of_fmap. exists (from_key e, l). split; [done|]. by apply elem_of_map_to_list.
  - exfalso. apply (not_elem_of_nil e). simpl in Hout. rewrite Hout.
    apply list_elem_of_In, List.filter_In. split; [by apply list_elem_of_In|lia].
Qed.

Lemma degrees g es keys :
  refines g es -> keys ≡ₚ (map_to_list (outgoing g)).*1 ->
  (forall n d, in_degrees g keys !! n = Some d -> d = in_count n es) /\
  (forall n, n ∈ dom (in_degrees g keys) <-> n ∈ keys \/ exists e, e ∈ es /\ to_key e = n).
Proof.
  intros Hg Hkeys.
  assert (Hperm : keys ≫= get_dependencies g ≡ₚ es).
  { assert (Hnd : NoDup keys) by (rewrite Hkeys; apply NoDup_fst_map_to_list).
    destruct Hg as [Hout Hin].
    assert (Hext : keys ≫= get_dependencies g = keys ≫= fun k => List.filter (fun e => from_key e =? k) es).
    { apply list_bind_ext; [|done]. intros k. apply Hout. }
    rewrite Hext, gather_perm by done. rewrite List.forallb_filter_id; [done|].
    apply forallb_forall. intros e He%list_elem_of_In. apply bool_decide_eq_true.
    by eapply source_key. }
  split.
  - intros n d Hn. pose proof (in_degrees_spec g keys ∅ n) as [Hd _]. cbn zeta in Hd.
    fold (in_degrees g keys) in Hd. rewrite Hn, lookup_empty, Hperm in Hd. done.
  - intros n. pose proof (in_degrees_spec g keys ∅ n) as [_ Hs]. cbn zeta in Hs.
    fold (in_degrees g keys) in Hs. rewrite elem_of_dom, Hs, lookup_empty, Hperm, list_elem_of_fmap.
    split; [intros [[? ?]|[?|(e & -> & ?)]]; [done|by left|right; by exists e]|].
    intros [?|(e & ? & <-)]; [by right; left|right; right; by exists e].
Qed.

Lemma kahn_initial es deg order :
  (forall n d, deg !! n = Some d -> d = in_count n es) -> order ≡ₚ (map_to_list deg).*1 ->
  kahn_inv es (dom deg) deg (List.filter (fun n => bool_decide (deg !! n = Some O)) order) [] [].
Proof.
  intros Hdeg Horder.
  assert (Hnd : NoDup order) by (rewrite Horder; apply NoDup_fst_map_to_list).
  split; try done.
  - intros n d Hn. rewrite (Hdeg n d Hn). unfold open_edges. f_equal. simpl.
    symmetry. apply List.forallb_filter_id. by apply forallb_forall.
  - simpl. by eapply sublist_NoDup, filter_sublist.
  - intros n. simpl. rewrite list_elem_of_In, List.filter_In, <- list_elem_of_In, bool_decide_eq_true.
    split; [tauto|]. intros Hn. split; [|done]. rewrite Horder. apply list_elem_of_fmap.
    exists (n, O). split; [done|]. by apply elem_of_map_to_list.
  - apply ordered_nil.
  - by intros e ?%elem_of_nil.
Qed.

(** What a successful and an unsuccessful sort mean. *)
Definition sort_verdict (g : WorkflowDependencyGraph) (es : list DependencyEdge) (keys : list Z)
    (r : option (list Z)) : Prop :=
  match r with
  | Some l =>
      NoDup l /\ (forall n, n ∈ l <-> n ∈ keys \/ exists e, e ∈ es /\ to_key e = n) /\
      (forall l1 l2 e, e ∈ es -> l = l1 ++ to_key e :: l2 -> from_key e ∈ l1) /\
      acyclic (adjacent g Downstream)
  | None => exists x, tc (adjacent g Downstream) x x
  end.

Lemma topological_sort_spec g es keys order :
  refines g es -> keys ≡ₚ (map_to_list (outgoing g)).*1 ->
  order ≡ₚ (map_to_list (in_degrees g keys)).*1 ->
  exists r, topological_sort g keys order = Some r /\ sort_verdict g es keys r.
Proof.
  intros Hg Hkeys Horder. destruct (degrees g es keys Hg Hkeys) as [Hdeg Hdom].
  set (V := dom (in_degrees g keys)) in *.
  assert (HV : forall e, e ∈ es -> from_key e ∈ V /\ to_key e ∈ V).
  { intros e He. split; apply Hdom; [left; by eapply source_key|right; by exists e]. }
  destruct (kahn_returns g es Hg V HV (S (size (in_degrees g keys))) (in_degrees g keys) _ [] 
              (kahn_initial es _ order Hdeg Horder)) as (l & deg' & Hl & Hinv).
  { unfold V. rewrite size_dom. simpl. lia. }
  unfold topological_sort. rewrite Hl. eexists. split; [done|].
  pose proof (kahn_bound _ _ _ _ _ _ Hinv) as Hb. rewrite app_nil_r in Hb.
  assert (Hsub : (list_to_set l : gset Z) ⊆ V).
  { intros n Hn%elem_of_list_to_set. rewrite <- (kahn_dom _ _ _ _ _ _ Hinv). apply (elem_of_dom_2 _ _ O).
    apply (kahn_zero _ _ _ _ _ _ Hinv). by rewrite app_nil_r. }
  pose proof (kahn_nodup _ _ _ _ _ _ Hinv) as Hnd. rewrite app_nil_r in Hnd.
  assert (HsizeV : size V = size (in_degrees g keys)) by apply size_dom.
  pose proof (size_list_to_set (C := gset Z) l Hnd) as Hsl.
  destruct (Nat.eqb_spec (length l) (size (in_degrees g keys))) as [Hlen|Hlen]; cbn [sort_verdict].
  - assert (Heq : list_to_set l = V) by (apply set_subseteq_size_eq; [done|lia]).
    assert (Hin : forall n, n ∈ l <-> n ∈ V) by (intros n; by rewrite <- Heq, elem_of_list_to_set).
    pose proof (kahn_ordered _ _ _ _ _ _ Hinv) as Hord.
    split; [done|]. split; [intros n; by rewrite Hin, Hdom|]. split.
    { intros l1 l2 e He Hl'. apply (Hord _ _ _ Hl'). by exists e. }
    intros x Hx. assert (Hx' : tc (precedes es) x x).
    { apply tc_flip_loop. eapply tc_iff; [|exact Hx]. intros a b. by apply adjacent_precedes. }
    assert (Hxl : x ∈ l).
    { apply Hin. inversion Hx' as [? ? (e & He & Hto & _)|? ? ? (e & He & Hto & _)]; subst; by apply HV. }
    by apply (ordered_acyclic _ l x Hord Hnd Hxl).
  - destruct (set_choose_or_empty (V ∖ list_to_set l)) as [[x Hx]|Hsup].
    2: { assert (Hle : V ⊆ list_to_set l) by set_solver. apply subseteq_size in Hle. lia. }
    apply elem_of_difference in Hx as [Hx Hnx]. rewrite elem_of_list_to_set in Hnx.
    destruct (kahn_stuck g es Hg V HV _ l x Hinv Hx Hnx) as [y Hy]. exists y.
    eapply tc_iff; [|exact Hy]. intros a b. symmetry. by apply adjacent_precedes.
Qed.

(** C17. Topological sorting of a graph built by any run ends; it succeeds exactly
    when the graph has no cycle, and then lists every workflow once, each after all the workflows with an
    edge to it, whatever order the hash maps are walked in. *)
Theorem topological_sort_correct (ops : list graph_op) (keys order : list Z)
    (Hkeys : keys ≡ₚ (map_to_list (outgoing (graph_after ops))).*1)
    (Horder : order ≡ₚ (map_to_list (in_degrees (graph_after ops) keys)).*1) :
  exists r, topological_sort (graph_after ops) keys order = Some r /\
    sort_verdict (graph_after ops) (edges_after ops) keys r.
Proof. by apply topological_sort_spec; [apply refines_after|..]. Qed.

(** ** Cycle detection *)

Lemma Sorted_app_r (R : Z -> Z -> Prop) l l' : Sorted R (l ++ l') -> Sorted R l'.
Proof. induction l as [|x l IH]; [done|]. intros [H _]%Sorted_inv. by apply IH. Qed.

Lemma Sorted_snoc (R : Z -> Z -> Prop) l x y : Sorted R (l ++ [x]) -> R x y -> Sorted R ((l ++ [x]) ++ [y]).
Proof.
  intros Hl Hy. induction l as [|z l IH]; simpl in *; [by repeat constructor|].
  apply Sorted_inv in Hl as [Hl Hz]. constructor; [by apply IH|].
  destruct l as [|w l]; simpl in *; inversion Hz; by constructor.
Qed.

Lemma path_from_spec next p :
  next ∈ p -> exists a b, p = a ++ next :: b /\ path_from next p = Some (next :: b).
Proof.
  induction p as [|x p IH]; intros Hin; [by apply elem_of_nil in Hin|]. simpl.
  destruct (Z.eqb_spec x next) as [->|Hne]; [by exists [], p|].
  apply elem_of_cons in Hin as [->|Hin]; [done|]. destruct (IH Hin) as (a & b & -> & ->).
  by exists (x :: a), b.
Qed.

Section depth_first.
Context (g : WorkflowDependencyGraph).
Local Abbreviation adj := (adjacent g Downstream).

(** A closed walk along edges. *)
Definition is_cycle (c : list Z) : Prop :=
  exists x l y, c = x :: l /\ Sorted adj c /\ last c = Some y /\ adj y x.

Lemma is_cycle_tc c : is_cycle c -> exists x, tc adj x x.
Proof.
  intros (x & l & y & -> & Hs & Hl & Hy). exists x. apply Sorted_tc in Hs. apply StronglySorted_inv in Hs as [_ Hs].
  destruct l as [|z l]; [injection Hl as ->; by constructor|].
  rewrite Forall_forall in Hs. eapply tc_r; [|exact Hy]. apply Hs. apply last_Some_elem_of. done.
Qed.

(** [F] are the nodes the search has left, in that order. *)
Record dfs_inv (s : dfs) (F : list Z) : Prop := {
  dfs_stack : in_stack s = list_to_set (path s);
  dfs_nodup : NoDup (F ++ path s);
  dfs_seen : d_visited s = list_to_set (F ++ path s);
  dfs_path : Sorted adj (path s);
  dfs_cycles : Forall is_cycle (cycles s);
  dfs_order : cycles s = [] -> ordered adj F;
}.

(** What one step of the search guarantees: it leaves the path as it was and only adds
    finished nodes and cycles. *)
Definition extends (s : dfs) (F : list Z) (s' : dfs) (F' : list Z) : Prop :=
  dfs_inv s' F' /\ path s' = path s /\ F `prefix_of` F' /\ cycles s `prefix_of` cycles s'.

Lemma extends_trans s F s1 F1 s2 F2 : extends s F s1 F1 -> extends s1 F1 s2 F2 -> extends s F s2 F2.
Proof.
  intros (_ & Hp1 & HF1 & Hc1) (Hi2 & Hp2 & HF2 & Hc2). split; [done|]. split; [congruence|].
  split; [by transitivity F1|by transitivity (cycles s1)].
Qed.

Lemma extends_visited s F s' F' : dfs_inv s F -> extends s F s' F' -> d_visited s ⊆ d_visited s'.
Proof.
  intros Hi (Hi' & Hp & [k ->] & _). rewrite (dfs_seen _ _ Hi), (dfs_seen _ _ Hi'), Hp. set_solver.
Qed.

(** [search] explores a node that has not been seen, next to the end of the path. *)
Definition explores (fuel : nat) (search : Z -> dfs -> result dfs dfs_stop) : Prop :=
  forall node s F, dfs_inv s F -> node ∉ d_visited s -> node ∈ endpoints g ->
    Sorted adj (path s ++ [node]) -> (size (endpoints g ∖ d_visited s) <= fuel)%nat ->
    exists s' F', search node s = Ok s' /\ extends s F s' F' /\ node ∈ F'.

Lemma scan_edge_spec fuel search node p e s F :
  explores fuel search -> dfs_inv s F -> path s = p ++ [node] -> adj node (to_key e) ->
  (size (endpoints g ∖ d_visited s) <= fuel)%nat ->
  exists s' F', scan_edge search (Ok s) e = Ok s' /\ extends s F s' F' /\
    (cycles s' = [] -> to_key e ∈ F').
Proof.
  intros Hsearch Hi Hp Hadj Hf. unfold scan_edge. cbn [result_bind]. destruct (decide _) as [Hnew|Hseen].
  { destruct (Hsearch (to_key e) s F Hi Hnew) as (s' & F' & -> & Hex & Hin); [|by rewrite Hp; apply Sorted_snoc;
      [rewrite <- Hp; apply (dfs_path _ _ Hi)|]|done|by exists s', F'].
    by eapply adjacent_endpoints. }
  apply dec_stable in Hseen. destruct (decide _) as [Hst|Hnst].
  - rewrite (dfs_stack _ _ Hi), elem_of_list_to_set in Hst.
    destruct (path_from_spec _ _ Hst) as (a & b & Hab & ->).
    eexists _, F. split; [done|]. split; [|by destruct (cycles s)].
    split; [|split; [done|split; [done|by apply prefix_app_r]]].
    destruct Hi as [Hstk Hnd Hvis Hpath Hcyc Hord]. split; try done.
    + simpl. apply Forall_app. split; [done|]. constructor; [|done].
      exists (to_key e), b, node. split; [done|]. rewrite Hab in Hpath. split; [by apply Sorted_app_r in Hpath|].
      split; [|done]. rewrite Hp in Hab. apply (f_equal last) in Hab. rewrite last_snoc, last_app in Hab.
      by destruct (last (to_key e :: b)) eqn:Hl; [|apply last_None in Hl].
    + simpl. intros Hnil. by apply app_eq_nil in Hnil as [_ ?].
  - exists s, F. split; [done|]. split; [done|]. intros _.
    rewrite (dfs_seen _ _ Hi), elem_of_list_to_set, elem_of_app in Hseen. destruct Hseen as [?|Hpa]; [done|].
    destruct Hnst. by rewrite (dfs_stack _ _ Hi), elem_of_list_to_set.
Qed.

Lemma scan_edges_spec fuel search node p es s F :
  explores fuel search -> dfs_inv s F -> path s = p ++ [node] -> (forall e, e ∈ es -> adj node (to_key e)) ->
  (size (endpoints g ∖ d_visited s) <= fuel)%nat ->
  exists s' F', foldl (scan_edge search) (Ok s) es = Ok s' /\ extends s F s' F' /\
    (cycles s' = [] -> forall e, e ∈ es -> to_key e ∈ F').
Proof.
  intros Hsearch. revert s F. induction es as [|e es IH]; intros s F Hi Hp Hadj Hf.
  { exists s, F. split; [done|]. split; [done|]. by intros _ e ?%elem_of_nil. }
  destruct (scan_edge_spec fuel search node p e s F Hsearch Hi Hp) as (s1 & F1 & H1 & Hex1 & He1);
    [apply Hadj; by constructor|done|].
  pose proof (extends_visited _ _ _ _ Hi Hex1) as Hsub. cbn [foldl]. rewrite H1.
  destruct Hex1 as (Hi1 & Hp1 & HF1 & Hc1).
  destruct (IH s1 F1 Hi1) as (s2 & F2 & H2 & Hex2 & Hes2).
  - congruence.
  - intros e' He'. apply Hadj. by constructor.
  - etransitivity; [|exact Hf]. apply subseteq_size. set_solver.
  - exists s2, F2. split; [done|]. split; [by apply (extends_trans _ _ s1 F1)|].
    intros Hnil e' [->|He']%elem_of_cons; [|by apply Hes2].
    destruct Hex2 as (_ & _ & [k ->] & [c Hc]). apply elem_of_app. left. apply He1.
    rewrite Hnil in Hc. by destruct (cycles s1).
Qed.

Lemma enter_inv node s F :
  dfs_inv s F -> node ∉ d_visited s -> Sorted adj (path s ++ [node]) -> dfs_inv (enter node s) F.
Proof.
  intros [Hstk Hnd Hvis Hpath Hcyc Hord] Hnew Hs. rewrite Hvis, elem_of_list_to_set in Hnew.
  split; simpl; try done.
  - rewrite Hstk. apply set_eq. intros z. set_solver.
  - rewrite app_assoc. apply NoDup_app. split; [done|]. split; [|apply NoDup_singleton].
    by intros z Hz ->%list_elem_of_singleton.
  - rewrite Hvis. apply set_eq. intros z. set_solver.
Qed.

Lemma leave_inv node s F p :
  dfs_inv s F -> path s = p ++ [node] -> (cycles s = [] -> forall y, adj node y -> y ∈ F) ->
  dfs_inv (leave node s) (F ++ [node]) /\ path (leave node s) = p.
Proof.
  intros [Hstk Hnd Hvis Hpath Hcyc Hord] Hp Hout.
  assert (Hp' : path (leave node s) = p) by (simpl; rewrite Hp; apply removelast_last). split; [|done].
  rewrite Hp in Hnd, Hvis, Hpath, Hstk.
  assert (Hperm : (F ++ [node]) ++ p ≡ₚ F ++ p ++ [node]).
  { rewrite <- app_assoc. by rewrite (Permutation_app_comm [node] p). }
  assert (Hnode : node ∉ p).
  { apply NoDup_app in Hnd as (_ & _ & Hnd). apply NoDup_app in Hnd as (_ & Hdis & _).
    intros Hin. apply (Hdis node Hin). by constructor. }
  split; rewrite ?Hp'.
  - simpl. rewrite Hstk. apply set_eq. intros z. rewrite elem_of_difference, !elem_of_list_to_set, elem_of_app.
    set_solver.
  - by rewrite Hperm.
  - simpl. rewrite Hvis. apply set_eq. intros z. by rewrite !elem_of_list_to_set, Hperm.
  - clear -Hpath. induction p as [|x p IH]; [constructor|]. simpl in Hpath. apply Sorted_inv in Hpath as [Hs Hx].
    constructor; [by apply IH|]. destruct p; [constructor|]. inversion Hx. by constructor.
  - done.
  - simpl. intros Hnil. apply ordered_snoc; [by apply Hord|by apply Hout].
Qed.

Lemma dfs_cycle_explores fuel : explores fuel (dfs_cycle g fuel).
Proof.
  induction fuel as [|fuel IH]; intros node s F Hi Hnew Hend Hs Hf.
  { exfalso. assert (Hpos : size (endpoints g ∖ d_visited s) <> O); [|lia]. apply size_non_empty_iff. set_solver. }
  cbn [dfs_cycle]. pose proof (enter_inv node s F Hi Hnew Hs) as Hi1.
  destruct (scan_edges_spec fuel (dfs_cycle g fuel) node (path s) (default [] (outgoing g !! node))
              (enter node s) F IH Hi1 eq_refl) as (s2 & F2 & -> & (Hi2 & Hp2 & HF2 & Hc2) & Hout).
  - intros e He. apply list_elem_of_fmap. by exists e.
  - simpl. rewrite (size_seen _ _ node) in Hf by done. lia.
  - cbn [result_bind]. destruct (leave_inv node s2 F2 (path s) Hi2 Hp2) as [Hi3 Hp3].
    { intros Hnil y (e & -> & He)%list_elem_of_fmap. by apply (Hout Hnil). }
    exists (leave node s2), (F2 ++ [node]). split; [done|]. split; [|set_solver].
    split; [done|]. split; [done|]. split; [|done]. by apply prefix_app_r.
Qed.

(** The outer loop over the keys. *)
Lemma search_keys keys s F :
  dfs_inv s F -> path s = [] -> (forall k, k ∈ keys -> k ∈ endpoints g) ->
  exists s' F', foldl (fun r node => let? s := r in
      if decide (node ∈ d_visited s) then Ok s else dfs_cycle g (S (size (endpoints g))) node s) (Ok s) keys =
    Ok s' /\ extends s F s' F' /\ forall k, k ∈ keys -> k ∈ F'.
Proof.
  revert s F. induction keys as [|k keys IH]; intros s F Hi Hp Hkeys.
  { exists s, F. split; [done|]. split; [done|]. by intros k ?%elem_of_nil. }
  cbn [foldl]. cbn [result_bind].
  assert (Hstep : exists s1 F1, (if decide (k ∈ d_visited s) then Ok s
      else dfs_cycle g (S (size (endpoints g))) k s) = Ok s1 /\ extends s F s1 F1 /\ k ∈ F1).
  { destruct (decide (k ∈ d_visited s)) as [Hin|Hnin].
    - exists s, F. split; [done|]. split; [done|].
      by rewrite (dfs_seen _ _ Hi), Hp, app_nil_r, elem_of_list_to_set in Hin.
    - apply dfs_cycle_explores with (fuel := S (size (endpoints g))); [done|done|apply Hkeys; by constructor| |].
      + rewrite Hp. by repeat constructor.
      + transitivity (size (endpoints g)); [apply subseteq_size; set_solver|lia]. }
  destruct Hstep as (s1 & F1 & -> & Hex1 & Hk). pose proof Hex1 as (Hi1 & Hp1 & _ & _).
  destruct (IH s1 F1 Hi1) as (s2 & F2 & Hs2 & Hex2 & Hk2); [congruence| |].
  { intros k' Hk'. apply Hkeys. by constructor. }
  exists s2, F2. split; [done|]. split; [by apply (extends_trans _ _ s1 F1)|].
  intros k' [->|Hk']%elem_of_cons; [|by apply Hk2]. destruct Hex2 as (_ & _ & [l ->] & _). set_solver.
Qed.
End depth_first.

Lemma detect_cycles_spec g keys :
  keys ≡ₚ (map_to_list (outgoing g)).*1 ->
  exists cs, detect_cycles g keys = Ok cs /\ Forall (is_cycle g) cs /\
    (cs = [] -> acyclic (adjacent g Downstream)).
Proof.
  intros Hkeys.
  assert (Hall : forall k, k ∈ keys <-> is_Some (outgoing g !! k)).
  { intros k. rewrite Hkeys, list_elem_of_fmap. split.
    - intros ([k' l] & -> & H). apply elem_of_map_to_list in H. by exists l.
    - intros [l Hl]. exists (k, l). split; [done|]. by apply elem_of_map_to_list. }
  destruct (search_keys g keys (mkDfs ∅ ∅ [] []) []) as (s & F & Hs & (Hi & _ & _ & _) & Hin).
  - split; simpl; try done; [apply NoDup_nil_2|]. intros _. apply ordered_nil.
  - done.
  - intros k Hk%Hall. unfold endpoints. apply elem_of_union_r. by apply elem_of_dom.
  - exists (cycles s). unfold detect_cycles. rewrite Hs. split; [done|]. split; [apply (dfs_cycles _ _ _ Hi)|].
    intros Hnil x Hx. apply (ordered_acyclic (adjacent g Downstream) F x); [by apply (dfs_order _ _ _ Hi)| | |done].
    + pose proof (dfs_nodup _ _ _ Hi) as Hnd. by apply NoDup_app in Hnd as (? & _ & _).
    + apply Hin, Hall. assert (Hadj : exists y, adjacent g Downstream x y) by (inversion Hx; eauto).
      destruct Hadj as (y & Hy). apply list_elem_of_fmap in Hy as (e & _ & He).
      unfold get_dependencies in He. destruct (outgoing g !! x); [done|by apply elem_of_nil in He].
Qed.

(** Cycle detection ends without panicking on every graph, every list it reports is a
    closed walk along edges, and it reports none exactly when the graph has no cycle. *)
Theorem detect_cycles_correct (g : WorkflowDependencyGraph) (keys : list Z)
    (Hkeys : keys ≡ₚ (map_to_list (outgoing g)).*1) :
  exists cs, detect_cycles g keys = Ok cs /\ Forall (is_cycle g) cs /\
    (cs = [] <-> acyclic (adjacent g Downstream)).
Proof.
  destruct (detect_cycles_spec g keys Hkeys) as (cs & Hcs & Hall & Hnil). exists cs.
  split; [done|]. split; [done|]. split; [done|]. intros Hac. destruct cs as [|c cs]; [done|].
  apply Forall_cons in Hall as [Hc _]. destruct (is_cycle_tc g c Hc) as [x Hx]. by destruct (Hac x).
Qed.

(** The impact of a workflow: what is reachable from it within 100 edges, without itself. *)
Lemma impact_affected g k :
  exists a, analyze_impact g k = Some a /\
    forall n, n ∈ affected_workflows a <->
      n <> k /\ exists d, (d <= 100)%nat /\ nsteps (adjacent g Downstream) d k n.
Proof.
  destruct (traverse_spec g k Downstream 100) as (t & Ht & Hv & _). unfold analyze_impact. rewrite Ht.
  eexists. split; [done|]. intros n. cbn [affected_workflows].
  rewrite elem_of_difference, elem_of_singleton, Hv. tauto.
Qed.

Definition sample_ops : list graph_op :=
  [AddDependency 1 2 0 ParentChild None; AddDependency 3 1 5 SignalSender None;
   AddDependency 4 4 6 SagaStep None; RemoveWorkflow 4].

Lemma topological_sort_correct_witness :
  exists r, topological_sort (graph_after sample_ops) [1; 3] [2; 3; 1] = Some r /\
    sort_verdict (graph_after sample_ops) (edges_after sample_ops) [1; 3] r /\ r = Some [3; 1; 2].
Proof.
  destruct (topological_sort_correct sample_ops [1; 3] [2; 3; 1]) as (r & Hr & Hv).
  - replace ((map_to_list (outgoing (graph_after sample_ops))).*1) with [3; 1] by (vm_compute; reflexivity).
    exact (Permutation_rev [1; 3]).
  - replace ((map_to_list (in_degrees (graph_after sample_ops) [1; 3])).*1) with [3; 2; 1]
      by (vm_compute; reflexivity).
    exact (perm_swap 3 2 [1]).
  - exists r. split; [exact Hr|]. split; [exact Hv|].
    enough (Some r = Some (Some [3; 1; 2])) by congruence. rewrite <- Hr. vm_compute. reflexivity.
Defined.

Definition loop_ops : list graph_op :=
  [AddDependency 1 2 0 ParentChild None; AddDependency 2 1 5 AwaitingCompletion None].

Lemma detect_cycles_correct_witness :
  exists cs, detect_cycles (graph_after loop_ops) [2; 1] = Ok cs /\
    Forall (is_cycle (graph_after loop_ops)) cs /\ cs = [[2; 1]].
Proof.
  destruct (detect_cycles_correct (graph_after loop_ops) [2; 1]) as (cs & Hcs & Hall & _).
  - replace ((map_to_list (outgoing (graph_after loop_ops))).*1) with [2; 1] by (vm_compute; reflexivity).
    reflexivity.
  - exists cs. split; [exact Hcs|]. split; [exact Hall|].
    enough (Ok cs = Ok [[2; 1]] :> result _ dfs_stop) by congruence. rewrite <- Hcs. vm_compute. reflexivity.
Defined.

End DepGraph.
