(* ===== verification/PayloadCodec.v ===== *)
(** * Payload codecs ([velocity-workflow-engine/src/payload_codec.rs])

    The trait [PayloadCodec] is a record of its methods, a trait object a value of
    it.  [Lawful] is what a codec promises to the chain that uses it; the codecs of
    the file are instances, chains and the registry are verified against the
    promise only. *)

From stdpp Require Import strings pretty.
From S2P Require Import Prelude.

Module PayloadCodec.

Inductive CodecError : Type :=
| EncodingFailed (m : string)
| DecodingFailed (m : string)
| InvalidPayload (m : string)
| SizeLimitExceeded (actual max : nat)
| UnknownCodec (m : string)
| ChainBroken (codec_name : string) (step : nat).

(** ** Payloads *)

Record PayloadMetadata : Type := mkMetadata {
  content_type : option string;
  encoding : option string;
  message_type : option string;
  entries : gmap string bytes;
}.

Definition str_contains (e s : string) : bool :=
  match String.index 0 s e with Some _ => true | None => false end.

Definition is_encrypted (m : PayloadMetadata) : bool :=
  match encoding m with Some e => str_contains e "encrypted" | None => false end.
Definition is_compressed (m : PayloadMetadata) : bool :=
  match encoding m with Some e => str_contains e "gzip" || str_contains e "deflate" | None => false end.

Record Payload : Type := mkPayload { data : bytes; pl_metadata : PayloadMetadata }.

(** ** The trait and its codecs *)

Record Codec : Type := mkCodec {
  name : string;
  encode : bytes -> result bytes CodecError;
  decode : bytes -> result bytes CodecError;
}.

Definition IdentityCodec : Codec := mkCodec "identity" Ok Ok.

Definition xor_all (key : Z) (payload : bytes) : bytes := map (fun b => Z.lxor b key) payload.
Definition XorCodec (key : Z) : Codec :=
  mkCodec "xor" (fun p => Ok (xor_all key p)) (fun p => Ok (xor_all key p)).

(** The loop of [rle_encode]: [count] bytes [current] seen and not yet written. *)
Fixpoint rle_loop (current count : Z) (rest : bytes) : bytes :=
  match rest with
  | [] => [count; current]
  | b :: rest =>
      if (b =? current) && (count <? 255) then rle_loop current (count + 1) rest
      else count :: current :: rle_loop b 1 rest
  end.

Definition rle_encode (d : bytes) : bytes :=
  match d with
  | [] => []
  | b :: rest => rle_loop b 1 rest
  end.

Fixpoint rle_chunks (d : bytes) : bytes :=
  match d with
  | count :: byte :: rest => replicate (Z.to_nat count) byte ++ rle_chunks rest
  | _ => []
  end.

Definition rle_decode (d : bytes) : result bytes CodecError :=
  if Nat.even (length d) then Ok (rle_chunks d)
  else Err (DecodingFailed "invalid RLE data (odd length)").

Definition compress (min_size_to_compress : nat) (payload : bytes) : result bytes CodecError :=
  if (length payload <? min_size_to_compress)%nat then Ok (0 :: payload)
  else
    let compressed := rle_encode payload in
    if (length compressed <? length payload)%nat then Ok (1 :: compressed) else Ok (0 :: payload).

Definition decompress (payload : bytes) : result bytes CodecError :=
  match payload with
  | [] => Err (DecodingFailed "empty payload")
  | m :: rest =>
      if m =? 0 then Ok rest
      else if m =? 1 then rle_decode rest
      else Err (DecodingFailed ("unknown compression marker: " +:+ pretty m))
  end.

Definition CompressionCodec (min_size_to_compress : nat) : Codec :=
  mkCodec "compression" (compress min_size_to_compress) decompress.

(** [key[i % 32]]: the key is an array of 32 bytes. *)
Definition key_at (key : bytes) (i : nat) : Z := nth (i mod 32) key 0.

Definition encrypt (key : bytes) (payload : bytes) : bytes :=
  imap (fun i b => Z.lxor b (key_at key i)) payload.
Definition EncryptionCodec (key : bytes) : Codec :=
  mkCodec "encryption" (fun p => Ok (encrypt key p)) (fun p => Ok (encrypt key p)).

Fixpoint fold_passphrase (i : nat) (pass key : bytes) : bytes :=
  match pass with
  | [] => key
  | b :: pass => fold_passphrase (S i) pass (alter (fun k => Z.lxor k b) (i mod 32)%nat key)
  end.
Definition from_passphrase (pass : bytes) : Codec :=
  EncryptionCodec (fold_passphrase 0 pass (replicate 32 0)).

Definition limit (max_size : nat) (p : bytes) : result bytes CodecError :=
  if (max_size <? length p)%nat then Err (SizeLimitExceeded (length p) max_size) else Ok p.

Definition SizeLimitCodec (inner : Codec) (max_size : nat) : Codec :=
  mkCodec "size-limit"
    (fun p => let? p := limit max_size p in encode inner p)
    (fun p => let? decoded := decode inner p in limit max_size decoded).

(** ** Chains *)

Record CodecChain : Type := mkChain {
  codecs : list Codec;
  encode_count : Z;
  decode_count : Z;
  encode_errors : Z;
  decode_errors : Z;
}.

Definition chain_new : CodecChain := mkChain [] 0 0 0 0.
Definition chain_add (c : CodecChain) (codec : Codec) : CodecChain :=
  mkChain (codecs c ++ [codec]) (encode_count c) (decode_count c) (encode_errors c) (decode_errors c).

(** The loops of [encode] and [decode]: an error of codec [i] breaks the chain there. *)
Fixpoint run_chain (f : Codec -> bytes -> result bytes CodecError) (i : nat) (cs : list Codec) (p : bytes) :
    result bytes CodecError :=
  match cs with
  | [] => Ok p
  | c :: cs =>
      match f c p with
      | Ok p => run_chain f (S i) cs p
      | Err _ => Err (ChainBroken (name c) i)
      end
  end.

Definition chain_encode (c : CodecChain) (p : bytes) : CodecChain * result bytes CodecError :=
  match run_chain encode 0 (codecs c) p with
  | Ok r => (mkChain (codecs c) (wrap 64 (encode_count c + 1)) (decode_count c) (encode_errors c)
               (decode_errors c), Ok r)
  | Err e => (mkChain (codecs c) (encode_count c) (decode_count c) (wrap 64 (encode_errors c + 1))
                (decode_errors c), Err e)
  end.

Definition chain_decode (c : CodecChain) (p : bytes) : CodecChain * result bytes CodecError :=
  match run_chain decode 0 (rev (codecs c)) p with
  | Ok r => (mkChain (codecs c) (encode_count c) (wrap 64 (decode_count c + 1)) (encode_errors c)
               (decode_errors c), Ok r)
  | Err e => (mkChain (codecs c) (encode_count c) (decode_count c) (encode_errors c)
                (wrap 64 (decode_errors c + 1)), Err e)
  end.

Definition encode_payload (c : CodecChain) (p : Payload) : CodecChain * result Payload CodecError :=
  let '(c, r) := chain_encode c (data p) in
  (c, let? d := r in Ok (mkPayload d (pl_metadata p))).
Definition decode_payload (c : CodecChain) (p : Payload) : CodecChain * result Payload CodecError :=
  let '(c, r) := chain_decode c (data p) in
  (c, let? d := r in Ok (mkPayload d (pl_metadata p))).

(** ** Registry and validator *)

Definition CodecRegistry : Type := gmap string Codec.
Definition codec_registry_new : CodecRegistry := {["identity" := IdentityCodec]}.
Definition register_codec (r : CodecRegistry) (c : Codec) : CodecRegistry := <[name c := c]> r.

Fixpoint build_from (r : CodecRegistry) (names : list string) (chain : CodecChain) :
    result CodecChain CodecError :=
  match names with
  | [] => Ok chain
  | n :: names =>
      match r !! n with
      | Some c => build_from r names (chain_add chain c)
      | None => Err (UnknownCodec n)
      end
  end.
Definition build_chain (r : CodecRegistry) (names : list string) : result CodecChain CodecError :=
  build_from r names chain_new.

Definition validate (max_payload_size : nat) (allowed : list string) (p : Payload) :
    result unit CodecError :=
  if (max_payload_size <? length (data p))%nat then
    Err (SizeLimitExceeded (length (data p)) max_payload_size)
  else match allowed, content_type (pl_metadata p) with
       | _ :: _, Some ct =>
           if existsb (String.eqb ct) allowed then Ok ()
           else Err (InvalidPayload ("content type '" +:+ ct +:+ "' not allowed"))
       | _, _ => Ok ()
       end.

(** ** What a codec promises *)

(** Bytes go to bytes in both directions, and decoding undoes encoding. *)
Class Lawful (c : Codec) : Prop := {
  encode_bytes p q : is_bytes p -> encode c p = Ok q -> is_bytes q;
  decode_bytes p q : is_bytes p -> decode c p = Ok q -> is_bytes q;
  decode_encode p q : is_bytes p -> encode c p = Ok q -> decode c q = Ok p;
}.

#[export] Instance identity_lawful : Lawful IdentityCodec.
Proof. split; simpl; congruence. Qed.

Lemma xor_all_bytes key p : u8 key -> is_bytes p -> is_bytes (xor_all key p).
Proof. intros Hk Hp. apply List.Forall_map. eapply Forall_impl; [exact Hp|]. intros b Hb. by apply fits_lxor. Qed.

Lemma lxor_twice a k : Z.lxor (Z.lxor a k) k = a.
Proof. by rewrite Z.lxor_assoc, Z.lxor_nilpotent, Z.lxor_0_r. Qed.

Lemma xor_lawful key : u8 key -> Lawful (XorCodec key).
Proof.
  intros Hk. split; simpl; intros p q Hp [= <-]; [by apply xor_all_bytes..|].
  f_equal. unfold xor_all. rewrite map_map. rewrite <- (map_id p) at 2. apply map_ext.
  intros b. apply lxor_twice.
Qed.

Lemma key_at_u8 key i : is_bytes key -> u8 (key_at key i).
Proof.
  intros Hk. unfold key_at. destruct (nth_in_or_default (i mod 32) key 0) as [Hin| ->]; [|ranges].
  rewrite Forall_forall in Hk. apply Hk. by apply list_elem_of_In.
Qed.

Lemma encrypt_bytes key p : is_bytes key -> is_bytes p -> is_bytes (encrypt key p).
Proof.
  intros Hk Hp. unfold encrypt. apply Forall_lookup. intros i b. rewrite list_lookup_imap.
  destruct (p !! i) as [x|] eqn:Hx; [|done]. intros [= <-]. apply fits_lxor; [lia| |by apply key_at_u8].
  by eapply Forall_lookup_1.
Qed.

Lemma encryption_lawful key : is_bytes key -> Lawful (EncryptionCodec key).
Proof.
  intros Hk. split; simpl; intros p q Hp [= <-]; [by apply encrypt_bytes..|].
  f_equal. unfold encrypt. apply list_eq. intros i. rewrite !list_lookup_imap.
  destruct (p !! i); simpl; [|done]. by rewrite lxor_twice.
Qed.

(** ** Run-length encoding *)

Lemma rle_loop_chunks current count rest :
  0 <= count -> rle_chunks (rle_loop current count rest) = replicate (Z.to_nat count) current ++ rest.
Proof.
  revert current count. induction rest as [|b rest IH]; intros current count Hc; simpl; [done|].
  destruct (Z.eqb_spec b current) as [->|Hne], (Z.ltb_spec count 255) as [Hlt|Hge]; simpl;
    try (rewrite IH by lia; done).
  rewrite IH by lia. rewrite Z2Nat.inj_add, Nat.add_1_r by lia. rewrite replicate_S_end, <- app_assoc. done.
Qed.

Lemma rle_loop_even current count rest : Nat.even (length (rle_loop current count rest)) = true.
Proof.
  revert current count. induction rest as [|b rest IH]; intros current count; simpl; [done|].
  by destruct (_ && _); simpl.
Qed.

(** The count is a [u8] that never overflows: it starts at one and stops at 255. *)
Lemma rle_loop_bytes current count rest :
  1 <= count <= 255 -> u8 current -> is_bytes rest -> is_bytes (rle_loop current count rest).
Proof.
  intros Hc Hcur Hr. revert current count Hc Hcur. induction Hr as [|b rest Hb Hr IH]; intros current count Hc Hcur; simpl.
  - repeat constructor; try done; ranges.
  - destruct (Z.eqb_spec b current), (Z.ltb_spec count 255); simpl; try (apply IH; [lia|done]);
      (constructor; [ranges|constructor; [done|apply IH; [lia|done]]]).
Qed.

Lemma rle_roundtrip d : is_bytes d -> is_bytes (rle_encode d) /\ rle_decode (rle_encode d) = Ok d.
Proof.
  intros Hd. destruct d as [|b d]; [done|]. apply Forall_cons in Hd as [Hb Hd]. simpl. split.
  - apply rle_loop_bytes; [lia|done|done].
  - unfold rle_decode. by rewrite rle_loop_even, rle_loop_chunks.
Qed.

Lemma rle_chunks_bytes d : is_bytes d -> is_bytes (rle_chunks d).
Proof.
  induction d as [d IH] using (induction_ltof1 _ length). unfold ltof in IH.
  destruct d as [|c [|b d]]; simpl; intros H; [constructor|constructor|].
  apply Forall_cons in H as [_ H]. apply Forall_cons in H as [Hb Hd].
  apply Forall_app. split; [by apply Forall_replicate|]. apply IH; [simpl; lia|done].
Qed.

#[export] Instance compression_lawful min : Lawful (CompressionCodec min).
Proof.
  split; simpl; intros p q Hp.
  - unfold compress. destruct (_ <? _)%nat; [|destruct (_ <? _)%nat]; intros [= <-]; constructor; try ranges; try done.
    by apply rle_roundtrip.
  - destruct p as [|m p]; [done|]. apply Forall_cons in Hp as [_ Hp]. simpl. destruct (m =? 0); [congruence|].
    destruct (m =? 1); [|done]. unfold rle_decode. destruct (Nat.even _); [|done]. intros [= <-].
    by apply rle_chunks_bytes.
  - unfold compress. destruct (_ <? _)%nat; [|destruct (_ <? _)%nat]; intros [= <-]; simpl; try done.
    by apply rle_roundtrip.
Qed.

Lemma limit_ok max p q : limit max p = Ok q -> q = p /\ (length p <= max)%nat.
Proof. unfold limit. destruct (Nat.ltb_spec max (length p)); [done|]. intros [= <-]. split; [done|lia]. Qed.

#[export] Instance size_limit_lawful c max : Lawful c -> Lawful (SizeLimitCodec c max).
Proof.
  intros Hc. split; simpl; intros p q Hp.
  - destruct (limit max p) eqn:Hl; [|done]. apply limit_ok in Hl as [-> _]. by apply encode_bytes.
  - destruct (decode c p) as [d|] eqn:Hd; [|done]. cbn [result_bind]. intros [-> _]%limit_ok.
    by eapply decode_bytes.
  - destruct (limit max p) as [p'|] eqn:Hl; [|done]. apply limit_ok in Hl as [-> Hlen]. cbn [result_bind].
    intros He. rewrite (decode_encode p q) by done. cbn [result_bind]. unfold limit.
    by destruct (Nat.ltb_spec max (length p)); [lia|].
Qed.

Lemma passphrase_bytes i pass key : is_bytes pass -> is_bytes key -> is_bytes (fold_passphrase i pass key).
Proof.
  intros Hp. revert i key. induction Hp as [|b pass Hb _ IH]; intros i key Hk; [done|]. simpl. apply IH.
  apply Forall_alter; [done|]. intros x _ Hx. by apply fits_lxor.
Qed.

Lemma passphrase_lawful pass : is_bytes pass -> Lawful (from_passphrase pass).
Proof.
  intros Hp. apply encryption_lawful. apply passphrase_bytes; [done|]. apply Forall_replicate. ranges.
Qed.

(** ** Chains *)

Lemma run_chain_app f i cs cs' p :
  run_chain f i (cs ++ cs') p = let? q := run_chain f i cs p in run_chain f (i + length cs) cs' q.
Proof.
  revert i p. induction cs as [|c cs IH]; intros i p; simpl; [by rewrite Nat.add_0_r|].
  destruct (f c p); [|done]. rewrite IH. by rewrite Nat.add_succ_r.
Qed.

Lemma run_chain_roundtrip cs i j p q :
  Forall Lawful cs -> is_bytes p -> run_chain encode i cs p = Ok q -> run_chain decode j (rev cs) q = Ok p.
Proof.
  intros Hcs. revert i j p. induction Hcs as [|c cs Hc Hcs IH]; intros i j p Hp; simpl; [congruence|].
  destruct (encode c p) as [r|] eqn:Hr; [|done]. intros Hq. rewrite run_chain_app.
  rewrite (IH (S i) j r) by (done || by eapply encode_bytes). cbn [result_bind run_chain].
  by rewrite (decode_encode p r) by done.
Qed.

(** The first codec that fails, and where. *)
Lemma run_chain_error f i cs p e :
  run_chain f i cs p = Err e ->
  exists cs1 c cs2 q err, cs = cs1 ++ c :: cs2 /\ run_chain f i cs1 p = Ok q /\ f c q = Err err /\
    e = ChainBroken (name c) (i + length cs1).
Proof.
  revert i p. induction cs as [|c cs IH]; intros i p; simpl; [done|].
  destruct (f c p) as [r|err] eqn:Hr.
  - intros (cs1 & c' & cs2 & q & err & -> & Hq & Herr & ->)%IH. exists (c :: cs1), c', cs2, q, err.
    split; [done|]. simpl. rewrite Hr. split; [done|]. split; [done|]. by rewrite Nat.add_succ_r.
  - intros [= <-]. exists [], c, cs, p, err. simpl. by rewrite Nat.add_0_r.
Qed.

(** ** Chains built from a registry *)

Definition registry_after (regs : list Codec) : CodecRegistry := foldl register_codec codec_registry_new regs.

Lemma registry_lookup regs r n c :
  foldl register_codec r regs !! n = Some c -> r !! n = Some c \/ (c ∈ regs /\ name c = n).
Proof.
  revert r. induction regs as [|c' regs IH]; intros r; simpl; [by left|]. intros [H|[Hin Hn]]%IH.
  - unfold register_codec in H. apply lookup_insert_Some in H as [[<- <-]|[_ H]]; [right|by left].
    split; [by constructor|done].
  - right. split; [by constructor|done].
Qed.

Lemma registry_lawful regs n c :
  Forall Lawful regs -> registry_after regs !! n = Some c -> Lawful c.
Proof.
  intros Hregs [H|[Hin _]]%registry_lookup.
  - unfold codec_registry_new in H. apply lookup_singleton_Some in H as [_ <-]. apply _.
  - rewrite Forall_forall in Hregs. by apply Hregs.
Qed.

Lemma build_from_spec (r : CodecRegistry) names chain :
  match build_from r names chain with
  | Ok c => exists cs, codecs c = codecs chain ++ cs /\ Forall2 (fun n x => r !! n = Some x) names cs
  | Err e => exists n, n ∈ names /\ r !! n = None /\ e = UnknownCodec n
  end.
Proof.
  revert chain. induction names as [|n names IH]; intros chain; simpl.
  { exists []. by rewrite app_nil_r. }
  destruct (r !! n) as [x|] eqn:Hn; [|by exists n; split; [constructor|]].
  specialize (IH (chain_add chain x)). destruct (build_from _ _ _) as [c|e].
  - destruct IH as (cs & Hcs & Hall). exists (x :: cs). split; [|by constructor].
    rewrite Hcs. simpl. by rewrite <- app_assoc.
  - destruct IH as (m & Hm & Hnone & ->). exists m. split; [by constructor|done].
Qed.

Lemma built_lawful regs names chain :
  Forall Lawful regs -> build_chain (registry_after regs) names = Ok chain -> Forall Lawful (codecs chain).
Proof.
  intros Hregs Hb. pose proof (build_from_spec (registry_after regs) names chain_new) as Hs.
  unfold build_chain in Hb. rewrite Hb in Hs. destruct Hs as (cs & -> & Hall). simpl. clear Hb.
  induction Hall as [|n x names cs Hx _ IH]; [done|]. constructor; [exact (registry_lawful regs n x Hregs Hx)|exact IH].
Qed.

(** C21. A chain built by name from a registry of lawful codecs decodes every
    payload it encodes to the payload it was given; it fails to build only for a
    name that is not registered, and encoding fails only at a codec that fails, which the error names. *)
Theorem codec_chain_roundtrip (regs : list Codec) (names : list string) (p : Payload)
    (Hregs : Forall Lawful regs) (Hp : is_bytes (data p)) :
  match build_chain (registry_after regs) names with
  | Err e => exists n, n ∈ names /\ registry_after regs !! n = None /\ e = UnknownCodec n
  | Ok chain =>
      Forall2 (fun n c => registry_after regs !! n = Some c) names (codecs chain) /\
      match (encode_payload chain p).2 with
      | Ok q => (decode_payload chain q).2 = Ok p
      | Err e => exists i c x err, codecs chain !! i = Some c /\ encode c x = Err err /\
                   e = ChainBroken (name c) i
      end
  end.
Proof.
  pose proof (build_from_spec (registry_after regs) names chain_new) as Hs. unfold build_chain.
  destruct (build_from _ names chain_new) as [chain|e] eqn:Hb; [|exact Hs].
  pose proof (built_lawful regs names chain Hregs Hb) as Hlaw.
  destruct Hs as (cs & Hcs & Hall). simpl in Hcs. subst cs. split; [exact Hall|].
  unfold encode_payload, chain_encode. destruct (run_chain encode 0 (codecs chain) (data p)) as [d|e] eqn:Hr.
  - cbn [snd result_bind]. unfold decode_payload, chain_decode. cbn [data pl_metadata].
    rewrite (run_chain_roundtrip _ _ 0 _ _ Hlaw Hp Hr). by destruct p.
  - cbn [snd result_bind]. apply run_chain_error in Hr as (cs1 & c & cs2 & x & err & -> & _ & Herr & ->).
    exists (length cs1), c, x, err. split; [by apply list_lookup_middle|]. done.
Qed.

Definition sample_payload : Payload := mkPayload (replicate 40 7 ++ [1; 2]) (mkMetadata None None None ∅).

Lemma codec_chain_roundtrip_witness :
  let regs := [CompressionCodec 32; XorCodec 90; SizeLimitCodec (XorCodec 1) 100] in
  exists chain, build_chain (registry_after regs) ["size-limit"; "compression"; "xor"; "identity"]%string = Ok chain /\
  exists q, (encode_payload chain sample_payload).2 = Ok q /\ length (data q) = 7%nat /\
    (decode_payload chain q).2 = Ok sample_payload.
Proof.
  intros regs.
  assert (Hregs : Forall Lawful regs).
  { apply List.Forall_cons; [apply _|]. apply List.Forall_cons; [apply xor_lawful; vm_compute; done|].
    apply List.Forall_cons; [|apply List.Forall_nil]. apply size_limit_lawful, xor_lawful. vm_compute. done. }
  pose proof (codec_chain_roundtrip regs ["size-limit"; "compression"; "xor"; "identity"]%string sample_payload
    Hregs ltac:(repeat constructor; vm_compute; done)) as H.
  destruct (build_chain _ _) as [chain|] eqn:Hb; [|exfalso; vm_compute in Hb; discriminate].
  destruct H as [_ H]. exists chain. split; [reflexivity|].
  assert (Hq : exists q, (encode_payload chain sample_payload).2 = Ok q /\ length (data q) = 7%nat).
  { vm_compute in Hb. injection Hb as <-. eexists. split; vm_compute; reflexivity. }
  destruct Hq as (q & Hq & Hlen). rewrite Hq in H. exists q. split; [exact Hq|]. split; [exact Hlen|exact H].
Defined.

(** The name of a codec is that of its type, so a registry holds one XOR codec at most: the second
    registration replaces the key of the first. *)
Lemma second_xor_replaces k k' :
  registry_after [XorCodec k; XorCodec k'] !! "xor"%string = Some (XorCodec k').
Proof. done. Qed.

End PayloadCodec.
