(* ===== verification/Cron.v ===== *)
(** * Cron schedules ([velocity-workflow-engine/src/cron.rs])

    Parsing of five-field cron expressions, the search for the next minute that
    matches, and the scheduler that fires due schedules.  Time is in minutes since the
    epoch, and the source's calendar is a simplified one: days of the month cycle
    with period 31, months are 30 days. *)

From S2P Require Import Prelude Text.

Module Cron.

Inductive CronError : Type :=
| InvalidFormat (fields : nat)
| InvalidValue (part : string)
| OutOfRange (part : string) (min max : Z).

(** [LoopFuel] stands for a loop that does not end; it is shown not to occur. *)
Inductive cron_stop : Type := CronFail (e : CronError) | LoopFuel.
Abbreviation cron A := (result A cron_stop).

(** ** Splitting *)

(** [split(p)]: one more piece than separators. *)
Fixpoint split_on (p : ascii -> bool) (l : chars) : list chars :=
  match l with
  | [] => [[]]
  | c :: l =>
      if p c then [] :: split_on p l
      else match split_on p l with
           | w :: ws => (c :: w) :: ws
           | [] => [[c]]
           end
  end.

Definition split_whitespace (l : chars) : list chars :=
  List.filter (fun w => match w with [] => false | _ => true end) (split_on is_whitespace l).

Definition trim (l : chars) : chars := rev (drop_while is_whitespace (rev (drop_while is_whitespace l))).

Definition is_comma (c : ascii) : bool := code c =? 44.
Definition is_dash (c : ascii) : bool := code c =? 45.
Definition is_asterisk (c : ascii) : bool := code c =? 42.
Definition is_slash (c : ascii) : bool := code c =? 47.

(** ** Fields *)

(** [while v <= max { values.push(v); v += step; }] on [u8]. *)
Fixpoint step_loop (fuel : nat) (v step max : Z) : cron (list Z) :=
  match fuel with
  | O => Err LoopFuel
  | S fuel =>
      if v <=? max then let? vs := step_loop fuel (wrap 8 (v + step)) step max in Ok (v :: vs)
      else Ok []
  end.

(** [a..=b]. *)
Definition range_incl (a b : Z) : list Z := seqZ a (b - a + 1).

Definition parse_u8_or (part s : chars) : cron Z :=
  match parse_u8 s with
  | Some v => Ok v
  | None => Err (CronFail (InvalidValue (to_string part)))
  end.

(** The last two cases of the loop body: a range, if the part has a dash, or one value. *)
Definition parse_plain (min max : Z) (part : chars) : cron (list Z) :=
  if existsb is_dash part then
    match split_on is_dash part with
    | [lo; hi] =>
        let? first := parse_u8_or part lo in
        let? last := parse_u8_or part hi in
        if (max <? first) || (max <? last) then Err (CronFail (OutOfRange (to_string part) min max))
        else Ok (range_incl first last)
    | _ => Err (CronFail (InvalidValue (to_string part)))
    end
  else
    let? v := parse_u8_or part part in
    if (v <? min) || (max <? v) then Err (CronFail (OutOfRange (to_string part) min max)) else Ok [v].

(** The body of the loop over the parts of a field. *)
Definition parse_part (min max : Z) (part : chars) : cron (list Z) :=
  let part := trim part in
  match part with
  | [a] => if is_asterisk a then Ok (range_incl min max) else parse_plain min max part
  | a :: s :: star_step =>
      if is_asterisk a && is_slash s then
        let? step := parse_u8_or part star_step in
        if step =? 0 then Err (CronFail (InvalidValue "Step cannot be zero"))
        else step_loop 257 min step max
      else parse_plain min max part
  | [] => parse_plain min max part
  end.

Fixpoint parse_parts (min max : Z) (parts : list chars) : cron (list Z) :=
  match parts with
  | [] => Ok []
  | part :: parts =>
      let? vs := parse_part min max part in
      let? ws := parse_parts min max parts in
      Ok (vs ++ ws)
  end.

Definition parse_field (field : chars) (min max : Z) : cron (list Z) :=
  let? values := parse_parts min max (split_on is_comma field) in Ok (sort_dedup values).

Record CronExpression : Type := mkCron {
  minutes : list Z;
  hours : list Z;
  days_of_month : list Z;
  months : list Z;
  days_of_week : list Z;
}.

Definition parse (expr : chars) : cron CronExpression :=
  match split_whitespace expr with
  | [f0; f1; f2; f3; f4] =>
      let? m := parse_field f0 0 59 in
      let? h := parse_field f1 0 23 in
      let? d := parse_field f2 1 31 in
      let? mo := parse_field f3 1 12 in
      let? w := parse_field f4 0 6 in
      Ok (mkCron m h d mo w)
  | fields => Err (CronFail (InvalidFormat (length fields)))
  end.

(** ** The next fire time *)

Definition minute_of (t : Z) : Z := t mod 60.
Definition hour_of (t : Z) : Z := (t / 60) mod 24.
Definition day_of (t : Z) : Z := (t / 1440) mod 31 + 1.
Definition month_of (t : Z) : Z := (t / 43200) mod 12 + 1.
Definition weekday_of (t : Z) : Z := (t / 1440) mod 7.

Definition has_value (l : list Z) (x : Z) : bool := existsb (Z.eqb x) l.

Definition matches (e : CronExpression) (t : Z) : bool :=
  has_value (minutes e) (minute_of t) && has_value (hours e) (hour_of t) &&
  has_value (days_of_month e) (day_of t) && has_value (months e) (month_of t) &&
  has_value (days_of_week e) (weekday_of t).

(** The loop, [fuel] iterations from [candidate]. *)
Fixpoint search (e : CronExpression) (fuel : nat) (candidate : Z) : option Z :=
  match fuel with
  | O => None
  | S fuel => if matches e candidate then Some candidate else search e fuel (wrap 64 (candidate + 1))
  end.

Definition max_iterations : Z := 4 * 366 * 24 * 60.

Definition next_fire_after (e : CronExpression) (after : Z) : Z :=
  match search e (Z.to_nat max_iterations) (wrap 64 (after + 1)) with
  | Some t => t
  | None => wrap 64 (after + 60)
  end.

(** ** The scheduler *)

Record CronEntry : Type := mkEntry {
  schedule_id : Z;
  cron_expr : CronExpression;
  workflow_type_id : Z;
  namespace_id : Z;
  task_queue_hash : Z;
  total_steps : Z;
  last_fire_time : Z;
  next_fire_time : Z;
  fire_count : Z;
  paused : bool;
}.

Record CronScheduler : Type := mkScheduler { entries : gmap Z CronEntry; next_id : Z }.

Definition scheduler_new : CronScheduler := mkScheduler ∅ 1.

Definition register (s : CronScheduler) (cron_expression : chars) (ty ns queue steps now : Z) :
    CronScheduler * cron Z :=
  match parse cron_expression with
  | Err e => (s, Err e)
  | Ok expr =>
      let id := next_id s in
      (mkScheduler (<[id := mkEntry id expr ty ns queue steps 0 (next_fire_after expr now) 0 false]> (entries s))
         (wrap 64 (id + 1)), Ok id)
  end.

Definition unregister (s : CronScheduler) (id : Z) : CronScheduler * bool :=
  (mkScheduler (delete id (entries s)) (next_id s), bool_decide (is_Some (entries s !! id))).

Definition with_paused (p : bool) (e : CronEntry) : CronEntry :=
  mkEntry (schedule_id e) (cron_expr e) (workflow_type_id e) (namespace_id e) (task_queue_hash e)
    (total_steps e) (last_fire_time e) (next_fire_time e) (fire_count e) p.

Definition set_paused (s : CronScheduler) (id : Z) (p : bool) : CronScheduler * bool :=
  (mkScheduler (alter (with_paused p) id (entries s)) (next_id s), bool_decide (is_Some (entries s !! id))).

Record CronFireEvent : Type := mkFire {
  ev_schedule_id : Z;
  ev_workflow_type_id : Z;
  ev_namespace_id : Z;
  ev_task_queue_hash : Z;
  ev_total_steps : Z;
  fire_number : Z;
}.

Definition is_due (now : Z) (e : CronEntry) : bool := negb (paused e) && (next_fire_time e <=? now).

Definition fire_event (e : CronEntry) : CronFireEvent :=
  mkFire (schedule_id e) (workflow_type_id e) (namespace_id e) (task_queue_hash e) (total_steps e)
    (wrap 64 (fire_count e + 1)).

Definition after_fire (now : Z) (e : CronEntry) : CronEntry :=
  mkEntry (schedule_id e) (cron_expr e) (workflow_type_id e) (namespace_id e) (task_queue_hash e)
    (total_steps e) (next_fire_time e) (next_fire_after (cron_expr e) now) (wrap 64 (fire_count e + 1))
    (paused e).

(** [order] is the iteration order of the map: its keys. *)
Definition advance_to (s : CronScheduler) (order : list Z) (now : Z) : CronScheduler * list CronFireEvent :=
  (mkScheduler ((fun e => if is_due now e then after_fire now e else e) <$> entries s) (next_id s),
   map fire_event (List.filter (is_due now) (omap (fun k => entries s !! k) order))).

(** ** Printing fields

    The grammar that the parser is meant for, printed. *)

Inductive part : Type :=
| Star
| Step (n : Z)
| Range (a b : Z)
| Single (v : Z).

Definition print_part (p : part) : chars :=
  match p with
  | Star => of_string "*"
  | Step n => of_string "*/" ++ print_int n
  | Range a b => print_int a ++ of_string "-" ++ print_int b
  | Single v => print_int v
  end.

Fixpoint print_parts (p : part) (ps : list part) : chars :=
  match ps with
  | [] => print_part p
  | q :: ps => print_part p ++ ","%char :: print_parts q ps
  end.

(** A field is a nonempty list of parts. *)
Definition field : Type := part * list part.
Definition print_field (f : field) : chars := print_parts f.1 f.2.

(** What a part means, and when it is one the grammar allows. *)
Definition part_matches (min max : Z) (p : part) (v : Z) : Prop :=
  match p with
  | Star => min <= v <= max
  | Step n => min <= v <= max /\ (v - min) mod n = 0
  | Range a b => a <= v <= b
  | Single w => v = w
  end.

Definition part_ok (min max : Z) (p : part) : bool :=
  match p with
  | Star => true
  | Step n => (1 <=? n) && (min + n <=? 255)
  | Range a b => (min <=? a) && (a <=? max) && (min <=? b) && (b <=? max)
  | Single v => (min <=? v) && (v <=? max)
  end.

Definition field_matches (min max : Z) (f : field) (v : Z) : Prop :=
  Exists (fun p => part_matches min max p v) (f.1 :: f.2).
Definition field_ok (min max : Z) (f : field) : bool := forallb (part_ok min max) (f.1 :: f.2).

(** ** Lemmas on splitting *)

Definition none_of (p : ascii -> bool) (l : chars) : Prop := forallb (fun c => negb (p c)) l = true.

Lemma none_of_app p a b : none_of p (a ++ b) <-> none_of p a /\ none_of p b.
Proof. unfold none_of. rewrite forallb_app. apply andb_true_iff. Qed.

Lemma split_on_none p l : none_of p l -> split_on p l = [l].
Proof.
  unfold none_of. induction l as [|c l IH]; simpl; [done|]. intros [Hc Hl]%andb_prop.
  apply negb_true_iff in Hc. by rewrite Hc, IH.
Qed.

Lemma split_on_sep p a c b : none_of p a -> p c = true -> split_on p (a ++ c :: b) = a :: split_on p b.
Proof.
  unfold none_of. intros Ha Hc. induction a as [|x a IH]; simpl in *; [by rewrite Hc|].
  apply andb_prop in Ha as [Hx Ha]. apply negb_true_iff in Hx. by rewrite Hx, IH.
Qed.

Lemma drop_while_none p l : none_of p l -> drop_while p l = l.
Proof. unfold none_of. destruct l as [|c l]; simpl; [done|]. intros [Hc _]%andb_prop. by apply negb_true_iff in Hc as ->. Qed.

Lemma none_of_rev p l : none_of p l -> none_of p (rev l).
Proof.
  unfold none_of. rewrite !forallb_forall. intros H x Hx. apply H. by apply in_rev.
Qed.

Lemma trim_none l : none_of is_whitespace l -> trim l = l.
Proof.
  intros Hl. unfold trim. rewrite (drop_while_none _ l Hl), drop_while_none by by apply none_of_rev.
  apply rev_involutive.
Qed.

(** ** Printed numbers *)

(** The digits of a number contain no character outside the digits. *)
Lemma print_int_none p n :
  0 <= n -> (forall c, is_ascii_digit c = true -> p c = false) -> none_of p (print_int n).
Proof.
  intros Hn Hp. unfold print_int. replace (n <? 0) with false by lia. unfold none_of.
  pose proof (dec_digits_digits (S (Z.to_nat (Z.log2 (Z.abs n)))) (Z.abs n) ltac:(lia)) as Hd.
  rewrite forallb_forall in *. intros c Hc. rewrite Hp; [done|]. by apply Hd.
Qed.

Lemma print_int_cons n : 0 <= n -> exists c l, print_int n = c :: l /\ is_ascii_digit c = true.
Proof.
  intros Hn. unfold print_int. replace (n <? 0) with false by lia.
  pose proof (dec_digits_digits (S (Z.to_nat (Z.log2 (Z.abs n)))) (Z.abs n) ltac:(lia)) as Hd.
  pose proof (dec_digits_nonempty (Z.to_nat (Z.log2 (Z.abs n))) (Z.abs n)) as Hne.
  destruct (dec_digits _ _) as [|c l]; [done|]. exists c, l. split; [done|]. by destruct (andb_prop _ _ Hd).
Qed.

Lemma digit_not k c : is_ascii_digit c = true -> ~ (48 <= k <= 57) -> (code c =? k) = false.
Proof. unfold is_ascii_digit, in_range. lia. Qed.

Lemma digit_not_space c : is_ascii_digit c = true -> is_whitespace c = false.
Proof. unfold is_ascii_digit, is_whitespace, in_range. lia. Qed.

Lemma parse_u8_print part n : 0 <= n <= 255 -> parse_u8_or part (print_int n) = Ok n.
Proof. intros Hn. unfold parse_u8_or, parse_u8. by rewrite parse_print_int by lia. Qed.

(** ** One part *)

Lemma step_loop_spec fuel v step max :
  0 <= v -> 1 <= step -> (forall x, v <= x <= max -> (x - v) mod step = 0 -> x + step <= 255) ->
  max - v < Z.of_nat fuel ->
  exists vs, step_loop (S fuel) v step max = Ok vs /\
    forall x, x ∈ vs <-> v <= x <= max /\ (x - v) mod step = 0.
Proof.
  revert v. induction fuel as [|fuel IH]; intros v Hv Hs Hw Hf.
  - exists []. cbn [step_loop]. destruct (Z.leb_spec v max); [lia|]. split; [done|]. intros x.
    rewrite elem_of_nil. lia.
  - cbn [step_loop]. destruct (Z.leb_spec v max) as [Hle|Hgt].
    2: { exists []. split; [done|]. intros x. rewrite elem_of_nil. lia. }
    assert (Hshift : forall x, (x - (v + step)) mod step = (x - v) mod step).
    { intros x. replace (x - (v + step)) with (x - v + (-1) * step) by lia. apply Z.mod_add. lia. }
    rewrite wrap_id.
    2: { pose proof (Hw v ltac:(lia)) as Hv'. rewrite Z.sub_diag, Z.mod_0_l in Hv' by lia. unfold fits. lia. }
    destruct (IH (v + step)) as (vs & Hvs & Hin); [lia|lia| |lia|].
    { intros x Hx. rewrite Hshift. apply Hw. lia. }
    cbn [step_loop] in Hvs. rewrite Hvs.
    exists (v :: vs). split; [done|]. intros x. rewrite elem_of_cons, Hin.
    rewrite Hshift. split.
    + intros [->|[H1 H2]]; [rewrite Z.sub_diag, Z.mod_0_l by lia|]; lia.
    + intros [H1 H2]. destruct (Z.eq_dec x v) as [->|Hne]; [by left|right]. split; [|done].
      apply Z.mod_divide in H2 as [k Hk]; [|lia]. assert (1 <= k) by nia. nia.
Qed.

Lemma elem_of_range a b x : x ∈ range_incl a b <-> a <= x <= b.
Proof. unfold range_incl. rewrite elem_of_seqZ. lia. Qed.

Lemma print_part_none (q : ascii -> bool) min max p :
  0 <= min -> part_ok min max p = true ->
  (forall c, is_ascii_digit c = true -> q c = false) ->
  q "*"%char = false -> q "/"%char = false -> q "-"%char = false -> none_of q (print_part p).
Proof.
  intros Hmin Hok Hd Hst Hsl Hda. destruct p as [|n|a b|v]; cbn [print_part part_ok] in *.
  - unfold none_of. simpl. by rewrite Hst.
  - apply none_of_app. split; [unfold none_of; simpl; by rewrite Hst, Hsl|]. apply print_int_none; [lia|done].
  - apply none_of_app. split; [apply print_int_none; [lia|done]|]. apply none_of_app.
    split; [unfold none_of; simpl; by rewrite Hda|]. apply print_int_none; [lia|done].
  - apply print_int_none; [lia|done].
Qed.

Lemma parse_part_print min max p :
  0 <= min <= max -> max <= 59 -> part_ok min max p = true ->
  exists vs, parse_part min max (print_part p) = Ok vs /\ forall v, v ∈ vs <-> part_matches min max p v.
Proof.
  intros Hmin Hmax Hok. unfold parse_part. rewrite trim_none
    by (apply (print_part_none _ min max); [lia|done|apply digit_not_space|done..]).
  destruct p as [|n|a b|v]; cbn [print_part part_ok part_matches] in *.
  - eexists. split; [done|]. intros v. by rewrite elem_of_range.
  - cbn [app String.list_ascii_of_string]. replace (is_asterisk "*" && is_slash "/") with true by done.
    rewrite parse_u8_print by lia. cbn [result_bind]. replace (n =? 0) with false by lia.
    destruct (step_loop_spec 256 min n max) as (vs & Hvs & Hin); [lia|lia| |lia|exists vs; by split].
    intros x Hx Hmod. apply Z.mod_divide in Hmod as [k Hk]; [|lia]. destruct (Z.eq_dec k 0); nia.
  - destruct (print_int_cons a ltac:(lia)) as (c & l & Ha & Hc). rewrite Ha. cbn [app].
    assert (Hstar : is_asterisk c = false) by (by apply digit_not; [|lia]).
    assert (Hplain : parse_plain min max (c :: l ++ "-"%char :: print_int b) = Ok (range_incl a b)).
    { change (c :: l ++ "-"%char :: print_int b) with ((c :: l) ++ "-"%char :: print_int b). rewrite <- Ha.
      unfold parse_plain. rewrite existsb_app. cbn [existsb]. replace (is_dash "-") with true by done.
      rewrite orb_true_r. rewrite split_on_sep, split_on_none; [|..].
      - rewrite !parse_u8_print by lia. cbn [result_bind]. replace ((max <? a) || (max <? b)) with false by lia. done.
      - apply print_int_none; [lia|]. intros x Hx. by apply digit_not; [|lia].
      - apply print_int_none; [lia|]. intros x Hx. by apply digit_not; [|lia].
      - done. }
    exists (range_incl a b). split; [|apply elem_of_range].
    cbn [app String.list_ascii_of_string]. destruct l as [|d l]; cbn [app]; rewrite ?Hstar; exact Hplain.
  - destruct (print_int_cons v ltac:(lia)) as (c & l & Ha & Hc).
    assert (Hstar : is_asterisk c = false) by (by apply digit_not; [|lia]).
    assert (Hplain : parse_plain min max (print_int v) = Ok [v]).
    { unfold parse_plain. assert (Hn : existsb is_dash (print_int v) = false).
      { apply not_true_iff_false. rewrite existsb_exists. intros (x & Hx & Hd).
        assert (Hnone : none_of is_dash (print_int v)).
        { apply print_int_none; [lia|]. intros y Hy. by apply digit_not; [|lia]. }
        unfold none_of in Hnone. rewrite forallb_forall in Hnone. specialize (Hnone x Hx). by rewrite Hd in Hnone. }
      rewrite Hn, parse_u8_print by lia. cbn [result_bind].
      by replace ((v <? min) || (max <? v)) with false by lia. }
    exists [v]. split; [|intros x; apply list_elem_of_singleton]. rewrite Ha in *.
    destruct l as [|d l]; rewrite ?Hstar; exact Hplain.
Qed.

(** ** Fields and expressions *)

Lemma digit_not_comma c : is_ascii_digit c = true -> is_comma c = false.
Proof. intros Hc. by apply digit_not; [|lia]. Qed.

Lemma split_parts min max p ps :
  0 <= min -> forallb (part_ok min max) (p :: ps) = true ->
  split_on is_comma (print_parts p ps) = map print_part (p :: ps).
Proof.
  intros Hmin. revert p. induction ps as [|q ps IH]; intros p Hok; simpl in Hok; apply andb_prop in Hok as [Hp Hps].
  - cbn [print_parts map]. apply split_on_none. apply (print_part_none _ min max); [done|done|apply digit_not_comma|done..].
  - cbn [print_parts]. rewrite split_on_sep.
    + rewrite IH; done.
    + apply (print_part_none _ min max); [done|done|apply digit_not_comma|done..].
    + done.
Qed.

Lemma parse_parts_print min max ps :
  0 <= min <= max -> max <= 59 -> forallb (part_ok min max) ps = true ->
  exists vs, parse_parts min max (map print_part ps) = Ok vs /\
    forall v, v ∈ vs <-> Exists (fun p => part_matches min max p v) ps.
Proof.
  intros Hmin Hmax. induction ps as [|p ps IH]; intros Hok.
  { exists []. split; [done|]. intros v. by rewrite elem_of_nil, Exists_nil. }
  simpl in Hok. apply andb_prop in Hok as [Hp Hps].
  destruct (parse_part_print min max p Hmin Hmax Hp) as (vs & Hvs & Hin). destruct (IH Hps) as (ws & Hws & Hin').
  exists (vs ++ ws). cbn [parse_parts map]. rewrite Hvs. cbn [result_bind]. rewrite Hws. split; [done|].
  intros v. by rewrite elem_of_app, Exists_cons, Hin, Hin'.
Qed.

Lemma parse_field_print min max f :
  0 <= min <= max -> max <= 59 -> field_ok min max f = true ->
  exists vs, parse_field (print_field f) min max = Ok vs /\ StronglySorted Z.lt vs /\
    forall v, v ∈ vs <-> field_matches min max f v.
Proof.
  destruct f as [p ps]. intros Hmin Hmax Hok. unfold parse_field, print_field. cbn [fst snd].
  rewrite (split_parts min max) by (done || lia).
  destruct (parse_parts_print min max (p :: ps) Hmin Hmax Hok) as (vs & -> & Hin).
  exists (sort_dedup vs). split; [done|]. split; [apply sort_dedup_sorted|].
  intros v. by rewrite elem_of_sort_dedup, Hin.
Qed.

Lemma print_field_plain min max f :
  0 <= min -> field_ok min max f = true -> none_of is_whitespace (print_field f) /\ print_field f <> [].
Proof.
  destruct f as [p ps]. unfold print_field, field_ok. cbn [fst snd]. intros Hmin.
  assert (Hnone : forall q, part_ok min max q = true -> none_of is_whitespace (print_part q) /\ print_part q <> []).
  { intros q Hq. split; [by apply (print_part_none _ min max); [|done|apply digit_not_space|..]|].
    destruct q as [|n|a b|v]; cbn [print_part part_ok] in *; try done.
    - destruct (print_int_cons a ltac:(lia)) as (c & l & -> & _). done.
    - destruct (print_int_cons v ltac:(lia)) as (c & l & -> & _). done. }
  revert p. induction ps as [|q ps IH]; intros p Hok; simpl in Hok; apply andb_prop in Hok as [Hp Hps]; cbn [print_parts].
  - by apply Hnone.
  - destruct (Hnone p Hp) as [Hn Hne]. split; [|by destruct (print_part p)]. apply none_of_app. split; [done|].
    change (","%char :: print_parts q ps) with (of_string "," ++ print_parts q ps).
    apply none_of_app. split; [done|]. by apply IH.
Qed.

(** An expression of the grammar: five fields. *)
Record cron_spec : Type := mkSpec {
  spec_minutes : field;
  spec_hours : field;
  spec_days : field;
  spec_months : field;
  spec_weekdays : field;
}.

Definition print_cron (s : cron_spec) : chars :=
  print_field (spec_minutes s) ++ " "%char :: print_field (spec_hours s) ++ " "%char ::
  print_field (spec_days s) ++ " "%char :: print_field (spec_months s) ++ " "%char ::
  print_field (spec_weekdays s).

Definition spec_ok (s : cron_spec) : bool :=
  field_ok 0 59 (spec_minutes s) && field_ok 0 23 (spec_hours s) && field_ok 1 31 (spec_days s) &&
  field_ok 1 12 (spec_months s) && field_ok 0 6 (spec_weekdays s).

(** The reading of the clock at minute [t] since the epoch, in the simplified calendar: days of 24 hours,
    numbered from the epoch; cycles of 31 days for the day of the month; years of twelve months of 30 days
    for the month; weeks of seven days that start with the day of the epoch. *)
Record clock_at (t mi h d mo w : Z) : Prop := mkClock {
  clock_bounds : 0 <= mi <= 59 /\ 0 <= h <= 23 /\ 1 <= d <= 31 /\ 1 <= mo <= 12 /\ 0 <= w <= 6;
  clock_reading : exists day cycle year rest week,
    t = mi + 60 * (h + 24 * day) /\
    day = (d - 1) + 31 * cycle /\
    day = rest + 30 * ((mo - 1) + 12 * year) /\ 0 <= rest <= 29 /\
    day = w + 7 * week;
}.

(** The minute [t] satisfies all five fields. *)
Definition fires_at (s : cron_spec) (t : Z) : Prop :=
  exists mi h d mo w, clock_at t mi h d mo w /\
    field_matches 0 59 (spec_minutes s) mi /\ field_matches 0 23 (spec_hours s) h /\
    field_matches 1 31 (spec_days s) d /\ field_matches 1 12 (spec_months s) mo /\
    field_matches 0 6 (spec_weekdays s) w.

(** The divisions and remainders of the search read that clock. *)
Lemma clock_at_iff t mi h d mo w :
  clock_at t mi h d mo w <->
    mi = minute_of t /\ h = hour_of t /\ d = day_of t /\ mo = month_of t /\ w = weekday_of t.
Proof.
  unfold minute_of, hour_of, day_of, month_of, weekday_of.
  replace (t / 43200) with (t / 1440 / 30) by (by rewrite Z.div_div by lia).
  replace (t / 1440) with (t / 60 / 24) by (by rewrite Z.div_div by lia). split.
  - intros [(Hmi & Hh & Hd & Hmo & Hw) (day & cycle & year & rest & week & Ht & Hc & Hy & Hr & Hk)].
    assert (E1 : t / 60 = h + 24 * day) by (Z.to_euclidean_division_equations; lia).
    assert (E2 : t / 60 / 24 = day) by (rewrite E1; Z.to_euclidean_division_equations; lia).
    assert (E3 : day / 30 = mo - 1 + 12 * year) by (Z.to_euclidean_division_equations; lia).
    rewrite E2, E3, E1. split_and!; Z.to_euclidean_division_equations; lia.
  - intros (-> & -> & -> & -> & ->). set (day := t / 60 / 24). constructor.
    + split_and!; Z.to_euclidean_division_equations; lia.
    + exists day, (day / 31), (day / 30 / 12), (day mod 30), (day / 7).
      split_and!; subst day; Z.to_euclidean_division_equations; lia.
Qed.

Lemma fires_at_iff s t :
  fires_at s t <->
    field_matches 0 59 (spec_minutes s) (minute_of t) /\ field_matches 0 23 (spec_hours s) (hour_of t) /\
    field_matches 1 31 (spec_days s) (day_of t) /\ field_matches 1 12 (spec_months s) (month_of t) /\
    field_matches 0 6 (spec_weekdays s) (weekday_of t).
Proof.
  split.
  - intros (mi & h & d & mo & w & Hc & H). by apply clock_at_iff in Hc as (-> & -> & -> & -> & ->).
  - intros H. exists (minute_of t), (hour_of t), (day_of t), (month_of t), (weekday_of t). split; [by apply clock_at_iff|done].
Qed.

Lemma has_value_elem l x : has_value l x = true <-> x ∈ l.
Proof.
  unfold has_value. rewrite existsb_exists, list_elem_of_In. split.
  - intros (y & Hy & ->%Z.eqb_eq). done.
  - intros Hx. exists x. by rewrite Z.eqb_refl.
Qed.

Lemma parse_print_cron s :
  spec_ok s = true -> exists e, parse (print_cron s) = Ok e /\ forall t, matches e t = true <-> fires_at s t.
Proof.
  unfold spec_ok. intros Hok. do 4 (apply andb_prop in Hok as [Hok ?]).
  destruct (parse_field_print 0 59 (spec_minutes s)) as (m & Hm & _ & Im); [lia|lia|done|].
  destruct (parse_field_print 0 23 (spec_hours s)) as (h & Hh & _ & Ih); [lia|lia|done|].
  destruct (parse_field_print 1 31 (spec_days s)) as (d & Hd & _ & Id); [lia|lia|done|].
  destruct (parse_field_print 1 12 (spec_months s)) as (mo & Hmo & _ & Imo); [lia|lia|done|].
  destruct (parse_field_print 0 6 (spec_weekdays s)) as (w & Hw & _ & Iw); [lia|lia|done|].
  exists (mkCron m h d mo w). split.
  - destruct (print_field_plain 0 59 (spec_minutes s)) as [N1 E1]; [lia|done|].
    destruct (print_field_plain 0 23 (spec_hours s)) as [N2 E2]; [lia|done|].
    destruct (print_field_plain 1 31 (spec_days s)) as [N3 E3]; [lia|done|].
    destruct (print_field_plain 1 12 (spec_months s)) as [N4 E4]; [lia|done|].
    destruct (print_field_plain 0 6 (spec_weekdays s)) as [N5 E5]; [lia|done|].
    assert (Hsplit : split_whitespace (print_cron s) =
      [print_field (spec_minutes s); print_field (spec_hours s); print_field (spec_days s);
       print_field (spec_months s); print_field (spec_weekdays s)]).
    { unfold split_whitespace, print_cron. rewrite !split_on_sep by done. rewrite split_on_none by done.
      clear -E1 E2 E3 E4 E5. revert E1 E2 E3 E4 E5.
      destruct (print_field (spec_minutes s)), (print_field (spec_hours s)), (print_field (spec_days s)),
        (print_field (spec_months s)), (print_field (spec_weekdays s)); done. }
    unfold parse. rewrite Hsplit, Hm, Hh, Hd, Hmo, Hw. done.
  - intros t. rewrite fires_at_iff. unfold matches. cbn [minutes hours days_of_month months days_of_week].
    rewrite !andb_true_iff, !has_value_elem, Im, Ih, Id, Imo, Iw. tauto.
Qed.

(** ** The search *)

Lemma search_spec e fuel c :
  0 <= c -> c + Z.of_nat fuel < 2 ^ 64 ->
  match search e fuel c with
  | Some n => c <= n < c + Z.of_nat fuel /\ matches e n = true /\ forall x, c <= x < n -> matches e x = false
  | None => forall x, c <= x < c + Z.of_nat fuel -> matches e x = false
  end.
Proof.
  revert c. induction fuel as [|fuel IH]; intros c Hc Hf; [intros x Hx; lia|]. cbn [search].
  destruct (matches e c) eqn:Hm.
  { split; [lia|]. split; [done|]. intros x Hx. lia. }
  rewrite wrap_id by (unfold fits; lia). specialize (IH (c + 1) ltac:(lia) ltac:(lia)).
  destruct (search e fuel (c + 1)) as [n|].
  - destruct IH as (Hn & Hmn & Hmin). split; [lia|]. split; [done|]. intros x Hx.
    destruct (Z.eq_dec x c) as [->|]; [done|]. apply Hmin. lia.
  - intros x Hx. destruct (Z.eq_dec x c) as [->|]; [done|]. apply IH. lia.
Qed.

Lemma next_fire_spec e now :
  0 <= now -> now + max_iterations + 1 < 2 ^ 64 ->
  let n := next_fire_after e now in
  (now < n <= now + max_iterations /\ matches e n = true /\ forall x, now < x < n -> matches e x = false) \/
  (n = now + 60 /\ forall x, now < x <= now + max_iterations -> matches e x = false).
Proof.
  intros Hnow Hmax. unfold next_fire_after. rewrite (wrap_id 64 (now + 1)) by (unfold fits, max_iterations in *; lia).
  pose proof (search_spec e (Z.to_nat max_iterations) (now + 1) ltac:(lia)) as Hs.
  rewrite Z2Nat.id in Hs by (unfold max_iterations; lia). specialize (Hs ltac:(unfold max_iterations in *; lia)).
  destruct (search e _ (now + 1)) as [n|]; cbn zeta.
  - left. destruct Hs as (Hn & Hm & Hmin). split; [lia|]. split; [done|]. intros x Hx. apply Hmin. lia.
  - right. rewrite wrap_id by (unfold fits, max_iterations in *; lia). split; [done|]. intros x Hx. apply Hs. lia.
Qed.

Lemma next_fire_later e now :
  0 <= now -> now + max_iterations + 1 < 2 ^ 64 -> now < next_fire_after e now.
Proof. intros Hn Hm. destruct (next_fire_spec e now Hn Hm) as [[? _]|[-> _]]; lia. Qed.

(** C33. Cron expressions mean what their grammar says: a printed expression parses, and
    its next fire time is the first later minute whose reading in the simplified
    calendar of the source (days of the month in cycles of 31 days, months of 30 days,
    weeks that start with the day of the epoch) satisfies all five fields, or, where
    no minute of the next four years does, an hour from now. *)
Theorem cron_next_fire_correct (s : cron_spec) (now : Z)
    (Hspec : spec_ok s = true) (Hnow : 0 <= now) (Hmax : now + max_iterations + 1 < 2 ^ 64) :
  exists e, parse (print_cron s) = Ok e /\
    let n := next_fire_after e now in
    (now < n <= now + max_iterations /\ fires_at s n /\ forall x, now < x < n -> ~ fires_at s x) \/
    (n = now + 60 /\ forall x, now < x <= now + max_iterations -> ~ fires_at s x).
Proof.
  destruct (parse_print_cron s Hspec) as (e & He & Hm). exists e. split; [done|]. cbn zeta.
  assert (Hno : forall x, matches e x = false -> ~ fires_at s x).
  { intros x Hx Hf. apply Hm in Hf. congruence. }
  destruct (next_fire_spec e now Hnow Hmax) as [(Hn & Hmn & Hmin)|(Hn & Hmin)]; [left|right].
  - split; [done|]. split; [by apply Hm|]. intros x Hx. by apply Hno, Hmin.
  - split; [done|]. intros x Hx. by apply Hno, Hmin.
Qed.

(** Parsing always returns: the step loop ends for every step of every field. *)
Lemma step_loop_ends :
  forallb (fun '(min, max) =>
    forallb (fun step => match step_loop 257 min step max with Ok _ => true | Err _ => false end) (seqZ 1 255))
    [(0, 59); (0, 23); (1, 31); (1, 12); (0, 6)] = true.
Proof. vm_compute. reflexivity. Qed.

(** ** The scheduler *)

Lemma is_due_after now e : paused e = false -> now < next_fire_time e -> is_due now e = false.
Proof. unfold is_due. intros ->. simpl. lia. Qed.

Lemma fired_entry now e :
  0 <= now -> now + max_iterations + 1 < 2 ^ 64 ->
  is_due now (if is_due now e then after_fire now e else e) = false.
Proof.
  intros Hnow Hmax. destruct (is_due now e) eqn:Hd; [|done]. unfold is_due in *. cbn [after_fire paused next_fire_time].
  apply andb_prop in Hd as [-> _]. pose proof (next_fire_later (cron_expr e) now Hnow Hmax). simpl. lia.
Qed.

Lemma filter_nil {A} (f : A -> bool) l : (forall x, x ∈ l -> f x = false) -> List.filter f l = [].
Proof.
  induction l as [|x l IH]; intros H; [done|]. simpl. rewrite (H x) by by constructor.
  apply IH. intros y Hy. apply H. by constructor.
Qed.

(** Advancing the clock fires every due schedule that is not paused exactly once,
    whatever the number of times it missed, and moves it past the clock, so that
    advancing again to the same time fires nothing; other schedules do not change. *)
Theorem cron_advance_fires_once (s : CronScheduler) (order : list Z) (now : Z)
    (Horder : order ≡ₚ (map_to_list (entries s)).*1)
    (Hnow : 0 <= now) (Hmax : now + max_iterations + 1 < 2 ^ 64) :
  let s' := (advance_to s order now).1 in
  (advance_to s order now).2 ≡ₚ map fire_event (List.filter (is_due now) (map_to_list (entries s)).*2) /\
  (forall id e, entries s !! id = Some e ->
     entries s' !! id = Some (if is_due now e then after_fire now e else e)) /\
  (forall id e, entries s' !! id = Some e -> paused e = false -> now < next_fire_time e) /\
  (forall order', (advance_to s' order' now).2 = []).
Proof.
  intros s'. split_and!.
  - simpl. by rewrite (omap_perm_values (entries s) order Horder).
  - intros id e He. simpl. by rewrite lookup_fmap, He.
  - intros id e. simpl. rewrite lookup_fmap. destruct (entries s !! id) as [e0|]; [|done]. simpl.
    intros [= <-] Hp. pose proof (fired_entry now e0 Hnow Hmax) as Hf. unfold is_due at 1 in Hf. rewrite Hp in Hf.
    simpl in Hf. lia.
  - intros order'. simpl. rewrite filter_nil; [done|]. intros e He.
    apply list_elem_of_omap in He as (k & _ & Hk). rewrite lookup_fmap in Hk.
    destruct (entries s !! k) as [e0|]; [|done]. injection Hk as <-. by apply fired_entry.
Qed.

(** ** Expressions that never fire *)

Definition day_matches (e : CronExpression) (d : Z) : bool :=
  has_value (days_of_month e) (d mod 31 + 1) && has_value (months e) ((d / 30) mod 12 + 1) &&
  has_value (days_of_week e) (d mod 7).

Lemma matches_day e t : 0 <= t -> matches e t = true -> day_matches e (t / 1440) = true.
Proof.
  unfold matches, day_matches, day_of, month_of, weekday_of. intros Ht Hm.
  rewrite Z.div_div by lia. change (1440 * 30) with 43200. rewrite !andb_true_iff in *. tauto.
Qed.

(** Days decide: if no day of the next four years matches, the fallback is taken. *)
Lemma no_day_fallback e now :
  0 <= now -> now + max_iterations + 1 < 2 ^ 64 ->
  forallb (fun d => negb (day_matches e d)) (seqZ (now / 1440) 1466) = true ->
  next_fire_after e now = now + 60.
Proof.
  intros Hnow Hmax Hdays. destruct (next_fire_spec e now Hnow Hmax) as [(Hn & Hm & _)|[Hn _]]; [|done]. exfalso.
  apply matches_day in Hm; [|lia]. rewrite forallb_forall in Hdays.
  assert (Hin : In (next_fire_after e now / 1440) (seqZ (now / 1440) 1466)).
  { apply list_elem_of_In, elem_of_seqZ. revert Hn. generalize (next_fire_after e now) as n. intros n Hn.
    unfold max_iterations in *.
    pose proof (Z.div_le_mono now n 1440 ltac:(lia) ltac:(lia)).
    pose proof (Z.div_le_mono n (now + 1464 * 1440) 1440 ltac:(lia) ltac:(lia)) as Hhi.
    rewrite Z.div_add in Hhi by lia. lia. }
  apply Hdays in Hin. by rewrite Hm in Hin.
Qed.

(** Midnight of the first of January when it is a Wednesday parses, does not occur within four
    years of the epoch, and so fires an hour later, at a time that does not match; and a
    reversed range is empty, so that its schedule fires every hour. *)
Lemma valid_expression_misfires :
  exists e, parse (of_string "0 0 1 1 3") = Ok e /\ next_fire_after e 0 = 60 /\ matches e 60 = false.
Proof.
  eexists. split; [vm_compute; reflexivity|]. split; [|vm_compute; reflexivity].
  apply (no_day_fallback _ 0); [lia|unfold max_iterations; lia|vm_compute; reflexivity].
Qed.

Lemma reversed_range_fires_hourly now :
  0 <= now -> now + max_iterations + 1 < 2 ^ 64 ->
  exists e, parse (of_string "0 0 5-1 * *") = Ok e /\ next_fire_after e now = now + 60.
Proof.
  intros Hnow Hmax. eexists. split; [vm_compute; reflexivity|]. apply no_day_fallback; [done|done|].
  apply forallb_forall. intros d _. reflexivity.
Qed.

(** Ranges are not checked against the lower bound: day 0 is accepted, and never matches; a step of
    255 wraps around to day 0. *)
Lemma out_of_range_accepted :
  parse_field (of_string "0-2") 1 31 = Ok [0; 1; 2] /\ parse_field (of_string "*/255") 1 31 = Ok [0; 1] /\
  parse_field (of_string "0") 1 31 = Err (CronFail (OutOfRange "0" 1 31)).
Proof. vm_compute. done. Qed.

Definition sample_spec : cron_spec :=
  mkSpec (Step 15, []) (Range 9 17, [Single 20]) (Star, []) (Star, []) (Range 1 5, []).

Lemma cron_next_fire_correct_witness :
  exists e, parse (print_cron sample_spec) = Ok e /\ next_fire_after e 100 = 1980.
Proof.
  destruct (cron_next_fire_correct sample_spec 100 ltac:(vm_compute; reflexivity) ltac:(lia)
    ltac:(unfold max_iterations; lia)) as (e & He & _).
  exists e. split; [exact He|]. vm_compute in He. injection He as <-. vm_compute. reflexivity.
Defined.

Definition sample_entry (id next : Z) (p : bool) : CronEntry :=
  mkEntry id (mkCron [0] (seqZ 0 24) (seqZ 1 31) (seqZ 1 12) (seqZ 0 7)) 1 2 3 4 0 next 0 p.
Definition sample_scheduler : CronScheduler :=
  mkScheduler {[1 := sample_entry 1 50 false; 2 := sample_entry 2 90 false; 3 := sample_entry 3 10 true]} 4.

Lemma cron_advance_fires_once_witness :
  (advance_to sample_scheduler [1; 2; 3] 60).2 = [fire_event (sample_entry 1 50 false)] /\
  forall order', (advance_to (advance_to sample_scheduler [1; 2; 3] 60).1 order' 60).2 = [].
Proof.
  split; [vm_compute; reflexivity|].
  refine (proj2 (proj2 (proj2 (cron_advance_fires_once sample_scheduler [1; 2; 3] 60 _ _ _)))).
  - replace ((map_to_list (entries sample_scheduler)).*1) with [3; 2; 1] by (vm_compute; reflexivity).
    exact (Permutation_rev [1; 2; 3]).
  - lia.
  - unfold max_iterations. lia.
Defined.

End Cron.
