(* ===== verification/Locks.v ===== *)
(** * Locks and leases ([velocity-workflow-engine/src/distributed_locks.rs])

    The lock manager with its fencing tokens, shard ownership on top of it, and
    leader election by lease.  Readings of [Instant::now()] are arguments, one for
    each read, numbers on one monotonic clock; durations are in the same unit. *)

From S2P Require Import Prelude Text.

Module Locks.

Inductive LockError : Type :=
| AlreadyLocked (resource : string)
| NotFound (resource : string)
| NotOwner (resource : string)
| StaleFencingToken (shard : Z)
| NotLeader (election : string).

(** ** Lock manager *)

Record DistributedLock : Type := mkLock {
  resource_id : string;
  owner : string;
  fencing_token : Z;
  acquired_at : Z;
  ttl : Z;
  renewed_count : Z;
}.

(** [acquired_at.elapsed() > ttl]; [elapsed] is zero before [acquired_at]. *)
Definition elapsed (now t : Z) : Z := Z.max 0 (now - t).
Definition is_expired (l : DistributedLock) (now : Z) : bool := ttl l <? elapsed now (acquired_at l).
Definition remaining_ttl (l : DistributedLock) (now : Z) : Z :=
  Z.max 0 (ttl l - elapsed now (acquired_at l)).

Record LockManager : Type := mkManager {
  locks : gmap string DistributedLock;
  next_token : Z;
  locks_acquired : Z;
  locks_released : Z;
  lock_contentions : Z;
  lock_expirations : Z;
  lock_renewals : Z;
}.

Definition manager_new : LockManager := mkManager ∅ 1 0 0 0 0 0.

Definition blocked (m : LockManager) (resource who : string) (now : Z) : bool :=
  match locks m !! resource with
  | Some l => negb (is_expired l now) && negb (String.eqb (owner l) who)
  | None => false
  end.

(** The clock is read to see whether the lock has expired, and again when the new one is made. *)
Definition acquire (m : LockManager) (resource who : string) (ttl checked now : Z) :
    LockManager * result DistributedLock LockError :=
  if blocked m resource who checked then
    (mkManager (locks m) (next_token m) (locks_acquired m) (locks_released m)
       (wrap 64 (lock_contentions m + 1)) (lock_expirations m) (lock_renewals m),
     Err (AlreadyLocked resource))
  else
    let lock := mkLock resource who (next_token m) now ttl 0 in
    (mkManager (<[resource := lock]> (locks m)) (wrap 64 (next_token m + 1))
       (wrap 64 (locks_acquired m + 1)) (locks_released m) (lock_contentions m) (lock_expirations m)
       (lock_renewals m),
     Ok lock).

Definition release (m : LockManager) (resource who : string) : LockManager * result unit LockError :=
  match locks m !! resource with
  | None => (m, Err (NotFound resource))
  | Some l =>
      if String.eqb (owner l) who then
        (mkManager (delete resource (locks m)) (next_token m) (locks_acquired m)
           (wrap 64 (locks_released m + 1)) (lock_contentions m) (lock_expirations m) (lock_renewals m), Ok ())
      else (m, Err (NotOwner resource))
  end.

Definition renewed (l : DistributedLock) (new_ttl now : Z) : DistributedLock :=
  mkLock (resource_id l) (owner l) (fencing_token l) now new_ttl (wrap 64 (renewed_count l + 1)).

Definition renew (m : LockManager) (resource who : string) (new_ttl now : Z) :
    LockManager * result Z LockError :=
  match locks m !! resource with
  | None => (m, Err (NotFound resource))
  | Some l =>
      if String.eqb (owner l) who then
        (mkManager (<[resource := renewed l new_ttl now]> (locks m)) (next_token m) (locks_acquired m)
           (locks_released m) (lock_contentions m) (lock_expirations m) (wrap 64 (lock_renewals m + 1)),
         Ok (fencing_token l))
      else (m, Err (NotOwner resource))
  end.

Definition is_locked (m : LockManager) (resource : string) (now : Z) : bool :=
  match locks m !! resource with Some l => negb (is_expired l now) | None => false end.

Definition get_owner (m : LockManager) (resource : string) (now : Z) : option string :=
  match locks m !! resource with
  | Some l => if is_expired l now then None else Some (owner l)
  | None => None
  end.

Definition live (now : Z) (kl : string * DistributedLock) : Prop := is_expired kl.2 now = false.
#[export] Instance live_dec now kl : Decision (live now kl).
Proof. unfold live. apply _. Defined.

Definition cleanup_expired (m : LockManager) (now : Z) : LockManager * nat :=
  let kept := filter (live now) (locks m) in
  let expired := (size (locks m) - size kept)%nat in
  (mkManager kept (next_token m) (locks_acquired m) (locks_released m) (lock_contentions m)
     (if (0 <? expired)%nat then wrap 64 (lock_expirations m + Z.of_nat expired) else lock_expirations m)
     (lock_renewals m), expired).

Definition active_lock_count (m : LockManager) (now : Z) : nat := size (filter (live now) (locks m)).

(** ** Shard ownership: a lock manager of its own per member *)

Record ShardOwnershipInfo : Type := mkShard {
  shard_id : Z;
  shard_owner : string;
  shard_token : Z;
  shard_acquired_at : Z;
  range_id : Z;
}.

Record ShardOwnershipManager : Type := mkShards {
  ownership : gmap Z ShardOwnershipInfo;
  lock_manager : LockManager;
  member_id : string;
}.

Definition shards_new (member : string) : ShardOwnershipManager := mkShards ∅ manager_new member.

(** [format!("shard-{}", shard_id)]. *)
Definition shard_resource (shard : Z) : string := to_string (of_string "shard-" ++ print_int shard).

(** The lease of a shard is 60 seconds; the clock counts milliseconds. *)
Definition acquire_shard (s : ShardOwnershipManager) (shard range checked locked now : Z) :
    ShardOwnershipManager * result ShardOwnershipInfo LockError :=
  let '(lm, r) := acquire (lock_manager s) (shard_resource shard) (member_id s) 60000 checked locked in
  match r with
  | Err e => (mkShards (ownership s) lm (member_id s), Err e)
  | Ok lock =>
      let info := mkShard shard (member_id s) (fencing_token lock) now range in
      (mkShards (<[shard := info]> (ownership s)) lm (member_id s), Ok info)
  end.

Definition release_shard (s : ShardOwnershipManager) (shard : Z) :
    ShardOwnershipManager * result unit LockError :=
  let '(lm, r) := release (lock_manager s) (shard_resource shard) (member_id s) in
  match r with
  | Err e => (mkShards (ownership s) lm (member_id s), Err e)
  | Ok _ => (mkShards (delete shard (ownership s)) lm (member_id s), Ok ())
  end.

Definition assert_ownership (s : ShardOwnershipManager) (shard token : Z) : result unit LockError :=
  match ownership s !! shard with
  | None => Err (NotOwner (shard_resource shard))
  | Some info => if shard_token info =? token then Ok () else Err (StaleFencingToken shard)
  end.

(** ** Leader election *)

Record LeaderElection : Type := mkElection {
  election_id : string;
  leader_id : option string;
  term : Z;
  lease_duration : Z;
  last_heartbeat : option Z;
}.

Definition election_new (id : string) (lease : Z) : LeaderElection := mkElection id None 0 lease None.

Definition lease_held (e : LeaderElection) (now : Z) : bool :=
  match leader_id e, last_heartbeat e with
  | Some _, Some t => elapsed now t <? lease_duration e
  | _, _ => false
  end.

Definition try_become_leader (e : LeaderElection) (candidate : string) (checked now : Z) :
    LeaderElection * result Z LockError :=
  if lease_held e checked then (e, Err (AlreadyLocked (election_id e)))
  else
    let new_term := wrap 64 (term e + 1) in
    (mkElection (election_id e) (Some candidate) new_term (lease_duration e) (Some now), Ok new_term).

Definition is_leader (e : LeaderElection) (candidate : string) : bool :=
  bool_decide (leader_id e = Some candidate).

Definition heartbeat (e : LeaderElection) (who : string) (now : Z) : LeaderElection * result unit LockError :=
  if is_leader e who then
    (mkElection (election_id e) (leader_id e) (term e) (lease_duration e) (Some now), Ok ())
  else (e, Err (NotLeader (election_id e))).

Definition resign (e : LeaderElection) (who : string) : LeaderElection * result unit LockError :=
  if is_leader e who then
    (mkElection (election_id e) None (term e) (lease_duration e) (last_heartbeat e), Ok ())
  else (e, Err (NotLeader (election_id e))).

(** ** Runs of the lock manager *)

Inductive lock_op : Type :=
| Acquire (resource who : string) (ttl made : Z)
| Release (resource who : string)
| Renew (resource who : string) (ttl : Z)
| Cleanup.

Definition lock_step (m : LockManager) (ev : Z * lock_op) : LockManager :=
  match ev.2 with
  | Acquire r who ttl made => (acquire m r who ttl ev.1 made).1
  | Release r who => (release m r who).1
  | Renew r who ttl => (renew m r who ttl ev.1).1
  | Cleanup => (cleanup_expired m ev.1).1
  end.

(** The operation is one of [who] on [r]. *)
Definition by_owner (r who : string) (o : lock_op) : bool :=
  match o with
  | Acquire r' who' _ _ | Release r' who' | Renew r' who' _ => String.eqb r r' && String.eqb who who'
  | Cleanup => false
  end.

(** The tokens a run grants, in order. *)
Fixpoint tokens (m : LockManager) (evs : list (Z * lock_op)) : list Z :=
  match evs with
  | [] => []
  | (now, o) :: evs =>
      match o with
      | Acquire r who ttl made => match (acquire m r who ttl now made).2 with Ok l => [fencing_token l] | Err _ => [] end
      | _ => []
      end ++ tokens (lock_step m (now, o)) evs
  end.

Abbreviation manager_after m evs := (foldl lock_step m evs).

(** ** A lease excludes others *)

(** [who] holds [r] with token [tok], not expired before [deadline] has passed. *)
Definition holds (m : LockManager) (r who : string) (tok deadline : Z) : Prop :=
  exists l, locks m !! r = Some l /\ owner l = who /\ fencing_token l = tok /\
    0 <= ttl l /\ deadline <= acquired_at l + ttl l.

Lemma holds_live l now deadline :
  0 <= ttl l -> deadline <= acquired_at l + ttl l -> now <= deadline -> is_expired l now = false.
Proof. unfold is_expired, elapsed. lia. Qed.

Lemma holds_blocked m r who tok deadline who' now :
  holds m r who tok deadline -> now <= deadline -> who' <> who -> blocked m r who' now = true.
Proof.
  intros (l & Hl & Ho & _ & Ht & Hd) Hnow Hne. unfold blocked. rewrite Hl, (holds_live l now deadline) by done.
  simpl. rewrite Ho. by destruct (String.eqb_spec who who') as [->|].
Qed.

Lemma holds_step m r who tok deadline now o :
  holds m r who tok deadline -> now <= deadline -> by_owner r who o = false ->
  holds (lock_step m (now, o)) r who tok deadline.
Proof.
  intros Hh Hnow Hby. pose proof Hh as (l & Hl & Ho & Htok & Ht & Hd).
  assert (Hother : forall m', locks m' !! r = locks m !! r -> holds m' r who tok deadline).
  { intros m' Hm'. exists l. by rewrite Hm'. }
  destruct o as [r' who' t made|r' who'|r' who' t|]; cbn [lock_step fst snd by_owner] in *.
  - unfold acquire. destruct (blocked m r' who' now) eqn:Hb; [by apply Hother|]. apply Hother. simpl.
    apply lookup_insert_ne. intros ->. rewrite String.eqb_refl in Hby. simpl in Hby.
    rewrite (holds_blocked m r who tok deadline who' now) in Hb; [done|done|done|].
    intros ->. by rewrite String.eqb_refl in Hby.
  - unfold release. destruct (locks m !! r') as [l'|] eqn:Hl'; [|done].
    destruct (String.eqb_spec (owner l') who') as [Ho'|]; [|done]. apply Hother. simpl. apply lookup_delete_ne.
    intros ->. rewrite Hl in Hl'. injection Hl' as <-. rewrite Ho in Ho'. subst who'.
    by rewrite !String.eqb_refl in Hby.
  - unfold renew. destruct (locks m !! r') as [l'|] eqn:Hl'; [|done].
    destruct (String.eqb_spec (owner l') who') as [Ho'|]; [|done]. apply Hother. simpl. apply lookup_insert_ne.
    intros ->. rewrite Hl in Hl'. injection Hl' as <-. rewrite Ho in Ho'. subst who'.
    by rewrite !String.eqb_refl in Hby.
  - apply Hother. simpl. rewrite Hl. apply map_lookup_filter_Some. split; [done|]. by apply (holds_live l now deadline).
Qed.

Lemma holds_run m r who tok deadline evs :
  holds m r who tok deadline -> Forall (fun ev => ev.1 <= deadline /\ by_owner r who ev.2 = false) evs ->
  holds (manager_after m evs) r who tok deadline.
Proof.
  intros Hh Hevs. revert m Hh. induction Hevs as [|[now o] evs [Hn Hb] _ IH]; intros m Hh; [done|].
  apply IH. by apply holds_step.
Qed.

(** C20. A granted lock is exclusive for its time to live: whatever operations the other
    clients perform on the lock manager in the meantime, clean-ups included, their
    acquisitions of the resource fail, the holder stays the owner, and the token it
    was granted stays the current one until its lease has passed. *)
Theorem lock_lease_exclusive (m m' : LockManager) (r who : string) (ttl t0 t : Z) (l : DistributedLock)
    (evs : list (Z * lock_op)) (now : Z)
    (Hacq : acquire m r who ttl t0 t = (m', Ok l)) (Httl : 0 <= ttl) (Hnow : now <= t + ttl)
    (Hevs : Forall (fun ev => ev.1 <= t + ttl /\ by_owner r who ev.2 = false) evs) :
  let s := manager_after m' evs in
  get_owner s r now = Some who /\
  (exists l', locks s !! r = Some l' /\ fencing_token l' = fencing_token l) /\
  forall who' ttl' made, who' <> who -> (acquire s r who' ttl' now made).2 = Err (AlreadyLocked r).
Proof.
  intros s. assert (Hh : holds s r who (fencing_token l) (t + ttl)).
  { apply holds_run; [|done]. unfold acquire in Hacq. destruct (blocked m r who t0); [done|].
    injection Hacq as <- <-. eexists. simpl. rewrite lookup_insert_eq. split_and!; done || (simpl; lia). }
  split_and!.
  - destruct Hh as (l' & Hl & Ho & _ & Ht & Hd). unfold get_owner.
    by rewrite Hl, (holds_live l' now (t + ttl)), Ho.
  - destruct Hh as (l' & Hl & _ & Htok & _). by exists l'.
  - intros who' ttl' made Hne. unfold acquire. by rewrite (holds_blocked s r who _ _ who' now Hh Hnow Hne).
Qed.

(** ** Fencing tokens *)

Lemma step_token m ev : next_token (lock_step m ev) = next_token m \/
  next_token (lock_step m ev) = wrap 64 (next_token m + 1).
Proof.
  destruct ev as [now [r who t made|r who|r who t|]]; cbn [lock_step fst snd]; [|left..]; [|unfold release|unfold renew|done].
  - unfold acquire. destruct (blocked m r who now); [by left|by right].
  - destruct (locks m !! r) as [l|]; [|done]. by destruct (String.eqb (owner l) who).
  - destruct (locks m !! r) as [l|]; [|done]. by destruct (String.eqb (owner l) who).
Qed.

Lemma tokens_spec m evs :
  0 <= next_token m -> next_token m + Z.of_nat (length evs) < 2 ^ 64 ->
  StronglySorted Z.lt (tokens m evs) /\ Forall (fun k => next_token m <= k) (tokens m evs).
Proof.
  revert m. induction evs as [|[now o] evs IH]; intros m H0 Hb; [by repeat constructor|].
  cbn [length] in Hb. cbn [tokens]. set (m1 := lock_step m (now, o)).
  assert (Hm1 : next_token m <= next_token m1 <= next_token m + 1).
  { unfold m1. destruct (step_token m (now, o)) as [-> | ->]; [lia|]. rewrite wrap_id by (unfold fits; lia). lia. }
  destruct (IH m1) as [Hs Hall]; [lia|lia|].
  assert (Hweak : Forall (fun k => next_token m <= k) (tokens m1 evs)).
  { eapply Forall_impl; [exact Hall|]. simpl. lia. }
  destruct o as [r who t made|r who|r who t|]; try (by split).
  unfold m1 in *. cbn [lock_step fst snd] in *. unfold acquire in *.
  destruct (blocked m r who now); [by split|]. cbn [fst snd fencing_token app next_token] in *.
  split; [|by constructor]. constructor; [done|]. eapply Forall_impl; [exact Hall|].
  intros k Hk. rewrite wrap_id in Hk by (unfold fits; lia). lia.
Qed.

(** Fencing tokens increase: over any run of the lock manager, whatever resources and
    owners its operations name, each successful acquisition is given a token greater
    than all the tokens granted before it. *)
Theorem fencing_tokens_increase (evs : list (Z * lock_op)) (Hlen : Z.of_nat (length evs) < 2 ^ 64 - 1) :
  StronglySorted Z.lt (tokens manager_new evs).
Proof. apply tokens_spec; simpl; lia. Qed.

(** ** Leader election *)

Inductive election_op : Type :=
| TryLead (who : string) (made : Z)
| Heartbeat (who : string)
| Resign (who : string).

Definition election_step (e : LeaderElection) (ev : Z * election_op) : LeaderElection :=
  match ev.2 with
  | TryLead who made => (try_become_leader e who ev.1 made).1
  | Heartbeat who => (heartbeat e who ev.1).1
  | Resign who => (resign e who).1
  end.

(** [who] leads in term [n] and has a heartbeat not before [t]. *)
Definition leads (e : LeaderElection) (who : string) (n lease t : Z) : Prop :=
  leader_id e = Some who /\ term e = n /\ lease_duration e = lease /\
  exists h, last_heartbeat e = Some h /\ t <= h.

Lemma leads_step e who n lease t now o :
  leads e who n lease t -> t <= now < t + lease -> o <> Resign who -> leads (election_step e (now, o)) who n lease t.
Proof.
  intros (Hl & Hn & Hd & h & Hh & Hht) Hnow Ho. destruct o as [c made|c|c]; cbn [election_step fst snd].
  - unfold try_become_leader, lease_held. rewrite Hl, Hh, Hd.
    replace (elapsed now h <? lease) with true by (unfold elapsed; lia). by split_and!; [..|exists h].
  - unfold heartbeat. destruct (is_leader e c); [|by split_and!; [..|exists h]].
    split_and!; try done. exists now. split; [done|lia].
  - unfold resign, is_leader. rewrite Hl. case_bool_decide as Hc; [|by split_and!; [..|exists h]].
    injection Hc as ->. done.
Qed.

(** Leadership is exclusive for a lease: a candidate that becomes leader stays
    leader, in its term, through every operation of others within the lease, and no
    candidate is elected meanwhile; elections that succeed increase the term. *)
Theorem leader_lease_exclusive (e e' : LeaderElection) (who : string) (n t0 t : Z) (evs : list (Z * election_op))
    (Hterm : u64 (term e)) (Hbound : term e + 1 < 2 ^ 64)
    (Hwin : try_become_leader e who t0 t = (e', Ok n))
    (Hevs : Forall (fun ev => t <= ev.1 < t + lease_duration e /\ ev.2 <> Resign who) evs) :
  let s := foldl election_step e' evs in
  n = term e + 1 /\ leader_id s = Some who /\ term s = n /\
  forall now made c, t <= now < t + lease_duration e ->
    (try_become_leader s c now made).2 = Err (AlreadyLocked (election_id s)).
Proof.
  intros s. unfold try_become_leader in Hwin. destruct (lease_held e t0); [done|].
  rewrite wrap_id in Hwin by (unfold fits in *; lia). injection Hwin as <- <-.
  assert (Hs : leads s who (term e + 1) (lease_duration e) t).
  { unfold s. clear s. set (e' := mkElection _ _ _ _ _).
    assert (He' : leads e' who (term e + 1) (lease_duration e) t) by (split_and!; try done; by exists t).
    revert He'. generalize e'. induction Hevs as [|[now o] evs [Hn Ho] _ IH]; intros x Hx; [done|].
    apply IH. by apply leads_step. }
  destruct Hs as (Hl & Hn & Hd & h & Hh & Hht). split_and!; try done.
  intros now made c Hnow. unfold try_become_leader, lease_held. rewrite Hl, Hh, Hd.
  by replace (elapsed now h <? lease_duration e) with true by (unfold elapsed; lia).
Qed.

(** ** Shard ownership *)

(** Different shards lock different resources. *)
Lemma shard_resource_inj a b : fits 31 (Z.abs a) -> fits 31 (Z.abs b) -> shard_resource a = shard_resource b -> a = b.
Proof.
  unfold shard_resource, fits. intros Ha Hb H. apply (f_equal of_string) in H.
  rewrite !String.list_ascii_of_string_of_list_ascii in H. apply app_inv_head in H.
  pose proof (parse_print_int (- 2 ^ 31) (2 ^ 31) a ltac:(lia) ltac:(lia)) as Pa.
  pose proof (parse_print_int (- 2 ^ 31) (2 ^ 31) b ltac:(lia) ltac:(lia)) as Pb. congruence.
Qed.

(** The token a member was granted last for a shard is the one that is accepted. *)
Lemma assert_ownership_spec s shard range checked locked now s' info token :
  acquire_shard s shard range checked locked now = (s', Ok info) ->
  assert_ownership s' shard token = if shard_token info =? token then Ok () else Err (StaleFencingToken shard).
Proof.
  unfold acquire_shard. destruct (acquire _ _ _ _ _ _) as [lm [l|]]; [|done]. intros [= <- <-].
  unfold assert_ownership. simpl. by rewrite lookup_insert_eq.
Qed.

(** Each member has a lock manager of its own, so two members acquire the same shard at the
    same time, with the same fencing token. *)
Lemma two_members_own_one_shard :
  let a := (acquire_shard (shards_new "a") 7 1 0 0 0).1 in
  let b := (acquire_shard (shards_new "b") 7 1 0 0 0).1 in
  assert_ownership a 7 1 = Ok () /\ assert_ownership b 7 1 = Ok ().
Proof. vm_compute. done. Qed.

(** Ownership is not given up when the lock expires: the clean-up frees the lock, and the old token is
    still accepted. *)
Lemma expired_shard_still_owned :
  let a := (acquire_shard (shards_new "a") 7 1 0 0 0).1 in
  let a' := mkShards (ownership a) (cleanup_expired (lock_manager a) 60001).1 (member_id a) in
  is_locked (lock_manager a') (shard_resource 7) 60001 = false /\ assert_ownership a' 7 1 = Ok ().
Proof. vm_compute. done. Qed.

(** Leadership is not given up when the lease ends either: until someone else is elected, the old leader
    is told it leads. *)
Lemma expired_leader_still_leads :
  let e := (try_become_leader (election_new "e" 10) "a" 0 0).1 in
  lease_held e 1000 = false /\ is_leader e "a" = true.
Proof. vm_compute. done. Qed.

(** ** Witnesses *)

Lemma lock_lease_exclusive_witness :
  let evs := [(3, Acquire "db" "bob" 50 3); (4, Cleanup); (5, Release "db" "bob"); (9, Acquire "log" "bob" 5 10)] in
  get_owner (manager_after (acquire manager_new "db" "ann" 10 0 1).1 evs) "db" 11 = Some "ann"%string.
Proof.
  intros evs. refine (proj1 (lock_lease_exclusive manager_new _ "db" "ann" 10 0 1 (mkLock "db" "ann" 1 1 10 0) evs 11 _ _ _ _)).
  - reflexivity.
  - lia.
  - lia.
  - unfold evs. repeat constructor; simpl; lia.
Defined.

Lemma fencing_tokens_increase_witness :
  let evs := [(0, Acquire "x" "a" 5 0); (3, Acquire "x" "b" 5 3); (6, Acquire "x" "b" 5 6); (7, Release "x" "b");
              (8, Acquire "y" "a" 1 8)] in
  tokens manager_new evs = [1; 2; 3] /\ StronglySorted Z.lt (tokens manager_new evs).
Proof. intros evs. split; [vm_compute; reflexivity|]. apply fencing_tokens_increase. vm_compute. reflexivity. Defined.

Lemma leader_lease_exclusive_witness :
  let e := election_new "e" 10 in
  leader_id (foldl election_step (try_become_leader e "a" 0 0).1 [(3, TryLead "b" 3); (4, Heartbeat "b"); (9, Heartbeat "a")])
  = Some "a"%string.
Proof.
  intros e. refine (proj1 (proj2 (leader_lease_exclusive e (mkElection "e" (Some "a"%string) 1 10 (Some 0)) "a" 1 0 0
    [(3, TryLead "b" 3); (4, Heartbeat "b"); (9, Heartbeat "a")] _ _ _ _))).
  - vm_compute. done.
  - vm_compute. reflexivity.
  - reflexivity.
  - repeat constructor; simpl; try lia; discriminate.
Defined.

End Locks.
