(* ===== verification/Raft.v ===== *)
(** * The in-memory Raft node ([velocity-workflow-engine/src/raft_consensus.rs])

    One node of a group: election, log, commit and apply indices, replication
    bookkeeping, deferred flushing and compaction.  Log indices are natural numbers (they
    count entries held in memory); [Instant::now()] is an argument, in milliseconds. *)

From S2P Require Import Prelude.

Module Raft.

Inductive RaftState : Type := Follower | Candidate | Leader.

#[export] Instance RaftState_eq_dec : EqDecision RaftState.
Proof. solve_decision. Defined.

Inductive RaftEventType : Type :=
| WorkflowStarted | StepCompleted | ActivityScheduled | ActivityCompleted | TimerScheduled
| TimerFired | SignalReceived | WorkflowCompleted | WorkflowFailed | WorkflowCanceled.

Record RaftLogEntry : Type := mkEntry {
  e_term : Z;
  e_index : nat;
  workflow_key : Z;
  event_type : RaftEventType;
  payload : bytes;
  timestamp_ms : Z;
  committed : bool;
}.

Record RaftConfig : Type := mkConfig {
  node_id : Z;
  election_timeout_min_ms : Z;
  election_timeout_max_ms : Z;
  heartbeat_interval_ms : Z;
  snapshot_threshold : Z;
  defer_persistence : bool;
  persistence_batch_size : nat;
}.

Definition raft_default : RaftConfig := mkConfig 0 150 300 50 10000 true 1000.

Record RaftNode : Type := mkNode {
  config : RaftConfig;
  state : RaftState;
  current_term : Z;
  voted_for : option Z;
  log : list RaftLogEntry;
  commit_index : nat;
  last_applied : nat;
  next_index : gmap Z nat;
  match_index : gmap Z nat;
  peers : list Z;
  last_heartbeat : Z;
  election_deadline : Z;
  pending_flush : list nat;
  total_flushed : nat;
  elections_won : Z;
  entries_committed : Z;
  entries_applied : Z;
  snapshots_taken : Z;
  deferred_flushes : Z;
}.

Definition node_new (c : RaftConfig) (now : Z) : RaftNode :=
  mkNode c Follower 0 None [] 0 0 ∅ ∅ [] now (now + wrap 64 (election_timeout_min_ms c + node_id c mod 50))
    [] 0 0 0 0 0 0.

(** ** Updates of single fields *)

Definition with_log (n : RaftNode) (l : list RaftLogEntry) (commit applied : nat) (flush : list nat)
    (committed_stat applied_stat : Z) : RaftNode :=
  mkNode (config n) (state n) (current_term n) (voted_for n) l commit applied (next_index n) (match_index n)
    (peers n) (last_heartbeat n) (election_deadline n) flush (total_flushed n) (elections_won n)
    committed_stat applied_stat (snapshots_taken n) (deferred_flushes n).

Definition with_peers (n : RaftNode) (ps : list Z) (next mtch : gmap Z nat) (beat : Z) : RaftNode :=
  mkNode (config n) (state n) (current_term n) (voted_for n) (log n) (commit_index n) (last_applied n) next mtch
    ps beat (election_deadline n) (pending_flush n) (total_flushed n) (elections_won n)
    (entries_committed n) (entries_applied n) (snapshots_taken n) (deferred_flushes n).

Definition with_state (n : RaftNode) (s : RaftState) (next mtch : gmap Z nat) : RaftNode :=
  mkNode (config n) s (current_term n) (voted_for n) (log n) (commit_index n) (last_applied n) next mtch
    (peers n) (last_heartbeat n) (election_deadline n) (pending_flush n) (total_flushed n) (elections_won n)
    (entries_committed n) (entries_applied n) (snapshots_taken n) (deferred_flushes n).

(** ** Operations *)

Definition add_peer (n : RaftNode) (p : Z) : RaftNode :=
  if existsb (Z.eqb p) (peers n) || (p =? node_id (config n)) then n
  else with_peers n (peers n ++ [p]) (<[p := S (length (log n))]> (next_index n))
         (<[p := O]> (match_index n)) (last_heartbeat n).

Definition remove_peer (n : RaftNode) (p : Z) : RaftNode :=
  with_peers n (List.filter (fun q => negb (q =? p)) (peers n)) (delete p (next_index n))
    (delete p (match_index n)) (last_heartbeat n).

(** The length of the range of timeouts is a divisor: the remainder panics when it is zero. *)
Definition election_timeout (c : RaftConfig) : exec Z :=
  let range := wrap 64 (election_timeout_max_ms c - election_timeout_min_ms c + 1) in
  if range =? 0 then Panic else Ret (wrap 64 (election_timeout_min_ms c + wrap 64 (node_id c * 37) mod range)).

Definition with_election (n : RaftNode) (s : RaftState) (term : Z) (vote : option Z) (deadline won : Z) : RaftNode :=
  mkNode (config n) s term vote (log n) (commit_index n) (last_applied n) (next_index n) (match_index n) (peers n)
    (last_heartbeat n) deadline (pending_flush n) (total_flushed n) won (entries_committed n) (entries_applied n)
    (snapshots_taken n) (deferred_flushes n).

(** The node after the call, also when it panics: the term and the vote are set before the timeout is computed. *)
Definition start_election (n : RaftNode) (now : Z) : RaftNode * exec bool :=
  if decide (state n = Leader) then (n, Ret false)
  else
    let term := wrap 64 (current_term n + 1) in
    let vote := Some (node_id (config n)) in
    match election_timeout (config n) with
    | Ret timeout => (with_election n Candidate term vote (now + timeout) (wrap 64 (elections_won n + 1)), Ret true)
    | Panic => (with_election n Candidate term vote (election_deadline n) (elections_won n), Panic)
    end.

Definition become_leader (n : RaftNode) : RaftNode :=
  with_state n Leader (foldl (fun m p => <[p := S (length (log n))]> m) (next_index n) (peers n))
    (foldl (fun m p => <[p := O]> m) (match_index n) (peers n)).

Definition set_committed (e : RaftLogEntry) : RaftLogEntry :=
  mkEntry (e_term e) (e_index e) (workflow_key e) (event_type e) (payload e) (timestamp_ms e) true.

Definition append_entry (n : RaftNode) (key : Z) (ty : RaftEventType) (data : bytes) : RaftNode * option nat :=
  if decide (state n = Leader) then
    let index := S (length (log n)) in
    let alone := match peers n with [] => true | _ => false end in
    let entry := mkEntry (current_term n) index key ty data 0 alone in
    (with_log n (log n ++ [entry]) (if alone then index else commit_index n) (last_applied n)
       (if defer_persistence (config n) then pending_flush n ++ [index] else pending_flush n)
       (if alone then wrap 64 (entries_committed n + 1) else entries_committed n) (entries_applied n),
     Some index)
  else (n, None).

(** Setting the flags of the entries at positions [a .. b - 1]. *)
Definition commit_range (a b : nat) (l : list RaftLogEntry) : list RaftLogEntry :=
  imap (fun i e => if (a <=? i)%nat && (i <? b)%nat then set_committed e else e) l.

Definition advance_commit (n : RaftNode) (new_commit : nat) : RaftNode :=
  if (commit_index n <? new_commit)%nat && (new_commit <=? length (log n))%nat then
    with_log n (commit_range (commit_index n) new_commit (log n)) new_commit (last_applied n) (pending_flush n)
      (wrap 64 (entries_committed n + Z.of_nat (new_commit - commit_index n))) (entries_applied n)
  else n.

(** [log.get(k - 1)] for [k] from [last_applied + 1] to [commit_index]. *)
Definition apply_committed (n : RaftNode) : RaftNode * list RaftLogEntry :=
  let applied := take (commit_index n - last_applied n) (drop (last_applied n) (log n)) in
  (with_log n (log n) (commit_index n) (Nat.max (last_applied n) (commit_index n)) (pending_flush n)
     (entries_committed n) (wrap 64 (entries_applied n + Z.of_nat (length applied))), applied).

Definition flush_pending (n : RaftNode) : RaftNode * nat :=
  let flushed := Nat.min (length (pending_flush n)) (persistence_batch_size (config n)) in
  (mkNode (config n) (state n) (current_term n) (voted_for n) (log n) (commit_index n) (last_applied n)
     (next_index n) (match_index n) (peers n) (last_heartbeat n) (election_deadline n)
     (drop flushed (pending_flush n)) (total_flushed n + flushed) (elections_won n) (entries_committed n)
     (entries_applied n) (snapshots_taken n) (wrap 64 (deferred_flushes n + 1)), flushed).

(** The number of entries [take_while(|e| e.index <= snapshot_index)] keeps. *)
Fixpoint count_while (k : nat) (l : list RaftLogEntry) : nat :=
  match l with
  | e :: l => if (e_index e <=? k)%nat then S (count_while k l) else O
  | [] => O
  end.

Definition take_snapshot (n : RaftNode) : RaftNode * nat :=
  if (last_applied n =? 0)%nat then (n, O)
  else
    (mkNode (config n) (state n) (current_term n) (voted_for n)
       (drop (count_while (last_applied n) (log n)) (log n)) (commit_index n) (last_applied n)
       (next_index n) (match_index n) (peers n) (last_heartbeat n) (election_deadline n) (pending_flush n)
       (total_flushed n) (elections_won n) (entries_committed n) (entries_applied n)
       (wrap 64 (snapshots_taken n + 1)) (deferred_flushes n), last_applied n).

Definition check_election_timeout (n : RaftNode) (now : Z) : bool :=
  bool_decide (state n <> Leader) && (election_deadline n <=? now).

Definition reset_election_timer (n : RaftNode) (now : Z) : RaftNode * exec unit :=
  match election_timeout (config n) with
  | Ret timeout =>
      (with_election n (state n) (current_term n) (voted_for n) (now + timeout) (elections_won n), Ret tt)
  | Panic => (n, Panic)
  end.

(** The body of the loop over the peers: the entries to send, and the indices after sending. *)
Definition unsent (l : list RaftLogEntry) (next : gmap Z nat) (p : Z) : list RaftLogEntry :=
  List.filter (fun e => (default 1 (next !! p) <=? e_index e)%nat) l.

Definition beat_peer (l : list RaftLogEntry) (s : gmap Z nat * gmap Z nat * list (Z * list RaftLogEntry)) (p : Z) :
    gmap Z nat * gmap Z nat * list (Z * list RaftLogEntry) :=
  let '(next, mtch, out) := s in
  let es := unsent l next p in
  match last es with
  | Some e => (<[p := S (e_index e)]> next, <[p := e_index e]> mtch, out ++ [(p, es)])
  | None => s
  end.

Definition prepare_heartbeats (n : RaftNode) (now : Z) : RaftNode * list (Z * list RaftLogEntry) :=
  if decide (state n = Leader) then
    let '(next, mtch, out) := foldl (beat_peer (log n)) (next_index n, match_index n, []) (peers n) in
    (with_peers n (peers n) next mtch now, out)
  else (n, []).

(** ** Runs *)

Inductive raft_op : Type :=
| AddPeer (p : Z)
| RemovePeer (p : Z)
| StartElection (now : Z)
| BecomeLeader
| Append (key : Z) (ty : RaftEventType) (data : bytes)
| AdvanceCommit (k : nat)
| Apply
| Flush
| Snapshot
| ResetTimer (now : Z)
| Heartbeats (now : Z).

Definition raft_step (n : RaftNode) (o : raft_op) : RaftNode :=
  match o with
  | AddPeer p => add_peer n p
  | RemovePeer p => remove_peer n p
  | StartElection now => (start_election n now).1
  | BecomeLeader => become_leader n
  | Append key ty data => (append_entry n key ty data).1
  | AdvanceCommit k => advance_commit n k
  | Apply => (apply_committed n).1
  | Flush => (flush_pending n).1
  | Snapshot => (take_snapshot n).1
  | ResetTimer now => (reset_election_timer n now).1
  | Heartbeats now => (prepare_heartbeats n now).1
  end.

(** What a run hands to the state machine, in order. *)
Fixpoint applied_by (n : RaftNode) (os : list raft_op) : list RaftLogEntry :=
  match os with
  | [] => []
  | o :: os => match o with Apply => (apply_committed n).2 | _ => [] end ++ applied_by (raft_step n o) os
  end.

Definition no_snapshot (os : list raft_op) : bool :=
  forallb (fun o => match o with Snapshot => false | _ => true end) os.

(** The log is numbered from 1, its terms do not decrease and are not above the current
    one, and the indices are in order: applied, committed, appended. *)
Record raft_inv (n : RaftNode) : Prop := {
  inv_index i e : log n !! i = Some e -> e_index e = S i;
  inv_terms : StronglySorted Z.le (map e_term (log n));
  inv_current : Forall (fun e => e_term e <= current_term n) (log n);
  inv_applied : (last_applied n <= commit_index n)%nat;
  inv_commit : (commit_index n <= length (log n))%nat;
}.

(** A step keeps the entries that are committed, and does not move the indices back. *)
Record raft_grows (n n' : RaftNode) : Prop := {
  grows_log : take (commit_index n) (log n') = take (commit_index n) (log n);
  grows_length : (length (log n) <= length (log n'))%nat;
  grows_commit : (commit_index n <= commit_index n')%nat;
  grows_term : current_term n <= current_term n';
}.

Lemma same_log_inv n n' :
  log n' = log n -> commit_index n' = commit_index n -> last_applied n' = last_applied n ->
  current_term n <= current_term n' -> raft_inv n -> raft_inv n' /\ raft_grows n n'.
Proof.
  intros Hl Hc Ha Ht [Hi Hs Hcur Hap Hco]. split; split; rewrite ?Hl, ?Hc, ?Ha; try done.
  eapply Forall_impl; [exact Hcur|]. simpl. lia.
Qed.

Lemma beat_peers_log n now : log (prepare_heartbeats n now).1 = log n /\
  commit_index (prepare_heartbeats n now).1 = commit_index n /\
  last_applied (prepare_heartbeats n now).1 = last_applied n /\
  current_term (prepare_heartbeats n now).1 = current_term n.
Proof.
  unfold prepare_heartbeats. destruct (decide _); [|done].
  by destruct (foldl _ _ _) as [[next mtch] out].
Qed.

Lemma sorted_snoc (l : list Z) x : StronglySorted Z.le l -> Forall (fun y => y <= x) l -> StronglySorted Z.le (l ++ [x]).
Proof.
  induction 1 as [|y l Hl IH Hy]; intros Hx; simpl; [by repeat constructor|].
  apply Forall_cons in Hx as [Hyx Hx]. constructor; [by apply IH|]. apply Forall_app. by split; [|constructor].
Qed.

Lemma raft_append_inv n key ty data :
  raft_inv n -> raft_inv (append_entry n key ty data).1 /\ raft_grows n (append_entry n key ty data).1.
Proof.
  intros Hinv. unfold append_entry. destruct (decide (state n = Leader)); [|by apply same_log_inv].
  cbn [fst]. destruct Hinv as [Hi Hs Hcur Hap Hco].
  assert (Hc : (commit_index n <= (if match peers n with [] => true | _ => false end then S (length (log n))
                                   else commit_index n) <= S (length (log n)))%nat) by (destruct (peers n); lia).
  split; split; cbn [with_log log commit_index last_applied current_term].
  - intros i x Hx. apply lookup_app_Some in Hx as [Hx|[Hlen Hx]]; [by apply Hi|].
    apply list_lookup_singleton_Some in Hx as [Hz <-]. simpl. lia.
  - rewrite map_app. apply sorted_snoc; [done|]. by apply List.Forall_map.
  - apply Forall_app. split; [done|]. constructor; [simpl; lia|done].
  - lia.
  - rewrite length_app. simpl. lia.
  - rewrite take_app_le by done. done.
  - rewrite length_app. lia.
  - lia.
  - lia.
Qed.

Lemma commit_range_lookup a b l i :
  commit_range a b l !! i =
  (fun e => if (a <=? i)%nat && (i <? b)%nat then set_committed e else e) <$> (l !! i).
Proof. unfold commit_range. by rewrite list_lookup_imap. Qed.

Lemma commit_range_term a b l : map e_term (commit_range a b l) = map e_term l.
Proof.
  apply list_eq. intros i. rewrite !list_lookup_fmap, commit_range_lookup.
  destruct (l !! i); simpl; [|done]. by destruct (_ && _).
Qed.

Lemma advance_inv n k : raft_inv n -> raft_inv (advance_commit n k) /\ raft_grows n (advance_commit n k).
Proof.
  intros Hinv. unfold advance_commit.
  destruct (Nat.ltb_spec (commit_index n) k) as [Hlt|]; [|by apply same_log_inv].
  destruct (Nat.leb_spec k (length (log n))) as [Hle|]; [|by apply same_log_inv].
  destruct Hinv as [Hi Hs Hcur Hap Hco]. cbn [andb].
  assert (Hlen : length (commit_range (commit_index n) k (log n)) = length (log n)) by apply length_imap.
  split; split; cbn [with_log log commit_index last_applied current_term]; rewrite ?Hlen; try lia.
  - intros i x. rewrite commit_range_lookup. destruct (log n !! i) as [e|] eqn:He; [|done]. simpl.
    intros [= <-]. rewrite <- (Hi i e He). by destruct (_ && _).
  - by rewrite commit_range_term.
  - apply Forall_lookup. intros i x. rewrite commit_range_lookup. destruct (log n !! i) as [e|] eqn:He; [|done].
    intros [= <-]. pose proof (Forall_lookup_1 _ _ _ _ Hcur He). by destruct (_ && _).
  - apply list_eq. intros i. destruct (decide (i < commit_index n)%nat) as [Hi'|Hi'].
    + rewrite !lookup_take_lt by done. rewrite commit_range_lookup.
      replace (commit_index n <=? i)%nat with false by (symmetry; apply Nat.leb_gt; lia). simpl.
      by destruct (log n !! i).
    + rewrite !lookup_take_ge by lia. done.
Qed.

Lemma apply_inv n : raft_inv n -> raft_inv (apply_committed n).1 /\ raft_grows n (apply_committed n).1.
Proof.
  intros [Hi Hs Hcur Hap Hco]. split; split; cbn [apply_committed fst with_log log commit_index last_applied current_term];
    try done; lia.
Qed.

Lemma raft_step_inv n o :
  raft_inv n -> current_term n + 1 < 2 ^ 64 -> 0 <= current_term n -> o <> Snapshot ->
  raft_inv (raft_step n o) /\ raft_grows n (raft_step n o).
Proof.
  intros Hinv Hterm H0 Ho. destruct o; cbn [raft_step]; try done.
  - unfold add_peer. destruct (_ || _); by apply same_log_inv.
  - by apply same_log_inv.
  - unfold start_election. destruct (decide _); [by apply same_log_inv|].
    destruct (election_timeout _); (apply same_log_inv; try done; simpl; rewrite wrap_id by (unfold fits; lia); lia).
  - by apply same_log_inv.
  - by apply raft_append_inv.
  - by apply advance_inv.
  - by apply apply_inv.
  - by apply same_log_inv.
  - unfold reset_election_timer. destruct (election_timeout _); by apply same_log_inv.
  - destruct (beat_peers_log n now) as (? & ? & ? & Ht). apply same_log_inv; try done. rewrite Ht. lia.
Qed.

Lemma step_applied n o : o <> Apply -> last_applied (raft_step n o) = last_applied n.
Proof.
  intros Ho. destruct o; cbn [raft_step]; try done.
  - unfold add_peer. by destruct (_ || _).
  - unfold start_election. destruct (decide _); [done|]. by destruct (election_timeout _).
  - unfold append_entry. by destruct (decide _).
  - unfold advance_commit. by destruct (_ && _).
  - unfold take_snapshot. by destruct (last_applied n =? 0)%nat.
  - unfold reset_election_timer. by destruct (election_timeout _).
  - by destruct (beat_peers_log n now) as (_ & _ & ? & _).
Qed.

Lemma take_take_le {A} (l : list A) m n : (n <= m)%nat -> take n (take m l) = take n l.
Proof. intros H. rewrite take_take. f_equal. lia. Qed.

Lemma step_output n o :
  raft_inv n -> raft_grows n (raft_step n o) ->
  take (last_applied (raft_step n o)) (log (raft_step n o)) =
  take (last_applied n) (log n) ++ match o with Apply => (apply_committed n).2 | _ => [] end.
Proof.
  intros Hinv [Hlog _ _ _].
  assert (Hkeep : o <> Apply -> take (last_applied (raft_step n o)) (log (raft_step n o)) = take (last_applied n) (log n)).
  { intros Ho. rewrite step_applied by done. pose proof (inv_applied n Hinv) as Ha.
    rewrite <- (take_take_le (log (raft_step n o)) (commit_index n) (last_applied n)) by done.
    by rewrite Hlog, take_take_le. }
  destruct o; rewrite ?app_nil_r; try by apply Hkeep.
  cbn [raft_step apply_committed fst snd with_log log last_applied].
  rewrite take_take_drop. f_equal. pose proof (inv_applied n Hinv). lia.
Qed.

(** The term grows by one with each step at most. *)
Lemma step_term n o : 0 <= current_term n -> current_term n + 1 < 2 ^ 64 ->
  current_term n <= current_term (raft_step n o) <= current_term n + 1.
Proof.
  intros H0 H1. destruct o; cbn [raft_step]; try (simpl; lia).
  - unfold add_peer. destruct (_ || _); simpl; lia.
  - unfold start_election. destruct (decide _); simpl; [lia|].
    destruct (election_timeout _); simpl; rewrite wrap_id by (unfold fits; lia); lia.
  - unfold append_entry. destruct (decide _); simpl; lia.
  - unfold advance_commit. destruct (_ && _); simpl; lia.
  - unfold take_snapshot. destruct (last_applied n =? 0)%nat; simpl; lia.
  - unfold reset_election_timer. destruct (election_timeout _); simpl; lia.
  - destruct (beat_peers_log n now) as (_ & _ & _ & ->). lia.
Qed.

Lemma run_spec n os :
  raft_inv n -> 0 <= current_term n -> current_term n + Z.of_nat (length os) < 2 ^ 64 -> no_snapshot os = true ->
  let n' := foldl raft_step n os in
  raft_inv n' /\ raft_grows n n' /\
  0 <= current_term n' <= current_term n + Z.of_nat (length os) /\
  take (last_applied n') (log n') = take (last_applied n) (log n) ++ applied_by n os.
Proof.
  revert n. induction os as [|o os IH]; intros n Hinv H0 Hb Hno.
  { simpl. split; [done|]. split; [by split|]. split; [lia|]. by rewrite app_nil_r. }
  cbn [length no_snapshot forallb] in *. apply andb_prop in Hno as [Ho Hno].
  assert (Hns : o <> Snapshot) by by intros ->.
  destruct (raft_step_inv n o Hinv ltac:(lia) H0 Hns) as [Hinv1 Hg1].
  pose proof (step_term n o H0 ltac:(lia)) as Ht.
  pose proof (step_output n o Hinv Hg1) as Hout. cbn [foldl applied_by].
  destruct (IH (raft_step n o) Hinv1 ltac:(lia) ltac:(lia) Hno) as (Hinv2 & Hg2 & Ht2 & Htake).
  split; [done|]. split.
  - destruct Hg1 as [L1 N1 C1 T1], Hg2 as [L2 N2 C2 T2]. split; [|lia..].
    rewrite <- L1. rewrite <- (take_take_le (log (foldl raft_step (raft_step n o) os)) (commit_index (raft_step n o))) by done.
    rewrite L2. by rewrite take_take_le.
  - split; [lia|]. rewrite Htake, Hout. by rewrite <- app_assoc.
Qed.

(** C8. The log of a node that takes no snapshot: its entries are numbered from one without
    gaps, in terms that do not decrease; entries that are committed never change; and the
    state machine is given exactly the first [last_applied] entries of the log, each once
    and in order, none of them before it is committed. *)
Theorem raft_log_safety (c : RaftConfig) (now : Z) (os os' : list raft_op)
    (Hno : no_snapshot (os ++ os') = true) (Hlen : Z.of_nat (length (os ++ os')) < 2 ^ 64) :
  let n := foldl raft_step (node_new c now) os in
  let n' := foldl raft_step n os' in
  (forall i e, log n' !! i = Some e -> e_index e = S i) /\
  StronglySorted Z.le (map e_term (log n')) /\
  take (commit_index n) (log n') = take (commit_index n) (log n) /\
  (last_applied n' <= commit_index n' <= length (log n'))%nat /\
  applied_by (node_new c now) (os ++ os') = take (last_applied n') (log n').
Proof.
  intros n n'. rewrite length_app in Hlen. unfold no_snapshot in Hno. rewrite forallb_app in Hno.
  apply andb_prop in Hno as [Hno Hno'].
  assert (Hnew : raft_inv (node_new c now)) by (split; simpl; try done; constructor).
  destruct (run_spec (node_new c now) os Hnew) as (Hinv & _ & Ht & _); [simpl; lia|simpl; lia|done|]. fold n in Hinv, Ht.
  simpl in Ht. destruct (run_spec n os' Hinv) as (Hinv' & Hg & _ & _); [lia|lia|done|]. fold n' in Hinv', Hg.
  destruct (run_spec (node_new c now) (os ++ os') Hnew) as (_ & _ & _ & Hout);
    [simpl; lia|simpl; rewrite length_app; lia|unfold no_snapshot; by rewrite forallb_app, Hno|].
  rewrite foldl_app in Hout. fold n in Hout. fold n' in Hout.
  split_and!; [apply (inv_index _ Hinv')|apply (inv_terms _ Hinv')|apply (grows_log _ _ Hg)
    |apply (inv_applied _ Hinv')|apply (inv_commit _ Hinv')|by rewrite Hout].
Qed.

Definition lead_alone : list raft_op := [StartElection 0; BecomeLeader].

Lemma raft_log_safety_witness :
  let os := lead_alone ++ [Append 1 WorkflowStarted []; Apply] in
  let os' := [Append 1 StepCompleted [5]; AddPeer 3; Append 2 WorkflowStarted []; Apply; AdvanceCommit 3; Apply] in
  map e_index (applied_by (node_new raft_default 0) (os ++ os')) = [1; 2; 3]%nat /\
  applied_by (node_new raft_default 0) (os ++ os') =
  take 3 (log (foldl raft_step (foldl raft_step (node_new raft_default 0) os) os')).
Proof.
  intros os os'. split; [vm_compute; reflexivity|].
  refine (proj2 (proj2 (proj2 (proj2 (raft_log_safety raft_default 0 os os' _ _))))).
  - reflexivity.
  - vm_compute. reflexivity.
Defined.

(** After a snapshot positions and indices no longer agree: the next entry gets an index already used,
    the commit index moves back, and the entry is never applied. *)
Lemma snapshot_loses_entry :
  let os := lead_alone ++ [Append 1 WorkflowStarted []; Append 1 StepCompleted []; Apply; Snapshot;
                           Append 1 WorkflowCompleted []; Apply] in
  let n := foldl raft_step (node_new raft_default 0) os in
  map e_index (log n) = [1]%nat /\ commit_index n = 1%nat /\ last_applied n = 2%nat /\
  map event_type (applied_by (node_new raft_default 0) os) = [WorkflowStarted; StepCompleted].
Proof. vm_compute. done. Qed.

(** When the last peer leaves, an append commits everything before it, but flags only itself. *)
Lemma lone_append_leaves_flags :
  let n := foldl raft_step (node_new raft_default 0)
    (lead_alone ++ [AddPeer 2; Append 1 WorkflowStarted []; RemovePeer 2; Append 1 StepCompleted []]) in
  commit_index n = 2%nat /\ map committed (log n) = [false; true].
Proof. vm_compute. done. Qed.

(** A range of timeouts whose end is one below its start makes an election panic, with the term already raised. *)
Lemma empty_timeout_range_panics :
  let c := mkConfig 1 150 149 50 10000 true 1000 in
  let '(n, r) := start_election (node_new c 0) 0 in r = Panic /\ current_term n = 1 /\ state n = Candidate.
Proof. vm_compute. done. Qed.

(** Sending entries to a peer counts as the peer having them: the match index advances without any
    acknowledgement. *)
Lemma heartbeat_advances_match :
  let n := foldl raft_step (node_new raft_default 0)
    (lead_alone ++ [AddPeer 2; Append 1 WorkflowStarted []; Heartbeats 5]) in
  match_index n !! 2 = Some 1%nat.
Proof. vm_compute. done. Qed.

End Raft.
