(* ===== verification/Sharding.v ===== *)
(** * Consistent hashing ([velocity-workflow-engine/src/sharding.rs])

    The hash ring of virtual nodes and the shard manager on top of it.  A host name is
    the list of its bytes; the ring, an ordered map, is a map whose successor lookup is
    written out on its sorted keys.  The key orders in which hash maps are walked are
    arguments. *)

From S2P Require Import Prelude.

Module Sharding.

Abbreviation host := bytes.

(** ** Hashing (FNV-1a) *)

Definition FNV_BASIS : Z := 0xcbf29ce484222325.
Definition FNV_FACTOR : Z := 0x100000001b3.

Definition mix (hash byte : Z) : Z := wrapping_mul 64 (Z.lxor hash byte) FNV_FACTOR.

Definition hash_virtual_node (h : host) (index : Z) : Z :=
  mix (foldl mix (foldl mix FNV_BASIS h) (le_bytes 4 index)) 58.
Definition hash_key (key : Z) : Z := foldl mix FNV_BASIS (le_bytes 8 key).

(** ** The ring *)

Record HashRing : Type := mkRing {
  ring : gmap Z host;
  hosts : gmap host nat;
  replica_points : nat;
}.

Definition ring_new (replicas : nat) : HashRing := mkRing ∅ ∅ (Nat.max replicas 1).

(** The positions of the first [n] virtual nodes of a host. *)
Definition points (h : host) (n : nat) : list Z := map (fun i => hash_virtual_node h (Z.of_nat i)) (seq 0 n).

Definition add_host_with_points (r : HashRing) (h : host) (n : nat) : HashRing :=
  match hosts r !! h with
  | Some _ => r
  | None => mkRing (foldl (fun m p => <[p := h]> m) (ring r) (points h n)) (<[h := n]> (hosts r))
              (replica_points r)
  end.

Definition add_host (r : HashRing) (h : host) : HashRing := add_host_with_points r h (replica_points r).

Definition remove_host (r : HashRing) (h : host) : HashRing * bool :=
  match hosts r !! h with
  | Some n => (mkRing (foldl (fun m p => delete p m) (ring r) (points h n)) (delete h (hosts r))
                 (replica_points r), true)
  | None => (r, false)
  end.

(** The positions in order, and the first one clockwise from [hash]. *)
Definition positions (r : HashRing) : list Z := sort_dedup (map_to_list (ring r)).*1.

Definition clockwise (r : HashRing) (hash : Z) : option Z :=
  match List.find (fun p => hash <=? p) (positions r) with
  | Some p => Some p
  | None => head (positions r)
  end.

Definition get_host (r : HashRing) (key : Z) : option host :=
  match clockwise r (hash_key key) with
  | Some p => ring r !! p
  | None => None
  end.

(** [(x as u32) & 0xFF]. *)
Definition ring_shard_for_key (r : HashRing) (key : Z) : Z :=
  Z.land (wrap 32 (default (hash_key key) (clockwise r (hash_key key)))) 255.

(** [order] is the iteration order of the map of owners. *)
Definition compute_rebalance (r : HashRing) (owners : gmap Z host) (order : list Z) : list (Z * host * host) :=
  omap (fun shard =>
    match owners !! shard, get_host r shard with
    | Some current, Some correct => if decide (correct = current) then None else Some (shard, current, correct)
    | _, _ => None
    end) order.

(** ** The shard manager *)

Record ShardManager : Type := mkShardManager {
  shard_count : Z;
  shard_owners : gmap Z host;
  hash_ring : HashRing;
}.

Definition shard_manager_new (n : Z) : ShardManager := mkShardManager n ∅ (ring_new 150).

(** [(workflow_key as u32) % shard_count]; a count of zero panics. *)
Definition shard_for_key (m : ShardManager) (key : Z) : exec Z :=
  if shard_count m =? 0 then Panic else Ret (wrap 32 key mod shard_count m).
Definition host_for_key (m : ShardManager) (key : Z) : option host := get_host (hash_ring m) key.

Definition assign_shard (m : ShardManager) (shard : Z) (h : host) : ShardManager * bool :=
  if shard_count m <=? shard then (m, false)
  else (mkShardManager (shard_count m) (<[shard := h]> (shard_owners m)) (hash_ring m), true).

Definition migrate_shard (m : ShardManager) (shard : Z) (h : host) : ShardManager * bool :=
  match shard_owners m !! shard with
  | Some _ => (mkShardManager (shard_count m) (<[shard := h]> (shard_owners m)) (hash_ring m), true)
  | None => (m, false)
  end.

Definition compute_rebalance_plan (m : ShardManager) (order : list Z) : list (Z * host * host) :=
  compute_rebalance (hash_ring m) (shard_owners m) order.

Definition get_shards_for_host (m : ShardManager) (order : list Z) (h : host) : list Z :=
  List.filter (fun s => bool_decide (shard_owners m !! s = Some h)) order.

(** ** Clockwise distance *)

(** Every position of the ring is a [u64]. *)
Definition u64_ring (m : gmap Z host) : Prop := forall p h, m !! p = Some h -> u64 p.

(** The distance from [hash] to [p] going up, wrapping at the end of the ring. *)
Definition distance (hash p : Z) : Z := (p - hash) mod 2 ^ 64.

Lemma mix_u64 a b : u64 (mix a b).
Proof. apply wrap_fits. lia. Qed.

Lemma foldl_mix_u64 l a : u64 a -> u64 (foldl mix a l).
Proof. revert a. induction l as [|b l IH]; intros a Ha; [done|]. apply IH, mix_u64. Qed.

Lemma hash_key_u64 k : u64 (hash_key k).
Proof. apply foldl_mix_u64. vm_compute. done. Qed.

Lemma virtual_node_u64 h i : u64 (hash_virtual_node h i).
Proof. apply mix_u64. Qed.

Lemma distance_up hash p : u64 hash -> u64 p -> hash <= p -> distance hash p = p - hash.
Proof. unfold fits, distance. intros. apply Z.mod_small. lia. Qed.
Lemma distance_wrap hash p : u64 hash -> u64 p -> p < hash -> distance hash p = p - hash + 2 ^ 64.
Proof.
  unfold fits, distance. intros. rewrite <- (Z.mod_add _ 1) by lia. apply Z.mod_small. lia.
Qed.

Lemma distance_cases hash p : u64 hash -> u64 p ->
  (hash <= p /\ distance hash p = p - hash) \/ (p < hash /\ distance hash p = p - hash + 2 ^ 64).
Proof.
  intros Hh Hp. destruct (Z.le_gt_cases hash p); [left|right]; split; auto using distance_up, distance_wrap.
Qed.

Lemma distance_inj hash p q : u64 hash -> u64 p -> u64 q -> distance hash p = distance hash q -> p = q.
Proof.
  intros Hh Hp Hq. destruct (distance_cases hash p Hh Hp), (distance_cases hash q Hh Hq); unfold fits in *; lia.
Qed.

(** [p] is the first position of [m] clockwise from [hash]. *)
Definition nearest (m : gmap Z host) (hash p : Z) : Prop :=
  is_Some (m !! p) /\ forall q, is_Some (m !! q) -> distance hash p <= distance hash q.

Lemma nearest_unique m hash p q :
  u64_ring m -> u64 hash -> nearest m hash p -> nearest m hash q -> p = q.
Proof.
  intros Hm Hh [[hp Hp] Hpmin] [[hq Hq] Hqmin]. apply (distance_inj hash); [done|by eapply Hm|by eapply Hm|].
  pose proof (Hpmin q (mk_is_Some _ _ Hq)). pose proof (Hqmin p (mk_is_Some _ _ Hp)). lia.
Qed.

Lemma elem_of_positions r p : p ∈ positions r <-> is_Some (ring r !! p).
Proof.
  unfold positions. rewrite elem_of_sort_dedup, list_elem_of_fmap. split.
  - intros ([q h] & -> & H). apply elem_of_map_to_list in H. by exists h.
  - intros [h H]. exists (p, h). split; [done|]. by apply elem_of_map_to_list.
Qed.

(** In a sorted list, [find] gives the least element that is large enough. *)
Lemma find_least hash l :
  StronglySorted Z.lt l ->
  match List.find (fun p => hash <=? p) l with
  | Some p => p ∈ l /\ hash <= p /\ forall q, q ∈ l -> hash <= q -> p <= q
  | None => forall q, q ∈ l -> q < hash
  end.
Proof.
  induction 1 as [|x l Hl IH Hx]; simpl; [by intros q ?%elem_of_nil|].
  destruct (Z.leb_spec hash x) as [Hle|Hgt].
  - split; [by constructor|]. split; [done|]. intros q [->|Hq]%elem_of_cons _; [done|].
    rewrite Forall_forall in Hx. specialize (Hx q Hq). lia.
  - destruct (List.find _ l) as [p|].
    + destruct IH as (Hp & Hhp & Hmin). split; [by constructor|]. split; [done|].
      intros q [->|Hq]%elem_of_cons Hle; [lia|by apply Hmin].
    + intros q [->|Hq]%elem_of_cons; [done|by apply IH].
Qed.

Lemma clockwise_spec r hash :
  u64_ring (ring r) -> u64 hash ->
  match clockwise r hash with
  | Some p => nearest (ring r) hash p
  | None => ring r = ∅
  end.
Proof.
  intros Hm Hh. unfold clockwise. pose proof (find_least hash (positions r) (sort_dedup_sorted _)) as Hf.
  assert (Hu : forall q, is_Some (ring r !! q) -> u64 q) by (intros q [h Hq]; by eapply Hm).
  destruct (List.find _ _) as [p|].
  - destruct Hf as (Hp & Hhp & Hmin). apply elem_of_positions in Hp. split; [done|]. intros q Hq.
    destruct (Z.le_gt_cases hash q) as [Hle|Hgt].
    + rewrite !distance_up by auto. specialize (Hmin q (proj2 (elem_of_positions r q) Hq) Hle). lia.
    + rewrite (distance_up hash p), (distance_wrap hash q) by auto. pose proof (Hu p Hp). pose proof (Hu q Hq).
      unfold fits in *. lia.
  - pose proof (sort_dedup_sorted (map_to_list (ring r)).*1) as Hs. fold (positions r) in Hs.
    destruct (positions r) as [|p l] eqn:Hpos; simpl.
    + apply map_empty. intros q. destruct (ring r !! q) as [h|] eqn:Hq; [|done].
      assert (Hin : q ∈ positions r) by (apply elem_of_positions; by exists h).
      rewrite Hpos in Hin. by apply elem_of_nil in Hin.
    + assert (Hin : forall q, is_Some (ring r !! q) <-> q ∈ p :: l) by (intros q; by rewrite <- Hpos, elem_of_positions).
      split; [apply Hin; by constructor|]. intros q Hq.
      assert (Hpq : p <= q).
      { apply Hin in Hq. apply StronglySorted_inv in Hs as [_ Hall]. rewrite Forall_forall in Hall.
        apply elem_of_cons in Hq as [->|Hq]; [done|]. specialize (Hall q Hq). lia. }
      pose proof (Hf q (proj1 (Hin q) Hq)). pose proof (Hf p ltac:(constructor)).
      rewrite !distance_wrap by (auto || apply Hu, Hin; by constructor). lia.
Qed.

(** ** Rings reached by adding and removing hosts *)

Inductive ring_op : Type :=
| AddHost (h : host)
| AddHostWithPoints (h : host) (n : nat)
| RemoveHost (h : host).

Definition ring_step (r : HashRing) (o : ring_op) : HashRing :=
  match o with
  | AddHost h => add_host r h
  | AddHostWithPoints h n => add_host_with_points r h n
  | RemoveHost h => (remove_host r h).1
  end.

(** Every virtual node on the ring is one of a host that is on it. *)
Definition ring_inv (r : HashRing) : Prop :=
  forall p h, ring r !! p = Some h -> exists n, hosts r !! h = Some n /\ p ∈ points h n.

Lemma insert_all_lookup (m : gmap Z host) h ps p :
  foldl (fun m p => <[p := h]> m) m ps !! p = if decide (p ∈ ps) then Some h else m !! p.
Proof.
  revert m. induction ps as [|q ps IH]; intros m; simpl; [done|]. rewrite IH.
  destruct (decide (p ∈ ps)) as [Hin|Hnin], (decide (p ∈ q :: ps)) as [Hin'|Hnin']; try done; [set_solver| |].
  - assert (p = q) as -> by set_solver. apply lookup_insert_eq.
  - apply lookup_insert_ne. set_solver.
Qed.

Lemma delete_all_lookup (m : gmap Z host) ps p :
  foldl (fun m p => delete p m) m ps !! p = if decide (p ∈ ps) then None else m !! p.
Proof.
  revert m. induction ps as [|q ps IH]; intros m; simpl; [done|]. rewrite IH.
  destruct (decide (p ∈ ps)) as [Hin|Hnin], (decide (p ∈ q :: ps)) as [Hin'|Hnin']; try done; [set_solver| |].
  - assert (p = q) as -> by set_solver. apply lookup_delete_eq.
  - apply lookup_delete_ne. set_solver.
Qed.

Lemma ring_add_inv r h n : ring_inv r -> ring_inv (add_host_with_points r h n).
Proof.
  intros Hr. unfold add_host_with_points. destruct (hosts r !! h) eqn:Hh; [done|]. intros p h'. simpl.
  rewrite insert_all_lookup. destruct (decide (p ∈ points h n)) as [Hp|Hp].
  - intros [= <-]. exists n. by rewrite lookup_insert_eq.
  - intros (n' & Hn' & Hp')%Hr. exists n'. rewrite lookup_insert_ne; [done|]. by intros ->; rewrite Hh in Hn'.
Qed.

Lemma ring_remove_inv r h : ring_inv r -> ring_inv (remove_host r h).1.
Proof.
  intros Hr. unfold remove_host. destruct (hosts r !! h) as [n|] eqn:Hh; [|done]. intros p h'. simpl.
  rewrite delete_all_lookup. destruct (decide (p ∈ points h n)) as [Hp|Hp]; [done|].
  intros (n' & Hn' & Hp')%Hr. exists n'. rewrite lookup_delete_ne; [done|]. intros ->. by simplify_eq.
Qed.

Lemma ring_run_inv replicas os : ring_inv (foldl ring_step (ring_new replicas) os).
Proof.
  assert (Hgen : forall r, ring_inv r -> ring_inv (foldl ring_step r os)).
  { induction os as [|o os IH]; intros r Hr; [done|]. apply IH.
    destruct o; [by apply ring_add_inv|by apply ring_add_inv|by apply ring_remove_inv]. }
  apply Hgen. intros p h. simpl. by rewrite lookup_empty.
Qed.

Lemma ring_inv_u64 r : ring_inv r -> u64_ring (ring r).
Proof.
  intros Hr p h (n & _ & Hp)%Hr. apply list_elem_of_fmap in Hp as (i & -> & _). apply virtual_node_u64.
Qed.

Lemma get_host_nearest r key p :
  ring_inv r -> nearest (ring r) (hash_key key) p -> get_host r key = ring r !! p.
Proof.
  intros Hr Hp. unfold get_host. pose proof (clockwise_spec r (hash_key key) (ring_inv_u64 r Hr) (hash_key_u64 key)) as Hc.
  destruct (clockwise r (hash_key key)) as [q|].
  - by rewrite (nearest_unique _ _ _ _ (ring_inv_u64 r Hr) (hash_key_u64 key) Hc Hp).
  - destruct Hp as [[h Hp] _]. by rewrite Hc, lookup_empty in Hp.
Qed.

Lemma get_host_cases r key :
  ring_inv r ->
  (ring r = ∅ /\ get_host r key = None) \/
  (exists p h, nearest (ring r) (hash_key key) p /\ ring r !! p = Some h /\ get_host r key = Some h).
Proof.
  intros Hr. pose proof (clockwise_spec r (hash_key key) (ring_inv_u64 r Hr) (hash_key_u64 key)) as Hc.
  unfold get_host. destruct (clockwise r (hash_key key)) as [p|]; [right|by left].
  destruct (proj1 Hc) as [h Hp]. by exists p, h.
Qed.

(** A key is only moved to the host that was added. *)
Lemma add_host_moves r h n key :
  ring_inv r ->
  get_host (add_host_with_points r h n) key = get_host r key \/ get_host (add_host_with_points r h n) key = Some h.
Proof.
  intros Hr. pose proof (ring_add_inv r h n Hr) as Hr'. destruct (get_host_cases _ key Hr') as [[He Hg]|(p & h' & Hp & Hv & Hg)];
    unfold add_host_with_points in *; destruct (hosts r !! h) eqn:Hh; try (by left); simpl in *.
  - left. rewrite Hg. destruct (get_host_cases r key Hr) as [[_ ->]|(p & h' & _ & Hv & _)]; [done|]. exfalso.
    assert (Hp : foldl (fun m p => <[p := h]> m) (ring r) (points h n) !! p = None) by by rewrite He, lookup_empty.
    rewrite insert_all_lookup in Hp. destruct (decide _); [done|congruence].
  - rewrite Hg. rewrite insert_all_lookup in Hv. destruct (decide (p ∈ points h n)); [right; congruence|left].
    rewrite (get_host_nearest r key p Hr); [done|]. destruct Hp as [_ Hmin]. split; [by exists h'|].
    intros q [x Hq]. apply Hmin. rewrite insert_all_lookup. by destruct (decide _); [|exists x].
Qed.

(** Removing a host whose virtual nodes are its own leaves the keys of the others. *)
Lemma remove_host_keeps r h n key :
  ring_inv r -> hosts r !! h = Some n -> (forall p, p ∈ points h n -> ring r !! p = Some h) ->
  get_host r key <> Some h -> get_host (remove_host r h).1 key = get_host r key.
Proof.
  intros Hr Hh Hown Hne. pose proof (ring_remove_inv r h Hr) as Hr'. unfold remove_host in *. rewrite Hh in *. simpl in *.
  assert (Hsub : forall q, is_Some (foldl (fun m p => delete p m) (ring r) (points h n) !! q) -> is_Some (ring r !! q)).
  { intros q. rewrite delete_all_lookup. destruct (decide _); [by intros [? ?]|done]. }
  destruct (get_host_cases r key Hr) as [[He Hg]|(p & h' & Hp & Hv & Hg)].
  - rewrite Hg. destruct (get_host_cases _ key Hr') as [[_ ->]|(p & h' & _ & Hv & _)]; [done|]. exfalso. simpl in Hv.
    destruct (Hsub p (mk_is_Some _ _ Hv)) as [x Hx]. by rewrite He, lookup_empty in Hx.
  - rewrite Hg in *. assert (Hnp : p ∉ points h n) by (intros Hin%Hown; congruence).
    assert (Hv' : foldl (fun m p => delete p m) (ring r) (points h n) !! p = Some h').
    { rewrite delete_all_lookup. by destruct (decide _). }
    rewrite (get_host_nearest _ key p Hr'); [done|]. simpl. split; [by exists h'|].
    intros q Hq. apply (proj2 Hp). by apply Hsub.
Qed.

(** Consistent hashing, over any run of additions and removals: a key is mapped to a host
    on the ring; adding a host moves keys to that host only; removing a host whose
    virtual nodes have not been overwritten moves only its own keys, and none stays. *)
Theorem ring_remaps_minimally (replicas : nat) (os : list ring_op) (key : Z) (h : host) :
  let r := foldl ring_step (ring_new replicas) os in
  (forall o, get_host r key = Some o -> is_Some (hosts r !! o)) /\
  (get_host (add_host r h) key = get_host r key \/ get_host (add_host r h) key = Some h) /\
  (forall n, hosts r !! h = Some n -> (forall p, p ∈ points h n -> ring r !! p = Some h) ->
     get_host (remove_host r h).1 key <> Some h /\
     (get_host r key <> Some h -> get_host (remove_host r h).1 key = get_host r key)).
Proof.
  intros r. pose proof (ring_run_inv replicas os) as Hr. fold r in Hr.
  assert (Hin : forall r', ring_inv r' -> forall o, get_host r' key = Some o -> is_Some (hosts r' !! o)).
  { intros r' Hr' o Ho. destruct (get_host_cases r' key Hr') as [[_ Hg]|(p & x & _ & Hv & Hg)]; [congruence|].
    destruct (Hr' p x Hv) as (n & Hn & _). rewrite Ho in Hg. injection Hg as ->. by exists n. }
  split; [by apply Hin|]. split; [by apply add_host_moves|]. intros n Hn Hown. split.
  - intros Ho. apply Hin in Ho; [|by apply ring_remove_inv]. unfold remove_host in Ho. rewrite Hn in Ho. simpl in Ho.
    rewrite lookup_delete_eq in Ho. by destruct Ho.
  - by apply (remove_host_keeps r h n).
Qed.

(** ** Rebalancing *)

Definition migrate_all (m : ShardManager) (plan : list (Z * host * host)) : ShardManager :=
  foldl (fun m mv => (migrate_shard m mv.1.1 mv.2).1) m plan.

Lemma migrate_all_ring m plan : hash_ring (migrate_all m plan) = hash_ring m.
Proof.
  revert m. induction plan as [|mv plan IH]; intros m; [done|]. cbn [migrate_all foldl]. unfold migrate_all in IH.
  rewrite IH. unfold migrate_shard. by destruct (shard_owners m !! mv.1.1).
Qed.

Lemma migrate_all_owners m plan s :
  (forall mv, mv ∈ plan -> get_host (hash_ring m) mv.1.1 = Some mv.2) ->
  shard_owners (migrate_all m plan) !! s =
  if decide (s ∈ map (fun mv => mv.1.1) plan) then
    match shard_owners m !! s with Some _ => get_host (hash_ring m) s | None => None end
  else shard_owners m !! s.
Proof.
  revert m. induction plan as [|mv plan IH]; intros m Hplan; [done|]. cbn [migrate_all foldl]. unfold migrate_all in IH.
  pose proof (migrate_all_ring m [mv]) as Hring. cbn [migrate_all foldl] in Hring. rewrite IH.
  2: { intros mv' Hmv'. rewrite Hring. apply Hplan. by constructor. }
  rewrite Hring. pose proof (Hplan mv ltac:(constructor)) as Hmv. cbn [map].
  assert (Hlook : shard_owners (migrate_shard m mv.1.1 mv.2).1 !! s =
    if decide (s = mv.1.1) then match shard_owners m !! s with Some _ => get_host (hash_ring m) s | None => None end
    else shard_owners m !! s).
  { unfold migrate_shard. destruct (decide (s = mv.1.1)) as [->|Hne].
    - destruct (shard_owners m !! mv.1.1) eqn:Ho; simpl; [by rewrite lookup_insert_eq|by rewrite Ho].
    - destruct (shard_owners m !! mv.1.1) eqn:Ho; simpl; [by rewrite lookup_insert_ne|done]. }
  rewrite Hlook. destruct (decide (s = mv.1.1)) as [->|Hne].
  - rewrite (decide_True _ _ (P := mv.1.1 ∈ mv.1.1 :: _)) by constructor. rewrite Hmv.
    destruct (decide _), (shard_owners m !! mv.1.1); done.
  - destruct (decide (s ∈ map (fun mv => mv.1.1) plan)) as [Hin|Hnin].
    + by rewrite decide_True by by constructor.
    + rewrite decide_False; [done|]. by intros [?|?]%elem_of_cons.
Qed.

(** A rebalance plan names exactly the assigned shards that are not on the host the ring
    gives them, with the right source and target, and carrying it out leaves nothing
    to rebalance. *)
Theorem rebalance_converges (m : ShardManager) (order order' : list Z)
    (Horder : order ≡ₚ (map_to_list (shard_owners m)).*1) :
  let plan := compute_rebalance_plan m order in
  (forall s a b, (s, a, b) ∈ plan <->
     shard_owners m !! s = Some a /\ get_host (hash_ring m) s = Some b /\ a <> b) /\
  compute_rebalance_plan (migrate_all m plan) order' = [].
Proof.
  intros plan.
  assert (Hplan : forall s a b, (s, a, b) ∈ plan <->
    shard_owners m !! s = Some a /\ get_host (hash_ring m) s = Some b /\ a <> b).
  { intros s a b. unfold plan, compute_rebalance_plan, compute_rebalance. rewrite list_elem_of_omap. split.
    - intros (x & _ & Hx). destruct (shard_owners m !! x) as [c|] eqn:Hc; [|done].
      destruct (get_host (hash_ring m) x) as [d|] eqn:Hd; [|done]. destruct (decide (d = c)); [done|].
      injection Hx as <- <- <-. split_and!; [done|done|congruence].
    - intros (Ha & Hb & Hne). exists s. rewrite Ha, Hb, decide_False by congruence. split; [|done].
      rewrite Horder. apply list_elem_of_fmap. exists (s, a). split; [done|]. by apply elem_of_map_to_list. }
  split; [done|]. unfold compute_rebalance_plan, compute_rebalance. rewrite migrate_all_ring.
  assert (Htarget : forall mv, mv ∈ plan -> get_host (hash_ring m) mv.1.1 = Some mv.2).
  { intros [[s a] b] Hmv. by apply Hplan in Hmv as (_ & ? & _). }
  induction order' as [|s order' IH]; [done|]. cbn [omap list_omap]. rewrite (migrate_all_owners m plan s Htarget).
  destruct (decide _) as [Hin|Hnin]; [destruct (shard_owners m !! s), (get_host (hash_ring m) s) as [b|];
    rewrite ?decide_True by done; exact IH|].
  destruct (shard_owners m !! s) as [a|] eqn:Ha; [|exact IH].
  destruct (get_host (hash_ring m) s) as [b|] eqn:Hb; [|exact IH]. destruct (decide (b = a)) as [_|Hne]; [exact IH|].
  exfalso. apply Hnin. apply list_elem_of_fmap. exists (s, a, b). split; [done|]. apply Hplan. split_and!; [done|done|congruence].
Qed.

(** ** Witnesses *)

Definition sample_ring : HashRing := foldl ring_step (ring_new 3) [AddHost [104; 49]; AddHost [104; 50]].
Definition sample_manager : ShardManager :=
  mkShardManager 16 (list_to_map [(1, [104; 49]); (2, [104; 50]); (3, [104; 51])]) sample_ring.

Lemma rebalance_converges_witness :
  let plan := compute_rebalance_plan sample_manager [1; 2; 3] in
  plan = [(2, [104; 50], [104; 49]); (3, [104; 51], [104; 49])] /\
  compute_rebalance_plan (migrate_all sample_manager plan) [3; 2; 1] = [].
Proof.
  intros plan. split; [vm_compute; reflexivity|].
  refine (proj2 (rebalance_converges sample_manager [1; 2; 3] [3; 2; 1] _)).
  replace ((map_to_list (shard_owners sample_manager)).*1) with [3; 2; 1] by (vm_compute; reflexivity).
  exact (Permutation_rev [1; 2; 3]).
Defined.

(** A removed host's points were its own in this ring: the condition of the removal holds. *)
Lemma sample_ring_points :
  forallb (fun p => bool_decide (ring sample_ring !! p = Some [104; 50])) (points [104; 50] 3) = true.
Proof. vm_compute. reflexivity. Qed.

End Sharding.
