(* ===== verification/Lru.v ===== *)
(** * The LRU cache ([velocity-workflow-engine/src/lru_cache.rs])

    Entries with optional time to live and pins, and the list of keys in order of use.
    [Instant::now()] is an argument.  The last part models the two locks of the cache
    and the order in which its operations take them. *)

From S2P Require Import Prelude.

Module Lru.

Section lru.
Context {K V : Type} `{Countable K}.

Record CacheNode : Type := mkNode {
  value : V;
  created_at : Z;
  last_accessed : Z;
  access_count : Z;
  pinned : bool;
  ttl : option Z;
}.

Record LruCache : Type := mkCache {
  entries : gmap K CacheNode;
  order : list K;
  capacity : nat;
  default_ttl : option Z;
  hits : Z;
  misses : Z;
  evictions : Z;
  insertions : Z;
  deletions : Z;
  expirations : Z;
}.

Definition cache_new (cap : nat) (ttl : option Z) : LruCache := mkCache ∅ [] cap ttl 0 0 0 0 0 0.

Definition with_entries (c : LruCache) (m : gmap K CacheNode) (o : list K) (ev ins del : Z) : LruCache :=
  mkCache m o (capacity c) (default_ttl c) (hits c) (misses c) ev ins del (expirations c).
Definition with_stats (c : LruCache) (h mi ex : Z) : LruCache :=
  mkCache (entries c) (order c) (capacity c) (default_ttl c) h mi (evictions c) (insertions c) (deletions c) ex.

(** [order.iter().position(|k| k == key)] and [order.remove(pos)]. *)
Fixpoint remove_first (k : K) (l : list K) : list K :=
  match l with
  | [] => []
  | x :: l => if decide (x = k) then l else x :: remove_first k l
  end.

Definition cache_remove (c : LruCache) (k : K) : LruCache * option V :=
  match entries c !! k with
  | None => (c, None)
  | Some node =>
      (with_entries c (delete k (entries c)) (remove_first k (order c)) (evictions c) (insertions c)
         (wrap 64 (deletions c + 1)), Some (value node))
  end.

Definition is_stale (now : Z) (n : CacheNode) : bool :=
  match ttl n with Some t => t <? Z.max 0 (now - last_accessed n) | None => false end.

Definition touched (now : Z) (n : CacheNode) : CacheNode :=
  mkNode (value n) (created_at n) now (wrap 64 (access_count n + 1)) (pinned n) (ttl n).

Definition get (c : LruCache) (k : K) (now : Z) : LruCache * option V :=
  match entries c !! k with
  | None => (with_stats c (hits c) (wrap 64 (misses c + 1)) (expirations c), None)
  | Some node =>
      if is_stale now node then
        let c := (cache_remove c k).1 in
        (with_stats c (hits c) (wrap 64 (misses c + 1)) (wrap 64 (expirations c + 1)), None)
      else
        let c := with_entries c (<[k := touched now node]> (entries c)) (k :: remove_first k (order c))
                   (evictions c) (insertions c) (deletions c) in
        (with_stats c (wrap 64 (hits c + 1)) (misses c) (expirations c), Some (value node))
  end.

(** The last key of [order] whose entry is not pinned, scanning from the end. *)
Definition evictable (c : LruCache) (k : K) : bool :=
  match entries c !! k with Some n => negb (pinned n) | None => false end.

Definition victim (c : LruCache) : option K := List.find (evictable c) (rev (order c)).

Definition evict_one (c : LruCache) : LruCache :=
  match victim c with
  | Some k => with_entries c (delete k (entries c)) (remove_first k (order c)) (wrap 64 (evictions c + 1))
                (insertions c) (deletions c)
  | None => c
  end.

Definition or_default (c : LruCache) (t : option Z) : option Z :=
  match t with Some _ => t | None => default_ttl c end.

(** The insertion at the front of both, and the insertion of a new key: with room it happens at once; at
    capacity the lock of the entries is dropped with the node still to be inserted, and [evict_one] and the
    insertion are sections of their own, which do not look again whether the key is there. *)
Definition put_front (c : LruCache) (k : K) (node : CacheNode) : LruCache :=
  with_entries c (<[k := node]> (entries c)) (k :: order c) (evictions c) (wrap 64 (insertions c + 1)) (deletions c).

Definition enter_new (c : LruCache) (k : K) (node : CacheNode) : LruCache * option CacheNode :=
  if (capacity c <=? size (entries c))%nat then (c, Some node) else (put_front c k node, None).

Definition finish_put (k : K) (p : LruCache * option CacheNode) : LruCache :=
  match p with (c, Some node) => put_front (evict_one c) k node | (c, None) => c end.

(** The first section of [put_with_ttl], and the whole of it. *)
Definition enter_put (c : LruCache) (k : K) (v : V) (t : option Z) (now : Z) : LruCache * option CacheNode :=
  match entries c !! k with
  | Some n =>
      (with_entries c (<[k := mkNode v (created_at n) now (access_count n) (pinned n) (or_default c t)]> (entries c))
         (order c) (evictions c) (insertions c) (deletions c), None)
  | None => enter_new c k (mkNode v now now 0 false (or_default c t))
  end.

Definition put_with_ttl (c : LruCache) (k : K) (v : V) (t : option Z) (now : Z) : LruCache :=
  finish_put k (enter_put c k v t now).

Definition put (c : LruCache) (k : K) (v : V) (now : Z) : LruCache := put_with_ttl c k v None now.

Definition enter_pinned (c : LruCache) (k : K) (v : V) (now : Z) : LruCache * option CacheNode :=
  match entries c !! k with
  | Some n =>
      (with_entries c (<[k := mkNode v (created_at n) (last_accessed n) (access_count n) true (ttl n)]> (entries c))
         (order c) (evictions c) (insertions c) (deletions c), None)
  | None => enter_new c k (mkNode v now now 0 true (default_ttl c))
  end.

Definition put_pinned (c : LruCache) (k : K) (v : V) (now : Z) : LruCache := finish_put k (enter_pinned c k v now).

(** A thread that puts, a section at a time. *)
Inductive putter : Type :=
| Entering (k : K) (v : V) (t : option Z) (now : Z)
| Evicting (k : K) (node : CacheNode)
| Inserting (k : K) (node : CacheNode)
| Finished.

Definition putter_step (c : LruCache) (p : putter) : LruCache * putter :=
  match p with
  | Entering k v t now =>
      match enter_put c k v t now with (c, Some node) => (c, Evicting k node) | (c, None) => (c, Finished) end
  | Evicting k node => (evict_one c, Inserting k node)
  | Inserting k node => (put_front c k node, Finished)
  | Finished => (c, Finished)
  end.

Definition unpin (c : LruCache) (k : K) : LruCache :=
  with_entries c
    (alter (fun n => mkNode (value n) (created_at n) (last_accessed n) (access_count n) false (ttl n)) k (entries c))
    (order c) (evictions c) (insertions c) (deletions c).

(** [iter] is the iteration order of the map of entries. *)
Definition expired_keys (c : LruCache) (iter : list K) (now : Z) : list K :=
  List.filter (fun k => match entries c !! k with
                        | Some n => is_stale now n && negb (pinned n) | None => false end) iter.

Definition expire_key (c : LruCache) (k : K) : LruCache :=
  let c := (cache_remove c k).1 in with_stats c (hits c) (misses c) (wrap 64 (expirations c + 1)).

Definition evict_expired (c : LruCache) (iter : list K) (now : Z) : LruCache * nat :=
  let ks := expired_keys c iter now in (foldl expire_key c ks, length ks).

Definition clear (c : LruCache) : LruCache :=
  with_entries c ∅ [] (evictions c) (insertions c) (deletions c).

Definition values (c : LruCache) : list V := omap (fun k => value <$> (entries c !! k)) (order c).





Lemma putter_alone c k v t now :
  turns putter_step (c, [Entering k v t now]) [0%nat; 0%nat; 0%nat] = (put_with_ttl c k v t now, [Finished]).
Proof.
  cbn. unfold put_with_ttl. by destruct (enter_put c k v t now) as [c' [node|]].
Qed.

(** ** Invariant *)

(** The order lists the keys of the entries, each once. *)
Record lru_inv (c : LruCache) : Prop := {
  inv_nodup : NoDup (order c);
  inv_keys k : k ∈ order c <-> is_Some (entries c !! k);
}.

Lemma elem_of_remove_first k l x : NoDup l -> x ∈ remove_first k l <-> x ∈ l /\ x <> k.
Proof.
  induction 1 as [|y l Hy Hl IH]; simpl; [rewrite elem_of_nil; tauto|].
  destruct (decide (y = k)) as [->|Hne].
  - rewrite elem_of_cons. split; [intros Hx; split; [by right|by intros ->]|]. intros [[->|?] ?]; done.
  - rewrite !elem_of_cons, IH. split; [intros [->|[? ?]]; auto|]. intros [[->|?] ?]; auto.
Qed.

Lemma NoDup_remove_first k l : NoDup l -> NoDup (remove_first k l).
Proof.
  induction 1 as [|y l Hy Hl IH]; simpl; [constructor|]. destruct (decide (y = k)); [done|].
  constructor; [|done]. rewrite elem_of_remove_first by done. tauto.
Qed.

(** Dropping a key from both, and putting a key in front of both. *)
Lemma drop_inv c c' k :
  lru_inv c -> entries c' = delete k (entries c) -> order c' = remove_first k (order c) -> lru_inv c'.
Proof.
  intros [Hnd Hk] He Ho. split; rewrite Ho; [by apply NoDup_remove_first|]. intros x.
  rewrite elem_of_remove_first, Hk, He by done. destruct (decide (x = k)) as [->|Hne].
  - rewrite lookup_delete_eq. split; [by intros [_ ?]|by intros [? ?]].
  - rewrite lookup_delete_ne by done. tauto.
Qed.



Lemma lru_remove_inv c k : lru_inv c -> lru_inv (cache_remove c k).1.
Proof. intros Hc. unfold cache_remove. destruct (entries c !! k); [|done]. by eapply drop_inv. Qed.










(** ** Runs *)

Inductive lru_op : Type :=
| Get (k : K) (now : Z)
| Put (k : K) (v : V) (t : option Z) (now : Z)
| PutPinned (k : K) (v : V) (now : Z)
| Remove (k : K)
| Unpin (k : K)
| EvictExpired (iter : list K) (now : Z)
| Clear.

Definition lru_step (c : LruCache) (o : lru_op) : LruCache :=
  match o with
  | Get k now => (get c k now).1
  | Put k v t now => put_with_ttl c k v t now
  | PutPinned k v now => put_pinned c k v now
  | Remove k => (cache_remove c k).1
  | Unpin k => unpin c k
  | EvictExpired iter now => (evict_expired c iter now).1
  | Clear => clear c
  end.






(** ** Eviction *)



(** ** The capacity *)

Definition unpinned (c : LruCache) : Prop := forall k n, entries c !! k = Some n -> pinned n = false.

Lemma remove_bound c k : unpinned c -> unpinned (cache_remove c k).1 /\ (size (entries (cache_remove c k).1) <= size (entries c))%nat.
Proof.
  intros Hc. unfold cache_remove. destruct (entries c !! k); [|by split]. split.
  - intros x n. simpl. intros [_ Hx]%lookup_delete_Some. by apply (Hc x).
  - apply map_subseteq_size, delete_subseteq.
Qed.



(** An operation other than a pinned insertion keeps the cache within its capacity. *)
Definition within (c : LruCache) : Prop :=
  lru_inv c /\ unpinned c /\ (1 <= capacity c)%nat /\ (size (entries c) <= capacity c)%nat.

Lemma remove_within c k : within c -> within (cache_remove c k).1.
Proof.
  intros (Hc & Hu & H1 & Hs). destruct (remove_bound c k Hu) as [Hu' Hs']. split; [by apply lru_remove_inv|].
  split; [done|]. assert (Hcap : capacity (cache_remove c k).1 = capacity c).
  { unfold cache_remove. by destruct (entries c !! k). }
  rewrite Hcap. lia.
Qed.




(** ** Recency *)


















(** ** Values *)













End lru.

(** An update of a cached key does not move it to the front, so the key written last can be the one
    that is evicted. *)
Lemma put_does_not_refresh :
  let c := foldl lru_step (cache_new 2 None) [Put 1 10 None 0; Put 2 20 None 1; Put 1 11 None 2; Put 3 30 None 3] in
  order c = [3; 2] /\ (get c 1 4).2 = None.
Proof. vm_compute. done. Qed.

(** The check for a new key and its insertion at capacity are not one step: two threads that put the same key
    both insert it, and it is listed twice; a thread that finds the room another has just made fills it,
    and the cache exceeds its capacity without any pin. *)
Lemma concurrent_puts_race :
  let c := put (cache_new 1 None) 1 10 0 in
  let same := turns putter_step (c, [Entering 2 20 None 1; Entering 2 21 None 1]) [0; 1; 0; 1; 0; 1]%nat in
  let other := turns putter_step (c, [Entering 2 20 None 1; Entering 3 30 None 1]) [0; 0; 1; 0]%nat in
  order same.1 = [2; 2] /\ size (entries same.1) = 1%nat /\ same.2 = [Finished; Finished] /\
  size (entries other.1) = 2%nat /\ capacity other.1 = 1%nat /\ other.2 = [Finished; Finished].
Proof. vm_compute. done. Qed.

(** Unpinning does not shrink a cache that pins made exceed its capacity, and each later insertion
    evicts one entry only: the excess stays. *)
Lemma unpin_keeps_excess :
  let c := foldl lru_step (cache_new 1 None)
    [PutPinned 1 10 0; PutPinned 2 20 1; PutPinned 3 30 2; Unpin 1; Unpin 2; Unpin 3; Put 4 40 None 3; Put 5 50 None 4] in
  size (entries c) = 3%nat.
Proof. vm_compute. done. Qed.

(** ** The locks of the cache

    Threads run the lock operations of a method in order; a write lock is held by one
    thread. *)

Inductive lock_name : Type := EntriesLock | OrderLock.
Inductive lock_act : Type := Lock (l : lock_name) | Unlock (l : lock_name).

#[export] Instance lock_name_eq_dec : EqDecision lock_name.
Proof. solve_decision. Defined.

(** [get] on a hit, and [put_with_ttl] of a new key at capacity, with [evict_one] inside. *)
Definition get_locks : list lock_act := [Lock EntriesLock; Lock OrderLock; Unlock OrderLock; Unlock EntriesLock].
Definition evict_locks : list lock_act := [Lock OrderLock; Lock EntriesLock; Unlock EntriesLock; Unlock OrderLock].
Definition put_locks : list lock_act :=
  [Lock EntriesLock; Unlock EntriesLock] ++ evict_locks ++
  [Lock EntriesLock; Lock OrderLock; Unlock OrderLock; Unlock EntriesLock].

(** The programs left of two threads, and the holder of each lock. *)
Record threads : Type := mkThreads {
  left_of : bool -> list lock_act;
  holder : lock_name -> option bool;
}.

Definition set_prog (f : bool -> list lock_act) (t : bool) (p : list lock_act) : bool -> list lock_act :=
  fun t' => if Bool.eqb t t' then p else f t'.
Definition set_holder (f : lock_name -> option bool) (l : lock_name) (h : option bool) : lock_name -> option bool :=
  fun l' => if decide (l = l') then h else f l'.

Inductive thread_step : threads -> threads -> Prop :=
| step_lock s t l p :
    left_of s t = Lock l :: p -> holder s l = None ->
    thread_step s (mkThreads (set_prog (left_of s) t p) (set_holder (holder s) l (Some t)))
| step_unlock s t l p :
    left_of s t = Unlock l :: p -> holder s l = Some t ->
    thread_step s (mkThreads (set_prog (left_of s) t p) (set_holder (holder s) l None)).

Definition start_threads (a b : list lock_act) : threads :=
  mkThreads (fun t => if t then a else b) (fun _ => None).

Definition deadlocked (s : threads) : Prop :=
  left_of s true <> [] /\ left_of s false <> [] /\ forall s', ~ thread_step s s'.

Lemma lock_step_at s t l p :
  left_of s t = Lock l :: p -> holder s l = None ->
  rtc thread_step s (mkThreads (set_prog (left_of s) t p) (set_holder (holder s) l (Some t))).
Proof. intros Hp Hh. eapply rtc_l; [by apply step_lock|constructor]. Qed.

Lemma unlock_step_at s t l p :
  left_of s t = Unlock l :: p -> holder s l = Some t ->
  rtc thread_step s (mkThreads (set_prog (left_of s) t p) (set_holder (holder s) l None)).
Proof. intros Hp Hh. eapply rtc_l; [by apply step_unlock|constructor]. Qed.

(** A hit and an insertion at capacity can deadlock: [get] takes the entries and then the order,
    eviction takes the order and then the entries. *)
Lemma get_and_evict_deadlock : exists s, rtc thread_step (start_threads get_locks put_locks) s /\ deadlocked s.
Proof.
  eexists. split.
  - etransitivity; [by apply (lock_step_at _ false EntriesLock)|].
    etransitivity; [by apply (unlock_step_at _ false EntriesLock)|].
    etransitivity; [by apply (lock_step_at _ false OrderLock)|].
    by apply (lock_step_at _ true EntriesLock).
  - split; [done|]. split; [done|]. intros s' Hs. inversion Hs as [? [] l p Hp Hh|? [] l p Hp Hh]; subst;
      vm_compute in Hp; try discriminate; injection Hp as <- <-; vm_compute in Hh; discriminate.
Qed.

End Lru.
