(* ===== verification/Nmcp.v ===== *)
(** * NMCP: frames and the shared-memory ring

    [velocity-nmcp-protocol]: the frame format of [frame.rs], and the ring of 64
    slots in a shared file through which the client of [shmem.rs] calls a server.
    Client and server are two programs whose steps, one file operation each,
    interleave in every order a schedule says; the router behind the server is a
    parameter.  The theorems: frames round trip, every call is dispatched exactly
    once and answered with its own response, and every fair schedule answers all
    calls. *)

From S2P Require Import Prelude.

(** ** Frames *)

Module Frame.

Definition NMCP_MAGIC : Z := 0x50434D4E.
Definition NMCP_HEADER_SIZE : nat := 16.

Record NmcpFrame : Type := mkFrame {
  frame_type : Z;
  sequence_id : Z;
  payload : bytes;
}.

Definition to_bytes (f : NmcpFrame) : bytes :=
  le_bytes 4 NMCP_MAGIC ++ le_bytes 4 (frame_type f) ++
  le_bytes 4 (wrap 32 (Z.of_nat (length (payload f)))) ++ le_bytes 4 (sequence_id f) ++ payload f.

Definition from_bytes (data : bytes) : option NmcpFrame :=
  if (length data <? NMCP_HEADER_SIZE)%nat then None
  else if negb (le_val (slice 0 4 data) =? NMCP_MAGIC) then None
  else
    let frame_type := le_val (slice 4 8 data) in
    let payload_len := le_val (slice 8 12 data) in
    let sequence_id := le_val (slice 12 16 data) in
    if Z.of_nat (length data) <? Z.of_nat NMCP_HEADER_SIZE + payload_len then None
    else Some (mkFrame frame_type sequence_id
                 (slice NMCP_HEADER_SIZE (NMCP_HEADER_SIZE + Z.to_nat payload_len) data)).

(** The values the fields of a frame can have, with a payload below 4 GiB. *)
Record frame_ok (f : NmcpFrame) : Prop := {
  ok_type : u32 (frame_type f);
  ok_seq : u32 (sequence_id f);
  ok_payload : is_bytes (payload f);
  ok_length : u32 (Z.of_nat (length (payload f)));
}.

Lemma to_bytes_length f : length (to_bytes f) = (16 + length (payload f))%nat.
Proof. unfold to_bytes. rewrite !length_app, !le_bytes_length. lia. Qed.

Lemma to_bytes_is_bytes f : is_bytes (payload f) -> is_bytes (to_bytes f).
Proof. intros. unfold to_bytes. repeat apply Forall_app_2; auto with velocity. Qed.

Lemma header_fields f rest :
  frame_ok f ->
  let d := to_bytes f ++ rest in
  le_val (slice 0 4 d) = NMCP_MAGIC /\ le_val (slice 4 8 d) = frame_type f /\
  le_val (slice 8 12 d) = Z.of_nat (length (payload f)) /\ le_val (slice 12 16 d) = sequence_id f /\
  forall n, slice 16 (16 + n) d = take n (payload f ++ rest).
Proof.
  intros [Ht Hs _ Hl]. unfold to_bytes. rewrite <- !app_assoc.
  rewrite wrap_id by done. split_and!; try intros n; read_fields.
  all: try (apply (le_val_le_bytes_fits 4 32); done).
  unfold slice. rewrite drop_0. f_equal. lia.
Qed.

Lemma from_to_bytes f rest : frame_ok f -> from_bytes (to_bytes f ++ rest) = Some f.
Proof.
  intros Hok. pose proof (header_fields f rest Hok) as (Hm & Ht & Hl & Hs & Hp).
  unfold from_bytes, NMCP_HEADER_SIZE. rewrite Hm, Ht, Hl, Hs, Hp, Z.eqb_refl, length_app, to_bytes_length.
  rewrite (proj2 (Nat.ltb_ge _ _)) by lia. cbn [negb]. rewrite (proj2 (Z.ltb_ge _ _)) by lia.
  rewrite Nat2Z.id, take_app_length. by destruct f.
Qed.

(** What remains of a frame cut short is not a frame. *)
Lemma from_bytes_truncated f n :
  frame_ok f -> (n < length (to_bytes f))%nat -> from_bytes (take n (to_bytes f)) = None.
Proof.
  intros Hok Hn. rewrite to_bytes_length in Hn. unfold from_bytes, NMCP_HEADER_SIZE.
  rewrite length_take, to_bytes_length. destruct (Nat.ltb_spec (n `min` (16 + length (payload f))) 16); [done|].
  destruct (negb _); [done|].
  assert (slice 8 12 (take n (to_bytes f)) = slice 8 12 (to_bytes f ++ [])) as ->.
  { apply list_eq. intros j. rewrite app_nil_r, !lookup_slice. case_decide; [|done].
    by rewrite lookup_take_lt by lia. }
  pose proof (header_fields f [] Hok) as (_ & _ & -> & _). by rewrite (proj2 (Z.ltb_lt _ _)) by lia.
Qed.

Lemma from_bytes_inv d f :
  is_bytes d -> from_bytes d = Some f -> frame_ok f /\ to_bytes f `prefix_of` d.
Proof.
  intros Hd. unfold from_bytes, NMCP_HEADER_SIZE.
  destruct (Nat.ltb_spec (length d) 16) as [|Hlen]; [done|].
  destruct (Z.eqb_spec (le_val (slice 0 4 d)) NMCP_MAGIC) as [Hm|]; [|done]. cbn [negb].
  assert (Hf : forall a b, (a <= b <= 16)%nat -> fits (8 * Z.of_nat (b - a)) (le_val (slice a b d)) /\
            le_bytes (b - a) (le_val (slice a b d)) = slice a b d).
  { intros a b Hab. assert (Hs : is_bytes (slice a b d)) by by apply slice_Forall.
    pose proof (slice_length a b d ltac:(lia)) as Hl. rewrite <- Hl. split; [by apply le_val_fits|].
    by apply le_bytes_le_val. }
  destruct (Z.ltb_spec (Z.of_nat (length d)) (Z.of_nat 16 + le_val (slice 8 12 d))) as [|Hpl]; [done|].
  intros Heq. apply (inj Some) in Heq. subst f.
  destruct (Hf 4 8 ltac:(lia))%nat as [H1 E1], (Hf 8 12 ltac:(lia))%nat as [H2 E2],
    (Hf 12 16 ltac:(lia))%nat as [H3 E3], (Hf 0 4 ltac:(lia))%nat as [_ E0].
  change (8 * Z.of_nat _) with 32 in H1, H2, H3. pose proof H2 as [H2a H2b].
  assert (Hpl' : length (slice 16 (16 + Z.to_nat (le_val (slice 8 12 d))) d) = Z.to_nat (le_val (slice 8 12 d))).
  { rewrite slice_length; lia. }
  split.
  - constructor; cbn [frame_type sequence_id payload]; [done|done|by apply slice_Forall|].
    rewrite Hpl', Z2Nat.id by lia. done.
  - unfold to_bytes. cbn [frame_type sequence_id payload]. rewrite Hpl', Z2Nat.id by lia.
    rewrite wrap_id by done. cbn [Nat.sub] in E0, E1, E2, E3. rewrite <- Hm, E0, E1, E2, E3.
    rewrite !slice_join by lia. unfold slice. rewrite drop_0. apply prefix_take.
Qed.

(** NMCP frames round trip: whatever follows an encoded frame, parsing returns the
    frame; a frame cut short anywhere is rejected; and what is parsed from any bytes is
    a frame whose encoding those bytes start with. *)
Theorem nmcp_frame_roundtrip (f : NmcpFrame) (rest d : bytes) (n : nat) (Hok : frame_ok f) (Hd : is_bytes d) :
  from_bytes (to_bytes f ++ rest) = Some f /\
  ((n < length (to_bytes f))%nat -> from_bytes (take n (to_bytes f)) = None) /\
  (forall g, from_bytes d = Some g -> frame_ok g /\ to_bytes g `prefix_of` d).
Proof. split_and!; eauto using from_to_bytes, from_bytes_truncated, from_bytes_inv. Qed.

Lemma nmcp_frame_roundtrip_witness :
  let f := mkFrame 50 42 [104; 101; 108; 108; 111] in
  from_bytes (to_bytes f ++ [7]) = Some f /\ from_bytes (take 20 (to_bytes f)) = None.
Proof.
  intros f.
  assert (Hok : frame_ok f) by (constructor; unfold fits; cbn; repeat constructor; lia).
  pose proof (nmcp_frame_roundtrip f [7] [] 20 Hok (Forall_nil_2 _)) as (H1 & H2 & _).
  split; [exact H1|]. apply H2. rewrite to_bytes_length. cbn. lia.
Defined.

End Frame.

(** ** The shared-memory ring *)

Module Shmem.
Import Frame.

Definition RING_SLOTS : Z := 64.
Definition SLOT_SIZE : Z := 4096.
Definition HEADER_SIZE : Z := 64.
Definition SHMEM_BUFFER_SIZE : Z := HEADER_SIZE + RING_SLOTS * SLOT_SIZE.
Definition MAX_REQ_PAYLOAD : Z := SLOT_SIZE - 13.
Definition MAX_RES_PAYLOAD : Z := SLOT_SIZE - 13.
Definition WRITE_IDX_OFFSET : Z := 0.
Definition READ_IDX_OFFSET : Z := 4.
Definition CAPACITY_OFFSET : Z := 8.
Definition SLOT_LEN_OFFSET : Z := 1.
Definition SLOT_SEQ_OFFSET : Z := 5.
Definition SLOT_PAYLOAD_OFFSET : Z := 13.
Definition SLOT_EMPTY : Z := 0.
Definition SLOT_REQ_READY : Z := 1.
Definition SLOT_PROCESSING : Z := 2.
Definition SLOT_RES_READY : Z := 3.
Definition SLOT_ERROR : Z := 4.

(** The strings of the error results. *)
Inductive ShmError : Type :=
| ReadFailed
| RequestTooLarge (len : Z)
| ServerError
| InvalidResponse.

(** *** The file

    The bytes of the shared file; one that was never written is zero.  A read
    that passes the end fails ([read_exact]), a write extends the file. *)
Record ShmemBuffer : Type := mkBuffer { cells : gmap Z Z; file_len : Z }.

Definition byte_at (f : ShmemBuffer) (i : Z) : Z := default 0 (cells f !! i).
Definition range (f : ShmemBuffer) (off len : Z) : bytes := map (byte_at f) (seqZ off len).

Fixpoint write_cells (m : gmap Z Z) (off : Z) (data : bytes) : gmap Z Z :=
  match data with
  | [] => m
  | b :: data => <[off := b]> (write_cells m (off + 1) data)
  end.

Definition open (f : ShmemBuffer) (size : Z) : ShmemBuffer :=
  if file_len f <? size then mkBuffer (cells f) size else f.

Definition read_bytes (f : ShmemBuffer) (off len : Z) : result bytes ShmError :=
  if (len =? 0) || (off + len <=? file_len f) then Ok (range f off len) else Err ReadFailed.

Definition write_bytes (f : ShmemBuffer) (off : Z) (data : bytes) : ShmemBuffer :=
  match data with
  | [] => f
  | _ => mkBuffer (write_cells (cells f) off data) (Z.max (file_len f) (off + Z.of_nat (length data)))
  end.

Definition read_byte (f : ShmemBuffer) (off : Z) : result Z ShmError :=
  let? b := read_bytes f off 1 in Ok (le_val b).
Definition read_u32 (f : ShmemBuffer) (off : Z) : result Z ShmError :=
  let? b := read_bytes f off 4 in Ok (le_val b).
Definition read_u64 (f : ShmemBuffer) (off : Z) : result Z ShmError :=
  let? b := read_bytes f off 8 in Ok (le_val b).
Definition write_byte (f : ShmemBuffer) (off b : Z) : ShmemBuffer := write_bytes f off [b].
Definition write_u32 (f : ShmemBuffer) (off x : Z) : ShmemBuffer := write_bytes f off (le_bytes 4 x).
Definition write_u64 (f : ShmemBuffer) (off x : Z) : ShmemBuffer := write_bytes f off (le_bytes 8 x).

Definition slot_offset (slot_idx : Z) : Z := HEADER_SIZE + slot_idx * SLOT_SIZE.

(** What [run] does before its loop: the header and the state of every slot. *)
Definition server_init (f : ShmemBuffer) : ShmemBuffer :=
  let f := open f SHMEM_BUFFER_SIZE in
  let f := write_u32 f CAPACITY_OFFSET RING_SLOTS in
  let f := write_u32 f WRITE_IDX_OFFSET 0 in
  foldl (fun f i => write_byte f (slot_offset i) SLOT_EMPTY) f (seqZ 0 RING_SLOTS).

(** *** Reading back what was written *)

Ltac offsets :=
  unfold slot_offset, SHMEM_BUFFER_SIZE, RING_SLOTS, SLOT_SIZE, HEADER_SIZE, MAX_REQ_PAYLOAD, MAX_RES_PAYLOAD,
    WRITE_IDX_OFFSET, READ_IDX_OFFSET, CAPACITY_OFFSET, SLOT_LEN_OFFSET, SLOT_SEQ_OFFSET, SLOT_PAYLOAD_OFFSET,
    SLOT_SIZE in *;
  rewrite ?le_bytes_length; cbn [length] in *; lia.

Lemma lookup_write_cells data : forall m off k,
  write_cells m off data !! k =
    if decide (off <= k < off + Z.of_nat (length data)) then data !! Z.to_nat (k - off) else m !! k.
Proof.
  induction data as [|b data IH]; intros m off k; cbn [write_cells length].
  - by rewrite decide_False by lia.
  - destruct (decide (off = k)) as [<-|Hk].
    + rewrite lookup_insert_eq, decide_True by lia. by rewrite Z.sub_diag.
    + rewrite lookup_insert_ne, IH by done. destruct (decide (off + 1 <= k < _)).
      * rewrite decide_True by lia. by replace (Z.to_nat (k - off)) with (S (Z.to_nat (k - (off + 1)))) by lia.
      * by rewrite decide_False by lia.
Qed.

Lemma byte_at_write f off data k :
  byte_at (write_bytes f off data) k =
    if decide (off <= k < off + Z.of_nat (length data)) then default 0 (data !! Z.to_nat (k - off)) else byte_at f k.
Proof.
  unfold byte_at, write_bytes. destruct data as [|b data]; cbn [cells].
  - by rewrite decide_False by (cbn; lia).
  - rewrite lookup_write_cells. by case_decide.
Qed.

Lemma range_out f off data off' len :
  off' + len <= off \/ off + Z.of_nat (length data) <= off' ->
  range (write_bytes f off data) off' len = range f off' len.
Proof.
  intros Hd. unfold range. apply map_ext_in. intros k Hk%list_elem_of_In%elem_of_seqZ.
  by rewrite byte_at_write, decide_False by lia.
Qed.

Lemma range_same f off data len : len = Z.of_nat (length data) -> range (write_bytes f off data) off len = data.
Proof.
  intros ->. unfold range. apply list_eq. intros i. rewrite list_lookup_fmap.
  destruct (decide (i < length data)%nat) as [Hi|Hi].
  - rewrite lookup_seqZ_lt by lia. cbn [fmap option_fmap option_map]. rewrite byte_at_write, decide_True by lia.
    replace (Z.to_nat _) with i by lia. by apply lookup_lt_is_Some in Hi as [x ->].
  - rewrite lookup_seqZ_ge by lia. cbn. symmetry. apply lookup_ge_None. lia.
Qed.

Lemma range_length f off len : 0 <= len -> Z.of_nat (length (range f off len)) = len.
Proof. intros. unfold range. rewrite length_map, length_seqZ. lia. Qed.

Lemma file_len_write f off data : file_len f <= file_len (write_bytes f off data).
Proof. unfold write_bytes. destruct data; cbn; lia. Qed.

Lemma open_range f size off len : range (open f size) off len = range f off len.
Proof. unfold open. by case_match. Qed.

Lemma read_bytes_ok f off len : off + len <= file_len f -> read_bytes f off len = Ok (range f off len).
Proof. intros. unfold read_bytes. rewrite (proj2 (Z.leb_le _ _)) by done. by rewrite orb_true_r. Qed.

(** *** The states of the slots *)

Definition state_of (f : ShmemBuffer) (j : Z) : Z := le_val (range f (slot_offset j) 1).
Definition write_idx (f : ShmemBuffer) : Z := le_val (range f WRITE_IDX_OFFSET 4).
Definition next (k : Z) : Z := (k + 1) mod RING_SLOTS.

(** The file has its full size, slot [k] is in state [st] and every other is empty. *)
Record ring_at (f : ShmemBuffer) (k st : Z) : Prop := {
  ring_slot : 0 <= k < RING_SLOTS;
  ring_size : SHMEM_BUFFER_SIZE <= file_len f;
  ring_states : forall j, 0 <= j < RING_SLOTS -> state_of f j = if j =? k then st else SLOT_EMPTY;
}.

(** Slot [k] carries the message [d]. *)
Definition carries (f : ShmemBuffer) (k : Z) (d : bytes) : Prop :=
  le_val (range f (slot_offset k + SLOT_LEN_OFFSET) 4) = Z.of_nat (length d) /\
  range f (slot_offset k + SLOT_PAYLOAD_OFFSET) (Z.of_nat (length d)) = d.

Lemma next_slot k : 0 <= next k < RING_SLOTS.
Proof. unfold next. by apply Z.mod_pos_bound. Qed.

Lemma next_ne k : 0 <= k < RING_SLOTS -> next k <> k.
Proof. unfold next, RING_SLOTS. intros. destruct (decide (k = 63)) as [->|]; [done|]. rewrite Z.mod_small; lia. Qed.

Lemma ring_sized f k st off data : ring_at f k st -> SHMEM_BUFFER_SIZE <= file_len (write_bytes f off data).
Proof. intros [_ H _]. pose proof (file_len_write f off data). lia. Qed.

Lemma state_of_write f j i b :
  u8 b -> state_of (write_byte f (slot_offset j) b) i = if j =? i then b else state_of f i.
Proof.
  intros Hb. unfold state_of, write_byte. destruct (Z.eqb_spec j i) as [->|Hne].
  - rewrite range_same by done. by rewrite le_val_singleton.
  - rewrite range_out by offsets. done.
Qed.

Lemma ring_set_state f k st b : ring_at f k st -> u8 b -> ring_at (write_byte f (slot_offset k) b) k b.
Proof.
  intros Hr Hb. constructor; [apply Hr|by eapply ring_sized|]. intros j Hj.
  rewrite state_of_write, (ring_states _ _ _ Hr j Hj), (Z.eqb_sym k j) by done. by case_match.
Qed.

(** Writes to the header, or behind the state byte of slot [k]. *)
Lemma ring_keep f k st off data :
  ring_at f k st ->
  0 <= off /\ off + Z.of_nat (length data) <= HEADER_SIZE \/
  slot_offset k + SLOT_LEN_OFFSET <= off /\ off + Z.of_nat (length data) <= slot_offset k + SLOT_SIZE ->
  ring_at (write_bytes f off data) k st.
Proof.
  intros Hr Hoff. constructor; [apply Hr|by eapply ring_sized|]. intros j Hj.
  rewrite <- (ring_states _ _ _ Hr j Hj). unfold state_of. f_equal. apply range_out.
  pose proof (ring_slot _ _ _ Hr). destruct (decide (j = k)) as [->|]; offsets.
Qed.

Lemma ring_empty_any f k k' : ring_at f k SLOT_EMPTY -> 0 <= k' < RING_SLOTS -> ring_at f k' SLOT_EMPTY.
Proof.
  intros Hr Hk. constructor; [done|apply Hr|]. intros j Hj. rewrite (ring_states _ _ _ Hr j Hj). by repeat case_match.
Qed.

Lemma ring_open f k st : ring_at f k st -> open f SHMEM_BUFFER_SIZE = f.
Proof. intros [_ H _]. unfold open. by rewrite (proj2 (Z.ltb_ge _ _)). Qed.

Lemma ring_read f k st off len :
  ring_at f k st -> off + len <= SHMEM_BUFFER_SIZE -> read_bytes f off len = Ok (range f off len).
Proof. intros [_ H _] Hoff. apply read_bytes_ok. lia. Qed.

Lemma empty_slots l : forall f,
  (forall j, 0 <= j -> j ∈ l \/ state_of f j = SLOT_EMPTY -> 
     state_of (foldl (fun f i => write_byte f (slot_offset i) SLOT_EMPTY) f l) j = SLOT_EMPTY) /\
  file_len f <= file_len (foldl (fun f i => write_byte f (slot_offset i) SLOT_EMPTY) f l) /\
  (Forall (fun i => 0 <= i) l ->
   write_idx (foldl (fun f i => write_byte f (slot_offset i) SLOT_EMPTY) f l) = write_idx f).
Proof.
  induction l as [|i l IH]; intros f; cbn [foldl].
  - split_and!; [|lia|done]. intros j _ [Hj%not_elem_of_nil|]; done.
  - destruct (IH (write_byte f (slot_offset i) SLOT_EMPTY)) as (IH1 & IH2 & IH3). split_and!.
    + intros j Hj Hor. apply IH1; [done|]. rewrite state_of_write by (unfold fits, SLOT_EMPTY; lia).
      rewrite elem_of_cons in Hor. destruct (Z.eqb_spec i j) as [|Hne]; [by right|].
      destruct Hor as [[?|?]|?]; [congruence|by left|by right].
    + etrans; [apply (file_len_write f (slot_offset i) [SLOT_EMPTY])|apply IH2].
    + intros [Hi Hl]%Forall_cons. rewrite IH3 by done. unfold write_idx, write_byte.
      by rewrite range_out by offsets.
Qed.

Lemma server_init_ring f : ring_at (server_init f) 0 SLOT_EMPTY /\ write_idx (server_init f) = 0.
Proof.
  unfold server_init. set (g := write_u32 _ WRITE_IDX_OFFSET 0).
  destruct (empty_slots (seqZ 0 RING_SLOTS) g) as (H1 & H2 & H3). split.
  - constructor; [done| |].
    + etrans; [|apply H2]. subst g. unfold write_u32. etrans; [|apply file_len_write].
      etrans; [|apply file_len_write]. unfold open. destruct (Z.ltb_spec (file_len f) SHMEM_BUFFER_SIZE); cbn; lia.
    + intros j Hj. rewrite H1; [by case_match|lia|]. left. apply elem_of_seqZ. lia.
  - rewrite H3 by (apply Forall_forall; intros i Hi%elem_of_seqZ; lia). subst g. unfold write_idx, write_u32.
    rewrite range_same by done. by vm_compute.
Qed.

(** *** The two programs

    A program counter names the file operation that comes next, with the local
    variables that are live there. *)

Inductive server_pc : Type :=
| SWait
| SMark
| SReadSeq
| SReadLen (seq : Z)
| SReadPayload (seq len : Z)
| SDispatch (seq : Z) (req : bytes)
| SWriteLen (seq : Z) (resp : bytes)
| SWriteBytes (seq : Z) (resp : bytes)
| SWriteSeq (seq : Z)
| SWriteReady
| SConsume
| SAdvance
| SError
| SDone.

Inductive client_pc : Type :=
| CIdle
| COpen (seq : Z) (req : bytes)
| CReadIdx (seq : Z) (req : bytes)
| CWaitEmpty (seq : Z) (req : bytes) (idx i : Z)
| CWriteSeq (seq : Z) (req : bytes) (idx : Z)
| CWriteBytes (req : bytes) (idx : Z)
| CWriteLen (req : bytes) (idx : Z)
| CWriteReady (idx : Z)
| CWriteIdx (idx : Z)
| CWaitRes (idx i : Z)
| CReadLen (idx : Z)
| CReadData (idx len : Z)
| CMarkEmpty (idx : Z) (data : bytes).

(** What can happen next: a step of a program, or the server is told to stop. *)
Inductive action : Type := Server | Client | Shutdown.

#[export] Instance action_eq_dec : EqDecision action.
Proof. solve_decision. Defined.

Section ring.
(** The router behind the server, which [NmcpDispatch] leaves open, and the JSON
    body of an error response ([serde_json]). *)
Context {R : Type} (dispatch : R -> NmcpFrame -> R * NmcpFrame) (json_error : Z -> string -> bytes).

Definition error_response (seq status : Z) (message : string) : NmcpFrame :=
  mkFrame 0 seq (json_error status message).

(** The file, the server with its flag, and a client with the calls it has still
    to make and the results of those it made. *)
Record system : Type := mkSystem {
  file : ShmemBuffer;
  spc : server_pc;
  read_idx : Z;
  router : R;
  running : bool;
  cpc : client_pc;
  next_seq : Z;
  todo : list (Z * bytes);
  results : list (result NmcpFrame ShmError);
}.

Definition at_server (s : system) (f : ShmemBuffer) (pc : server_pc) : system :=
  mkSystem f pc (read_idx s) (router s) (running s) (cpc s) (next_seq s) (todo s) (results s).
Definition at_client (s : system) (f : ShmemBuffer) (pc : client_pc) : system :=
  mkSystem f (spc s) (read_idx s) (router s) (running s) pc (next_seq s) (todo s) (results s).
Definition finish (s : system) (r : result NmcpFrame ShmError) : system :=
  mkSystem (file s) (spc s) (read_idx s) (router s) (running s) CIdle (next_seq s) (todo s) (results s ++ [r]).

Definition slot_state (s : system) (idx : Z) : result Z ShmError := read_byte (file s) (slot_offset idx).
Definition is_state (r : result Z ShmError) (b : Z) : bool :=
  match r with Ok x => x =? b | Err _ => false end.

(** [NmcpShmemServer::run]. *)
Definition server_step (s : system) : system :=
  let f := file s in
  let base := slot_offset (read_idx s) in
  match spc s with
  | SWait =>
      if running s then if is_state (slot_state s (read_idx s)) SLOT_REQ_READY then at_server s f SMark else s
      else at_server s f SDone
  | SMark =>
      if running s then at_server s (write_byte f base SLOT_PROCESSING) SReadSeq else at_server s f SDone
  | SReadSeq =>
      at_server s f (SReadLen match read_u64 f (base + SLOT_SEQ_OFFSET) with Ok seq => seq | Err _ => 0 end)
  | SReadLen seq =>
      match read_u32 f (base + SLOT_LEN_OFFSET) with
      | Err _ => at_server s f SError
      | Ok len => at_server s f (if MAX_REQ_PAYLOAD <? len then SError else SReadPayload seq len)
      end
  | SReadPayload seq len =>
      match read_bytes f (base + SLOT_PAYLOAD_OFFSET) len with
      | Err _ => at_server s f SError
      | Ok data => at_server s f (SDispatch seq data)
      end
  | SDispatch seq data =>
      let '(r, response) :=
        match from_bytes data with
        | Some frame => dispatch (router s) frame
        | None => (router s, error_response (wrap 32 seq) 400 "invalid NMCP frame")
        end in
      mkSystem f (SWriteLen seq (to_bytes response)) (read_idx s) r (running s) (cpc s) (next_seq s) (todo s) (results s)
  | SWriteLen seq resp =>
      at_server s (write_u32 f (base + SLOT_LEN_OFFSET) (Z.min (Z.of_nat (length resp)) MAX_RES_PAYLOAD))
        (SWriteBytes seq resp)
  | SWriteBytes seq resp =>
      at_server s (write_bytes f (base + SLOT_PAYLOAD_OFFSET) (take (Z.to_nat MAX_RES_PAYLOAD) resp)) (SWriteSeq seq)
  | SWriteSeq seq => at_server s (write_u64 f (base + SLOT_SEQ_OFFSET) seq) SWriteReady
  | SWriteReady => at_server s (write_byte f base SLOT_RES_READY) SConsume
  | SConsume =>
      if running s then if is_state (slot_state s (read_idx s)) SLOT_EMPTY then at_server s f SAdvance else s
      else at_server s f SAdvance
  | SError => at_server s (write_byte f base SLOT_ERROR) SAdvance
  | SAdvance =>
      let idx := (read_idx s + 1) mod RING_SLOTS in
      mkSystem (write_u32 f READ_IDX_OFFSET idx) SWait idx (router s) (running s) (cpc s) (next_seq s) (todo s)
        (results s)
  | SDone => s
  end.

(** The iterations of the two wait loops of [call]. *)
Definition POLLS : Z := 100000.

(** [NmcpShmemClient::call], once for every entry of [todo]. *)
Definition client_step (s : system) : system :=
  let f := file s in
  match cpc s with
  | CIdle =>
      match todo s with
      | [] => s
      | (frame_type, payload) :: rest =>
          let seq := next_seq s in
          let req := to_bytes (mkFrame frame_type seq payload) in
          let s := mkSystem f (spc s) (read_idx s) (router s) (running s) (COpen seq req) (wrap 32 (seq + 1)) rest
                     (results s) in
          if MAX_REQ_PAYLOAD <? Z.of_nat (length req) then finish s (Err (RequestTooLarge (Z.of_nat (length req))))
          else s
      end
  | COpen seq req => at_client s (open f SHMEM_BUFFER_SIZE) (CReadIdx seq req)
  | CReadIdx seq req =>
      match read_u32 f WRITE_IDX_OFFSET with
      | Err e => finish s (Err e)
      | Ok idx => at_client s f (CWaitEmpty seq req idx 0)
      end
  | CWaitEmpty seq req idx i =>
      match slot_state s idx with
      | Err e => finish s (Err e)
      | Ok st =>
          at_client s f (if (st =? SLOT_EMPTY) || negb (i + 1 <? POLLS) then CWriteSeq seq req idx
                         else CWaitEmpty seq req idx (i + 1))
      end
  | CWriteSeq seq req idx =>
      at_client s (write_u64 f (slot_offset idx + SLOT_SEQ_OFFSET) seq) (CWriteBytes req idx)
  | CWriteBytes req idx =>
      at_client s (write_bytes f (slot_offset idx + SLOT_PAYLOAD_OFFSET) req) (CWriteLen req idx)
  | CWriteLen req idx =>
      at_client s (write_u32 f (slot_offset idx + SLOT_LEN_OFFSET) (Z.of_nat (length req))) (CWriteReady idx)
  | CWriteReady idx => at_client s (write_byte f (slot_offset idx) SLOT_REQ_READY) (CWriteIdx idx)
  | CWriteIdx idx => at_client s (write_u32 f WRITE_IDX_OFFSET (wrap 32 (idx + 1) mod RING_SLOTS)) (CWaitRes idx 0)
  | CWaitRes idx i =>
      match slot_state s idx with
      | Err e => finish s (Err e)
      | Ok st =>
          if st =? SLOT_RES_READY then at_client s f (CReadLen idx)
          else if st =? SLOT_ERROR then finish s (Err ServerError)
          else at_client s f (if i + 1 <? POLLS then CWaitRes idx (i + 1) else CReadLen idx)
      end
  | CReadLen idx =>
      match read_u32 f (slot_offset idx + SLOT_LEN_OFFSET) with
      | Err e => finish s (Err e)
      | Ok len => at_client s f (CReadData idx len)
      end
  | CReadData idx len =>
      match read_bytes f (slot_offset idx + SLOT_PAYLOAD_OFFSET) len with
      | Err e => finish s (Err e)
      | Ok data => at_client s f (CMarkEmpty idx data)
      end
  | CMarkEmpty idx data =>
      finish (at_client s (write_byte f (slot_offset idx) SLOT_EMPTY) CIdle)
        match from_bytes data with Some frame => Ok frame | None => Err InvalidResponse end
  end.

Definition step (s : system) (a : action) : system :=
  match a with
  | Server => server_step s
  | Client => client_step s
  | Shutdown => mkSystem (file s) (spc s) (read_idx s) (router s) false (cpc s) (next_seq s) (todo s) (results s)
  end.

(** A server that has just started on a file of any content, and a new client. *)
Definition start (f : ShmemBuffer) (r : R) (calls : list (Z * bytes)) : system :=
  mkSystem (server_init f) SWait 0 r true CIdle 1 calls [].


(** *** Remote calls

    What the ring implements: calls that are dispatched one after the other, the
    requests numbered from 1. *)
Record rpc : Type := mkRpc {
  rpc_router : R;
  rpc_seq : Z;
  rpc_results : list (result NmcpFrame ShmError);
}.

Definition MAX_BODY : Z := MAX_REQ_PAYLOAD - 16.

Definition rpc_call (a : rpc) (call : Z * bytes) : rpc :=
  let len := Z.of_nat (length call.2) in
  let seq := wrap 32 (rpc_seq a + 1) in
  if MAX_BODY <? len then mkRpc (rpc_router a) seq (rpc_results a ++ [Err (RequestTooLarge (16 + len))])
  else
    let '(r, response) := dispatch (rpc_router a) (mkFrame call.1 (rpc_seq a) call.2) in
    mkRpc r seq (rpc_results a ++
      [if MAX_BODY <? Z.of_nat (length (payload response)) then Err InvalidResponse else Ok response]).

Definition rpc_run (r : R) (calls : list (Z * bytes)) : rpc := foldl rpc_call (mkRpc r 1 []) calls.

(** A wait loop of the client runs out of iterations. *)
Definition times_out (s : system) (a : action) : bool :=
  match a, cpc s with
  | Client, CWaitEmpty _ _ idx i =>
      (POLLS <=? i + 1) && negb (is_state (slot_state s idx) SLOT_EMPTY)
  | Client, CWaitRes idx i =>
      (POLLS <=? i + 1) && negb (is_state (slot_state s idx) SLOT_RES_READY)
  | _, _ => false
  end.

Fixpoint timely (s : system) (l : list action) : bool :=
  match l with
  | [] => true
  | a :: l => negb (times_out s a) && timely (step s a) l
  end.

(** *** The invariant *)

Definition call_ok (call : Z * bytes) : Prop := u32 call.1 /\ is_bytes call.2.

(** The server is about to serve slot [k], or has stopped. *)
Inductive serves_next (s : system) (k : Z) : Prop :=
| next_waits : spc s = SWait -> read_idx s = k -> serves_next s k
| next_after : spc s = SConsume \/ spc s = SAdvance -> 0 <= read_idx s < RING_SLOTS -> next (read_idx s) = k ->
    serves_next s k
| next_never : spc s = SDone -> serves_next s k.

(** The client is writing the request [req] to slot [k]. *)
Inductive posting (f : ShmemBuffer) (req : bytes) (k : Z) : client_pc -> Prop :=
| post_open seq : posting f req k (COpen seq req)
| post_idx seq : posting f req k (CReadIdx seq req)
| post_wait seq i : posting f req k (CWaitEmpty seq req k i)
| post_seq seq : posting f req k (CWriteSeq seq req k)
| post_bytes : posting f req k (CWriteBytes req k)
| post_len : range f (slot_offset k + SLOT_PAYLOAD_OFFSET) (Z.of_nat (length req)) = req ->
    posting f req k (CWriteLen req k)
| post_ready : carries f k req -> posting f req k (CWriteReady k).

(** It has posted the request and waits for the response. *)
Inductive awaiting (f : ShmemBuffer) (k : Z) : client_pc -> Prop :=
| await_idx : write_idx f = k -> awaiting f k (CWriteIdx k)
| await_res i : write_idx f = next k -> awaiting f k (CWaitRes k i).

(** It reads the response [resp]. *)
Inductive receiving (f : ShmemBuffer) (resp : bytes) (k : Z) : client_pc -> Prop :=
| receive_wait pc : awaiting f k pc -> receiving f resp k pc
| receive_len : write_idx f = next k -> receiving f resp k (CReadLen k)
| receive_data : write_idx f = next k -> receiving f resp k (CReadData k (Z.of_nat (length resp)))
| receive_mark : write_idx f = next k -> receiving f resp k (CMarkEmpty k resp).

(** The server reads the request, *)
Inductive serving (f : ShmemBuffer) (req : bytes) (k : Z) : server_pc -> Prop :=
| serve_seq : serving f req k SReadSeq
| serve_len seq : serving f req k (SReadLen seq)
| serve_payload seq : serving f req k (SReadPayload seq (Z.of_nat (length req)))
| serve_dispatch seq : serving f req k (SDispatch seq req).

Definition fit (resp : bytes) : bytes := take (Z.to_nat MAX_RES_PAYLOAD) resp.

(** writes the response, *)
Inductive answering (f : ShmemBuffer) (resp : bytes) (k : Z) : server_pc -> Prop :=
| answer_len seq : answering f resp k (SWriteLen seq resp)
| answer_bytes seq : le_val (range f (slot_offset k + SLOT_LEN_OFFSET) 4) = Z.of_nat (length (fit resp)) ->
    answering f resp k (SWriteBytes seq resp)
| answer_seq seq : carries f k (fit resp) -> answering f resp k (SWriteSeq seq)
| answer_ready : carries f k (fit resp) -> answering f resp k SWriteReady.

(** and waits until it is consumed, unless it is shut down. *)
Inductive answered (s : system) (k : Z) : Prop :=
| answered_consume : spc s = SConsume -> read_idx s = k -> answered s k
| answered_advance : running s = false -> spc s = SAdvance -> read_idx s = k -> answered s k
| answered_wait : running s = false -> spc s = SWait -> read_idx s = next k -> answered s k
| answered_done : spc s = SDone -> answered s k.

(** The request of a call in flight, the client between its first and last step. *)
Record in_flight (a : rpc) (s : system) (call : Z * bytes) : Prop := {
  flight_seq : next_seq s = wrap 32 (rpc_seq a + 1);
  flight_ok : call_ok call;
  flight_fits : Z.of_nat (length call.2) <= MAX_BODY;
}.

Definition request (a : rpc) (call : Z * bytes) : NmcpFrame := mkFrame call.1 (rpc_seq a) call.2.

(** The calls before [pending] have the results and the router of [a]; the first
    of [pending] may be in flight. *)
Inductive inv (a : rpc) (pending : list (Z * bytes)) (s : system) : Prop :=
| inv_idle k : ring_at (file s) k SLOT_EMPTY -> write_idx (file s) = k -> serves_next s k ->
    cpc s = CIdle -> next_seq s = rpc_seq a -> router s = rpc_router a -> pending = todo s -> inv a pending s
| inv_posting call k : ring_at (file s) k SLOT_EMPTY -> write_idx (file s) = k -> serves_next s k ->
    in_flight a s call -> posting (file s) (to_bytes (request a call)) k (cpc s) ->
    router s = rpc_router a -> pending = call :: todo s -> inv a pending s
| inv_posted call k : ring_at (file s) k SLOT_REQ_READY -> in_flight a s call -> awaiting (file s) k (cpc s) ->
    carries (file s) k (to_bytes (request a call)) -> serves_next s k \/ spc s = SMark /\ read_idx s = k ->
    router s = rpc_router a -> pending = call :: todo s -> inv a pending s
| inv_serving call k : ring_at (file s) k SLOT_PROCESSING -> in_flight a s call -> awaiting (file s) k (cpc s) ->
    carries (file s) k (to_bytes (request a call)) -> read_idx s = k ->
    serving (file s) (to_bytes (request a call)) k (spc s) ->
    router s = rpc_router a -> pending = call :: todo s -> inv a pending s
| inv_answering call k r response : ring_at (file s) k SLOT_PROCESSING -> in_flight a s call ->
    awaiting (file s) k (cpc s) -> read_idx s = k -> dispatch (rpc_router a) (request a call) = (r, response) ->
    answering (file s) (to_bytes response) k (spc s) -> router s = r -> pending = call :: todo s -> inv a pending s
| inv_answered call k r response : ring_at (file s) k SLOT_RES_READY -> in_flight a s call ->
    carries (file s) k (fit (to_bytes response)) -> dispatch (rpc_router a) (request a call) = (r, response) ->
    receiving (file s) (fit (to_bytes response)) k (cpc s) -> answered s k -> router s = r ->
    pending = call :: todo s -> inv a pending s.

(** The steps each program has left, for the proof that calls complete. *)
Definition client_work (pc : client_pc) : nat :=
  match pc with
  | CIdle => 0 | COpen _ _ => 12 | CReadIdx _ _ => 11 | CWaitEmpty _ _ _ _ => 10 | CWriteSeq _ _ _ => 9
  | CWriteBytes _ _ => 8 | CWriteLen _ _ => 7 | CWriteReady _ => 6 | CWriteIdx _ => 5 | CWaitRes _ _ => 4
  | CReadLen _ => 3 | CReadData _ _ => 2 | CMarkEmpty _ _ => 1
  end.

Definition server_work (pc : server_pc) : nat :=
  match pc with
  | SWait | SDone => 0 | SMark => 11 | SReadSeq => 10 | SReadLen _ => 9 | SReadPayload _ _ => 8
  | SDispatch _ _ => 7 | SWriteLen _ _ => 6 | SWriteBytes _ _ => 5 | SWriteSeq _ => 4 | SWriteReady => 3
  | SConsume | SError => 2 | SAdvance => 1
  end.

(** *** Frames of the invariant *)

(** The files agree on slot [k] behind its state byte. *)
Definition same_slot (f f' : ShmemBuffer) (k : Z) : Prop :=
  forall off len, slot_offset k + SLOT_LEN_OFFSET <= off -> off + len <= slot_offset k + SLOT_SIZE ->
    range f' off len = range f off len.

Lemma same_slot_write f k off data :
  off + Z.of_nat (length data) <= slot_offset k + SLOT_LEN_OFFSET \/ slot_offset k + SLOT_SIZE <= off ->
  same_slot f (write_bytes f off data) k.
Proof. intros Hoff off' len H1 H2. apply range_out. lia. Qed.

Lemma write_idx_write f off data : 4 <= off -> write_idx (write_bytes f off data) = write_idx f.
Proof. intros. unfold write_idx. by rewrite range_out by offsets. Qed.

Lemma carries_same f f' k d :
  same_slot f f' k -> Z.of_nat (length d) <= MAX_REQ_PAYLOAD -> carries f k d -> carries f' k d.
Proof. intros Hs Hd [H1 H2]. split; rewrite Hs by offsets; done. Qed.

Lemma posting_same f f' req k pc :
  same_slot f f' k -> Z.of_nat (length req) <= MAX_REQ_PAYLOAD -> posting f req k pc -> posting f' req k pc.
Proof.
  intros Hs Hd [ | | | | |H|H]; constructor; [rewrite Hs by offsets; done|]. by eapply carries_same.
Qed.

Lemma awaiting_same f f' k pc : write_idx f' = write_idx f -> awaiting f k pc -> awaiting f' k pc.
Proof. intros Hw [H|i H]; constructor; congruence. Qed.

Lemma receiving_same f f' resp k pc : write_idx f' = write_idx f -> receiving f resp k pc -> receiving f' resp k pc.
Proof.
  intros Hw [pc' H|H|H|H]; [constructor; by eapply awaiting_same|..]; constructor; congruence.
Qed.

Lemma answering_same f f' resp k pc : same_slot f f' k -> answering f resp k pc -> answering f' resp k pc.
Proof.
  assert (Z.of_nat (length (fit resp)) <= MAX_REQ_PAYLOAD).
  { unfold fit. rewrite length_take. unfold MAX_RES_PAYLOAD, MAX_REQ_PAYLOAD. offsets. }
  intros Hs [seq|seq H1|seq H1|H1]; constructor; [rewrite Hs by offsets; done|..]; by eapply carries_same.
Qed.

Lemma request_fits a s call : in_flight a s call -> Z.of_nat (length (to_bytes (request a call))) <= MAX_REQ_PAYLOAD.
Proof. intros [_ _ H]. rewrite to_bytes_length. unfold request, MAX_BODY in *. cbn. lia. Qed.

Lemma request_ok a s call : u32 (rpc_seq a) -> in_flight a s call -> frame_ok (request a call).
Proof.
  intros Hs [_ [H1 H2] H3]. constructor; cbn; try done. unfold fits, MAX_BODY, MAX_REQ_PAYLOAD, SLOT_SIZE in *. lia.
Qed.

(** The state byte as the programs read it. *)
Lemma slot_state_ring s k st j :
  ring_at (file s) k st -> 0 <= j < RING_SLOTS -> slot_state s j = Ok (if j =? k then st else SLOT_EMPTY).
Proof.
  intros Hr Hj. unfold slot_state, read_byte. rewrite (ring_read _ _ _ _ _ Hr) by offsets. cbn [result_bind].
  f_equal. by rewrite <- (ring_states _ _ _ Hr j Hj).
Qed.

(** *** Steps of the server *)

(** What a server between two requests changes: nothing, or its index in the header. *)
Lemma read_idx_frame f k st idx :
  ring_at f k st ->
  let f' := write_u32 f READ_IDX_OFFSET idx in
  ring_at f' k st /\ same_slot f f' k /\ write_idx f' = write_idx f.
Proof.
  intros Hr f'. pose proof (ring_slot _ _ _ Hr). split_and!.
  - apply ring_keep; [done|]. left. offsets.
  - apply same_slot_write. left. offsets.
  - apply write_idx_write. offsets.
Qed.

Lemma same_slot_refl f k : same_slot f f k.
Proof. by intros off len _ _. Qed.

(** A server step that moves the server only. *)
Definition server_moves (s s' : system) (k st : Z) : Prop :=
  s' = mkSystem (file s') (spc s') (read_idx s') (router s) (running s) (cpc s) (next_seq s) (todo s) (results s) /\
  ring_at (file s') k st /\ same_slot (file s) (file s') k /\ write_idx (file s') = write_idx (file s).

Lemma next_step s k st :
  ring_at (file s) k st -> serves_next s k ->
  server_moves s (server_step s) k st /\
  (serves_next (server_step s) k \/ st = SLOT_REQ_READY /\ spc (server_step s) = SMark /\ read_idx (server_step s) = k).
Proof.
  intros Hr Hn. assert (Hself : server_moves s s k st) by (unfold server_moves; destruct s; split_and!; done).
  assert (Hat : forall pc, server_moves s (at_server s (file s) pc) k st)
    by (intros pc; unfold server_moves; destruct s; split_and!; done).
  pose proof (ring_slot _ _ _ Hr) as Hk. destruct Hn as [Hpc Hidx|[Hpc|Hpc] Hidx Hnext|Hpc]; unfold server_step; rewrite Hpc.
  - rewrite Hidx, (slot_state_ring _ _ _ _ Hr Hk), Z.eqb_refl. cbn [is_state].
    destruct (running s); [|split; [done|left; by apply next_never]].
    destruct (Z.eqb_spec st SLOT_REQ_READY); split; try done; [by right|left; by apply next_waits].
  - rewrite (slot_state_ring _ _ _ _ Hr Hidx), (proj2 (Z.eqb_neq _ _)) by (intros <-; by eapply next_ne).
    cbn [is_state]. destruct (running s); split; try done; left; (apply next_after; [by right|done|done]).
  - destruct (read_idx_frame (file s) k st (next (read_idx s)) Hr) as (H1 & H2 & H3). split; [by unfold server_moves; split_and!|].
    left. by apply next_waits.
  - split; [done|]. left. by apply next_never.
Qed.

Lemma mark_step s k :
  ring_at (file s) k SLOT_REQ_READY -> spc s = SMark -> read_idx s = k -> running s = true ->
  server_moves s (server_step s) k SLOT_PROCESSING /\ spc (server_step s) = SReadSeq /\ read_idx (server_step s) = k.
Proof.
  intros Hr Hpc Hidx Hrun. pose proof (ring_slot _ _ _ Hr). unfold server_step. rewrite Hpc, Hrun.
  unfold server_moves. split_and!; try done; cbn [file at_server]; rewrite Hidx.
  - by eapply ring_set_state.
  - apply same_slot_write. left. offsets.
  - apply write_idx_write. offsets.
Qed.

(** Reading the request. *)
Lemma serve_step s k req :
  ring_at (file s) k SLOT_PROCESSING -> carries (file s) k req -> read_idx s = k ->
  Z.of_nat (length req) <= MAX_REQ_PAYLOAD ->
  serving (file s) req k (spc s) -> (forall seq, spc s <> SDispatch seq req) ->
  exists pc, server_step s = at_server s (file s) pc /\ serving (file s) req k pc /\
    (server_work pc < server_work (spc s))%nat.
Proof.
  intros Hr [Hl Hp] Hidx Hfit Hserve Hnot. pose proof (ring_slot _ _ _ Hr). unfold server_step. rewrite Hidx.
  inversion Hserve as [Hpc|seq Hpc|seq Hpc|seq Hpc]; [| | |by destruct (Hnot seq)].
  - eexists. split_and!; [done|constructor|cbn; lia].
  - unfold read_u32. rewrite (ring_read _ _ _ _ _ Hr) by offsets. cbn [result_bind]. rewrite Hl.
    rewrite (proj2 (Z.ltb_ge _ _)) by done. eexists. split_and!; [done|constructor|cbn; lia].
  - rewrite (ring_read _ _ _ _ _ Hr) by offsets. rewrite Hp. eexists. split_and!; [done|constructor|cbn; lia].
Qed.

(** Writing the response. *)
Lemma answer_step s k resp :
  ring_at (file s) k SLOT_PROCESSING -> read_idx s = k -> answering (file s) resp k (spc s) ->
  exists f pc, server_step s = at_server s f pc /\ write_idx f = write_idx (file s) /\
    (server_work pc < server_work (spc s))%nat /\
    (answering f resp k pc /\ ring_at f k SLOT_PROCESSING \/
     pc = SConsume /\ carries f k (fit resp) /\ ring_at f k SLOT_RES_READY).
Proof.
  intros Hr Hidx Ha. pose proof (ring_slot _ _ _ Hr) as Hk. unfold server_step. rewrite Hidx.
  assert (Hfit : Z.of_nat (length (fit resp)) = Z.min (Z.of_nat (length resp)) MAX_RES_PAYLOAD).
  { unfold fit. rewrite length_take. offsets. }
  inversion Ha as [seq Hpc|seq Hlen Hpc|seq Hc Hpc|Hc Hpc]; do 2 eexists; (split; [done|]).
  - split_and!; [apply write_idx_write; offsets|cbn; lia|]. left. split; [|apply ring_keep; [done|]; right; offsets].
    constructor. unfold write_u32. rewrite range_same by done. rewrite <- Hfit.
    apply (le_val_le_bytes_fits 4 32); [done|]. unfold fits. offsets.
  - split_and!; [apply write_idx_write; offsets|cbn; lia|]. left. fold (fit resp).
    split; [|apply ring_keep; [done|]; right; offsets].
    constructor. split; [rewrite range_out by offsets; done|by rewrite range_same].
  - split_and!; [apply write_idx_write; offsets|cbn; lia|]. left. split; [|apply ring_keep; [done|]; right; offsets].
    constructor. destruct Hc as [H1 H2]. split; unfold write_u64; rewrite range_out by offsets; done.
  - split_and!; [apply write_idx_write; offsets|cbn; lia|]. right. split_and!; [done| |by eapply ring_set_state].
    eapply carries_same; [apply same_slot_write; left; offsets|offsets|done].
Qed.

Lemma answered_step s k :
  ring_at (file s) k SLOT_RES_READY -> answered s k ->
  server_moves s (server_step s) k SLOT_RES_READY /\ answered (server_step s) k.
Proof.
  intros Hr Ha. assert (Hself : server_moves s s k SLOT_RES_READY) by (unfold server_moves; destruct s; split_and!; done).
  assert (Hat : forall pc, server_moves s (at_server s (file s) pc) k SLOT_RES_READY)
    by (intros pc; unfold server_moves; destruct s; split_and!; done).
  destruct Ha as [Hpc Hidx|Hrun Hpc Hidx|Hrun Hpc Hidx|Hpc]; unfold server_step; rewrite Hpc.
  - rewrite Hidx, (slot_state_ring _ _ _ _ Hr (ring_slot _ _ _ Hr)), Z.eqb_refl. cbn [is_state].
    destruct (running s) eqn:Hrun; split; try done; [by apply answered_consume|by apply answered_advance].
  - destruct (read_idx_frame (file s) k _ (next (read_idx s)) Hr) as (H1 & H2 & H3).
    split; [by unfold server_moves; split_and!|]. apply answered_wait; [done|done|]. by rewrite <- Hidx.
  - rewrite Hrun. split; [done|]. by apply answered_done.
  - split; [done|]. by apply answered_done.
Qed.

(** A step of the server that moves the server only keeps what the client relies on. *)
Lemma moved_flight a s s' k st call : server_moves s s' k st -> in_flight a s call -> in_flight a s' call.
Proof. intros [-> _] [H1 H2 H3]. by constructor. Qed.

Lemma server_inv a pending s : u32 (rpc_seq a) -> inv a pending s -> inv a pending (server_step s).
Proof.
  intros Hseq [k Hr Hw Hn Hpc Hns Hro Hp|call k Hr Hw Hn Hfl Hpost Hro Hp|call k Hr Hfl Haw Hc Hsrv Hro Hp
    |call k Hr Hfl Haw Hc Hidx Hserve Hro Hp|call k r response Hr Hfl Haw Hidx Hd Ha Hro Hp
    |call k r response Hr Hfl Hc Hd Hrec Ha Hro Hp].
  - destruct (next_step s k _ Hr Hn) as [(Heq & H1 & H2 & H3) [Hn'|[? _]]]; [|done].
    eapply inv_idle; [exact H1|congruence|done|rewrite Heq..]; done.
  - destruct (next_step s k _ Hr Hn) as [Hm [Hn'|[? _]]]; [|done]. pose proof Hm as (Heq & H1 & H2 & H3).
    eapply inv_posting; [exact H1|congruence|done|by eapply moved_flight| |rewrite Heq..]; try done.
    rewrite Heq. eapply posting_same; [exact H2|by eapply request_fits|done].
  - destruct Hsrv as [Hn|[Hpc Hidx]].
    + destruct (next_step s k _ Hr Hn) as [Hm Hn']. pose proof Hm as (Heq & H1 & H2 & H3).
      eapply inv_posted; [exact H1|by eapply moved_flight| |eapply carries_same; [exact H2|by eapply request_fits|done]| | |];
        [rewrite Heq; by eapply awaiting_same|naive_solver|by rewrite Heq|by rewrite Heq].
    + destruct (running s) eqn:Hrun.
      * destruct (mark_step s k Hr Hpc Hidx Hrun) as (Hm & Hpc' & Hidx'). pose proof Hm as (Heq & H1 & H2 & H3).
        eapply inv_serving; [exact H1|by eapply moved_flight| |eapply carries_same; [exact H2|by eapply request_fits|done]
          |done|rewrite Hpc'; constructor|by rewrite Heq|by rewrite Heq].
        rewrite Heq. by eapply awaiting_same.
      * unfold server_step. rewrite Hpc, Hrun. destruct Hfl.
        eapply inv_posted; [exact Hr|by constructor|done|done|left; by apply next_never|done|done].
  - destruct (spc s) eqn:Hpc; try by inversion Hserve.
    1-3: edestruct (serve_step s k) as (pc & -> & Hserve' & _); [exact Hr|exact Hc|done|by eapply request_fits
      |by rewrite Hpc|by rewrite Hpc|]; destruct Hfl; eapply inv_serving; [exact Hr|by constructor|done..].
    inversion Hserve; subst. unfold server_step. rewrite Hpc.
    rewrite <- (app_nil_r (to_bytes _)), from_to_bytes by by eapply request_ok.
    rewrite Hro. destruct (dispatch (rpc_router a) (request a call)) as [r response] eqn:Hd. destruct Hfl.
    eapply inv_answering; [exact Hr|by constructor|done|done|exact Hd|constructor|done|done].
  - edestruct (answer_step s k) as (f & pc & -> & Hw & _ & [[Ha' Hr']|(-> & Hc & Hr')]); [exact Hr|done|exact Ha|..].
    + destruct Hfl. eapply inv_answering; [exact Hr'|by constructor|by eapply awaiting_same|done|exact Hd|done..].
    + destruct Hfl. eapply inv_answered; [exact Hr'|by constructor|exact Hc|exact Hd| |by apply answered_consume|done..].
      constructor. by eapply awaiting_same.
  - destruct (answered_step s k Hr Ha) as [Hm Ha']. pose proof Hm as (Heq & H1 & H2 & H3).
    eapply inv_answered; [exact H1|by eapply moved_flight| |exact Hd| |done|by rewrite Heq|by rewrite Heq].
    + eapply carries_same; [exact H2|unfold fit; rewrite length_take; offsets|done].
    + rewrite Heq. by eapply receiving_same.
Qed.

(** *** Steps of the client *)

Lemma write_idx_frame f k st :
  ring_at f k st ->
  let f' := write_u32 f WRITE_IDX_OFFSET (wrap 32 (k + 1) mod RING_SLOTS) in
  write_idx f' = next k /\ same_slot f f' k /\ ring_at f' k st.
Proof.
  intros Hr f'. pose proof (ring_slot _ _ _ Hr). split_and!.
  - unfold f', write_idx, write_u32. rewrite range_same by done. rewrite wrap_id by (unfold fits; offsets).
    fold (next k). apply (le_val_le_bytes_fits 4 32); [done|]. pose proof (next_slot k). unfold fits. offsets.
  - apply same_slot_write. left. offsets.
  - apply ring_keep; [done|]. left. offsets.
Qed.

(** Waiting for the response of a request that is not answered. *)
Lemma await_step s k st :
  ring_at (file s) k st -> st <> SLOT_RES_READY -> st <> SLOT_ERROR -> awaiting (file s) k (cpc s) ->
  times_out s Client = false ->
  exists f pc, client_step s = at_client s f pc /\ awaiting f k pc /\ same_slot (file s) f k /\ ring_at f k st /\
    ((client_work pc < client_work (cpc s))%nat \/
     exists i, cpc s = CWaitRes k i /\ pc = CWaitRes k (i + 1) /\ f = file s).
Proof.
  intros Hr Hst Hst' Haw Hto. pose proof (ring_slot _ _ _ Hr) as Hk. unfold times_out in Hto. unfold client_step.
  inversion Haw as [Hw Hpc|i Hw Hpc]; rewrite <- Hpc in Hto.
  - destruct (write_idx_frame _ _ _ Hr) as (H1 & H2 & H3). do 2 eexists. split; [done|].
    split_and!; [by constructor|done|done|left; cbn; lia].
  - rewrite (slot_state_ring _ _ _ _ Hr Hk), Z.eqb_refl in *. cbn [is_state] in Hto.
    rewrite (proj2 (Z.eqb_neq _ _)) in Hto by done. rewrite !(proj2 (Z.eqb_neq st _)) by done.
    rewrite andb_true_r in Hto. apply Z.leb_gt in Hto. rewrite (proj2 (Z.ltb_lt _ _)) by done.
    do 2 eexists. split; [done|]. split_and!; [by constructor|apply same_slot_refl|done|right; by exists i].
Qed.

Lemma post_step s k req :
  ring_at (file s) k SLOT_EMPTY -> write_idx (file s) = k -> Z.of_nat (length req) <= MAX_REQ_PAYLOAD ->
  posting (file s) req k (cpc s) ->
  exists f pc, client_step s = at_client s f pc /\ write_idx f = k /\
    (client_work pc < client_work (cpc s))%nat /\
    (posting f req k pc /\ ring_at f k SLOT_EMPTY \/
     awaiting f k pc /\ carries f k req /\ ring_at f k SLOT_REQ_READY).
Proof.
  intros Hr Hw Hfit Hpost. pose proof (ring_slot _ _ _ Hr) as Hk. unfold client_step.
  inversion Hpost as [seq Hpc|seq Hpc|seq i Hpc|seq Hpc|Hpc|Hb Hpc|Hc Hpc].
  - rewrite (ring_open _ _ _ Hr). do 2 eexists. split_and!; [done|done|cbn; lia|]. left. split; [constructor|done].
  - unfold read_u32. rewrite (ring_read _ _ _ _ _ Hr) by offsets. cbn [result_bind]. fold (write_idx (file s)).
    rewrite Hw. do 2 eexists. split_and!; [done|done|cbn; lia|]. left. split; [constructor|done].
  - rewrite (slot_state_ring _ _ _ _ Hr Hk), Z.eqb_refl. do 2 eexists. split_and!; [done|done|cbn; lia|].
    left. split; [constructor|done].
  - do 2 eexists. split_and!; [done|rewrite <- Hw at 2; apply write_idx_write; offsets|cbn; lia|].
    left. split; [constructor|]. apply ring_keep; [done|]. right. offsets.
  - do 2 eexists. split_and!; [done|rewrite <- Hw at 2; apply write_idx_write; offsets|cbn; lia|].
    left. split; [constructor; by rewrite range_same|]. apply ring_keep; [done|]. right. offsets.
  - do 2 eexists. split_and!; [done|rewrite <- Hw at 2; apply write_idx_write; offsets|cbn; lia|].
    left. split; [|apply ring_keep; [done|]; right; offsets]. constructor. split; unfold write_u32.
    + rewrite range_same by done. apply (le_val_le_bytes_fits 4 32); [done|]. unfold fits. offsets.
    + by rewrite range_out by offsets.
  - assert (Hw' : write_idx (write_byte (file s) (slot_offset k) SLOT_REQ_READY) = k).
    { rewrite <- Hw at 2. apply write_idx_write. offsets. }
    do 2 eexists. split_and!; [done|done|cbn; lia|]. right. split_and!; [by constructor| |by eapply ring_set_state].
    eapply carries_same; [apply same_slot_write; left; offsets|done|done].
Qed.

(** Reading the response up to the point where the slot is released. *)
Lemma receive_step s k resp :
  ring_at (file s) k SLOT_RES_READY -> carries (file s) k resp -> Z.of_nat (length resp) <= MAX_RES_PAYLOAD ->
  receiving (file s) resp k (cpc s) ->
  (exists f pc, client_step s = at_client s f pc /\ receiving f resp k pc /\ carries f k resp /\
     ring_at f k SLOT_RES_READY /\ (client_work pc < client_work (cpc s))%nat) \/
  cpc s = CMarkEmpty k resp /\ write_idx (file s) = next k.
Proof.
  intros Hr Hc Hfit Hrec. pose proof Hc as [Hl Hp]. pose proof (ring_slot _ _ _ Hr) as Hk. unfold client_step.
  inversion Hrec as [pc Haw Hpc'|Hw Hpc|Hw Hpc|Hw Hpc]; [inversion Haw as [Hw Hpc|i Hw Hpc]|..|right; done]; left.
  - destruct (write_idx_frame _ _ _ Hr) as (H1 & H2 & H3). do 2 eexists. split; [done|].
    split_and!; [by do 2 constructor|by eapply carries_same|done|cbn; lia].
  - rewrite (slot_state_ring _ _ _ _ Hr Hk), Z.eqb_refl. do 2 eexists. split; [done|]. split_and!; [by constructor|done|done|cbn; lia].
  - unfold read_u32. rewrite (ring_read _ _ _ _ _ Hr) by offsets. cbn [result_bind]. rewrite Hl.
    do 2 eexists. split; [done|]. split_and!; [by constructor|done|done|cbn; lia].
  - rewrite (ring_read _ _ _ _ _ Hr) by offsets. rewrite Hp.
    do 2 eexists. split; [done|]. split_and!; [by constructor|done|done|cbn; lia].
Qed.

Lemma fit_response response :
  frame_ok response ->
  match from_bytes (fit (to_bytes response)) with Some frame => Ok frame | None => Err InvalidResponse end =
  if MAX_BODY <? Z.of_nat (length (payload response)) then Err InvalidResponse else Ok response.
Proof.
  intros Hok. unfold fit, MAX_BODY. pose proof (to_bytes_length response) as Hlen.
  destruct (Z.ltb_spec (MAX_REQ_PAYLOAD - 16) (Z.of_nat (length (payload response)))).
  - rewrite from_bytes_truncated by (done || offsets). done.
  - rewrite take_ge by offsets. by rewrite <- (app_nil_r (to_bytes response)), from_to_bytes.
Qed.

Lemma fit_length d : Z.of_nat (length (fit d)) <= MAX_RES_PAYLOAD.
Proof. unfold fit. rewrite length_take. offsets. Qed.

(** The invariant with the results so far. *)
Record good (a : rpc) (pending : list (Z * bytes)) (s : system) : Prop := {
  good_inv : inv a pending s;
  good_results : results s = rpc_results a;
  good_seq : u32 (rpc_seq a);
  good_calls : Forall call_ok pending;
}.

(** The first pending call is completed. *)
Definition completes (a : rpc) (pending : list (Z * bytes)) (s : system) : Prop :=
  exists call rest, pending = call :: rest /\ good (rpc_call a call) rest s.

Lemma idle_step a pending s k :
  good a pending s -> ring_at (file s) k SLOT_EMPTY -> write_idx (file s) = k -> serves_next s k ->
  cpc s = CIdle -> next_seq s = rpc_seq a -> router s = rpc_router a -> pending = todo s ->
  good a pending (client_step s) \/ completes a pending (client_step s).
Proof.
  intros [Hinv Hres Hseq Hcalls] Hr Hw Hn Hpc Hns Hro Hp. unfold client_step. rewrite Hpc.
  destruct (todo s) as [|[ft pl] rest] eqn:Htodo; [by left; constructor|].
  pose proof (to_bytes_length (mkFrame ft (next_seq s) pl)) as Hlen. cbn [payload] in Hlen.
  rewrite Hp in Hcalls. apply Forall_cons in Hcalls as [Hcall Hrest].
  assert (Hn' : forall s', spc s' = spc s -> read_idx s' = read_idx s -> serves_next s' k).
  { intros s' E1 E2. destruct Hn as [? ?|? ? ?|?]; [apply next_waits|apply next_after|apply next_never]; congruence. }
  assert (Hseq' : u32 (wrap 32 (rpc_seq a + 1))) by by apply wrap_fits.
  destruct (Z.ltb_spec MAX_REQ_PAYLOAD (Z.of_nat (length (to_bytes (mkFrame ft (next_seq s) pl))))).
  - right. exists (ft, pl), rest. split; [done|]. unfold rpc_call. cbn [fst snd].
    rewrite (proj2 (Z.ltb_lt _ _)) by (unfold MAX_BODY; lia).
    constructor; [|cbn [results finish]; by rewrite Hres, Hlen, Nat2Z.inj_add|done|done].
    eapply inv_idle; [exact Hr|exact Hw|by apply Hn'|done|cbn; congruence|done|done].
  - left. constructor; [|done|done|by rewrite Hp, Forall_cons].
    eapply (inv_posting _ _ _ (ft, pl)); [exact Hr|exact Hw|by apply Hn'| |cbn; rewrite Hns; constructor|done|done].
    constructor; [cbn; congruence|done|unfold MAX_BODY; cbn; lia].
Qed.

(** The client releases the slot and returns the response. *)
Lemma release_step a pending s call k r response :
  (forall r f, frame_ok f -> frame_ok (dispatch r f).2) ->
  good a pending s -> ring_at (file s) k SLOT_RES_READY -> in_flight a s call ->
  dispatch (rpc_router a) (request a call) = (r, response) -> answered s k -> router s = r ->
  pending = call :: todo s -> cpc s = CMarkEmpty k (fit (to_bytes response)) -> write_idx (file s) = next k ->
  completes a pending (client_step s).
Proof.
  intros Hdisp [Hinv Hres Hseq Hcalls] Hr Hfl Hd Ha Hro Hp Hpc Hw. unfold client_step. rewrite Hpc.
  pose proof (ring_slot _ _ _ Hr) as Hk.
  rewrite fit_response by (pose proof (Hdisp (rpc_router a) _ (request_ok a s call Hseq Hfl)) as H; by rewrite Hd in H).
  exists call, (todo s). split; [done|]. rewrite Hp in Hcalls. apply Forall_cons in Hcalls as [_ Hrest].
  pose proof (flight_fits _ _ _ Hfl) as Hfits. pose proof (flight_seq _ _ _ Hfl) as Hns.
  assert (Heq : rpc_call a call = mkRpc r (wrap 32 (rpc_seq a + 1)) (rpc_results a ++
    [if MAX_BODY <? Z.of_nat (length (payload response)) then Err InvalidResponse else Ok response])).
  { unfold rpc_call. rewrite (proj2 (Z.ltb_ge _ _)) by done. fold (request a call). by rewrite Hd. }
  rewrite Heq. constructor; [|cbn; by rewrite Hres|by apply wrap_fits|done].
  apply (inv_idle _ _ _ (next k)); [|rewrite <- Hw; apply write_idx_write; offsets| |done..].
  - eapply ring_empty_any; [by eapply ring_set_state|apply next_slot].
  - destruct Ha as [? ?|? ? ?|? ? ?|?]; [apply next_after|apply next_after|apply next_waits|apply next_never];
      cbn; try congruence; auto; lia.
Qed.

(** *** Runs *)

Section runs.
(** The router answers with frames the types allow, with a payload below 4 GiB. *)
Hypothesis dispatch_ok : forall r f, frame_ok f -> frame_ok (dispatch r f).2.

Lemma at_client_flight a s f pc call : in_flight a s call -> in_flight a (at_client s f pc) call.
Proof. intros [H1 H2 H3]. by constructor. Qed.

Lemma at_client_next s f pc k : serves_next s k -> serves_next (at_client s f pc) k.
Proof. intros [? ?|? ? ?|?]; [by apply next_waits|by apply next_after|by apply next_never]. Qed.

Lemma at_client_answered s f pc k : answered s k -> answered (at_client s f pc) k.
Proof.
  intros [? ?|? ? ?|? ? ?|?]; [by apply answered_consume|by apply answered_advance|by apply answered_wait
    |by apply answered_done].
Qed.

Lemma client_good a pending s :
  good a pending s -> times_out s Client = false ->
  good a pending (client_step s) \/ completes a pending (client_step s).
Proof.
  intros Hg Hto. pose proof Hg as [Hinv Hres Hseq Hcalls].
  destruct Hinv as [k Hr Hw Hn Hpc Hns Hro Hp|call k Hr Hw Hn Hfl Hpost Hro Hp|call k Hr Hfl Haw Hc Hsrv Hro Hp
    |call k Hr Hfl Haw Hc Hidx Hserve Hro Hp|call k r response Hr Hfl Haw Hidx Hd Ha Hro Hp
    |call k r response Hr Hfl Hc Hd Hrec Ha Hro Hp].
  - by eapply idle_step.
  - edestruct (post_step s k) as (f & pc & -> & Hw' & _ & Hor); [exact Hr|exact Hw|by eapply request_fits|exact Hpost|].
    left. constructor; [|done..]. destruct Hor as [[Hpost' Hr']|(Haw & Hc & Hr')].
    + eapply inv_posting; [exact Hr'|done|by apply at_client_next|by apply at_client_flight|done..].
    + eapply inv_posted; [exact Hr'|by apply at_client_flight|done|done|left; by apply at_client_next|done..].
  - edestruct (await_step s k) as (f & pc & -> & Haw' & Hsame & Hr' & _); [exact Hr|done|done|done|done|].
    left. constructor; [|done..]. eapply inv_posted; [exact Hr'|by apply at_client_flight|done
      |eapply carries_same; [done|by eapply request_fits|done]| |done..].
    destruct Hsrv as [Hn|?]; [left; by apply at_client_next|by right].
  - edestruct (await_step s k) as (f & pc & -> & Haw' & Hsame & Hr' & _); [exact Hr|done|done|done|done|].
    left. constructor; [|done..]. eapply inv_serving; [exact Hr'|by apply at_client_flight|done
      |eapply carries_same; [done|by eapply request_fits|done]|done| |done..].
    cbn [spc at_client]. destruct Hserve; constructor.
  - edestruct (await_step s k) as (f & pc & -> & Haw' & Hsame & Hr' & _); [exact Hr|done|done|done|done|].
    left. constructor; [|done..]. eapply inv_answering; [exact Hr'|by apply at_client_flight|done|done|exact Hd
      |by eapply answering_same|done..].
  - edestruct (receive_step s k) as [(f & pc & -> & Hrec' & Hc' & Hr' & _)|[Hpc Hw]];
      [exact Hr|exact Hc|apply fit_length|exact Hrec|..].
    + left. constructor; [|done..]. eapply inv_answered; [exact Hr'|by apply at_client_flight|exact Hc'|exact Hd
        |done|by apply at_client_answered|done..].
    + right. by eapply release_step.
Qed.

Lemma shutdown_inv a pending s : inv a pending s -> inv a pending (step s Shutdown).
Proof.
  assert (Hn : forall k, serves_next s k -> serves_next (step s Shutdown) k).
  { intros k [? ?|? ? ?|?]; [by apply next_waits|by apply next_after|by apply next_never]. }
  assert (Hf : forall call, in_flight a s call -> in_flight a (step s Shutdown) call) by (intros call []; by constructor).
  intros [k|call k|call k|call k|call k|call k].
  - eapply inv_idle; eauto.
  - eapply inv_posting; eauto.
  - eapply inv_posted; eauto. naive_solver.
  - eapply inv_serving; eauto.
  - eapply inv_answering; eauto.
  - eapply inv_answered; eauto. match goal with H : answered s k |- _ => destruct H end;
      [by apply answered_consume|by apply answered_advance|by apply answered_wait|by apply answered_done].
Qed.

Lemma step_good a pending s act :
  good a pending s -> times_out s act = false ->
  good a pending (step s act) \/ completes a pending (step s act).
Proof.
  intros Hg Hto. destruct act; [left|by apply client_good|left].
  - destruct Hg as [Hinv Hres Hseq Hcalls]. constructor; [by apply server_inv| |done..].
    cbn [step]. unfold server_step. by repeat case_match.
  - destruct Hg. constructor; [by apply shutdown_inv|done..].
Qed.

Lemma run_good l : forall a pending s,
  good a pending s -> timely s l = true ->
  exists n, (n <= length pending)%nat /\ good (foldl rpc_call a (take n pending)) (drop n pending) (foldl step s l).
Proof.
  induction l as [|act l IH]; intros a pending s Hg Ht; cbn [foldl timely] in *.
  - exists O. split; [lia|]. by rewrite take_0, drop_0.
  - apply andb_prop in Ht as [Hto%negb_true_iff Ht].
    destruct (step_good _ _ _ _ Hg Hto) as [Hg'|(call & rest & -> & Hg')]; [by apply IH|].
    destruct (IH _ _ _ Hg' Ht) as (n & Hn & Hg''). exists (S n). split; [cbn; lia|done].
Qed.

Lemma start_good f r calls : Forall call_ok calls -> good (mkRpc r 1 []) calls (start f r calls).
Proof.
  intros Hcalls. destruct (server_init_ring f) as [Hr Hw]. constructor; [|done|done|done].
  eapply inv_idle; [exact Hr|exact Hw|by apply next_waits|done..].
Qed.

Lemma rpc_results_length calls : forall a,
  length (rpc_results (foldl rpc_call a calls)) = (length (rpc_results a) + length calls)%nat.
Proof.
  induction calls as [|call calls IH]; intros a; cbn [foldl length]; [lia|].
  rewrite IH. unfold rpc_call. repeat case_match; cbn; rewrite length_app; cbn; lia.
Qed.

Lemma good_router a pending s :
  good a pending s -> router s = rpc_router a \/ exists call, head pending = Some call /\ router s = rpc_router (rpc_call a call).
Proof.
  assert (Hcall : forall call r response, in_flight a s call -> dispatch (rpc_router a) (request a call) = (r, response) ->
            rpc_router (rpc_call a call) = r).
  { intros call r response [_ _ Hf] Hd. unfold rpc_call. rewrite (proj2 (Z.ltb_ge _ _)) by done.
    fold (request a call). by rewrite Hd. }
  intros [[k|call k|call k|call k|call k r response|call k r response]]; auto; right; exists call.
  all: subst; split; [done|]; symmetry; by eapply Hcall.
Qed.

(** *** Progress *)

(** A request the server has still to take. *)
Definition untaken (s : system) : bool :=
  match cpc s with
  | CIdle | CReadLen _ | CReadData _ _ | CMarkEmpty _ _ => false
  | CWriteIdx idx | CWaitRes idx _ =>
      is_state (slot_state s idx) SLOT_REQ_READY && match spc s with SMark => false | _ => true end
  | _ => true
  end.

(** The steps that are left until every call is answered, the polls apart. *)
Definition work (s : system) : nat :=
  25 * length (todo s) + client_work (cpc s) + server_work (spc s) + (if untaken s then 12 else 0).

(** The next step of the program is not a poll that fails. *)
Definition enabled (s : system) (a : action) : bool :=
  match a with
  | Server =>
      match spc s with
      | SWait => is_state (slot_state s (read_idx s)) SLOT_REQ_READY
      | SConsume => is_state (slot_state s (read_idx s)) SLOT_EMPTY
      | SDone => false
      | _ => true
      end
  | Client =>
      match cpc s with
      | CIdle => match todo s with [] => false | _ => true end
      | CWaitRes idx _ => is_state (slot_state s idx) SLOT_RES_READY
      | _ => true
      end
  | Shutdown => false
  end.

Definition alive (s : system) : Prop := running s = true /\ spc s <> SDone.

Lemma alive_step s act : alive s -> act <> Shutdown -> alive (step s act).
Proof.
  destruct s as [f sp ri r rn cp ns td rs]. unfold alive. cbn [running spc]. intros [-> Hpc] Hact.
  destruct act; [| |done]; cbn [step]; unfold server_step, client_step;
    cbn [running spc cpc read_idx file todo router next_seq]; repeat case_match;
    cbn [running spc at_server at_client finish]; split; congruence.
Qed.

Lemma is_state_ring s k st j b :
  ring_at (file s) k st -> 0 <= j < RING_SLOTS -> is_state (slot_state s j) b = ((if j =? k then st else SLOT_EMPTY) =? b).
Proof. intros Hr Hj. by rewrite (slot_state_ring _ _ _ _ Hr Hj). Qed.

Lemma some_enabled a pending s :
  good a pending s -> alive s -> work s <> O -> enabled s Client = true \/ enabled s Server = true.
Proof.
  intros [Hinv _ _ _] [Hrun Hdone] Hwork.
  assert (Hsrv : forall k st, ring_at (file s) k st -> serves_next s k -> st = SLOT_REQ_READY \/ spc s <> SWait ->
            enabled s Server = true).
  { intros k st Hr Hn Hst. pose proof (ring_slot _ _ _ Hr) as Hk. unfold enabled.
    destruct Hn as [Hpc Hidx|[Hpc|Hpc] Hidx Hnext|Hpc]; rewrite ?Hpc; try done.
    - destruct Hst as [Hst|]; [|done]. rewrite Hidx, (is_state_ring _ _ _ _ _ Hr Hk), Z.eqb_refl. by subst st.
    - rewrite (is_state_ring _ _ _ _ _ Hr Hidx), (proj2 (Z.eqb_neq (read_idx s) k)); [done|].
      intros Heq. apply (next_ne (read_idx s)); congruence. }
  destruct Hinv as [k Hr Hw Hn Hpc Hns Hro Hp|call k Hr Hw Hn Hfl Hpost Hro Hp|call k Hr Hfl Haw Hc [Hn|[Hpc _]] Hro Hp
    |call k Hr Hfl Haw Hc Hidx Hserve Hro Hp|call k r response Hr Hfl Haw Hidx Hd Ha Hro Hp
    |call k r response Hr Hfl Hc Hd Hrec Ha Hro Hp].
  - unfold enabled at 1. rewrite Hpc. destruct (todo s) eqn:Htodo; [|by left]. right. eapply Hsrv; [done|done|].
    right. intros Hwait. apply Hwork. unfold work, untaken. by rewrite Htodo, Hpc, Hwait.
  - left. unfold enabled. by destruct Hpost.
  - right. eapply Hsrv; [done|done|by left].
  - right. unfold enabled. by rewrite Hpc.
  - right. unfold enabled. by destruct Hserve.
  - right. unfold enabled. by destruct Ha.
  - left. unfold enabled. destruct Hrec as [pc [Hw|i Hw]|Hw|Hw|Hw]; try done.
    by rewrite (is_state_ring _ _ _ _ _ Hr (ring_slot _ _ _ Hr)), Z.eqb_refl.
Qed.

Lemma untaken_posting s req k : posting (file s) req k (cpc s) -> untaken s = true.
Proof. unfold untaken. by intros []. Qed.

Lemma untaken_awaiting s k st :
  ring_at (file s) k st -> awaiting (file s) k (cpc s) ->
  untaken s = (st =? SLOT_REQ_READY) && match spc s with SMark => false | _ => true end.
Proof.
  intros Hr Haw. unfold untaken.
  destruct Haw; by rewrite (is_state_ring _ _ _ _ _ Hr (ring_slot _ _ _ Hr)), Z.eqb_refl.
Qed.

Lemma untaken_false s k st :
  ring_at (file s) k st -> awaiting (file s) k (cpc s) -> st <> SLOT_REQ_READY -> untaken s = false.
Proof. intros Hr Haw Hst. rewrite (untaken_awaiting _ _ _ Hr Haw). by rewrite (proj2 (Z.eqb_neq _ _)). Qed.

Lemma untaken_receiving s resp k :
  ring_at (file s) k SLOT_RES_READY -> receiving (file s) resp k (cpc s) -> untaken s = false.
Proof.
  intros Hr Hrec. unfold untaken. destruct Hrec as [pc []|H|H|H]; try done;
    by rewrite (is_state_ring _ _ _ _ _ Hr (ring_slot _ _ _ Hr)), Z.eqb_refl.
Qed.

Lemma serves_next_unmarked s k : serves_next s k -> (match spc s with SMark => false | _ => true end) = true.
Proof. by intros [-> ?|[-> | ->] ? ?| ->]. Qed.

(** A server between two requests gets on, or takes the next one. *)
Lemma next_work s k st :
  ring_at (file s) k st -> serves_next s k -> alive s -> enabled s Server = true ->
  serves_next (server_step s) k /\ (server_work (spc (server_step s)) < server_work (spc s))%nat \/
  st = SLOT_REQ_READY /\ spc s = SWait /\ spc (server_step s) = SMark.
Proof.
  intros Hr Hn [Hrun Hdone] Hen. pose proof (ring_slot _ _ _ Hr) as Hk.
  destruct (next_step s k st Hr Hn) as [_ Hor]. revert Hor. unfold enabled in Hen. unfold server_step.
  destruct Hn as [Hpc Hidx|[Hpc|Hpc] Hidx Hnext|Hpc]; rewrite Hpc in *; [..|done]; rewrite ?Hrun, ?Hen; cbn.
  - rewrite Hidx, (is_state_ring _ _ _ _ _ Hr Hk), Z.eqb_refl in Hen. apply Z.eqb_eq in Hen. by right.
  - intros [H|(_ & ? & _)]; [left; split; [done|lia]|done].
  - intros [H|(_ & ? & _)]; [left; split; [done|lia]|done].
Qed.

Lemma serve_work s k req :
  ring_at (file s) k SLOT_PROCESSING -> carries (file s) k req -> read_idx s = k ->
  Z.of_nat (length req) <= MAX_REQ_PAYLOAD -> serving (file s) req k (spc s) ->
  file (server_step s) = file s /\ (server_work (spc (server_step s)) < server_work (spc s))%nat.
Proof.
  intros Hr Hc Hidx Hfit Hserve. destruct (spc s) eqn:Hpc; try by inversion Hserve.
  1-3: edestruct (serve_step s k req) as (pc & -> & _ & Hlt); [done..|by rewrite Hpc|by rewrite Hpc|];
    rewrite Hpc in Hlt; done.
  unfold server_step. rewrite Hpc. repeat case_match; cbn; split; (done || lia).
Qed.

Lemma server_progress a pending s :
  good a pending s -> alive s -> enabled s Server = true -> (work (server_step s) < work s)%nat.
Proof.
  intros [Hinv _ Hseq _] Halive Hen. unfold work.
  assert (Htodo : todo (server_step s) = todo s) by (unfold server_step; by repeat case_match).
  assert (Hcpc : cpc (server_step s) = cpc s) by (unfold server_step; by repeat case_match).
  rewrite Htodo, Hcpc.
  destruct Hinv as [k Hr Hw Hn Hpc Hns Hro Hp|call k Hr Hw Hn Hfl Hpost Hro Hp|call k Hr Hfl Haw Hc [Hn|[Hpc Hidx]] Hro Hp
    |call k Hr Hfl Haw Hc Hidx Hserve Hro Hp|call k r response Hr Hfl Haw Hidx Hd Ha Hro Hp
    |call k r response Hr Hfl Hc Hd Hrec Ha Hro Hp].
  - destruct (next_work s k _ Hr Hn Halive Hen) as [[_ Hlt]|[? _]]; [|done]. unfold untaken. rewrite Hcpc, Hpc. lia.
  - destruct (next_work s k _ Hr Hn Halive Hen) as [[_ Hlt]|[? _]]; [|done].
    destruct (next_step s k _ Hr Hn) as [(_ & _ & Hsame & _) _]. rewrite (untaken_posting _ _ _ Hpost).
    rewrite (untaken_posting _ (to_bytes (request a call)) k); [lia|].
    rewrite Hcpc. eapply posting_same; [exact Hsame|by eapply request_fits|done].
  - destruct (next_step s k _ Hr Hn) as [(_ & Hr' & _ & Hw') _].
    assert (Haw' : awaiting (file (server_step s)) k (cpc (server_step s))) by (rewrite Hcpc; by eapply awaiting_same).
    rewrite (untaken_awaiting _ _ _ Hr Haw), (untaken_awaiting _ _ _ Hr' Haw'), (serves_next_unmarked _ _ Hn).
    destruct (next_work s k _ Hr Hn Halive Hen) as [[Hn' Hlt]|(_ & -> & ->)]; [|cbn; lia].
    rewrite (serves_next_unmarked _ _ Hn'). lia.
  - destruct (mark_step s k Hr Hpc Hidx (proj1 Halive)) as ((_ & Hr' & _ & Hw') & Hpc' & _).
    assert (Haw' : awaiting (file (server_step s)) k (cpc (server_step s))) by (rewrite Hcpc; by eapply awaiting_same).
    rewrite (untaken_awaiting _ _ _ Hr Haw), (untaken_awaiting _ _ _ Hr' Haw'), Hpc, Hpc'. cbn. lia.
  - edestruct (serve_work s k) as [Hf Hlt]; [exact Hr|exact Hc|done|by eapply request_fits|done|].
    rewrite (untaken_false _ _ _ Hr Haw) by done. rewrite (untaken_false (server_step s) k SLOT_PROCESSING);
      [lia|by rewrite Hf|by rewrite Hcpc, Hf|done].
  - edestruct (answer_step s k) as (f & pc & Heq & Hw' & Hlt & Hor); [exact Hr|done|exact Ha|].
    assert (Haw' : awaiting f k (cpc s)) by by eapply awaiting_same.
    rewrite (untaken_false _ _ _ Hr Haw), Heq by done. cbn [spc at_server].
    destruct Hor as [[_ Hr']|(_ & _ & Hr')]; (erewrite untaken_false; [lia|exact Hr'|exact Haw'|done]).
  - destruct Ha as [Hpc Hidx|Hrun _ _|Hrun _ _|Hpc].
    2-4: destruct Halive as [Hrun' Hdone]; congruence.
    unfold enabled in Hen. by rewrite Hpc, Hidx, (is_state_ring _ _ _ _ _ Hr (ring_slot _ _ _ Hr)), Z.eqb_refl in Hen.
Qed.

Lemma server_futile s : alive s -> enabled s Server = false -> server_step s = s.
Proof.
  unfold enabled, server_step. intros [Hrun Hdone] Hen. destruct (spc s); try done; by rewrite Hrun, Hen.
Qed.

(** An awaiting client either writes its index or polls in vain. *)
Lemma await_work s k st :
  ring_at (file s) k st -> st <> SLOT_RES_READY -> st <> SLOT_ERROR -> awaiting (file s) k (cpc s) ->
  times_out s Client = false -> enabled s Client = true -> (work (client_step s) < work s)%nat.
Proof.
  intros Hr Hst Hst' Haw Hto Hen.
  destruct (await_step s k st Hr Hst Hst' Haw Hto) as (f & pc & Heq & Haw' & _ & Hr' & [Hlt|(i & Hpc & _)]).
  - unfold work. rewrite Heq. rewrite (untaken_awaiting _ _ _ Hr Haw). erewrite untaken_awaiting; [|exact Hr'|exact Haw'].
    cbn [todo spc cpc at_client]. lia.
  - unfold enabled in Hen. rewrite Hpc, (is_state_ring _ _ _ _ _ Hr (ring_slot _ _ _ Hr)), Z.eqb_refl in Hen.
    by apply Z.eqb_eq in Hen.
Qed.

Lemma client_progress a pending s :
  good a pending s -> times_out s Client = false -> enabled s Client = true -> (work (client_step s) < work s)%nat.
Proof.
  intros [Hinv _ Hseq _] Hto Hen.
  destruct Hinv as [k Hr Hw Hn Hpc Hns Hro Hp|call k Hr Hw Hn Hfl Hpost Hro Hp|call k Hr Hfl Haw Hc Hsrv Hro Hp
    |call k Hr Hfl Haw Hc Hidx Hserve Hro Hp|call k r response Hr Hfl Haw Hidx Hd Ha Hro Hp
    |call k r response Hr Hfl Hc Hd Hrec Ha Hro Hp].
  - unfold enabled in Hen. unfold work, client_step, untaken. rewrite Hpc in *.
    destruct (todo s) as [|[ft pl] rest]; [done|]. case_match; cbn; lia.
  - edestruct (post_step s k) as (f & pc & Heq & _ & Hlt & Hor); [exact Hr|exact Hw|by eapply request_fits|exact Hpost|].
    unfold work. rewrite Heq. rewrite (untaken_posting _ _ _ Hpost). cbn [todo spc cpc at_client]. case_match; lia.
  - by eapply await_work.
  - by eapply await_work.
  - by eapply await_work.
  - edestruct (receive_step s k) as [(f & pc & Heq & Hrec' & _ & Hr' & Hlt)|[Hpc _]];
      [exact Hr|exact Hc|apply fit_length|exact Hrec|..]; unfold work; rewrite (untaken_receiving _ _ _ Hr Hrec).
    + rewrite Heq. erewrite untaken_receiving; [|exact Hr'|exact Hrec']. cbn [todo spc cpc at_client]. lia.
    + unfold client_step, untaken. rewrite Hpc. cbn. lia.
Qed.

(** A poll in vain changes nothing but the counter of the loop. *)
Lemma client_futile a pending s :
  good a pending s -> times_out s Client = false -> enabled s Client = false ->
  work (client_step s) = work s /\ forall act, enabled (client_step s) act = enabled s act.
Proof.
  intros [Hinv _ _ _] Hto Hen. unfold enabled in Hen. destruct (cpc s) eqn:Hpc; try done.
  - unfold client_step. rewrite Hpc. by destruct (todo s).
  - assert (Hst : exists st, ring_at (file s) idx st /\ st <> SLOT_ERROR).
    { destruct Hinv as [k Hr Hw Hn Hpc' Hns Hro Hp|call k Hr Hw Hn Hfl Hpost Hro Hp|call k Hr Hfl Haw Hc Hsrv Hro Hp
        |call k Hr Hfl Haw Hc Hidx Hserve Hro Hp|call k r response Hr Hfl Haw Hidx Hd Ha Hro Hp
        |call k r response Hr Hfl Hc Hd Hrec Ha Hro Hp]; rewrite Hpc in *; [done|inversion Hpost| | | |].
      1-3: inversion Haw; subst; by eexists.
      inversion Hrec as [? Haw| | |]; inversion Haw; subst. by eexists. }
    destruct Hst as (st & Hr & Hst). pose proof (is_state_ring _ _ _ _ SLOT_RES_READY Hr (ring_slot _ _ _ Hr)) as Heq.
    rewrite Hen, Z.eqb_refl in Heq. unfold client_step, times_out in *. rewrite Hpc in *. rewrite Hen, andb_true_r in Hto.
    apply Z.leb_gt in Hto. rewrite (slot_state_ring _ _ _ _ Hr (ring_slot _ _ _ Hr)), Z.eqb_refl, <- Heq.
    rewrite (proj2 (Z.eqb_neq st SLOT_ERROR)) by done. rewrite (proj2 (Z.ltb_lt _ _)) by done.
    unfold work, enabled, untaken. rewrite Hpc. done.
Qed.

(** A step of a program that can get on does, another one changes nothing that counts. *)
Lemma step_progress a pending s act :
  good a pending s -> alive s -> act <> Shutdown -> times_out s act = false ->
  if enabled s act then (work (step s act) < work s)%nat
  else work (step s act) = work s /\ forall b, enabled (step s act) b = enabled s b.
Proof.
  intros Hg Halive Hact Hto. destruct (enabled s act) eqn:Hen; destruct act; try done; cbn [step].
  - by eapply server_progress.
  - by eapply client_progress.
  - by rewrite server_futile.
  - by eapply client_futile.
Qed.

Definition healthy (s : system) : Prop := alive s /\ exists a pending, good a pending s.

Lemma healthy_step s act : healthy s -> act <> Shutdown -> times_out s act = false -> healthy (step s act).
Proof.
  intros [Halive (a & pending & Hg)] Hact Hto. split; [by apply alive_step|].
  destruct (step_good _ _ _ _ Hg Hto) as [?|(call & rest & _ & ?)]; eauto.
Qed.

Lemma work_run l : forall s,
  healthy s -> Shutdown ∉ l -> timely s l = true -> healthy (foldl step s l) /\ (work (foldl step s l) <= work s)%nat.
Proof.
  induction l as [|act l IH]; intros s Hh Hl Ht; cbn [foldl timely] in *; [done|].
  apply andb_prop in Ht as [Hto%negb_true_iff Ht]. apply not_elem_of_cons in Hl as [Hact Hl].
  destruct (IH _ (healthy_step _ _ Hh (not_eq_sym Hact) Hto) Hl Ht) as [Hh' Hle]. split; [done|].
  destruct Hh as [Halive (a & pending & Hg)]. pose proof (step_progress _ _ _ _ Hg Halive (not_eq_sym Hact) Hto) as Hp.
  case_match; lia.
Qed.

Lemma round_progress l b : forall s,
  healthy s -> Shutdown ∉ l -> timely s l = true -> b ∈ l -> enabled s b = true -> (work (foldl step s l) < work s)%nat.
Proof.
  induction l as [|act l IH]; intros s Hh Hl Ht Hb Hen; [by apply not_elem_of_nil in Hb|]. cbn [foldl timely] in *.
  apply andb_prop in Ht as [Hto%negb_true_iff Ht]. apply not_elem_of_cons in Hl as [Hact%not_eq_sym Hl].
  pose proof (healthy_step _ _ Hh Hact Hto) as Hh'. destruct Hh as [Halive (a & pending & Hg)].
  pose proof (step_progress _ _ _ _ Hg Halive Hact Hto) as Hp. destruct (enabled s act) eqn:Hact'.
  - pose proof (work_run _ _ Hh' Hl Ht). lia.
  - destruct Hp as [<- Hp]. apply IH; [done..| |by rewrite Hp]. apply elem_of_cons in Hb as [->|]; congruence.
Qed.

(** A round in which each of the two programs takes a step. *)
Definition fair (l : list action) : bool :=
  bool_decide (Client ∈ l) && bool_decide (Server ∈ l) && bool_decide (Shutdown ∉ l).

Lemma timely_app l1 : forall s l2, timely s (l1 ++ l2) = timely s l1 && timely (foldl step s l1) l2.
Proof. induction l1 as [|act l1 IH]; intros s l2; cbn; [done|]. by rewrite IH, andb_assoc. Qed.

Lemma rounds_progress rounds : forall s,
  healthy s -> forallb fair rounds = true -> timely s (concat rounds) = true -> (work s <= length rounds)%nat ->
  healthy (foldl step s (concat rounds)) /\ work (foldl step s (concat rounds)) = O.
Proof.
  induction rounds as [|l rounds IH]; intros s Hh Hf Ht Hw; cbn [concat forallb foldl length] in *; [split; [done|lia]|].
  apply andb_prop in Hf as [Hl Hf]. unfold fair in Hl. rewrite !andb_true_iff, !bool_decide_eq_true in Hl.
  destruct Hl as [[Hc Hs] Hn]. rewrite timely_app in Ht. apply andb_prop in Ht as [Ht1 Ht2]. rewrite foldl_app.
  destruct (work_run l s Hh Hn Ht1) as [Hh' Hle]. apply IH; [done..|].
  destruct (decide (work s = O)) as [H0|H0]; [lia|]. destruct Hh as [Halive (a & pending & Hg)].
  assert (Hh : healthy s) by by split; eauto.
  destruct (some_enabled _ _ _ Hg Halive H0) as [Hen|Hen].
  - pose proof (round_progress l Client s Hh Hn Ht1 Hc Hen). lia.
  - pose proof (round_progress l Server s Hh Hn Ht1 Hs Hen). lia.
Qed.

(** No work is left when every call is answered. *)
Lemma no_work a pending s : good a pending s -> work s = O -> pending = [].
Proof.
  intros [Hinv _ _ _]. unfold work. intros Hw. assert (cpc s = CIdle) by (destruct (cpc s); cbn in Hw; lia || done).
  destruct Hinv as [k Hr ? Hn Hpc Hns Hro Hp|call k ? ? ? Hfl Hpost|call k ? ? Haw|call k ? ? Haw|call k ? ? ? ? Haw
    |call k ? ? ? ? ? ? Hrec]; [destruct (todo s); cbn in Hw; [done|lia]|..].
  - rewrite H in *. inversion Hpost.
  - rewrite H in *. inversion Haw.
  - rewrite H in *. inversion Haw.
  - rewrite H in *. inversion Haw.
  - rewrite H in *. inversion Hrec as [? Haw| | |]. inversion Haw.
Qed.

End runs.

(** C7. The ring implements remote calls: whatever the order in which the steps of client,
    server and a shutdown interleave, and whatever the file held before, as long as no wait of the
    client runs out, the results are those of the first calls dispatched one after the other, and
    the router has been given each of their requests exactly once, and at most the one in flight. *)
Theorem ring_refines_calls (f : ShmemBuffer) (r : R) (calls : list (Z * bytes)) (l : list action)
    (Hdispatch : forall r f, frame_ok f -> frame_ok (dispatch r f).2)
    (Hcalls : Forall call_ok calls) (Htimely : timely (start f r calls) l = true) :
  let s := foldl step (start f r calls) l in
  let n := length (results s) in
  (n <= length calls)%nat /\ results s = rpc_results (rpc_run r (take n calls)) /\
  (router s = rpc_router (rpc_run r (take n calls)) \/ router s = rpc_router (rpc_run r (take (S n) calls))).
Proof.
  intros s n. destruct (run_good Hdispatch l _ _ _ (start_good f r calls Hcalls) Htimely) as (m & Hm & Hg).
  fold s (rpc_run r (take m calls)) in Hg. pose proof (good_results _ _ _ Hg) as Hres.
  assert (n = m) as ->.
  { unfold n, rpc_run in *. rewrite Hres, rpc_results_length, length_take. cbn. lia. }
  split_and!; [done|done|]. destruct (good_router _ _ _ Hg) as [|(call & Hhead & Hro)]; [by left|right].
  rewrite head_lookup, lookup_drop, Nat.add_0_r in Hhead.
  rewrite (take_S_r _ _ _ Hhead). unfold rpc_run. by rewrite foldl_app.
Qed.

(** C40. Calls complete: if the steps come in rounds in which client and server both get a turn, and
    no wait of the client runs out, then after 25 rounds for each call all calls have returned with
    the results of dispatching them in order. *)
Theorem ring_completes_calls (f : ShmemBuffer) (r : R) (calls : list (Z * bytes)) (rounds : list (list action))
    (Hdispatch : forall r f, frame_ok f -> frame_ok (dispatch r f).2)
    (Hcalls : Forall call_ok calls) (Hfair : forallb fair rounds = true)
    (Htimely : timely (start f r calls) (concat rounds) = true) (Hrounds : (25 * length calls <= length rounds)%nat) :
  let s := foldl step (start f r calls) (concat rounds) in
  results s = rpc_results (rpc_run r calls) /\ router s = rpc_router (rpc_run r calls).
Proof.
  intros s. pose proof (start_good f r calls Hcalls) as Hstart.
  destruct (run_good Hdispatch _ _ _ _ Hstart Htimely) as (n & Hn & Hg). fold s in Hg.
  destruct (rounds_progress Hdispatch rounds (start f r calls)) as [_ Hw]; [|done|done|unfold work; cbn; lia|].
  { split; [done|eauto]. }
  pose proof (no_work _ _ _ Hg Hw) as Hdone. apply (f_equal length) in Hdone. rewrite length_drop in Hdone. cbn in Hdone.
  rewrite take_ge in Hg by lia. split; [apply Hg|]. rewrite drop_ge in Hg by lia.
  by destruct (good_router _ _ _ Hg) as [|(call & ? & _)].
Qed.

End ring.

(** *** Examples and limits *)

(** A router that counts its requests and answers with the count and the payload. *)
Definition counter (n : Z) (f : NmcpFrame) : Z * NmcpFrame :=
  (wrap 8 (n + 1), mkFrame 0 (sequence_id f) (wrap 8 n :: take 4000 (payload f))).

Definition no_json (_ : Z) (_ : string) : bytes := [].

Lemma counter_ok n f : frame_ok f -> frame_ok (counter n f).2.
Proof.
  intros [H1 H2 H3 H4]. constructor; cbn; [done|done|apply Forall_cons; split; [by apply wrap_fits|by apply Forall_take]|].
  rewrite length_take. unfold fits. lia.
Qed.

Definition sample_file : ShmemBuffer := mkBuffer (<[64 := 3]> ∅) 100.
Definition sample_calls : list (Z * bytes) := [(50, [1; 2]); (51, [])].
Definition sample_rounds : list (list action) := replicate 50 [Client; Server; Server].

Lemma sample_calls_ok : Forall call_ok sample_calls.
Proof. repeat constructor; cbn; repeat constructor; unfold fits; lia. Qed.

Lemma ring_refines_calls_witness :
  let l := concat sample_rounds in
  timely counter no_json (start sample_file 7 sample_calls) l = true /\
  results (foldl (step counter no_json) (start sample_file 7 sample_calls) l) =
    [Ok (mkFrame 0 1 [7; 1; 2]); Ok (mkFrame 0 2 [8])].
Proof.
  intros l. assert (Ht : timely counter no_json (start sample_file 7 sample_calls) l = true) by by vm_compute.
  split; [done|].
  pose proof (ring_refines_calls counter no_json sample_file 7 sample_calls l counter_ok sample_calls_ok Ht) as (_ & -> & _).
  by vm_compute.
Defined.

Lemma ring_completes_calls_witness :
  router (foldl (step counter no_json) (start sample_file 7 sample_calls) (concat sample_rounds)) = 9.
Proof.
  assert (Ht : timely counter no_json (start sample_file 7 sample_calls) (concat sample_rounds) = true) by by vm_compute.
  pose proof (ring_completes_calls counter no_json sample_file 7 sample_calls sample_rounds counter_ok sample_calls_ok
    ltac:(by vm_compute) Ht ltac:(cbn; lia)) as [_ ->].
  by vm_compute.
Defined.

(** A wait that runs out is not reported: the client goes on and reads its own request back as
    the response, here of a server that never ran. *)
Lemma timed_out_call_returns_request :
  results (Nat.iter (N.to_nat 100016) (client_step) (start (R:=Z) sample_file 7 [(50, [1; 2])])) =
    [Ok (mkFrame 50 1 [1; 2])].
Proof. by vm_compute. Qed.

End Shmem.
