(* ===== verification/Limiter.v ===== *)
(** * The concurrency limiter

    [concurrency_limiter.rs]: slots per workflow type, per namespace and in total,
    with rejection or a queue when a limit is reached.  A run is a list of
    operations with the admissions that are outstanding, which callers release.
    The theorem: admissions are counted exactly, and a request is admitted exactly
    when all three counts are below their limits.  Under the queueing policy only
    the total is; a lemma shows the type limit exceeded. *)

From S2P Require Import Prelude.

Module Limiter.

Inductive OverflowPolicy : Type := Reject | Queue | Preempt.

Record ConcurrencyConfig : Type := mkConfig {
  max_per_type : Z;
  max_per_namespace : Z;
  max_global : Z;
  overflow_policy : OverflowPolicy;
  max_queue_depth : Z;
  priority_levels : Z;
}.

Inductive AcquireResult : Type :=
| Acquired
| Rejected
| Queued (position : Z).

Record QueuedRequest : Type := mkRequest {
  q_key : Z;
  q_type : Z;
  q_namespace : Z;
  q_priority : Z;
  queued_at : Z;
}.

(** [TypeLimiter] and [NamespaceLimiter], which have the same fields. *)
Record SlotLimiter : Type := mkSlots { active : Z; limit : Z }.

Record WorkflowConcurrencyLimiter : Type := mkLimiter {
  config : ConcurrencyConfig;
  per_type : gmap Z SlotLimiter;
  per_namespace : gmap Z SlotLimiter;
  global_active : Z;
  queue : list QueuedRequest;
  total_acquired : Z;
  total_rejected : Z;
  total_queued : Z;
  total_released : Z;
}.

Definition limiter_new (c : ConcurrencyConfig) : WorkflowConcurrencyLimiter := mkLimiter c ∅ ∅ 0 [] 0 0 0 0.

(** [entry(k).or_insert(.. 0, limit ..)]. *)
Definition or_insert (m : gmap Z SlotLimiter) (k default_limit : Z) : gmap Z SlotLimiter :=
  match m !! k with
  | Some _ => m
  | None => <[k := mkSlots 0 default_limit]> m
  end.

(** Whether the entry of [k] has no free slot. *)
Definition full (m : gmap Z SlotLimiter) (k : Z) : bool :=
  match m !! k with Some s => limit s <=? active s | None => false end.

Definition add_active (m : gmap Z SlotLimiter) (k : Z) : gmap Z SlotLimiter :=
  alter (fun s => mkSlots (wrap 32 (active s + 1)) (limit s)) k m.
Definition sub_active (m : gmap Z SlotLimiter) (k : Z) : gmap Z SlotLimiter :=
  alter (fun s => mkSlots (saturating_sub (active s) 1) (limit s)) k m.

Definition with_slots (l : WorkflowConcurrencyLimiter) (types namespaces : gmap Z SlotLimiter) :
    WorkflowConcurrencyLimiter :=
  mkLimiter (config l) types namespaces (global_active l) (queue l) (total_acquired l) (total_rejected l)
    (total_queued l) (total_released l).

Definition commit_acquire (l : WorkflowConcurrencyLimiter) (ty ns : Z) : WorkflowConcurrencyLimiter :=
  mkLimiter (config l) (add_active (per_type l) ty) (add_active (per_namespace l) ns)
    (wrap 64 (global_active l + 1)) (queue l) (wrap 64 (total_acquired l + 1)) (total_rejected l)
    (total_queued l) (total_released l).

Definition reject (l : WorkflowConcurrencyLimiter) : WorkflowConcurrencyLimiter * AcquireResult :=
  (mkLimiter (config l) (per_type l) (per_namespace l) (global_active l) (queue l) (total_acquired l)
     (wrap 64 (total_rejected l + 1)) (total_queued l) (total_released l), Rejected).

Definition handle_overflow (l : WorkflowConcurrencyLimiter) (key ty ns priority : Z) :
    WorkflowConcurrencyLimiter * AcquireResult :=
  match overflow_policy (config l) with
  | Reject => reject l
  | Queue =>
      let pos := Z.of_nat (length (queue l)) in
      if max_queue_depth (config l) <=? pos then reject l
      else
        (mkLimiter (config l) (per_type l) (per_namespace l) (global_active l)
           (queue l ++ [mkRequest key ty ns priority pos]) (total_acquired l) (total_rejected l)
           (wrap 64 (total_queued l + 1)) (total_released l), Queued pos)
  | Preempt => reject l
  end.

Definition acquire (l : WorkflowConcurrencyLimiter) (key ty ns priority : Z) :
    WorkflowConcurrencyLimiter * AcquireResult :=
  if max_global (config l) <=? global_active l then handle_overflow l key ty ns priority
  else
    let l := with_slots l (or_insert (per_type l) ty (max_per_type (config l))) (per_namespace l) in
    if full (per_type l) ty then handle_overflow l key ty ns priority
    else
      let l := with_slots l (per_type l) (or_insert (per_namespace l) ns (max_per_namespace (config l))) in
      if full (per_namespace l) ns then handle_overflow l key ty ns priority
      else (commit_acquire l ty ns, Acquired).

Definition try_dequeue (l : WorkflowConcurrencyLimiter) : WorkflowConcurrencyLimiter :=
  match queue l with
  | [] => l
  | request :: rest =>
      if max_global (config l) <=? global_active l then l
      else if full (per_type l) (q_type request) then l
      else if full (per_namespace l) (q_namespace request) then l
      else
        commit_acquire
          (mkLimiter (config l) (per_type l) (per_namespace l) (global_active l) rest (total_acquired l)
             (total_rejected l) (total_queued l) (total_released l))
          (q_type request) (q_namespace request)
  end.

Definition release (l : WorkflowConcurrencyLimiter) (ty ns : Z) : WorkflowConcurrencyLimiter :=
  try_dequeue
    (mkLimiter (config l) (sub_active (per_type l) ty) (sub_active (per_namespace l) ns)
       (wrap 64 (global_active l - 1)) (queue l) (total_acquired l) (total_rejected l) (total_queued l)
       (wrap 64 (total_released l + 1))).

Definition active_for (m : gmap Z SlotLimiter) (k : Z) : Z :=
  match m !! k with Some s => active s | None => 0 end.
Definition active_for_type (l : WorkflowConcurrencyLimiter) (ty : Z) : Z := active_for (per_type l) ty.
Definition active_for_namespace (l : WorkflowConcurrencyLimiter) (ns : Z) : Z := active_for (per_namespace l) ns.

Definition set_limit (m : gmap Z SlotLimiter) (k default_limit new_limit : Z) : gmap Z SlotLimiter :=
  alter (fun s => mkSlots (active s) new_limit) k (or_insert m k default_limit).
Definition set_type_limit (l : WorkflowConcurrencyLimiter) (ty new_limit : Z) : WorkflowConcurrencyLimiter :=
  with_slots l (set_limit (per_type l) ty (max_per_type (config l)) new_limit) (per_namespace l).
Definition set_namespace_limit (l : WorkflowConcurrencyLimiter) (ns new_limit : Z) : WorkflowConcurrencyLimiter :=
  with_slots l (per_type l) (set_limit (per_namespace l) ns (max_per_namespace (config l)) new_limit).

(** ** Runs

    [held] are the admissions that were granted and not released, as pairs of type
    and namespace.  Callers release what they hold. *)

Inductive limiter_op : Type :=
| Acquire (key ty ns priority : Z)
| Release (ty ns : Z)
| SetTypeLimit (ty new_limit : Z)
| SetNamespaceLimit (ns new_limit : Z).

Fixpoint remove_one (p : Z * Z) (held : list (Z * Z)) : list (Z * Z) :=
  match held with
  | [] => []
  | q :: held => if bool_decide (p = q) then held else q :: remove_one p held
  end.

(** The request the queue lost between two states, if any, which was admitted. *)
Definition admitted (l l' : WorkflowConcurrencyLimiter) : list (Z * Z) :=
  if (length (queue l') <? length (queue l))%nat
  then map (fun q => (q_type q, q_namespace q)) (take 1 (queue l))
  else [].

Definition limiter_step (s : WorkflowConcurrencyLimiter * list (Z * Z)) (o : limiter_op) :
    WorkflowConcurrencyLimiter * list (Z * Z) :=
  let '(l, held) := s in
  match o with
  | Acquire key ty ns priority =>
      let '(l', r) := acquire l key ty ns priority in
      (l', match r with Acquired => (ty, ns) :: held | _ => held end)
  | Release ty ns =>
      if bool_decide ((ty, ns) ∈ held) then
        let l' := release l ty ns in (l', admitted l l' ++ remove_one (ty, ns) held)
      else s
  | SetTypeLimit ty n => (set_type_limit l ty n, held)
  | SetNamespaceLimit ns n => (set_namespace_limit l ns n, held)
  end.

Definition limiter_run (c : ConcurrencyConfig) (os : list limiter_op) : WorkflowConcurrencyLimiter * list (Z * Z) :=
  foldl limiter_step (limiter_new c, []) os.

Definition held_of (f : Z * Z -> Z) (held : list (Z * Z)) (k : Z) : Z :=
  Z.of_nat (length (List.filter (fun p => f p =? k) held)).

Definition limit_for (m : gmap Z SlotLimiter) (k default_limit : Z) : Z :=
  match m !! k with Some s => limit s | None => default_limit end.

(** ** Counting *)

Lemma held_of_cons f held p k : held_of f (p :: held) k = held_of f held k + (if f p =? k then 1 else 0).
Proof. unfold held_of. cbn [List.filter]. case_match; cbn [length]; lia. Qed.

Lemma held_of_le f held k : 0 <= held_of f held k <= Z.of_nat (length held).
Proof. unfold held_of. pose proof (sublist_length _ _ (filter_sublist (fun p => f p =? k) held)). lia. Qed.

Lemma held_of_remove f held p k :
  p ∈ held -> held_of f (remove_one p held) k = held_of f held k - (if f p =? k then 1 else 0).
Proof.
  induction held as [|q held IH]; intros Hp; [by apply not_elem_of_nil in Hp|]. cbn [remove_one].
  case_bool_decide as Hq; [subst q; rewrite held_of_cons; lia|].
  apply elem_of_cons in Hp as [->|Hp]; [done|]. rewrite !held_of_cons, IH by done. lia.
Qed.

Lemma remove_one_length held p : p ∈ held -> S (length (remove_one p held)) = length held.
Proof.
  induction held as [|q held IH]; intros Hp; [by apply not_elem_of_nil in Hp|]. cbn [remove_one].
  case_bool_decide as Hq; [done|]. apply elem_of_cons in Hp as [->|Hp]; [done|]. cbn. by rewrite IH.
Qed.

(** The slots of [m] count the held admissions by [f]. *)
Definition exact (m : gmap Z SlotLimiter) (f : Z * Z -> Z) (held : list (Z * Z)) : Prop :=
  forall k, active_for m k = held_of f held k.

Lemma active_or_insert m k d j : active_for (or_insert m k d) j = active_for m j.
Proof.
  unfold or_insert, active_for. destruct (m !! k) eqn:Hk; [done|].
  destruct (decide (k = j)) as [->|]; [by rewrite lookup_insert_eq, Hk|by rewrite lookup_insert_ne].
Qed.

Lemma or_insert_some m k d : is_Some (or_insert m k d !! k).
Proof. unfold or_insert. destruct (m !! k) eqn:Hk; [by eexists|]. rewrite lookup_insert_eq. by eexists. Qed.

Lemma full_or_insert m k d : full (or_insert m k d) k = (limit_for m k d <=? active_for m k).
Proof.
  unfold full, or_insert, limit_for, active_for. destruct (m !! k) eqn:Hk; [by rewrite Hk|]. by rewrite lookup_insert_eq.
Qed.

Lemma exact_or_insert m k d f held : exact m f held -> exact (or_insert m k d) f held.
Proof. intros He j. by rewrite active_or_insert. Qed.

Lemma exact_alter m k g f held held' :
  exact m f held -> (forall s, m !! k = Some s -> active (g s) = held_of f held' k) ->
  (m !! k = None -> held_of f held' k = 0) -> (forall j, j <> k -> held_of f held' j = held_of f held j) ->
  exact (alter g k m) f held'.
Proof.
  intros He Hs Hn Hj j. unfold active_for. destruct (decide (j = k)) as [->|Hne].
  - rewrite lookup_alter_eq. destruct (m !! k) as [s|]; cbn; [by apply Hs|by rewrite Hn].
  - rewrite lookup_alter_ne, Hj by done. apply He.
Qed.

Lemma exact_add m f held p :
  exact m f held -> is_Some (m !! f p) -> u32 (Z.of_nat (length held) + 1) -> exact (add_active m (f p)) f (p :: held).
Proof.
  intros He [s Hs] Hb. eapply exact_alter; [done|intros s' Hs'|congruence|intros j Hj].
  - pose proof (held_of_le f held (f p)). specialize (He (f p)). unfold active_for in He. rewrite Hs' in He. cbn.
    rewrite held_of_cons, Z.eqb_refl, wrap_id by ranges. lia.
  - rewrite held_of_cons, (proj2 (Z.eqb_neq _ _)) by congruence. lia.
Qed.

Lemma exact_sub m f held p : exact m f held -> p ∈ held -> exact (sub_active m (f p)) f (remove_one p held).
Proof.
  intros He Hp. pose proof (held_of_remove f held p (f p) Hp) as Hr. rewrite Z.eqb_refl in Hr.
  pose proof (held_of_le f (remove_one p held) (f p)). pose proof (He (f p)) as Hfp. unfold active_for in Hfp.
  eapply exact_alter; [done|intros s Hs|intros Hn|intros j Hj].
  - rewrite Hs in Hfp. cbn. unfold saturating_sub. lia.
  - rewrite Hn in Hfp. lia.
  - rewrite held_of_remove, (proj2 (Z.eqb_neq _ _)) by congruence. lia.
Qed.

Lemma exact_set_limit m k d n f held : exact m f held -> exact (set_limit m k d n) f held.
Proof.
  intros He. apply (exact_or_insert _ k d) in He. eapply exact_alter; [done|intros s Hs|intros Hn|done].
  - cbn. rewrite <- (He k). unfold active_for. by rewrite Hs.
  - rewrite <- (He k). unfold active_for. by rewrite Hn.
Qed.

(** ** The invariant *)

Record limiter_inv (c : ConcurrencyConfig) (s : WorkflowConcurrencyLimiter * list (Z * Z)) : Prop := {
  inv_config : config s.1 = c;
  inv_global : global_active s.1 = Z.of_nat (length s.2);
  inv_max : Z.of_nat (length s.2) <= max_global c;
  inv_depth : Z.of_nat (length (queue s.1)) <= max_queue_depth c;
  inv_exact : overflow_policy c <> Queue ->
    queue s.1 = [] /\ exact (per_type s.1) fst s.2 /\ exact (per_namespace s.1) snd s.2;
}.

Definition config_ok (c : ConcurrencyConfig) : Prop := u32 (max_global c) /\ 0 <= max_queue_depth c.

Lemma commit_inv c l held ty ns :
  config_ok c -> limiter_inv c (l, held) -> global_active l < max_global c ->
  (overflow_policy c <> Queue -> is_Some (per_type l !! ty) /\ is_Some (per_namespace l !! ns)) ->
  limiter_inv c (commit_acquire l ty ns, (ty, ns) :: held).
Proof.
  intros [Hmax _] [H1 H2 H3 H4 H5] Hlt Hsome. cbn [fst snd] in *. constructor; cbn [fst snd commit_acquire config
    global_active queue per_type per_namespace length]; [done|rewrite wrap_id; ranges|lia|done|].
  intros Hp. destruct (H5 Hp) as (Hq & Ht & Hn), (Hsome Hp). split_and!; [done|..].
  - apply (exact_add _ fst _ (ty, ns)); [done..|ranges].
  - apply (exact_add _ snd _ (ty, ns)); [done..|ranges].
Qed.

Lemma overflow_inv c l held key ty ns priority :
  limiter_inv c (l, held) -> limiter_inv c ((handle_overflow l key ty ns priority).1, held) /\
  (handle_overflow l key ty ns priority).2 <> Acquired /\
  (overflow_policy c <> Queue -> (handle_overflow l key ty ns priority).2 = Rejected).
Proof.
  intros [H1 H2 H3 H4 H5]. cbn [fst snd] in *. unfold handle_overflow. rewrite H1.
  destruct (overflow_policy c) eqn:Hp; [by split_and!; [constructor; cbn; rewrite ?Hp|..]| |
    by split_and!; [constructor; cbn; rewrite ?Hp|..]].
  destruct (Z.leb_spec (max_queue_depth c) (Z.of_nat (length (queue l)))); split_and!; try done;
    constructor; cbn [fst snd reject config global_active queue]; rewrite ?Hp; try done.
  rewrite length_app. cbn. lia.
Qed.

Lemma slots_inv c l held types namespaces :
  limiter_inv c (l, held) ->
  (exact (per_type l) fst held -> exact types fst held) ->
  (exact (per_namespace l) snd held -> exact namespaces snd held) ->
  limiter_inv c (with_slots l types namespaces, held).
Proof.
  intros [H1 H2 H3 H4 H5] Ht Hn. constructor; try done. intros Hp. destruct (H5 Hp) as (? & ? & ?). cbn in *. auto.
Qed.

(** All three counts are below their limits. *)
Definition below_limits (l : WorkflowConcurrencyLimiter) (held : list (Z * Z)) (ty ns : Z) : bool :=
  (Z.of_nat (length held) <? max_global (config l)) &&
  (held_of fst held ty <? limit_for (per_type l) ty (max_per_type (config l))) &&
  (held_of snd held ns <? limit_for (per_namespace l) ns (max_per_namespace (config l))).

Lemma acquire_inv c l held key ty ns priority :
  config_ok c -> limiter_inv c (l, held) ->
  let '(l', r) := acquire l key ty ns priority in
  limiter_inv c (l', match r with Acquired => (ty, ns) :: held | _ => held end) /\
  (overflow_policy c <> Queue -> r = if below_limits l held ty ns then Acquired else Rejected).
Proof.
  intros Hc Hinv. unfold acquire, below_limits.
  assert (Hover : forall m, limiter_inv c (m, held) ->
    let '(l', r) := handle_overflow m key ty ns priority in
    limiter_inv c (l', match r with Acquired => (ty, ns) :: held | _ => held end) /\
    (overflow_policy c <> Queue -> r = Rejected)).
  { intros m Hm. destruct (overflow_inv c m held key ty ns priority Hm) as (H1 & H2 & H3).
    destruct (handle_overflow m key ty ns priority) as [l' r]. cbn in *. split; [|done]. by destruct r. }
  pose proof (inv_config _ _ Hinv) as Hcfg. pose proof (inv_global _ _ Hinv) as Hg. cbn [fst snd] in Hcfg, Hg.
  rewrite <- Hg. destruct (Z.leb_spec (max_global (config l)) (global_active l)) as [Hmax|Hmax].
  { rewrite (proj2 (Z.ltb_ge (global_active l) _)) by done. by apply Hover. }
  rewrite (proj2 (Z.ltb_lt (global_active l) _)) by done. cbn [andb with_slots per_type per_namespace config].
  assert (Hex : overflow_policy c <> Queue ->
    active_for (per_type l) ty = held_of fst held ty /\ active_for (per_namespace l) ns = held_of snd held ns).
  { intros Hp. destruct (inv_exact _ _ Hinv Hp) as (_ & Ht & Hn). split; [apply Ht|apply Hn]. }
  rewrite !full_or_insert. destruct (Z.leb_spec (limit_for (per_type l) ty (max_per_type (config l))) (active_for (per_type l) ty)).
  { specialize (Hover (with_slots l (or_insert (per_type l) ty (max_per_type (config l))) (per_namespace l))
      (slots_inv _ _ _ _ _ Hinv (exact_or_insert _ _ _ _ _) (fun H => H))).
    case_match. destruct Hover as [Hi Hr]. split; [done|]. intros Hp. destruct (Hex Hp) as [<- _].
    rewrite (proj2 (Z.ltb_ge (active_for (per_type l) ty) _)) by done. auto. }
  set (l2 := with_slots _ _ (or_insert (per_namespace l) ns _)).
  assert (Hinv2 : limiter_inv c (l2, held)).
  { apply (slots_inv c (with_slots l (or_insert (per_type l) ty (max_per_type (config l))) (per_namespace l))); [|done|apply exact_or_insert].
    apply slots_inv; [done|apply exact_or_insert|done]. }
  destruct (Z.leb_spec (limit_for (per_namespace l) ns (max_per_namespace (config l))) (active_for (per_namespace l) ns)).
  { specialize (Hover l2 Hinv2). case_match. destruct Hover as [Hi Hr]. split; [done|]. intros Hp.
    destruct (Hex Hp) as [_ <-]. rewrite (proj2 (Z.ltb_ge (active_for (per_namespace l) ns) _)) by done.
    rewrite andb_false_r. auto. }
  split.
  - apply commit_inv; [done|done|cbn; by rewrite <- Hcfg|]. intros _. split; apply or_insert_some.
  - intros Hp. destruct (Hex Hp) as [<- <-]. by rewrite !(proj2 (Z.ltb_lt _ _)).
Qed.

Lemma limiter_release_inv c l held ty ns :
  config_ok c -> limiter_inv c (l, held) -> (ty, ns) ∈ held ->
  limiter_inv c (release l ty ns, admitted l (release l ty ns) ++ remove_one (ty, ns) held).
Proof.
  intros Hc [H1 H2 H3 H4 H5] Hp. cbn [fst snd] in *. pose proof (remove_one_length held _ Hp) as Hlen.
  unfold release. set (m := mkLimiter _ _ _ _ _ _ _ _ _).
  assert (Hm : limiter_inv c (m, remove_one (ty, ns) held)).
  { constructor; cbn [fst snd m config global_active queue per_type per_namespace]; [done|..|done|].
    - destruct Hc. rewrite wrap_id; ranges.
    - lia.
    - intros Hq. destruct (H5 Hq) as (? & ? & ?). split_and!; [done|by apply (exact_sub _ fst _ (ty, ns))
        |by apply (exact_sub _ snd _ (ty, ns))]. }
  assert (Hsame : limiter_inv c (m, admitted l m ++ remove_one (ty, ns) held)).
  { unfold admitted. cbn [m queue]. by rewrite (proj2 (Nat.ltb_ge _ _)) by lia. }
  unfold try_dequeue. cbn [m queue]. destruct (queue l) as [|q rest] eqn:Hq; [done|]. fold m.
  destruct (Z.leb_spec (max_global (config m)) (global_active m)) as [|Hlt]; [done|].
  do 2 (case_match; [done|]).
  unfold admitted. cbn [commit_acquire queue m]. rewrite Hq. cbn [length].
  rewrite (proj2 (Nat.ltb_lt _ _)) by lia. cbn [take map app]. apply commit_inv; [done| |by rewrite <- H1|].
  - destruct Hm as [I1 I2 I3 I4 I5]. cbn [fst snd m config global_active queue] in *. constructor; cbn; try done.
    + cbn in I4. lia.
    + intros Hpol. destruct (I5 Hpol) as [I _]. congruence.
  - intros Hpol. destruct (H5 Hpol) as [I _]. congruence.
Qed.

Lemma run_inv c os : config_ok c -> limiter_inv c (limiter_run c os).
Proof.
  intros Hc. unfold limiter_run.
  assert (H0 : limiter_inv c (limiter_new c, [])) by (destruct Hc as [[? ?] ?]; constructor; cbn; done).
  revert H0. generalize (limiter_new c, [] : list (Z * Z)). induction os as [|o os IH]; intros [l held] Hs; [done|].
  cbn [foldl]. apply IH. destruct o as [key ty ns p|ty ns|ty n|ns n]; cbn [limiter_step].
  - pose proof (acquire_inv c l held key ty ns p Hc Hs). case_match. naive_solver.
  - case_bool_decide; [by apply limiter_release_inv|done].
  - apply slots_inv; [done|apply exact_set_limit|done].
  - apply slots_inv; [done|done|apply exact_set_limit].
Qed.

(** Admissions are counted exactly: in every run the total is the number of admissions held
    and never above its maximum, and the queue never longer than its depth.  Without the
    queueing policy the counts per type and per namespace are exact too, whatever limits are
    changed meanwhile, and a request is admitted exactly when all three are below their limits. *)
Theorem limiter_admits_exactly (c : ConcurrencyConfig) (os : list limiter_op) (Hc : config_ok c) :
  let '(l, held) := limiter_run c os in
  global_active l = Z.of_nat (length held) /\ global_active l <= max_global c /\
  Z.of_nat (length (queue l)) <= max_queue_depth c /\
  (overflow_policy c <> Queue -> forall ty ns,
     active_for_type l ty = held_of fst held ty /\ active_for_namespace l ns = held_of snd held ns /\
     forall key priority,
       (acquire l key ty ns priority).2 = if below_limits l held ty ns then Acquired else Rejected).
Proof.
  pose proof (run_inv c os Hc) as Hinv. destruct (limiter_run c os) as [l held].
  pose proof Hinv as [H1 H2 H3 H4 H5]. cbn [fst snd] in *. split_and!; [done|lia|done|].
  intros Hp ty ns. destruct (H5 Hp) as (_ & Ht & Hn). split_and!; [apply Ht|apply Hn|]. intros key priority.
  pose proof (acquire_inv c l held key ty ns priority Hc Hinv) as Ha. case_match. by apply Ha.
Qed.

Definition sample_config (p : OverflowPolicy) : ConcurrencyConfig := mkConfig 1 3 2 p 4 4.
Definition sample_ops : list limiter_op :=
  [Acquire 1 10 7 0; Acquire 2 10 7 0; Acquire 3 11 7 0; Acquire 4 12 7 0; Release 10 7; SetTypeLimit 11 2].

Lemma limiter_admits_exactly_witness :
  let '(l, held) := limiter_run (sample_config Reject) sample_ops in
  held = [(11, 7)] /\ (acquire l 5 11 7 0).2 = Acquired.
Proof.
  pose proof (limiter_admits_exactly (sample_config Reject) sample_ops) as H.
  destruct (limiter_run (sample_config Reject) sample_ops) as [l held] eqn:Heq.
  assert (Hc : config_ok (sample_config Reject)) by (split; cbn; unfold fits; lia).
  destruct (H Hc) as (_ & _ & _ & Ha). destruct (Ha ltac:(done) 11 7) as (_ & _ & Hacq).
  specialize (Hacq 5 0). vm_compute in Heq. injection Heq as <- <-. split; [done|]. rewrite Hacq. by vm_compute.
Defined.

(** A request queued at the total limit is admitted without an entry for its type: it is not
    counted, and more requests of the type than its limit of one run at the same time. *)
Lemma queued_admission_uncounted :
  let '(l, held) := limiter_run (sample_config Queue)
    [Acquire 1 10 7 0; Acquire 2 11 7 0; Acquire 3 12 7 0; Release 10 7; Release 11 7; Acquire 4 12 7 0] in
  held_of fst held 12 = 2 /\ limit_for (per_type l) 12 (max_per_type (config l)) = 1.
Proof. by vm_compute. Qed.

End Limiter.
