(* ===== verification/Replication.v ===== *)
(** * Replication between clusters

    The version histories and the cluster table of [cluster.rs], and the conflict
    resolver, acknowledgement tracker, dead-letter queue and gap detector of
    [ndc_replication.rs].  A version history is the run-length encoding of an event
    log in which every event carries the failover version it was written under
    ([expand]); comparisons of histories are specified by the logs they stand for.
    Where two histories agree on their common versions up to the last one
    ([aligned]) the comparisons are exact; lemmas show what happens otherwise. *)

From S2P Require Import Prelude.

(** ** Version histories *)

Module Versions.

Record VersionHistoryItem : Type := mkItem { failover_version : Z; event_id : Z }.

#[export] Instance item_eq_dec : EqDecision VersionHistoryItem.
Proof. solve_decision. Defined.

(** [VersionHistory] has the one field [items]. *)
Definition VersionHistory : Type := list VersionHistoryItem.

Fixpoint add_item (h : VersionHistory) (v e : Z) : VersionHistory :=
  match h with
  | [] => [mkItem v e]
  | i :: h' =>
      match h' with
      | [] => if failover_version i =? v then [mkItem v e] else [i; mkItem v e]
      | _ => i :: add_item h' v e
      end
  end.

Definition current_version (h : VersionHistory) : Z :=
  match last h with Some i => failover_version i | None => 0 end.
Definition current_event_id (h : VersionHistory) : Z :=
  match last h with Some i => event_id i | None => 0 end.

Definition vh_contains (self other : VersionHistory) : bool :=
  match other with
  | [] => true
  | _ =>
      negb (length self <? length other)%nat &&
      forallb (fun p => (failover_version p.1 =? failover_version p.2) && (event_id p.2 <=? event_id p.1))
        (zip self other)
  end.

(** The loop of [find_divergence_point], with the value of [divergence] so far. *)
Fixpoint divergence_loop (a b : VersionHistory) (divergence : Z) : Z :=
  match a, b with
  | x :: a, y :: b =>
      if failover_version x =? failover_version y
      then divergence_loop a b (Z.min (event_id x) (event_id y)) else divergence
  | _, _ => divergence
  end.

Definition find_divergence_point (a b : VersionHistory) : Z := divergence_loop a b 0.

(** *** The log behind a history *)

(** The versions of the events after [from]. *)
Fixpoint expand (from : Z) (h : VersionHistory) : list Z :=
  match h with
  | [] => []
  | i :: h => replicate (Z.to_nat (event_id i - from)) (failover_version i) ++ expand (event_id i) h
  end.

(** Event ids increase and neighbours have different versions. *)
Fixpoint wf (from : Z) (h : VersionHistory) : Prop :=
  match h with
  | [] => True
  | i :: h =>
      from < event_id i /\ wf (event_id i) h /\
      match h with j :: _ => failover_version i <> failover_version j | [] => True end
  end.

(** Recording the events of a log one by one, numbered from [n + 1]. *)
Fixpoint record_log (h : VersionHistory) (n : Z) (log : list Z) : VersionHistory :=
  match log with
  | [] => h
  | v :: log => record_log (add_item h v (n + 1)) (n + 1) log
  end.

Definition last_event (from : Z) (h : VersionHistory) : Z :=
  match last h with Some i => event_id i | None => from end.

(** The versions of two histories agree on a common run before its last one only
    if the run ends at the same event. *)
Fixpoint aligned (a b : VersionHistory) : bool :=
  match a, b with
  | x :: a', y :: b' =>
      match a', b' with
      | x' :: _, y' :: _ =>
          if (failover_version x =? failover_version y) && (failover_version x' =? failover_version y')
          then (event_id x =? event_id y) && aligned a' b' else true
      | _, _ => true
      end
  | _, _ => true
  end.

(** The length of the longest common prefix. *)
Fixpoint common (l1 l2 : list Z) : nat :=
  match l1, l2 with
  | x :: l1, y :: l2 => if x =? y then S (common l1 l2) else O
  | _, _ => O
  end.

Lemma common_replicate n v l1 l2 : common (replicate n v ++ l1) (replicate n v ++ l2) = (n + common l1 l2)%nat.
Proof. induction n as [|n IH]; cbn; [done|]. by rewrite Z.eqb_refl, IH. Qed.

Lemma common_sym l1 : forall l2, common l1 l2 = common l2 l1.
Proof.
  induction l1 as [|x l1 IH]; intros [|y l2]; cbn; try done. rewrite (Z.eqb_sym y x), IH. done.
Qed.

Lemma prefix_common l2 : forall l1, l2 `prefix_of` l1 <-> common l1 l2 = length l2.
Proof.
  induction l2 as [|y l2 IH]; intros [|x l1]; cbn.
  - split; [done|]. intros _. apply prefix_nil.
  - split; [done|]. intros _. apply prefix_nil.
  - split; [by intros ?%prefix_nil_inv|done].
  - destruct (Z.eqb_spec x y) as [->|Hne].
    + split; [intros ->%prefix_cons_inv_2%IH; done|]. intros [= H]. by apply prefix_cons, IH.
    + split; [|done]. intros ?%prefix_cons_inv_1. congruence.
Qed.

(** What follows the run of an item does not continue it. *)
Definition stops (v : Z) (l : list Z) : Prop := match l with [] => True | w :: _ => w <> v end.

Lemma expand_stops i h : wf (event_id i) h -> match h with j :: _ => failover_version i <> failover_version j | [] => True end ->
  stops (failover_version i) (expand (event_id i) h).
Proof.
  destruct h as [|j h]; cbn [wf expand]; [done|]. intros (Hlt & _) Hne.
  replace (Z.to_nat (event_id j - event_id i)) with (S (Z.to_nat (event_id j - event_id i - 1))) by lia. cbn. congruence.
Qed.

Lemma common_stops v n l1 l2 : (0 < n)%nat -> stops v l1 -> common l1 (replicate n v ++ l2) = O.
Proof. intros Hn Hs. destruct n; [lia|]. destruct l1; cbn in *; [done|]. by rewrite (proj2 (Z.eqb_neq _ _)). Qed.

Lemma common_runs v n m l1 l2 :
  n <> m -> stops v l1 -> stops v l2 -> common (replicate n v ++ l1) (replicate m v ++ l2) = Nat.min n m.
Proof.
  intros Hnm H1 H2. destruct (decide (n < m)%nat) as [Hlt|Hge].
  - replace m with (n + (m - n))%nat at 1 by lia. rewrite replicate_add, <- app_assoc, common_replicate.
    rewrite common_stops by (done || lia). lia.
  - replace n with (m + (n - m))%nat at 1 by lia. rewrite replicate_add, <- app_assoc, common_replicate.
    rewrite common_sym, common_stops by (done || lia). lia.
Qed.

(** *** The comparisons are exact on aligned histories *)

Lemma aligned_tail x a y b :
  aligned (x :: a) (y :: b) = true -> failover_version x = failover_version y ->
  aligned a b = true /\ (event_id x = event_id y \/
    match a, b with x' :: _, y' :: _ => failover_version x' <> failover_version y' | _, _ => True end).
Proof.
  cbn [aligned]. intros Ha Hv. rewrite (proj2 (Z.eqb_eq _ _) Hv) in Ha.
  destruct a as [|x' a], b as [|y' b]; [by auto..|]. destruct (Z.eqb_spec (failover_version x') (failover_version y')) as [He|He].
  - apply andb_prop in Ha as [?%Z.eqb_eq ?]. auto.
  - split; [|auto]. cbn [aligned]. rewrite (proj2 (Z.eqb_neq _ _) He). by destruct a, b.
Qed.

Lemma loop_stops a b d :
  match a, b with x :: _, y :: _ => failover_version x <> failover_version y | _, _ => True end ->
  divergence_loop a b d = d.
Proof. destruct a, b; cbn; try done. intros He. by rewrite (proj2 (Z.eqb_neq _ _) He). Qed.

(** The runs of two items with the same version that end at different events. *)
Lemma common_items from x a y b :
  wf from (x :: a) -> wf from (y :: b) -> failover_version x = failover_version y -> event_id x <> event_id y ->
  Z.of_nat (common (expand from (x :: a)) (expand from (y :: b))) = Z.min (event_id x) (event_id y) - from.
Proof.
  intros (Hx & Hwa & Hna) (Hy & Hwb & Hnb) Hv He. cbn [expand]. rewrite Hv, common_runs.
  - lia.
  - lia.
  - rewrite <- Hv. by apply expand_stops.
  - by apply expand_stops.
Qed.

Lemma common_same_item from x a y b :
  from < event_id x -> failover_version x = failover_version y -> event_id x = event_id y ->
  Z.of_nat (common (expand from (x :: a)) (expand from (y :: b))) =
    event_id x - from + Z.of_nat (common (expand (event_id x) a) (expand (event_id x) b)).
Proof. intros Hx Hv He. cbn [expand]. rewrite Hv, He, common_replicate. lia. Qed.

Lemma common_diff_item from x a y b :
  from < event_id x -> from < event_id y -> failover_version x <> failover_version y ->
  common (expand from (x :: a)) (expand from (y :: b)) = O.
Proof.
  intros Hx Hy Hv. cbn [expand]. destruct (Z.to_nat (event_id x - from)) eqn:E1, (Z.to_nat (event_id y - from)) eqn:E2;
    try lia. cbn. by rewrite (proj2 (Z.eqb_neq _ _) Hv).
Qed.

Lemma divergence_spec a : forall from b,
  wf from a -> wf from b -> aligned a b = true ->
  divergence_loop a b from = from + Z.of_nat (common (expand from a) (expand from b)).
Proof.
  induction a as [|x a IH]; intros from [|y b] Ha Hb Hal; try (cbn; lia).
  - rewrite common_sym. cbn. lia.
  - pose proof Ha as (Hx & Hwa & _). pose proof Hb as (Hy & Hwb & _). cbn [divergence_loop].
    destruct (Z.eqb_spec (failover_version x) (failover_version y)) as [Hv|Hv].
    + destruct (aligned_tail _ _ _ _ Hal Hv) as [Hal' Hor].
      destruct (decide (event_id x = event_id y)) as [He|He].
      * rewrite common_same_item, <- He, Z.min_id by done. rewrite <- He in Hwb. rewrite IH by done. lia.
      * rewrite common_items by done. destruct Hor as [|Hor]; [done|]. rewrite loop_stops by done. lia.
    + rewrite common_diff_item by done. lia.
Qed.

Lemma contains_cons x a y b :
  vh_contains (x :: a) (y :: b) =
    (failover_version x =? failover_version y) && (event_id y <=? event_id x) && vh_contains a b.
Proof.
  unfold vh_contains. cbn [length zip zip_with forallb fst snd]. change (S (length a) <? S (length b))%nat with (length a <? length b)%nat.
  destruct b as [|y' b];
    [|by destruct (negb _), (failover_version x =? failover_version y), (event_id y <=? event_id x)].
  cbn [length zip zip_with forallb]. destruct a; cbn; by rewrite ?andb_true_r.
Qed.

Lemma expand_pos from y b : wf from (y :: b) -> (0 < length (expand from (y :: b)))%nat.
Proof. intros (Hy & _). cbn [expand]. rewrite length_app, length_replicate. lia. Qed.

Lemma contains_spec a : forall from b,
  wf from a -> wf from b -> aligned a b = true ->
  vh_contains a b = true <-> expand from b `prefix_of` expand from a.
Proof.
  induction a as [|x a IH]; intros from [|y b] Ha Hb Hal; rewrite prefix_common.
  - done.
  - pose proof (expand_pos _ _ _ Hb). split; [done|]. change (expand from []) with (@nil Z). cbn [common]. lia.
  - by rewrite common_sym.
  - pose proof Ha as (Hx & Hwa & _). pose proof Hb as (Hy & Hwb & _). rewrite contains_cons.
    destruct (Z.eqb_spec (failover_version x) (failover_version y)) as [Hv|Hv].
    2: { rewrite common_diff_item by done. pose proof (expand_pos _ _ _ Hb). cbn [andb]. split; [done|lia]. }
    destruct (aligned_tail _ _ _ _ Hal Hv) as [Hal' Hor]. cbn [andb].
    assert (Hlen : Z.of_nat (length (expand from (y :: b))) =
      event_id y - from + Z.of_nat (length (expand (event_id y) b))).
    { cbn [expand]. rewrite length_app, length_replicate. lia. }
    destruct (decide (event_id x = event_id y)) as [He|He].
    + rewrite <- He in Hwb, Hlen. pose proof (common_same_item from x a y b Hx Hv He) as Hc.
      rewrite <- He, Z.leb_refl. cbn [andb]. rewrite (IH (event_id x) b), prefix_common by done. lia.
    + pose proof (common_items from x a y b Ha Hb Hv He) as Hc. destruct Hor as [|Hor]; [done|].
      destruct (Z.leb_spec (event_id y) (event_id x)); cbn [andb]; [|split; [done|lia]].
      destruct b as [|y' b]; [cbn in *; split; [lia|by destruct a]|]. pose proof (expand_pos _ _ _ Hwb).
      split; [|lia]. intros Hcon. exfalso. destruct a as [|x' a]; [done|]. rewrite contains_cons in Hcon.
      by rewrite (proj2 (Z.eqb_neq _ _) Hor) in Hcon.
Qed.

(** *** Recording a log *)

Lemma last_event_cons from i h : last_event from (i :: h) = last_event (event_id i) h.
Proof. unfold last_event. rewrite last_cons. by destruct (last h). Qed.

Lemma add_item_spec h v : forall from,
  wf from h ->
  let n := last_event from h in
  let h' := add_item h v (n + 1) in
  wf from h' /\ expand from h' = expand from h ++ [v] /\ last_event from h' = n + 1 /\
  (forall i, head h = Some i -> exists i', head h' = Some i' /\ failover_version i' = failover_version i).
Proof.
  induction h as [|i [|j h] IH]; intros from Hwf n h'.
  - subst n h'. cbn. split_and!; try (done || lia). by replace (Z.to_nat (from + 1 - from)) with 1%nat by lia.
  - subst n h'. cbn in *. destruct Hwf as (Hlt & _). destruct (Z.eqb_spec (failover_version i) v) as [Hv|Hv]; cbn;
      split_and!; try (done || lia); try (intros ? [= <-]; by eexists).
    + rewrite !app_nil_r, Hv.
      replace (Z.to_nat (event_id i + 1 - from)) with (Z.to_nat (event_id i - from) + 1)%nat by lia.
      by rewrite replicate_add.
    + replace (Z.to_nat (event_id i + 1 - event_id i)) with 1%nat by lia. by rewrite !app_nil_r.
  - destruct Hwf as (Hlt & Hwf & Hne). destruct (IH (event_id i) Hwf) as (H1 & H2 & H3 & H4).
    assert (Hn : n = last_event (event_id i) (j :: h)) by apply last_event_cons. subst h'. rewrite Hn in *.
    destruct (H4 j eq_refl) as (j' & Hj' & Hv). change (add_item (i :: j :: h) v) with (fun e => i :: add_item (j :: h) v e).
    cbn beta. destruct (add_item (j :: h) v (last_event (event_id i) (j :: h) + 1)) as [|k h''] eqn:Hadd; [done|].
    injection Hj' as ->. split_and!.
    + split_and!; [done|done|congruence].
    + change (expand from (i :: j' :: h'')) with
        (replicate (Z.to_nat (event_id i - from)) (failover_version i) ++ expand (event_id i) (j' :: h'')).
      by rewrite H2, app_assoc.
    + by rewrite last_event_cons.
    + intros ? [= <-]. by eexists.
Qed.

Lemma record_log_spec log : forall h n,
  wf 0 h -> last_event 0 h = n ->
  wf 0 (record_log h n log) /\ expand 0 (record_log h n log) = expand 0 h ++ log.
Proof.
  induction log as [|v log IH]; intros h n Hwf Hn; cbn [record_log]; [by rewrite app_nil_r|].
  destruct (add_item_spec h v 0 Hwf) as (H1 & H2 & H3 & _). rewrite Hn in *.
  destruct (IH _ _ H1 H3) as [I1 I2]. split; [done|]. by rewrite I2, H2, <- app_assoc.
Qed.

(** A version history stands for the log it recorded: expanding it gives the versions of
    all events, and for two logs whose histories are aligned [find_divergence_point] is the length
    of their longest common prefix and [contains] says whether one is a prefix of the other. *)
Theorem version_history_exact (log1 log2 : list Z) :
  let h1 := record_log [] 0 log1 in
  let h2 := record_log [] 0 log2 in
  expand 0 h1 = log1 /\
  (aligned h1 h2 = true ->
   find_divergence_point h1 h2 = Z.of_nat (common log1 log2) /\
   (vh_contains h1 h2 = true <-> log2 `prefix_of` log1)).
Proof.
  intros h1 h2. destruct (record_log_spec log1 [] 0 I eq_refl) as [W1 E1].
  destruct (record_log_spec log2 [] 0 I eq_refl) as [W2 E2]. cbn [expand app] in E1, E2.
  fold h1 in W1, E1. fold h2 in W2, E2. split; [done|]. intros Hal.
  split.
  - unfold find_divergence_point. by rewrite divergence_spec, E1, E2 by done.
  - by rewrite (contains_spec h1 0 h2), E1, E2.
Qed.

Lemma version_history_exact_witness :
  let h1 := record_log [] 0 [1; 1; 4; 4; 4] in
  let h2 := record_log [] 0 [1; 1; 4; 7] in
  h1 = [mkItem 1 2; mkItem 4 5] /\ find_divergence_point h1 h2 = 3 /\ vh_contains h1 h2 = false.
Proof.
  intros h1 h2. split; [done|]. pose proof (version_history_exact [1; 1; 4; 4; 4] [1; 1; 4; 7]) as [_ H].
  destruct (H eq_refl) as [Hd Hc]. split; [exact Hd|]. apply not_true_iff_false. intros Hp%Hc.
  apply prefix_length in Hp as Hl. by apply prefix_common in Hp.
Defined.

(** Histories of logs that part at event 1 and later run under the same version again: the
    divergence is reported at event 3, and the shorter log passes for a part of the longer. *)
Lemma misaligned_histories :
  let h1 := record_log [] 0 [1; 1; 2; 2] in
  let h2 := record_log [] 0 [1; 2; 2] in
  common [1; 1; 2; 2] [1; 2; 2] = 1%nat /\ find_divergence_point h1 h2 = 3 /\ vh_contains h1 h2 = true.
Proof. by vm_compute. Qed.

End Versions.

(** ** Version stores, conflicts and consistency *)

Module Ndc.
Import Versions.

Inductive ReplicationTaskType : Type :=
| SyncHistory | SyncActivity | SyncWorkflowState | NamespaceMetadata | SyncHSM | VerifyTransition
| DeleteExecution | BackfillHistory | SyncVersionedTransition.

Record ReplicationTask : Type := mkTask {
  task_id : Z;
  source_cluster_id : Z;
  target_cluster_id : Z;
  workflow_key : Z;
  event_type : Z;
  t_payload : bytes;
  t_failover_version : Z;
  task_type : ReplicationTaskType;
  first_event_id : Z;
  t_last_event_id : Z;
  created_ms : Z;
}.

Abbreviation VersionHistoryStore := (gmap Z VersionHistory).

Definition get_or_create (st : VersionHistoryStore) (k : Z) : VersionHistoryStore * VersionHistory :=
  match st !! k with Some h => (st, h) | None => (<[k := []]> st, []) end.

Definition store_record_event (st : VersionHistoryStore) (k v e : Z) : VersionHistoryStore :=
  <[k := add_item (default [] (st !! k)) v e]> st.

Definition check_incoming (st : VersionHistoryStore) (k remote_version remote_event_id : Z) : bool :=
  match st !! k with
  | None => true
  | Some local =>
      if current_version local <? remote_version then true
      else if remote_version <? current_version local then false
      else current_event_id local <? remote_event_id
  end.

Definition store_remove (st : VersionHistoryStore) (k : Z) : VersionHistoryStore * bool :=
  (delete k st, bool_decide (is_Some (st !! k))).

Inductive ConflictResolution : Type := KeepLocal | AcceptRemote | Merge | Unresolvable.

#[export] Instance resolution_eq_dec : EqDecision ConflictResolution.
Proof. solve_decision. Defined.

Record ReplicationConflict : Type := mkConflict {
  c_workflow_key : Z;
  c_local_cluster_id : Z;
  c_remote_cluster_id : Z;
  c_local_version : Z;
  c_remote_version : Z;
  c_local_event_id : Z;
  c_remote_event_id : Z;
  resolution : ConflictResolution;
  c_detected_at_ms : Z;
}.

(** The value of [resolution] in [resolve]. *)
Definition decide_conflict (local remote : VersionHistory) : ConflictResolution :=
  let local_version := current_version local in
  let local_event_id := current_event_id local in
  let remote_version := current_version remote in
  let remote_event_id := current_event_id remote in
  if local_version <? remote_version then AcceptRemote
  else if remote_version <? local_version then KeepLocal
  else if local_event_id <? remote_event_id then
    if (remote_event_id =? wrap 64 (local_event_id + 1)) || vh_contains remote local then Merge else Unresolvable
  else if remote_event_id =? local_event_id then Merge
  else KeepLocal.

(** The counter [next_conflict_id] is never read. *)
Record ConflictResolver : Type := mkResolver {
  version_store : VersionHistoryStore;
  local_cluster_id : Z;
  conflicts : list ReplicationConflict;
}.

Definition resolve (r : ConflictResolver) (task : ReplicationTask) (remote : VersionHistory) :
    ConflictResolver * ConflictResolution :=
  let '(st, local) := get_or_create (version_store r) (workflow_key task) in
  let res := decide_conflict local remote in
  (mkResolver st (local_cluster_id r)
     (if bool_decide (res = Merge) then conflicts r
      else conflicts r ++
        [mkConflict (workflow_key task) (local_cluster_id r) (source_cluster_id task) (current_version local)
           (current_version remote) (current_event_id local) (current_event_id remote) res 0]), res).

Record ConsistencyCheckResult : Type := mkCheck {
  k_workflow_key : Z;
  cluster_a_id : Z;
  cluster_b_id : Z;
  is_consistent : bool;
  cluster_a_version : Z;
  cluster_b_version : Z;
  cluster_a_event_id : Z;
  cluster_b_event_id : Z;
  divergence_point : Z;
}.

Definition record_cluster_state (hs : gmap (Z * Z) VersionHistory) (k c : Z) (h : VersionHistory) :
    gmap (Z * Z) VersionHistory := <[(k, c) := h]> hs.

Definition check_pair (hs : gmap (Z * Z) VersionHistory) (k a b : Z) : ConsistencyCheckResult :=
  match hs !! (k, a), hs !! (k, b) with
  | Some ha, Some hb =>
      mkCheck k a b
        ((current_version ha =? current_version hb) && (current_event_id ha =? current_event_id hb))
        (current_version ha) (current_version hb) (current_event_id ha) (current_event_id hb)
        (find_divergence_point ha hb)
  | _, _ => mkCheck k a b false 0 0 0 0 0
  end.

Fixpoint check_all_clusters (hs : gmap (Z * Z) VersionHistory) (k : Z) (ids : list Z) :
    list ConsistencyCheckResult :=
  match ids with
  | [] => []
  | a :: ids => map (check_pair hs k a) ids ++ check_all_clusters hs k ids
  end.

(** *** Resolution follows the logs *)

Lemma expand_length h : forall from, wf from h -> Z.of_nat (length (expand from h)) = last_event from h - from.
Proof.
  induction h as [|i h IH]; intros from Hwf; [cbn; lia|]. destruct Hwf as (Hlt & Hwf & _).
  rewrite last_event_cons. cbn [expand]. rewrite length_app, length_replicate. specialize (IH _ Hwf). lia.
Qed.

Lemma aligned_cons x x' a y y' b :
  aligned (x :: x' :: a) (y :: y' :: b) =
    if (failover_version x =? failover_version y) && (failover_version x' =? failover_version y')
    then (event_id x =? event_id y) && aligned (x' :: a) (y' :: b) else true.
Proof. done. Qed.

(** A prefix of a log has a history aligned with that of the log. *)
Lemma prefix_aligned a : forall from b,
  wf from a -> wf from b -> expand from a `prefix_of` expand from b -> aligned b a = true.
Proof.
  induction a as [|x a IH]; intros from [|y b] Ha Hb Hp; try done.
  destruct a as [|x' a]; [by destruct b|]. destruct b as [|y' b]; [done|]. rewrite aligned_cons.
  destruct (Z.eqb_spec (failover_version y) (failover_version x)) as [Hv|]; [|done].
  destruct (Z.eqb_spec (failover_version y') (failover_version x')) as [Hv'|]; [|done]. cbn [andb].
  pose proof Ha as (Hx & Hwa & _). pose proof Hb as (Hy & Hwb & _). apply prefix_common in Hp as Hc.
  pose proof (expand_length _ _ Ha) as Hl. rewrite last_event_cons in Hl.
  pose proof (expand_length _ _ Hwa) as Hl'. pose proof (expand_pos _ _ _ Hwa).
  assert (He : event_id y = event_id x).
  { destruct (decide (event_id y = event_id x)) as [|He]; [done|].
    pose proof (common_items from _ _ _ _ Hb Ha Hv He). lia. }
  rewrite (proj2 (Z.eqb_eq _ _) He). cbn [andb]. rewrite <- He in *. apply (IH (event_id y)); [done..|].
  apply prefix_common. pose proof (common_same_item from y (y' :: b) x (x' :: a) Hy Hv ltac:(lia)) as Hs. lia.
Qed.

Lemma expand_last h : forall from, wf from h -> last (expand from h) = failover_version <$> last h.
Proof.
  induction h as [|i h IH]; intros from Hwf; [done|]. destruct Hwf as (Hlt & Hwf & _).
  cbn [expand]. rewrite last_app, (IH _ Hwf), last_cons. destruct (last h); [done|]. cbn.
  replace (Z.to_nat (event_id i - from)) with (Z.to_nat (event_id i - from - 1) + 1)%nat by lia.
  rewrite replicate_add. apply last_snoc.
Qed.

Lemma recorded_state log :
  let h := record_log [] 0 log in
  wf 0 h /\ expand 0 h = log /\ current_version h = default 0 (last log) /\ current_event_id h = Z.of_nat (length log).
Proof.
  intros h. destruct (record_log_spec log [] 0 I eq_refl) as [W E]. fold h in W, E. cbn [expand app] in E.
  pose proof (expand_last h 0 W) as Hl. pose proof (expand_length h 0 W) as Hn. rewrite E in Hl, Hn.
  split_and!; [done..| |].
  - unfold current_version. rewrite Hl. by destruct (last h).
  - unfold current_event_id, last_event in *. destruct (last h); lia.
Qed.

Lemma sorted_last (l k : list Z) v w :
  StronglySorted Z.le (l ++ k) -> last l = Some v -> last (l ++ k) = Some w -> v <= w.
Proof.
  intros Hs Hl Hk. rewrite last_app in Hk. destruct (last k) as [w'|] eqn:E; [|rewrite Hl in Hk; simplify_eq; lia].
  simplify_eq. apply last_Some in Hl as [l' ->]. apply last_Some in E as [k' ->].
  apply StronglySorted_app in Hs as (Hf & _ & _). apply (Hf v w); set_solver.
Qed.

Lemma prefix_version l1 l2 :
  StronglySorted Z.le l2 -> Forall (fun v => 0 <= v) l2 -> l1 `prefix_of` l2 ->
  default 0 (last l1) <= default 0 (last l2).
Proof.
  intros Hs Hf [k ->]. destruct (last l1) as [v|] eqn:E1; cbn.
  - destruct (last (l1 ++ k)) as [w|] eqn:E2; cbn.
    + by apply (sorted_last l1 k).
    + rewrite last_app in E2. destruct (last k); congruence.
  - destruct (last (l1 ++ k)) as [w|] eqn:E2; cbn; [|lia]. apply last_Some_elem_of in E2.
    rewrite Forall_forall in Hf. by apply Hf.
Qed.

Lemma contains_prefix l1 l2 :
  l1 `prefix_of` l2 -> vh_contains (record_log [] 0 l2) (record_log [] 0 l1) = true.
Proof.
  intros Hp. destruct (recorded_state l1) as (W1 & E1 & _). destruct (recorded_state l2) as (W2 & E2 & _).
  apply (contains_spec _ 0); [done..| |by rewrite E1, E2]. apply (prefix_aligned _ 0); [done..|by rewrite E1, E2].
Qed.

(** The verdict on a remote log that extends the local one, and on one that the local log extends. *)
Lemma decide_behind l1 l2 :
  StronglySorted Z.le l2 -> Forall (fun v => 0 <= v) l2 -> l1 `prefix_of` l2 ->
  decide_conflict (record_log [] 0 l1) (record_log [] 0 l2) =
    if default 0 (last l1) <? default 0 (last l2) then AcceptRemote else Merge.
Proof.
  intros Hs Hf Hp. pose proof (prefix_version _ _ Hs Hf Hp). apply prefix_length in Hp as Hl.
  destruct (recorded_state l1) as (_ & _ & V1 & I1). destruct (recorded_state l2) as (_ & _ & V2 & I2).
  unfold decide_conflict. rewrite V1, V2, I1, I2, contains_prefix, orb_true_r by done.
  destruct (Z.ltb_spec (default 0 (last l1)) (default 0 (last l2))); [done|].
  rewrite (proj2 (Z.ltb_ge _ _)) by lia. case_match; [done|]. by rewrite (proj2 (Z.eqb_eq _ _)) by lia.
Qed.

Lemma decide_ahead l1 l2 :
  StronglySorted Z.le l1 -> Forall (fun v => 0 <= v) l1 -> l2 `prefix_of` l1 -> l1 <> l2 ->
  decide_conflict (record_log [] 0 l1) (record_log [] 0 l2) = KeepLocal.
Proof.
  intros Hs Hf Hp Hne. pose proof (prefix_version _ _ Hs Hf Hp).
  assert ((length l2 < length l1)%nat).
  { destruct Hp as [k ->]. rewrite length_app. destruct k; [by rewrite app_nil_r in Hne|cbn; lia]. }
  destruct (recorded_state l1) as (_ & _ & V1 & I1). destruct (recorded_state l2) as (_ & _ & V2 & I2).
  unfold decide_conflict. rewrite V1, V2, I1, I2. rewrite (proj2 (Z.ltb_ge _ _)) by lia.
  case_match; [done|]. rewrite (proj2 (Z.ltb_ge _ _)) by lia. by rewrite (proj2 (Z.eqb_neq _ _)) by lia.
Qed.

(** The verdicts of the two sides on each other, whatever the histories. *)
Lemma decide_opposite a b :
  (decide_conflict a b = AcceptRemote -> decide_conflict b a = KeepLocal) /\
  (decide_conflict a b = Unresolvable -> decide_conflict b a = KeepLocal) /\
  (decide_conflict a b = KeepLocal -> decide_conflict b a <> KeepLocal) /\
  (decide_conflict a b = Merge -> decide_conflict b a = KeepLocal \/
     decide_conflict b a = Merge /\ current_version a = current_version b /\ current_event_id a = current_event_id b).
Proof.
  unfold decide_conflict. destruct (Z.ltb_spec (current_version a) (current_version b)),
    (Z.ltb_spec (current_version b) (current_version a)), (Z.ltb_spec (current_event_id a) (current_event_id b)),
    (Z.ltb_spec (current_event_id b) (current_event_id a)); try lia; try done;
    destruct (Z.eqb_spec (current_event_id b) (current_event_id a)),
      (Z.eqb_spec (current_event_id a) (current_event_id b)); try lia; repeat case_match;
    split_and!; try done; intros _; (by left) || (right; split_and!; [done|lia|lia]).
Qed.

Lemma resolve_verdict r t local h :
  version_store r !! workflow_key t = Some local -> (resolve r t h).2 = decide_conflict local h.
Proof. intros H. unfold resolve, get_or_create. by rewrite H. Qed.

(** C26. Two clusters hold logs of one workflow and send each other their version histories.
    Whatever the logs: if one side accepts the other's history or finds the conflict unresolvable,
    the other side keeps its own; if one side merges, the other keeps its own or merges too, and
    then both logs have the same length and last version; the two never both keep theirs.
    If the failover versions of neither log ever decrease and one log is a prefix of the other, the
    side that is behind accepts the other's history when that ends in a later version and merges it
    otherwise, and the side that is ahead keeps its own. *)
Theorem conflict_resolution_converges (r1 r2 : ConflictResolver) (t1 t2 : ReplicationTask) (log1 log2 : list Z)
  (Hf1 : Forall u64 log1) (Hf2 : Forall u64 log2)
  (Hk1 : version_store r1 !! workflow_key t1 = Some (record_log [] 0 log1))
  (Hk2 : version_store r2 !! workflow_key t2 = Some (record_log [] 0 log2)) :
  let at1 := (resolve r1 t1 (record_log [] 0 log2)).2 in
  let at2 := (resolve r2 t2 (record_log [] 0 log1)).2 in
  (at1 = AcceptRemote \/ at1 = Unresolvable -> at2 = KeepLocal) /\
  (at2 = AcceptRemote \/ at2 = Unresolvable -> at1 = KeepLocal) /\
  (at1 = Merge -> at2 = KeepLocal \/ at2 = Merge /\ length log1 = length log2 /\ last log1 = last log2) /\
  (at1 = KeepLocal -> at2 <> KeepLocal) /\
  (StronglySorted Z.le log1 -> StronglySorted Z.le log2 -> log1 `prefix_of` log2 ->
   at1 = (if default 0 (last log1) <? default 0 (last log2) then AcceptRemote else Merge) /\
   (log1 <> log2 -> at2 = KeepLocal)).
Proof.
  intros at1 at2. subst at1 at2. rewrite (resolve_verdict _ _ _ _ Hk1), (resolve_verdict _ _ _ _ Hk2).
  assert (Hn : forall l, Forall u64 l -> Forall (fun v => 0 <= v) l).
  { intros l Hl. eapply Forall_impl; [exact Hl|]. intros v [? _]. done. }
  destruct (decide_opposite (record_log [] 0 log1) (record_log [] 0 log2)) as (A1 & A2 & A3 & A4).
  destruct (decide_opposite (record_log [] 0 log2) (record_log [] 0 log1)) as (B1 & B2 & _).
  split_and!; [naive_solver|naive_solver| |done|].
  - intros HM. destruct (A4 HM) as [|(Hm & Hv & He)]; [by left|right]. split; [done|].
    destruct (recorded_state log1) as (_ & _ & V1 & I1). destruct (recorded_state log2) as (_ & _ & V2 & I2).
    rewrite V1, V2 in Hv. rewrite I1, I2 in He. split; [lia|].
    destruct log1 as [|x l1], log2 as [|y l2]; [done|cbn in He; lia..|].
    destruct (last (x :: l1)) as [a|] eqn:E1; [|by apply last_None in E1].
    destruct (last (y :: l2)) as [b|] eqn:E2; [|by apply last_None in E2]. cbn in Hv. by subst.
  - intros Hs1 Hs2 Hp. split; [by apply decide_behind; auto|]. intros Hne. apply decide_ahead; auto.
Qed.

Definition sample_task (id source key : Z) : ReplicationTask := mkTask id source 0 key 1 [] 0 SyncHistory id id 0.

Lemma conflict_resolution_converges_witness :
  let r1 := mkResolver {[5 := record_log [] 0 [1; 1]]} 0 [] in
  let r2 := mkResolver {[5 := record_log [] 0 [1; 1; 1; 1]]} 1 [] in
  (resolve r1 (sample_task 9 1 5) (record_log [] 0 [1; 1; 1; 1])).2 = Merge /\
  (resolve r2 (sample_task 9 0 5) (record_log [] 0 [1; 1])).2 = KeepLocal.
Proof.
  intros r1 r2.
  destruct (conflict_resolution_converges r1 r2 (sample_task 9 1 5) (sample_task 9 0 5) [1; 1] [1; 1; 1; 1]) as (_ & _ & _ & _ & H);
    [by repeat constructor..|done|done|]. destruct H as [H1 H2]; [by repeat constructor..|by exists [1; 1]|].
  split; [exact H1|]. by apply H2.
Defined.

(** With versions that decrease, the side that is ahead gives its last event up. *)
Lemma decreasing_version_loses_event :
  decide_conflict (record_log [] 0 [5]) (record_log [] 0 [5; 1]) = KeepLocal /\
  decide_conflict (record_log [] 0 [5; 1]) (record_log [] 0 [5]) = AcceptRemote.
Proof. by vm_compute. Qed.

(** The resolver merges histories that are not prefixes of one another when the last versions are
    the same and the remote event id is equal or one more; the consistency check compares the same
    last items only. *)
Lemma divergent_logs_merge :
  let l1 := [1; 1; 1; 5; 5; 5] in
  let l2 := [1; 1; 5; 5; 5; 5; 5] in
  let hs := record_cluster_state (record_cluster_state ∅ 7 0 (record_log [] 0 l1)) 7 1 (record_log [] 0 (take 6 l2)) in
  common l1 l2 = 2%nat /\ decide_conflict (record_log [] 0 l1) (record_log [] 0 l2) = Merge /\
  is_consistent (check_pair hs 7 0 1) = true.
Proof. by vm_compute. Qed.

End Ndc.

(** ** Acknowledgements *)

Module Acks.

Inductive TaskAckState : Type := Pending | Acked | Nacked | TimedOut.

#[export] Instance ack_state_eq_dec : EqDecision TaskAckState.
Proof. solve_decision. Defined.

Record TaskAckRecord : Type := mkAck {
  a_task_id : Z;
  a_workflow_key : Z;
  a_target_cluster_id : Z;
  a_state : TaskAckState;
  sent_at_ms : Z;
  acked_at_ms : option Z;
  retry_count : Z;
}.

Record TaskAckTrackerStats : Type := mkStats {
  total_tracked : Z;
  total_acked : Z;
  total_nacked : Z;
  total_timed_out : Z;
  total_retries : Z;
}.

Record TaskAckTracker : Type := mkTracker {
  records : gmap Z (gmap Z TaskAckRecord);
  pending_sequences : gmap Z (list Z);
  max_retries : Z;
  ack_stats : TaskAckTrackerStats;
}.

Definition tracker_new (max : Z) : TaskAckTracker := mkTracker ∅ ∅ max (mkStats 0 0 0 0 0).

Definition cluster_records (t : TaskAckTracker) (c : Z) : gmap Z TaskAckRecord := default ∅ (records t !! c).

Definition detect_gaps (t : TaskAckTracker) (c : Z) : list Z := default [] (pending_sequences t !! c).

Definition track_sent (t : TaskAckTracker) (c id key : Z) : TaskAckTracker :=
  let s := ack_stats t in
  mkTracker (<[c := <[id := mkAck id key c Pending 0 None 0]> (cluster_records t c)]> (records t))
    (<[c := detect_gaps t c ++ [id]]> (pending_sequences t)) (max_retries t)
    (mkStats (wrap 64 (total_tracked s + 1)) (total_acked s) (total_nacked s) (total_timed_out s) (total_retries s)).

(** [seq.retain(|&id| id != task_id)] on the sequence of a cluster, where it has one. *)
Definition drop_pending (t : TaskAckTracker) (c id : Z) : gmap Z (list Z) :=
  alter (List.filter (fun x => negb (x =? id))) c (pending_sequences t).

Definition set_record (t : TaskAckTracker) (c id : Z) (r : TaskAckRecord) : gmap Z (gmap Z TaskAckRecord) :=
  <[c := <[id := r]> (cluster_records t c)]> (records t).

Definition record_ack (t : TaskAckTracker) (c id : Z) : TaskAckTracker * bool :=
  let s := ack_stats t in
  match cluster_records t c !! id with
  | None => (t, false)
  | Some r =>
      (mkTracker
         (set_record t c id (mkAck (a_task_id r) (a_workflow_key r) (a_target_cluster_id r) Acked (sent_at_ms r)
                               (Some 0) (retry_count r)))
         (drop_pending t c id) (max_retries t)
         (mkStats (total_tracked s) (wrap 64 (total_acked s + 1)) (total_nacked s) (total_timed_out s)
            (total_retries s)), true)
  end.

Definition record_nack (t : TaskAckTracker) (c id : Z) : TaskAckTracker * bool :=
  let s := ack_stats t in
  match cluster_records t c !! id with
  | None => (t, false)
  | Some r =>
      let retries := wrap 32 (retry_count r + 1) in
      let with_state st :=
        mkAck (a_task_id r) (a_workflow_key r) (a_target_cluster_id r) st (sent_at_ms r) (acked_at_ms r) retries in
      if max_retries t <=? retries then
        (mkTracker (set_record t c id (with_state Nacked)) (drop_pending t c id) (max_retries t)
           (mkStats (total_tracked s) (total_acked s) (wrap 64 (total_nacked s + 1)) (total_timed_out s)
              (total_retries s)), true)
      else
        (mkTracker (set_record t c id (with_state (a_state r))) (pending_sequences t) (max_retries t)
           (mkStats (total_tracked s) (total_acked s) (total_nacked s) (total_timed_out s)
              (wrap 64 (total_retries s + 1))), true)
  end.

(** [m.values()] in the order [order] of the task ids. *)
Definition get_redelivery_candidates (t : TaskAckTracker) (c : Z) (order : list Z) : list TaskAckRecord :=
  List.filter (fun r => bool_decide (a_state r = Pending) && (0 <? retry_count r))
    (omap (fun id => cluster_records t c !! id) order).

(** *** Runs and the fate of a task *)

Inductive ack_op : Type := Send (c id key : Z) | Ack (c id : Z) | Nack (c id : Z).

Definition ack_step (t : TaskAckTracker) (op : ack_op) : TaskAckTracker :=
  match op with
  | Send c id key => track_sent t c id key
  | Ack c id => (record_ack t c id).1
  | Nack c id => (record_nack t c id).1
  end.

Definition ack_run (max : Z) (ops : list ack_op) : TaskAckTracker := fold_left ack_step ops (tracker_new max).

(** A task sent to a cluster is outstanding with the number of rejections so far, until it is
    acknowledged or rejected [max] times (once when [max] is 0). *)
Definition fate_step (max c id : Z) (f : option Z) (op : ack_op) : option Z :=
  match op with
  | Send c' id' _ => if (c' =? c) && (id' =? id) then Some 0 else f
  | Ack c' id' => if (c' =? c) && (id' =? id) then None else f
  | Nack c' id' =>
      if (c' =? c) && (id' =? id) then n ← f; if n + 1 <? max then Some (n + 1) else None else f
  end.

Definition fate (max : Z) (ops : list ack_op) (c id : Z) : option Z :=
  fold_left (fate_step max c id) ops None.

Definition sends (c : Z) (ops : list ack_op) : list Z :=
  omap (fun op => match op with Send c' id _ => if c' =? c then Some id else None | _ => None end) ops.

(** The record says what became of the task, and the pending sequence lists the outstanding ones. *)
Definition tracks (max : Z) (ops : list ack_op) (t : TaskAckTracker) : Prop :=
  max_retries t = max /\
  (forall c id, fate max ops c id =
     (r ← cluster_records t c !! id; if bool_decide (a_state r = Pending) then Some (retry_count r) else None)) /\
  (forall c id n, fate max ops c id = Some n -> 0 <= n /\ (n = 0 \/ n < max)) /\
  (forall c id, id ∈ sends c ops <-> is_Some (cluster_records t c !! id)).

Lemma cluster_records_set t c id r rs seqs m st c' :
  rs = set_record t c id r ->
  cluster_records (mkTracker rs seqs m st) c' = if decide (c = c') then <[id := r]> (cluster_records t c) else cluster_records t c'.
Proof.
  intros ->. unfold cluster_records at 1, set_record. cbn [records]. case_decide as E.
  - subst. by rewrite lookup_insert_eq.
  - by rewrite lookup_insert_ne.
Qed.

Lemma lookup_set t c id r rs seqs m st c' id' :
  rs = set_record t c id r ->
  cluster_records (mkTracker rs seqs m st) c' !! id' =
    if (c =? c') && (id =? id') then Some r else cluster_records t c' !! id'.
Proof.
  intros ->. erewrite cluster_records_set by done. case_decide as E.
  - subst. rewrite Z.eqb_refl. cbn [andb]. destruct (Z.eqb_spec id id') as [->|]; simplify_map_eq; done.
  - by rewrite (proj2 (Z.eqb_neq _ _)).
Qed.

Lemma gaps_drop t c id rs m st c' :
  detect_gaps (mkTracker rs (drop_pending t c id) m st) c' =
    if c =? c' then List.filter (fun x => negb (x =? id)) (detect_gaps t c') else detect_gaps t c'.
Proof.
  unfold detect_gaps, drop_pending. cbn [pending_sequences]. destruct (Z.eqb_spec c c') as [->|Hne].
  - rewrite lookup_alter_eq. by destruct (pending_sequences t !! c').
  - by rewrite lookup_alter_ne.
Qed.

Lemma fate_snoc max ops op c id : fate max (ops ++ [op]) c id = fate_step max c id (fate max ops c id) op.
Proof. unfold fate. by rewrite fold_left_app. Qed.

Lemma sends_snoc c ops op : sends c (ops ++ [op]) = sends c ops ++ sends c [op].
Proof. unfold sends. by rewrite omap_app. Qed.

Lemma ack_run_snoc max ops op : ack_run max (ops ++ [op]) = ack_step (ack_run max ops) op.
Proof. unfold ack_run. by rewrite fold_left_app. Qed.

Lemma sends_nil c op : match op with Send _ _ _ => False | _ => True end -> sends c [op] = [].
Proof. by destruct op. Qed.

Lemma pending_bound max ops t c id r :
  u32 max -> tracks max ops t -> cluster_records t c !! id = Some r -> a_state r = Pending ->
  fate max ops c id = Some (retry_count r) /\ wrap 32 (retry_count r + 1) = retry_count r + 1 /\
  (0 <= retry_count r).
Proof.
  intros Hm (_ & Hf & Hb & _) Hr Hp. specialize (Hf c id). rewrite Hr in Hf. cbn in Hf.
  rewrite bool_decide_true in Hf by done. split; [done|]. destruct (Hb _ _ _ Hf). unfold fits in Hm.
  split; [|done]. apply Z.mod_small. lia.
Qed.

Lemma tracks_send max ops t c id key :
  tracks max ops t -> tracks max (ops ++ [Send c id key]) (track_sent t c id key).
Proof.
  intros (Hm & Hf & Hb & Hs). split; [done|].
  assert (Hl : forall c' id', cluster_records (track_sent t c id key) c' !! id' =
    if (c =? c') && (id =? id') then Some (mkAck id key c Pending 0 None 0) else cluster_records t c' !! id').
  { intros. by apply lookup_set. }
  split_and!.
  - intros c' id'. rewrite fate_snoc, Hl. cbn [fate_step]. destruct ((c =? c') && (id =? id')); [done|apply Hf].
  - intros c' id' n. rewrite fate_snoc. cbn [fate_step]. destruct ((c =? c') && (id =? id')); [|apply Hb].
    intros [= <-]. lia.
  - intros c' id'. rewrite sends_snoc, Hl, elem_of_app, Hs. cbn.
    destruct (Z.eqb_spec c c') as [->|]; cbn; [|set_solver]. rewrite list_elem_of_singleton.
    destruct (Z.eqb_spec id id') as [->|]; [split; [by eexists|by right]|]. split; [by intros [?| ->]|by left].
Qed.

Lemma tracks_ack max ops t c id : tracks max ops t -> tracks max (ops ++ [Ack c id]) (record_ack t c id).1.
Proof.
  intros (Hm & Hf & Hb & Hs).
  assert (Hb' : forall c' id' n, fate max (ops ++ [Ack c id]) c' id' = Some n -> 0 <= n /\ (n = 0 \/ n < max)).
  { intros c' id' n. rewrite fate_snoc. cbn [fate_step]. case_match; [done|apply Hb]. }
  unfold record_ack. destruct (cluster_records t c !! id) as [r|] eqn:Hr; cbn [fst]; (split; [done|]); split_and!; [|done| | |done|].
  - intros c' id'. rewrite fate_snoc. erewrite lookup_set by done. cbn [fate_step]. case_match; [done|apply Hf].
  - intros c' id'. rewrite sends_snoc, sends_nil, app_nil_r, Hs by done. erewrite lookup_set by done. case_match eqn:E; [|done].
    apply andb_prop in E as [->%Z.eqb_eq ->%Z.eqb_eq]. rewrite Hr. split; by eexists.
  - intros c' id'. rewrite fate_snoc. cbn [fate_step]. case_match eqn:E; [|apply Hf].
    apply andb_prop in E as [->%Z.eqb_eq ->%Z.eqb_eq]. by rewrite Hr.
  - intros c' id'. by rewrite sends_snoc, sends_nil, app_nil_r, Hs.
Qed.

(** The record after a rejection: still pending with one more retry, or given up. *)
Lemma nack_lookup max ops t c id r :
  u32 max -> tracks max ops t -> cluster_records t c !! id = Some r ->
  exists r', (forall c' id', cluster_records (record_nack t c id).1 c' !! id' =
                if (c =? c') && (id =? id') then Some r' else cluster_records t c' !! id') /\
    (if bool_decide (a_state r' = Pending) then Some (retry_count r') else None) =
      fate_step max c id (fate max ops c id) (Nack c id).
Proof.
  intros Hu Ht Hr. pose proof Ht as (Hm & Hf & _). specialize (Hf c id). rewrite Hr in Hf. cbn in Hf.
  unfold record_nack. rewrite Hr, Hm. cbn [fate_step]. rewrite !Z.eqb_refl. cbn [andb].
  destruct (bool_decide_reflect (a_state r = Pending)) as [Hp|Hp].
  - destruct (pending_bound _ _ _ _ _ _ Hu Ht Hr Hp) as (_ & Hw & _). rewrite Hf, Hw. cbn.
    destruct (Z.leb_spec max (retry_count r + 1)); cbn [fst]; eexists; (split; [intros; by apply lookup_set|]).
    + cbn. by rewrite (proj2 (Z.ltb_ge _ _)) by lia.
    + cbn. rewrite bool_decide_true by done. by rewrite (proj2 (Z.ltb_lt _ _)) by lia.
  - rewrite Hf. cbn. destruct (max <=? wrap 32 (retry_count r + 1)); cbn [fst]; eexists;
      (split; [intros; by apply lookup_set|]); [done|]. cbn. by rewrite bool_decide_false.
Qed.

Lemma tracks_nack max ops t c id :
  u32 max -> tracks max ops t -> tracks max (ops ++ [Nack c id]) (record_nack t c id).1.
Proof.
  intros Hu Ht. pose proof Ht as (Hm & Hf & Hb & Hs).
  assert (Hb' : forall c' id' n, fate max (ops ++ [Nack c id]) c' id' = Some n -> 0 <= n /\ (n = 0 \/ n < max)).
  { intros c' id' n. rewrite fate_snoc. cbn [fate_step]. case_match; [|apply Hb].
    destruct (fate max ops c' id') as [m|] eqn:E; [|done]. cbn. destruct (Z.ltb_spec (m + 1) max); [|done].
    destruct (Hb _ _ _ E). intros [= <-]. lia. }
  assert (Hm' : max_retries (record_nack t c id).1 = max).
  { unfold record_nack. repeat case_match; done. }
  split; [done|]. destruct (cluster_records t c !! id) as [r|] eqn:Hr.
  - destruct (nack_lookup _ _ _ _ _ _ Hu Ht Hr) as (r' & Hl & Hst). split_and!; [|done|].
    + intros c' id'. rewrite fate_snoc, Hl. destruct ((c =? c') && (id =? id')) eqn:E; [|cbn [fate_step]; rewrite E; apply Hf].
      apply andb_prop in E as [->%Z.eqb_eq ->%Z.eqb_eq]. by rewrite <- Hst.
    + intros c' id'. rewrite sends_snoc, sends_nil, app_nil_r, Hs, Hl by done.
      destruct ((c =? c') && (id =? id')) eqn:E; [|done].
      apply andb_prop in E as [->%Z.eqb_eq ->%Z.eqb_eq]. rewrite Hr. split; by eexists.
  - assert ((record_nack t c id).1 = t) as -> by (unfold record_nack; by rewrite Hr). split_and!; [|done|].
    + intros c' id'. rewrite fate_snoc. cbn [fate_step]. case_match eqn:E; [|apply Hf].
      apply andb_prop in E as [->%Z.eqb_eq ->%Z.eqb_eq]. by rewrite Hf, Hr.
    + intros c' id'. by rewrite sends_snoc, sends_nil, app_nil_r, Hs.
Qed.

Lemma run_tracks max ops : u32 max -> tracks max ops (ack_run max ops).
Proof.
  intros Hu. induction ops as [|op ops IH] using rev_ind.
  - split_and!; [done..|]. intros c id. cbn. split; [by intros ?%not_elem_of_nil|]. intros [? Hx].
    unfold cluster_records in Hx. cbn in Hx. done.
  - rewrite ack_run_snoc. destruct op; cbn [ack_step]; [by apply tracks_send|by apply tracks_ack|by apply tracks_nack].
Qed.

Definition outstanding (max : Z) (ops : list ack_op) (c id : Z) : bool :=
  bool_decide (is_Some (fate max ops c id)).

(** Taking a task out of the sequence when it stops being outstanding. *)
Lemma filter_drop (f g : Z -> bool) (l : list Z) id :
  g id = false -> (forall x, x <> id -> g x = f x) ->
  List.filter (fun x => negb (x =? id)) (List.filter f l) = List.filter g l.
Proof.
  intros Hg Hfg. rewrite filter_filter. apply List.filter_ext. intros x.
  destruct (Z.eqb_spec x id) as [->|Hne]; cbn; [by rewrite andb_false_r|]. by rewrite andb_true_r, Hfg.
Qed.

Lemma outstanding_other max ops op c id x :
  match op with Send c' i _ | Ack c' i | Nack c' i => c' = c -> i = id end -> x <> id ->
  outstanding max (ops ++ [op]) c x = outstanding max ops c x.
Proof.
  intros Ho Hx. unfold outstanding. rewrite fate_snoc. destruct op; cbn [fate_step];
    (destruct ((_ =? _) && (_ =? _)) eqn:E; [|done]); apply andb_prop in E as [?%Z.eqb_eq ?%Z.eqb_eq]; naive_solver.
Qed.

Lemma outstanding_cluster max ops op c x :
  match op with Send c' _ _ | Ack c' _ | Nack c' _ => c' <> c end ->
  outstanding max (ops ++ [op]) c x = outstanding max ops c x.
Proof.
  intros Ho. unfold outstanding. rewrite fate_snoc.
  destruct op; cbn [fate_step]; by rewrite (proj2 (Z.eqb_neq _ _) Ho).
Qed.

(** The sequence of the cluster after an answer for task [id]: the task is dropped when the answer
    ends it, and the sequence is left alone when its fate is as before. *)
Lemma gaps_after max ops op c id (gaps gaps' : list Z) :
  match op with Ack c' i | Nack c' i => c' = c -> i = id | Send _ _ _ => False end ->
  gaps = List.filter (outstanding max ops c) (sends c ops) ->
  gaps' = List.filter (fun x => negb (x =? id)) gaps /\ outstanding max (ops ++ [op]) c id = false \/
  gaps' = gaps /\ (id ∈ sends c ops -> outstanding max (ops ++ [op]) c id = outstanding max ops c id) ->
  gaps' = List.filter (outstanding max (ops ++ [op]) c) (sends c (ops ++ [op])).
Proof.
  intros Hop Hg Hcase. rewrite sends_snoc, sends_nil, app_nil_r by (by destruct op).
  assert (Ho : forall x, x <> id -> outstanding max (ops ++ [op]) c x = outstanding max ops c x).
  { intros x. apply outstanding_other. by destruct op. }
  destruct Hcase as [[-> Hf]|[-> Hf]]; rewrite Hg; [by apply filter_drop|].
  apply List.filter_ext_in. intros x Hx%list_elem_of_In. destruct (decide (x = id)) as [->|Hne]; symmetry; auto.
Qed.

Lemma gaps_send max ops t c c' id key :
  NoDup (sends c (ops ++ [Send c' id key])) ->
  detect_gaps t c = List.filter (outstanding max ops c) (sends c ops) ->
  detect_gaps (track_sent t c' id key) c =
    List.filter (outstanding max (ops ++ [Send c' id key]) c) (sends c (ops ++ [Send c' id key])).
Proof.
  rewrite sends_snoc, List.filter_app, NoDup_app. intros (_ & Hdis & _) Hg.
  unfold detect_gaps at 1, track_sent. cbn [pending_sequences]. destruct (decide (c' = c)) as [->|Hc].
  - rewrite lookup_insert_eq. cbn in *. rewrite Z.eqb_refl in *. cbn. rewrite Hg. f_equal.
    + apply List.filter_ext_in. intros x Hx%list_elem_of_In. symmetry. apply (outstanding_other _ _ _ _ id); [done|].
      intros ->. apply (Hdis id Hx). set_solver.
    + unfold outstanding. rewrite fate_snoc. cbn. by rewrite !Z.eqb_refl.
  - rewrite lookup_insert_ne by done. cbn. rewrite (proj2 (Z.eqb_neq _ _) Hc). cbn. rewrite app_nil_r.
    etransitivity; [exact Hg|]. apply List.filter_ext. intros x. symmetry. by apply outstanding_cluster.
Qed.

Lemma gaps_ack max ops t c c' id :
  tracks max ops t -> detect_gaps t c = List.filter (outstanding max ops c) (sends c ops) ->
  detect_gaps (record_ack t c' id).1 c =
    List.filter (outstanding max (ops ++ [Ack c' id]) c) (sends c (ops ++ [Ack c' id])).
Proof.
  intros (_ & Hf & _ & Hs) Hg. apply (gaps_after _ _ _ _ id (detect_gaps t c)); [done..|].
  unfold record_ack. destruct (Z.eqb_spec c' c) as [->|Hc].
  - destruct (cluster_records t c !! id) eqn:Hr; cbn [fst].
    + left. rewrite gaps_drop, Z.eqb_refl. split; [done|]. unfold outstanding. rewrite fate_snoc. cbn. by rewrite !Z.eqb_refl.
    + right. split; [done|]. rewrite Hs, Hr. by intros [].
  - right. split; [|intros _; by apply outstanding_cluster]. case_match; cbn [fst]; [|done].
    by rewrite gaps_drop, (proj2 (Z.eqb_neq _ _) Hc).
Qed.

Lemma gaps_nack max ops t c c' id :
  u32 max -> tracks max ops t -> detect_gaps t c = List.filter (outstanding max ops c) (sends c ops) ->
  detect_gaps (record_nack t c' id).1 c =
    List.filter (outstanding max (ops ++ [Nack c' id]) c) (sends c (ops ++ [Nack c' id])).
Proof.
  intros Hu Ht Hg. pose proof Ht as (Hm & Hf & _ & Hs). apply (gaps_after _ _ _ _ id (detect_gaps t c)); [done..|].
  unfold record_nack. destruct (Z.eqb_spec c' c) as [->|Hc].
  2: { right. split; [|intros _; by apply outstanding_cluster]. repeat case_match; cbn [fst]; try done.
       by rewrite gaps_drop, (proj2 (Z.eqb_neq _ _) Hc). }
  specialize (Hf c id). destruct (cluster_records t c !! id) as [r|] eqn:Hr; cbn [fst].
  2: { right. split; [done|]. rewrite Hs, Hr. by intros []. }
  cbn in Hf. unfold outstanding. rewrite fate_snoc. cbn [fate_step]. rewrite !Z.eqb_refl, Hf, Hm. cbn [andb].
  destruct (bool_decide_reflect (a_state r = Pending)) as [Hp|Hp]; cbn.
  - destruct (pending_bound _ _ _ _ _ _ Hu Ht Hr Hp) as (_ & -> & _).
    destruct (Z.leb_spec max (retry_count r + 1)); cbn [fst].
    + left. rewrite gaps_drop, Z.eqb_refl. by rewrite (proj2 (Z.ltb_ge _ _)) by lia.
    + right. by rewrite (proj2 (Z.ltb_lt _ _)) by lia.
  - destruct (max <=? wrap 32 (retry_count r + 1)); cbn [fst]; [left|right; done].
    by rewrite gaps_drop, Z.eqb_refl.
Qed.

Lemma gaps_run max ops c :
  u32 max -> NoDup (sends c ops) ->
  detect_gaps (ack_run max ops) c = List.filter (outstanding max ops c) (sends c ops).
Proof.
  intros Hu. induction ops as [|op ops IH] using rev_ind; [done|]. intros Hnd. rewrite ack_run_snoc.
  pose proof (run_tracks max ops Hu) as Ht. pose proof Hnd as Hnd'.
  rewrite sends_snoc, NoDup_app in Hnd'. specialize (IH (proj1 Hnd')).
  destruct op; cbn [ack_step]; [by apply gaps_send|by apply gaps_ack|by apply gaps_nack].
Qed.

(** In every run of sends, acknowledgements and rejections, where no task is sent to a cluster
    twice, [detect_gaps] lists exactly the tasks of the cluster that are neither acknowledged nor
    rejected [max_retries] times, in the order they were sent, and the tasks offered for redelivery
    are exactly the outstanding ones rejected at least once, each with its number of rejections. *)
Theorem ack_tracker_exact (max : Z) (ops : list ack_op) (c : Z) (order : list Z)
  (Hmax : u32 max) (Hnd : NoDup (sends c ops))
  (Horder : order ≡ₚ (map_to_list (cluster_records (ack_run max ops) c)).*1) :
  detect_gaps (ack_run max ops) c = List.filter (outstanding max ops c) (sends c ops) /\
  (forall r, r ∈ get_redelivery_candidates (ack_run max ops) c order ->
     0 < retry_count r /\ exists id, fate max ops c id = Some (retry_count r) /\
       cluster_records (ack_run max ops) c !! id = Some r) /\
  (forall id n, fate max ops c id = Some n -> 0 < n ->
     exists r, r ∈ get_redelivery_candidates (ack_run max ops) c order /\ retry_count r = n /\
       cluster_records (ack_run max ops) c !! id = Some r).
Proof.
  destruct (run_tracks max ops Hmax) as (_ & Hf & _). split_and!; [by apply gaps_run|..].
  - intros r Hr. apply list_elem_of_In, filter_In in Hr as [Hr Hb]. apply andb_prop in Hb as [Hp%bool_decide_eq_true Hn%Z.ltb_lt].
    split; [done|]. apply list_elem_of_In, list_elem_of_omap in Hr as (id & _ & Hl). exists id. split; [|done].
    rewrite Hf, Hl. cbn. by rewrite bool_decide_true.
  - intros id n Hn Hpos. pose proof Hn as Hn'. rewrite Hf in Hn.
    destruct (cluster_records (ack_run max ops) c !! id) as [r|] eqn:Hr; [|done]. cbn in Hn.
    case_bool_decide as Hp; [|done]. simplify_eq. exists r. split_and!; [|done..]. apply list_elem_of_In, filter_In.
    rewrite bool_decide_true, (proj2 (Z.ltb_lt _ _)) by done. split; [|done].
    apply list_elem_of_In, list_elem_of_omap. exists id. split; [|done]. rewrite Horder.
    apply list_elem_of_fmap. exists (id, r). split; [done|]. by apply elem_of_map_to_list.
Qed.

Lemma ack_tracker_exact_witness :
  let ops := [Send 1 10 7; Send 1 11 7; Send 2 10 7; Send 1 12 8; Nack 1 11; Ack 1 10; Nack 1 12; Nack 1 12; Nack 2 10] in
  detect_gaps (ack_run 2 ops) 1 = [11] /\
  exists r, r ∈ get_redelivery_candidates (ack_run 2 ops) 1 [12; 10; 11] /\ retry_count r = 1.
Proof.
  intros ops. destruct (ack_tracker_exact 2 ops 1 [12; 10; 11]) as (H1 & _ & H3).
  - done.
  - by apply (bool_decide_unpack _); vm_compute.
  - vm_compute. solve_Permutation.
  - split; [exact H1|]. destruct (H3 11 1 eq_refl eq_refl) as (r & Hr & Hn & _). by exists r.
Defined.

(** A second acknowledgement of one task is counted again, and no operation ever marks a record
    [TimedOut]. *)
Lemma duplicate_ack_counted : total_acked (ack_stats (ack_run 3 [Send 1 10 7; Ack 1 10; Ack 1 10])) = 2.
Proof. by vm_compute. Qed.

End Acks.

(** ** Dead-letter queue and gap detection *)

Module Gaps.
Import Ndc.

Record DlqTask : Type := mkDlqTask {
  original_task : ReplicationTask;
  failure_reason : string;
  failure_count : Z;
  first_failure_ms : Z;
  last_failure_ms : Z;
}.

Record ReplicationDlq : Type := mkDlq {
  queues : gmap Z (list DlqTask);
  max_queue_size : nat;
  total_enqueued : Z;
  total_processed : Z;
  total_dropped : Z;
}.

Definition dlq_new (max : nat) : ReplicationDlq := mkDlq ∅ max 0 0 0.

Definition dlq_queue (d : ReplicationDlq) (c : Z) : list DlqTask := default [] (queues d !! c).

Definition dlq_enqueue (d : ReplicationDlq) (c : Z) (task : ReplicationTask) (reason : string) (count : Z) :
    ReplicationDlq :=
  let t := mkDlqTask task reason count 0 0 in
  let q := dlq_queue d c in
  if (length q <? max_queue_size d)%nat then
    mkDlq (<[c := q ++ [t]]> (queues d)) (max_queue_size d) (wrap 64 (total_enqueued d + 1)) (total_processed d)
      (total_dropped d)
  else
    mkDlq (<[c := drop 1 q ++ [t]]> (queues d)) (max_queue_size d) (total_enqueued d) (total_processed d)
      (wrap 64 (total_dropped d + 1)).

Definition process_next (d : ReplicationDlq) (c : Z) : ReplicationDlq * option DlqTask :=
  match queues d !! c with
  | None | Some [] => (d, None)
  | Some (t :: q) =>
      (mkDlq (<[c := q]> (queues d)) (max_queue_size d) (total_enqueued d) (wrap 64 (total_processed d + 1))
         (total_dropped d), Some t)
  end.

Inductive dlq_op : Type := Enqueue (c : Z) (task : ReplicationTask) (reason : string) (count : Z) | Process (c : Z).

(** The queue and the tasks handed out, with their cluster. *)
Definition dlq_step (s : ReplicationDlq * list (Z * DlqTask)) (op : dlq_op) : ReplicationDlq * list (Z * DlqTask) :=
  match op with
  | Enqueue c task reason count => (dlq_enqueue s.1 c task reason count, s.2)
  | Process c => let '(d, t) := process_next s.1 c in (d, s.2 ++ match t with Some t => [(c, t)] | None => [] end)
  end.

Definition dlq_run (max : nat) (ops : list dlq_op) : ReplicationDlq * list (Z * DlqTask) :=
  fold_left dlq_step ops (dlq_new max, []).

Definition failed (c : Z) (ops : list dlq_op) : list DlqTask :=
  omap (fun op => match op with
    | Enqueue c' task reason count => if c' =? c then Some (mkDlqTask task reason count 0 0) else None
    | Process _ => None end) ops.

Definition handed (c : Z) (out : list (Z * DlqTask)) : list DlqTask :=
  omap (fun p => if p.1 =? c then Some p.2 else None) out.

Lemma dlq_queue_insert qs m a b e c q c' :
  dlq_queue (mkDlq (<[c := q]> qs) m a b e) c' = if c =? c' then q else default [] (qs !! c').
Proof.
  unfold dlq_queue. cbn [queues]. destruct (Z.eqb_spec c c') as [->|]; [by rewrite lookup_insert_eq|by rewrite lookup_insert_ne].
Qed.

(** What has left the queue of a cluster, handed out or dropped, in order. *)
Lemma dlq_run_inv max ops c :
  let s := dlq_run max ops in
  max_queue_size s.1 = max /\ (length (dlq_queue s.1 c) <= Nat.max 1 max)%nat /\
  exists gone, failed c ops = gone ++ dlq_queue s.1 c /\ handed c s.2 `sublist_of` gone /\
    (length (failed c ops) <= max -> handed c s.2 = gone)%nat.
Proof.
  induction ops as [|op ops IH] using rev_ind; intros s.
  - split_and!; [done|apply Nat.le_0_l|]. by exists [].
  - subst s. unfold dlq_run in *. rewrite fold_left_app. cbn [fold_left].
    set (s := fold_left dlq_step ops (dlq_new max, [])) in *. cbn zeta in IH.
    destruct IH as (Hm & Hl & gone & Hf & Hs & Hx). unfold failed in *. rewrite omap_app.
    set (f := omap _ ops) in *. destruct op as [c' task reason count|c']; cbn [dlq_step omap list_omap fst snd].
    + unfold dlq_enqueue. rewrite Hm. destruct (Nat.ltb_spec (length (dlq_queue s.1 c')) max) as [Hlt|Hge];
        cbn [max_queue_size fst snd]; rewrite dlq_queue_insert; (destruct (Z.eqb_spec c' c) as [->|Hc]; cbn [omap list_omap]).
      * rewrite !length_app. cbn [length]. split_and!; [done|lia|]. exists gone. rewrite Hf, <- app_assoc. split_and!; [done..|].
        intros Hn. apply Hx. rewrite Hf. rewrite !length_app in *. cbn [length] in *. lia.
      * rewrite app_nil_r. split_and!; [done|done|]. by exists gone.
      * rewrite !length_app, length_drop. cbn [length]. split_and!; [done|lia|].
        exists (gone ++ take 1 (dlq_queue s.1 c)). rewrite Hf, <- !app_assoc. split_and!.
        -- by rewrite (app_assoc (take 1 _)), take_drop.
        -- rewrite <- (app_nil_r (handed c s.2)). apply sublist_app; [done|apply sublist_nil_l].
        -- intros Hn. exfalso. rewrite !length_app in *. cbn [length] in *. lia.
      * rewrite app_nil_r. split_and!; [done|done|]. by exists gone.
    + rewrite app_nil_r. unfold process_next. destruct (queues s.1 !! c') as [[|t q]|] eqn:Hq; cbn [fst snd];
        rewrite ?app_nil_r; [by split_and!; eauto| |by split_and!; eauto].
      cbn [max_queue_size]. rewrite dlq_queue_insert. unfold handed. rewrite omap_app. cbn.
      destruct (Z.eqb_spec c' c) as [->|Hc]; cbn.
      * unfold dlq_queue in *. rewrite Hq in *. cbn [from_option id length] in *. split_and!; [done|lia|]. exists (gone ++ [t]).
        rewrite Hf, <- app_assoc. split_and!; [done|by apply sublist_app|].
        intros Hn. f_equal. apply Hx. by rewrite Hf.
      * rewrite app_nil_r. split_and!; [done|done|]. by exists gone.
Qed.

(** The tasks of a cluster leave the dead-letter queue in the order they failed, what is left is the
    newest of them, and no task is lost while a cluster fails at most [max_queue_size] tasks. *)
Lemma dlq_fifo max ops c :
  let s := dlq_run max ops in
  exists gone, failed c ops = gone ++ dlq_queue s.1 c /\ handed c s.2 `sublist_of` gone /\
    (length (dlq_queue s.1 c) <= Nat.max 1 max)%nat /\
    (length (failed c ops) <= max -> failed c ops = handed c s.2 ++ dlq_queue s.1 c)%nat.
Proof.
  intros s. destruct (dlq_run_inv max ops c) as (_ & Hl & gone & Hf & Hs & Hx). exists gone.
  subst s. split_and!; [done..|]. intros Hn. by rewrite (Hx Hn), <- Hf.
Qed.

(** A queue of size 0 holds one task. *)
Lemma dlq_zero_holds_one :
  length (dlq_queue (dlq_run 0 [Enqueue 1 (sample_task 1 1 1) "x" 1; Enqueue 1 (sample_task 2 1 1) "y" 1]).1 1) = 1%nat.
Proof. by vm_compute. Qed.

(** *** [HistoryGapDetector] *)

Record HistoryGap : Type := mkGap {
  g_workflow_key : Z;
  g_source_cluster_id : Z;
  expected_event_id : Z;
  actual_event_id : Z;
  gap_size : Z;
  g_detected_at_ms : Z;
}.

Record HistoryGapDetector : Type := mkDetector { last_seen : gmap (Z * Z) Z; gaps : list HistoryGap }.

Definition gap_record_event (d : HistoryGapDetector) (k c e : Z) : HistoryGapDetector * option HistoryGap :=
  let seen := <[(k, c) := e]> (last_seen d) in
  match last_seen d !! (k, c) with
  | Some last =>
      if wrap 64 (last + 1) <? e then
        let gap := mkGap k c (wrap 64 (last + 1)) e (wrap 64 (e - last - 1)) 0 in
        (mkDetector seen (gaps d ++ [gap]), Some gap)
      else (mkDetector seen (gaps d), None)
  | None => (mkDetector seen (gaps d), None)
  end.

Definition get_gaps_for_workflow (d : HistoryGapDetector) (k : Z) : list HistoryGap :=
  List.filter (fun g => g_workflow_key g =? k) (gaps d).

(** Events of any workflows and clusters, in the order received. *)
Definition gap_run (evs : list (Z * Z * Z)) : HistoryGapDetector :=
  fold_left (fun d p => (gap_record_event d p.1.1 p.1.2 p.2).1) evs (mkDetector ∅ []).

Definition received (key : Z * Z) (evs : list (Z * Z * Z)) : list Z :=
  omap (fun p => if bool_decide (p.1 = key) then Some p.2 else None) evs.

(** The event ids that the gaps of one workflow and cluster name as missing. *)
Definition missing (key : Z * Z) (gs : list HistoryGap) : list Z :=
  flat_map (fun g => if bool_decide ((g_workflow_key g, g_source_cluster_id g) = key)
                     then seqZ (expected_event_id g) (gap_size g) else []) gs.

Definition span (l : list Z) : list Z :=
  match head l, last l with Some a, Some b => seqZ a (b - a + 1) | _, _ => [] end.

Lemma received_snoc key evs p :
  received key (evs ++ [p]) = received key evs ++ if bool_decide (p.1 = key) then [p.2] else [].
Proof. unfold received. rewrite omap_app. cbn. by case_bool_decide. Qed.

Lemma missing_snoc key gs g :
  missing key (gs ++ [g]) = missing key gs ++
    if bool_decide ((g_workflow_key g, g_source_cluster_id g) = key) then seqZ (expected_event_id g) (gap_size g) else [].
Proof. unfold missing. by rewrite flat_map_app, flat_map_concat_map, (flat_map_concat_map _ [g]); cbn; rewrite app_nil_r. Qed.

Lemma span_snoc l b e :
  last l = Some b -> b < e -> (exists a, head l = Some a /\ a <= b) ->
  span (l ++ [e]) = span l ++ seqZ (b + 1) (e - b - 1) ++ [e].
Proof.
  intros Hl Hlt (a & Ha & Hab). destruct l as [|x l]; [done|]. cbn in Ha. simplify_eq.
  unfold span. rewrite last_snoc, Hl. cbn [head app]. change (seqZ e 1) with [e]. replace [e] with (seqZ e 1) by done.
  replace (e - a + 1) with ((b - a + 1) + ((e - b - 1) + 1)) by lia. rewrite !seqZ_app by lia.
  by replace (a + (b - a + 1)) with (b + 1) by lia; replace (b + 1 + (e - b - 1)) with e by lia.
Qed.

Lemma sorted_head_last (l : list Z) a b : StronglySorted Z.lt l -> head l = Some a -> last l = Some b -> a <= b.
Proof.
  intros Hs Ha Hb. destruct l as [|x l]; [done|]. cbn in Ha. simplify_eq. apply StronglySorted_inv in Hs as [_ Hs].
  apply last_Some_elem_of in Hb. apply elem_of_cons in Hb as [->|Hb]; [lia|].
  rewrite Forall_forall in Hs. specialize (Hs _ Hb). lia.
Qed.

Lemma increasing_snoc (l : list Z) e b : StronglySorted Z.lt (l ++ [e]) -> last l = Some b -> b < e.
Proof.
  intros Hs Hb. apply last_Some_elem_of in Hb. apply StronglySorted_app in Hs as (Hs & _ & _).
  apply Hs; [done|set_solver].
Qed.

Definition exact_gaps (key : Z * Z) (evs : list (Z * Z * Z)) (d : HistoryGapDetector) : Prop :=
  last_seen d !! key = last (received key evs) /\
  missing key (gaps d) ++ received key evs ≡ₚ span (received key evs).

(** An event of another workflow or cluster. *)
Lemma gaps_other key evs d k c e :
  (k, c) <> key -> exact_gaps key evs d -> exact_gaps key (evs ++ [(k, c, e)]) (gap_record_event d k c e).1.
Proof.
  intros Hk [Hl Hm]. unfold exact_gaps. rewrite received_snoc. cbn [fst snd]. rewrite bool_decide_false, app_nil_r by done.
  unfold gap_record_event. destruct (last_seen d !! (k, c)); [case_match|]; cbn [fst last_seen gaps];
    rewrite lookup_insert_ne by done; split; try done.
  rewrite missing_snoc. cbn. by rewrite bool_decide_false, app_nil_r.
Qed.

Lemma gaps_next k c evs d e :
  StronglySorted Z.lt (received (k, c) evs ++ [e]) -> Forall u64 (received (k, c) evs ++ [e]) ->
  exact_gaps (k, c) evs d -> exact_gaps (k, c) (evs ++ [(k, c, e)]) (gap_record_event d k c e).1.
Proof.
  intros Hs Hu [Hl Hm]. unfold exact_gaps. rewrite received_snoc. cbn [fst snd]. rewrite bool_decide_true by done.
  rewrite last_snoc. unfold gap_record_event. rewrite Hl.
  destruct (last (received (k, c) evs)) as [b|] eqn:Hb.
  - pose proof (increasing_snoc _ _ _ Hs Hb) as Hlt.
    assert (Hr : u64 b /\ u64 e).
    { rewrite Forall_app in Hu. destruct Hu as [Hu He]. rewrite Forall_forall in Hu.
      split; [by apply Hu, last_Some_elem_of|by inversion He]. }
    destruct Hr as [Hrb Hre]. rewrite (wrap_id 64 (b + 1)), (wrap_id 64 (e - b - 1)) by (unfold fits in *; lia).
    rewrite (span_snoc _ b e Hb Hlt).
    2: { destruct (received (k, c) evs) as [|x l] eqn:E; [done|]. exists x. split; [done|].
         apply (sorted_head_last (x :: l)); [|done..]. apply StronglySorted_app in Hs. tauto. }
    destruct (Z.ltb_spec (b + 1) e); cbn [fst last_seen gaps]; rewrite lookup_insert_eq; (split; [done|]).
    + rewrite missing_snoc. cbn. rewrite bool_decide_true by done. rewrite <- Hm. solve_Permutation.
    + replace (e - b - 1) with 0 by lia. cbn. rewrite app_assoc, Hm. done.
  - cbn [fst last_seen gaps]. rewrite lookup_insert_eq. split; [done|].
    assert (received (k, c) evs = []) as E by (by apply last_None). rewrite E in *. unfold span in *. cbn in Hm |- *.
    rewrite app_nil_r in Hm. apply Permutation_nil_r in Hm. rewrite Hm. cbn.
    by replace (e - e + 1) with 1 by lia.
Qed.

(** However the events of several workflows and clusters interleave, for a workflow and cluster
    whose events arrive with increasing ids the reported gaps and the received events together are
    exactly the ids from the first received one to the last, each once. *)
Theorem gap_detector_exact (evs : list (Z * Z * Z)) (k c : Z)
  (Hs : StronglySorted Z.lt (received (k, c) evs)) (Hu : Forall u64 (received (k, c) evs)) :
  missing (k, c) (gaps (gap_run evs)) ++ received (k, c) evs ≡ₚ span (received (k, c) evs).
Proof.
  enough (exact_gaps (k, c) evs (gap_run evs)) as [_ H] by exact H.
  induction evs as [|[[k' c'] e] evs IH] using rev_ind; [done|]. unfold gap_run. rewrite fold_left_app. cbn [fold_left fst snd].
  fold (gap_run evs). rewrite received_snoc in Hs, Hu. cbn [fst snd] in Hs, Hu.
  destruct (decide ((k', c') = (k, c))) as [Hk|Hk].
  - rewrite bool_decide_true in Hs, Hu by done. simplify_eq. apply gaps_next; [done..|].
    apply IH; [by apply StronglySorted_app in Hs; tauto|by apply Forall_app in Hu as [? _]].
  - rewrite bool_decide_false, app_nil_r in Hs, Hu by done. apply gaps_other; [done|]. by apply IH.
Qed.

Lemma gap_detector_exact_witness :
  let evs := [(1, 9, 2); (1, 9, 3); (2, 9, 50); (1, 9, 6); (2, 9, 52); (1, 9, 7)] in
  missing (1, 9) (gaps (gap_run evs)) = [4; 5] /\ [4; 5] ++ [2; 3; 6; 7] ≡ₚ [2; 3; 4; 5; 6; 7].
Proof.
  intros evs. split; [by vm_compute|]. apply (gap_detector_exact evs 1 9); [|by repeat constructor].
  repeat constructor; lia.
Defined.

(** A repeated event moves the last seen id back, and the next event of the stream is then
    reported as a gap over events that were received. *)
Lemma duplicate_reports_false_gap :
  missing (1, 9) (gaps (gap_run [(1, 9, 1); (1, 9, 2); (1, 9, 3); (1, 9, 1); (1, 9, 4)])) = [2; 3].
Proof. by vm_compute. Qed.

End Gaps.

(** ** The cluster table and the replication queue *)

Module Clusters.
Import Ndc.

Record ClusterInfo : Type := mkCluster {
  cluster_name : string;
  cluster_id : Z;
  ci_is_active : bool;
  ci_failover_version : Z;
  address : string;
  replication_enabled : bool;
  initial_replication_level : Z;
}.

(** The values of [applied_tasks] are all [true]: the map is the set of its keys. *)
Record ClusterManager : Type := mkManager {
  clusters : gmap Z ClusterInfo;
  replication_queue : list ReplicationTask;
  applied_tasks : gset Z;
  m_local_cluster_id : Z;
  next_task_id : Z;
  next_event_id : Z;
}.

Definition cluster_manager_new (name : string) : ClusterManager :=
  mkManager {[0 := mkCluster name 0 true 0 "localhost" false 0]} [] ∅ 0 1 1.

Definition with_clusters (m : ClusterManager) (cs : gmap Z ClusterInfo) : ClusterManager :=
  mkManager cs (replication_queue m) (applied_tasks m) (m_local_cluster_id m) (next_task_id m) (next_event_id m).

Definition register_cluster (m : ClusterManager) (name addr : string) : ClusterManager * Z :=
  let id := Z.of_nat (size (clusters m)) in
  (with_clusters m (<[id := mkCluster name id true 0 addr true 0]> (clusters m)), id).

Definition enqueue_replication (m : ClusterManager) (source target key ty : Z) (payload : bytes)
    (task_type : ReplicationTaskType) : ClusterManager * Z :=
  let id := next_task_id m in
  let event := next_event_id m in
  (mkManager (clusters m)
     (replication_queue m ++ [mkTask id source target key ty payload 0 task_type event event 0])
     (applied_tasks m) (m_local_cluster_id m) (wrap 64 (id + 1)) (wrap 64 (event + 1)), id).

(** One queue lock for the whole batch; the pushes and the counters are those of single calls. *)
Fixpoint enqueue_replication_batch (m : ClusterManager) (source target : Z)
    (tasks : list (Z * Z * bytes * ReplicationTaskType)) : ClusterManager * list Z :=
  match tasks with
  | [] => (m, [])
  | (key, ty, payload, task_type) :: tasks =>
      let id := next_task_id m in
      let event := next_event_id m in
      let m' :=
        mkManager (clusters m)
          (replication_queue m ++ [mkTask id source target key ty payload 0 task_type event event 0])
          (applied_tasks m) (m_local_cluster_id m) (wrap 64 (id + 1)) (wrap 64 (event + 1)) in
      let '(m'', ids) := enqueue_replication_batch m' source target tasks in (m'', id :: ids)
  end.

Definition drain_replication_tasks (m : ClusterManager) : ClusterManager * list ReplicationTask :=
  (mkManager (clusters m) [] (applied_tasks m) (m_local_cluster_id m) (next_task_id m) (next_event_id m),
   replication_queue m).

Definition set_version (i : ClusterInfo) (v : Z) : ClusterInfo :=
  mkCluster (cluster_name i) (cluster_id i) (ci_is_active i) v (address i) (replication_enabled i)
    (initial_replication_level i).

(** The four critical sections of [apply_incoming_replication], each under a lock of its own: the
    source is looked up, the task is looked for among the applied ones, the version of the
    source is raised, the task is marked as applied. *)
Definition source_known (m : ClusterManager) (t : ReplicationTask) : bool :=
  bool_decide (is_Some (clusters m !! source_cluster_id t)).

Definition is_applied (m : ClusterManager) (t : ReplicationTask) : bool := bool_decide (task_id t ∈ applied_tasks m).

Definition raise_version (m : ClusterManager) (t : ReplicationTask) : ClusterManager :=
  match clusters m !! source_cluster_id t with
  | Some info =>
      if ci_failover_version info <? t_failover_version t
      then with_clusters m (<[source_cluster_id t := set_version info (t_failover_version t)]> (clusters m))
      else m
  | None => m
  end.

Definition mark_applied (m : ClusterManager) (t : ReplicationTask) : ClusterManager :=
  mkManager (clusters m) (replication_queue m) ({[task_id t]} ∪ applied_tasks m) (m_local_cluster_id m)
    (next_task_id m) (next_event_id m).

(** A call that nothing interrupts. *)
Definition apply_incoming_replication (m : ClusterManager) (t : ReplicationTask) : ClusterManager * bool :=
  if negb (source_known m t) then (m, false)
  else if is_applied m t then (m, false)
  else (mark_applied (raise_version m t) t, true).

Definition set_failover_version (m : ClusterManager) (c v : Z) : ClusterManager * bool :=
  match clusters m !! c with
  | Some info => (with_clusters m (<[c := set_version info v]> (clusters m)), true)
  | None => (m, false)
  end.

Definition set_cluster_active (m : ClusterManager) (c : Z) (active : bool) : ClusterManager * bool :=
  match clusters m !! c with
  | Some i =>
      (with_clusters m (<[c := mkCluster (cluster_name i) (cluster_id i) active (ci_failover_version i) (address i)
                                 (replication_enabled i) (initial_replication_level i)]> (clusters m)), true)
  | None => (m, false)
  end.

(** [clusters.values()] in the order [order] of the ids. *)
Definition active_cluster_ids (m : ClusterManager) (order : list Z) : list Z :=
  map cluster_id (List.filter (fun i => ci_is_active i && replication_enabled i) (omap (fun c => clusters m !! c) order)).

(** *** A sender *)

Inductive send_op : Type :=
| Enqueue (source target key ty : Z) (payload : bytes) (task_type : ReplicationTaskType)
| Batch (source target : Z) (tasks : list (Z * Z * bytes * ReplicationTaskType))
| Drain
| Register (name addr : string)
| SetVersion (c v : Z)
| SetActive (c : Z) (active : bool).

(** The manager and the tasks drained so far. *)
Definition send_step (s : ClusterManager * list ReplicationTask) (op : send_op) : ClusterManager * list ReplicationTask :=
  match op with
  | Enqueue source target key ty payload kind => ((enqueue_replication s.1 source target key ty payload kind).1, s.2)
  | Batch source target tasks => ((enqueue_replication_batch s.1 source target tasks).1, s.2)
  | Drain => let '(m, ts) := drain_replication_tasks s.1 in (m, s.2 ++ ts)
  | Register name addr => ((register_cluster s.1 name addr).1, s.2)
  | SetVersion c v => ((set_failover_version s.1 c v).1, s.2)
  | SetActive c active => ((set_cluster_active s.1 c active).1, s.2)
  end.

Definition send_run (name : string) (ops : list send_op) : ClusterManager * list ReplicationTask :=
  fold_left send_step ops (cluster_manager_new name, []).











(** *** Receivers

    Deliveries reach a cluster through several threads, each of which handles its tasks one
    after the other; a thread can be interrupted after every critical section. *)

Inductive incoming : Type :=
| AtDedup (t : ReplicationTask)
| AtVersion (t : ReplicationTask)
| AtMark (t : ReplicationTask).

Record courier : Type := mkCourier {
  todo : list ReplicationTask;
  current : option incoming;
  taken : list ReplicationTask;
}.

(** The next critical section of a thread; [taken] lists the tasks whose call returned true. *)
Definition courier_step (m : ClusterManager) (c : courier) : ClusterManager * courier :=
  match current c with
  | None =>
      match todo c with
      | [] => (m, c)
      | t :: ts => (m, mkCourier ts (if source_known m t then Some (AtDedup t) else None) (taken c))
      end
  | Some (AtDedup t) => (m, mkCourier (todo c) (if is_applied m t then None else Some (AtVersion t)) (taken c))
  | Some (AtVersion t) => (raise_version m t, mkCourier (todo c) (Some (AtMark t)) (taken c))
  | Some (AtMark t) => (mark_applied m t, mkCourier (todo c) None (taken c ++ [t]))
  end.

(** A thread that is alone runs the call. *)
Lemma courier_alone m t ts acc :
  Nat.iter 4 (fun x => courier_step x.1 x.2) (m, mkCourier (t :: ts) None acc) =
    let '(m', ok) := apply_incoming_replication m t in
    if ok then (m', mkCourier ts None (acc ++ [t]))
    else Nat.iter (if source_known m t then 2 else 3)%nat (fun x => courier_step x.1 x.2) (m', mkCourier ts None acc).
Proof.
  unfold apply_incoming_replication. rewrite !Nat.iter_succ_r. cbn [fst snd courier_step current todo taken].
  destruct (source_known m t); cbn [negb]; [|reflexivity]. cbn [fst snd courier_step current todo taken].
  destruct (is_applied m t); reflexivity.
Qed.

Definition couriers (tss : list (list ReplicationTask)) : list courier := map (fun ts => mkCourier ts None []) tss.

(** The turns of the threads, in the order of a schedule. *)
Definition deliver (m : ClusterManager) (tss : list (list ReplicationTask)) (sched : list nat) :
    ClusterManager * list courier := turns courier_step (m, couriers tss) sched.






Section Deliveries.
Variables (tss : list (list ReplicationTask)).
(** Numbers identify tasks, and every task comes through one thread. *)
Hypothesis Hids : forall ts us t u, ts ∈ tss -> us ∈ tss -> t ∈ ts -> u ∈ us -> task_id t = task_id u -> t = u.
Hypothesis Hown : forall i j ts us t, tss !! i = Some ts -> tss !! j = Some us -> t ∈ ts -> t ∈ us -> i = j.






End Deliveries.









(** Two threads that deliver the same task at the same time can both find it new: it is accepted twice. *)
Theorem concurrent_duplicate_accepted :
  let m := (register_cluster (cluster_manager_new "dc2") "dc1" "dc1:9090").1 in
  let sent := (send_run "dc1" [Enqueue 1 0 42 1 [1] SyncHistory; Drain]).2 in
  flat_map taken (deliver m [sent; sent] [0; 1; 0; 1; 0; 1; 0; 1]%nat).2 = sent ++ sent /\ length sent = 1%nat.
Proof. by vm_compute. Qed.

(** Applied tasks are remembered by their id alone: the first task of a second sender is taken for
    the first one's and dropped. *)
Lemma second_sender_dropped :
  let m := (register_cluster (register_cluster (cluster_manager_new "hub") "a" "a:1").1 "b" "b:1").1 in
  let from_a := (send_run "a" [Enqueue 1 0 42 1 [1] SyncHistory; Drain]).2 in
  let from_b := (send_run "b" [Enqueue 2 0 43 1 [2] SyncHistory; Drain]).2 in
  flat_map taken (deliver m [from_a ++ from_b] (replicate 8 0%nat)).2 = from_a /\ length from_b = 1%nat.
Proof. by vm_compute. Qed.

(** The tasks of [enqueue_replication] carry failover version 0: applying one leaves the versions of
    the receiver as they are, whatever version the sender has. *)
Lemma queued_tasks_carry_no_version :
  let sender := (send_run "a" [SetVersion 0 7; Enqueue 1 0 42 1 [1] SyncHistory; Drain]).2 in
  let m := (register_cluster (cluster_manager_new "hub") "a" "a:1").1 in
  clusters (deliver m [sender] (replicate 4 0%nat)).1 = clusters m.
Proof. by vm_compute. Qed.

End Clusters.
