(* ===== verification/MutState.v ===== *)
(** * The mutable state of a workflow execution

    [workflow_state_machine.rs]: the execution state of one run, its activities,
    timers, child workflows, queries and buffered signals, the transition checks
    and the state checksum.  Operations that can be refused return a [result]; the
    state after a refused operation is the state before.  The lifecycles are given
    as a step relation on the states alone, and the operations are shown to
    succeed exactly where the relation has a step, and to make that step.  A
    [string] is the UTF-8 bytes of the text. *)

From Stdlib Require Import SpecFloat.
From S2P Require Import Prelude Text.

(** ** State and operations *)

Module MutState.

Inductive WorkflowExecutionState : Type :=
| Created | Running | Completed | Failed | Cancelled | Terminated | ContinuedAsNew | TimedOut.

Definition state_is_terminal (s : WorkflowExecutionState) : bool :=
  match s with
  | Completed | Failed | Cancelled | Terminated | ContinuedAsNew | TimedOut => true
  | Created | Running => false
  end.

Definition state_name (s : WorkflowExecutionState) : string :=
  match s with
  | Created => "Created"
  | Running => "Running"
  | Completed => "Completed"
  | Failed => "Failed"
  | Cancelled => "Cancelled"
  | Terminated => "Terminated"
  | ContinuedAsNew => "ContinuedAsNew"
  | TimedOut => "TimedOut"
  end.

Inductive ActivityExecutionState : Type :=
| APending | AScheduled | AStarted | ACompleted | AFailed | ACancelled | ATimedOut.

Record ActivityRetryPolicy : Type := mkRetry {
  initial_interval_ms : Z;
  backoff_coefficient : spec_float;
  max_interval_ms : Z;
  maximum_attempts : Z;
  non_retryable_error_types : list string;
}.

Record ActivityState : Type := mkActivity {
  activity_id : string;
  activity_type : string;
  a_state : ActivityExecutionState;
  scheduled_event_id : Z;
  started_event_id : Z;
  a_task_queue : string;
  attempt : Z;
  heartbeat_timeout_ms : Z;
  schedule_to_close_timeout_ms : Z;
  schedule_to_start_timeout_ms : Z;
  start_to_close_timeout_ms : Z;
  last_heartbeat_at : option Z;
  last_failure : option string;
  a_result : option bytes;
  retry_policy : option ActivityRetryPolicy;
  a_header : gmap string bytes;
}.

Definition activity_new (id ty queue : string) : ActivityState :=
  mkActivity id ty APending 0 0 queue 1 0 0 0 0 None None None None ∅.

Definition activity_is_terminal (s : ActivityExecutionState) : bool :=
  match s with ACompleted | AFailed | ACancelled | ATimedOut => true | _ => false end.

Inductive TimerExecutionState : Type := TCreated | TStarted | TFired | TCancelled.

Record TimerState : Type := mkTimer {
  timer_id : string;
  t_started_event_id : Z;
  fire_at : Z;
  t_state : TimerExecutionState;
  cancelled_event_id : option Z;
}.

Inductive ChildWorkflowExecutionState : Type := CInitiated | CStarted | CCompleted | CFailed | CCancelled | CTerminated.

Inductive ParentClosePolicy : Type := Unspecified | Terminate | Abandon | RequestCancel.

Record ChildWorkflowState : Type := mkChild {
  c_workflow_id : string;
  c_run_id : string;
  c_workflow_type : string;
  c_namespace : string;
  initiated_event_id : Z;
  c_started_event_id : Z;
  c_state : ChildWorkflowExecutionState;
  parent_close_policy : ParentClosePolicy;
  c_result : option bytes;
  c_failure : option string;
}.

Record SignalState : Type := mkSignal {
  signal_id : string;
  signal_name : string;
  s_input : option bytes;
  identity : string;
  s_header : gmap string bytes;
  buffered : bool;
}.

Inductive QueryExecutionState : Type := QBuffered | QUnblocked | QCompleted | QFailed.

Record QueryState : Type := mkQuery {
  query_id : string;
  query_type : string;
  query_args : option bytes;
  q_state : QueryExecutionState;
  q_result : option bytes;
  q_error : option string;
}.

Inductive StateError : Type :=
| ActivityNotFound | TimerNotFound | ChildNotFound | QueryNotFound | InvalidTransition | AlreadyCompleted.

#[export] Instance wf_state_eq_dec : EqDecision WorkflowExecutionState.
Proof. solve_decision. Defined.
#[export] Instance act_state_eq_dec : EqDecision ActivityExecutionState.
Proof. solve_decision. Defined.
#[export] Instance timer_state_eq_dec : EqDecision TimerExecutionState.
Proof. solve_decision. Defined.
#[export] Instance child_state_eq_dec : EqDecision ChildWorkflowExecutionState.
Proof. solve_decision. Defined.

(** The fields that no operation writes. *)
Record Fixed : Type := mkFixed {
  namespace_id : string;
  workflow_id : string;
  run_id : string;
  workflow_type : string;
  task_queue : string;
  start_time : Z;
  workflow_timeout_ms : Z;
  run_timeout_ms : Z;
  execution_timeout_ms : Z;
  last_first_event_id : Z;
  retry_state : Z;
  w_attempt : Z;
}.

Record MutableState : Type := mkState {
  fixed : Fixed;
  execution_state : WorkflowExecutionState;
  close_time : option Z;
  next_event_id : Z;
  state_transition_count : Z;
  history_size_bytes : Z;
  activities : gmap string ActivityState;
  timers : gmap string TimerState;
  child_workflows : gmap string ChildWorkflowState;
  buffered_signals : list SignalState;
  queries : gmap string QueryState;
  memo : gmap string bytes;
  search_attributes : gmap string bytes;
  has_buffered_events : Z;
  checksum : option bytes;
}.

Definition mutable_state_new (now : Z) (ns wid rid ty queue : string) : MutableState :=
  mkState (mkFixed ns wid rid ty queue now 0 0 0 0 0 0) Created None 1 0 0 ∅ ∅ ∅ [] ∅ ∅ ∅ 0 None.

(** A signed 64-bit counter wraps to the least value. *)
Definition wrap_i64 (x : Z) : Z := (x + 2 ^ 63) mod 2 ^ 64 - 2 ^ 63.

(** [next_event_id.fetch_add(1)] and [record_transition]. *)
Definition next_event (m : MutableState) : MutableState :=
  mkState (fixed m) (execution_state m) (close_time m) (wrap_i64 (next_event_id m + 1)) (state_transition_count m)
    (history_size_bytes m) (activities m) (timers m) (child_workflows m) (buffered_signals m) (queries m) (memo m)
    (search_attributes m) (has_buffered_events m) (checksum m).

Definition record_transition (m : MutableState) : MutableState :=
  mkState (fixed m) (execution_state m) (close_time m) (next_event_id m) (wrap 64 (state_transition_count m + 1))
    (history_size_bytes m) (activities m) (timers m) (child_workflows m) (buffered_signals m) (queries m) (memo m)
    (search_attributes m) (has_buffered_events m) (checksum m).

Definition with_activities (m : MutableState) (acts : gmap string ActivityState) : MutableState :=
  mkState (fixed m) (execution_state m) (close_time m) (next_event_id m) (state_transition_count m)
    (history_size_bytes m) acts (timers m) (child_workflows m) (buffered_signals m) (queries m) (memo m)
    (search_attributes m) (has_buffered_events m) (checksum m).

Definition with_timers (m : MutableState) (ts : gmap string TimerState) : MutableState :=
  mkState (fixed m) (execution_state m) (close_time m) (next_event_id m) (state_transition_count m)
    (history_size_bytes m) (activities m) ts (child_workflows m) (buffered_signals m) (queries m) (memo m)
    (search_attributes m) (has_buffered_events m) (checksum m).

Definition with_children (m : MutableState) (cs : gmap string ChildWorkflowState) : MutableState :=
  mkState (fixed m) (execution_state m) (close_time m) (next_event_id m) (state_transition_count m)
    (history_size_bytes m) (activities m) (timers m) cs (buffered_signals m) (queries m) (memo m)
    (search_attributes m) (has_buffered_events m) (checksum m).

Definition with_signals (m : MutableState) (ss : list SignalState) (n : Z) : MutableState :=
  mkState (fixed m) (execution_state m) (close_time m) (next_event_id m) (state_transition_count m)
    (history_size_bytes m) (activities m) (timers m) (child_workflows m) ss (queries m) (memo m)
    (search_attributes m) n (checksum m).

Definition with_attributes (m : MutableState) (qs : gmap string QueryState) (me sa : gmap string bytes) : MutableState :=
  mkState (fixed m) (execution_state m) (close_time m) (next_event_id m) (state_transition_count m)
    (history_size_bytes m) (activities m) (timers m) (child_workflows m) (buffered_signals m) qs me sa
    (has_buffered_events m) (checksum m).

Definition with_execution (m : MutableState) (s : WorkflowExecutionState) (close : option Z) : MutableState :=
  mkState (fixed m) s close (next_event_id m) (state_transition_count m) (history_size_bytes m) (activities m)
    (timers m) (child_workflows m) (buffered_signals m) (queries m) (memo m) (search_attributes m)
    (has_buffered_events m) (checksum m).

(** *** Activities *)

Definition set_activity (a : ActivityState) (s : ActivityExecutionState) (scheduled : Z) (heartbeat : option Z)
    (failure : option string) (res : option bytes) : ActivityState :=
  mkActivity (activity_id a) (activity_type a) s scheduled (started_event_id a) (a_task_queue a) (attempt a)
    (heartbeat_timeout_ms a) (schedule_to_close_timeout_ms a) (schedule_to_start_timeout_ms a)
    (start_to_close_timeout_ms a) heartbeat failure res (retry_policy a) (a_header a).

Definition add_activity (m : MutableState) (a : ActivityState) : MutableState * Z :=
  let event_id := next_event_id m in
  let act := set_activity a AScheduled event_id (last_heartbeat_at a) (last_failure a) (a_result a) in
  (with_activities (next_event m) (<[activity_id act := act]> (activities m)), event_id).

Definition complete_activity (m : MutableState) (id : string) (res : option bytes) : result MutableState StateError :=
  match activities m !! id with
  | None => Err ActivityNotFound
  | Some a =>
      if activity_is_terminal (a_state a) then Err InvalidTransition
      else Ok (record_transition (with_activities m
        (<[id := set_activity a ACompleted (scheduled_event_id a) (last_heartbeat_at a) (last_failure a) res]> (activities m))))
  end.

Definition fail_activity (m : MutableState) (id failure : string) : result MutableState StateError :=
  match activities m !! id with
  | None => Err ActivityNotFound
  | Some a =>
      if activity_is_terminal (a_state a) then Err InvalidTransition
      else Ok (record_transition (with_activities m
        (<[id := set_activity a AFailed (scheduled_event_id a) (last_heartbeat_at a) (Some failure) (a_result a)]> (activities m))))
  end.

Definition start_activity (m : MutableState) (id : string) : result MutableState StateError :=
  match activities m !! id with
  | None => Err ActivityNotFound
  | Some a =>
      if bool_decide (a_state a <> AScheduled) then Err InvalidTransition
      else Ok (record_transition (with_activities m
        (<[id := set_activity a AStarted (scheduled_event_id a) (last_heartbeat_at a) (last_failure a) (a_result a)]> (activities m))))
  end.

Definition cancel_activity (m : MutableState) (id : string) : result MutableState StateError :=
  match activities m !! id with
  | None => Err ActivityNotFound
  | Some a =>
      if activity_is_terminal (a_state a) || bool_decide (a_state a = AStarted) then Err InvalidTransition
      else Ok (record_transition (with_activities m
        (<[id := set_activity a ACancelled (scheduled_event_id a) (last_heartbeat_at a) (last_failure a) (a_result a)]> (activities m))))
  end.

Definition timeout_activity (m : MutableState) (id : string) : result MutableState StateError :=
  match activities m !! id with
  | None => Err ActivityNotFound
  | Some a =>
      if activity_is_terminal (a_state a) then Err InvalidTransition
      else Ok (record_transition (with_activities m
        (<[id := set_activity a ATimedOut (scheduled_event_id a) (last_heartbeat_at a) (last_failure a) (a_result a)]> (activities m))))
  end.

Definition heartbeat_activity (now : Z) (m : MutableState) (id : string) : result MutableState StateError :=
  match activities m !! id with
  | None => Err ActivityNotFound
  | Some a =>
      if bool_decide (a_state a <> AScheduled) && bool_decide (a_state a <> AStarted) then Err InvalidTransition
      else Ok (with_activities m
        (<[id := set_activity a (a_state a) (scheduled_event_id a) (Some now) (last_failure a) (a_result a)]> (activities m)))
  end.

Definition active_activity_count (m : MutableState) : nat :=
  size (filter (fun p => activity_is_terminal (a_state p.2) = false) (activities m)).

(** *** Timers *)

Definition add_timer (m : MutableState) (id : string) (at_ms : Z) : MutableState * Z :=
  let event_id := next_event_id m in
  (with_timers (next_event m) (<[id := mkTimer id event_id at_ms TStarted None]> (timers m)), event_id).

Definition fire_timer (m : MutableState) (id : string) : result MutableState StateError :=
  match timers m !! id with
  | None => Err TimerNotFound
  | Some t =>
      if bool_decide (t_state t <> TStarted) then Err InvalidTransition
      else Ok (record_transition (with_timers m
        (<[id := mkTimer (timer_id t) (t_started_event_id t) (fire_at t) TFired (cancelled_event_id t)]> (timers m))))
  end.

Definition cancel_timer (m : MutableState) (id : string) : result MutableState StateError :=
  match timers m !! id with
  | None => Err TimerNotFound
  | Some t =>
      if bool_decide (t_state t <> TStarted) then Err InvalidTransition
      else Ok (record_transition (with_timers m
        (<[id := mkTimer (timer_id t) (t_started_event_id t) (fire_at t) TCancelled (cancelled_event_id t)]> (timers m))))
  end.

Definition active_timer_count (m : MutableState) : nat := size (filter (fun p => t_state p.2 = TStarted) (timers m)).

(** *** Child workflows *)

Definition set_child (c : ChildWorkflowState) (initiated : Z) (s : ChildWorkflowExecutionState) (res : option bytes)
    (failure : option string) : ChildWorkflowState :=
  mkChild (c_workflow_id c) (c_run_id c) (c_workflow_type c) (c_namespace c) initiated (c_started_event_id c) s
    (parent_close_policy c) res failure.

Definition add_child_workflow (m : MutableState) (c : ChildWorkflowState) : MutableState * Z :=
  let event_id := next_event_id m in
  let cw := set_child c event_id (c_state c) (c_result c) (c_failure c) in
  (with_children (next_event m) (<[c_workflow_id cw := cw]> (child_workflows m)), event_id).

Definition start_child_workflow (m : MutableState) (id : string) : result MutableState StateError :=
  match child_workflows m !! id with
  | None => Err ChildNotFound
  | Some c =>
      if bool_decide (c_state c <> CInitiated) then Err InvalidTransition
      else Ok (record_transition (with_children m
        (<[id := set_child c (initiated_event_id c) CStarted (c_result c) (c_failure c)]> (child_workflows m))))
  end.

Definition fail_child_workflow (m : MutableState) (id : string) (failure : option string) : result MutableState StateError :=
  match child_workflows m !! id with
  | None => Err ChildNotFound
  | Some c =>
      if bool_decide (c_state c = CCompleted) || bool_decide (c_state c = CFailed) then Err InvalidTransition
      else Ok (record_transition (with_children m
        (<[id := set_child c (initiated_event_id c) CFailed (c_result c) failure]> (child_workflows m))))
  end.

Definition cancel_child_workflow (m : MutableState) (id : string) : result MutableState StateError :=
  match child_workflows m !! id with
  | None => Err ChildNotFound
  | Some c =>
      if bool_decide (c_state c = CCompleted) || bool_decide (c_state c = CCancelled) then Err InvalidTransition
      else Ok (record_transition (with_children m
        (<[id := set_child c (initiated_event_id c) CCancelled (c_result c) (c_failure c)]> (child_workflows m))))
  end.

Definition complete_child_workflow (m : MutableState) (id : string) (res : option bytes) : result MutableState StateError :=
  match child_workflows m !! id with
  | None => Err ChildNotFound
  | Some c =>
      if bool_decide (c_state c <> CStarted) then Err InvalidTransition
      else Ok (record_transition (with_children m
        (<[id := set_child c (initiated_event_id c) CCompleted res (c_failure c)]> (child_workflows m))))
  end.

(** *** Signals, queries and attributes *)

Definition buffer_signal (m : MutableState) (s : SignalState) : MutableState :=
  with_signals m (buffered_signals m ++ [s]) (wrap 64 (has_buffered_events m + 1)).

Definition drain_buffered_signals (m : MutableState) : MutableState * list SignalState :=
  (with_signals m [] (has_buffered_events m), buffered_signals m).

Definition add_query (m : MutableState) (q : QueryState) : MutableState :=
  with_attributes m (<[query_id q := q]> (queries m)) (memo m) (search_attributes m).

Definition complete_query (m : MutableState) (id : string) (res : option bytes) : result MutableState StateError :=
  match queries m !! id with
  | None => Err QueryNotFound
  | Some q =>
      Ok (with_attributes m
            (<[id := mkQuery (query_id q) (query_type q) (query_args q) QCompleted res (q_error q)]> (queries m))
            (memo m) (search_attributes m))
  end.

Definition upsert_memo (m : MutableState) (kvs : gmap string bytes) : MutableState :=
  with_attributes m (queries m) (kvs ∪ memo m) (search_attributes m).

Definition upsert_search_attributes (m : MutableState) (kvs : gmap string bytes) : MutableState :=
  with_attributes m (queries m) (memo m) (kvs ∪ search_attributes m).

(** *** The execution *)

Definition validate_transition (from to : WorkflowExecutionState) : result unit StateError :=
  let valid :=
    match from, to with
    | Created, Running => true
    | Running, (Completed | Failed | Cancelled | Terminated | ContinuedAsNew | TimedOut) => true
    | _, _ => false
    end in
  if valid then Ok tt else Err InvalidTransition.

Definition start_workflow (m : MutableState) : result MutableState StateError :=
  if bool_decide (execution_state m <> Created) then Err InvalidTransition
  else Ok (record_transition (with_execution m Running (close_time m))).

Definition complete_workflow (now : Z) (m : MutableState) : result MutableState StateError :=
  let? _ := validate_transition (execution_state m) Completed in
  Ok (record_transition (with_execution m Completed (Some now))).

Definition fail_workflow (now : Z) (m : MutableState) : result MutableState StateError :=
  let? _ := validate_transition (execution_state m) Failed in
  Ok (record_transition (with_execution m Failed (Some now))).

Definition cancel_workflow (now : Z) (m : MutableState) : result MutableState StateError :=
  let? _ := validate_transition (execution_state m) Cancelled in
  Ok (record_transition (with_execution m Cancelled (Some now))).

Definition terminate_workflow (now : Z) (m : MutableState) : result MutableState StateError :=
  let? _ := validate_transition (execution_state m) Terminated in
  Ok (record_transition (with_execution m Terminated (Some now))).

Definition continue_as_new (now : Z) (m : MutableState) : result MutableState StateError :=
  let? _ := validate_transition (execution_state m) ContinuedAsNew in
  Ok (record_transition (with_execution m ContinuedAsNew (Some now))).

Definition timeout_workflow (now : Z) (m : MutableState) : result MutableState StateError :=
  let? _ := validate_transition (execution_state m) TimedOut in
  Ok (record_transition (with_execution m TimedOut (Some now))).

(** *** History size and checksum *)

Definition add_history_size (m : MutableState) (n : Z) : MutableState :=
  mkState (fixed m) (execution_state m) (close_time m) (next_event_id m) (state_transition_count m)
    (wrap 64 (history_size_bytes m + n)) (activities m) (timers m) (child_workflows m) (buffered_signals m)
    (queries m) (memo m) (search_attributes m) (has_buffered_events m) (checksum m).

Definition simple_hash (s : chars) : Z :=
  fold_left (fun hash b => wrap 64 (wrap 64 (hash * 33) + Z.of_nat (nat_of_ascii b))) s 5381.

(** The formatted text that is hashed. *)
Definition checksum_text (m : MutableState) : chars :=
  of_string (workflow_id (fixed m)) ++ of_string ":" ++ of_string (run_id (fixed m)) ++ of_string ":" ++
  of_string (state_name (execution_state m)) ++ of_string ":" ++ print_int (state_transition_count m) ++
  of_string ":" ++ print_int (next_event_id m) ++ of_string ":" ++ print_int (history_size_bytes m).

Definition compute_checksum (m : MutableState) : MutableState * bytes :=
  let b := le_bytes 8 (simple_hash (checksum_text m)) in
  (mkState (fixed m) (execution_state m) (close_time m) (next_event_id m) (state_transition_count m)
     (history_size_bytes m) (activities m) (timers m) (child_workflows m) (buffered_signals m) (queries m) (memo m)
     (search_attributes m) (has_buffered_events m) (Some b), b).

Definition verify_checksum (m : MutableState) : MutableState * bool :=
  match checksum m with
  | Some expected => let '(m', computed) := compute_checksum m in (m', bool_decide (expected = computed))
  | None => (m, true)
  end.

(** *** Runs *)

Inductive op : Type :=
| AddActivity (a : ActivityState) | StartActivity (id : string) | CompleteActivity (id : string) (res : option bytes)
| FailActivity (id failure : string) | CancelActivity (id : string) | TimeoutActivity (id : string)
| HeartbeatActivity (id : string)
| AddTimer (id : string) (at_ms : Z) | FireTimer (id : string) | CancelTimer (id : string)
| AddChild (c : ChildWorkflowState) | StartChild (id : string) | FailChild (id : string) (failure : option string)
| CancelChild (id : string) | CompleteChild (id : string) (res : option bytes)
| BufferSignal (s : SignalState) | DrainSignals | AddQuery (q : QueryState)
| CompleteQuery (id : string) (res : option bytes)
| UpsertMemo (kvs : gmap string bytes) | UpsertAttributes (kvs : gmap string bytes)
| StartWorkflow | CompleteWorkflow | FailWorkflow | CancelWorkflow | TerminateWorkflow | ContinueAsNew
| TimeoutWorkflow
| AddHistory (n : Z) | ComputeChecksum | VerifyChecksum.

Definition perform (now : Z) (m : MutableState) (o : op) : result MutableState StateError :=
  match o with
  | AddActivity a => Ok (add_activity m a).1
  | StartActivity id => start_activity m id
  | CompleteActivity id res => complete_activity m id res
  | FailActivity id failure => fail_activity m id failure
  | CancelActivity id => cancel_activity m id
  | TimeoutActivity id => timeout_activity m id
  | HeartbeatActivity id => heartbeat_activity now m id
  | AddTimer id at_ms => Ok (add_timer m id at_ms).1
  | FireTimer id => fire_timer m id
  | CancelTimer id => cancel_timer m id
  | AddChild c => Ok (add_child_workflow m c).1
  | StartChild id => start_child_workflow m id
  | FailChild id failure => fail_child_workflow m id failure
  | CancelChild id => cancel_child_workflow m id
  | CompleteChild id res => complete_child_workflow m id res
  | BufferSignal s => Ok (buffer_signal m s)
  | DrainSignals => Ok (drain_buffered_signals m).1
  | AddQuery q => Ok (add_query m q)
  | CompleteQuery id res => complete_query m id res
  | UpsertMemo kvs => Ok (upsert_memo m kvs)
  | UpsertAttributes kvs => Ok (upsert_search_attributes m kvs)
  | StartWorkflow => start_workflow m
  | CompleteWorkflow => complete_workflow now m
  | FailWorkflow => fail_workflow now m
  | CancelWorkflow => cancel_workflow now m
  | TerminateWorkflow => terminate_workflow now m
  | ContinueAsNew => continue_as_new now m
  | TimeoutWorkflow => timeout_workflow now m
  | AddHistory n => Ok (add_history_size m n)
  | ComputeChecksum => Ok (compute_checksum m).1
  | VerifyChecksum => Ok (verify_checksum m).1
  end.

(** Operations with the time of each; a refused one changes nothing. *)
Definition run_from (m : MutableState) (ops : list (Z * op)) : MutableState :=
  fold_left (fun m p => match perform p.1 m p.2 with Ok m' => m' | Err _ => m end) ops m.

End MutState.

(** ** Lifecycles *)

Module Life.
Import MutState.

(** What is kept of an activity: its state, result, failure and last heartbeat; of a timer: its state and
    the time it fires at; of a child workflow: its state, result and failure; of a query: its state and
    result. *)
Record ActLife : Type := mkActLife {
  al_state : ActivityExecutionState;
  al_result : option bytes;
  al_failure : option string;
  al_heartbeat : option Z;
}.

Definition act_life (a : ActivityState) : ActLife := mkActLife (a_state a) (a_result a) (last_failure a) (last_heartbeat_at a).
Definition timer_life (t : TimerState) : TimerExecutionState * Z := (t_state t, fire_at t).
Definition child_life (c : ChildWorkflowState) : ChildWorkflowExecutionState * option bytes * option string :=
  (c_state c, c_result c, c_failure c).
Definition query_life (q : QueryState) : QueryExecutionState * option bytes := (q_state q, q_result q).

(** The states of the execution and of the things it owns. *)
Record Life : Type := mkLife {
  l_exec : WorkflowExecutionState;
  l_close : option Z;
  l_acts : gmap string ActLife;
  l_timers : gmap string (TimerExecutionState * Z);
  l_children : gmap string (ChildWorkflowExecutionState * option bytes * option string);
  l_queries : gmap string (QueryExecutionState * option bytes);
}.

Definition life_of (m : MutableState) : Life :=
  mkLife (execution_state m) (close_time m) (act_life <$> activities m) (timer_life <$> timers m)
    (child_life <$> child_workflows m) (query_life <$> queries m).

Inductive wf_move : op -> WorkflowExecutionState -> WorkflowExecutionState -> Prop :=
| wf_start : wf_move StartWorkflow Created Running
| wf_complete : wf_move CompleteWorkflow Running Completed
| wf_fail : wf_move FailWorkflow Running Failed
| wf_cancel : wf_move CancelWorkflow Running Cancelled
| wf_terminate : wf_move TerminateWorkflow Running Terminated
| wf_continue : wf_move ContinueAsNew Running ContinuedAsNew
| wf_timeout : wf_move TimeoutWorkflow Running TimedOut.

Inductive act_open : ActivityExecutionState -> Prop :=
| open_scheduled : act_open AScheduled
| open_started : act_open AStarted.

Inductive act_move (now : Z) : op -> string -> ActLife -> ActLife -> Prop :=
| act_start id r f h : act_move now (StartActivity id) id (mkActLife AScheduled r f h) (mkActLife AStarted r f h)
| act_complete id res s r f h :
    act_open s -> act_move now (CompleteActivity id res) id (mkActLife s r f h) (mkActLife ACompleted res f h)
| act_fail id failure s r f h :
    act_open s -> act_move now (FailActivity id failure) id (mkActLife s r f h) (mkActLife AFailed r (Some failure) h)
| act_timeout id s r f h :
    act_open s -> act_move now (TimeoutActivity id) id (mkActLife s r f h) (mkActLife ATimedOut r f h)
| act_cancel id r f h : act_move now (CancelActivity id) id (mkActLife AScheduled r f h) (mkActLife ACancelled r f h)
| act_heartbeat id s r f h :
    act_open s -> act_move now (HeartbeatActivity id) id (mkActLife s r f h) (mkActLife s r f (Some now)).

Inductive timer_move : op -> string -> TimerExecutionState -> TimerExecutionState -> Prop :=
| timer_fire id : timer_move (FireTimer id) id TStarted TFired
| timer_cancel id : timer_move (CancelTimer id) id TStarted TCancelled.

Inductive child_move : op -> string -> ChildWorkflowExecutionState * option bytes * option string ->
    ChildWorkflowExecutionState * option bytes * option string -> Prop :=
| child_start id r f : child_move (StartChild id) id (CInitiated, r, f) (CStarted, r, f)
| child_complete id res r f : child_move (CompleteChild id res) id (CStarted, r, f) (CCompleted, res, f)
| child_fail id failure s r f :
    s <> CCompleted -> s <> CFailed -> child_move (FailChild id failure) id (s, r, f) (CFailed, r, failure)
| child_cancel id s r f :
    s <> CCompleted -> s <> CCancelled -> child_move (CancelChild id) id (s, r, f) (CCancelled, r, f).

(** The operations that leave all lifecycles alone. *)
Inductive idle : op -> Prop :=
| idle_buffer s : idle (BufferSignal s)
| idle_drain : idle DrainSignals
| idle_memo kvs : idle (UpsertMemo kvs)
| idle_attributes kvs : idle (UpsertAttributes kvs)
| idle_history n : idle (AddHistory n)
| idle_compute : idle ComputeChecksum
| idle_verify : idle VerifyChecksum.

Inductive life (now : Z) : Life -> op -> Life -> Prop :=
| life_workflow w c acts ts cs qs o w' :
    wf_move o w w' ->
    life now (mkLife w c acts ts cs qs) o (mkLife w' (if state_is_terminal w' then Some now else c) acts ts cs qs)
| life_add_activity w c acts ts cs qs a :
    life now (mkLife w c acts ts cs qs) (AddActivity a)
      (mkLife w c (<[activity_id a := mkActLife AScheduled (a_result a) (last_failure a) (last_heartbeat_at a)]> acts) ts cs qs)
| life_activity w c acts ts cs qs o id s s' :
    acts !! id = Some s -> act_move now o id s s' ->
    life now (mkLife w c acts ts cs qs) o (mkLife w c (<[id := s']> acts) ts cs qs)
| life_add_timer w c acts ts cs qs id at_ms :
    life now (mkLife w c acts ts cs qs) (AddTimer id at_ms) (mkLife w c acts (<[id := (TStarted, at_ms)]> ts) cs qs)
| life_timer w c acts ts cs qs o id s s' at_ms :
    ts !! id = Some (s, at_ms) -> timer_move o id s s' ->
    life now (mkLife w c acts ts cs qs) o (mkLife w c acts (<[id := (s', at_ms)]> ts) cs qs)
| life_add_child w c acts ts cs qs ch :
    life now (mkLife w c acts ts cs qs) (AddChild ch)
      (mkLife w c acts ts (<[c_workflow_id ch := (c_state ch, c_result ch, c_failure ch)]> cs) qs)
| life_child w c acts ts cs qs o id s s' :
    cs !! id = Some s -> child_move o id s s' ->
    life now (mkLife w c acts ts cs qs) o (mkLife w c acts ts (<[id := s']> cs) qs)
| life_add_query w c acts ts cs qs q :
    life now (mkLife w c acts ts cs qs) (AddQuery q) (mkLife w c acts ts cs (<[query_id q := (q_state q, q_result q)]> qs))
| life_query w c acts ts cs qs id res q :
    qs !! id = Some q ->
    life now (mkLife w c acts ts cs qs) (CompleteQuery id res) (mkLife w c acts ts cs (<[id := (QCompleted, res)]> qs))
| life_idle l o : idle o -> life now l o l.

(** The error of a refused operation: the object is unknown, or its state does not allow it. *)
Definition refusal (l : Life) (o : op) : StateError :=
  match o with
  | StartActivity id | CompleteActivity id _ | FailActivity id _ | CancelActivity id | TimeoutActivity id
  | HeartbeatActivity id => match l_acts l !! id with Some _ => InvalidTransition | None => ActivityNotFound end
  | FireTimer id | CancelTimer id => match l_timers l !! id with Some _ => InvalidTransition | None => TimerNotFound end
  | StartChild id | FailChild id _ | CancelChild id | CompleteChild id _ =>
      match l_children l !! id with Some _ => InvalidTransition | None => ChildNotFound end
  | CompleteQuery _ _ => QueryNotFound
  | _ => InvalidTransition
  end.

(** No activity is in the initial state [Pending]: adding one schedules it. *)
Definition scheduled (m : MutableState) : Prop := map_Forall (fun _ a => a_state a <> APending) (activities m).

Definition refines (now : Z) (m : MutableState) (o : op) : Prop :=
  match perform now m o with
  | Ok m' => life now (life_of m) o (life_of m') /\ scheduled m'
  | Err e => e = refusal (life_of m) o /\ forall l', ~ life now (life_of m) o l'
  end.

(** No lifecycle step for an operation: by the rules that could apply. *)
Ltac no_step :=
  let l := fresh in let H := fresh in
  intros l H; inversion H; subst; clear H;
  repeat match goal with
  | M : wf_move _ _ _ |- _ => inversion M; subst; clear M
  | M : act_move _ _ _ _ _ |- _ => inversion M; subst; clear M
  | M : timer_move _ _ _ _ |- _ => inversion M; subst; clear M
  | M : child_move _ _ _ _ |- _ => inversion M; subst; clear M
  | M : idle _ |- _ => inversion M
  | M : act_open _ |- _ => inversion M; subst; clear M
  end;
  rewrite ?lookup_fmap in *; unfold act_life, timer_life, child_life, query_life in *; simplify_option_eq; congruence.

Lemma refines_workflow now m o :
  match o with
  | StartWorkflow | CompleteWorkflow | FailWorkflow | CancelWorkflow | TerminateWorkflow | ContinueAsNew
  | TimeoutWorkflow => True
  | _ => False
  end -> scheduled m -> refines now m o.
Proof.
  intros Ho Hs. unfold refines. destruct o; try done; cbn [perform];
    unfold start_workflow, complete_workflow, fail_workflow, cancel_workflow, terminate_workflow, continue_as_new,
      timeout_workflow; destruct m as [fx ex ct ne tc hs acts ts cs bs qs me sa hb ck];
    cbn [execution_state]; destruct ex; cbn;
    first [split; [|exact Hs]; unfold life_of; cbn; refine (life_workflow _ _ _ _ _ _ _ _ _ _); constructor
          | split; [done|]; unfold life_of; cbn; no_step].
Qed.

Lemma life_activity' now m o id a f :
  activities m !! id = Some a -> act_move now o id (act_life a) (act_life f) ->
  life now (life_of m) o (life_of (with_activities m (<[id := f]> (activities m)))).
Proof.
  intros Ha Hm. unfold life_of. cbn. rewrite fmap_insert. eapply life_activity; [|exact Hm]. by rewrite lookup_fmap, Ha.
Qed.

Lemma scheduled_insert m id f :
  a_state f <> APending -> scheduled m -> map_Forall (fun _ a => a_state a <> APending) (<[id := f]> (activities m)).
Proof. intros Hf Hs. by apply map_Forall_insert_2. Qed.

Lemma refines_activity now m o :
  match o with
  | StartActivity _ | CompleteActivity _ _ | FailActivity _ _ | CancelActivity _ | TimeoutActivity _
  | HeartbeatActivity _ => True
  | _ => False
  end -> scheduled m -> refines now m o.
Proof.
  intros Ho Hs. unfold refines. destruct o as [|id|id res|id f|id|id|id| | | | | | | | | | | | | | | | | | | | | | | |];
    try done; cbn [perform]; clear Ho;
    unfold start_activity, complete_activity, fail_activity, cancel_activity, timeout_activity, heartbeat_activity;
    (destruct (activities m !! id) as [a|] eqn:Ha;
      [specialize (Hs id a Ha) as Hp; destruct (a_state a) eqn:Hst; cbn; try done
      |unfold life_of; cbn; rewrite lookup_fmap, Ha; split; [done|no_step]]);
    first [split; [by unfold life_of; cbn; rewrite lookup_fmap, Ha|unfold life_of; no_step]
          | split; [eapply (life_activity' _ _ _ id a); [done|]; unfold act_life; cbn; rewrite Hst; repeat constructor
                   |by apply scheduled_insert]].
Qed.

Lemma refines_timer now m o :
  match o with FireTimer _ | CancelTimer _ => True | _ => False end -> scheduled m -> refines now m o.
Proof.
  intros Ho Hs. unfold refines. destruct o; try done; cbn [perform]; clear Ho; unfold fire_timer, cancel_timer;
    (destruct (timers m !! id) as [t|] eqn:Ht;
      [destruct (t_state t) eqn:Hst; cbn
      |unfold life_of; cbn; rewrite lookup_fmap, Ht; split; [done|no_step]]);
    first [split; [by unfold life_of; cbn; rewrite lookup_fmap, Ht|unfold life_of; no_step]
          | split; [|exact Hs]; unfold life_of; cbn; rewrite fmap_insert; eapply life_timer;
            [rewrite lookup_fmap, Ht; reflexivity|rewrite Hst; constructor]].
Qed.

Lemma refines_child now m o :
  match o with StartChild _ | FailChild _ _ | CancelChild _ | CompleteChild _ _ => True | _ => False end ->
  scheduled m -> refines now m o.
Proof.
  intros Ho Hs. unfold refines. destruct o; try done; cbn [perform]; clear Ho;
    unfold start_child_workflow, fail_child_workflow, cancel_child_workflow, complete_child_workflow;
    (destruct (child_workflows m !! id) as [c|] eqn:Hc;
      [destruct (c_state c) eqn:Hst; cbn
      |unfold life_of; cbn; rewrite lookup_fmap, Hc; split; [done|no_step]]);
    first [split; [by unfold life_of; cbn; rewrite lookup_fmap, Hc|unfold life_of; no_step]
          | split; [|exact Hs]; unfold life_of; cbn; rewrite fmap_insert; eapply life_child;
            [by rewrite lookup_fmap, Hc|unfold child_life; cbn; rewrite Hst; by constructor]].
Qed.

Lemma refines_rest now m o :
  match o with
  | AddActivity _ | AddTimer _ _ | AddChild _ | BufferSignal _ | DrainSignals | AddQuery _ | CompleteQuery _ _
  | UpsertMemo _ | UpsertAttributes _ | AddHistory _ | ComputeChecksum | VerifyChecksum => True
  | _ => False
  end -> scheduled m -> refines now m o.
Proof.
  intros Ho Hs. unfold refines. destruct o; try done; cbn [perform]; clear Ho;
    try (split; [|exact Hs]; apply life_idle; constructor).
  - split; [|by apply scheduled_insert]. unfold life_of. cbn. rewrite fmap_insert. apply life_add_activity.
  - split; [|exact Hs]. unfold life_of. cbn. rewrite fmap_insert. apply life_add_timer.
  - split; [|exact Hs]. unfold life_of. cbn. rewrite fmap_insert. apply (life_add_child _ _ _ _ _ _ _ c).
  - split; [|exact Hs]. unfold life_of. cbn. rewrite fmap_insert. apply life_add_query.
  - unfold complete_query. destruct (queries m !! id) as [q|] eqn:Hq.
    + split; [|exact Hs]. unfold life_of. cbn. rewrite fmap_insert. apply (life_query _ _ _ _ _ _ _ _ _ (query_life q)).
      by rewrite lookup_fmap, Hq.
    + split; [done|]. unfold life_of. no_step.
  - unfold verify_checksum. destruct (checksum m); (split; [|exact Hs]); apply (life_idle _ _ _ idle_verify).
Qed.

Lemma perform_refines now m o : scheduled m -> refines now m o.
Proof.
  intros Hs. destruct o;
    first [by apply refines_workflow|by apply refines_activity|by apply refines_timer|by apply refines_child
          |by apply refines_rest].
Qed.

Lemma run_scheduled m ops : scheduled m -> scheduled (run_from m ops).
Proof.
  revert m. induction ops as [|[now o] ops IH]; intros m Hs; [done|]. cbn. apply IH.
  pose proof (perform_refines now m o Hs) as Hr. unfold refines in Hr. by destruct (perform now m o); [apply Hr|].
Qed.

Lemma new_scheduled now ns wid rid ty queue : scheduled (mutable_state_new now ns wid rid ty queue).
Proof. apply map_Forall_empty. Qed.

(** C11. After every run of operations on a new execution, each operation succeeds exactly when
    the lifecycles have a step for it and then makes that step: the execution goes from created to
    running and once to a closed state with its close time, an activity from scheduled over started
    to one outcome with the result or failure given, a timer from started to fired or cancelled with
    its fire time kept, a child workflow from initiated to an outcome with its result or failure, a
    query to completed with the given result.  A refused operation reports an unknown object or an
    invalid transition. *)
Theorem operations_follow_lifecycles (t0 now : Z) (ns wid rid ty queue : string) (ops : list (Z * op)) (o : op) :
  let m := run_from (mutable_state_new t0 ns wid rid ty queue) ops in
  match perform now m o with
  | Ok m' => life now (life_of m) o (life_of m')
  | Err e => e = refusal (life_of m) o /\ forall l', ~ life now (life_of m) o l'
  end.
Proof.
  intros m. pose proof (perform_refines now m o (run_scheduled _ ops (new_scheduled t0 ns wid rid ty queue))) as Hr.
  unfold refines in Hr. by destruct (perform now m o); [apply Hr|].
Qed.

(** *** Outcomes are final *)

(** The operation does not start activity, or timer, [id] anew. *)
Definition keeps_activity (id : string) (o : op) : Prop :=
  match o with AddActivity a => activity_id a <> id | _ => True end.
Definition keeps_timer (id : string) (o : op) : Prop :=
  match o with AddTimer id' _ => id' <> id | _ => True end.

(** Case analysis on what an operation that succeeds read. *)
Ltac succeeded H :=
  cbn [perform] in H;
  unfold start_activity, complete_activity, fail_activity, cancel_activity, timeout_activity, heartbeat_activity,
    fire_timer, cancel_timer, start_child_workflow, fail_child_workflow, cancel_child_workflow,
    complete_child_workflow, complete_query, start_workflow, complete_workflow, fail_workflow, cancel_workflow,
    terminate_workflow, continue_as_new, timeout_workflow, verify_checksum, result_bind in H;
  repeat match type of H with
  | (match ?x with _ => _ end) = _ => destruct x eqn:?
  | Ok _ = Ok _ => injection H as H; subst
  | Err _ = Ok _ => discriminate H
  end.

Lemma terminal_guards s :
  activity_is_terminal s = true -> bool_decide (s <> AScheduled) = true /\ bool_decide (s <> AStarted) = true.
Proof. by destruct s. Qed.

Lemma activity_final now m o m' id a :
  perform now m o = Ok m' -> keeps_activity id o -> activities m !! id = Some a -> activity_is_terminal (a_state a) = true ->
  activities m' !! id = Some a.
Proof.
  intros H Hk Ha Ht. destruct (terminal_guards _ Ht) as [G1 G2]. destruct o as [act|id'|id' res|id' f|id'|id'|id'| | | | | | | | | | | | | | | | | | | | | | | |];
    cbn [keeps_activity] in Hk; succeeded H; cbn; try exact Ha;
    try (destruct (decide (id' = id)) as [->|Hne]; [|by rewrite lookup_insert_ne];
         simplify_map_eq; match goal with E : _ = false |- _ => by rewrite ?Ht, ?G1, ?G2 in E end).
  - by rewrite lookup_insert_ne.
  - destruct (checksum m); exact Ha.
Qed.

Lemma timer_final now m o m' id t :
  perform now m o = Ok m' -> keeps_timer id o -> timers m !! id = Some t -> t_state t <> TStarted ->
  timers m' !! id = Some t.
Proof.
  intros H Hk Ht Hs. destruct o as [| | | | | | |id' f|id'|id'| | | | | | | | | | | | | | | | | | | | |];
    cbn [keeps_timer] in Hk; succeeded H; cbn; try exact Ht; try (by rewrite lookup_insert_ne);
    try (destruct (decide (id' = id)) as [->|Hne]; [|by rewrite lookup_insert_ne]; simplify_map_eq;
         match goal with E : bool_decide _ = false |- _ => by apply bool_decide_eq_false in E end).
  destruct (checksum m); exact Ht.
Qed.

Lemma workflow_final now m o m' :
  perform now m o = Ok m' -> state_is_terminal (execution_state m) = true ->
  execution_state m' = execution_state m /\ close_time m' = close_time m.
Proof.
  intros H Ht. destruct o; succeeded H; try done; cbn; try (destruct (execution_state m); done).
  by destruct (checksum m).
Qed.

Lemma close_time_step now m o m' :
  perform now m o = Ok m' -> (is_Some (close_time m) <-> state_is_terminal (execution_state m) = true) ->
  is_Some (close_time m') <-> state_is_terminal (execution_state m') = true.
Proof.
  intros H Hi. destruct o; succeeded H; try done; cbn.
  - match goal with E : bool_decide _ = false |- _ => apply bool_decide_eq_false, dec_stable in E; by rewrite Hi, E end.
  - by destruct (checksum m).
Qed.

(** What one operation keeps, a run keeps. *)
Lemma run_keeps (P : MutableState -> Prop) (Q : op -> Prop) ops :
  (forall now m o m', perform now m o = Ok m' -> Q o -> P m -> P m') ->
  forall m, Forall (fun p => Q p.2) ops -> P m -> P (run_from m ops).
Proof.
  intros Hstep. induction ops as [|[now o] ops IH]; intros m Hq Hp; [done|]. inversion_clear Hq. cbn. apply IH; [done|].
  destruct (perform now m o) eqn:E; [|done]. by eapply Hstep.
Qed.

(** In every run the close time is set exactly when the execution is closed, and from any
    point on: a closed execution keeps its state and close time, a finished activity keeps its
    whole record (outcome, result and failure) until an activity of that id is added, and a fired
    or cancelled timer keeps its record until one of that id is added. *)
Theorem outcomes_are_final (t0 : Z) (ns wid rid ty queue : string) (ops later : list (Z * op)) :
  let m := run_from (mutable_state_new t0 ns wid rid ty queue) ops in
  let m' := run_from m later in
  (is_Some (close_time m) <-> state_is_terminal (execution_state m) = true) /\
  (state_is_terminal (execution_state m) = true -> execution_state m' = execution_state m /\ close_time m' = close_time m) /\
  (forall id a, activities m !! id = Some a -> activity_is_terminal (a_state a) = true ->
     Forall (fun p => keeps_activity id p.2) later -> activities m' !! id = Some a) /\
  (forall id t, timers m !! id = Some t -> t_state t <> TStarted ->
     Forall (fun p => keeps_timer id p.2) later -> timers m' !! id = Some t).
Proof.
  intros m m'. split_and!.
  - apply (run_keeps (fun m => is_Some (close_time m) <-> state_is_terminal (execution_state m) = true) (fun _ => True)).
    + intros. by eapply close_time_step.
    + by apply Forall_forall.
    + cbn. split; [by intros []|done].
  - intros Ht. apply (run_keeps (fun x => execution_state x = execution_state m /\ close_time x = close_time m) (fun _ => True)).
    + intros now x o x' Hx _ [H1 H2]. destruct (workflow_final _ _ _ _ Hx) as [-> ->]; [by rewrite H1|done].
    + by apply Forall_forall.
    + done.
  - intros id a Ha Hter Hk. apply (run_keeps (fun x => activities x !! id = Some a) (keeps_activity id)); [|done..].
    intros. by eapply activity_final.
  - intros id t Ht Hter Hk. apply (run_keeps (fun x => timers x !! id = Some t) (keeps_timer id)); [|done..].
    intros. by eapply timer_final.
Qed.

Definition sample_state : MutableState := mutable_state_new 1000 "ns" "wf" "run" "Order" "q".

Lemma outcomes_are_final_witness :
  let ops := [(1, StartWorkflow); (2, AddActivity (activity_new "pay" "Pay" "q")); (3, CompleteActivity "pay" (Some [7]));
              (4, CompleteWorkflow)] in
  let later := [(5, FailActivity "pay" "late"); (6, FailWorkflow)] in
  let m' := run_from (run_from sample_state ops) later in
  execution_state m' = Completed /\ close_time m' = Some 4 /\ exists a, activities m' !! "pay" = Some a /\ a_result a = Some [7].
Proof.
  intros ops later m'. destruct (outcomes_are_final 1000 "ns" "wf" "run" "Order" "q" ops later) as (_ & H1 & H2 & _).
  destruct (H1 eq_refl) as [E C]. split; [exact E|]. split; [exact C|].
  exists (set_activity (activity_new "pay" "Pay" "q") ACompleted 1 None None (Some [7])). split; [|reflexivity].
  apply (H2 "pay"); [by vm_compute|reflexivity|by repeat constructor].
Defined.

(** *** Limits *)

(** A cancelled child can fail afterwards, and a failed one be cancelled. *)
Lemma child_outcome_overwritten :
  let child := mkChild "c" "r" "T" "ns" 0 0 CInitiated Abandon None None in
  let state ops := c_state <$> child_workflows (run_from sample_state ((1, AddChild child) :: ops)) !! "c" in
  state [(2, CancelChild "c"); (3, FailChild "c" None)] = Some CFailed /\
  state [(2, FailChild "c" None); (3, CancelChild "c")] = Some CCancelled.
Proof. by vm_compute. Qed.

(** A closed execution takes new activities and timers. *)
Lemma closed_accepts_work :
  let m := run_from sample_state [(1, StartWorkflow); (2, CompleteWorkflow); (3, AddActivity (activity_new "a" "A" "q"));
                                  (4, StartActivity "a"); (5, AddTimer "t" 9); (6, FireTimer "t")] in
  execution_state m = Completed /\ active_activity_count m = 1%nat /\ t_state <$> timers m !! "t" = Some TFired.
Proof. by vm_compute. Qed.

(** Draining the signals leaves the count of buffered events. *)
Lemma drain_keeps_count :
  let s := mkSignal "s" "go" None "me" ∅ true in
  let m := run_from sample_state [(1, BufferSignal s); (2, DrainSignals)] in
  buffered_signals m = [] /\ has_buffered_events m = 1.
Proof. by vm_compute. Qed.

(** A failed verification stores the new checksum, so the next one succeeds. *)
Lemma verification_forgets :
  let m := add_history_size (compute_checksum sample_state).1 5 in
  let '(m1, ok1) := verify_checksum m in let '(_, ok2) := verify_checksum m1 in ok1 = false /\ ok2 = true.
Proof. by vm_compute. Qed.

(** The checksum does not cover the activities, and the separator does not keep the ids apart. *)
Lemma checksum_misses :
  let fresh wid rid := mutable_state_new 1000 "ns" wid rid "Order" "q" in
  let m := run_from sample_state [(1, AddTimer "t" 9)] in
  (compute_checksum (fresh "a:b" "c")).2 = (compute_checksum (fresh "a" "b:c")).2 /\
  (compute_checksum m).2 = (compute_checksum (with_timers m ∅)).2.
Proof. by vm_compute. Qed.

End Life.
