(* ===== verification/Saga.v ===== *)
(** * Sagas

    [saga.rs]: the saga orchestrator that runs the steps of a saga and, when one
    fails, asks for the compensations of the completed steps before it, and the
    orchestrator around it that keeps an execution log and nested sagas.  The theorems
    describe which compensations are asked for, and where a saga ends. *)

From S2P Require Import Prelude Text.

(** ** The orchestrator *)

Module Saga.

Inductive StepExecutionMode : Type := Sequential | Parallel.

Inductive SagaStepStatus : Type :=
| Pending | Running | Completed | Failed | Compensating | Compensated | CompensationFailed.

Inductive SagaStatus : Type :=
| SCreated | SRunning | SCompleted | SFailed | SCompensating | SCompensated | SPartiallyCompensated.

#[export] Instance step_status_eq_dec : EqDecision SagaStepStatus.
Proof. solve_decision. Defined.
#[export] Instance saga_status_eq_dec : EqDecision SagaStatus.
Proof. solve_decision. Defined.

Record SagaStep : Type := mkStep {
  step_id : Z;
  name : string;
  workflow_type_id : Z;
  input : option bytes;
  s_result : option bytes;
  compensation_workflow_type_id : option Z;
  compensation_input : option bytes;
  status : SagaStepStatus;
  execution_mode : StepExecutionMode;
  timeout_ms : Z;
  max_retries : Z;
  retry_count : Z;
}.

Record SagaStepDefinition : Type := mkDef {
  d_name : string;
  d_workflow_type_id : Z;
  d_input : option bytes;
  d_compensation : option Z;
  d_compensation_input : option bytes;
  d_execution_mode : StepExecutionMode;
  d_timeout_ms : Z;
  d_max_retries : Z;
}.

Definition step_definition_new (n : string) (ty : Z) : SagaStepDefinition := mkDef n ty None None None Sequential 0 0.

Definition with_compensation (d : SagaStepDefinition) (comp : Z) (inp : option bytes) : SagaStepDefinition :=
  mkDef (d_name d) (d_workflow_type_id d) (d_input d) (Some comp) inp (d_execution_mode d) (d_timeout_ms d) (d_max_retries d).

Definition with_parallel (d : SagaStepDefinition) : SagaStepDefinition :=
  mkDef (d_name d) (d_workflow_type_id d) (d_input d) (d_compensation d) (d_compensation_input d) Parallel
    (d_timeout_ms d) (d_max_retries d).

Record SagaExecution : Type := mkSaga {
  saga_id : Z;
  workflow_key : Z;
  steps : list SagaStep;
  current_step : nat;
  saga_status : SagaStatus;
}.

Record SagaOrchestrator : Type := mkOrchestrator { sagas : gmap Z SagaExecution; next_id : Z }.

Definition orchestrator_new : SagaOrchestrator := mkOrchestrator ∅ 1.

Definition create_step (i : nat) (d : SagaStepDefinition) : SagaStep :=
  mkStep (Z.of_nat i) (d_name d) (d_workflow_type_id d) (d_input d) None (d_compensation d) (d_compensation_input d)
    Pending (d_execution_mode d) (d_timeout_ms d) (d_max_retries d) 0.

Definition create_saga (o : SagaOrchestrator) (key : Z) (defs : list SagaStepDefinition) : SagaOrchestrator * Z :=
  let id := next_id o in
  (mkOrchestrator (<[id := mkSaga id key (imap create_step defs) 0 SCreated]> (sagas o)) (wrap 64 (id + 1)), id).

Definition set_step (s : SagaStep) (st : SagaStepStatus) (res : option bytes) : SagaStep :=
  mkStep (step_id s) (name s) (workflow_type_id s) (input s) res (compensation_workflow_type_id s)
    (compensation_input s) st (execution_mode s) (timeout_ms s) (max_retries s) (retry_count s).

Definition set_status (s : SagaStep) (st : SagaStepStatus) : SagaStep := set_step s st (s_result s).

(** A saga and a step of it, by index. *)
Definition find_step (o : SagaOrchestrator) (id : Z) (i : nat) : option (SagaExecution * SagaStep) :=
  g ← sagas o !! id; s ← steps g !! i; Some (g, s).

Definition complete_step (o : SagaOrchestrator) (id : Z) (i : nat) (res : option bytes) : SagaOrchestrator * bool :=
  match find_step o id i with
  | Some (g, s) =>
      let st' := <[i := set_step s Completed res]> (steps g) in
      let status' :=
        if (length st' <=? i + 1)%nat then SCompleted
        else if bool_decide (saga_status g = SCreated) then SRunning else saga_status g in
      (mkOrchestrator (<[id := mkSaga (saga_id g) (workflow_key g) st' (i + 1) status']> (sagas o)) (next_id o), true)
  | None => (o, false)
  end.

(** The loop [for i in (0..n).rev()] of [fail_step]. *)
Fixpoint compensate_loop (n : nat) (ss : list SagaStep) : list SagaStep * list (Z * option bytes) :=
  match n with
  | O => (ss, [])
  | S i =>
      match ss !! i with
      | Some s =>
          if bool_decide (status s = Completed) then
            match compensation_workflow_type_id s with
            | Some comp =>
                let '(ss', cs) := compensate_loop i (<[i := set_status s Compensating]> ss) in
                (ss', (comp, compensation_input s) :: cs)
            | None => compensate_loop i ss
            end
          else compensate_loop i ss
      | None => compensate_loop i ss
      end
  end.

Definition fail_step (o : SagaOrchestrator) (id : Z) (i : nat) : SagaOrchestrator * list (Z * option bytes) :=
  match find_step o id i with
  | Some (g, s) =>
      let '(ss, cs) := compensate_loop i (<[i := set_status s Failed]> (steps g)) in
      (mkOrchestrator (<[id := mkSaga (saga_id g) (workflow_key g) ss (current_step g) SCompensating]> (sagas o)) (next_id o), cs)
  | None => (o, [])
  end.

Definition compensation_done (s : SagaStep) : bool :=
  bool_decide (status s = Compensated) || bool_decide (status s = Pending) || bool_decide (status s = Failed).

Definition complete_compensation (o : SagaOrchestrator) (id : Z) (i : nat) : SagaOrchestrator :=
  match find_step o id i with
  | Some (g, s) =>
      let ss := <[i := set_status s Compensated]> (steps g) in
      let status' := if forallb compensation_done ss then SCompensated else saga_status g in
      mkOrchestrator (<[id := mkSaga (saga_id g) (workflow_key g) ss (current_step g) status']> (sagas o)) (next_id o)
  | None => o
  end.

(** *** The compensations of a failed step *)




Lemma find_step_Some o id i g s :
  sagas o !! id = Some g -> steps g !! i = Some s -> find_step o id i = Some (g, s).
Proof. intros Hg Hs. unfold find_step. rewrite Hg. cbn. by rewrite Hs. Qed.


(** *** A saga from its creation to its end *)


(** The result a step last completed with, of completions (index and result) in any order. *)
Definition last_result (completions : list (nat * option bytes)) (j : nat) : option (option bytes) :=
  foldl (fun acc p => if (p.1 =? j)%nat then Some p.2 else acc) None completions.

(** The steps after these completions. *)
Definition progress (defs : list SagaStepDefinition) (completions : list (nat * option bytes)) : list SagaStep :=
  imap (fun j d => match last_result completions j with
                   | Some r => set_step (create_step j d) Completed r
                   | None => create_step j d
                   end) defs.

Definition complete_all (o : SagaOrchestrator) (id : Z) (completions : list (nat * option bytes)) : SagaOrchestrator :=
  foldl (fun o p => (complete_step o id p.1 p.2).1) o completions.

Lemma last_result_next completions i r j :
  last_result (completions ++ [(i, r)]) j = if (i =? j)%nat then Some r else last_result completions j.
Proof. unfold last_result. by rewrite foldl_app. Qed.



Lemma length_progress defs completions : length (progress defs completions) = length defs.
Proof. apply length_imap. Qed.

Lemma progress_snoc defs completions i r s :
  progress defs completions !! i = Some s ->
  <[i := set_step s Completed r]> (progress defs completions) = progress defs (completions ++ [(i, r)]).
Proof.
  intros Hs. apply list_eq. intros j. destruct (decide (j = i)) as [->|Hj].
  - rewrite list_lookup_insert_eq by (by apply lookup_lt_Some in Hs). unfold progress in *. rewrite list_lookup_imap in *.
    destruct (defs !! i) as [d|]; [|done]. cbn in *. rewrite last_result_next, Nat.eqb_refl.
    by destruct (last_result completions i); simplify_eq.
  - rewrite list_lookup_insert_ne by done. unfold progress. rewrite !list_lookup_imap. destruct (defs !! j); [|done]. cbn.
    by rewrite last_result_next, (proj2 (Nat.eqb_neq i j)) by done.
Qed.

Lemma progress_outside defs completions i r :
  (length defs <= i)%nat -> progress defs (completions ++ [(i, r)]) = progress defs completions.
Proof.
  intros Hi. apply list_eq. intros j. unfold progress. rewrite !list_lookup_imap. destruct (defs !! j) eqn:Hd; [|done]. cbn.
  rewrite last_result_next, (proj2 (Nat.eqb_neq i j)); [done|]. apply lookup_lt_Some in Hd. lia.
Qed.

Lemma complete_all_spec o id g defs completions :
  sagas o !! id = Some g -> steps g = progress defs [] ->
  exists g', sagas (complete_all o id completions) !! id = Some g' /\ steps g' = progress defs completions.
Proof.
  intros Hg Hst. induction completions as [|[i r] completions IH] using rev_ind; [by exists g|].
  destruct IH as (g' & Hg' & Hst'). unfold complete_all. rewrite foldl_app. cbn. fold (complete_all o id completions).
  unfold complete_step, find_step. rewrite Hg'. cbn. rewrite Hst'. destruct (progress defs completions !! i) as [s|] eqn:Hs; cbn.
  - rewrite lookup_insert_eq. eexists. split; [done|]. cbn. rewrite Hst'. by apply progress_snoc.
  - exists g'. split; [done|]. rewrite progress_outside; [done|]. apply lookup_ge_None_1 in Hs. by rewrite length_progress in Hs.
Qed.
















Lemma create_saga_steps o key defs :
  sagas (create_saga o key defs).1 !! (create_saga o key defs).2 = Some (mkSaga (next_id o) key (progress defs []) 0 SCreated).
Proof. cbn. rewrite lookup_insert_eq. do 2 f_equal. Qed.



(** Completing the last step, whatever completed before, completes the saga; in particular a saga whose
    steps all complete in order. *)
Lemma saga_completes o key defs completions r :
  defs <> [] ->
  let '(o1, id) := create_saga o key defs in
  saga_status <$> sagas (complete_all o1 id (completions ++ [((length defs - 1)%nat, r)])) !! id = Some SCompleted.
Proof.
  intros Hne. pose proof (create_saga_steps o key defs) as Hc. destruct (create_saga o key defs) as [o1 id]. cbn [fst snd] in Hc.
  destruct (complete_all_spec o1 id _ defs completions Hc eq_refl) as (g & Hg & Hst). unfold complete_all. rewrite foldl_app.
  fold (complete_all o1 id completions). cbn. assert (Hl : (0 < length defs)%nat) by (destruct defs; [done|cbn; lia]).
  destruct (lookup_lt_is_Some_2 (progress defs completions) (length defs - 1)) as [s Hs]; [rewrite length_progress; lia|].
  unfold complete_step. rewrite (find_step_Some _ _ _ g s) by (done || by rewrite Hst). cbn. rewrite lookup_insert_eq. cbn. f_equal.
  rewrite length_insert, Hst, length_progress. by rewrite (proj2 (Nat.leb_le _ _)) by lia.
Qed.

(** *** Limits *)

Definition plain_saga : SagaOrchestrator :=
  (create_saga orchestrator_new 7 [with_compensation (step_definition_new "a" 1) 11 None; step_definition_new "b" 2]).1.

(** Completing the last step completes the saga, whatever the others did: with the first never
    run, and after a failure. *)
Lemma last_step_completes_saga :
  saga_status <$> sagas (complete_step plain_saga 1 1 None).1 !! 1 = Some SCompleted /\
  saga_status <$> sagas (complete_step (fail_step plain_saga 1 0).1 1 1 None).1 !! 1 = Some SCompleted.
Proof. by vm_compute. Qed.

(** A step that completed after the failed one in the order of the steps, as parallel steps can, is not
    compensated, and the saga is stuck in compensating. *)
Lemma later_step_not_compensated :
  let defs := [with_parallel (with_compensation (step_definition_new "a" 1) 11 None);
               with_parallel (with_compensation (step_definition_new "b" 2) 12 None)] in
  let o := (complete_step (create_saga orchestrator_new 7 defs).1 1 1 None).1 in
  let '(o', comps) := fail_step o 1 0 in
  comps = [] /\ (fun g => (saga_status g, map status (steps g))) <$> sagas o' !! 1 = Some (SCompensating, [Failed; Completed]).
Proof. by vm_compute. Qed.

(** A saga whose first step fails has nothing to compensate and stays compensating. *)
Lemma first_failure_hangs :
  let '(o, comps) := fail_step plain_saga 1 0 in
  comps = [] /\ saga_status <$> sagas o !! 1 = Some SCompensating.
Proof. by vm_compute. Qed.

End Saga.

(** ** Execution logs and nested sagas *)

Module SagaLog.
Import Saga.

Inductive SagaLogEntryType : Type :=
| SagaCreated | StepStarted | StepCompleted | StepFailed | CompensationStarted | CompensationCompleted
| LogCompensationFailed | LogSagaCompleted | LogSagaCompensated | SagaPartiallyCompensated | StepRetrying | StepTimedOut.

Record SagaLogEntry : Type := mkEntry {
  entry_id : Z;
  e_saga_id : Z;
  timestamp_ms : Z;
  entry_type : SagaLogEntryType;
  step_index : option nat;
  details : chars;
}.

Record SagaExecutionLog : Type := mkLog { entries : list SagaLogEntry; next_entry_id : Z }.

Definition log_new : SagaExecutionLog := mkLog [] 0.

Definition log (now : Z) (l : SagaExecutionLog) (id : Z) (ty : SagaLogEntryType) (i : option nat) (text : chars) :
    SagaExecutionLog :=
  mkLog (entries l ++ [mkEntry (next_entry_id l) id now ty i text]) (wrap 64 (next_entry_id l + 1)).

Record NestedSagaRef : Type := mkRef { parent_saga_id : Z; parent_step_index : nat; child_saga_id : Z }.

Record EnhancedSagaOrchestrator : Type := mkEnhanced {
  inner : SagaOrchestrator;
  logs : gmap Z SagaExecutionLog;
  nested_refs : list NestedSagaRef;
}.

Definition enhanced_new : EnhancedSagaOrchestrator := mkEnhanced orchestrator_new ∅ [].

(** [if let Some(log) = logs.get_mut(&saga_id)]. *)
Definition log_to (e : EnhancedSagaOrchestrator) (id : Z) (f : SagaExecutionLog -> SagaExecutionLog) : gmap Z SagaExecutionLog :=
  alter f id (logs e).

Definition enhanced_create_saga (now : Z) (e : EnhancedSagaOrchestrator) (key : Z) (defs : list SagaStepDefinition) :
    EnhancedSagaOrchestrator * Z :=
  let '(o, id) := create_saga (inner e) key defs in
  (mkEnhanced o (<[id := log now log_new id SagaCreated None (of_string "workflow_key=" ++ print_int key)]> (logs e))
     (nested_refs e), id).

Definition enhanced_complete_step (now : Z) (e : EnhancedSagaOrchestrator) (id : Z) (i : nat) (res : option bytes) :
    EnhancedSagaOrchestrator * bool :=
  let '(o, ok) := complete_step (inner e) id i res in
  (mkEnhanced o (if ok then log_to e id (fun l => log now l id StepCompleted (Some i) []) else logs e) (nested_refs e), ok).

Definition start_step (now : Z) (e : EnhancedSagaOrchestrator) (id : Z) (i : nat) : EnhancedSagaOrchestrator * bool :=
  (mkEnhanced (inner e) (log_to e id (fun l => log now l id StepStarted (Some i) [])) (nested_refs e), true).

Definition enhanced_fail_step (now : Z) (e : EnhancedSagaOrchestrator) (id : Z) (i : nat) :
    EnhancedSagaOrchestrator * list (Z * option bytes) :=
  let ls := log_to e id (fun l =>
    log now (log now l id StepFailed (Some i) []) id CompensationStarted None
      (of_string "failed_step=" ++ print_int (Z.of_nat i))) in
  let '(o, cs) := fail_step (inner e) id i in (mkEnhanced o ls (nested_refs e), cs).

Definition enhanced_complete_compensation (now : Z) (e : EnhancedSagaOrchestrator) (id : Z) (i : nat) :
    EnhancedSagaOrchestrator :=
  mkEnhanced (complete_compensation (inner e) id i)
    (log_to e id (fun l => log now l id CompensationCompleted (Some i) [])) (nested_refs e).

Definition create_nested_saga (now : Z) (e : EnhancedSagaOrchestrator) (parent : Z) (i : nat) (key : Z)
    (defs : list SagaStepDefinition) : EnhancedSagaOrchestrator * Z :=
  let '(e', child) := enhanced_create_saga now e key defs in
  (mkEnhanced (inner e') (logs e') (nested_refs e' ++ [mkRef parent i child]), child).

Definition get_nested_sagas (e : EnhancedSagaOrchestrator) (parent : Z) : list Z :=
  map child_saga_id (List.filter (fun r => parent_saga_id r =? parent) (nested_refs e)).

(** The loop of [get_parallel_groups] from index [i] with the group collected so far. *)
Fixpoint group_loop (i : nat) (ss : list SagaStep) (current : list nat) : list (list nat) :=
  match ss with
  | [] => if (1 <? length current)%nat then [current] else []
  | s :: ss =>
      if bool_decide (status s = Pending) then group_loop (S i) ss (current ++ [i])
      else match current with
           | [] => group_loop (S i) ss []
           | _ => (if (1 <? length current)%nat then [current] else []) ++ group_loop (S i) ss []
           end
  end.

Definition get_parallel_groups (e : EnhancedSagaOrchestrator) (id : Z) : list (list nat) :=
  match sagas (inner e) !! id with Some g => group_loop 0 (steps g) [] | None => [] end.

(** *** The log of a saga *)

Inductive saga_op : Type :=
| Create (key : Z) (defs : list SagaStepDefinition)
| Nest (parent : Z) (i : nat) (key : Z) (defs : list SagaStepDefinition)
| Start (id : Z) (i : nat)
| Complete (id : Z) (i : nat) (res : option bytes)
| Fail (id : Z) (i : nat)
| Compensate (id : Z) (i : nat).

Definition saga_step (e : EnhancedSagaOrchestrator) (p : Z * saga_op) : EnhancedSagaOrchestrator :=
  match p.2 with
  | Create key defs => (enhanced_create_saga p.1 e key defs).1
  | Nest parent i key defs => (create_nested_saga p.1 e parent i key defs).1
  | Start id i => (start_step p.1 e id i).1
  | Complete id i res => (enhanced_complete_step p.1 e id i res).1
  | Fail id i => (enhanced_fail_step p.1 e id i).1
  | Compensate id i => enhanced_complete_compensation p.1 e id i
  end.

Definition saga_run (ops : list (Z * saga_op)) : EnhancedSagaOrchestrator := fold_left saga_step ops enhanced_new.

(** The entries of one operation. *)
Definition logged (op : saga_op) : nat := match op with Fail _ _ => 2 | _ => 1 end.

Definition log_ok (n : Z) (id : Z) (l : SagaExecutionLog) : Prop :=
  map entry_id (entries l) = seqZ 0 (next_entry_id l) /\ 0 <= next_entry_id l <= n /\
  Forall (fun x => e_saga_id x = id) (entries l) /\ entry_type <$> head (entries l) = Some SagaCreated.

(** Every saga has a log, and every log is of a saga. *)
Definition logs_ok (n : Z) (e : EnhancedSagaOrchestrator) : Prop :=
  dom (logs e) = dom (sagas (inner e)) /\ map_Forall (log_ok n) (logs e).

Lemma log_append now n l id ty i text :
  n + 1 < 2 ^ 64 -> log_ok n id l -> log_ok (n + 1) id (log now l id ty i text).
Proof.
  intros Hn (H1 & H2 & H3 & H4). unfold log_ok, log. cbn [entries next_entry_id]. rewrite wrap_id by (unfold fits; lia).
  rewrite map_app, H1. cbn [map entry_id]. split_and!; [|lia..| |].
  - by rewrite seqZ_app by lia.
  - apply Forall_app. split; [done|by repeat constructor].
  - by destruct (entries l).
Qed.

Lemma log_weaken n n' id l : n <= n' -> log_ok n id l -> log_ok n' id l.
Proof. intros Hn (H1 & H2 & H3 & H4). split_and!; [done|lia..|done|done]. Qed.

Lemma logs_alter n n' e id f :
  n <= n' -> (forall l, log_ok n id l -> log_ok n' id (f l)) -> map_Forall (log_ok n) (logs e) ->
  map_Forall (log_ok n') (alter f id (logs e)).
Proof.
  intros Hn Hf Hm j l Hl. destruct (decide (j = id)) as [->|Hj].
  - rewrite lookup_alter_eq in Hl. destruct (logs e !! id) as [l'|] eqn:E; [|done]. cbn in Hl. simplify_eq. by apply Hf, (Hm id).
  - rewrite lookup_alter_ne in Hl by done. by apply (log_weaken n), Hm.
Qed.

Lemma step_dom (o : SagaOrchestrator) id i g s (v : SagaExecution) :
  find_step o id i = Some (g, s) -> dom (<[id := v]> (sagas o)) = dom (sagas o).
Proof.
  unfold find_step. destruct (sagas o !! id) eqn:E; [|done]. intros _. apply elem_of_dom_2 in E. rewrite dom_insert_L. set_solver.
Qed.

Lemma created_logs now n e key defs :
  0 <= n -> n + 1 < 2 ^ 64 -> logs_ok n e -> logs_ok (n + 1) (enhanced_create_saga now e key defs).1.
Proof.
  intros Hn Hb [Hd Hm]. unfold enhanced_create_saga, create_saga. cbn. split; cbn [logs inner sagas].
  - by rewrite !dom_insert_L, Hd.
  - apply map_Forall_insert_2.
    + apply (log_weaken 1); [lia|]. unfold log_ok, log. cbn [entries next_entry_id log_new app]. split_and!; [done|done|done|by repeat constructor|done].
    + intros j l Hl. apply (log_weaken n); [lia|]. by apply Hm.
Qed.

Lemma step_logs n e p :
  0 <= n -> n + Z.of_nat (logged p.2) < 2 ^ 64 -> logs_ok n e -> logs_ok (n + Z.of_nat (logged p.2)) (saga_step e p).
Proof.
  intros Hn Hb Hok. destruct p as [now op]. cbn [snd] in *. pose proof Hok as [Hd Hm].
  destruct op as [key defs|parent i key defs|id i|id i res|id i|id i]; cbn [saga_step fst snd logged] in *;
    change (Z.of_nat 1) with 1 in *; change (Z.of_nat 2) with 2 in *.
  - by apply created_logs.
  - pose proof (created_logs now n e key defs Hn Hb Hok) as H. unfold create_nested_saga.
    destruct (enhanced_create_saga now e key defs) as [e' child]. exact H.
  - split; cbn; unfold log_to; [by rewrite dom_alter_L|]. apply (logs_alter n); [lia| |done]. intros. by apply log_append.
  - unfold enhanced_complete_step, complete_step. destruct (find_step (inner e) id i) as [[g s]|] eqn:E; cbn [fst]; split;
      cbn [logs inner sagas]; unfold log_to.
    + by rewrite dom_alter_L, (step_dom _ _ _ _ _ _ E).
    + apply (logs_alter n); [lia| |done]. intros. by apply log_append.
    + done.
    + intros j l Hl. apply (log_weaken n); [lia|]. by apply Hm.
  - assert (Hl : map_Forall (log_ok (n + 2)) (alter (fun l => log now (log now l id StepFailed (Some i) []) id
      CompensationStarted None (of_string "failed_step=" ++ print_int (Z.of_nat i))) id (logs e))).
    { apply (logs_alter n); [lia| |done]. intros lg Hlg. replace (n + 2) with (n + 1 + 1) by lia.
      apply log_append; [lia|]. apply log_append; [lia|done]. }
    unfold enhanced_fail_step, fail_step. destruct (find_step (inner e) id i) as [[g s]|] eqn:E;
      [destruct (compensate_loop _ _)|]; (split; [|exact Hl]); cbn [logs inner sagas fst]; unfold log_to;
      by rewrite dom_alter_L, ?(step_dom _ _ _ _ _ _ E).
  - unfold enhanced_complete_compensation, complete_compensation. destruct (find_step (inner e) id i) as [[g s]|] eqn:E; split;
      cbn [logs inner sagas]; unfold log_to; rewrite ?dom_alter_L, ?(step_dom _ _ _ _ _ _ E); try done;
      (apply (logs_alter n); [lia| |done]); intros; by apply log_append.
Qed.

(** Every saga has a log that begins with its creation and whose entries are its own, numbered
    from 0 without a gap. *)
Lemma saga_logs_complete ops :
  2 * Z.of_nat (length ops) < 2 ^ 64 ->
  dom (logs (saga_run ops)) = dom (sagas (inner (saga_run ops))) /\
  map_Forall (fun id l => map entry_id (entries l) = seqZ 0 (Z.of_nat (length (entries l))) /\
    Forall (fun x => e_saga_id x = id) (entries l) /\ entry_type <$> head (entries l) = Some SagaCreated) (logs (saga_run ops)).
Proof.
  intros Hb. enough (exists n, logs_ok n (saga_run ops)) as (n & Hd & Hm).
  { split; [done|]. intros id l Hl. destruct (Hm _ _ Hl) as (H1 & H2 & H3 & H4). split_and!; [|done..].
    apply (f_equal length) in H1 as Hn. rewrite length_map, length_seqZ in Hn. rewrite H1. f_equal. lia. }
  enough (forall n e, 0 <= n -> n + 2 * Z.of_nat (length ops) < 2 ^ 64 -> logs_ok n e -> exists n', logs_ok n' (fold_left saga_step ops e)) as H.
  { apply (H 0 enhanced_new); [done|done|]. split; [done|]. apply map_Forall_empty. }
  clear Hb. induction ops as [|p ops IH]; intros n e Hn Hb Hok; [by exists n|]. cbn [fold_left length] in *.
  rewrite Nat2Z.inj_succ in Hb. assert (Z.of_nat (logged p.2) <= 2) by (destruct p.2; cbn; lia).
  apply (IH (n + Z.of_nat (logged p.2))); [lia..|]. apply step_logs; [lia..|done].
Qed.

(** *** Limits *)

(** Starting a step is logged but not recorded in the step, and starting a step of an unknown saga
    succeeds; the parallel groups are runs of pending steps, whatever their mode. *)
Lemma start_and_groups_ignore_steps :
  let e := (enhanced_create_saga 0 enhanced_new 7 [step_definition_new "a" 1; step_definition_new "b" 2;
              with_parallel (step_definition_new "c" 3)]).1 in
  inner (start_step 1 e 1 0).1 = inner e /\ (start_step 1 e 99 0).2 = true /\
  get_parallel_groups e 1 = [[0; 1; 2]]%nat.
Proof. by vm_compute. Qed.

End SagaLog.
