(* ===== verification/Schedules.v ===== *)
(** * Schedules

    [schedules.rs]: the calendar of the scheduler (days since 1970 to year, month and
    day), calendar specifications with their field expressions, the search for the
    next time a schedule fires, and the manager that fires schedules under an
    overlap policy and records their actions.  The calendar is compared with the
    closed form of the Gregorian one, field expressions with a grammar that is
    printed, and the records of the manager with each other. *)

From S2P Require Import Prelude Text Cron.
Import Cron.

(** ** The calendar *)

Module Calendar.

Definition is_leap_year (year : Z) : bool :=
  ((year mod 4 =? 0) && negb (year mod 100 =? 0)) || (year mod 400 =? 0).

Definition days_in_year (year : Z) : Z := if is_leap_year year then 366 else 365.

(** The loop over the years; the days divided by 365, plus one, are enough rounds. *)
Fixpoint year_loop (fuel : nat) (year remaining : Z) : Z * Z :=
  match fuel with
  | O => (year, remaining)
  | S fuel =>
      if remaining <? days_in_year year then (year, remaining)
      else year_loop fuel (year + 1) (remaining - days_in_year year)
  end.

Definition month_days (year : Z) : list Z :=
  if is_leap_year year then [31; 29; 31; 30; 31; 30; 31; 31; 30; 31; 30; 31]
  else [31; 28; 31; 30; 31; 30; 31; 31; 30; 31; 30; 31].

Fixpoint month_loop (mds : list Z) (month remaining : Z) : Z * Z :=
  match mds with
  | [] => (month, remaining)
  | md :: mds => if remaining <? md then (month, remaining) else month_loop mds (month + 1) (remaining - md)
  end.

Definition days_to_ymd (days : Z) : Z * Z * Z :=
  let '(year, rest) := year_loop (Z.to_nat (days / 365 + 1)) 1970 days in
  let '(month, rest) := month_loop (month_days year) 1 rest in
  (year, month, rest + 1).

Record DateTimeComponents : Type := mkTime { second : Z; minute : Z; hour : Z; day : Z; month : Z; dow : Z }.

Definition epoch_secs_to_components (secs : Z) : DateTimeComponents :=
  let days := secs / 86400 in
  let '(_, m, d) := days_to_ymd days in
  mkTime (secs mod 60) ((secs mod 3600) / 60) ((secs mod 86400) / 3600) d m ((days + 4) mod 7).

(** *** The Gregorian calendar *)

(** The leap years from year 1 to [y]. *)
Definition leaps (y : Z) : Z := y / 4 - y / 100 + y / 400.

(** The days from 1970 to the start of year [y], and to a date. *)
Definition year_start (y : Z) : Z := 365 * (y - 1970) + leaps (y - 1) - leaps 1969.

Definition civil_days (y m d : Z) : Z :=
  year_start y + fold_left Z.add (take (Z.to_nat (m - 1)) (month_days y)) 0 + (d - 1).

Definition valid_date (y m d : Z) : Prop :=
  1970 <= y /\ 1 <= m <= 12 /\ 1 <= d /\ exists md, month_days y !! Z.to_nat (m - 1) = Some md /\ d <= md.

Lemma year_start_next y : year_start (y + 1) = year_start y + days_in_year y.
Proof.
  unfold year_start, days_in_year, is_leap_year, leaps. replace (y + 1 - 1) with y by lia.
  destruct (Z.eqb_spec (y mod 4) 0), (Z.eqb_spec (y mod 100) 0), (Z.eqb_spec (y mod 400) 0); cbn [andb orb negb];
    Z.to_euclidean_division_equations; lia.
Qed.

Lemma days_in_year_bounds y : 365 <= days_in_year y <= 366.
Proof. unfold days_in_year. destruct (is_leap_year y); lia. Qed.

Lemma year_loop_spec fuel : forall year remaining,
  0 <= remaining -> remaining < 365 * Z.of_nat fuel ->
  let '(y, r) := year_loop fuel year remaining in
  year <= y /\ year_start y + r = year_start year + remaining /\ 0 <= r < days_in_year y.
Proof.
  induction fuel as [|fuel IH]; intros year remaining H0 Hf; [lia|]. cbn [year_loop].
  destruct (Z.ltb_spec remaining (days_in_year year)); [lia|].
  pose proof (days_in_year_bounds year). specialize (IH (year + 1) (remaining - days_in_year year) ltac:(lia) ltac:(lia)).
  destruct (year_loop _ _ _) as [y r]. rewrite year_start_next in IH. lia.
Qed.

Lemma fold_add_shift l : forall a, fold_left Z.add l a = a + fold_left Z.add l 0.
Proof. induction l as [|x l IH]; intros a; cbn [fold_left]; [lia|]. rewrite (IH (a + x)), (IH (0 + x)). lia. Qed.

Lemma month_loop_spec mds : forall m r,
  0 <= r < fold_left Z.add mds 0 ->
  let '(m', r') := month_loop mds m r in
  m <= m' /\ 0 <= r' /\ fold_left Z.add (take (Z.to_nat (m' - m)) mds) 0 + r' = r /\
  exists md, mds !! Z.to_nat (m' - m) = Some md /\ r' < md.
Proof.
  induction mds as [|md mds IH]; intros m r Hr; cbn [month_loop]; [cbn in Hr; lia|].
  destruct (Z.ltb_spec r md).
  - replace (Z.to_nat (m - m)) with 0%nat by lia. cbn [take fold_left]. split_and!; [lia..|]. by exists md.
  - cbn [fold_left] in Hr. rewrite fold_add_shift in Hr. specialize (IH (m + 1) (r - md) ltac:(lia)).
    destruct (month_loop mds (m + 1) (r - md)) as [m' r']. destruct IH as (H1 & H2 & H3 & md' & H4 & H5).
    replace (Z.to_nat (m' - m)) with (S (Z.to_nat (m' - (m + 1)))) by lia. cbn [take fold_left].
    rewrite fold_add_shift. split_and!; [lia|lia|lia|]. by exists md'.
Qed.

Lemma month_days_sum y : fold_left Z.add (month_days y) 0 = days_in_year y.
Proof. unfold month_days, days_in_year. by destruct (is_leap_year y). Qed.

Lemma month_days_length y : length (month_days y) = 12%nat.
Proof. unfold month_days. by destruct (is_leap_year y). Qed.

Lemma days_to_ymd_valid days :
  0 <= days -> let '(y, m, d) := days_to_ymd days in valid_date y m d /\ civil_days y m d = days.
Proof.
  intros Hd. unfold days_to_ymd.
  pose proof (year_loop_spec (Z.to_nat (days / 365 + 1)) 1970 days Hd) as Hy.
  rewrite Z2Nat.id in Hy by (Z.to_euclidean_division_equations; lia).
  specialize (Hy ltac:(Z.to_euclidean_division_equations; lia)).
  destruct (year_loop _ _ _) as [y r]. destruct Hy as (Hy & Hs & Hr). rewrite <- month_days_sum in Hr.
  pose proof (month_loop_spec (month_days y) 1 r Hr) as Hm. destruct (month_loop _ _ _) as [m r'].
  destruct Hm as (H1 & H2 & H3 & md & H4 & H5). replace (year_start 1970) with 0 in Hs by done.
  apply lookup_lt_Some in H4 as Hl. rewrite month_days_length in Hl. unfold valid_date, civil_days.
  split; [|lia]. split_and!; try lia. exists md. split; [done|lia].
Qed.

(** A date is determined by its day number. *)
Lemma year_start_mono y n : year_start y + 365 * Z.of_nat n <= year_start (y + Z.of_nat n).
Proof.
  induction n as [|n IH]; [replace (y + Z.of_nat 0) with y by lia; lia|].
  replace (y + Z.of_nat (S n)) with (y + Z.of_nat n + 1) by lia. rewrite year_start_next.
  pose proof (days_in_year_bounds (y + Z.of_nat n)). lia.
Qed.

Lemma month_days_nonneg y : Forall (fun x => 0 <= x) (month_days y).
Proof. unfold month_days. destruct (is_leap_year y); repeat constructor; lia. Qed.

Lemma sum_nonneg l : Forall (fun x => 0 <= x) l -> 0 <= fold_left Z.add l 0.
Proof. induction 1; cbn [fold_left]; [done|]. rewrite fold_add_shift. lia. Qed.

Lemma sum_split (l : list Z) i x :
  l !! i = Some x -> fold_left Z.add l 0 = fold_left Z.add (take i l) 0 + x + fold_left Z.add (drop (S i) l) 0.
Proof.
  intros Hl. rewrite <- (take_drop_middle _ _ _ Hl) at 1. rewrite fold_left_app. cbn [fold_left]. rewrite fold_add_shift. lia.
Qed.

Lemma month_bounds y m d :
  valid_date y m d -> year_start y <= civil_days y m d < year_start (y + 1).
Proof.
  intros (_ & Hm & Hd & md & Hl & Hle). rewrite year_start_next, <- month_days_sum. unfold civil_days.
  rewrite (sum_split _ _ _ Hl). pose proof (month_days_nonneg y) as Hf.
  pose proof (sum_nonneg _ (Forall_take _ (Z.to_nat (m - 1)) _ Hf)). pose proof (sum_nonneg _ (Forall_drop _ (S (Z.to_nat (m - 1))) _ Hf)). lia.
Qed.

Lemma month_order mds m m' d d' md :
  Forall (fun x => 0 <= x) mds -> (m < m')%nat -> mds !! m = Some md -> d < md -> 0 <= d' ->
  fold_left Z.add (take m mds) 0 + d < fold_left Z.add (take m' mds) 0 + d'.
Proof.
  intros Hf Hm Hl Hd Hd'. rewrite (sum_split (take m' mds) m md) by (by rewrite lookup_take_lt).
  rewrite take_take, Nat.min_l by lia. pose proof (sum_nonneg _ (Forall_drop _ (S m) _ (Forall_take _ m' _ Hf))). lia.
Qed.

Lemma civil_days_inj y m d y' m' d' :
  valid_date y m d -> valid_date y' m' d' -> civil_days y m d = civil_days y' m' d' -> (y, m, d) = (y', m', d').
Proof.
  intros H H' He. pose proof (month_bounds _ _ _ H) as Hb. pose proof (month_bounds _ _ _ H') as Hb'.
  assert (y = y') as <-.
  { destruct (Z.lt_trichotomy y y') as [Hlt|[|Hlt]]; [|done|].
    - pose proof (year_start_mono (y + 1) (Z.to_nat (y' - (y + 1)))) as Hm. rewrite Z2Nat.id in Hm by lia.
      replace (y + 1 + (y' - (y + 1))) with y' in Hm by lia. lia.
    - pose proof (year_start_mono (y' + 1) (Z.to_nat (y - (y' + 1)))) as Hm. rewrite Z2Nat.id in Hm by lia.
      replace (y' + 1 + (y - (y' + 1))) with y in Hm by lia. lia. }
  destruct H as (_ & Hm & Hd & md & Hl & Hle), H' as (_ & Hm' & Hd' & md' & Hl' & Hle'). unfold civil_days in He.
  pose proof (month_days_nonneg y) as Hf.
  assert (m = m') as <-; [|f_equal; lia]. destruct (Z.lt_trichotomy m m') as [Hlt|[|Hlt]]; [|done|].
  - pose proof (month_order _ (Z.to_nat (m - 1)) (Z.to_nat (m' - 1)) (d - 1) (d' - 1) md Hf ltac:(lia) Hl ltac:(lia) ltac:(lia)). lia.
  - pose proof (month_order _ (Z.to_nat (m' - 1)) (Z.to_nat (m - 1)) (d' - 1) (d - 1) md' Hf ltac:(lia) Hl' ltac:(lia) ltac:(lia)). lia.
Qed.

(** Converting a day number to year, month and day and back gives the number, for every day
    from 1970 on, and every date of the Gregorian calendar from 1970 on is the one computed from its
    day number: the two loops agree with the closed form of the calendar. *)
Theorem calendar_roundtrip :
  (forall days, 0 <= days -> let '(y, m, d) := days_to_ymd days in valid_date y m d /\ civil_days y m d = days) /\
  (forall y m d, valid_date y m d -> 0 <= civil_days y m d /\ days_to_ymd (civil_days y m d) = (y, m, d)).
Proof.
  split; [apply days_to_ymd_valid|]. intros y m d Hv.
  assert (H0 : 0 <= civil_days y m d).
  { pose proof (month_bounds _ _ _ Hv). destruct Hv as (Hy & _). pose proof (year_start_mono 1970 (Z.to_nat (y - 1970))) as Hm.
    rewrite Z2Nat.id in Hm by lia. replace (1970 + (y - 1970)) with y in Hm by lia. replace (year_start 1970) with 0 in Hm by done. lia. }
  split; [done|]. pose proof (days_to_ymd_valid _ H0) as Hd. destruct (days_to_ymd (civil_days y m d)) as [[y' m'] d'].
  destruct Hd as [Hv' He]. symmetry. by apply civil_days_inj.
Qed.

Lemma calendar_roundtrip_witness : days_to_ymd 20514 = (2026, 3, 2) /\ civil_days 2024 2 29 = 19782 /\ days_to_ymd 19782 = (2024, 2, 29).
Proof.
  split; [by vm_compute|]. split; [by vm_compute|]. apply (proj2 calendar_roundtrip 2024 2 29).
  split_and!; try lia. by exists 29.
Defined.

(** The cron scheduler does not use this calendar: its first day of the month after the first of February 1970
    is the fourth of March, and its weekday 0 is the Thursday of the epoch. *)
Lemma cron_calendar_not_gregorian :
  exists e, parse (of_string "0 0 1 * *") = Ok e /\ next_fire_after e (31 * 1440) = 62 * 1440 /\
    days_to_ymd 31 = (1970, 2, 1) /\ days_to_ymd 62 = (1970, 3, 4) /\
    weekday_of 0 = 0 /\ dow (epoch_secs_to_components 0) = 4.
Proof. eexists. split; [vm_compute; reflexivity|]. by vm_compute. Qed.

End Calendar.

(** ** Calendar specifications *)

Module CalendarSpec.
Import Calendar.

Record CalendarSpec : Type := mkSpec {
  f_second : chars;
  f_minute : chars;
  f_hour : chars;
  f_day_of_month : chars;
  f_month : chars;
  f_day_of_week : chars;
  comment : chars;
}.

Definition parse_u32 (s : chars) : option Z := parse_int 0 (2 ^ 32 - 1) s.

(** One part of an expression, trimmed.  [segments[0]] and [segments[1]] exist where the separator
    occurs. *)
Definition matches_part (part : chars) (value min max : Z) : bool :=
  if existsb is_slash part then
    let segments := split_on is_slash part in
    let first := nth 0 segments [] in
    let step := default 1 (parse_u32 (nth 1 segments [])) in
    let start := if bool_decide (first = of_string "*") then min else default min (parse_u32 first) in
    (0 <? step) && (start <=? value) && ((value - start) mod step =? 0) && (value <=? max)
  else if existsb is_dash part then
    let segments := split_on is_dash part in
    let lo := default min (parse_u32 (nth 0 segments [])) in
    let hi := default max (parse_u32 (nth 1 segments [])) in
    (lo <=? value) && (value <=? hi)
  else match parse_u32 part with Some v => v =? value | None => false end.

Definition matches_field (expr : chars) (value min max : Z) : bool :=
  bool_decide (expr = of_string "*") ||
  existsb (fun part => matches_part (trim part) value min max) (split_on is_comma expr).

Definition spec_matches (s : CalendarSpec) (t : DateTimeComponents) : bool :=
  matches_field (f_second s) (second t) 0 59 && matches_field (f_minute s) (minute t) 0 59 &&
  matches_field (f_hour s) (hour t) 0 23 && matches_field (f_day_of_month s) (day t) 1 31 &&
  matches_field (f_month s) (month t) 1 12 && matches_field (f_day_of_week s) (dow t) 0 6.

(** The scan of [compute_next_fire] from second [secs]. *)
Fixpoint scan (s : CalendarSpec) (n : nat) (secs : Z) : option Z :=
  match n with
  | O => None
  | S n => if spec_matches s (epoch_secs_to_components secs) then Some (wrap 64 (secs * 1000)) else scan s n (secs + 1)
  end.

Definition next_fire (s : CalendarSpec) (after_ms : Z) : option Z := scan s (Z.to_nat 86400) (after_ms / 1000 + 1).

(** *** Expressions of the grammar *)

Inductive spart : Type := Exact (v : Z) | Between (lo hi : Z) | Every (n : Z) | From (start n : Z).
Inductive sfield : Type := Any | Parts (p : spart) (ps : list spart).

Definition print_spart (p : spart) : chars :=
  match p with
  | Exact v => print_int v
  | Between lo hi => print_int lo ++ "-"%char :: print_int hi
  | Every n => "*"%char :: "/"%char :: print_int n
  | From start n => print_int start ++ "/"%char :: print_int n
  end.

Fixpoint print_sparts (p : spart) (ps : list spart) : chars :=
  match ps with [] => print_spart p | q :: ps => print_spart p ++ ","%char :: print_sparts q ps end.

Definition print_sfield (f : sfield) : chars :=
  match f with Any => of_string "*" | Parts p ps => print_sparts p ps end.

Definition spart_ok (p : spart) : Prop :=
  match p with
  | Exact v => u32 v
  | Between lo hi => u32 lo /\ u32 hi
  | Every n => u32 n /\ 0 < n
  | From start n => u32 start /\ u32 n /\ 0 < n
  end.
Definition sfield_ok (f : sfield) : Prop := match f with Any => True | Parts p ps => Forall spart_ok (p :: ps) end.

Definition spart_matches (min max : Z) (p : spart) (v : Z) : Prop :=
  match p with
  | Exact w => v = w
  | Between lo hi => lo <= v <= hi
  | Every n => min <= v <= max /\ (v - min) mod n = 0
  | From start n => start <= v <= max /\ (v - start) mod n = 0
  end.
Definition sfield_matches (min max : Z) (f : sfield) (v : Z) : Prop :=
  match f with Any => True | Parts p ps => Exists (fun p => spart_matches min max p v) (p :: ps) end.

Lemma parse_u32_print n : u32 n -> parse_u32 (print_int n) = Some n.
Proof. intros [H1 H2]. apply parse_print_int; lia. Qed.

Lemma none_existsb p l : none_of p l -> existsb p l = false.
Proof.
  unfold none_of. rewrite forallb_forall. intros H. apply not_true_iff_false. rewrite existsb_exists.
  intros (c & Hc & Hp). apply H in Hc. by rewrite Hp in Hc.
Qed.

Lemma digits_none k n : 0 <= n -> ~ (48 <= k <= 57) -> none_of (fun c => code c =? k) (print_int n).
Proof. intros Hn Hk. apply print_int_none; [done|]. intros c Hc. by apply digit_not. Qed.

Lemma digits_not_star n : 0 <= n -> print_int n <> of_string "*".
Proof. intros Hn He. destruct (print_int_cons n Hn) as (c & l & E & Hc). rewrite E in He. injection He as -> _. vm_compute in Hc. discriminate. Qed.

Lemma matches_part_print p v min max :
  spart_ok p -> matches_part (print_spart p) v min max = true <-> spart_matches min max p v.
Proof.
  intros Hok. unfold matches_part. destruct p as [w|lo hi|n|start n]; cbn [print_spart spart_ok spart_matches] in *.
  - rewrite (none_existsb is_slash), (none_existsb is_dash) by (apply digits_none; [apply Hok|lia]).
    rewrite parse_u32_print by done. rewrite Z.eqb_eq. split; congruence.
  - destruct Hok as [Hl Hh]. rewrite (none_existsb is_slash).
    2: { apply none_of_app. split; [apply digits_none; [apply Hl|lia]|]. apply (digits_none 47); [apply Hh|lia]. }
    rewrite existsb_app. cbn [existsb]. replace (is_dash "-") with true by done. rewrite orb_true_r.
    rewrite split_on_sep, split_on_none by (done || (apply digits_none; [apply Hl || apply Hh|lia])). cbn [nth].
    rewrite !parse_u32_print by done. cbn. rewrite andb_true_iff, !Z.leb_le. done.
  - destruct Hok as [Hn Hp]. cbn [existsb]. replace (is_slash "*") with false by done. replace (is_slash "/") with true by done.
    cbn [orb]. change ("*"%char :: "/"%char :: print_int n) with (of_string "*" ++ "/"%char :: print_int n).
    rewrite split_on_sep, split_on_none by (done || (apply digits_none; [apply Hn|lia])). cbn [nth].
    rewrite parse_u32_print, bool_decide_true by done. cbn [from_option id].
    rewrite !andb_true_iff, Z.ltb_lt, !Z.leb_le, Z.eqb_eq. lia.
  - destruct Hok as (Hs & Hn & Hp). rewrite existsb_app. cbn [existsb]. replace (is_slash "/") with true by done. rewrite orb_true_r.
    rewrite split_on_sep, split_on_none by (done || (apply digits_none; [apply Hs || apply Hn|lia])). cbn [nth].
    rewrite !parse_u32_print by done. rewrite bool_decide_false by (apply digits_not_star, Hs). cbn [from_option id].
    rewrite !andb_true_iff, Z.ltb_lt, !Z.leb_le, Z.eqb_eq. lia.
Qed.

Lemma spart_none q p :
  (forall c, is_ascii_digit c = true -> q c = false) -> q "-"%char = false -> q "*"%char = false -> q "/"%char = false ->
  spart_ok p -> none_of q (print_spart p).
Proof.
  intros Hd Hm Hs Hl Hok.
  assert (Hi : forall n, u32 n -> none_of q (print_int n)) by (intros n [Hn _]; by apply print_int_none).
  assert (Hc : forall c l, q c = false -> none_of q l -> none_of q (c :: l)) by (intros c l Hq H; unfold none_of in *; cbn; by rewrite Hq).
  destruct p; cbn in *; [by apply Hi| | |]; try (apply none_of_app; split); try (apply Hc; [done|]); try (apply Hc; [done|]); apply Hi; tauto.
Qed.

Lemma split_sparts p ps :
  Forall spart_ok (p :: ps) -> split_on is_comma (print_sparts p ps) = map print_spart (p :: ps).
Proof.
  assert (Hn : forall q, spart_ok q -> none_of is_comma (print_spart q)) by (intros q; by apply spart_none; [apply digit_not_comma|..]).
  revert p. induction ps as [|q ps IH]; intros p Hok; inversion_clear Hok as [|? ? Hp Hps]; cbn [print_sparts].
  - by apply split_on_none, Hn.
  - rewrite split_on_sep by (done || by apply Hn). by rewrite IH.
Qed.

Lemma spart_not_star p rest : spart_ok p -> print_spart p ++ rest <> of_string "*".
Proof.
  intros Hok He. destruct p as [v|lo hi|n|start n]; cbn in He, Hok;
    [pose proof (proj1 Hok) as Hn|pose proof (proj1 (proj1 Hok)) as Hn| |pose proof (proj1 (proj1 Hok)) as Hn].
  3: { discriminate. }
  all: destruct (print_int_cons _ Hn) as (c & l & E & Hc); rewrite E in He; injection He as -> _; vm_compute in Hc; discriminate.
Qed.

Lemma matches_field_print f v min max :
  sfield_ok f -> matches_field (print_sfield f) v min max = true <-> sfield_matches min max f v.
Proof.
  intros Hok. unfold matches_field. destruct f as [|p ps]; cbn [print_sfield sfield_matches sfield_ok] in *; [done|].
  rewrite bool_decide_false.
  2: { inversion_clear Hok as [|? ? Hp _]. destruct ps; cbn [print_sparts]; [rewrite <- (app_nil_r (print_spart p))|]; by apply spart_not_star. }
  cbn [orb]. rewrite split_sparts by done. rewrite existsb_exists, Exists_exists. setoid_rewrite <- list_elem_of_In.
  assert (Htrim : forall q, spart_ok q -> trim (print_spart q) = print_spart q).
  { intros q Hq. apply trim_none. apply spart_none; [apply digit_not_space|done..]. }
  rewrite Forall_forall in Hok. split.
  - intros (x & Hx & Hm). apply list_elem_of_fmap in Hx as (q & -> & Hq). exists q. split; [done|].
    rewrite Htrim in Hm by auto. by apply matches_part_print in Hm; [|auto].
  - intros (q & Hq & Hm). exists (print_spart q). split; [by apply list_elem_of_fmap_2|].
    rewrite Htrim by auto. apply matches_part_print; auto.
Qed.

(** *** When a schedule fires *)

Record calendar : Type := mkCalendar {
  c_second : sfield; c_minute : sfield; c_hour : sfield; c_day : sfield; c_month : sfield; c_weekday : sfield;
}.

Definition print_calendar (c : calendar) (note : chars) : CalendarSpec :=
  mkSpec (print_sfield (c_second c)) (print_sfield (c_minute c)) (print_sfield (c_hour c)) (print_sfield (c_day c))
    (print_sfield (c_month c)) (print_sfield (c_weekday c)) note.

Definition calendar_ok (c : calendar) : Prop :=
  sfield_ok (c_second c) /\ sfield_ok (c_minute c) /\ sfield_ok (c_hour c) /\ sfield_ok (c_day c) /\
  sfield_ok (c_month c) /\ sfield_ok (c_weekday c).

(** The second [secs] since 1970 is one the calendar names; 1 January 1970 was a Thursday. *)
Definition fires_at (c : calendar) (secs : Z) : Prop :=
  exists y m d, valid_date y m d /\ civil_days y m d = secs / 86400 /\
    sfield_matches 0 59 (c_second c) (secs mod 60) /\ sfield_matches 0 59 (c_minute c) (secs / 60 mod 60) /\
    sfield_matches 0 23 (c_hour c) (secs / 3600 mod 24) /\ sfield_matches 1 31 (c_day c) d /\
    sfield_matches 1 12 (c_month c) m /\ sfield_matches 0 6 (c_weekday c) ((secs / 86400 + 4) mod 7).

Lemma spec_matches_fires c note secs :
  calendar_ok c -> 0 <= secs ->
  spec_matches (print_calendar c note) (epoch_secs_to_components secs) = true <-> fires_at c secs.
Proof.
  intros (H1 & H2 & H3 & H4 & H5 & H6) Hs. unfold spec_matches, epoch_secs_to_components, fires_at.
  pose proof (days_to_ymd_valid (secs / 86400) ltac:(Z.to_euclidean_division_equations; lia)) as Hd.
  destruct (days_to_ymd (secs / 86400)) as [[y m] d]. destruct Hd as [Hv He]. cbn [print_calendar f_second f_minute f_hour f_day_of_month f_month f_day_of_week second minute hour day month dow].
  rewrite !andb_true_iff, !matches_field_print by done.
  replace (secs mod 3600 / 60) with (secs / 60 mod 60) by (Z.to_euclidean_division_equations; lia).
  replace (secs mod 86400 / 3600) with (secs / 3600 mod 24) by (Z.to_euclidean_division_equations; lia). split.
  - intros [[[[[M1 M2] M3] M4] M5] M6]. exists y, m, d. tauto.
  - intros (y' & m' & d' & Hv' & He' & M). rewrite <- He in He'. pose proof (civil_days_inj _ _ _ _ _ _ Hv' Hv He') as E. simplify_eq. tauto.
Qed.

Lemma scan_spec s n : forall secs,
  match scan s n secs with
  | Some t => exists x, t = wrap 64 (x * 1000) /\ secs <= x < secs + Z.of_nat n /\
      spec_matches s (epoch_secs_to_components x) = true /\
      forall z, secs <= z < x -> spec_matches s (epoch_secs_to_components z) = false
  | None => forall z, secs <= z < secs + Z.of_nat n -> spec_matches s (epoch_secs_to_components z) = false
  end.
Proof.
  induction n as [|n IH]; intros secs; cbn [scan]; [intros; lia|].
  destruct (spec_matches s (epoch_secs_to_components secs)) eqn:E.
  - exists secs. split_and!; [done|lia|lia|done|intros; lia].
  - specialize (IH (secs + 1)). destruct (scan s n (secs + 1)) as [t|].
    + destruct IH as (x & Ht & Hx & Hm & Hmin). exists x. split_and!; [done|lia|lia|done|]. intros z Hz.
      destruct (Z.eq_dec z secs) as [->|]; [done|]. apply Hmin. lia.
    + intros z Hz. destruct (Z.eq_dec z secs) as [->|]; [done|]. apply IH. lia.
Qed.

(** C27. For a calendar specification written in the grammar of the fields (any value, values,
    ranges, steps), the next fire time is the first second within 24 hours whose Gregorian date,
    weekday and time of day satisfy all six fields, and there is none exactly if no second of the
    next 24 hours does. *)
Theorem next_fire_correct (c : calendar) (note : chars) (after_ms : Z)
  (Hc : calendar_ok c) (Ha : 0 <= after_ms) (Hb : after_ms + 86401000 < 2 ^ 64) :
  match next_fire (print_calendar c note) after_ms with
  | Some t => exists secs, t = secs * 1000 /\ after_ms / 1000 < secs <= after_ms / 1000 + 86400 /\ fires_at c secs /\
      forall z, after_ms / 1000 < z < secs -> ~ fires_at c z
  | None => forall z, after_ms / 1000 < z <= after_ms / 1000 + 86400 -> ~ fires_at c z
  end.
Proof.
  unfold next_fire. pose proof (scan_spec (print_calendar c note) (Z.to_nat 86400) (after_ms / 1000 + 1)) as H.
  rewrite Z2Nat.id in H by lia. assert (H0 : 0 <= after_ms / 1000) by (Z.to_euclidean_division_equations; lia).
  assert (Hno : forall z, 0 <= z -> spec_matches (print_calendar c note) (epoch_secs_to_components z) = false -> ~ fires_at c z).
  { intros z Hz Hm Hf. apply (spec_matches_fires c note) in Hf; [congruence|done..]. }
  destruct (scan _ _ _) as [t|].
  - destruct H as (x & -> & Hx & Hm & Hmin). exists x. split_and!; try lia.
    + apply wrap_id. unfold fits. Z.to_euclidean_division_equations; lia.
    + apply (spec_matches_fires c note); [done|lia|done].
    + intros z Hz. apply Hno; [lia|]. apply Hmin. lia.
  - intros z Hz. apply Hno; [lia|]. apply H. lia.
Qed.

Definition sample_calendar : calendar :=
  mkCalendar (Parts (Exact 0) []) (Parts (Every 15) []) (Parts (Between 9 17) []) Any Any (Parts (Between 1 5) [Exact 6]).

Lemma next_fire_correct_witness :
  next_fire (print_calendar sample_calendar []) 1772443800123 = Some 1772444700000 /\
  exists secs, 1772444700000 = secs * 1000 /\ fires_at sample_calendar secs.
Proof.
  assert (E : next_fire (print_calendar sample_calendar []) 1772443800123 = Some 1772444700000) by (by vm_compute).
  split; [exact E|]. pose proof (next_fire_correct sample_calendar [] 1772443800123) as H. rewrite E in H.
  destruct H as (secs & H1 & _ & H2 & _); [by repeat constructor|lia|lia|]. exists secs. exact (conj H1 H2).
Defined.

(** A schedule that next fires in more than a day has no next fire time: midnight on the 15th of a
    month, asked for on the 1st. *)
Definition monthly : calendar :=
  mkCalendar (Parts (Exact 0) []) (Parts (Exact 0) []) (Parts (Exact 0) []) (Parts (Exact 15) []) Any Any.

Lemma monthly_schedule_never_fires : next_fire (print_calendar monthly []) 0 = None.
Proof.
  unfold next_fire. pose proof (scan_spec (print_calendar monthly []) (Z.to_nat 86400) (0 / 1000 + 1)) as H.
  destruct (scan _ _ _) as [t|]; [|done]. destruct H as (x & _ & Hx & Hm & _). rewrite Z2Nat.id in Hx by lia.
  assert (Hx' : 1 <= x < 86401) by (change (0 / 1000) with 0 in Hx; lia).
  apply (spec_matches_fires monthly []) in Hm; [|by repeat constructor|lia].
  destruct Hm as (y & m & d & Hv & He & _ & _ & _ & Hd & _). cbn in Hd. apply Exists_exists in Hd as (p & Hp & Hd).
  apply list_elem_of_singleton in Hp as ->. cbn in Hd. exfalso.
  assert (Hday : x / 86400 = 0 \/ x / 86400 = 1) by (Z.to_euclidean_division_equations; lia).
  assert (Hv' : forall k, 1 <= k <= 2 -> valid_date 1970 1 k) by (intros k Hk; split_and!; try lia; exists 31; split; [done|lia]).
  destruct Hday as [E|E]; rewrite E in He.
  - pose proof (civil_days_inj _ _ _ 1970 1 1 Hv (Hv' 1 ltac:(lia)) He). simplify_eq.
  - pose proof (civil_days_inj _ _ _ 1970 1 2 Hv (Hv' 2 ltac:(lia)) He). simplify_eq.
Qed.

(** A star is a wildcard only as the whole expression: in a list it matches nothing. *)
Lemma star_in_list_matches_nothing : matches_field (of_string "5,*") 7 0 59 = false.
Proof. by vm_compute. Qed.

End CalendarSpec.

(** ** The schedule manager *)

Module ScheduleManager.
Import CalendarSpec.

Inductive OverlapPolicy : Type := Skip | BufferOne | BufferAll | TerminateOther | AllowAll.

Inductive ScheduleState : Type := Active | Paused | Completed | Failed.

#[export] Instance overlap_eq_dec : EqDecision OverlapPolicy.
Proof. solve_decision. Defined.
#[export] Instance schedule_state_eq_dec : EqDecision ScheduleState.
Proof. solve_decision. Defined.

Record ScheduleEntry : Type := mkSchedule {
  schedule_id : Z;
  calendar_spec : CalendarSpec;
  workflow_type_id : Z;
  namespace_id : Z;
  task_queue_hash : Z;
  overlap_policy : OverlapPolicy;
  jitter_seconds : Z;
  sched_state : ScheduleState;
  remaining_actions : Z;
  start_time_ms : Z;
  end_time_ms : option Z;
  last_action_time_ms : Z;
  next_action_time_ms : Z;
  action_count : Z;
  running_workflow_keys : list Z;
  notes : chars;
  s_search_attributes : gmap string string;
  created_at_ms : Z;
}.

Record ScheduleAction : Type := mkAction {
  action_id : Z;
  a_schedule_id : Z;
  workflow_key : Z;
  started_at_ms : Z;
  completed_at_ms : option Z;
  success : bool;
}.

Record ScheduleManager : Type := mkManager {
  schedules : gmap Z ScheduleEntry;
  actions : list ScheduleAction;
  next_id : Z;
  next_action_id : Z;
}.

Definition schedule_manager_new : ScheduleManager := mkManager ∅ [] 1 1.

Definition create_schedule (now : Z) (m : ScheduleManager) (spec : CalendarSpec) (ty ns queue : Z) (overlap : OverlapPolicy)
    (jitter : Z) : ScheduleManager * Z :=
  let id := next_id m in
  (mkManager (<[id := mkSchedule id spec ty ns queue overlap jitter Active 0 now None 0 0 0 [] [] ∅ now]> (schedules m))
     (actions m) (wrap 64 (id + 1)) (next_action_id m), id).

(** The fields that the operations change. *)
Definition set_entry (e : ScheduleEntry) (policy : OverlapPolicy) (st : ScheduleState) (remaining last count : Z)
    (running : list Z) (note : chars) (attrs : gmap string string) : ScheduleEntry :=
  mkSchedule (schedule_id e) (calendar_spec e) (workflow_type_id e) (namespace_id e) (task_queue_hash e) policy
    (jitter_seconds e) st remaining (start_time_ms e) (end_time_ms e) last (next_action_time_ms e) count running note
    attrs (created_at_ms e).

(** [if let Some(e) = s.get_mut(&schedule_id)]. *)
Definition update_entry (m : ScheduleManager) (id : Z) (f : ScheduleEntry -> ScheduleEntry) : ScheduleManager * bool :=
  match schedules m !! id with
  | Some e => (mkManager (<[id := f e]> (schedules m)) (actions m) (next_id m) (next_action_id m), true)
  | None => (m, false)
  end.

Definition create_schedule_rich (now : Z) (m : ScheduleManager) (spec : CalendarSpec) (ty ns queue : Z)
    (overlap : OverlapPolicy) (jitter : Z) (note : chars) (attrs : gmap string string) : ScheduleManager * Z :=
  let '(m, id) := create_schedule now m spec ty ns queue overlap jitter in
  ((update_entry m id (fun e => set_entry e (overlap_policy e) (sched_state e) (remaining_actions e) (last_action_time_ms e)
      (action_count e) (running_workflow_keys e) note attrs)).1, id).

Definition pause (m : ScheduleManager) (id : Z) : ScheduleManager * bool :=
  update_entry m id (fun e => set_entry e (overlap_policy e) Paused (remaining_actions e) (last_action_time_ms e)
    (action_count e) (running_workflow_keys e) (notes e) (s_search_attributes e)).

Definition unpause (m : ScheduleManager) (id : Z) : ScheduleManager * bool :=
  update_entry m id (fun e => set_entry e (overlap_policy e) Active (remaining_actions e) (last_action_time_ms e)
    (action_count e) (running_workflow_keys e) (notes e) (s_search_attributes e)).

Definition delete_schedule (m : ScheduleManager) (id : Z) : ScheduleManager * bool :=
  (mkManager (delete id (schedules m)) (actions m) (next_id m) (next_action_id m), bool_decide (is_Some (schedules m !! id))).

Definition update_overlap_policy (m : ScheduleManager) (id : Z) (policy : OverlapPolicy) : ScheduleManager * bool :=
  update_entry m id (fun e => set_entry e policy (sched_state e) (remaining_actions e) (last_action_time_ms e)
    (action_count e) (running_workflow_keys e) (notes e) (s_search_attributes e)).

Definition set_remaining_actions (m : ScheduleManager) (id count : Z) : ScheduleManager * bool :=
  update_entry m id (fun e => set_entry e (overlap_policy e) (sched_state e) count (last_action_time_ms e)
    (action_count e) (running_workflow_keys e) (notes e) (s_search_attributes e)).

Definition update_notes (m : ScheduleManager) (id : Z) (note : chars) : ScheduleManager * bool :=
  update_entry m id (fun e => set_entry e (overlap_policy e) (sched_state e) (remaining_actions e) (last_action_time_ms e)
    (action_count e) (running_workflow_keys e) note (s_search_attributes e)).

Definition compute_next_fire (m : ScheduleManager) (id after_ms : Z) : option Z :=
  e ← schedules m !! id; next_fire (calendar_spec e) after_ms.

Definition try_fire (now : Z) (m : ScheduleManager) (id key : Z) : ScheduleManager * option Z :=
  match schedules m !! id with
  | None => (m, None)
  | Some e =>
      if bool_decide (sched_state e <> Active) then (m, None)
      else if (0 <? remaining_actions e) && (remaining_actions e <=? action_count e) then
        (mkManager (<[id := set_entry e (overlap_policy e) Completed (remaining_actions e) (last_action_time_ms e)
                      (action_count e) (running_workflow_keys e) (notes e) (s_search_attributes e)]> (schedules m))
           (actions m) (next_id m) (next_action_id m), None)
      else if bool_decide (overlap_policy e = Skip) && bool_decide (running_workflow_keys e <> []) then (m, None)
      else
        let running := if bool_decide (overlap_policy e = TerminateOther) then [] else running_workflow_keys e in
        (mkManager
           (<[id := set_entry e (overlap_policy e) (sched_state e) (remaining_actions e) now (wrap 64 (action_count e + 1))
                (running ++ [key]) (notes e) (s_search_attributes e)]> (schedules m))
           (actions m ++ [mkAction (next_action_id m) id key now None false]) (next_id m)
           (wrap 64 (next_action_id m + 1)), Some (next_action_id m))
  end.

(** The first open action of the schedule with the key is closed. *)
Fixpoint close_first (now : Z) (id key : Z) (ok : bool) (acts : list ScheduleAction) : list ScheduleAction :=
  match acts with
  | [] => []
  | a :: acts =>
      if (a_schedule_id a =? id) && (workflow_key a =? key) && bool_decide (completed_at_ms a = None)
      then mkAction (action_id a) (a_schedule_id a) (workflow_key a) (started_at_ms a) (Some now) ok :: acts
      else a :: close_first now id key ok acts
  end.

Definition complete_action (now : Z) (m : ScheduleManager) (id key : Z) (ok : bool) : ScheduleManager :=
  let m' := (update_entry m id (fun e => set_entry e (overlap_policy e) (sched_state e) (remaining_actions e)
    (last_action_time_ms e) (action_count e) (List.filter (fun k => negb (k =? key)) (running_workflow_keys e)) (notes e)
    (s_search_attributes e))).1 in
  mkManager (schedules m') (close_first now id key ok (actions m')) (next_id m') (next_action_id m').

(** *** Runs *)

Inductive sched_op : Type :=
| Create (spec : CalendarSpec) (ty ns queue : Z) (overlap : OverlapPolicy) (jitter : Z) (note : chars) (attrs : gmap string string)
| Pause (id : Z) | Unpause (id : Z) | Delete (id : Z) | Policy (id : Z) (policy : OverlapPolicy) | Remaining (id count : Z)
| Fire (id key : Z) | Finish (id key : Z) (ok : bool).

Definition sched_step (m : ScheduleManager) (p : Z * sched_op) : ScheduleManager :=
  match p.2 with
  | Create spec ty ns queue overlap jitter note attrs => (create_schedule_rich p.1 m spec ty ns queue overlap jitter note attrs).1
  | Pause id => (pause m id).1
  | Unpause id => (unpause m id).1
  | Delete id => (delete_schedule m id).1
  | Policy id policy => (update_overlap_policy m id policy).1
  | Remaining id count => (set_remaining_actions m id count).1
  | Fire id key => (try_fire p.1 m id key).1
  | Finish id key ok => complete_action p.1 m id key ok
  end.

Definition sched_run (ops : list (Z * sched_op)) : ScheduleManager := fold_left sched_step ops schedule_manager_new.

Definition fired_keys (ops : list (Z * sched_op)) : list Z :=
  omap (fun p => match p.2 with Fire _ key => Some key | _ => None end) ops.

(** The policies that a run gives schedule [id], in order: schedules are numbered 1, 2, 3 in the order of their
    creation. *)
Definition creates (ops : list (Z * sched_op)) : nat :=
  length (List.filter (fun p => match p.2 with Create _ _ _ _ _ _ _ _ => true | _ => false end) ops).
Fixpoint policies_from (next : Z) (ops : list (Z * sched_op)) (id : Z) : list OverlapPolicy :=
  match ops with
  | [] => []
  | (_, Create _ _ _ _ o _ _ _) :: ops => (if next =? id then [o] else []) ++ policies_from (next + 1) ops id
  | (_, Policy i o) :: ops => (if i =? id then [o] else []) ++ policies_from next ops id
  | _ :: ops => policies_from next ops id
  end.
Definition policies (ops : list (Z * sched_op)) (id : Z) : list OverlapPolicy := policies_from 1 ops id.

Definition of_schedule (id : Z) (acts : list ScheduleAction) : list ScheduleAction :=
  List.filter (fun a => a_schedule_id a =? id) acts.
Definition open_keys (id : Z) (acts : list ScheduleAction) : list Z :=
  map workflow_key (List.filter (fun a => bool_decide (completed_at_ms a = None)) (of_schedule id acts)).

(** An entry and its actions: [ps] are the policies the schedule was given. *)
Record entry_ok (ps : list OverlapPolicy) (acts : list ScheduleAction) (id : Z) (e : ScheduleEntry) : Prop := mkEntryOk {
  e_count : action_count e = Z.of_nat (length (of_schedule id acts));
  e_policy : last ps = Some (overlap_policy e);
  e_sub : running_workflow_keys e `sublist_of` open_keys id acts;
  e_open : TerminateOther ∉ ps -> running_workflow_keys e = open_keys id acts;
  e_skip : Forall (fun o => o = Skip) ps -> (length (running_workflow_keys e) <= 1)%nat;
}.

(** The books: ids below the counter, and every entry right about its actions. *)
Record books (ps : Z -> list OverlapPolicy) (n : nat) (keys : list Z) (m : ScheduleManager) : Prop := mkBooks {
  b_bound : next_id m = Z.of_nat n + 1;
  b_ids : forall id, next_id m <= id -> schedules m !! id = None /\ of_schedule id (actions m) = [];
  b_actions : map action_id (actions m) = seqZ 1 (Z.of_nat (length (actions m)));
  b_next : next_action_id m = Z.of_nat (length (actions m)) + 1 /\ (length (actions m) <= length keys)%nat;
  b_keys : NoDup (map workflow_key (actions m)) /\ forall k, k ∈ map workflow_key (actions m) -> k ∈ keys;
  b_entry : forall id e, schedules m !! id = Some e -> entry_ok (ps id) (actions m) id e;
}.

(** An entry changed, and the policies of its schedule. *)
Lemma books_update ps ps' n keys m id f :
  books ps n keys m -> (forall i, i <> id -> ps' i = ps i) ->
  (forall e, entry_ok (ps id) (actions m) id e -> entry_ok (ps' id) (actions m) id (f e)) ->
  books ps' n keys (update_entry m id f).1.
Proof.
  intros B Hps Hf. unfold update_entry. destruct B as [B0 B1 B2 B3 B4 B5]. destruct (schedules m !! id) as [e|] eqn:He.
  - constructor; cbn [fst schedules actions next_id next_action_id]; [done| |done..|].
    + intros i Hi. destruct (B1 i Hi) as [Hn Ho]. split; [|done]. rewrite lookup_insert_ne; [done|]. intros ->. congruence.
    + intros i e' Hl. destruct (decide (i = id)) as [->|Hne].
      * rewrite lookup_insert_eq in Hl. simplify_eq. by apply Hf, B5.
      * rewrite lookup_insert_ne in Hl by done. rewrite Hps by done. by apply B5.
  - constructor; try done. cbn. intros i e Hl. rewrite Hps by congruence. by apply B5.
Qed.

(** In fields that the books are not about. *)
Lemma books_same ps n keys m id f :
  books ps n keys m ->
  (forall e, action_count (f e) = action_count e /\ running_workflow_keys (f e) = running_workflow_keys e /\
     overlap_policy (f e) = overlap_policy e) ->
  books ps n keys (update_entry m id f).1.
Proof.
  intros B Hf. apply (books_update ps); [done..|]. intros e []. destruct (Hf e) as (F1 & F2 & F3).
  constructor; by rewrite ?F1, ?F2, ?F3.
Qed.

Lemma books_keys ps n keys keys' m : keys `sublist_of` keys' -> books ps n keys m -> books ps n keys' m.
Proof.
  intros Hk [B0 B1 B2 B3 B4 B5]. pose proof (sublist_length _ _ Hk). constructor; try done.
  - split; [apply B3|]. destruct B3. lia.
  - split; [apply B4|]. intros k Hkk. eapply elem_of_submseteq; [apply B4, Hkk|by apply sublist_submseteq].
Qed.

Lemma entry_ok_snoc ps acts id e o :
  entry_ok ps acts id e ->
  entry_ok (ps ++ [o]) acts id (set_entry e o (sched_state e) (remaining_actions e) (last_action_time_ms e)
    (action_count e) (running_workflow_keys e) (notes e) (s_search_attributes e)).
Proof.
  intros []. constructor; cbn; try done.
  - apply last_snoc.
  - intros Hn. apply e_open0. set_solver.
  - intros Hf. apply e_skip0. by apply Forall_app in Hf as [Hf _].
Qed.

Lemma books_policy ps n keys m id o :
  books ps n keys m -> books (fun i => ps i ++ if id =? i then [o] else []) n keys (update_overlap_policy m id o).1.
Proof.
  intros B. apply (books_update ps); [done| |].
  - intros i Hi. by rewrite (proj2 (Z.eqb_neq id i)), app_nil_r by done.
  - intros e He. rewrite Z.eqb_refl. by apply entry_ok_snoc.
Qed.

Lemma books_create ps n keys now m spec ty ns queue overlap jitter note attrs :
  Z.of_nat n + 2 < 2 ^ 64 -> books ps n keys m ->
  books (fun i => ps i ++ if Z.of_nat n + 1 =? i then [overlap] else []) (S n) keys
    (create_schedule_rich now m spec ty ns queue overlap jitter note attrs).1.
Proof.
  intros Hn B. unfold create_schedule_rich, create_schedule. cbn [fst]. apply books_same; [|done].
  destruct B as [B0 B1 B2 B3 B4 B5]. rewrite wrap_id by (unfold fits; lia).
  constructor; cbn [schedules actions next_id next_action_id]; [lia| |done..|].
  - intros i Hi. destruct (B1 i ltac:(lia)). rewrite lookup_insert_ne by lia. done.
  - intros i e Hl. rewrite <- B0. destruct (Z.eqb_spec (next_id m) i) as [<-|Hne].
    + rewrite lookup_insert_eq in Hl. simplify_eq. destruct (B1 (next_id m) ltac:(lia)) as [_ Ho].
      constructor; cbn; unfold open_keys; rewrite ?Ho, ?last_snoc; (done || lia).
    + rewrite lookup_insert_ne in Hl by done. rewrite app_nil_r. by apply B5.
Qed.

Lemma books_delete ps n keys m id : books ps n keys m -> books ps n keys (delete_schedule m id).1.
Proof.
  intros [B0 B1 B2 B3 B4 B5]. constructor; cbn [delete_schedule fst schedules actions next_id next_action_id]; [done| |done..|].
  - intros i Hi. destruct (B1 i Hi) as [Hn Ho]. split; [|done]. destruct (decide (i = id)) as [->|]; [apply lookup_delete_eq|by rewrite lookup_delete_ne].
  - intros i e Hl. apply lookup_delete_Some in Hl as [_ Hl]. by apply B5.
Qed.

Lemma of_schedule_snoc id acts a :
  of_schedule id (acts ++ [a]) = of_schedule id acts ++ if a_schedule_id a =? id then [a] else [].
Proof. unfold of_schedule. by rewrite List.filter_app. Qed.

Lemma open_keys_snoc id acts aid now key id' :
  open_keys id (acts ++ [mkAction aid id' key now None false]) = open_keys id acts ++ if id' =? id then [key] else [].
Proof.
  unfold open_keys. rewrite of_schedule_snoc. cbn [a_schedule_id]. destruct (id' =? id); [|by rewrite !app_nil_r].
  by rewrite List.filter_app, map_app.
Qed.

(** An entry whose schedule gets a new action. *)
Lemma entry_ok_fire ps acts id e aid now key :
  Z.of_nat (length (of_schedule id acts)) + 1 < 2 ^ 64 -> entry_ok ps acts id e ->
  bool_decide (overlap_policy e = Skip) && bool_decide (running_workflow_keys e <> []) = false ->
  entry_ok ps (acts ++ [mkAction aid id key now None false]) id
    (set_entry e (overlap_policy e) (sched_state e) (remaining_actions e) now (wrap 64 (action_count e + 1))
       ((if bool_decide (overlap_policy e = TerminateOther) then [] else running_workflow_keys e) ++ [key])
       (notes e) (s_search_attributes e)).
Proof.
  intros Hb [C1 C2 C3 C4 C5] Hs. constructor; cbn; rewrite ?of_schedule_snoc, ?open_keys_snoc; cbn [a_schedule_id]; rewrite ?Z.eqb_refl.
  - rewrite length_app. cbn [length]. rewrite C1, wrap_id by (unfold fits; lia). lia.
  - done.
  - apply sublist_app; [|done]. destruct (bool_decide (overlap_policy e = TerminateOther)); [apply sublist_nil_l|done].
  - intros Ht. rewrite bool_decide_false, C4; [done..|]. intros Eo. rewrite Eo in C2. apply Ht. by apply last_Some_elem_of.
  - intros Hf. assert (Eo : overlap_policy e = Skip). { rewrite Forall_forall in Hf. by apply Hf, last_Some_elem_of. }
    rewrite Eo, (bool_decide_true (Skip = Skip)) in Hs by done. apply bool_decide_eq_false, dec_stable in Hs.
    by rewrite Eo, Hs.
Qed.

Lemma entry_ok_other ps acts id e a : a_schedule_id a <> id -> entry_ok ps acts id e -> entry_ok ps (acts ++ [a]) id e.
Proof.
  intros Ha [C1 C2 C3 C4 C5].
  assert (Ho : of_schedule id (acts ++ [a]) = of_schedule id acts).
  { by rewrite of_schedule_snoc, (proj2 (Z.eqb_neq _ _) Ha), app_nil_r. }
  constructor; unfold open_keys; by rewrite ?Ho.
Qed.

Lemma books_fire ps n keys now m id key :
  Z.of_nat (length keys) + 2 < 2 ^ 64 -> key ∉ keys ->
  books ps n keys m -> books ps n (keys ++ [key]) (try_fire now m id key).1.
Proof.
  intros Hk Hnew B. assert (Bw : books ps n (keys ++ [key]) m) by (apply (books_keys ps n keys); [by apply sublist_inserts_r|done]).
  unfold try_fire. destruct (schedules m !! id) as [e|] eqn:He; [|done]. case_bool_decide as Hact; [done|].
  destruct ((0 <? remaining_actions e) && (remaining_actions e <=? action_count e)).
  { pose proof (books_same ps n (keys ++ [key]) m id (fun e => set_entry e (overlap_policy e) Completed (remaining_actions e)
      (last_action_time_ms e) (action_count e) (running_workflow_keys e) (notes e) (s_search_attributes e)) Bw ltac:(done)) as Hu.
    unfold update_entry in Hu. by rewrite He in Hu. }
  destruct (bool_decide (overlap_policy e = Skip) && _) eqn:Hs; [done|]. destruct B as [B0 B1 B2 [B3 B3'] [B4 B4'] B5].
  assert (Hidlt : id < next_id m) by (destruct (Z.lt_ge_cases id (next_id m)) as [|Hge]; [done|destruct (B1 _ Hge); congruence]).
  assert (Hlen : (length (of_schedule id (actions m)) <= length (actions m))%nat) by apply List.filter_length_le.
  constructor; cbn [fst schedules actions next_id next_action_id].
  - done.
  - intros i Hi. destruct (B1 i Hi) as [Hn Ho]. rewrite lookup_insert_ne by lia. rewrite of_schedule_snoc, Ho. cbn [a_schedule_id].
    by rewrite (proj2 (Z.eqb_neq _ _)) by lia.
  - rewrite map_app, B2, length_app. cbn [map length action_id]. rewrite Nat2Z.inj_add, seqZ_app by lia. rewrite B3. by rewrite Z.add_comm.
  - rewrite !length_app. cbn [length]. rewrite B3, wrap_id by (unfold fits; lia). lia.
  - rewrite map_app. cbn [map workflow_key]. split.
    + apply NoDup_app. split_and!; [done| |apply NoDup_singleton]. intros k Hin Hk'. apply list_elem_of_singleton in Hk' as ->. auto.
    + intros k. rewrite !elem_of_app. intros [?|?]; auto.
  - intros i e' Hl. destruct (decide (i = id)) as [->|Hne].
    + rewrite lookup_insert_eq in Hl. simplify_eq. apply entry_ok_fire; [lia|by apply B5|done].
    + rewrite lookup_insert_ne in Hl by done. apply entry_ok_other; [done|]. by apply B5.
Qed.

(** *** Closing an action *)

Lemma close_first_ids now id key ok acts :
  map action_id (close_first now id key ok acts) = map action_id acts /\
  map workflow_key (close_first now id key ok acts) = map workflow_key acts /\
  length (close_first now id key ok acts) = length acts /\
  forall i, length (of_schedule i (close_first now id key ok acts)) = length (of_schedule i acts).
Proof.
  induction acts as [|a acts (H1 & H2 & H3 & H4)]; [done|]. cbn [close_first].
  destruct ((a_schedule_id a =? id) && (workflow_key a =? key) && bool_decide (completed_at_ms a = None)).
  { split_and!; [done..|]. intros i. unfold of_schedule. cbn. by destruct (a_schedule_id a =? i). }
  cbn [map length]. rewrite H1, H2, H3. split_and!; [done..|]. intros i. unfold of_schedule in *. cbn [List.filter].
  destruct (a_schedule_id a =? i); cbn [length]; by rewrite H4.
Qed.

Lemma open_keys_cons i a acts :
  open_keys i (a :: acts) =
    (if (a_schedule_id a =? i) && bool_decide (completed_at_ms a = None) then [workflow_key a] else []) ++ open_keys i acts.
Proof.
  unfold open_keys, of_schedule. cbn [List.filter]. destruct (a_schedule_id a =? i); cbn [List.filter andb]; [|done].
  by destruct (bool_decide (completed_at_ms a = None)).
Qed.

Lemma open_keys_elem i k acts : k ∈ open_keys i acts -> k ∈ map workflow_key acts.
Proof.
  induction acts as [|a acts IH]; [done|]. rewrite open_keys_cons, elem_of_app. cbn [map]. rewrite elem_of_cons.
  intros [H|H]; [|auto]. case_match; [|by apply not_elem_of_nil in H]. left. by apply list_elem_of_singleton in H.
Qed.

Lemma filter_absent (l : list Z) k : k ∉ l -> List.filter (fun x => negb (x =? k)) l = l.
Proof.
  induction l as [|x l IH]; cbn; [done|]. rewrite not_elem_of_cons. intros [Hx Hl]. rewrite (proj2 (Z.eqb_neq _ _)) by done. cbn. by rewrite IH.
Qed.

Lemma open_keys_close now id key ok acts i :
  NoDup (map workflow_key acts) ->
  open_keys i (close_first now id key ok acts) =
    if id =? i then List.filter (fun k => negb (k =? key)) (open_keys i acts) else open_keys i acts.
Proof.
  induction acts as [|a acts IH]; intros Hnd; [by destruct (id =? i)|]. cbn [map] in Hnd. apply NoDup_cons in Hnd as [Hk Hnd].
  specialize (IH Hnd). cbn [close_first].
  destruct ((a_schedule_id a =? id) && (workflow_key a =? key) && bool_decide (completed_at_ms a = None)) eqn:E.
  - rewrite !andb_true_iff in E. destruct E as [[Hs%Z.eqb_eq Hw%Z.eqb_eq] Ho]. rewrite !open_keys_cons.
    cbn [a_schedule_id completed_at_ms]. rewrite bool_decide_false, andb_false_r, Ho, andb_true_r by done. cbn [app]. rewrite Hs.
    destruct (Z.eqb_spec id i) as [->|Hne]; [|done]. cbn [app List.filter]. rewrite Hw, Z.eqb_refl. cbn [negb].
    symmetry. apply filter_absent. intros Hin%open_keys_elem. by rewrite Hw in Hk.
  - rewrite !open_keys_cons, IH. destruct (Z.eqb_spec id i) as [->|Hne]; [|done]. rewrite List.filter_app. f_equal.
    destruct ((a_schedule_id a =? i) && bool_decide (completed_at_ms a = None)) eqn:E'; [|done].
    apply andb_prop in E' as [Es Eo]. rewrite Es, Eo, andb_true_r in E. cbn [andb] in E. cbn. by rewrite E.
Qed.

Lemma filter_sublist_mono {A} (f : A -> bool) l k : l `sublist_of` k -> List.filter f l `sublist_of` List.filter f k.
Proof.
  induction 1 as [|x l k _ IH|x l k _ IH]; cbn; [done|..]; destruct (f x); try done; [by apply sublist_skip|by apply sublist_cons].
Qed.

Lemma books_finish ps n keys now m id key b : books ps n keys m -> books ps n keys (complete_action now m id key b).
Proof.
  intros [B0 B1 B2 [B3 B3'] [B4 B4'] B5]. unfold complete_action, update_entry.
  destruct (close_first_ids now id key b (actions m)) as (H1 & H2 & H3 & H4).
  assert (Hnil : forall i, of_schedule i (actions m) = [] -> of_schedule i (close_first now id key b (actions m)) = []).
  { intros i Hi. apply nil_length_inv. by rewrite H4, Hi. }
  assert (Hother : forall i e, i <> id -> entry_ok (ps i) (actions m) i e ->
    entry_ok (ps i) (close_first now id key b (actions m)) i e).
  { intros i e Hne []. constructor; rewrite ?H4, ?open_keys_close, ?(proj2 (Z.eqb_neq id i)) by done; done. }
  destruct (schedules m !! id) as [e|] eqn:He; constructor; cbn [fst schedules actions next_id next_action_id];
    rewrite ?H1, ?H2, ?H3; try done.
  - intros i Hi. destruct (B1 i Hi) as [Hn Ho]. split; [|auto]. rewrite lookup_insert_ne; [done|]. intros ->. congruence.
  - intros i e' Hl. destruct (decide (i = id)) as [->|Hne].
    + rewrite lookup_insert_eq in Hl. simplify_eq. destruct (B5 _ _ He) as [C1 C2 C3 C4 C5].
      constructor; cbn; rewrite ?H4, ?open_keys_close, ?Z.eqb_refl by done.
      * done.
      * done.
      * by apply filter_sublist_mono.
      * intros Ht. by rewrite C4.
      * intros Hf. specialize (C5 Hf). pose proof (List.filter_length_le (fun k => negb (k =? key)) (running_workflow_keys e)). lia.
    + rewrite lookup_insert_ne in Hl by done. apply Hother; [done|]. by apply B5.
  - intros i Hi. destruct (B1 i Hi) as [Hn Ho]. auto.
  - intros i e' Hl. apply Hother; [congruence|]. by apply B5.
Qed.

(** *** The books of a run *)

Lemma fired_keys_snoc ops p :
  fired_keys (ops ++ [p]) = fired_keys ops ++ match p.2 with Fire _ key => [key] | _ => [] end.
Proof. unfold fired_keys. rewrite omap_app. cbn. by destruct p.2. Qed.

Lemma fired_keys_length ops : (length (fired_keys ops) <= length ops)%nat.
Proof. unfold fired_keys. induction ops as [|p ops IH]; cbn; [lia|]. destruct p.2; cbn; lia. Qed.

Lemma creates_snoc ops p :
  creates (ops ++ [p]) = (creates ops + match p.2 with Create _ _ _ _ _ _ _ _ => 1 | _ => 0 end)%nat.
Proof. unfold creates. rewrite List.filter_app, length_app. cbn. by destruct p.2. Qed.

Lemma creates_length ops : (creates ops <= length ops)%nat.
Proof. apply List.filter_length_le. Qed.

Lemma policies_snoc ops p id :
  policies (ops ++ [p]) id = policies ops id ++
    match p.2 with
    | Create _ _ _ _ o _ _ _ => if Z.of_nat (creates ops) + 1 =? id then [o] else []
    | Policy i o => if i =? id then [o] else []
    | _ => []
    end.
Proof.
  unfold policies. replace (Z.of_nat (creates ops) + 1) with (1 + Z.of_nat (creates ops)) by lia. generalize 1 as next.
  induction ops as [|[now op] ops IH]; intros next; cbn [app policies_from].
  - destruct p as [now op]. unfold creates. cbn. by destruct op; cbn; rewrite ?app_nil_r, ?Z.add_0_r.
  - unfold creates in *. destruct op; cbn [List.filter length snd]; rewrite IH; try done; try (by rewrite app_assoc).
    rewrite app_assoc. by replace (next + Z.of_nat (S (length (List.filter
      (fun p => match p.2 with Create _ _ _ _ _ _ _ _ => true | _ => false end) ops)))) with (next + 1 + Z.of_nat (length (List.filter
      (fun p => match p.2 with Create _ _ _ _ _ _ _ _ => true | _ => false end) ops))) by lia.
Qed.

Lemma books_ext ps ps' n keys m : (forall i, ps' i = ps i) -> books ps n keys m -> books ps' n keys m.
Proof. intros E [B0 B1 B2 B3 B4 B5]. constructor; try done. intros id e He. rewrite E. by apply B5. Qed.

Lemma run_books ops :
  NoDup (fired_keys ops) -> Z.of_nat (length ops) + 2 < 2 ^ 64 -> books (policies ops) (creates ops) (fired_keys ops) (sched_run ops).
Proof.
  induction ops as [|[now op] ops IH] using rev_ind; intros Hnd Hb.
  - by constructor.
  - rewrite length_app in *. cbn [length] in *. rewrite fired_keys_snoc, creates_snoc in *. cbn [snd] in *.
    eapply books_ext; [intros i; apply policies_snoc|]. cbn [snd]. apply NoDup_app in Hnd as (Hnd & Hdis & _).
    specialize (IH Hnd ltac:(lia)). unfold sched_run in *. rewrite fold_left_app. cbn [fold_left].
    set (m := fold_left sched_step ops schedule_manager_new) in *.
    assert (Hlen : (length (fired_keys ops) <= length ops)%nat) by apply fired_keys_length.
    pose proof (creates_length ops) as Hcr.
    destruct op; cbn [sched_step fst snd] in *; rewrite ?app_nil_r, ?Nat.add_0_r;
      try (eapply books_ext; [intros i; apply app_nil_r|]); try (by apply books_same).
    + rewrite Nat.add_1_r. apply books_create; [lia|done].
    + by apply books_delete.
    + by apply books_policy.
    + apply books_fire; [lia| |done]. intros Hin. apply (Hdis key Hin). set_solver.
    + by apply books_finish.
Qed.

(** C28. In every run in which no workflow key is fired twice the actions are numbered 1, 2, 3 and so
    on, and every schedule counts exactly its recorded actions, has the policy it was given last and
    takes for running only workflows of its open actions, in order.  A schedule that was never given
    [TerminateOther] takes all of them for running; one that was never given another policy than
    [Skip], from its creation on, never has two running workflows. *)
Theorem schedule_books_exact (ops : list (Z * sched_op)) (Hnd : NoDup (fired_keys ops)) (Hb : Z.of_nat (length ops) + 2 < 2 ^ 64) :
  let m := sched_run ops in
  map action_id (actions m) = seqZ 1 (Z.of_nat (length (actions m))) /\
  (forall id e, schedules m !! id = Some e ->
     action_count e = Z.of_nat (length (of_schedule id (actions m))) /\
     last (policies ops id) = Some (overlap_policy e) /\
     running_workflow_keys e `sublist_of` open_keys id (actions m) /\
     (TerminateOther ∉ policies ops id -> running_workflow_keys e = open_keys id (actions m)) /\
     ((forall o, o ∈ policies ops id -> o = Skip) -> (length (running_workflow_keys e) <= 1)%nat)).
Proof.
  intros m. pose proof (run_books ops Hnd Hb) as B. split; [apply B|]. intros id e He.
  destruct (b_entry _ _ _ _ B _ _ He). split_and!; try done. intros Hs. apply e_skip0. by apply Forall_forall.
Qed.

Lemma schedule_books_exact_witness :
  let spec := print_calendar sample_calendar [] in
  let ops := [(1, Create spec 1 1 1 Skip 0 [] ∅); (1, Create spec 1 1 1 AllowAll 0 [] ∅); (2, Fire 1 100); (3, Fire 1 101);
              (4, Finish 1 100 true); (5, Fire 1 102); (6, Fire 2 103); (7, Fire 2 104)] in
  exists e, schedules (sched_run ops) !! 1 = Some e /\ action_count e = 2 /\ running_workflow_keys e = [102] /\
    (length (running_workflow_keys e) <= 1)%nat.
Proof.
  intros spec ops. destruct (schedule_books_exact ops) as [_ H].
  - by apply (bool_decide_unpack _); vm_compute.
  - done.
  - destruct (schedules (sched_run ops) !! 1) as [e|] eqn:E; [|vm_compute in E; discriminate]. exists e. split; [done|].
    destruct (H 1 e E) as (H1 & _ & _ & H2 & H3). rewrite H1. split; [by vm_compute|]. split.
    + rewrite H2; [by vm_compute|]. by apply (bool_decide_unpack _); vm_compute.
    + apply H3. intros o Ho. by apply list_elem_of_singleton in Ho.
Defined.

(** *** Limits *)

(** The buffering policies start every execution at once, like [AllowAll]. *)
Lemma buffering_does_not_buffer policy :
  policy = BufferOne \/ policy = BufferAll \/ policy = AllowAll ->
  let m := sched_run [(1, Create (print_calendar sample_calendar []) 1 1 1 policy 0 [] ∅); (2, Fire 1 100); (3, Fire 1 101)] in
  running_workflow_keys <$> schedules m !! 1 = Some [100; 101].
Proof. intros [->|[->| ->]]; by vm_compute. Qed.

(** [Skip] is checked when a schedule fires: executions started under another policy run on when a schedule
    is given [Skip]. *)
Lemma skip_after_allow_all :
  let m := sched_run [(1, Create (print_calendar sample_calendar []) 1 1 1 AllowAll 0 [] ∅); (2, Fire 1 100); (3, Fire 1 101);
                      (4, Policy 1 Skip)] in
  (fun e => (overlap_policy e, running_workflow_keys e)) <$> schedules m !! 1 = Some (Skip, [100; 101]).
Proof. by vm_compute. Qed.

(** Terminating the other execution forgets it: its action stays open for ever. *)
Lemma terminate_leaves_action_open :
  let m := sched_run [(1, Create (print_calendar sample_calendar []) 1 1 1 TerminateOther 0 [] ∅); (2, Fire 1 100); (3, Fire 1 101)] in
  running_workflow_keys <$> schedules m !! 1 = Some [101] /\ open_keys 1 (actions m) = [100; 101].
Proof. by vm_compute. Qed.

(** A completed schedule fires again once it is unpaused and its limit raised. *)
Lemma completed_schedule_restarts :
  let m := sched_run [(1, Create (print_calendar sample_calendar []) 1 1 1 Skip 0 [] ∅); (2, Remaining 1 1); (3, Fire 1 100);
                      (4, Finish 1 100 true); (5, Fire 1 101); (6, Remaining 1 0); (7, Unpause 1); (8, Fire 1 102)] in
  action_count <$> schedules m !! 1 = Some 2.
Proof. by vm_compute. Qed.

End ScheduleManager.
