(* ===== verification/Matching.v ===== *)
(** * The matching service

    [matching_service.rs]: tasks wait in partitioned queues, one set of partitions per
    task queue name, until a poller with a compatible build takes them.  Times are
    milliseconds and arguments.  A blocked poll is the pass it makes each time it
    wakes.  The service is refined to one bounded first-in first-out queue per name. *)

From S2P Require Import Prelude Text.

Module Matching.

Record MatchTask : Type := mkTask {
  task_id : Z;
  workflow_key : Z;
  task_queue : string;
  build_id : option string;
  priority : Z;
  created_at : Z;
  forwarded_from : option Z;
}.

Record PollerInfo : Type := mkPoller {
  poller_id : Z;
  p_build_id : option string;
  p_partition : Z;
  registered_at : Z;
  last_poll_at : Z;
}.

Record PartitionQueue : Type := mkPartition {
  partition_id : Z;
  tasks : list MatchTask;
  pollers : list PollerInfo;
  max_depth : nat;
}.

Definition partition_queue_new (id : Z) (depth : nat) : PartitionQueue := mkPartition id [] [] depth.

Definition pq_enqueue (q : PartitionQueue) (t : MatchTask) : PartitionQueue * bool :=
  if (max_depth q <=? length (tasks q))%nat then (q, false)
  else (mkPartition (partition_id q) (tasks q ++ [t]) (pollers q) (max_depth q), true).

Definition pq_dequeue (q : PartitionQueue) : PartitionQueue * option MatchTask :=
  match tasks q with
  | [] => (q, None)
  | t :: ts => (mkPartition (partition_id q) ts (pollers q) (max_depth q), Some t)
  end.

Definition pq_push_front (q : PartitionQueue) (t : MatchTask) : PartitionQueue :=
  mkPartition (partition_id q) (t :: tasks q) (pollers q) (max_depth q).

Definition pq_register (q : PartitionQueue) (i : PollerInfo) : PartitionQueue :=
  mkPartition (partition_id q) (tasks q) (pollers q ++ [i]) (max_depth q).

Definition pq_remove_poller (q : PartitionQueue) (id : Z) : PartitionQueue :=
  mkPartition (partition_id q) (tasks q) (List.filter (fun p => negb (poller_id p =? id)) (pollers q)) (max_depth q).

(** [now.duration_since(created_at) < ttl]; the difference of two instants is at least 0. *)
Definition fresh (now ttl : Z) (t : MatchTask) : bool := Z.max 0 (now - created_at t) <? ttl.

Definition pq_expire (q : PartitionQueue) (now ttl : Z) : PartitionQueue * Z :=
  let kept := List.filter (fresh now ttl) (tasks q) in
  (mkPartition (partition_id q) kept (pollers q) (max_depth q), Z.of_nat (length (tasks q) - length kept)).

Record MatchingServiceStats : Type := mkStats {
  tasks_added : Z;
  tasks_matched : Z;
  tasks_forwarded : Z;
  tasks_expired : Z;
  pollers_registered : Z;
  pollers_removed : Z;
}.

Record MatchingServiceConfig : Type := mkConfig {
  num_partitions : Z;
  max_queue_depth : nat;
  forward_max_partitions : Z;
  task_ttl_seconds : Z;
  poll_timeout_ms : Z;
}.

Record MatchingService : Type := mkService {
  config : MatchingServiceConfig;
  queues : gmap string (list PartitionQueue);
  stats : MatchingServiceStats;
  next_poller_id : Z;
}.

Definition matching_new (c : MatchingServiceConfig) : MatchingService := mkService c ∅ (mkStats 0 0 0 0 0 0) 1.

(** The remainder panics when there are no partitions. *)
Definition partition_for (c : MatchingServiceConfig) (name : string) : exec Z :=
  let hash := fold_left (fun acc b => wrap 64 (wrap 64 (acc * 31) + code b)) (of_string name) 0 in
  if num_partitions c =? 0 then Panic else Ret (hash mod num_partitions c).

(** [entry(queue_name).or_insert_with(..)]. *)
Definition partitions_of (s : MatchingService) (name : string) : list PartitionQueue :=
  match queues s !! name with
  | Some ps => ps
  | None => map (fun i => partition_queue_new i (max_queue_depth (config s))) (seqZ 0 (num_partitions (config s)))
  end.

Definition with_queue (s : MatchingService) (name : string) (ps : list PartitionQueue) (st : MatchingServiceStats) : MatchingService :=
  mkService (config s) (<[name := ps]> (queues s)) st (next_poller_id s).

Definition add_task (s : MatchingService) (t : MatchTask) : exec (MatchingService * bool) :=
  match partition_for (config s) (task_queue t) with
  | Panic => Panic
  | Ret p =>
      let ps := partitions_of s (task_queue t) in
      let st := stats s in
      match ps !! Z.to_nat p with
      | Some q =>
          let '(q', ok) := pq_enqueue q t in
          let st' := if ok then mkStats (wrap 64 (tasks_added st + 1)) (tasks_matched st) (tasks_forwarded st)
                                  (tasks_expired st) (pollers_registered st) (pollers_removed st) else st in
          Ret (with_queue s (task_queue t) (<[Z.to_nat p := q']> ps) st', ok)
      | None => Ret (with_queue s (task_queue t) ps st, false)
      end
  end.

(** The kind filter is not looked at. *)
Definition is_task_compatible (t : MatchTask) (b : option string) : bool :=
  match build_id t, b with
  | None, _ => true
  | Some _, None => false
  | Some x, Some y => bool_decide (x = y)
  end.

(** The loop over the partitions, at the given offsets from [p]. *)
Fixpoint poll_scan (offsets : list Z) (p : Z) (b : option string) (ps : list PartitionQueue) :
    list PartitionQueue * option (MatchTask * Z) :=
  match offsets with
  | [] => (ps, None)
  | offset :: offsets =>
      let i := Z.to_nat ((p + offset) mod Z.of_nat (length ps)) in
      match ps !! i with
      | Some q =>
          match pq_dequeue q with
          | (q', Some t) =>
              if is_task_compatible t b then (<[i := q']> ps, Some (t, offset))
              else poll_scan offsets p b (<[i := pq_push_front q' t]> ps)
          | (_, None) => poll_scan offsets p b ps
          end
      | None => poll_scan offsets p b ps
      end
  end.

Definition matched (st : MatchingServiceStats) (offset : Z) : MatchingServiceStats :=
  mkStats (tasks_added st) (wrap 64 (tasks_matched st + 1))
    (if 0 <? offset then wrap 64 (tasks_forwarded st + 1) else tasks_forwarded st) (tasks_expired st)
    (pollers_registered st) (pollers_removed st).

(** One pass of [poll_task]. *)
Definition poll_pass (s : MatchingService) (name : string) (b : option string) : exec (MatchingService * option MatchTask) :=
  match partition_for (config s) name with
  | Panic => Panic
  | Ret p =>
      match queues s !! name with
      | None => Ret (s, None)
      | Some ps =>
          match poll_scan (seqZ 0 (Z.of_nat (length ps))) p b ps with
          | (ps', Some (t, offset)) => Ret (with_queue s name ps' (matched (stats s) offset), Some t)
          | (ps', None) => Ret (with_queue s name ps' (stats s), None)
          end
      end
  end.

(** [try_poll_task] and [poll_task_inner]: the assigned partition, then the others. *)
Definition try_poll_task (s : MatchingService) (name : string) (b : option string) : exec (MatchingService * option MatchTask) :=
  match partition_for (config s) name with
  | Panic => Panic
  | Ret p =>
      match queues s !! name with
      | None => Ret (s, None)
      | Some ps =>
          let '(ps1, here) :=
            match ps !! Z.to_nat p with
            | Some q =>
                match pq_dequeue q with
                | (q', Some t) =>
                    if is_task_compatible t b then (<[Z.to_nat p := q']> ps, Some t)
                    else (<[Z.to_nat p := pq_push_front q' t]> ps, None)
                | (_, None) => (ps, None)
                end
            | None => (ps, None)
            end in
          match here with
          | Some t => Ret (with_queue s name ps1 (matched (stats s) 0), Some t)
          | None =>
              match poll_scan (seqZ 1 (Z.of_nat (length ps) - 1)) p b ps1 with
              | (ps', Some (t, offset)) => Ret (with_queue s name ps' (matched (stats s) offset), Some t)
              | (ps', None) => Ret (with_queue s name ps' (stats s), None)
              end
          end
      end
  end.

Definition register_poller (now : Z) (s : MatchingService) (name : string) (b : option string) : exec (MatchingService * Z) :=
  match partition_for (config s) name with
  | Panic => Panic
  | Ret p =>
      let id := next_poller_id s in
      let ps := partitions_of s name in
      let st := stats s in
      let ps' := match ps !! Z.to_nat p with
                 | Some q => <[Z.to_nat p := pq_register q (mkPoller id b p now now)]> ps
                 | None => ps
                 end in
      Ret (mkService (config s) (<[name := ps']> (queues s))
             (mkStats (tasks_added st) (tasks_matched st) (tasks_forwarded st) (tasks_expired st)
                (wrap 64 (pollers_registered st + 1)) (pollers_removed st)) (wrap 64 (id + 1)), id)
  end.

Definition remove_poller (s : MatchingService) (name : string) (id : Z) : exec MatchingService :=
  match partition_for (config s) name with
  | Panic => Panic
  | Ret p =>
      let st := stats s in
      let qs := match queues s !! name with
                | Some ps => match ps !! Z.to_nat p with
                             | Some q => <[name := <[Z.to_nat p := pq_remove_poller q id]> ps]> (queues s)
                             | None => queues s
                             end
                | None => queues s
                end in
      Ret (mkService (config s) qs
             (mkStats (tasks_added st) (tasks_matched st) (tasks_forwarded st) (tasks_expired st) (pollers_registered st)
                (wrap 64 (pollers_removed st + 1))) (next_poller_id s))
  end.

(** All partitions of all queues; the sum does not depend on the order of the map. *)
Definition expire_tasks (now : Z) (s : MatchingService) : MatchingService * Z :=
  let ttl := task_ttl_seconds (config s) * 1000 in
  let st := stats s in
  let total := map_fold (fun _ ps n => n + fold_left (fun n q => n + (pq_expire q now ttl).2) ps 0) 0 (queues s) in
  (mkService (config s) ((fun ps => map (fun q => (pq_expire q now ttl).1) ps) <$> queues s)
     (if 0 <? total then mkStats (tasks_added st) (tasks_matched st) (tasks_forwarded st) (wrap 64 (tasks_expired st + total))
                           (pollers_registered st) (pollers_removed st) else st) (next_poller_id s), total).

Definition queue_depth (s : MatchingService) (name : string) : nat :=
  match queues s !! name with Some ps => sum_list_with (fun q => length (tasks q)) ps | None => 0 end.

Definition queue_count (s : MatchingService) : nat := size (queues s).

(** The depth [stats] adds to the counters. *)
Definition total_depth (s : MatchingService) : nat :=
  map_fold (fun _ ps n => (n + sum_list_with (fun q => length (tasks q)) ps)%nat) 0%nat (queues s).

Definition has_compatible_poller (q : PartitionQueue) (b : option string) : bool :=
  existsb (fun p => match p_build_id p, b with
                    | None, _ => true
                    | Some x, Some y => bool_decide (x = y)
                    | Some _, None => false
                    end) (pollers q).

(** The condition under which [add_task] wakes a blocked poll. *)
Definition add_notifies (q : PartitionQueue) (t : MatchTask) : bool :=
  has_compatible_poller q (build_id t) && bool_decide (tasks q = []).

(** [try_forward] and [try_forward_ref]: into partition 0. *)
Definition try_forward (s : MatchingService) (t : MatchTask) (name : string) (from : Z) : MatchingService * bool :=
  if from =? 0 then (s, false)
  else match queues s !! name with
       | Some (root :: rest) =>
           let '(root', ok) := pq_enqueue root (mkTask (task_id t) (workflow_key t) (task_queue t) (build_id t) (priority t)
                                                  (created_at t) (Some from)) in
           (with_queue s name (root' :: rest) (stats s), ok)
       | _ => (s, false)
       end.

Record TaskQueuePartitionInfo : Type := mkInfo {
  i_partition_id : Z;
  backlog_count : Z;
  poller_count : Z;
}.

Record TaskQueueDescription : Type := mkDescription {
  task_queue_name : string;
  total_backlog : Z;
  d_pollers : list PollerInfo;
  d_partitions : list TaskQueuePartitionInfo;
  build_ids : gset string;
}.

Definition describe_partition (d : TaskQueueDescription) (q : PartitionQueue) : TaskQueueDescription :=
  mkDescription (task_queue_name d) (total_backlog d + Z.of_nat (length (tasks q))) (d_pollers d ++ pollers q)
    (d_partitions d ++ [mkInfo (partition_id q) (Z.of_nat (length (tasks q))) (wrap 32 (Z.of_nat (length (pollers q))))])
    (build_ids d ∪ list_to_set (omap p_build_id (pollers q))).

Definition describe_task_queue (s : MatchingService) (name : string) : TaskQueueDescription :=
  fold_left describe_partition (default [] (queues s !! name)) (mkDescription name 0 [] [] ∅).

(** *** One bounded queue per name *)

Inductive match_op : Type :=
| Add (t : MatchTask)
| Poll (name : string) (b : option string)
| TryPoll (name : string) (b : option string)
| Register (now : Z) (name : string) (b : option string)
| Unregister (name : string) (id : Z)
| Expire (now : Z).

Inductive match_obs : Type := Added (ok : bool) | Polled (t : option MatchTask) | Done.

Definition match_step (s : MatchingService) (op : match_op) : exec (MatchingService * match_obs) :=
  match op with
  | Add t => match add_task s t with Ret (s', ok) => Ret (s', Added ok) | Panic => Panic end
  | Poll name b => match poll_pass s name b with Ret (s', t) => Ret (s', Polled t) | Panic => Panic end
  | TryPoll name b => match try_poll_task s name b with Ret (s', t) => Ret (s', Polled t) | Panic => Panic end
  | Register now name b => match register_poller now s name b with Ret (s', _) => Ret (s', Done) | Panic => Panic end
  | Unregister name id => match remove_poller s name id with Ret s' => Ret (s', Done) | Panic => Panic end
  | Expire now => Ret ((expire_tasks now s).1, Done)
  end.

Fixpoint match_run (s : MatchingService) (ops : list match_op) : exec (MatchingService * list match_obs) :=
  match ops with
  | [] => Ret (s, [])
  | op :: ops =>
      match match_step s op with
      | Ret (s', o) => match match_run s' ops with Ret (s'', os) => Ret (s'', o :: os) | Panic => Panic end
      | Panic => Panic
      end
  end.

(** The specification: the waiting tasks of each name. *)
Definition waiting (w : gmap string (list MatchTask)) (name : string) : list MatchTask := default [] (w !! name).

Definition spec_step (c : MatchingServiceConfig) (w : gmap string (list MatchTask)) (op : match_op) :
    gmap string (list MatchTask) * match_obs :=
  match op with
  | Add t =>
      let ts := waiting w (task_queue t) in
      if (length ts <? max_queue_depth c)%nat then (<[task_queue t := ts ++ [t]]> w, Added true) else (w, Added false)
  | Poll name b | TryPoll name b =>
      match waiting w name with
      | t :: ts => if is_task_compatible t b then (<[name := ts]> w, Polled (Some t)) else (w, Polled None)
      | [] => (w, Polled None)
      end
  | Register _ _ _ | Unregister _ _ => (w, Done)
  | Expire now => (List.filter (fresh now (task_ttl_seconds c * 1000)) <$> w, Done)
  end.

Fixpoint spec_run (c : MatchingServiceConfig) (w : gmap string (list MatchTask)) (ops : list match_op) :
    gmap string (list MatchTask) * list match_obs :=
  match ops with
  | [] => (w, [])
  | op :: ops => let '(w', o) := spec_step c w op in let '(w'', os) := spec_run c w' ops in (w'', o :: os)
  end.

(** *** Refinement *)

(** All tasks of a name wait in one partition. *)
Definition holds (c : MatchingServiceConfig) (p : nat) (ts : list MatchTask) (ps : list PartitionQueue) : Prop :=
  Z.of_nat (length ps) = num_partitions c /\
  forall i q, ps !! i = Some q -> max_depth q = max_queue_depth c /\ tasks q = if decide (i = p) then ts else [].

Definition home (c : MatchingServiceConfig) (name : string) : Z :=
  match partition_for c name with Ret p => p | Panic => 0 end.

Definition related (c : MatchingServiceConfig) (w : gmap string (list MatchTask)) (s : MatchingService) : Prop :=
  config s = c /\ tasks_forwarded (stats s) = 0 /\
  forall name, match queues s !! name with
               | Some ps => holds c (Z.to_nat (home c name)) (waiting w name) ps
               | None => waiting w name = []
               end.

Lemma home_spec c name : 0 < num_partitions c -> partition_for c name = Ret (home c name) /\ 0 <= home c name < num_partitions c.
Proof.
  intros Hn. unfold home, partition_for. rewrite (proj2 (Z.eqb_neq _ _)) by lia. split; [done|]. by apply Z.mod_pos_bound.
Qed.

Lemma holds_new c p : 0 < num_partitions c -> holds c p [] (map (fun i => partition_queue_new i (max_queue_depth c)) (seqZ 0 (num_partitions c))).
Proof.
  intros Hn. split; [rewrite length_map, length_seqZ; lia|]. intros i q Hq.
  apply list_elem_of_lookup_2, list_elem_of_fmap in Hq as (x & -> & _). cbn. by case_decide.
Qed.

Lemma partitions_hold c w s name :
  0 < num_partitions c -> related c w s -> holds c (Z.to_nat (home c name)) (waiting w name) (partitions_of s name).
Proof.
  intros Hn (Hc & _ & Hq). specialize (Hq name). unfold partitions_of. destruct (queues s !! name); [done|].
  rewrite Hq, Hc. by apply holds_new.
Qed.

Lemma home_lookup c p ts ps :
  holds c p ts ps -> Z.of_nat p < num_partitions c -> exists q, ps !! p = Some q /\ tasks q = ts /\ max_depth q = max_queue_depth c.
Proof.
  intros [Hl Hq] Hp. destruct (lookup_lt_is_Some_2 ps p) as [q E]; [lia|]. exists q. destruct (Hq _ _ E) as [H1 H2].
  rewrite decide_True in H2 by done. done.
Qed.

(** Changing the home partition. *)
Lemma holds_insert c p ts ts' ps q :
  holds c p ts ps -> max_depth q = max_queue_depth c -> tasks q = ts' -> holds c p ts' (<[p := q]> ps).
Proof.
  intros [Hl Hq] Hm Ht. split; [by rewrite length_insert|]. intros i q' Hi.
  destruct (decide (i = p)) as [->|Hne].
  - apply list_lookup_insert_Some in Hi as [(_ & <- & _)|[? _]]; done.
  - rewrite list_lookup_insert_ne in Hi by done. destruct (Hq _ _ Hi) as [H1 H2]. by rewrite decide_False in H2.
Qed.

Lemma waiting_insert w name ts name' :
  waiting (<[name := ts]> w) name' = if decide (name = name') then ts else waiting w name'.
Proof. unfold waiting. case_decide as E; [subst; by rewrite lookup_insert_eq|by rewrite lookup_insert_ne]. Qed.

(** The service after the partitions of one name changed. *)
Lemma related_queue c w s name ts ps st n :
  related c w s -> holds c (Z.to_nat (home c name)) ts ps -> tasks_forwarded st = 0 ->
  related c (<[name := ts]> w) (mkService c (<[name := ps]> (queues s)) st n).
Proof.
  intros (Hc & _ & Hq) Hh Hst. split_and!; [done..|]. intros x. cbn. specialize (Hq x). rewrite waiting_insert.
  case_decide as E; [subst; by rewrite lookup_insert_eq|by rewrite lookup_insert_ne].
Qed.

Lemma related_ext c w w' s : (forall name, waiting w name = waiting w' name) -> related c w s -> related c w' s.
Proof. intros He (Hc & Hf & Hq). split_and!; [done..|]. intros x. specialize (Hq x). by rewrite <- He. Qed.

Lemma waiting_same w name x : waiting (<[name := waiting w name]> w) x = waiting w x.
Proof. rewrite waiting_insert. case_decide; by subst. Qed.

(** The other partitions are empty. *)
Lemma scan_others c p ts ps offsets b :
  holds c (Z.to_nat p) ts ps -> 0 <= p < num_partitions c -> Forall (fun o => 0 < o < num_partitions c) offsets ->
  poll_scan offsets p b ps = (ps, None).
Proof.
  intros [Hl Hq] Hp Ho. induction Ho as [|o offsets Hr _ IH]; [done|]. cbn [poll_scan]. rewrite Hl.
  destruct (ps !! Z.to_nat ((p + o) mod num_partitions c)) as [q|] eqn:E; [|done]. destruct (Hq _ _ E) as [_ Ht].
  rewrite decide_False in Ht; [by unfold pq_dequeue; rewrite Ht|]. intros He.
  assert (Hm : 0 <= (p + o) mod num_partitions c < num_partitions c) by (apply Z.mod_pos_bound; lia).
  destruct (Z.lt_ge_cases (p + o) (num_partitions c)).
  - rewrite Z.mod_small in He by lia. lia.
  - rewrite <- (Z.mod_unique (p + o) (num_partitions c) 1 (p + o - num_partitions c)) in He by lia. lia.
Qed.

(** Taking from the home partition. *)
Definition take_home (p : nat) (b : option string) (ts : list MatchTask) (ps : list PartitionQueue) : list PartitionQueue * option MatchTask :=
  match ps !! p, ts with
  | Some q, t :: ts => if is_task_compatible t b then (<[p := mkPartition (partition_id q) ts (pollers q) (max_depth q)]> ps, Some t) else (ps, None)
  | _, _ => (ps, None)
  end.

Lemma put_back (ps : list PartitionQueue) (p : nat) q t ts :
  ps !! p = Some q -> tasks q = t :: ts ->
  <[p := pq_push_front (mkPartition (partition_id q) ts (pollers q) (max_depth q)) t]> ps = ps.
Proof. intros Hq Ht. apply list_insert_id. rewrite Hq. destruct q. cbn in *. by subst. Qed.

Lemma scan_home c p ts ps b :
  holds c (Z.to_nat p) ts ps -> 0 <= p < num_partitions c ->
  poll_scan (seqZ 0 (Z.of_nat (length ps))) p b ps =
    let '(ps', t) := take_home (Z.to_nat p) b ts ps in (ps', (fun t => (t, 0)) <$> t).
Proof.
  intros Hh Hp. pose proof Hh as [Hl Hq]. destruct (home_lookup _ _ _ _ Hh ltac:(lia)) as (q & E & Ht & _).
  assert (Hsplit : seqZ 0 (Z.of_nat (length ps)) = 0 :: seqZ 1 (num_partitions c - 1)) by (rewrite Hl, seqZ_cons by lia; f_equal; f_equal; lia).
  assert (Hrest : poll_scan (seqZ 1 (num_partitions c - 1)) p b ps = (ps, None)).
  { apply (scan_others c p ts); [done..|]. apply Forall_seqZ. intros; lia. }
  rewrite Hsplit. cbn [poll_scan]. rewrite Z.add_0_r, Hl, Z.mod_small by done. unfold take_home, pq_dequeue. rewrite E, Ht.
  destruct ts as [|t ts]; [done|]. destruct (is_task_compatible t b); [done|]. by rewrite (put_back _ _ _ _ _ E Ht), Hrest.
Qed.

Lemma take_home_holds c w s name b ps st :
  related c w s -> 0 < num_partitions c -> queues s !! name = Some ps -> tasks_forwarded st = 0 ->
  let '(ps', t) := take_home (Z.to_nat (home c name)) b (waiting w name) ps in
  let '(w', o) := spec_step c w (Poll name b) in
  o = Polled t /\ related c w' (with_queue s name ps' st).
Proof.
  intros Hr Hn Hps Hst. pose proof Hr as (Hc & _ & Hq). specialize (Hq name). rewrite Hps in Hq.
  destruct (home_spec c name Hn) as [_ Hb]. destruct (home_lookup _ _ _ _ Hq ltac:(lia)) as (q & E & Ht & Hm).
  unfold take_home. rewrite E. cbn [spec_step]. unfold with_queue. rewrite Hc.
  assert (Hsame : related c w (mkService c (<[name := ps]> (queues s)) st (next_poller_id s))).
  { apply (related_ext c (<[name := waiting w name]> w)); [apply waiting_same|]. by apply related_queue. }
  destruct (waiting w name) as [|t ts] eqn:Ew; [done|]. destruct (is_task_compatible t b); [|done].
  split; [done|]. apply related_queue; [done| |done]. eapply holds_insert; [exact Hq|done|done].
Qed.

Lemma related_stats c w s st n :
  related c w s -> tasks_forwarded st = 0 -> related c w (mkService c (queues s) st n).
Proof. intros (Hc & _ & Hq) Hst. by split_and!. Qed.

(** A change of the home partition that keeps its tasks. *)
Lemma related_pollers c w s name q q' ps st n :
  related c w s -> holds c (Z.to_nat (home c name)) (waiting w name) ps -> ps !! Z.to_nat (home c name) = Some q ->
  tasks q' = tasks q -> max_depth q' = max_depth q -> tasks_forwarded st = 0 ->
  related c w (mkService c (<[name := <[Z.to_nat (home c name) := q']> ps]> (queues s)) st n).
Proof.
  intros Hr Hh Hq Ht Hm Hst. apply (related_ext c (<[name := waiting w name]> w)); [apply waiting_same|].
  apply related_queue; [done| |done]. destruct Hh as [Hl Hall]. destruct (Hall _ _ Hq) as [Hd Hts].
  rewrite decide_True in Hts by done. eapply holds_insert; [by split|congruence|congruence].
Qed.

Section steps.
Context (c : MatchingServiceConfig) (Hn : 0 < num_partitions c).

Lemma add_refines w s t :
  related c w s -> exists s', add_task s t = Ret (s', (length (waiting w (task_queue t)) <? max_queue_depth c)%nat) /\
    related c (spec_step c w (Add t)).1 s'.
Proof.
  intros Hr. pose proof Hr as (Hc & Hf & _). set (name := task_queue t). destruct (home_spec c name Hn) as [Hp Hb].
  pose proof (partitions_hold c w s name Hn Hr) as Hh. destruct (home_lookup _ _ _ _ Hh ltac:(lia)) as (q & E & Ht & Hm).
  unfold add_task. rewrite Hc. fold name. rewrite Hp, E. unfold pq_enqueue, with_queue. rewrite Ht, Hm, Hc. cbn [spec_step]. fold name.
  destruct (Nat.leb_spec (max_queue_depth c) (length (waiting w name))); destruct (Nat.ltb_spec (length (waiting w name)) (max_queue_depth c)); try lia;
    eexists; (split; [reflexivity|]).
  - eapply related_pollers; eauto.
  - apply related_queue; [done| |done]. by eapply holds_insert.
Qed.

Lemma register_refines w s now name b :
  related c w s -> exists s' id, register_poller now s name b = Ret (s', id) /\ related c w s'.
Proof.
  intros Hr. pose proof Hr as (Hc & Hf & _). destruct (home_spec c name Hn) as [Hp Hb].
  pose proof (partitions_hold c w s name Hn Hr) as Hh. destruct (home_lookup _ _ _ _ Hh ltac:(lia)) as (q & E & _ & _).
  unfold register_poller. rewrite Hc, Hp, E. do 2 eexists. split; [reflexivity|]. eapply related_pollers; eauto.
Qed.

Lemma remove_refines w s name id :
  related c w s -> exists s', remove_poller s name id = Ret s' /\ related c w s'.
Proof.
  intros Hr. pose proof Hr as (Hc & Hf & Hq). destruct (home_spec c name Hn) as [Hp Hb]. specialize (Hq name).
  unfold remove_poller. rewrite Hc, Hp. eexists. split; [reflexivity|].
  destruct (queues s !! name) as [ps|] eqn:Eq; [|by apply related_stats].
  destruct (home_lookup _ _ _ _ Hq ltac:(lia)) as (q & E & _ & _). rewrite E. eapply related_pollers; eauto.
Qed.

Lemma poll_refines w s name b :
  related c w s -> exists s' t, poll_pass s name b = Ret (s', t) /\ related c (spec_step c w (Poll name b)).1 s' /\
    (spec_step c w (Poll name b)).2 = Polled t.
Proof.
  intros Hr. pose proof Hr as (Hc & Hf & Hq). destruct (home_spec c name Hn) as [Hp Hb]. specialize (Hq name).
  unfold poll_pass. rewrite Hc, Hp. destruct (queues s !! name) as [ps|] eqn:E.
  - rewrite (scan_home c _ (waiting w name)) by done.
    pose proof (fun st => take_home_holds c w s name b ps st Hr Hn E) as Ht.
    destruct (take_home _ b (waiting w name) ps) as [ps' [t|]]; cbn [fmap option_fmap option_map];
      destruct (spec_step c w (Poll name b)) as [w' o]; do 2 eexists; (split; [reflexivity|]).
    + destruct (Ht (matched (stats s) 0) Hf) as [-> Hr']. by split.
    + destruct (Ht (stats s) Hf) as [-> Hr']. by split.
  - cbn [spec_step]. rewrite Hq. by do 2 eexists.
Qed.

(** The two ways of polling agree. *)
Lemma try_poll_is_poll w s name b : related c w s -> try_poll_task s name b = poll_pass s name b.
Proof.
  intros Hr. pose proof Hr as (Hc & Hf & Hq). destruct (home_spec c name Hn) as [Hp Hb]. specialize (Hq name).
  unfold try_poll_task, poll_pass. rewrite Hc, Hp. destruct (queues s !! name) as [ps|] eqn:E; [|done].
  rewrite (scan_home c _ (waiting w name)) by done. destruct (home_lookup _ _ _ _ Hq ltac:(lia)) as (q & Eq & Ht & Hm).
  assert (Hrest : poll_scan (seqZ 1 (Z.of_nat (length ps) - 1)) (home c name) b ps = (ps, None)).
  { apply (scan_others c _ (waiting w name)); [done..|]. destruct Hq as [-> _]. apply Forall_seqZ. intros; lia. }
  unfold take_home, pq_dequeue. rewrite Eq, Ht. destruct (waiting w name) as [|t ts] eqn:Ew; [by rewrite Hrest|].
  destruct (is_task_compatible t b); [done|]. by rewrite (put_back _ _ _ _ _ Eq Ht), Hrest.
Qed.

Lemma expire_refines w s now : related c w s -> related c (spec_step c w (Expire now)).1 (expire_tasks now s).1.
Proof.
  intros (Hc & Hf & Hq). split_and!; [done|cbn; by case_match|]. intros name. specialize (Hq name). cbn. rewrite lookup_fmap, Hc.
  assert (Hw : waiting (List.filter (fresh now (task_ttl_seconds c * 1000)) <$> w) name
               = List.filter (fresh now (task_ttl_seconds c * 1000)) (waiting w name)).
  { unfold waiting. rewrite lookup_fmap. by destruct (w !! name). }
  rewrite Hw. destruct (queues s !! name) as [ps|]; cbn; [|by rewrite Hq].
  destruct Hq as [Hl Hall]. split; [by rewrite length_map|]. intros i q Hi. change (map ?f ps) with (f <$> ps) in Hi.
  rewrite list_lookup_fmap in Hi. destruct (ps !! i) as [q0|] eqn:E; [|done]. injection Hi as <-. cbn.
  destruct (Hall _ _ E) as [Hd Ht]. split; [done|]. rewrite Ht. by case_decide.
Qed.

Lemma match_step_refines w s op :
  related c w s -> exists s', match_step s op = Ret (s', (spec_step c w op).2) /\ related c (spec_step c w op).1 s'.
Proof.
  intros Hr. destruct op as [t|name b|name b|now name b|name id|now]; cbn [match_step].
  - destruct (add_refines w s t Hr) as (s' & -> & Hr'). exists s'. split; [|done]. cbn [spec_step]. by case_match.
  - destruct (poll_refines w s name b Hr) as (s' & t & -> & Hr' & ->). by exists s'.
  - rewrite (try_poll_is_poll w) by done. destruct (poll_refines w s name b Hr) as (s' & t & -> & Hr' & Ho). exists s'.
    change (spec_step c w (TryPoll name b)) with (spec_step c w (Poll name b)). by rewrite Ho.
  - destruct (register_refines w s now name b Hr) as (s' & id & -> & Hr'). by exists s'.
  - destruct (remove_refines w s name id Hr) as (s' & -> & Hr'). by exists s'.
  - eexists. split; [done|]. by apply expire_refines.
Qed.

Lemma match_run_refines ops : forall w s, related c w s ->
  exists s', match_run s ops = Ret (s', (spec_run c w ops).2) /\ related c (spec_run c w ops).1 s'.
Proof.
  induction ops as [|op ops IH]; intros w s Hr; [by exists s|]. cbn [match_run spec_run].
  destruct (match_step_refines w s op Hr) as (s' & -> & Hr'). revert Hr'. destruct (spec_step c w op) as [w' o]. intros Hr'.
  destruct (IH _ _ Hr') as (s'' & -> & Hr''). revert Hr''. cbn. destruct (spec_run c w' ops) as [w'' os]. intros Hr''. by exists s''.
Qed.

End steps.

(** The depth of the partitions is the depth of the home partition. *)
Lemma empty_partitions_depth ps : (forall i q, ps !! i = Some q -> tasks q = []) -> sum_list_with (fun q => length (tasks q)) ps = 0%nat.
Proof.
  induction ps as [|q ps IH]; intros H; [done|]. cbn. rewrite (H 0%nat q) by done. apply IH. intros i. apply (H (S i)).
Qed.

Lemma holds_depth c p ts ps :
  holds c p ts ps -> Z.of_nat p < num_partitions c -> sum_list_with (fun q => length (tasks q)) ps = length ts.
Proof.
  intros [Hl Hq] Hp. assert (Hlt : (p < length ps)%nat) by lia. clear Hl Hp. revert p Hq Hlt.
  induction ps as [|q ps IH]; intros p Hq Hlt; cbn in *; [lia|]. destruct p as [|p].
  - destruct (Hq 0%nat q eq_refl) as [_ ->]. rewrite decide_True by done.
    rewrite empty_partitions_depth; [lia|]. intros i q' Hi. destruct (Hq (S i) q' Hi) as [_ Ht]. by rewrite decide_False in Ht.
  - destruct (Hq 0%nat q eq_refl) as [_ ->]. rewrite decide_False by done. apply (IH p); [|lia].
    intros i q' Hi. destruct (Hq (S i) q' Hi) as [Hd Ht]. split; [done|]. rewrite Ht. by rewrite (decide_ext (S i = S p) (i = p)) by lia.
Qed.

Lemma related_depth c w s name : 0 < num_partitions c -> related c w s -> queue_depth s name = length (waiting w name).
Proof.
  intros Hn (Hc & Hf & Hq). specialize (Hq name). destruct (home_spec c name Hn) as [_ Hb]. unfold queue_depth.
  destruct (queues s !! name) as [ps|]; [|by rewrite Hq]. eapply holds_depth; [done|lia].
Qed.

Lemma describe_backlog ps : forall d,
  total_backlog (fold_left describe_partition ps d) = total_backlog d + Z.of_nat (sum_list_with (fun q => length (tasks q)) ps).
Proof. induction ps as [|q ps IH]; intros d; cbn; [lia|]. rewrite IH. cbn. lia. Qed.

Lemma described_depth s name : total_backlog (describe_task_queue s name) = Z.of_nat (queue_depth s name).
Proof. unfold describe_task_queue, queue_depth. rewrite describe_backlog. by destruct (queues s !! name). Qed.

(** C19. With at least one partition, every sequence of additions, polls, poller registrations and removals, and
    expiries runs without a panic and returns exactly what one bounded first-in first-out queue per name returns: a task is
    accepted while fewer than [max_queue_depth] tasks of its name wait, a poll takes the oldest task when the poller's build
    can run it, and expiry drops the tasks that are too old.  The depth and the described backlog of every queue are the
    number of its waiting tasks, and nothing is ever forwarded between partitions. *)
Theorem matching_refines_queues (c : MatchingServiceConfig) (ops : list match_op) (Hn : 0 < num_partitions c) :
  exists s, match_run (matching_new c) ops = Ret (s, (spec_run c ∅ ops).2) /\ tasks_forwarded (stats s) = 0 /\
    forall name, queue_depth s name = length (waiting (spec_run c ∅ ops).1 name) /\
                 total_backlog (describe_task_queue s name) = Z.of_nat (length (waiting (spec_run c ∅ ops).1 name)).
Proof.
  assert (Hr : related c ∅ (matching_new c)) by (split_and!; [done..|]; intros name; cbn; rewrite lookup_empty; done).
  destruct (match_run_refines c Hn ops _ _ Hr) as (s & Hs & Hr'). exists s. split_and!; [done|apply Hr'|].
  intros name. rewrite described_depth, (related_depth c _ s name Hn Hr'). done.
Qed.

Definition demo_config : MatchingServiceConfig := mkConfig 4 2 2 60 5000.
Definition demo_task (id : Z) (b : option string) : MatchTask := mkTask id id "orders" b 0 (1000 * id) None.
Definition demo_ops : list match_op :=
  [Register 0 "orders" (Some "v1"); Add (demo_task 1 (Some "v2")); Add (demo_task 2 None); Add (demo_task 3 None);
   Poll "orders" (Some "v1"); TryPoll "orders" (Some "v2"); Expire 3000; Poll "orders" (Some "v1"); Unregister "orders" 1].

Lemma matching_refines_queues_witness :
  0 < num_partitions demo_config /\
  (spec_run demo_config ∅ demo_ops).2 =
    [Done; Added true; Added true; Added false; Polled None; Polled (Some (demo_task 1 (Some "v2"))); Done;
     Polled (Some (demo_task 2 None)); Done] /\
  exists s, match_run (matching_new demo_config) demo_ops = Ret (s, (spec_run demo_config ∅ demo_ops).2).
Proof.
  split; [done|]. split; [vm_compute; reflexivity|].
  destruct (matching_refines_queues demo_config demo_ops eq_refl) as (s & Hs & _). exists s. exact Hs.
Defined.

(** *** Limits *)

(** A task for another build at the head hides the tasks behind it: a poller that could run them gets nothing. *)
Lemma head_blocks_queue :
  match match_run (matching_new demo_config) [Add (demo_task 1 (Some "v2")); Add (demo_task 2 (Some "v1")); Poll "orders" (Some "v1")] with
  | Ret (s, os) => last os = Some (Polled None) /\ queue_depth s "orders" = 2%nat
  | Panic => False
  end.
Proof. vm_compute. done. Qed.

(** A service without partitions panics on every task. *)
Lemma no_partitions_panics c t : num_partitions c = 0 -> add_task (matching_new c) t = Panic.
Proof. intros H. unfold add_task, partition_for. cbn. by rewrite H. Qed.

(** The wake-up rule and the matching rule disagree both ways: an unversioned poller is woken for a versioned task it
    cannot take, and a versioned poller is not woken for an unversioned task it can take. *)
Lemma wake_up_mismatch :
  let q b := pq_register (partition_queue_new 0 2) (mkPoller 1 b 0 0 0) in
  add_notifies (q None) (demo_task 1 (Some "v1")) = true /\ is_task_compatible (demo_task 1 (Some "v1")) None = false /\
  add_notifies (q (Some "v1")) (demo_task 1 None) = false /\ is_task_compatible (demo_task 1 None) (Some "v1") = true.
Proof. vm_compute. done. Qed.

(** Removing a poller that was never registered is counted. *)
Lemma unknown_poller_counted :
  match remove_poller (matching_new demo_config) "orders" 7 with Ret s => pollers_removed (stats s) = 1 | Panic => False end.
Proof. vm_compute. done. Qed.

End Matching.
