(* ===== verification/Versioning.v ===== *)
(** * Change versions

    [workflow_change_versioning.rs]: the registry behind [get_version].  A workflow asks
    which version of a code change it runs, the first answer is recorded, and later
    calls (replays) get the recorded one.  The registry is refined to one finite map
    from workflow and change to version.  A failed assertion of [get_version] is the
    result [Panic] beside the state it leaves: no lock is held at that point. *)

From S2P Require Import Prelude.

Module ChangeVersions.

Record VersionDecision : Type := mkDecision {
  change_id : string;
  version : Z;
  min_supported : Z;
  max_supported : Z;
  decided_at_ms : Z;
  was_replay : bool;
}.

Inductive VersionResult : Type :=
| Decided (v : Z)
| Existing (v : Z)
| Incompatible (recorded min_supported max_supported : Z).

Record WorkflowVersionState : Type := mkVersions {
  v_workflow_key : Z;
  decisions : gmap string VersionDecision;
  decision_order : list string;
}.

Record VersionAuditEntry : Type := mkAudit {
  au_workflow_key : Z;
  au_change_id : string;
  au_version : Z;
  au_min_supported : Z;
  au_max_supported : Z;
  au_was_replay : bool;
  au_timestamp_ms : Z;
}.

Record ChangeVersionRegistry : Type := mkRegistry {
  workflows : gmap Z WorkflowVersionState;
  audit_trail : list VersionAuditEntry;
  total_decisions : Z;
  total_queries : Z;
  total_incompatible : Z;
}.

Definition registry_new : ChangeVersionRegistry := mkRegistry ∅ [] 0 0 0.

(** [entry(workflow_key).or_insert_with(..)]. *)
Definition version_state (r : ChangeVersionRegistry) (key : Z) : WorkflowVersionState :=
  default (mkVersions key ∅ []) (workflows r !! key).

Definition register_workflow (r : ChangeVersionRegistry) (key : Z) : ChangeVersionRegistry :=
  mkRegistry (<[key := version_state r key]> (workflows r)) (audit_trail r) (total_decisions r) (total_queries r) (total_incompatible r).

Definition unregister_workflow (r : ChangeVersionRegistry) (key : Z) : ChangeVersionRegistry * bool :=
  (mkRegistry (delete key (workflows r)) (audit_trail r) (total_decisions r) (total_queries r) (total_incompatible r),
   bool_decide (is_Some (workflows r !! key))).

Definition decide_version (s : WorkflowVersionState) (d : VersionDecision) : WorkflowVersionState :=
  mkVersions (v_workflow_key s) (<[change_id d := d]> (decisions s)) (decision_order s ++ [change_id d]).

Definition get_version (now : Z) (r : ChangeVersionRegistry) (key : Z) (change : string) (lo hi : Z) (is_replay : bool) :
    ChangeVersionRegistry * exec VersionResult :=
  let queries := wrap 64 (total_queries r + 1) in
  if (hi <? lo) || bool_decide (change = EmptyString) then
    (mkRegistry (workflows r) (audit_trail r) (total_decisions r) queries (total_incompatible r), Panic)
  else
    let s := version_state r key in
    match decisions s !! change with
    | Some d =>
        let recorded := version d in
        let ws := <[key := s]> (workflows r) in
        if (recorded <? lo) || (hi <? recorded) then
          (mkRegistry ws (audit_trail r) (total_decisions r) queries (wrap 64 (total_incompatible r + 1)),
           Ret (Incompatible recorded lo hi))
        else (mkRegistry ws (audit_trail r) (total_decisions r) queries (total_incompatible r), Ret (Existing recorded))
    | None =>
        (mkRegistry (<[key := decide_version s (mkDecision change hi lo hi now is_replay)]> (workflows r))
           (audit_trail r ++ [mkAudit key change hi lo hi is_replay now]) (wrap 64 (total_decisions r + 1)) queries
           (total_incompatible r), Ret (Decided hi))
    end.

Definition has_decision (r : ChangeVersionRegistry) (key : Z) (change : string) : bool :=
  match workflows r !! key with Some s => bool_decide (is_Some (decisions s !! change)) | None => false end.

Definition get_recorded_version (r : ChangeVersionRegistry) (key : Z) (change : string) : option Z :=
  s ← workflows r !! key; version <$> decisions s !! change.

Definition get_workflow_decisions (r : ChangeVersionRegistry) (key : Z) : option (list VersionDecision) :=
  (fun s => omap (fun c => decisions s !! c) (decision_order s)) <$> workflows r !! key.

Definition decision_count (r : ChangeVersionRegistry) (key : Z) : nat :=
  match workflows r !! key with Some s => size (decisions s) | None => 0 end.

Definition audit_for_workflow (r : ChangeVersionRegistry) (key : Z) : list VersionAuditEntry :=
  List.filter (fun a => au_workflow_key a =? key) (audit_trail r).

Definition decided_change_ids (r : ChangeVersionRegistry) (key : Z) : list string :=
  match workflows r !! key with Some s => decision_order s | None => [] end.

Definition force_set_version (now : Z) (r : ChangeVersionRegistry) (key : Z) (change : string) (v : Z) : ChangeVersionRegistry * bool :=
  let s := version_state r key in
  match decisions s !! change with
  | Some _ =>
      (mkRegistry (<[key := s]> (workflows r)) (audit_trail r) (total_decisions r) (total_queries r) (total_incompatible r), false)
  | None =>
      (mkRegistry (<[key := decide_version s (mkDecision change v v v now false)]> (workflows r)) (audit_trail r)
         (wrap 64 (total_decisions r + 1)) (total_queries r) (total_incompatible r), true)
  end.

Definition override_version (now : Z) (r : ChangeVersionRegistry) (key : Z) (change : string) (v : Z) : ChangeVersionRegistry * bool :=
  match workflows r !! key with
  | Some s =>
      match decisions s !! change with
      | Some d =>
          let d' := mkDecision (change_id d) v (min_supported d) (max_supported d) now (was_replay d) in
          (mkRegistry (<[key := mkVersions (v_workflow_key s) (<[change := d']> (decisions s)) (decision_order s)]> (workflows r))
             (audit_trail r) (total_decisions r) (total_queries r) (total_incompatible r), true)
      | None => (r, false)
      end
  | None => (r, false)
  end.

Definition reset_workflow (r : ChangeVersionRegistry) (key : Z) : ChangeVersionRegistry * bool :=
  match workflows r !! key with
  | Some s =>
      (mkRegistry (<[key := mkVersions (v_workflow_key s) ∅ []]> (workflows r)) (audit_trail r) (total_decisions r)
         (total_queries r) (total_incompatible r), (0 <? size (decisions s))%nat)
  | None => (r, false)
  end.

(** *** Runs, and the map they present *)

Inductive cv_op : Type :=
| Register (key : Z)
| Unregister (key : Z)
| GetVersion (now key : Z) (change : string) (lo hi : Z) (is_replay : bool)
| ForceSet (now key : Z) (change : string) (v : Z)
| Override (now key : Z) (change : string) (v : Z)
| ResetVersions (key : Z).

Inductive cv_obs : Type := Nothing | Flag (b : bool) | Answer (a : exec VersionResult).

Definition cv_step (r : ChangeVersionRegistry) (op : cv_op) : ChangeVersionRegistry * cv_obs :=
  match op with
  | Register key => (register_workflow r key, Nothing)
  | Unregister key => let '(r', b) := unregister_workflow r key in (r', Flag b)
  | GetVersion now key change lo hi is_replay => let '(r', a) := get_version now r key change lo hi is_replay in (r', Answer a)
  | ForceSet now key change v => let '(r', b) := force_set_version now r key change v in (r', Flag b)
  | Override now key change v => let '(r', b) := override_version now r key change v in (r', Flag b)
  | ResetVersions key => let '(r', b) := reset_workflow r key in (r', Flag b)
  end.

Fixpoint cv_run (r : ChangeVersionRegistry) (ops : list cv_op) : ChangeVersionRegistry * list cv_obs :=
  match ops with
  | [] => (r, [])
  | op :: ops => let '(r', o) := cv_step r op in let '(r'', os) := cv_run r' ops in (r'', o :: os)
  end.

(** The specification: for each tracked workflow its changes and their versions, in the order they
    were decided. *)
Abbreviation ledger := (gmap Z (list (string * Z))).

Definition version_of (l : list (string * Z)) (change : string) : option Z :=
  snd <$> List.find (fun p => bool_decide (p.1 = change)) l.

Definition ledger_of (m : ledger) (key : Z) : list (string * Z) := default [] (m !! key).

Definition cv_spec (m : ledger) (op : cv_op) : ledger * cv_obs :=
  match op with
  | Register key => (<[key := ledger_of m key]> m, Nothing)
  | Unregister key => (delete key m, Flag (bool_decide (is_Some (m !! key))))
  | GetVersion _ key change lo hi _ =>
      if (hi <? lo) || bool_decide (change = EmptyString) then (m, Answer Panic)
      else match version_of (ledger_of m key) change with
           | Some v => (<[key := ledger_of m key]> m,
                        Answer (Ret (if (lo <=? v) && (v <=? hi) then Existing v else Incompatible v lo hi)))
           | None => (<[key := ledger_of m key ++ [(change, hi)]]> m, Answer (Ret (Decided hi)))
           end
  | ForceSet _ key change v =>
      match version_of (ledger_of m key) change with
      | Some _ => (<[key := ledger_of m key]> m, Flag false)
      | None => (<[key := ledger_of m key ++ [(change, v)]]> m, Flag true)
      end
  | Override _ key change v =>
      match version_of (ledger_of m key) change with
      | Some _ => (<[key := map (fun p => if bool_decide (p.1 = change) then (change, v) else p) (ledger_of m key)]> m, Flag true)
      | None => (m, Flag false)
      end
  | ResetVersions key =>
      match m !! key with
      | Some l => (<[key := []]> m, Flag (negb (bool_decide (l = []))))
      | None => (m, Flag false)
      end
  end.

Fixpoint cv_spec_run (m : ledger) (ops : list cv_op) : ledger * list cv_obs :=
  match ops with
  | [] => (m, [])
  | op :: ops => let '(m', o) := cv_spec m op in let '(m'', os) := cv_spec_run m' ops in (m'', o :: os)
  end.

(** The state of a workflow presents its list. *)
Definition presents (l : list (string * Z)) (s : WorkflowVersionState) : Prop :=
  decision_order s = map fst l /\ NoDup (map fst l) /\ forall c, version <$> decisions s !! c = version_of l c.

Definition registry_rel (m : ledger) (r : ChangeVersionRegistry) : Prop :=
  forall key, option_Forall2 presents (m !! key) (workflows r !! key).

Lemma version_of_None l c : version_of l c = None <-> c ∉ map fst l.
Proof.
  unfold version_of. induction l as [|[x v] l IH]; cbn; [split; [intros _; apply not_elem_of_nil|done]|].
  rewrite not_elem_of_cons. case_bool_decide as E; cbn; [naive_solver|]. rewrite IH. naive_solver.
Qed.

Lemma version_of_app l c v c' :
  version_of (l ++ [(c, v)]) c' = match version_of l c' with Some x => Some x | None => if decide (c = c') then Some v else None end.
Proof.
  unfold version_of. induction l as [|[x w] l IH]; cbn; [repeat case_bool_decide; case_decide; done|]. by case_bool_decide.
Qed.

Lemma version_of_override l c v c' :
  version_of (map (fun p => if bool_decide (p.1 = c) then (c, v) else p) l) c' =
    if decide (c = c') then (fun _ => v) <$> version_of l c' else version_of l c'.
Proof.
  unfold version_of. induction l as [|[x w] l IH]; cbn; [by case_decide|].
  repeat (case_bool_decide || case_decide); simplify_eq/=; try done;
    repeat (case_bool_decide || case_decide); simplify_eq/=; done.
Qed.

Lemma override_keys l c v : map fst (map (fun p => if bool_decide (p.1 = c) then (c, v) else p) l : list (string * Z)) = map fst l.
Proof. induction l as [|[x w] l IH]; cbn; [done|]. case_bool_decide; cbn; by rewrite IH; subst. Qed.

Lemma presents_empty key : presents [] (mkVersions key ∅ []).
Proof. split_and!; [done|constructor|done]. Qed.

Lemma presents_decide l s d :
  presents l s -> version_of l (change_id d) = None -> presents (l ++ [(change_id d, version d)]) (decide_version s d).
Proof.
  intros (Ho & Hn & Hv) Hd. split_and!; cbn.
  - by rewrite Ho, map_app.
  - rewrite map_app. apply NoDup_app. split_and!; [done| |apply NoDup_singleton]. intros x Hx E. apply list_elem_of_singleton in E as ->.
    by apply version_of_None in Hd.
  - intros c. rewrite version_of_app. destruct (decide (change_id d = c)) as [<-|Hne].
    + by rewrite lookup_insert_eq, Hd.
    + rewrite lookup_insert_ne, Hv by done. by destruct (version_of l c).
Qed.

Lemma presents_override l s d c v n :
  presents l s -> decisions s !! c = Some d ->
  presents (map (fun p => if bool_decide (p.1 = c) then (c, v) else p) l)
    (mkVersions (v_workflow_key s) (<[c := mkDecision (change_id d) v (min_supported d) (max_supported d) n (was_replay d)]> (decisions s)) (decision_order s)).
Proof.
  intros (Ho & Hn & Hv) Hd. split_and!; cbn; [by rewrite override_keys|by rewrite override_keys|]. intros c'.
  rewrite version_of_override, <- Hv. case_decide as E; [subst; by rewrite lookup_insert_eq, Hd|by rewrite lookup_insert_ne].
Qed.

Lemma presents_size l s : presents l s -> size (decisions s) = length l.
Proof.
  intros (Ho & Hn & Hv). rewrite <- (size_dom (D := gset string)), <- (length_map fst l), <- (size_list_to_set (C := gset string)) by done.
  f_equal. apply set_eq. intros c. rewrite elem_of_dom, elem_of_list_to_set.
  destruct (decide (c ∈ map fst l)) as [Hi|Hi].
  - split; [done|]. intros _. specialize (Hv c). destruct (decisions s !! c); [done|]. symmetry in Hv. by apply version_of_None in Hv.
  - split; [|done]. intros [d Hd]. specialize (Hv c). apply version_of_None in Hi. by rewrite Hd, Hi in Hv.
Qed.

Lemma state_presents m r key : registry_rel m r -> presents (ledger_of m key) (version_state r key).
Proof.
  intros Hr. specialize (Hr key). unfold ledger_of, version_state. inversion Hr; cbn; [done|apply presents_empty].
Qed.

Lemma rel_insert m r key l s a d q i :
  registry_rel m r -> presents l s -> registry_rel (<[key := l]> m) (mkRegistry (<[key := s]> (workflows r)) a d q i).
Proof.
  intros Hr Hp k. cbn. destruct (decide (key = k)) as [<-|]; [rewrite !lookup_insert_eq; by constructor|by rewrite !lookup_insert_ne].
Qed.

Lemma rel_counters m r a d q i : registry_rel m r -> registry_rel m (mkRegistry (workflows r) a d q i).
Proof. done. Qed.

Lemma recorded_version l s c : presents l s -> version <$> decisions s !! c = version_of l c.
Proof. intros (_ & _ & H). apply H. Qed.

#[local] Hint Resolve rel_insert rel_counters state_presents presents_empty : core.

Lemma get_version_refines m r now key c lo hi rep :
  registry_rel m r ->
  registry_rel (cv_spec m (GetVersion now key c lo hi rep)).1 (get_version now r key c lo hi rep).1 /\
  Answer (get_version now r key c lo hi rep).2 = (cv_spec m (GetVersion now key c lo hi rep)).2.
Proof.
  intros Hr. unfold get_version. cbn. destruct ((hi <? lo) || _); [by auto|]. pose proof (state_presents m r key Hr) as Hs.
  rewrite <- (recorded_version _ _ c Hs). destruct (decisions (version_state r key) !! c) as [d|] eqn:E; cbn.
  - destruct (Z.ltb_spec (version d) lo), (Z.ltb_spec hi (version d)), (Z.leb_spec lo (version d)), (Z.leb_spec (version d) hi);
      cbn; try lia; auto.
  - split; [|done]. apply rel_insert; [done|]. apply (presents_decide _ _ (mkDecision c hi lo hi now rep)); [done|].
    cbn. by rewrite <- (recorded_version _ _ c Hs), E.
Qed.

Lemma force_refines m r now key c v :
  registry_rel m r ->
  registry_rel (cv_spec m (ForceSet now key c v)).1 (force_set_version now r key c v).1 /\
  Flag (force_set_version now r key c v).2 = (cv_spec m (ForceSet now key c v)).2.
Proof.
  intros Hr. unfold force_set_version. cbn. pose proof (state_presents m r key Hr) as Hs.
  rewrite <- (recorded_version _ _ c Hs). destruct (decisions (version_state r key) !! c) as [d|] eqn:E; cbn; [by auto|].
  split; [|done]. apply rel_insert; [done|]. apply (presents_decide _ _ (mkDecision c v v v now false)); [done|].
  cbn. by rewrite <- (recorded_version _ _ c Hs), E.
Qed.

Lemma override_refines m r now key c v :
  registry_rel m r ->
  registry_rel (cv_spec m (Override now key c v)).1 (override_version now r key c v).1 /\
  Flag (override_version now r key c v).2 = (cv_spec m (Override now key c v)).2.
Proof.
  intros Hr. unfold override_version. cbn. pose proof (state_presents m r key Hr) as Hs. unfold version_state in Hs.
  rewrite <- (recorded_version _ _ c Hs). destruct (workflows r !! key) as [s|] eqn:Ew; cbn in *; [|by rewrite lookup_empty].
  destruct (decisions s !! c) as [d|] eqn:E; cbn; [|done]. split; [|done]. apply rel_insert; [done|]. by apply presents_override.
Qed.

Lemma reset_refines m r key :
  registry_rel m r ->
  registry_rel (cv_spec m (ResetVersions key)).1 (reset_workflow r key).1 /\
  Flag (reset_workflow r key).2 = (cv_spec m (ResetVersions key)).2.
Proof.
  intros Hr. unfold reset_workflow. cbn. pose proof (Hr key) as Hk. inversion Hk as [l s Hp E1 E2|E1 E2]; [|done]. cbn.
  split; [apply rel_insert; [done|apply presents_empty]|]. rewrite (presents_size _ _ Hp). by destruct l.
Qed.

Lemma cv_step_refines m r op :
  registry_rel m r -> registry_rel (cv_spec m op).1 (cv_step r op).1 /\ (cv_step r op).2 = (cv_spec m op).2.
Proof.
  intros Hr. destruct op as [key|key|now key c lo hi rep|now key c v|now key c v|key]; cbn [cv_step].
  - split; [|done]. apply rel_insert; auto.
  - split; cbn.
    + intros k. cbn. destruct (decide (key = k)) as [<-|]; [rewrite !lookup_delete_eq; constructor|by rewrite !lookup_delete_ne].
    + do 2 f_equal. specialize (Hr key). inversion Hr; apply bool_decide_ext; split; intros []; done.
  - pose proof (get_version_refines m r now key c lo hi rep Hr) as [H1 H2]. by destruct (get_version now r key c lo hi rep).
  - pose proof (force_refines m r now key c v Hr) as [H1 H2]. by destruct (force_set_version now r key c v).
  - pose proof (override_refines m r now key c v Hr) as [H1 H2]. by destruct (override_version now r key c v).
  - pose proof (reset_refines m r key Hr) as [H1 H2]. by destruct (reset_workflow r key).
Qed.

Lemma cv_run_refines ops : forall m r,
  registry_rel m r -> registry_rel (cv_spec_run m ops).1 (cv_run r ops).1 /\ (cv_run r ops).2 = (cv_spec_run m ops).2.
Proof.
  induction ops as [|op ops IH]; intros m r Hr; [done|]. cbn. destruct (cv_step_refines m r op Hr) as [H1 H2].
  destruct (cv_step r op) as [r' o], (cv_spec m op) as [m' o']. cbn in *. destruct (IH _ _ H1) as [H3 H4].
  destruct (cv_run r' ops), (cv_spec_run m' ops). cbn in *. by subst.
Qed.

Lemma registry_new_rel : registry_rel ∅ registry_new.
Proof. intros key. cbn. rewrite !lookup_empty. constructor. Qed.

(** Over every run the registry answers as one list of changes and versions per tracked workflow does: the
    first request for a change records the caller's newest version, later ones return the recorded version if the caller
    supports it and report it as incompatible if not, a migration adds or replaces one version, a reset empties the list.
    The recorded versions, their order and their number are those of the list. *)
Theorem versions_refine_ledger (ops : list cv_op) :
  let r := (cv_run registry_new ops).1 in
  let m := (cv_spec_run ∅ ops).1 in
  (cv_run registry_new ops).2 = (cv_spec_run ∅ ops).2 /\
  forall key, decided_change_ids r key = map fst (ledger_of m key) /\
              NoDup (decided_change_ids r key) /\ decision_count r key = length (ledger_of m key) /\
              forall c, get_recorded_version r key c = version_of (ledger_of m key) c.
Proof.
  intros r m. destruct (cv_run_refines ops _ _ registry_new_rel) as [Hr Ho]. split; [exact Ho|]. intros key.
  fold r m in Hr. specialize (Hr key). unfold decided_change_ids, decision_count, get_recorded_version, ledger_of.
  inversion Hr as [l s Hp E1 E2|E1 E2]; cbn; [|split_and!; [done|constructor|done..]].
  rewrite (presents_size _ _ Hp). destruct Hp as (Ho' & Hn & Hv). rewrite Ho'. split_and!; done.
Qed.

(** The operations that leave the version of a change of a workflow alone. *)
Definition keeps (key : Z) (c : string) (op : cv_op) : Prop :=
  match op with
  | Unregister k | ResetVersions k => k <> key
  | Override _ k c' _ => ~ (k = key /\ c' = c)
  | _ => True
  end.

Lemma ledger_insert m key l k : ledger_of (<[key := l]> m) k = if decide (key = k) then l else ledger_of m k.
Proof. unfold ledger_of. case_decide as E; [subst; by rewrite lookup_insert_eq|by rewrite lookup_insert_ne]. Qed.

Lemma spec_keeps m op key c v :
  keeps key c op -> version_of (ledger_of m key) c = Some v -> version_of (ledger_of (cv_spec m op).1 key) c = Some v.
Proof.
  intros Hk Hv. destruct op as [k|k|now k c' lo hi rep|now k c' x|now k c' x|k]; cbn in *;
    repeat case_match; cbn; rewrite ?ledger_insert;
    try destruct (decide (k = key)); subst; rewrite ?version_of_app, ?version_of_override, ?Hv; try done.
  - unfold ledger_of in *. by rewrite lookup_delete_ne.
  - rewrite decide_False; [done|]. naive_solver.
Qed.

Lemma spec_run_keeps ops key c v : forall m,
  Forall (keeps key c) ops -> version_of (ledger_of m key) c = Some v -> version_of (ledger_of (cv_spec_run m ops).1 key) c = Some v.
Proof.
  induction ops as [|op ops IH]; intros m Hk Hv; [done|]. inversion_clear Hk as [|? ? Ho Hk'].
  pose proof (spec_keeps m op key c v Ho Hv) as Hv'. cbn. destruct (cv_spec m op) as [m' o]. specialize (IH m' Hk' Hv').
  by destruct (cv_spec_run m' ops).
Qed.

Lemma spec_answers m now key c lo hi rep v :
  (cv_spec m (GetVersion now key c lo hi rep)).2 = Answer (Ret (Decided v)) \/
  (cv_spec m (GetVersion now key c lo hi rep)).2 = Answer (Ret (Existing v)) ->
  c <> EmptyString /\ version_of (ledger_of (cv_spec m (GetVersion now key c lo hi rep)).1 key) c = Some v.
Proof.
  cbn. destruct ((hi <? lo) || _) eqn:E; [by intros [|]|]. apply orb_false_iff in E as [_ E]. apply bool_decide_eq_false in E.
  destruct (version_of (ledger_of m key) c) as [x|] eqn:Ev; cbn; rewrite ledger_insert, decide_True by done.
  - rewrite Ev. intros [H|H]; repeat case_match; naive_solver.
  - rewrite version_of_app, Ev, decide_True by done. naive_solver.
Qed.

(** A version that a workflow was once given for a change, new or recorded, is what every later request gets,
    whatever happens to other workflows and changes in between and whoever else asks: the same version if the caller supports
    it, an incompatibility that names it otherwise.  Only an override of that change, a reset or the end of the workflow
    forgets it. *)
Theorem version_decisions_stable (ops1 ops2 : list cv_op) (key : Z) (c : string) (now lo hi now' lo' hi' v : Z) (rep rep' : bool)
  (Ha : (get_version now (cv_run registry_new ops1).1 key c lo hi rep).2 ∈ [Ret (Decided v); Ret (Existing v)])
  (Hk : Forall (keeps key c) ops2) (Hb : lo' <= hi') :
  let r := (cv_run (get_version now (cv_run registry_new ops1).1 key c lo hi rep).1 ops2).1 in
  (get_version now' r key c lo' hi' rep').2 = Ret (if (lo' <=? v) && (v <=? hi') then Existing v else Incompatible v lo' hi').
Proof.
  intros r. destruct (cv_run_refines ops1 _ _ registry_new_rel) as [Hr1 _]. set (m1 := (cv_spec_run ∅ ops1).1) in *.
  destruct (get_version_refines m1 _ now key c lo hi rep Hr1) as [Hr2 Ho].
  destruct (spec_answers m1 now key c lo hi rep v) as [Hne Hv].
  { rewrite <- Ho. apply list_elem_of_In in Ha. cbn in Ha. destruct Ha as [<-|[<-|[]]]; auto. }
  destruct (cv_run_refines ops2 _ _ Hr2) as [Hr3 _]. destruct (get_version_refines _ _ now' key c lo' hi' rep' Hr3) as [_ Ho'].
  pose proof (spec_run_keeps ops2 key c v _ Hk Hv) as Hv'. fold r in Ho'.
  set (m3 := (cv_spec_run _ ops2).1) in *. clearbody m3. revert Ho'. cbn [cv_spec]. rewrite Hv'.
  rewrite (proj2 (Z.ltb_ge _ _)), bool_decide_eq_false_2 by done. cbn. intros E. by injection E.
Qed.

Definition before : list cv_op := [Register 7; GetVersion 5 7 "add-label" 1 2 false].
Definition meanwhile : list cv_op :=
  [GetVersion 6 8 "add-label" 1 4 false; GetVersion 7 7 "other" 0 9 true; Override 8 8 "add-label" 3; Unregister 8;
   ForceSet 9 7 "add-label" 5; ResetVersions 9].

Lemma version_decisions_stable_witness :
  (get_version 9 (cv_run registry_new before).1 7 "add-label" 1 3 true).2 = Ret (Existing 2) /\
  (get_version 20 (cv_run (get_version 9 (cv_run registry_new before).1 7 "add-label" 1 3 true).1 meanwhile).1 7 "add-label" 3 6 true).2
    = Ret (Incompatible 2 3 6).
Proof.
  split; [by vm_compute|].
  refine (version_decisions_stable before meanwhile 7 "add-label" 9 1 3 20 3 6 2 true true _ _ _).
  - apply list_elem_of_In. right. left. by vm_compute.
  - repeat constructor; cbn; intros; try done; naive_solver.
  - lia.
Defined.

(** *** The audit trail *)

Definition audited (op : cv_op) (o : cv_obs) : list (Z * string * Z) :=
  match op, o with
  | GetVersion _ key c _ _ _, Answer (Ret (Decided v)) => [(key, c, v)]
  | _, _ => []
  end.

Lemma step_audits r op :
  map (fun a => (au_workflow_key a, au_change_id a, au_version a)) (audit_trail (cv_step r op).1) =
  map (fun a => (au_workflow_key a, au_change_id a, au_version a)) (audit_trail r) ++ audited op (cv_step r op).2.
Proof.
  destruct op; cbn; unfold get_version, force_set_version, override_version, reset_workflow;
    repeat case_match; simplify_eq/=; rewrite ?map_app, ?app_nil_r; done.
Qed.

(** The audit trail lists the new decisions of [get_version], in order. *)
Lemma audit_trail_exact ops : forall r,
  map (fun a => (au_workflow_key a, au_change_id a, au_version a)) (audit_trail (cv_run r ops).1) =
  map (fun a => (au_workflow_key a, au_change_id a, au_version a)) (audit_trail r) ++ concat (zip_with audited ops (cv_run r ops).2).
Proof.
  induction ops as [|op ops IH]; intros r; cbn; [by rewrite app_nil_r|]. pose proof (step_audits r op) as Hs.
  destruct (cv_step r op) as [r' o]. specialize (IH r'). destruct (cv_run r' ops) as [r'' os]. cbn in *.
  by rewrite IH, Hs, app_assoc.
Qed.

(** *** Limits *)

(** Forced and overridden versions leave no trace in the audit trail, which is described as the trail of all decisions. *)
Lemma migrations_not_audited :
  let r := (cv_run registry_new [ForceSet 1 7 "c" 4; Override 2 7 "c" 5]).1 in
  get_recorded_version r 7 "c" = Some 5 /\ total_decisions r = 1 /\ audit_for_workflow r 7 = [].
Proof. by vm_compute. Qed.

(** During replay an unknown change is decided anew with the newest version: a workflow that passed the place before the change
    existed takes the new branch when it is replayed. *)
Lemma replay_decides_newest : (get_version 1 registry_new 7 "c" 0 3 true).2 = Ret (Decided 3).
Proof. by vm_compute. Qed.

(** Asking for a version of a workflow that has ended tracks it again. *)
Lemma query_tracks_again :
  let r := (cv_run registry_new [Register 7; Unregister 7; GetVersion 1 7 "c" 0 3 true]).1 in is_Some (workflows r !! 7).
Proof. vm_compute. eauto. Qed.

End ChangeVersions.
