(* ===== verification/EngineVersions.v ===== *)
(** * The engine with its change versions

    The engine of Engine.v records its calls to [change_version_registry]; here they are carried out on the registry
    of Versioning.v, and requests for versions ([WorkflowEngine::get_version]) run between the handlers.  A workflow
    keeps the versions it was given until it is closed. *)

From S2P Require Import Prelude Bitmask Slab SlotMap Slots Wal ContextPool TaskQueue CircuitBreaker.
From S2P Require Import EventHistory Timer Index Context Replay Visibility Archive Engine Recovery Versioning.

Module EngineVersions.
Import Context ContextPool WalManager Engine Recovery.
Import (notations, coercions) ChangeVersions.

Section versions.
Context `{Sha256}.
Implicit Types (e : WorkflowEngine) (ck : clock) (r : ChangeVersions.ChangeVersionRegistry).

Record system : Type := mkSystem {
  sys_engine : WorkflowEngine;
  change_version_registry : ChangeVersions.ChangeVersionRegistry;
}.

(** The calls of a handler that reach the registry. *)
Definition change_calls (cs : list service_call) : list ChangeVersions.cv_op :=
  omap (fun c => match c with
                 | ChangeRegister k => Some (ChangeVersions.Register k)
                 | ChangeUnregister k => Some (ChangeVersions.Unregister k)
                 | _ => None
                 end) cs.

(** A handler has run: its calls are carried out. *)
Definition deliver (s : system) e : system :=
  mkSystem e (ChangeVersions.cv_run (change_version_registry s)
                (change_calls (drop (length (calls (sys_engine s))) (calls e)))).1.

Inductive sys_op : Type :=
| Life (oc : engine_op * clock)
| Child (parent child_id type_id hash total : Z) (input : option bytes) (ck : clock)
| Continue (key : Z) (input : option bytes) (ck : clock)
| ResetTo (key event_id : Z)
| Request (key : Z) (change : string) (lo hi : Z) (is_replay : bool) (ck : clock).

(** [WorkflowEngine::get_version]. *)
Definition engine_get_version (s : system) (key : Z) (change : string) (lo hi : Z) (is_replay : bool) ck :
    system * exec ChangeVersions.VersionResult :=
  let '(r, a) := ChangeVersions.get_version (wall ck) (change_version_registry s) key change lo hi is_replay in
  (mkSystem (sys_engine s) r, a).

Definition sys_step (s : system) (op : sys_op) : system :=
  match op with
  | Life oc => deliver s (engine_step (sys_engine s) oc)
  | Child parent child_id type_id hash total input ck =>
      deliver s (start_child_workflow (sys_engine s) parent child_id type_id hash total input ck).1
  | Continue key input ck => deliver s (continue_as_new (sys_engine s) key input ck).1
  | ResetTo key event_id => deliver s (reset_workflow (sys_engine s) key event_id).1
  | Request key change lo hi is_replay ck => (engine_get_version s key change lo hi is_replay ck).1
  end.

Definition sys_run (s : system) (ops : list sys_op) : system := foldl sys_step s ops.

Definition sys_new (d : disk) (max_size : Z) ck : system := mkSystem (with_wal d max_size ck) ChangeVersions.registry_new.

(** What an operation does to the registry. *)
Definition registry_ops (op : sys_op) : list ChangeVersions.cv_op :=
  match op with
  | Life (OpStart wid _ ns _ _ _, _) => [ChangeVersions.Register (make_key ns wid)]
  | Life (OpComplete key _, _) | Life (OpFail key, _) | Life (OpCancel key, _) | Life (OpTerminate key, _) =>
      [ChangeVersions.Unregister key]
  | Life _ | Continue _ _ _ | ResetTo _ _ => []
  | Child parent child_id _ _ _ _ _ => [ChangeVersions.Register (make_key (parent >>> 32) child_id)]
  | Request key change lo hi is_replay ck => [ChangeVersions.GetVersion (wall ck) key change lo hi is_replay]
  end.

(** *** The calls of the handlers *)

Definition adds e e' (ops : list ChangeVersions.cv_op) : Prop :=
  exists cs, calls e' = calls e ++ cs /\ change_calls cs = ops.

Lemma log_event_calls e ty key data : calls (log_event e ty key data) = calls e.
Proof. unfold log_event. by destruct (wal e). Qed.

Lemma sync_wal_calls e : calls (sync_wal e) = calls e.
Proof. unfold sync_wal. by destruct (wal e). Qed.

Lemma archive_calls e key : calls (maybe_auto_archive e key) = calls e.
Proof. unfold maybe_auto_archive. destruct (Archive.should_archive _ _); [|done]. by destruct (pool_with (workflows e) key). Qed.

Lemma batch_sync_calls e ck : calls (batch_sync e ck) = calls e.
Proof. unfold batch_sync. cbv zeta. destruct (_ || _); [|done]. cbn [set_durability calls]. by rewrite sync_wal_calls. Qed.

Lemma adds_nothing e e' : calls e' = calls e -> adds e e' [].
Proof. intros E. exists []. by rewrite E, app_nil_r. Qed.

Lemma adds_calls e e' cs : calls e' = calls e ++ cs -> adds e e' (change_calls cs).
Proof. intros E. by exists cs. Qed.

Lemma step_calls e mode key step res ck : adds e (engine_step e (OpStep mode key step res, ck)) [].
Proof.
  destruct mode; cbn [engine_step].
  - unfold engine_complete_step, apply_step. cbv zeta. destruct (pool_with _ key) as [w|].
    + apply (adds_calls _ _ [HalSlabWrite key (Slab.merkle_root (slab w))]). cbn. by rewrite log_event_calls.
    + apply adds_nothing. cbn. apply log_event_calls.
  - unfold complete_step_sync, apply_step. cbv zeta. destruct (pool_with _ key) as [w|].
    + apply (adds_calls _ _ [HalSlabWrite key (Slab.merkle_root (slab w))]). cbn. by rewrite sync_wal_calls, log_event_calls.
    + apply adds_nothing. cbn. by rewrite sync_wal_calls, log_event_calls.
  - unfold complete_step_durable, complete_step_strict, apply_step. cbv zeta. destruct (_ =? 0).
    + destruct (pool_with _ key) as [w|].
      * apply (adds_calls _ _ [HalSlabWrite key (Slab.merkle_root (slab w))]). destruct (direct_execution _); cbn; by rewrite sync_wal_calls, log_event_calls.
      * apply adds_nothing. cbn. by rewrite sync_wal_calls, log_event_calls.
    + destruct (pool_with _ key) as [w|]; [|apply adds_nothing; cbn; apply log_event_calls].
      apply (adds_calls _ _ [HalSlabWrite key (Slab.merkle_root (slab w))]). cbn beta iota. destruct (direct_execution _);
        cbn [next_step_task enqueue_task set_task_queue calls]; rewrite batch_sync_calls;
        cbn [call update_context set_workflows calls]; by rewrite log_event_calls.
Qed.

Lemma start_calls e wid ty ns hash total input ck :
  adds e (start_workflow e wid ty ns hash total input ck).1 [ChangeVersions.Register (make_key ns wid)].
Proof.
  unfold start_workflow, start_workflow_with_attrs. cbv zeta. cbn [fst].
  eexists. split; [rewrite log_event_calls; cbn [calls call set_workflows set_task_queue set_visibility record_history set_history
    set_next_run_id enqueue_task]; rewrite <- !app_assoc; reflexivity|done].
Qed.

Lemma close_calls e key ck res :
  adds e (complete_workflow e key res ck) [ChangeVersions.Unregister key] /\
  adds e (fail_workflow e key ck) [ChangeVersions.Unregister key] /\
  adds e (cancel_workflow e key ck) [ChangeVersions.Unregister key] /\
  adds e (terminate_workflow e key ck) [ChangeVersions.Unregister key].
Proof.
  unfold complete_workflow, fail_workflow, cancel_workflow, terminate_workflow, forget. cbv zeta. split_and!; eexists;
    (split; [rewrite archive_calls, log_event_calls; cbn [calls call set_workflows set_visibility change_status record_history set_history
       update_context set_breaker]; rewrite <- !app_assoc; reflexivity|done]).
Qed.

Lemma sys_calls e op :
  match op with Request _ _ _ _ _ _ => True | _ => adds e (sys_engine (sys_step (mkSystem e ChangeVersions.registry_new) op)) (registry_ops op) end.
Proof.
  destruct op as [[o ck]|parent cid ty hash total input ck|key input ck|key ev|]; cbn [sys_step deliver sys_engine]; [..|done].
  - destruct o as [wid ty ns hash total input|mode key step res|key name payload|key res|key|key|key]; cbn [registry_ops].
    + apply start_calls.
    + apply step_calls.
    + apply adds_nothing. cbn [engine_step]. unfold signal_workflow. cbv zeta. destruct (0 <? _); cbn; apply log_event_calls.
    + exact (proj1 (close_calls e key ck res)).
    + exact (proj1 (proj2 (close_calls e key ck None))).
    + exact (proj1 (proj2 (proj2 (close_calls e key ck None)))).
    + exact (proj2 (proj2 (proj2 (close_calls e key ck None)))).
  - unfold start_child_workflow. destruct (start_calls e cid ty (parent >>> 32) hash total input ck) as (cs & Hc & Ho).
    destruct (start_workflow _ _ _ _ _ _ _ _) as [e' child]. cbn [fst] in *. exists (cs ++ [GraphAddChild parent child cid]). split.
    + cbn. by rewrite Hc, app_assoc.
    + unfold change_calls in *. by rewrite omap_app, Ho.
  - apply adds_nothing. unfold continue_as_new. repeat case_match; done.
  - unfold reset_workflow. destruct (pool_with _ key) as [c|]; [|by apply adds_nothing]. case_decide; [|by apply adds_nothing].
    by apply (adds_calls _ _ [ResetPoint key ev]).
Qed.

Lemma deliver_registry s e' ops :
  adds (sys_engine s) e' ops -> change_version_registry (deliver s e') = (ChangeVersions.cv_run (change_version_registry s) ops).1.
Proof. intros (cs & Hc & Ho). unfold deliver. cbn. by rewrite Hc, drop_app_length, Ho. Qed.

Lemma sys_step_registry s op :
  change_version_registry (sys_step s op) = (ChangeVersions.cv_run (change_version_registry s) (registry_ops op)).1.
Proof.
  pose proof (sys_calls (sys_engine s) op) as Hc. destruct op; [by apply deliver_registry..|].
  cbn. unfold engine_get_version. by destruct (ChangeVersions.get_version _ _ _ _ _ _ _).
Qed.

Lemma cv_run_app ops1 ops2 : forall r,
  (ChangeVersions.cv_run r (ops1 ++ ops2)).1 = (ChangeVersions.cv_run (ChangeVersions.cv_run r ops1).1 ops2).1.
Proof.
  induction ops1 as [|op ops1 IH]; intros r; [done|]. cbn. destruct (ChangeVersions.cv_step r op) as [r' o]. specialize (IH r').
  destruct (ChangeVersions.cv_run r' (ops1 ++ ops2)), (ChangeVersions.cv_run r' ops1). exact IH.
Qed.

Lemma sys_run_registry ops : forall s,
  change_version_registry (sys_run s ops) = (ChangeVersions.cv_run (change_version_registry s) (flat_map registry_ops ops)).1.
Proof.
  induction ops as [|op ops IH]; intros s; [done|]. cbn [sys_run foldl flat_map]. rewrite cv_run_app, <- sys_step_registry. apply IH.
Qed.

(** The workflow is not closed. *)
Definition leaves_open (key : Z) (op : sys_op) : Prop :=
  match op with
  | Life (OpComplete k _, _) | Life (OpFail k, _) | Life (OpCancel k, _) | Life (OpTerminate k, _) => k <> key
  | _ => True
  end.

Lemma open_keeps key c ops : Forall (leaves_open key) ops -> Forall (ChangeVersions.keeps key c) (flat_map registry_ops ops).
Proof.
  induction 1 as [|op ops Ho _ IH]; [done|]. cbn. apply Forall_app. split; [|done].
  destruct op as [[[] ck]| | | |]; repeat constructor; done.
Qed.

Lemma request_registry s key c lo hi rep ck :
  (engine_get_version s key c lo hi rep ck).2 = (ChangeVersions.get_version (wall ck) (change_version_registry s) key c lo hi rep).2 /\
  change_version_registry (engine_get_version s key c lo hi rep ck).1 =
    (ChangeVersions.get_version (wall ck) (change_version_registry s) key c lo hi rep).1.
Proof. unfold engine_get_version. by destruct (ChangeVersions.get_version _ _ _ _ _ _ _). Qed.

(** C5. In every run of the engine (starts, steps, signals, closings, children, new runs and resets of any
    workflows, with requests for versions between them), a workflow that was once given a version of a change gets the same
    version whenever it asks again before it is closed, or is told that the version it has is not one it supports. *)
Theorem engine_versions_stable (d : disk) (max_size : Z) (ck0 ck ck' : clock) (ops1 ops2 : list sys_op) (key : Z) (c : string)
  (lo hi lo' hi' v : Z) (rep rep' : bool)
  (Ha : (engine_get_version (sys_run (sys_new d max_size ck0) ops1) key c lo hi rep ck).2
          ∈ [Ret (ChangeVersions.Decided v); Ret (ChangeVersions.Existing v)])
  (Ho : Forall (leaves_open key) ops2) (Hb : lo' <= hi') :
  let s := sys_run (engine_get_version (sys_run (sys_new d max_size ck0) ops1) key c lo hi rep ck).1 ops2 in
  (engine_get_version s key c lo' hi' rep' ck').2 =
    Ret (if (lo' <=? v) && (v <=? hi') then ChangeVersions.Existing v else ChangeVersions.Incompatible v lo' hi').
Proof.
  intros s. destruct (request_registry (sys_run (sys_new d max_size ck0) ops1) key c lo hi rep ck) as [H1 H2].
  rewrite H1, sys_run_registry in Ha. rewrite sys_run_registry in H2.
  rewrite (proj1 (request_registry s key c lo' hi' rep' ck')). unfold s. rewrite sys_run_registry, H2.
  by apply ChangeVersions.version_decisions_stable; [|apply open_keeps|].
Qed.

(** Closing a workflow forgets its versions. *)
Lemma closing_forgets s key ck :
  ChangeVersions.workflows (change_version_registry (sys_step s (Life (OpFail key, ck)))) !! key = None.
Proof. rewrite sys_step_registry. cbn. by rewrite lookup_delete_eq. Qed.

End versions.

(** *** Witness and limits *)

#[local] Existing Instance example_sha.

Definition started : list sys_op := [Life (OpStart 7 2 0 9 3 None, example_clock)].
Definition busy : list sys_op :=
  [Life (OpStep Plain 7 0 [1], example_clock); Life (OpStart 8 2 0 9 3 None, example_clock);
   Request 8 "label" 0 5 false example_clock; Life (OpComplete 8 None, example_clock); ResetTo 7 0].

Lemma engine_versions_stable_witness :
  let s := (engine_get_version (sys_run (sys_new ∅ 1000 example_clock) started) 7 "label" 0 2 false example_clock).1 in
  (engine_get_version (sys_run (sys_new ∅ 1000 example_clock) started) 7 "label" 0 2 false example_clock).2
    = Ret (ChangeVersions.Decided 2) /\
  (engine_get_version (sys_run s busy) 7 "label" 1 3 true example_clock).2 = Ret (ChangeVersions.Existing 2).
Proof.
  intros s. split; [by vm_compute|].
  refine (engine_versions_stable ∅ 1000 example_clock example_clock example_clock started busy 7 "label" 0 2 1 3 2 false true _ _ _).
  - apply list_elem_of_In. left. by vm_compute.
  - repeat constructor; done.
  - lia.
Defined.

(** Resetting a workflow to its start keeps the versions it was given, although the registry has an operation for it. *)
Lemma engine_reset_keeps_versions :
  let s := sys_run (sys_new ∅ 1000 example_clock) (started ++ [Request 7 "label" 0 2 false example_clock; ResetTo 7 0]) in
  get_status (sys_engine s) 7 = Running /\ ChangeVersions.decided_change_ids (change_version_registry s) 7 = ["label"].
Proof. by vm_compute. Qed.

(** A workflow that continues as a new run is never forgotten, and the new run is not registered. *)
Lemma continued_run_stays_tracked :
  let s := sys_run (sys_new ∅ 1000 example_clock) (started ++ [Continue 7 None example_clock]) in
  let new_key := (continue_as_new (sys_engine (sys_run (sys_new ∅ 1000 example_clock) started)) 7 None example_clock).2 in
  get_status (sys_engine s) 7 = ContinuedAsNew /\ get_status (sys_engine s) new_key = Running /\
  map fst (map_to_list (ChangeVersions.workflows (change_version_registry s))) = [7].
Proof. by vm_compute. Qed.

End EngineVersions.
