(* ===== verification/Reset.v ===== *)
(** * Workflow resets

    [workflow_reset.rs]: reset points, the branches of a history that resets fork, the signals they reapply, and
    resets made by policy.  Clock reads are arguments, and so is the process-wide counter behind the request ids of
    [ResetSpec::new].  Over every run the branches of a workflow form one chain, forked by its successful resets. *)

From S2P Require Import Prelude Text.

Module Reset.

Inductive ResetReason : Type :=
| ManualReset | DeadlockDetection | NonDeterminism | BuildIdChange | TestDebug | Custom (s : chars).

Record HistoryBranch : Type := mkBranch {
  branch_id : Z;
  parent_branch_id : option Z;
  fork_event_id : Z;
  last_event_id : Z;
  b_created_at_ms : Z;
  is_active : bool;
}.

Definition fork (now : Z) (b : HistoryBranch) (new_branch_id fork_at_event_id : Z) : HistoryBranch :=
  mkBranch new_branch_id (Some (branch_id b)) fork_at_event_id fork_at_event_id now false.

Record ResetPoint : Type := mkPoint {
  p_workflow_key : Z;
  p_reset_to_event_id : Z;
  p_reset_id : Z;
  p_reason : ResetReason;
  p_branch_id : Z;
  p_created_at_ms : Z;
  p_new_run_id : option Z;
}.

Record ResetSpec : Type := mkSpec {
  workflow_key : Z;
  reset_to_event_id : Z;
  reason : ResetReason;
  reapply : bool;
  signal_ids_to_reapply : gset Z;
  target_build_id : option chars;
  request_id : chars;
}.

(** [n] is the value of the process-wide counter. *)
Definition reset_spec_new (n key event_id : Z) (why : ResetReason) : ResetSpec :=
  mkSpec key event_id why true ∅ None (of_string "reset-" ++ print_int n).

Record ResetResult : Type := mkResult {
  reset_id : Z;
  new_run_id : Z;
  new_branch_id : Z;
  events_truncated : Z;
  signals_reapplied : Z;
  success : bool;
  error : option string;
}.

Record PendingSignal : Type := mkSignal {
  signal_id : Z;
  signal_name : chars;
  s_input : bytes;
  event_id : Z;
  reapplied : bool;
}.

Record LastFailureResetPolicy : Type := mkPolicy {
  enabled : bool;
  max_auto_resets : Z;
  l_reason : ResetReason;
}.

Definition policy_disabled : LastFailureResetPolicy := mkPolicy false 0 ManualReset.
Definition policy_enabled (max_resets : Z) : LastFailureResetPolicy := mkPolicy true max_resets DeadlockDetection.

Record WorkflowResetter : Type := mkResetter {
  reset_points : gmap Z (list ResetPoint);
  branches : gmap Z (list HistoryBranch);
  pending_signals : gmap Z (list PendingSignal);
  auto_reset_policies : gmap Z LastFailureResetPolicy;
  reset_results : list ResetResult;
  processed_requests : gset chars;
  next_reset_id : Z;
  next_branch_id : Z;
  next_run_id : Z;
  total_resets : Z;
  total_signals_reapplied : Z;
  total_auto_resets : Z;
}.

Definition resetter_new : WorkflowResetter := mkResetter ∅ ∅ ∅ ∅ [] ∅ 1 100 1000 0 0 0.

Definition create_reset_point (now : Z) (s : WorkflowResetter) (key ev : Z) (why : ResetReason) : WorkflowResetter * Z :=
  let id := next_reset_id s in
  (mkResetter (<[key := default [] (reset_points s !! key) ++ [mkPoint key ev id why 1 now None]]> (reset_points s)) (branches s)
     (pending_signals s) (auto_reset_policies s) (reset_results s) (processed_requests s) (wrap 64 (id + 1)) (next_branch_id s)
     (next_run_id s) (total_resets s) (total_signals_reapplied s) (total_auto_resets s), id).

Definition get_latest_reset (s : WorkflowResetter) (key : Z) : option ResetPoint := ps ← reset_points s !! key; last ps.

(** The branches after a reset: a fork of the active one, or a new root. *)
Definition fork_branches (now : Z) (bs : list HistoryBranch) (new_id ev : Z) : list HistoryBranch :=
  match List.find is_active bs with
  | Some active =>
      map (fun b => mkBranch (branch_id b) (parent_branch_id b) (fork_event_id b) (last_event_id b) (b_created_at_ms b)
                      (branch_id b =? new_id)) (bs ++ [fork now active new_id ev])
  | None => bs ++ [mkBranch new_id None ev ev now true]
  end.

Definition selected (ev : Z) (ids : gset Z) (g : PendingSignal) : bool :=
  (ev <? event_id g) && (bool_decide (ids = ∅) || bool_decide (signal_id g ∈ ids)).

Definition reapply_signals (s : gmap Z (list PendingSignal)) (key ev : Z) (ids : gset Z) : gmap Z (list PendingSignal) * Z :=
  match s !! key with
  | Some pending =>
      (<[key := map (fun g => if selected ev ids g then mkSignal (signal_id g) (signal_name g) (s_input g) (event_id g) true else g) pending]> s,
       Z.of_nat (length (List.filter (selected ev ids) pending)))
  | None => (s, 0)
  end.

Definition failed (msg : string) : ResetResult := mkResult 0 0 0 0 0 false (Some msg).

Definition execute_reset (now : Z) (s : WorkflowResetter) (spec : ResetSpec) (current_last : Z) : WorkflowResetter * ResetResult :=
  if bool_decide (request_id spec ∈ processed_requests s) then (s, failed "duplicate request")
  else
    let processed := {[request_id spec]} ∪ processed_requests s in
    if current_last <=? reset_to_event_id spec then
      (mkResetter (reset_points s) (branches s) (pending_signals s) (auto_reset_policies s) (reset_results s) processed
         (next_reset_id s) (next_branch_id s) (next_run_id s) (total_resets s) (total_signals_reapplied s) (total_auto_resets s),
       failed "reset_to_event_id must be less than current last event ID")
    else
      let key := workflow_key spec in
      let ev := reset_to_event_id spec in
      let id := next_reset_id s in
      let branch := next_branch_id s in
      let run := next_run_id s in
      let '(signals, count) := if reapply spec then reapply_signals (pending_signals s) key ev (signal_ids_to_reapply spec)
                               else (pending_signals s, 0) in
      let res := mkResult id run branch (Z.max 0 (current_last - ev)) count true None in
      (mkResetter
         (<[key := default [] (reset_points s !! key) ++ [mkPoint key ev id (reason spec) branch now (Some run)]]> (reset_points s))
         (<[key := fork_branches now (default [] (branches s !! key)) branch ev]> (branches s))
         signals (auto_reset_policies s) (reset_results s ++ [res]) processed (wrap 64 (id + 1)) (wrap 64 (branch + 1))
         (wrap 64 (run + 1)) (wrap 64 (total_resets s + 1)) (wrap 64 (total_signals_reapplied s + count)) (total_auto_resets s), res).

Definition register_pending_signal (s : WorkflowResetter) (key : Z) (g : PendingSignal) : WorkflowResetter :=
  mkResetter (reset_points s) (branches s) (<[key := default [] (pending_signals s !! key) ++ [g]]> (pending_signals s))
    (auto_reset_policies s) (reset_results s) (processed_requests s) (next_reset_id s) (next_branch_id s) (next_run_id s)
    (total_resets s) (total_signals_reapplied s) (total_auto_resets s).

Definition unapplied_signal_count (s : WorkflowResetter) (key : Z) : nat :=
  match pending_signals s !! key with Some gs => length (List.filter (fun g => negb (reapplied g)) gs) | None => 0 end.

Definition get_active_branch (s : WorkflowResetter) (key : Z) : option HistoryBranch :=
  bs ← branches s !! key; List.find is_active bs.

Definition set_auto_reset_policy (s : WorkflowResetter) (type_id : Z) (p : LastFailureResetPolicy) : WorkflowResetter :=
  mkResetter (reset_points s) (branches s) (pending_signals s) (<[type_id := p]> (auto_reset_policies s)) (reset_results s)
    (processed_requests s) (next_reset_id s) (next_branch_id s) (next_run_id s) (total_resets s) (total_signals_reapplied s)
    (total_auto_resets s).

Definition get_auto_reset_policy (s : WorkflowResetter) (type_id : Z) : LastFailureResetPolicy :=
  default policy_disabled (auto_reset_policies s !! type_id).

Definition count_auto (s : WorkflowResetter) : WorkflowResetter :=
  mkResetter (reset_points s) (branches s) (pending_signals s) (auto_reset_policies s) (reset_results s) (processed_requests s)
    (next_reset_id s) (next_branch_id s) (next_run_id s) (total_resets s) (total_signals_reapplied s) (wrap 64 (total_auto_resets s + 1)).

(** [n] is the counter of [ResetSpec::new]. *)
Definition maybe_auto_reset (now n : Z) (s : WorkflowResetter) (key type_id current_last : Z) : WorkflowResetter * option (ResetSpec * ResetResult) :=
  let policy := get_auto_reset_policy s type_id in
  if negb (enabled policy) then (s, None)
  else
    let count := wrap 32 (Z.of_nat (length (List.filter (fun r => success r && (0 <? new_run_id r)) (reset_results s)))) in
    if max_auto_resets policy <=? count then (s, None)
    else
      let spec := reset_spec_new n key 1 (l_reason policy) in
      let '(s', res) := execute_reset now s spec current_last in
      (if success res then count_auto s' else s', Some (spec, res)).

(** *** Runs *)

Inductive reset_op : Type :=
| Mark (key ev : Z) (why : ResetReason)
| Execute (spec : ResetSpec) (current_last : Z)
| Pend (key : Z) (g : PendingSignal)
| SetPolicy (type_id : Z) (p : LastFailureResetPolicy)
| Auto (n key type_id current_last : Z).

(** A step, with the reset it carried out if it carried one out, at time [now]. *)
Definition reset_step (s : WorkflowResetter) (p : Z * reset_op) : WorkflowResetter * list (ResetSpec * Z * ResetResult) :=
  match p.2 with
  | Mark key ev why => ((create_reset_point p.1 s key ev why).1, [])
  | Execute spec current_last => let '(s', res) := execute_reset p.1 s spec current_last in (s', [(spec, current_last, res)])
  | Pend key g => (register_pending_signal s key g, [])
  | SetPolicy type_id pol => (set_auto_reset_policy s type_id pol, [])
  | Auto n key type_id current_last =>
      match maybe_auto_reset p.1 n s key type_id current_last with
      | (s', Some (spec, res)) => (s', [(spec, current_last, res)])
      | (s', None) => (s', [])
      end
  end.

Fixpoint reset_run (s : WorkflowResetter) (ops : list (Z * reset_op)) : WorkflowResetter * list (ResetSpec * Z * ResetResult) :=
  match ops with
  | [] => (s, [])
  | p :: ops => let '(s', t) := reset_step s p in let '(s'', ts) := reset_run s' ops in (s'', t ++ ts)
  end.

(** The successful resets of a trace. *)
Definition done_resets (t : list (ResetSpec * Z * ResetResult)) : list (ResetSpec * Z * ResetResult) :=
  List.filter (fun x => success x.2) t.

Definition resets_of (key : Z) (t : list (ResetSpec * Z * ResetResult)) : list (ResetSpec * Z * ResetResult) :=
  List.filter (fun x => workflow_key x.1.1 =? key) t.

(** What a branch says, without its creation time. *)
Definition view (b : HistoryBranch) : Z * option Z * Z * Z * bool :=
  (branch_id b, parent_branch_id b, fork_event_id b, last_event_id b, is_active b).

(** The chain of branches the resets [t] fork, under [parent]. *)
Fixpoint chain (parent : option Z) (t : list (ResetSpec * Z * ResetResult)) : list (Z * option Z * Z * Z * bool) :=
  match t with
  | [] => []
  | x :: t =>
      let id := new_branch_id x.2 in
      let ev := reset_to_event_id x.1.1 in
      (id, parent, ev, ev, bool_decide (t = [])) :: chain (Some id) t
  end.

(** *** The chain *)

Definition off (v : Z * option Z * Z * Z * bool) : Z * option Z * Z * Z * bool := (v.1, false).

Lemma chain_snoc t x : forall parent,
  chain parent (t ++ [x]) =
    map off (chain parent t) ++
    [(new_branch_id x.2, match last t with Some y => Some (new_branch_id y.2) | None => parent end,
      reset_to_event_id x.1.1, reset_to_event_id x.1.1, true)].
Proof.
  induction t as [|y t IH]; intros parent; [done|]. cbn [app chain map]. rewrite IH. f_equal; [|f_equal].
  - by destruct t.
  - destruct t as [|z t]; [done|]. cbn. by destruct (last (z :: t)) eqn:E; [|apply last_None in E].
Qed.

(** The active branch is the last one. *)
Lemma chain_active t : forall parent bs,
  map view bs = chain parent t ->
  match List.find is_active bs with
  | Some b => exists x, last t = Some x /\ branch_id b = new_branch_id x.2
  | None => t = []
  end.
Proof.
  induction t as [|x t IH]; intros parent bs E; [by apply map_eq_nil in E as ->|].
  destruct bs as [|b bs]; [done|]. cbn in E. injection E as E1 E2 E3 E4 E5 E6. cbn [List.find]. rewrite E5.
  destruct t as [|y t]; cbn -[last].
  - exists x. split; [done|]. exact E1.
  - specialize (IH _ _ E6). destruct (List.find is_active bs); [|done]. destruct IH as (z & Hz & Hb). exists z. by split.
Qed.

Lemma chain_ids t : forall parent, map (fun v => v.1.1.1.1) (chain parent t) = map (fun x => new_branch_id x.2) t.
Proof. induction t as [|x t IH]; intros parent; cbn; [done|]. by rewrite IH. Qed.

(** Forking with a fresh id extends the chain. *)
Lemma fork_extends now bs t x :
  map view bs = chain None t -> new_branch_id x.2 ∉ map (fun y => new_branch_id y.2) t ->
  map view (fork_branches now bs (new_branch_id x.2) (reset_to_event_id x.1.1)) = chain None (t ++ [x]).
Proof.
  intros E Hf. rewrite chain_snoc. pose proof (chain_active _ _ _ E) as Ha. unfold fork_branches. destruct (List.find is_active bs) as [b|].
  - destruct Ha as (y & Hl & Hb). rewrite Hl, map_map, map_app. f_equal; [|cbn; unfold view; cbn; by rewrite Hb, Z.eqb_refl].
    rewrite <- E, map_map. apply map_ext_in. intros a Ha. unfold view, off. cbn. do 2 f_equal. apply Z.eqb_neq. intros Hid.
    apply Hf. rewrite <- (chain_ids t None), <- E, <- Hid, map_map. apply list_elem_of_In. by apply (in_map (fun b => (view b).1.1.1.1)).
  - subst t. apply map_eq_nil in E as ->. done.
Qed.

(** *** The invariant *)

Record reset_inv (t : list (ResetSpec * Z * ResetResult)) (s : WorkflowResetter) : Prop := mkInv {
  i_chain : forall key, map view (default [] (branches s !! key)) = chain None (resets_of key (done_resets t));
  i_requests : NoDup (map (fun x => request_id x.1.1) (done_resets t)) /\
               forall x, x ∈ done_resets t -> request_id x.1.1 ∈ processed_requests s;
  i_ids : map (fun x => new_branch_id x.2) (done_resets t) = seqZ 100 (Z.of_nat (length (done_resets t))) /\
          map (fun x => new_run_id x.2) (done_resets t) = seqZ 1000 (Z.of_nat (length (done_resets t)));
  i_next : next_branch_id s = 100 + Z.of_nat (length (done_resets t)) /\ next_run_id s = 1000 + Z.of_nat (length (done_resets t));
  i_results : reset_results s = map snd (done_resets t) /\ total_resets s = Z.of_nat (length (done_resets t));
  i_events : forall x, x ∈ done_resets t -> events_truncated x.2 = x.1.2 - reset_to_event_id x.1.1 /\ reset_to_event_id x.1.1 < x.1.2;
}.

Lemma done_snoc t x : done_resets (t ++ [x]) = if success x.2 then done_resets t ++ [x] else done_resets t.
Proof. unfold done_resets. rewrite List.filter_app. cbn. destruct (success x.2); by rewrite ?app_nil_r. Qed.

Lemma resets_snoc key t x : resets_of key (t ++ [x]) = if workflow_key x.1.1 =? key then resets_of key t ++ [x] else resets_of key t.
Proof. unfold resets_of. rewrite List.filter_app. cbn. destruct (workflow_key x.1.1 =? key); by rewrite ?app_nil_r. Qed.

Lemma fresh_branch (t : list (ResetSpec * Z * ResetResult)) key :
  map (fun x => new_branch_id x.2) t = seqZ 100 (Z.of_nat (length t)) ->
  100 + Z.of_nat (length t) ∉ map (fun x => new_branch_id x.2) (resets_of key t).
Proof.
  intros E Hi. apply list_elem_of_In, in_map_iff in Hi as (x & Hx & Hin). apply List.filter_In in Hin as [Hin _].
  assert (Hm : 100 + Z.of_nat (length t) ∈ seqZ 100 (Z.of_nat (length t))).
  { rewrite <- E, <- Hx. apply list_elem_of_In. by apply (in_map (fun x => new_branch_id x.2)). }
  apply elem_of_seqZ in Hm. lia.
Qed.

Lemma seqZ_snoc (t : list (ResetSpec * Z * ResetResult)) x n :
  seqZ n (Z.of_nat (length (t ++ [x]))) = seqZ n (Z.of_nat (length t)) ++ [n + Z.of_nat (length t)].
Proof. rewrite length_app, Nat2Z.inj_add, seqZ_app by lia. done. Qed.

Lemma execute_inv now t s spec current_last :
  reset_inv t s -> Z.of_nat (length (done_resets t)) + 1001 < 2 ^ 64 ->
  let '(s', res) := execute_reset now s spec current_last in reset_inv (t ++ [(spec, current_last, res)]) s'.
Proof.
  intros [I1 [I2 I2'] [I3 I3'] [I4 I4'] [I5 I5'] I6] Hb. unfold execute_reset. case_bool_decide as Hp.
  { constructor; rewrite done_snoc; cbn; done. }
  destruct (Z.leb_spec current_last (reset_to_event_id spec)) as [Hle|Hlt].
  { constructor; rewrite ?done_snoc; cbn; try done. split; [done|]. intros x Hx. set_solver. }
  destruct (if reapply spec then _ else _) as [signals count].
  set (x := (spec, current_last, mkResult _ _ _ _ _ _ _)).
  assert (Hw : forall n, 0 <= n <= 1001 -> wrap 64 (n + Z.of_nat (length (done_resets t))) = n + Z.of_nat (length (done_resets t)))
    by (intros n Hn; apply wrap_id; unfold fits; lia).
  constructor; rewrite ?done_snoc; cbn [success snd x branches processed_requests next_branch_id next_run_id reset_results total_resets].
  - intros key. rewrite resets_snoc. cbn [fst x]. destruct (Z.eqb_spec (workflow_key spec) key) as [<-|Hne].
    + rewrite lookup_insert_eq. cbn [default]. apply (fork_extends now _ _ x); [apply I1|]. cbn. rewrite I4. by apply fresh_branch.
    + by rewrite lookup_insert_ne.
  - rewrite map_app. split.
    + apply NoDup_app. split_and!; [done| |apply NoDup_singleton]. intros r Hr E. apply list_elem_of_singleton in E as ->.
      apply list_elem_of_In, in_map_iff in Hr as (y & Hy & Hin). cbn in Hy. apply Hp. rewrite <- Hy. apply I2'. by apply list_elem_of_In.
    + intros y [Hy| ->%list_elem_of_singleton]%elem_of_app; [|cbn; set_solver]. specialize (I2' y Hy). set_solver.
  - rewrite !map_app, !seqZ_snoc, I3, I3'. cbn. by rewrite I4, I4'.
  - rewrite length_app, I4, I4'. cbn. replace (100 + Z.of_nat (length (done_resets t)) + 1) with (101 + Z.of_nat (length (done_resets t))) by lia.
    replace (1000 + Z.of_nat (length (done_resets t)) + 1) with (1001 + Z.of_nat (length (done_resets t))) by lia. rewrite !Hw by lia. lia.
  - rewrite map_app, length_app, I5, I5'. cbn. split; [done|]. rewrite Z.add_comm, Hw by lia. lia.
  - intros y [Hy| ->%list_elem_of_singleton]%elem_of_app; [by apply I6|]. cbn. lia.
Qed.

Lemma reset_step_inv t s p :
  reset_inv t s -> Z.of_nat (length (done_resets t)) + 1001 < 2 ^ 64 ->
  reset_inv (t ++ (reset_step s p).2) (reset_step s p).1 /\ (length (done_resets (t ++ (reset_step s p).2)) <= S (length (done_resets t)))%nat.
Proof.
  intros I Hb. assert (Hone : forall x, (length (done_resets (t ++ [x])) <= S (length (done_resets t)))%nat).
  { intros x. rewrite done_snoc. destruct (success x.2); rewrite ?length_app; cbn; lia. }
  destruct p as [now [key ev why|spec cl|key g|ty pol|n key ty cl]]; cbn [reset_step fst snd].
  - rewrite app_nil_r. split; [by destruct I; constructor|lia].
  - pose proof (execute_inv now t s spec cl I Hb) as He. destruct (execute_reset now s spec cl) as [s' res]. split; [exact He|apply Hone].
  - rewrite app_nil_r. split; [by destruct I; constructor|lia].
  - rewrite app_nil_r. split; [by destruct I; constructor|lia].
  - unfold maybe_auto_reset. destruct (negb _); [rewrite app_nil_r; split; [done|lia]|].
    destruct (_ <=? _); [rewrite app_nil_r; split; [done|lia]|].
    set (spec := reset_spec_new _ _ _ _). pose proof (execute_inv now t s spec cl I Hb) as He.
    destruct (execute_reset now s spec cl) as [s' res]. cbn [fst snd]. split; [|apply Hone].
    destruct (success res); [|exact He]. by destruct He; constructor.
Qed.

Lemma reset_run_inv ops : forall t s,
  reset_inv t s -> Z.of_nat (length (done_resets t)) + Z.of_nat (length ops) + 1001 < 2 ^ 64 ->
  reset_inv (t ++ (reset_run s ops).2) (reset_run s ops).1.
Proof.
  induction ops as [|p ops IH]; intros t s I Hb; cbn [reset_run]; [by rewrite app_nil_r|]. cbn [length] in Hb.
  destruct (reset_step_inv t s p I ltac:(lia)) as [I' Hl]. destruct (reset_step s p) as [s' u]. cbn [fst snd] in *.
  specialize (IH _ _ I' ltac:(lia)). destruct (reset_run s' ops) as [s'' us]. cbn [fst snd] in *. by rewrite app_assoc.
Qed.

Lemma resetter_new_inv : reset_inv [] resetter_new.
Proof.
  constructor; cbn; try done.
  - split; [constructor|]. intros x Hx. by apply elem_of_nil in Hx.
  - intros x Hx. by apply elem_of_nil in Hx.
Qed.

(** C29. Over every run of reset points, resets, pending signals, policies and automatic resets: the branches of each
    workflow are one chain, in which every successful reset of that workflow forked its own branch from the one before it at the
    event it reset to, and only the last one is active; branches and runs have numbers of their own, every request is carried
    out at most once, the recorded results are those of the successful resets in order, and each counts as truncated exactly
    the events after the one it reset to. *)
Theorem resets_form_chains (ops : list (Z * reset_op)) (Hb : Z.of_nat (length ops) + 1001 < 2 ^ 64) :
  let '(s, t) := reset_run resetter_new ops in
  let resets := done_resets t in
  (forall key, map view (default [] (branches s !! key)) = chain None (resets_of key resets)) /\
  map (fun x => new_branch_id x.2) resets = seqZ 100 (Z.of_nat (length resets)) /\
  map (fun x => new_run_id x.2) resets = seqZ 1000 (Z.of_nat (length resets)) /\
  NoDup (map (fun x => request_id x.1.1) resets) /\
  reset_results s = map snd resets /\ total_resets s = Z.of_nat (length resets) /\
  forall x, x ∈ resets -> events_truncated x.2 = x.1.2 - reset_to_event_id x.1.1 /\ reset_to_event_id x.1.1 < x.1.2.
Proof.
  pose proof (reset_run_inv ops [] _ resetter_new_inv ltac:(cbn; lia)) as I. destruct (reset_run resetter_new ops) as [s t].
  destruct I as [I1 [I2 _] [I3 I3'] _ [I5 I5'] I6]. by split_and!.
Qed.

Definition demo_spec (n key ev : Z) : ResetSpec := mkSpec key ev ManualReset true ∅ None (of_string "r" ++ print_int n).
Definition demo_signal (n ev : Z) : PendingSignal := mkSignal n [] [] ev false.
Definition demo_resets : list (Z * reset_op) :=
  [(1, Pend 7 (demo_signal 1 4)); (2, Execute (demo_spec 1 7 3) 9); (3, Execute (demo_spec 1 7 2) 9); (4, Execute (demo_spec 2 8 5) 5);
   (5, SetPolicy 1 (policy_enabled 3)); (6, Auto 1 7 1 9); (7, Execute (demo_spec 3 8 1) 6)].

Lemma resets_form_chains_witness :
  let '(s, t) := reset_run resetter_new demo_resets in
  map (fun x => success x.2) t = [true; false; false; true; true] /\
  map view (default [] (branches s !! 7)) = [(100, None, 3, 3, false); (101, Some 100, 1, 1, true)] /\
  map view (default [] (branches s !! 7)) = chain None (resets_of 7 (done_resets t)).
Proof.
  pose proof (resets_form_chains demo_resets eq_refl) as Ht.
  assert (E : map (fun x => success x.2) (reset_run resetter_new demo_resets).2 = [true; false; false; true; true] /\
    map view (default [] (branches (reset_run resetter_new demo_resets).1 !! 7)) = [(100, None, 3, 3, false); (101, Some 100, 1, 1, true)])
    by (split; vm_compute; reflexivity).
  revert Ht E. destruct (reset_run resetter_new demo_resets) as [s t]. intros Ht [E1 E2]. split; [exact E1|]. split; [exact E2|]. apply Ht.
Defined.

(** *** Automatic resets *)

Lemma execute_auto now s spec cl :
  let '(s', res) := execute_reset now s spec cl in
  total_auto_resets s' = total_auto_resets s /\ auto_reset_policies s' = auto_reset_policies s /\
  (length (reset_results s') = length (reset_results s) + (if success res then 1 else 0))%nat.
Proof.
  unfold execute_reset. repeat case_match; simplify_eq/=; rewrite ?length_app; cbn; split_and!; try done; lia.
Qed.

(** All results kept are of successful resets with a run id. *)
Definition good_results (s : WorkflowResetter) : Prop :=
  Forall (fun r => success r && (0 <? new_run_id r) = true) (reset_results s).

Lemma run_results ops : Z.of_nat (length ops) + 1001 < 2 ^ 64 -> good_results (reset_run resetter_new ops).1.
Proof.
  intros Hb. pose proof (reset_run_inv ops [] _ resetter_new_inv ltac:(cbn; lia)) as I. destruct I as [_ _ [_ I3] _ [I5 _] _].
  unfold good_results. rewrite I5. cbn [app] in *. apply Forall_map, Forall_forall. intros x Hx.
  assert (Hs : success x.2 = true) by (apply list_elem_of_In, List.filter_In in Hx; apply Hx).
  assert (Hr : new_run_id x.2 ∈ map (fun x => new_run_id x.2) (done_resets (reset_run resetter_new ops).2)).
  { apply list_elem_of_In. apply (in_map (fun x => new_run_id x.2)). by apply list_elem_of_In. }
  rewrite I3 in Hr. apply elem_of_seqZ in Hr. rewrite Hs. cbn. apply Z.ltb_lt. lia.
Qed.

Lemma filter_all {A} (f : A -> bool) l : Forall (fun x => f x = true) l -> List.filter f l = l.
Proof. induction 1 as [|x l Hx _ IH]; cbn; [done|]. by rewrite Hx, IH. Qed.

Definition policies_below (m : Z) (ops : list (Z * reset_op)) : Prop :=
  Forall (fun p => match p.2 with SetPolicy _ pol => max_auto_resets pol <= m | _ => True end) ops.

Record auto_inv (m : Z) (s : WorkflowResetter) : Prop := mkAuto {
  a_policies : map_Forall (fun _ pol => max_auto_resets pol <= m) (auto_reset_policies s);
  a_bound : 0 <= total_auto_resets s <= Z.min m (Z.of_nat (length (reset_results s)));
}.

Lemma auto_step m s p :
  0 <= m -> auto_inv m s -> good_results s -> Z.of_nat (length (reset_results s)) + 1 < 2 ^ 32 ->
  (match p.2 with SetPolicy _ pol => max_auto_resets pol <= m | _ => True end) -> auto_inv m (reset_step s p).1.
Proof.
  intros Hm [A1 A2] Hg Hb Hp. destruct p as [now [key ev why|spec cl|key g|ty pol|n key ty cl]]; cbn [reset_step fst snd] in *.
  - by constructor.
  - pose proof (execute_auto now s spec cl) as He. destruct (execute_reset now s spec cl) as [s' res]. destruct He as (E1 & E2 & E3).
    constructor; cbn [fst]; rewrite ?E1, ?E2, ?E3; [done|]. destruct (success res); lia.
  - by constructor.
  - constructor; [|done]. by apply map_Forall_insert_2.
  - unfold maybe_auto_reset. destruct (negb _) eqn:En; [by constructor|]. rewrite (filter_all _ _ Hg), wrap_id by (unfold fits; lia).
    destruct (Z.leb_spec (max_auto_resets (get_auto_reset_policy s ty)) (Z.of_nat (length (reset_results s)))) as [|Hlt]; [by constructor|].
    set (spec := reset_spec_new _ _ _ _). pose proof (execute_auto now s spec cl) as He. destruct (execute_reset now s spec cl) as [s' res].
    destruct He as (E1 & E2 & E3).
    assert (Hmax : max_auto_resets (get_auto_reset_policy s ty) <= m).
    { unfold get_auto_reset_policy. destruct (auto_reset_policies s !! ty) as [pol|] eqn:Ep; [by apply (A1 ty)|done]. }
    destruct (success res); constructor; cbn; rewrite ?E1, ?E2, ?E3; try done; rewrite ?wrap_id by (unfold fits; lia); lia.
Qed.

Lemma reset_run_snoc ops p : forall s, (reset_run s (ops ++ [p])).1 = (reset_step (reset_run s ops).1 p).1.
Proof.
  induction ops as [|q ops IH]; intros s; cbn [app reset_run]; [cbn [fst]; by destruct (reset_step s p)|].
  destruct (reset_step s q) as [s' t]. specialize (IH s'). destruct (reset_run s' (ops ++ [p])), (reset_run s' ops). exact IH.
Qed.

Lemma step_results s p : (length (reset_results (reset_step s p).1) <= S (length (reset_results s)))%nat.
Proof.
  destruct p as [now [key ev why|spec cl|key g|ty pol|n key ty cl]]; cbn [reset_step fst snd]; try (cbn; lia).
  - pose proof (execute_auto now s spec cl) as He. destruct (execute_reset now s spec cl) as [s' res]. destruct He as (_ & _ & E). cbn.
    destruct (success res); lia.
  - unfold maybe_auto_reset. destruct (negb _); [cbn; lia|]. destruct (_ <=? _); [cbn; lia|]. set (spec := reset_spec_new _ _ _ _).
    pose proof (execute_auto now s spec cl) as He. destruct (execute_reset now s spec cl) as [s' res]. destruct He as (_ & _ & E).
    destruct (success res); cbn; lia.
Qed.

Lemma auto_run m ops :
  0 <= m -> policies_below m ops -> Z.of_nat (length ops) + 1001 < 2 ^ 32 ->
  auto_inv m (reset_run resetter_new ops).1 /\ (length (reset_results (reset_run resetter_new ops).1) <= length ops)%nat.
Proof.
  intros Hm Hp Hb. induction ops as [|p ops IH] using rev_ind.
  - split; [|done]. constructor; cbn; [apply map_Forall_empty|lia].
  - apply Forall_app in Hp as [Hp Hop]. inversion_clear Hop as [|? ? Ho _]. rewrite length_app in *. cbn [length] in *.
    destruct (IH Hp ltac:(lia)) as [Ha Hl]. rewrite reset_run_snoc. split; [|pose proof (step_results (reset_run resetter_new ops).1 p); lia].
    apply auto_step; [done|done|apply run_results; lia|lia|done].
Qed.

(** If no policy allows more than [m] automatic resets, no run makes more than [m] of them, over all workflows
    together. *)
Theorem auto_resets_bounded (m : Z) (ops : list (Z * reset_op))
  (Hm : 0 <= m) (Hp : policies_below m ops) (Hb : Z.of_nat (length ops) + 1001 < 2 ^ 32) :
  total_auto_resets (reset_run resetter_new ops).1 <= m.
Proof. destruct (auto_run m ops Hm Hp Hb) as [[_ Ha] _]. lia. Qed.

Lemma auto_resets_bounded_witness : total_auto_resets (reset_run resetter_new demo_resets).1 = 1 /\ total_auto_resets (reset_run resetter_new demo_resets).1 <= 3.
Proof.
  split; [by vm_compute|]. apply (auto_resets_bounded 3 demo_resets); [lia| |by vm_compute].
  repeat constructor; cbn; lia.
Defined.

(** *** Limits *)

(** A request that was refused is used up: the corrected request under the same id is taken for a duplicate. *)
Lemma refused_request_is_used_up :
  map (fun x => error x.2) (reset_run resetter_new [(1, Execute (demo_spec 1 7 9) 9); (2, Execute (demo_spec 1 7 3) 9)]).2 =
    [Some "reset_to_event_id must be less than current last event ID"; Some "duplicate request"].
Proof. by vm_compute. Qed.

(** A signal that was reapplied is reapplied and counted again by the next reset. *)
Lemma signals_reapplied_again :
  let '(s, t) := reset_run resetter_new [(1, Pend 7 (demo_signal 1 5)); (2, Execute (demo_spec 1 7 3) 9); (3, Execute (demo_spec 2 7 2) 4)] in
  map (fun x => signals_reapplied x.2) t = [1; 1] /\ unapplied_signal_count s 7 = 0%nat.
Proof. by vm_compute. Qed.

(** Resets made by hand, of any workflow, use up the automatic resets of all. *)
Lemma manual_resets_count :
  let '(s, t) := reset_run resetter_new [(1, SetPolicy 1 (policy_enabled 1)); (2, Execute (demo_spec 1 8 3) 9); (3, Auto 1 7 1 9)] in
  length t = 1%nat /\ total_auto_resets s = 0.
Proof. by vm_compute. Qed.

End Reset.
