(* ===== verification/CoreState.v ===== *)
(** * The mutable state of an execution and its commands

    [core_internals.rs], parts 1 to 3 and 6: Module [MState] the state and its operations, Module [Commands] the processing of
    a batch of workflow commands with the tasks it generates, Module [Refresh] the task generator and the task refresher.
    Every clock read is an argument; a command that reads the clock twice gets two readings.  The refresher is shown to
    generate again exactly the tasks whose objects still wait. *)

From S2P Require Import Prelude Context.

Module MState.

Inductive ActivityMutableState : Type :=
| ActNone | ActScheduled | ActStarted | ActCompleted | ActFailed | ActCanceled | ActTimedOut.

Inductive TimerMutableState : Type := TmNone | TmStarted | TmFired | TmCanceled.

Inductive ChildWorkflowMutableState : Type :=
| ChNone | ChInitiated | ChStarted | ChCompleted | ChFailed | ChCanceled | ChTerminated | ChTimedOut.

Inductive ParentClosePolicyKind : Type := PTerminate | PCancel | PAbandon | PRequestCancel | PTerminateIfRunning.

Inductive ExternalRequestType : Type := ReqSignal | ReqCancel.

#[export] Instance activity_state_eq_dec : EqDecision ActivityMutableState.
Proof. solve_decision. Defined.
#[export] Instance timer_state_eq_dec : EqDecision TimerMutableState.
Proof. solve_decision. Defined.
#[export] Instance child_state_eq_dec : EqDecision ChildWorkflowMutableState.
Proof. solve_decision. Defined.

Record ActivityRetryPolicyState : Type := mkRetry {
  max_attempts : Z;
  initial_interval_ms : Z;
  backoff_coefficient : Context.f64;
  max_interval_ms : option Z;
  non_retryable_error_types : list string;
}.

Record ActivityMutableInfo : Type := mkActivity {
  activity_id : Z;
  activity_type : string;
  a_state : ActivityMutableState;
  scheduled_event_id : Z;
  a_started_event_id : Z;
  attempt : Z;
  scheduled_time_ms : Z;
  started_time_ms : option Z;
  scheduled_to_start_timeout_ms : option Z;
  start_to_close_timeout_ms : option Z;
  schedule_to_close_timeout_ms : option Z;
  heartbeat_timeout_ms : option Z;
  last_heartbeat_ms : option Z;
  heartbeat_details : option bytes;
  retry_policy : option ActivityRetryPolicyState;
  a_task_queue : string;
  a_result : option bytes;
  a_failure : option string;
  is_paused : bool;
  a_request_id : string;
}.

Record TimerMutableInfo : Type := mkTimer {
  t_timer_id : Z;
  t_state : TimerMutableState;
  t_started_event_id : Z;
  t_expiry_time_ms : Z;
  t_task_id : Z;
}.

Record ChildWorkflowMutableInfo : Type := mkChild {
  c_workflow_key : Z;
  initiated_event_id : Z;
  c_started_event_id : Z;
  c_state : ChildWorkflowMutableState;
  c_namespace : string;
  c_workflow_type : string;
  parent_close_policy : ParentClosePolicyKind;
  c_result : option bytes;
  c_failure : option string;
}.

Record ExternalRequestInfo : Type := mkRequest {
  r_request_id : string;
  target_workflow_key : Z;
  target_run_id : Z;
  request_type : ExternalRequestType;
  signal_name : option string;
  signal_input : option bytes;
}.

(** The fields that nothing assigns after [new]. *)
Record identity : Type := mkIdentity {
  workflow_key : Z;
  workflow_id : Z;
  run_id : Z;
  workflow_type : string;
  namespace_id : Z;
  task_queue : string;
  start_time_ms : Z;
  execution_time_ms : Z;
  workflow_task_scheduled_event_id : Z;
  workflow_task_started_event_id : Z;
  workflow_task_attempt : Z;
  sticky_task_queue : option string;
  sticky_schedule_to_start_timeout_ms : option Z;
  last_first_event_id : Z;
  workflow_execution_timeout_ms : option Z;
  workflow_run_timeout_ms : option Z;
  workflow_task_timeout_ms : option Z;
  continue_as_new_workflow_type : option string;
  continue_as_new_task_queue : option string;
  history_size_bytes : Z;
}.

(** [status]: 1 running, 2 completed, 3 failed, 4 canceled, 5 terminated, 6 continued as new. *)
Record WorkflowMutableState : Type := mkState {
  ident : identity;
  status : Z;
  close_time_ms : option Z;
  next_event_id : Z;
  activities : gmap Z ActivityMutableInfo;
  timers : gmap Z TimerMutableInfo;
  child_workflows : gmap Z ChildWorkflowMutableInfo;
  signal_request_ids : gset string;
  external_requests : list ExternalRequestInfo;
  search_attributes : gmap string bytes;
  memo : gmap string bytes;
  protocol_messages : gmap string bytes;
  mutation_count : Z;
}.

Definition mutable_new (now key wid run : Z) (ty : string) (ns : Z) (queue : string) : WorkflowMutableState :=
  mkState (mkIdentity key wid run ty ns queue now 0 0 0 0 None None 1 None None None None None 0)
    1 None 1 ∅ ∅ ∅ ∅ [] ∅ ∅ ∅ 0.

(** The attempt as [i32]. *)
Definition calculate_next_delay (p : ActivityRetryPolicyState) (n : Z) : option Z :=
  if max_attempts p <=? n then None
  else
    let delay := Context.f64_mul (Context.u64_as_f64 (initial_interval_ms p)) (Context.powi (backoff_coefficient p) (Context.u32_as_i32 n)) in
    let delay_ms := Context.f64_as_u64 delay in
    Some (match max_interval_ms p with Some m => Z.min delay_ms m | None => delay_ms end).

(** Assignments, each one mutation. *)
Definition mutated (s : WorkflowMutableState) : Z := wrap 64 (mutation_count s + 1).

Definition with_activities (s : WorkflowMutableState) (m : gmap Z ActivityMutableInfo) (n : Z) : WorkflowMutableState :=
  mkState (ident s) (status s) (close_time_ms s) (next_event_id s) m (timers s) (child_workflows s) (signal_request_ids s)
    (external_requests s) (search_attributes s) (memo s) (protocol_messages s) n.
Definition with_timers (s : WorkflowMutableState) (m : gmap Z TimerMutableInfo) (n : Z) : WorkflowMutableState :=
  mkState (ident s) (status s) (close_time_ms s) (next_event_id s) (activities s) m (child_workflows s) (signal_request_ids s)
    (external_requests s) (search_attributes s) (memo s) (protocol_messages s) n.
Definition with_children (s : WorkflowMutableState) (m : gmap Z ChildWorkflowMutableInfo) (n : Z) : WorkflowMutableState :=
  mkState (ident s) (status s) (close_time_ms s) (next_event_id s) (activities s) (timers s) m (signal_request_ids s)
    (external_requests s) (search_attributes s) (memo s) (protocol_messages s) n.
Definition with_requests (s : WorkflowMutableState) (ids : gset string) (rs : list ExternalRequestInfo) (n : Z) : WorkflowMutableState :=
  mkState (ident s) (status s) (close_time_ms s) (next_event_id s) (activities s) (timers s) (child_workflows s) ids rs
    (search_attributes s) (memo s) (protocol_messages s) n.
Definition with_maps (s : WorkflowMutableState) (sa me pm : gmap string bytes) : WorkflowMutableState :=
  mkState (ident s) (status s) (close_time_ms s) (next_event_id s) (activities s) (timers s) (child_workflows s) (signal_request_ids s)
    (external_requests s) sa me pm (mutation_count s).
Definition with_event_id (s : WorkflowMutableState) (n : Z) : WorkflowMutableState :=
  mkState (ident s) (status s) (close_time_ms s) n (activities s) (timers s) (child_workflows s) (signal_request_ids s)
    (external_requests s) (search_attributes s) (memo s) (protocol_messages s) (mutation_count s).
Definition with_status (s : WorkflowMutableState) (st : Z) (close : option Z) (n : Z) : WorkflowMutableState :=
  mkState (ident s) st close (next_event_id s) (activities s) (timers s) (child_workflows s) (signal_request_ids s)
    (external_requests s) (search_attributes s) (memo s) (protocol_messages s) n.

Definition set_activity_state (st : ActivityMutableState) (a : ActivityMutableInfo) : ActivityMutableInfo :=
  mkActivity (activity_id a) (activity_type a) st (scheduled_event_id a) (a_started_event_id a) (attempt a) (scheduled_time_ms a)
    (started_time_ms a) (scheduled_to_start_timeout_ms a) (start_to_close_timeout_ms a) (schedule_to_close_timeout_ms a)
    (heartbeat_timeout_ms a) (last_heartbeat_ms a) (heartbeat_details a) (retry_policy a) (a_task_queue a) (a_result a)
    (a_failure a) (is_paused a) (a_request_id a).
Definition set_heartbeat (now : Z) (d : bytes) (a : ActivityMutableInfo) : ActivityMutableInfo :=
  mkActivity (activity_id a) (activity_type a) (a_state a) (scheduled_event_id a) (a_started_event_id a) (attempt a)
    (scheduled_time_ms a) (started_time_ms a) (scheduled_to_start_timeout_ms a) (start_to_close_timeout_ms a)
    (schedule_to_close_timeout_ms a) (heartbeat_timeout_ms a) (Some now) (Some d) (retry_policy a) (a_task_queue a) (a_result a)
    (a_failure a) (is_paused a) (a_request_id a).
Definition set_timer_state (st : TimerMutableState) (t : TimerMutableInfo) : TimerMutableInfo :=
  mkTimer (t_timer_id t) st (t_started_event_id t) (t_expiry_time_ms t) (t_task_id t).
Definition set_child_state (st : ChildWorkflowMutableState) (c : ChildWorkflowMutableInfo) : ChildWorkflowMutableInfo :=
  mkChild (c_workflow_key c) (initiated_event_id c) (c_started_event_id c) st (c_namespace c) (c_workflow_type c)
    (parent_close_policy c) (c_result c) (c_failure c).

Definition add_activity (s : WorkflowMutableState) (ev : Z) (a : ActivityMutableInfo) : WorkflowMutableState :=
  with_activities s (<[ev := a]> (activities s)) (mutated s).

Definition update_activity_state (s : WorkflowMutableState) (ev : Z) (st : ActivityMutableState) : WorkflowMutableState * bool :=
  match activities s !! ev with
  | Some a => (with_activities s (<[ev := set_activity_state st a]> (activities s)) (mutated s), true)
  | None => (s, false)
  end.

Definition record_activity_heartbeat (now : Z) (s : WorkflowMutableState) (ev : Z) (d : bytes) : WorkflowMutableState * bool :=
  match activities s !! ev with
  | Some a => (with_activities s (<[ev := set_heartbeat now d a]> (activities s)) (mutation_count s), true)
  | None => (s, false)
  end.

(** [values()], in the order [order] of the keys. *)
Definition values {A} (m : gmap Z A) (order : list Z) : list A := omap (fun k => m !! k) order.

Definition is_pending_activity (a : ActivityMutableInfo) : bool :=
  bool_decide (a_state a = ActScheduled) || bool_decide (a_state a = ActStarted).

Definition pending_activities (s : WorkflowMutableState) (order : list Z) : list ActivityMutableInfo :=
  List.filter is_pending_activity (values (activities s) order).

Definition add_timer (s : WorkflowMutableState) (id : Z) (t : TimerMutableInfo) : WorkflowMutableState :=
  with_timers s (<[id := t]> (timers s)) (mutated s).

Definition update_timer (s : WorkflowMutableState) (id : Z) (st : TimerMutableState) : WorkflowMutableState * bool :=
  match timers s !! id with
  | Some t => (with_timers s (<[id := set_timer_state st t]> (timers s)) (mutated s), true)
  | None => (s, false)
  end.

Definition fire_timer (s : WorkflowMutableState) (id : Z) : WorkflowMutableState * bool := update_timer s id TmFired.
Definition cancel_timer (s : WorkflowMutableState) (id : Z) : WorkflowMutableState * bool := update_timer s id TmCanceled.

Definition pending_timers (s : WorkflowMutableState) (order : list Z) : list TimerMutableInfo :=
  List.filter (fun t => bool_decide (t_state t = TmStarted)) (values (timers s) order).

Definition add_child_workflow (s : WorkflowMutableState) (ev : Z) (c : ChildWorkflowMutableInfo) : WorkflowMutableState :=
  with_children s (<[ev := c]> (child_workflows s)) (mutated s).

Definition update_child_state (s : WorkflowMutableState) (ev : Z) (st : ChildWorkflowMutableState) : WorkflowMutableState * bool :=
  match child_workflows s !! ev with
  | Some c => (with_children s (<[ev := set_child_state st c]> (child_workflows s)) (mutated s), true)
  | None => (s, false)
  end.

Definition pending_children (s : WorkflowMutableState) (order : list Z) : list ChildWorkflowMutableInfo :=
  List.filter (fun c => bool_decide (c_state c = ChInitiated) || bool_decide (c_state c = ChStarted)) (values (child_workflows s) order).

Definition add_signal_request_id (s : WorkflowMutableState) (id : string) : WorkflowMutableState * bool :=
  (with_requests s ({[id]} ∪ signal_request_ids s) (external_requests s) (mutation_count s), bool_decide (id ∉ signal_request_ids s)).

Definition remove_signal_request_id (s : WorkflowMutableState) (id : string) : WorkflowMutableState * bool :=
  (with_requests s (signal_request_ids s ∖ {[id]}) (external_requests s) (mutation_count s), bool_decide (id ∈ signal_request_ids s)).

Definition add_external_request (s : WorkflowMutableState) (r : ExternalRequestInfo) : WorkflowMutableState :=
  with_requests s (signal_request_ids s) (external_requests s ++ [r]) (mutated s).

Definition remove_external_request (s : WorkflowMutableState) (id : string) : WorkflowMutableState * bool :=
  let rs := List.filter (fun r => negb (bool_decide (r_request_id r = id))) (external_requests s) in
  (with_requests s (signal_request_ids s) rs (mutation_count s), (length rs <? length (external_requests s))%nat).

(** The five closing operations. *)
Definition close_workflow (now : Z) (s : WorkflowMutableState) (st : Z) : WorkflowMutableState := with_status s st (Some now) (mutated s).
Definition complete_workflow (now : Z) (s : WorkflowMutableState) : WorkflowMutableState := close_workflow now s 2.
Definition fail_workflow (now : Z) (s : WorkflowMutableState) : WorkflowMutableState := close_workflow now s 3.
Definition cancel_workflow (now : Z) (s : WorkflowMutableState) : WorkflowMutableState := close_workflow now s 4.
Definition terminate_workflow (now : Z) (s : WorkflowMutableState) : WorkflowMutableState := close_workflow now s 5.
Definition continue_as_new (now : Z) (s : WorkflowMutableState) : WorkflowMutableState := close_workflow now s 6.

Definition is_running (s : WorkflowMutableState) : bool := status s =? 1.

(** [fetch_add]. *)
Definition take_event_id (s : WorkflowMutableState) : WorkflowMutableState * Z :=
  (with_event_id s (wrap 64 (next_event_id s + 1)), next_event_id s).

End MState.

(** ** Tasks *)

Module Tasks.

Inductive TransferTaskType : Type :=
| ActivityTask | StartChildExecution | SignalExternal | CancelExternal | CloseExecution | ContinueAsNewTask
| RecordWorkflowStarted | DeleteExecution | UpsertSearchAttributes.

Inductive TimerTaskType : Type :=
| UserTimer | ActivityTimeout | WorkflowRunTimeout | WorkflowExecutionTimeout | WorkflowTaskTimeout | DeleteHistoryEvent.

Inductive ReplicationTaskType : Type := HistoryReplication | SyncActivity | SyncWorkflowState.

Inductive VisibilityTaskType : Type := RecordStart | RecordClose | VUpsertSearchAttributes | VDeleteExecution.

#[export] Instance transfer_type_eq_dec : EqDecision TransferTaskType.
Proof. solve_decision. Defined.
#[export] Instance timer_type_eq_dec : EqDecision TimerTaskType.
Proof. solve_decision. Defined.

Record TransferTask : Type := mkTransfer {
  transfer_type : TransferTaskType;
  x_workflow_key : Z;
  target_event_id : Z;
  target_task_queue : string;
  visibility_time_ms : Z;
}.

Record TimerTask : Type := mkTimerTask {
  timer_type : TimerTaskType;
  m_workflow_key : Z;
  m_timer_id : Z;
  m_expiry_time_ms : Z;
}.

Record ReplicationTask : Type := mkReplication {
  replication_type : ReplicationTaskType;
  p_workflow_key : Z;
  first_event_id : Z;
  p_next_event_id : Z;
  branch_token : bytes;
}.

Record VisibilityTask : Type := mkVisibility {
  visibility_type : VisibilityTaskType;
  v_workflow_key : Z;
  v_time_ms : Z;
}.

Inductive GeneratedTask : Type :=
| Transfer (t : TransferTask)
| TimerT (t : TimerTask)
| Replication (t : ReplicationTask)
| VisibilityT (t : VisibilityTask).

End Tasks.

(** ** Commands *)

Module Commands.
Import MState Tasks.

Record ScheduleActivityCommand : Type := mkSchedule {
  sa_activity_id : Z;
  sa_activity_type : string;
  sa_task_queue : string;
  sa_input : option bytes;
  sa_schedule_to_close_timeout_ms : option Z;
  sa_schedule_to_start_timeout_ms : option Z;
  sa_start_to_close_timeout_ms : option Z;
  sa_heartbeat_timeout_ms : option Z;
  sa_retry_policy : option ActivityRetryPolicyState;
  sa_request_id : string;
}.

Record StartChildWorkflowCommand : Type := mkStartChild {
  sc_namespace : string;
  sc_workflow_type : string;
  sc_workflow_id : Z;
  sc_task_queue : string;
  sc_input : option bytes;
  sc_parent_close_policy : ParentClosePolicyKind;
  sc_request_id : string;
}.

Inductive WorkflowCommand : Type :=
| ScheduleActivity (c : ScheduleActivityCommand)
| StartTimer (timer_id start_to_fire_timeout_ms : Z)
| CompleteWorkflow (result : option bytes)
| FailWorkflow (failure : string) (retry_state : Z)
| CancelWorkflow (details : option bytes)
| StartChildWorkflow (c : StartChildWorkflowCommand)
| CancelChildWorkflow (child_workflow_key : Z)
| SignalExternalWorkflow (target_key target_run : Z) (name : string) (input : option bytes) (request_id : string)
| CancelExternalWorkflow (target_key target_run : Z) (request_id : string)
| ContinueAsNew (workflow_type task_queue : string) (input : option bytes) (execution_timeout run_timeout task_timeout : option Z)
| CancelTimer (timer_id : Z)
| RequestCancelActivity (activity_event_id : Z)
| ProtocolMessage (instance_id message_id : string) (payload : bytes)
| ModifyWorkflowProperties (upserted memo_delta : option (gmap string bytes))
| RecordMarker (name : string) (details : option bytes).

Record ProcessedCommandRecord : Type := mkRecord {
  command_type : string;
  l_event_id : Z;
  l_success : bool;
  l_error : option string;
}.

Record CommandProcessor : Type := mkProcessor {
  processed_commands : list ProcessedCommandRecord;
  total_processed : Z;
}.

Definition processor_new : CommandProcessor := mkProcessor [] 0.

Definition scheduled_activity (now ev : Z) (c : ScheduleActivityCommand) : ActivityMutableInfo :=
  mkActivity (sa_activity_id c) (sa_activity_type c) ActScheduled ev 0 1 now None (sa_schedule_to_start_timeout_ms c)
    (sa_start_to_close_timeout_ms c) (sa_schedule_to_close_timeout_ms c) (sa_heartbeat_timeout_ms c) None None (sa_retry_policy c)
    (sa_task_queue c) None None false (sa_request_id c).

Definition initiated_child (ev : Z) (c : StartChildWorkflowCommand) : ChildWorkflowMutableInfo :=
  mkChild 0 ev 0 ChInitiated (sc_namespace c) (sc_workflow_type c) (sc_parent_close_policy c) None None.

(** One command, at event [ev]; [t1] and [t2] are its two clock reads.  The name is what the log gets. *)
Definition process_command (t1 t2 : Z) (s : WorkflowMutableState) (ev : Z) (cmd : WorkflowCommand) :
    WorkflowMutableState * list GeneratedTask * string :=
  let transfer ty queue := [Transfer (mkTransfer ty (workflow_key (ident s)) ev queue t2)] in
  match cmd with
  | ScheduleActivity c =>
      (add_activity s ev (scheduled_activity t1 ev c), transfer ActivityTask (sa_task_queue c), "ScheduleActivity"%string)
  | StartTimer id timeout =>
      (add_timer s id (mkTimer id TmStarted ev (wrap 64 (t1 + timeout)) 0),
       [TimerT (mkTimerTask UserTimer (workflow_key (ident s)) id (wrap 64 (t2 + timeout)))], "StartTimer"%string)
  | CompleteWorkflow _ => (complete_workflow t1 s, transfer CloseExecution ""%string, "CompleteWorkflow"%string)
  | FailWorkflow _ _ => (fail_workflow t1 s, transfer CloseExecution ""%string, "FailWorkflow"%string)
  | CancelWorkflow _ => (cancel_workflow t1 s, transfer CloseExecution ""%string, "CancelWorkflow"%string)
  | StartChildWorkflow c =>
      (add_child_workflow s ev (initiated_child ev c), transfer StartChildExecution (sc_task_queue c), "StartChildWorkflow"%string)
  | CancelChildWorkflow key => ((update_child_state s key ChCanceled).1, [], "CancelChildWorkflow"%string)
  | SignalExternalWorkflow key run name input id =>
      (add_external_request s (mkRequest id key run ReqSignal (Some name) input), transfer SignalExternal ""%string, "SignalExternal"%string)
  | CancelExternalWorkflow key run id =>
      (add_external_request s (mkRequest id key run ReqCancel None None), transfer CancelExternal ""%string, "CancelExternal"%string)
  | ContinueAsNew _ queue _ _ _ _ => (continue_as_new t1 s, transfer ContinueAsNewTask queue, "ContinueAsNew"%string)
  | CancelTimer id => ((cancel_timer s id).1, [], "CancelTimer"%string)
  | RequestCancelActivity aev => ((update_activity_state s aev ActCanceled).1, [], "RequestCancelActivity"%string)
  | ProtocolMessage inst _ payload =>
      (with_maps s (search_attributes s) (memo s) (<[inst := payload]> (protocol_messages s)), [], "ProtocolMessage"%string)
  | ModifyWorkflowProperties sa me =>
      (with_maps s (default ∅ sa ∪ search_attributes s) (default ∅ me ∪ memo s) (protocol_messages s), [], "ModifyProperties"%string)
  | RecordMarker _ _ => (s, [], "RecordMarker"%string)
  end.

(** The loop over the commands, with the readings of the clock. *)
Fixpoint process_loop (p : CommandProcessor) (s : WorkflowMutableState) (cmds : list (Z * Z * WorkflowCommand)) :
    CommandProcessor * WorkflowMutableState * list GeneratedTask :=
  match cmds with
  | [] => (p, s, [])
  | (t1, t2, cmd) :: cmds =>
      let '(s, ev) := take_event_id s in
      let '(s, ts, name) := process_command t1 t2 s ev cmd in
      let p := mkProcessor (processed_commands p ++ [mkRecord name ev true None]) (wrap 64 (total_processed p + 1)) in
      let '(p, s, rest) := process_loop p s cmds in (p, s, ts ++ rest)
  end.

Definition process_commands (p : CommandProcessor) (s : WorkflowMutableState) (cmds : list (Z * Z * WorkflowCommand)) :
    CommandProcessor * WorkflowMutableState * list GeneratedTask :=
  let '(p, s, ts) := process_loop p s cmds in
  (p, s, ts ++ match cmds with
               | [] => []
               | _ => [Replication (mkReplication HistoryReplication (workflow_key (ident s)) (last_first_event_id (ident s)) (next_event_id s) [])]
               end).

End Commands.

(** ** The task generator and the refresher *)

Module Refresh.
Import MState Tasks.

Record TaskGenerator : Type := mkGenerator {
  generated : list GeneratedTask;
  total_generated : Z;
}.

Definition generator_new : TaskGenerator := mkGenerator [] 0.

Definition timeout_task (ty : TimerTaskType) (key id start : Z) (timeout : option Z) : list GeneratedTask :=
  match timeout with Some ms => [TimerT (mkTimerTask ty key id (wrap 64 (start + ms)))] | None => [] end.

Definition generate_workflow_start_tasks (g : TaskGenerator) (s : WorkflowMutableState) : TaskGenerator * list GeneratedTask :=
  let i := ident s in
  let ts := [VisibilityT (mkVisibility RecordStart (workflow_key i) (start_time_ms i));
             Transfer (mkTransfer RecordWorkflowStarted (workflow_key i) 1 (task_queue i) (start_time_ms i))] ++
            timeout_task WorkflowExecutionTimeout (workflow_key i) 0 (start_time_ms i) (workflow_execution_timeout_ms i) ++
            timeout_task WorkflowRunTimeout (workflow_key i) 0 (start_time_ms i) (workflow_run_timeout_ms i) ++
            [Replication (mkReplication HistoryReplication (workflow_key i) 1 (next_event_id s) [])] in
  (mkGenerator (generated g ++ ts) (wrap 64 (total_generated g + 1)), ts).

Definition generate_workflow_task_timeout (now : Z) (g : TaskGenerator) (s : WorkflowMutableState) : TaskGenerator * option GeneratedTask :=
  match workflow_task_timeout_ms (ident s) with
  | Some ms =>
      let t := TimerT (mkTimerTask WorkflowTaskTimeout (workflow_key (ident s)) (workflow_task_scheduled_event_id (ident s)) (wrap 64 (now + ms))) in
      (mkGenerator (generated g ++ [t]) (wrap 64 (total_generated g + 1)), Some t)
  | None => (g, None)
  end.

Definition generate_activity_timeouts (now : Z) (g : TaskGenerator) (a : ActivityMutableInfo) (key : Z) : TaskGenerator * list GeneratedTask :=
  let ts := timeout_task ActivityTimeout key (scheduled_event_id a) (scheduled_time_ms a) (scheduled_to_start_timeout_ms a) ++
            timeout_task ActivityTimeout key (scheduled_event_id a) now (start_to_close_timeout_ms a) ++
            timeout_task ActivityTimeout key (scheduled_event_id a) now (heartbeat_timeout_ms a) in
  (mkGenerator (generated g ++ ts) (wrap 64 (total_generated g + 1)), ts).

(** The refresher; [now] reads the clock for the task of an event. *)
Definition refresh_activities (now : Z -> Z) (s : WorkflowMutableState) (order : list Z) : list TransferTask :=
  map (fun a => mkTransfer ActivityTask (workflow_key (ident s)) (scheduled_event_id a) (a_task_queue a) (now (scheduled_event_id a)))
    (List.filter (fun a => bool_decide (a_state a = ActScheduled)) (pending_activities s order)).

Definition refresh_children (now : Z -> Z) (s : WorkflowMutableState) (order : list Z) : list TransferTask :=
  map (fun c => mkTransfer StartChildExecution (workflow_key (ident s)) (initiated_event_id c) ""%string (now (initiated_event_id c)))
    (List.filter (fun c => bool_decide (c_state c = ChInitiated)) (pending_children s order)).

Definition refresh_timers (s : WorkflowMutableState) (order : list Z) : list TimerTask :=
  map (fun t => mkTimerTask UserTimer (workflow_key (ident s)) (t_timer_id t) (t_expiry_time_ms t)) (pending_timers s order).

Definition refresh_all (now : Z -> Z) (s : WorkflowMutableState) (acts children tms : list Z) : list GeneratedTask :=
  map Transfer (refresh_activities now s acts) ++ map Transfer (refresh_children now s children) ++ map TimerT (refresh_timers s tms).
End Refresh.

(** ** Runs *)

Module CoreRun.
Import MState Tasks Commands Refresh.

Inductive core_op : Type :=
| Batch (cmds : list (Z * Z * WorkflowCommand))
| ActivityTo (ev : Z) (st : ActivityMutableState)
| Heartbeat (now ev : Z) (d : bytes)
| FireTimer (id : Z)
| CancelTimerOp (id : Z)
| ChildTo (ev : Z) (st : ChildWorkflowMutableState)
| AddSignalId (id : string)
| RemoveSignalId (id : string)
| RemoveRequest (id : string)
| Terminate (now : Z).

(** The processor, the state, and the tasks generated so far. *)
Record core : Type := mkCore {
  proc : CommandProcessor;
  mst : WorkflowMutableState;
  made : list GeneratedTask;
}.

Definition on_state (k : core) (f : WorkflowMutableState -> WorkflowMutableState) : core := mkCore (proc k) (f (mst k)) (made k).

Definition core_step (k : core) (op : core_op) : core :=
  match op with
  | Batch cmds => let '(p, s, ts) := process_commands (proc k) (mst k) cmds in mkCore p s (made k ++ ts)
  | ActivityTo ev st => on_state k (fun s => (update_activity_state s ev st).1)
  | Heartbeat now ev d => on_state k (fun s => (record_activity_heartbeat now s ev d).1)
  | FireTimer id => on_state k (fun s => (fire_timer s id).1)
  | CancelTimerOp id => on_state k (fun s => (cancel_timer s id).1)
  | ChildTo ev st => on_state k (fun s => (update_child_state s ev st).1)
  | AddSignalId id => on_state k (fun s => (add_signal_request_id s id).1)
  | RemoveSignalId id => on_state k (fun s => (remove_signal_request_id s id).1)
  | RemoveRequest id => on_state k (fun s => (remove_external_request s id).1)
  | Terminate now => on_state k (terminate_workflow now)
  end.

Definition core_run (k : core) (ops : list core_op) : core := fold_left core_step ops k.

Definition core_new (now key wid run : Z) (ty : string) (ns : Z) (queue : string) : core :=
  mkCore processor_new (mutable_new now key wid run ty ns queue) [].

(** The commands of a run, in order. *)
Definition op_commands (op : core_op) : list (Z * Z * WorkflowCommand) := match op with Batch cmds => cmds | _ => [] end.
Definition commands_of (ops : list core_op) : list (Z * Z * WorkflowCommand) := flat_map op_commands ops.

(** The last command that started timer [id]: its two clock reads and its timeout. *)
Definition start_of (id : Z) (acc : option (Z * Z * Z)) (c : Z * Z * WorkflowCommand) : option (Z * Z * Z) :=
  match c with
  | (t1, t2, StartTimer i timeout) => if i =? id then Some (t1, t2, timeout) else acc
  | _ => acc
  end.
Definition last_start (cs : list (Z * Z * WorkflowCommand)) (id : Z) : option (Z * Z * Z) := foldl (start_of id) None cs.

(** Tasks of a kind without their time stamp, those of children also without the task queue; and the last
    task of a timer. *)
Definition transfer_of (ty : TransferTaskType) (g : GeneratedTask) : option TransferTask :=
  match g with Transfer t => if bool_decide (transfer_type t = ty) then Some t else None | _ => None end.
Definition timeless (t : TransferTask) : TransferTask :=
  mkTransfer (transfer_type t) (x_workflow_key t) (target_event_id t) (target_task_queue t) 0.
Definition queueless (t : TransferTask) : TransferTask :=
  mkTransfer (transfer_type t) (x_workflow_key t) (target_event_id t) ""%string 0.
Definition activity_tasks (l : list GeneratedTask) : list TransferTask := map timeless (omap (transfer_of ActivityTask) l).
Definition child_tasks (l : list GeneratedTask) : list TransferTask := map queueless (omap (transfer_of StartChildExecution) l).
Definition timer_of (id : Z) (acc : option TimerTask) (g : GeneratedTask) : option TimerTask :=
  match g with
  | TimerT t => if bool_decide (timer_type t = UserTimer) && (m_timer_id t =? id) then Some t else acc
  | _ => acc
  end.
Definition last_timer (l : list GeneratedTask) (id : Z) : option TimerTask := foldl (timer_of id) None l.

(** What still waits. *)
Definition still_scheduled (s : WorkflowMutableState) (ev : Z) : bool :=
  match activities s !! ev with Some a => bool_decide (a_state a = ActScheduled) | None => false end.
Definition still_initiated (s : WorkflowMutableState) (ev : Z) : bool :=
  match child_workflows s !! ev with Some c => bool_decide (c_state c = ChInitiated) | None => false end.
Definition still_running (s : WorkflowMutableState) (id : Z) : bool :=
  match timers s !! id with Some t => bool_decide (t_state t = TmStarted) | None => false end.

(** *** The invariant *)

Record core_inv (key : Z) (n : nat) (cs : list (Z * Z * WorkflowCommand)) (k : core) : Prop := mkInv {
  i_key : workflow_key (ident (mst k)) = key;
  i_next : 1 <= next_event_id (mst k) <= Z.of_nat n + 1;
  i_log : map l_event_id (processed_commands (proc k)) = seqZ 1 (next_event_id (mst k) - 1);
  i_akeys : map_Forall (fun ev a => scheduled_event_id a = ev /\ ev < next_event_id (mst k)) (activities (mst k));
  i_ckeys : map_Forall (fun ev c => initiated_event_id c = ev /\ ev < next_event_id (mst k)) (child_workflows (mst k));
  i_tkeys : map_Forall (fun id t => t_timer_id t = id) (timers (mst k));
  i_acts : activity_tasks (made k) ≡ₚ
    map (fun p => mkTransfer ActivityTask key p.1 (a_task_queue p.2) 0) (map_to_list (activities (mst k)));
  i_children : child_tasks (made k) ≡ₚ
    map (fun p => mkTransfer StartChildExecution key p.1 ""%string 0) (map_to_list (child_workflows (mst k)));
  i_timers : forall id, t_expiry_time_ms <$> timers (mst k) !! id = (fun x => wrap 64 (x.1.1 + x.2)) <$> last_start cs id;
  i_tasks : forall id,
    last_timer (made k) id = (fun x => mkTimerTask UserTimer key id (wrap 64 (x.1.2 + x.2))) <$> last_start cs id;
}.

Lemma activity_tasks_app l1 l2 : activity_tasks (l1 ++ l2) = activity_tasks l1 ++ activity_tasks l2.
Proof. unfold activity_tasks. by rewrite omap_app, map_app. Qed.
Lemma child_tasks_app l1 l2 : child_tasks (l1 ++ l2) = child_tasks l1 ++ child_tasks l2.
Proof. unfold child_tasks. by rewrite omap_app, map_app. Qed.
Lemma last_timer_app l1 l2 id : last_timer (l1 ++ l2) id = foldl (timer_of id) (last_timer l1 id) l2.
Proof. apply foldl_app. Qed.
Lemma last_start_snoc cs c id : last_start (cs ++ [c]) id = start_of id (last_start cs id) c.
Proof. unfold last_start. by rewrite foldl_app. Qed.

(** A change of one value that keeps what the tasks are about. *)
Lemma to_list_update {A B} (f : Z * A -> B) (m : gmap Z A) k a a' :
  m !! k = Some a -> f (k, a') = f (k, a) -> map f (map_to_list (<[k := a']> m)) ≡ₚ map f (map_to_list m).
Proof.
  intros Hk Hf. rewrite <- (insert_delete_id m k a Hk) at 2. rewrite <- insert_delete_eq.
  rewrite !map_to_list_insert by apply lookup_delete_eq. cbn. by rewrite Hf.
Qed.

(** A state that differs only where the invariant does not look. *)
Lemma inv_same key n cs k s :
  core_inv key n cs k -> next_event_id s = next_event_id (mst k) -> activities s = activities (mst k) ->
  child_workflows s = child_workflows (mst k) -> timers s = timers (mst k) -> ident s = ident (mst k) ->
   core_inv key n cs (mkCore (proc k) s (made k)).
Proof. intros [] E1 E2 E3 E4 E5. constructor; cbn; rewrite ?E1, ?E2, ?E3, ?E4, ?E5; done. Qed.

Lemma inv_activity key n cs k ev a a' c :
  core_inv key n cs k -> activities (mst k) !! ev = Some a -> scheduled_event_id a' = scheduled_event_id a -> a_task_queue a' = a_task_queue a ->
  core_inv key n cs (mkCore (proc k) (with_activities (mst k) (<[ev := a']> (activities (mst k))) c) (made k)).
Proof.
  intros [] Ha E1 E2. constructor; cbn; try done.
  - apply map_Forall_insert_2; [|done]. rewrite E1. by apply i_akeys0.
  - rewrite (to_list_update _ _ _ _ _ Ha); [done|]. cbn. by rewrite E2.
Qed.

Lemma inv_child key n cs k ev a a' c :
  core_inv key n cs k -> child_workflows (mst k) !! ev = Some a -> initiated_event_id a' = initiated_event_id a ->
  core_inv key n cs (mkCore (proc k) (with_children (mst k) (<[ev := a']> (child_workflows (mst k))) c) (made k)).
Proof.
  intros [] Ha E1. constructor; cbn; try done.
  - apply map_Forall_insert_2; [|done]. rewrite E1. by apply i_ckeys0.
  - by rewrite (to_list_update _ _ _ _ _ Ha).
Qed.

Lemma inv_timer key n cs k id t t' c :
  core_inv key n cs k -> timers (mst k) !! id = Some t -> t_timer_id t' = t_timer_id t -> t_expiry_time_ms t' = t_expiry_time_ms t ->
  core_inv key n cs (mkCore (proc k) (with_timers (mst k) (<[id := t']> (timers (mst k))) c) (made k)).
Proof.
  intros [] Ha E1 E2. constructor; cbn; try done.
  - apply map_Forall_insert_2; [|done]. rewrite E1. by apply i_tkeys0.
  - intros id'. rewrite <- i_timers0. destruct (decide (id' = id)) as [->|Hne]; [|by rewrite lookup_insert_ne].
    rewrite lookup_insert_eq, Ha. cbn. by rewrite E2.
Qed.

(** *** Operations other than commands *)

Lemma activity_to_inv key n cs k ev st : core_inv key n cs k -> core_inv key n cs (on_state k (fun s => (update_activity_state s ev st).1)).
Proof.
  intros I. unfold on_state, update_activity_state. destruct (activities (mst k) !! ev) as [a|] eqn:E; [|by destruct k].
  by eapply inv_activity.
Qed.

Lemma child_to_inv key n cs k ev st : core_inv key n cs k -> core_inv key n cs (on_state k (fun s => (update_child_state s ev st).1)).
Proof.
  intros I. unfold on_state, update_child_state. destruct (child_workflows (mst k) !! ev) as [a|] eqn:E; [|by destruct k].
  by eapply inv_child.
Qed.

Lemma timer_to_inv key n cs k id st : core_inv key n cs k -> core_inv key n cs (on_state k (fun s => (update_timer s id st).1)).
Proof.
  intros I. unfold on_state, update_timer. destruct (timers (mst k) !! id) as [t|] eqn:E; [|by destruct k]. by eapply inv_timer.
Qed.

Lemma heartbeat_inv key n cs k now ev d : core_inv key n cs k -> core_inv key n cs (on_state k (fun s => (record_activity_heartbeat now s ev d).1)).
Proof.
  intros I. unfold on_state, record_activity_heartbeat. destruct (activities (mst k) !! ev) as [a|] eqn:E; [|by destruct k].
  by eapply inv_activity.
Qed.

(** *** Commands *)

(** Taking an event id and logging it. *)
Lemma tick_inv key n cs k name :
  core_inv key n cs k -> Z.of_nat n + 2 < 2 ^ 64 ->
  core_inv key (S n) cs (mkCore (mkProcessor (processed_commands (proc k) ++ [mkRecord name (next_event_id (mst k)) true None])
                            (wrap 64 (total_processed (proc k) + 1)))
                    (take_event_id (mst k)).1 (made k)).
Proof.
  intros [] Hb. assert (Hw : wrap 64 (next_event_id (mst k) + 1) = next_event_id (mst k) + 1) by (apply wrap_id; unfold fits; lia).
  constructor; cbn; rewrite ?Hw; try done.
  - lia.
  - rewrite map_app, i_log0. cbn.
    replace (next_event_id (mst k) + 1 - 1) with (next_event_id (mst k) - 1 + 1) by lia. rewrite seqZ_app by (pose proof i_next0; lia).
    by replace (1 + (next_event_id (mst k) - 1)) with (next_event_id (mst k)) by lia.
  - intros ev a Ha. specialize (i_akeys0 ev a Ha). naive_solver lia.
  - intros ev a Ha. specialize (i_ckeys0 ev a Ha). naive_solver lia.
Qed.

(** Nothing is made for the three kinds. *)
Definition unseen (g : GeneratedTask) : Prop :=
  activity_tasks [g] = [] /\ child_tasks [g] = [] /\ forall id acc, timer_of id acc g = acc.

Ltac core_simpl :=
  cbn [proc mst made add_activity add_child_workflow add_timer with_activities with_children with_timers activities timers child_workflows
       next_event_id] in *.

Lemma inv_unseen key n cs k s ts :
  core_inv key n cs (mkCore (proc k) s (made k)) -> Forall unseen ts -> core_inv key n cs (mkCore (proc k) s (made k ++ ts)).
Proof.
  intros I Hu.
  assert (Hn : activity_tasks ts = [] /\ child_tasks ts = [] /\ forall id acc, foldl (timer_of id) acc ts = acc).
  { induction Hu as [|g ts (H1 & H2 & H3) _ (I1 & I2 & I3)]; [done|].
    pose proof (activity_tasks_app [g] ts) as A1. pose proof (child_tasks_app [g] ts) as A2.
    cbn [app] in A1, A2. rewrite A1, A2, H1, H2, I1, I2. split_and!; [done..|]. intros id acc. cbn. by rewrite H3, I3. }
  destruct Hn as (H1 & H2 & H3). destruct I. constructor; core_simpl; try done.
  - by rewrite activity_tasks_app, H1, app_nil_r.
  - by rewrite child_tasks_app, H2, app_nil_r.
  - intros id. by rewrite last_timer_app, H3.
Qed.

(** A command that starts no timer. *)
Lemma inv_other key n cs k c : (forall id acc, start_of id acc c = acc) -> core_inv key n cs k -> core_inv key n (cs ++ [c]) k.
Proof. intros Hc []. constructor; try done; intros id; rewrite last_start_snoc, Hc; done. Qed.

Lemma add_activity_inv key n cs k ev a t :
  core_inv key n cs k -> activities (mst k) !! ev = None -> ev < next_event_id (mst k) -> scheduled_event_id a = ev ->
  core_inv key n cs (mkCore (proc k) (add_activity (mst k) ev a) (made k ++ [Transfer (mkTransfer ActivityTask key ev (a_task_queue a) t)])).
Proof.
  intros [] Hn Hl He. constructor; core_simpl; try done.
  - by apply map_Forall_insert_2.
  - rewrite activity_tasks_app, map_to_list_insert by done. cbn. rewrite Permutation_app_comm. cbn. by apply perm_skip.
  - rewrite child_tasks_app. cbn. by rewrite app_nil_r.
  - intros id. rewrite last_timer_app. apply i_tasks0.
Qed.

Lemma add_child_inv key n cs k ev c t q :
  core_inv key n cs k -> child_workflows (mst k) !! ev = None -> ev < next_event_id (mst k) -> initiated_event_id c = ev ->
  core_inv key n cs (mkCore (proc k) (add_child_workflow (mst k) ev c) (made k ++ [Transfer (mkTransfer StartChildExecution key ev q t)])).
Proof.
  intros [] Hn Hl He. constructor; core_simpl; try done.
  - by apply map_Forall_insert_2.
  - rewrite activity_tasks_app. cbn. by rewrite app_nil_r.
  - rewrite child_tasks_app, map_to_list_insert by done. cbn. rewrite Permutation_app_comm. cbn. by apply perm_skip.
  - intros id. rewrite last_timer_app. apply i_tasks0.
Qed.

Lemma add_timer_inv key n cs k id ev t1 t2 timeout :
  core_inv key n cs k ->
  core_inv key n (cs ++ [(t1, t2, StartTimer id timeout)])
    (mkCore (proc k) (add_timer (mst k) id (mkTimer id TmStarted ev (wrap 64 (t1 + timeout)) 0))
       (made k ++ [TimerT (mkTimerTask UserTimer key id (wrap 64 (t2 + timeout)))])).
Proof.
  intros []. constructor; core_simpl; try done.
  - by apply map_Forall_insert_2.
  - rewrite activity_tasks_app. cbn. by rewrite app_nil_r.
  - rewrite child_tasks_app. cbn. by rewrite app_nil_r.
  - intros id'. rewrite last_start_snoc. cbn. destruct (Z.eqb_spec id id') as [->|Hne]; [by rewrite lookup_insert_eq|].
    by rewrite lookup_insert_ne, i_timers0.
  - intros id'. rewrite last_timer_app, last_start_snoc, i_tasks0. cbn. by destruct (Z.eqb_spec id id') as [->|Hne].
Qed.

Lemma command_inv key n cs k t1 t2 ev cmd :
  core_inv key n cs k -> activities (mst k) !! ev = None -> child_workflows (mst k) !! ev = None -> ev < next_event_id (mst k) ->
  let '(s, ts, _) := process_command t1 t2 (mst k) ev cmd in core_inv key n (cs ++ [(t1, t2, cmd)]) (mkCore (proc k) s (made k ++ ts)).
Proof.
  intros I Ha Hc Hl. pose proof (i_key _ _ _ _ I) as Hkey. destruct cmd; cbn [process_command]; rewrite ?Hkey;
    try (apply inv_other; [done|]; apply inv_unseen; [|by repeat constructor]; apply (inv_same key n cs k); done).
  - apply inv_other; [done|]. by apply (add_activity_inv key n cs k ev (scheduled_activity t1 ev c)).
  - by apply add_timer_inv.
  - apply inv_other; [done|]. by apply (add_child_inv key n cs k ev (initiated_child ev c)).
  - apply inv_other; [done|]. apply inv_unseen; [|constructor]. by apply child_to_inv.
  - apply inv_other; [done|]. apply inv_unseen; [|constructor]. by apply (timer_to_inv key n cs k timer_id TmCanceled).
  - apply inv_other; [done|]. apply inv_unseen; [|constructor]. by apply activity_to_inv.
Qed.

Lemma loop_inv key cmds : forall n cs k,
  core_inv key n cs k -> Z.of_nat n + Z.of_nat (length cmds) + 1 < 2 ^ 64 ->
  let '(p, s, ts) := process_loop (proc k) (mst k) cmds in
  core_inv key (n + length cmds) (cs ++ cmds) (mkCore p s (made k ++ ts)).
Proof.
  induction cmds as [|[[t1 t2] cmd] cmds IH]; intros n cs k I Hb; cbn [process_loop].
  { rewrite !app_nil_r, Nat.add_0_r. by destruct k. }
  cbn [length] in *. set (ev := next_event_id (mst k)).
  assert (Hfa : activities (mst k) !! ev = None).
  { apply eq_None_not_Some. intros [a Ea]. destruct (i_akeys _ _ _ _ I ev a Ea) as [_ Hlt]. subst ev. lia. }
  assert (Hfc : child_workflows (mst k) !! ev = None).
  { apply eq_None_not_Some. intros [a Ea]. destruct (i_ckeys _ _ _ _ I ev a Ea) as [_ Hlt]. subst ev. lia. }
  destruct (process_command t1 t2 (take_event_id (mst k)).1 ev cmd) as [[s ts] name] eqn:E.
  pose proof (tick_inv key n cs k name I ltac:(lia)) as It. set (k1 := mkCore _ _ _) in It.
  assert (Hlt : ev < next_event_id (mst k1)).
  { pose proof (i_next _ _ _ _ I). cbn. rewrite wrap_id by (unfold fits; lia). subst ev. lia. }
  pose proof (command_inv key (S n) cs k1 t1 t2 ev cmd It Hfa Hfc Hlt) as Ic. change (mst k1) with (take_event_id (mst k)).1 in Ic.
  rewrite E in Ic. subst ev. unfold take_event_id in E |- *. cbn [fst snd] in E. rewrite E.
  specialize (IH (S n) _ _ Ic ltac:(lia)). cbn [proc mst made k1] in IH. destruct (process_loop _ s cmds) as [[p' s'] rest].
  rewrite <- !app_assoc in IH. by replace (n + S (length cmds))%nat with (S n + length cmds)%nat by lia.
Qed.

Lemma batch_inv key n cs k cmds :
  core_inv key n cs k -> Z.of_nat n + Z.of_nat (length cmds) + 1 < 2 ^ 64 ->
  core_inv key (n + length cmds) (cs ++ cmds) (core_step k (Batch cmds)).
Proof.
  intros I Hb. pose proof (loop_inv key cmds n cs k I Hb) as L. cbn [core_step]. unfold process_commands.
  destruct (process_loop (proc k) (mst k) cmds) as [[p s] ts]. rewrite app_assoc.
  apply (inv_unseen _ _ _ (mkCore p s (made k ++ ts))); [done|]. destruct cmds; by repeat constructor.
Qed.

Lemma core_step_inv key n cs k op :
  core_inv key n cs k -> Z.of_nat n + Z.of_nat (length (op_commands op)) + 1 < 2 ^ 64 ->
  core_inv key (n + length (op_commands op)) (cs ++ op_commands op) (core_step k op).
Proof.
  intros I Hb. destruct op; cbn [op_commands] in *; [by apply batch_inv|rewrite Nat.add_0_r, app_nil_r..]; cbn [core_step].
  - by apply activity_to_inv.
  - by apply heartbeat_inv.
  - by apply timer_to_inv.
  - by apply timer_to_inv.
  - by apply child_to_inv.
  - by apply inv_same.
  - by apply inv_same.
  - by apply inv_same.
  - by apply inv_same.
Qed.

Lemma core_run_inv key ops : forall n cs k,
  core_inv key n cs k -> Z.of_nat n + Z.of_nat (length (commands_of ops)) + 1 < 2 ^ 64 ->
  core_inv key (n + length (commands_of ops)) (cs ++ commands_of ops) (core_run k ops).
Proof.
  unfold commands_of. induction ops as [|op ops IH]; intros n cs k I Hb; cbn in *; [by rewrite Nat.add_0_r, app_nil_r|].
  rewrite length_app in *. rewrite Nat.add_assoc, app_assoc. apply IH; [|lia]. apply core_step_inv; [done|lia].
Qed.

Lemma core_new_inv now key wid run ty ns queue : core_inv key 0 [] (core_new now key wid run ty ns queue).
Proof.
  constructor; cbn; try done; try apply map_Forall_empty; try lia; try (intros id; by rewrite lookup_empty);
    by rewrite ?map_to_list_empty.
Qed.

(** *** Refreshing *)

Lemma filter_map_swap {A B} (f : A -> B) (p : B -> bool) l : List.filter p (map f l) = map f (List.filter (fun x => p (f x)) l).
Proof. induction l as [|x l IH]; cbn; [done|]. rewrite IH. by destruct (p (f x)). Qed.

Lemma filter_weaker {A} (p q : A -> bool) l :
  (forall x, q x = true -> p x = true) -> List.filter q (List.filter p l) = List.filter q l.
Proof.
  intros H. induction l as [|x l IH]; cbn; [done|]. specialize (H x). destruct (p x), (q x) eqn:E; cbn; rewrite ?E, IH; try done.
  by discriminate H.
Qed.

(** The values that satisfy [q], shown by [f], are the objects that still do. *)
Lemma values_refresh {A B} (m : gmap Z A) order (q : A -> bool) (f : Z * A -> B) (g : A -> B) (still : B -> bool) :
  order ≡ₚ (map_to_list m).*1 ->
  (forall k a, m !! k = Some a -> g a = f (k, a) /\ still (f (k, a)) = q a) ->
  map g (List.filter q (values m order)) ≡ₚ List.filter still (map f (map_to_list m)).
Proof.
  intros Ho Hf. unfold values. rewrite (omap_perm_values m order Ho), filter_map_swap.
  assert (Hl : forall ka, ka ∈ map_to_list m -> g ka.2 = f ka /\ still (f ka) = q ka.2).
  { intros [k a] Hk. apply elem_of_map_to_list in Hk. by apply Hf. }
  revert Hl. generalize (map_to_list m) as l. induction l as [|[k a] l IH]; intros Hl; [done|]. cbn.
  destruct (Hl (k, a) ltac:(constructor)) as [E1 E2]. cbn in E1, E2. rewrite E2.
  destruct (q a); cbn; [rewrite E1; f_equiv|]; apply IH; intros ka Hka; apply Hl; by constructor.
Qed.

Lemma pending_scheduled s order :
  List.filter (fun a => bool_decide (a_state a = ActScheduled)) (pending_activities s order) =
  List.filter (fun a => bool_decide (a_state a = ActScheduled)) (values (activities s) order).
Proof. apply filter_weaker. intros a H. unfold is_pending_activity. by rewrite H. Qed.

Lemma pending_initiated s order :
  List.filter (fun c => bool_decide (c_state c = ChInitiated)) (pending_children s order) =
  List.filter (fun c => bool_decide (c_state c = ChInitiated)) (values (child_workflows s) order).
Proof. apply filter_weaker. intros c H. by rewrite H. Qed.

(** The refreshed tasks of timers: one per running timer, at its stored expiry. *)
Lemma refreshed_timers s order :
  order ≡ₚ (map_to_list (timers s)).*1 -> map_Forall (fun id t => t_timer_id t = id) (timers s) ->
  refresh_timers s order ≡ₚ
    map (fun p => mkTimerTask UserTimer (workflow_key (ident s)) p.1 (t_expiry_time_ms p.2))
      (List.filter (fun p => bool_decide (t_state p.2 = TmStarted)) (map_to_list (timers s))).
Proof.
  intros Ho Hk. unfold refresh_timers, pending_timers, values. rewrite (omap_perm_values _ _ Ho).
  rewrite filter_map_swap, map_map. apply map_Forall_to_list in Hk. revert Hk.
  generalize (map_to_list (timers s)) as l. intros l Hk. induction Hk as [|[id t] l E _ IH]; [done|]. cbn in *.
  destruct (bool_decide _); cbn; [|done]. by rewrite E, IH.
Qed.

(** C16. Whatever commands were processed in whatever batches, and whatever happened to the activities, timers and children
    since, refreshing generates again the tasks of the objects that still wait, and no others.  For activities they are exactly the
    tasks that were generated for the activities still scheduled (type, workflow key, event id and task queue), stamped with the time
    of the refresh.  For children they are those of the children still to be started, with an empty task queue: the queue is lost.
    For timers there is one per timer still running: that of its last start, which expires at its first clock read plus the timeout,
    where the task generated then counts from the second read.  Commands get the event ids 1, 2, 3 and so on. *)
Theorem refresh_regenerates (t0 key wid run : Z) (ty : string) (ns : Z) (queue : string) (ops : list core_op) (now : Z -> Z)
  (acts children tms : list Z) (k : core) (Hk : k = core_run (core_new t0 key wid run ty ns queue) ops)
  (Hb : Z.of_nat (length (commands_of ops)) + 1 < 2 ^ 64)
  (Ha : acts ≡ₚ (map_to_list (activities (mst k))).*1) (Hc : children ≡ₚ (map_to_list (child_workflows (mst k))).*1)
  (Ht : tms ≡ₚ (map_to_list (timers (mst k))).*1) :
  map l_event_id (processed_commands (proc k)) = seqZ 1 (next_event_id (mst k) - 1) /\
  map timeless (refresh_activities now (mst k) acts) ≡ₚ
    List.filter (fun t => still_scheduled (mst k) (target_event_id t)) (activity_tasks (made k)) /\
  map timeless (refresh_children now (mst k) children) ≡ₚ
    List.filter (fun t => still_initiated (mst k) (target_event_id t)) (child_tasks (made k)) /\
  Forall (fun t => visibility_time_ms t = now (target_event_id t))
    (refresh_activities now (mst k) acts ++ refresh_children now (mst k) children) /\
  NoDup (map m_timer_id (refresh_timers (mst k) tms)) /\
  (forall x, x ∈ refresh_timers (mst k) tms <->
     exists t1 t2 timeout, last_start (commands_of ops) (m_timer_id x) = Some (t1, t2, timeout) /\
       still_running (mst k) (m_timer_id x) = true /\
       last_timer (made k) (m_timer_id x) = Some (mkTimerTask UserTimer key (m_timer_id x) (wrap 64 (t2 + timeout))) /\
       x = mkTimerTask UserTimer key (m_timer_id x) (wrap 64 (t1 + timeout))).
Proof.
  pose proof (core_run_inv key ops 0 [] _ (core_new_inv t0 key wid run ty ns queue) Hb) as I. rewrite <- Hk in I. cbn [app] in I.
  destruct I. pose proof (refreshed_timers (mst k) tms Ht i_tkeys0) as Hr. rewrite i_key0 in Hr. split_and!.
  - done.
  - unfold refresh_activities. rewrite pending_scheduled, map_map, i_acts0, i_key0.
    apply (values_refresh (activities (mst k)) acts _ (fun p => mkTransfer ActivityTask key p.1 (a_task_queue p.2) 0)
             (fun a => mkTransfer ActivityTask key (scheduled_event_id a) (a_task_queue a) 0)
             (fun t => still_scheduled (mst k) (target_event_id t)) Ha).
    intros ev a Hev. cbn. unfold still_scheduled. rewrite Hev. destruct (i_akeys0 ev a Hev) as [-> _]. done.
  - unfold refresh_children. rewrite pending_initiated, map_map, i_children0, i_key0.
    apply (values_refresh (child_workflows (mst k)) children _ (fun p => mkTransfer StartChildExecution key p.1 ""%string 0)
             (fun c => mkTransfer StartChildExecution key (initiated_event_id c) ""%string 0)
             (fun t => still_initiated (mst k) (target_event_id t)) Hc).
    intros ev c Hev. cbn. unfold still_initiated. rewrite Hev. destruct (i_ckeys0 ev c Hev) as [-> _]. done.
  - apply Forall_app. split; apply Forall_map, Forall_true; done.
  - rewrite Hr, map_map. cbn. apply (sublist_NoDup _ (map fst (map_to_list (timers (mst k))))).
    + apply NoDup_fst_map_to_list.
    + apply fmap_sublist, filter_sublist.
  - intros x. rewrite Hr, list_elem_of_In, in_map_iff. setoid_rewrite filter_In. setoid_rewrite <- list_elem_of_In. split.
    + intros ([id t] & <- & Hin & Hst). apply elem_of_map_to_list in Hin. cbn in *. pose proof (i_timers0 id) as E.
      rewrite i_tasks0. unfold still_running. rewrite Hin in *. destruct (last_start (commands_of ops) id) as [[[t1 t2] w]|]; [|done].
      cbn in E. injection E as E. exists t1, t2, w. by rewrite E.
    + intros (t1 & t2 & w & E & Hs & _ & ->). cbn in *. pose proof (i_timers0 (m_timer_id x)) as Et. rewrite E in Et.
      unfold still_running in Hs. destruct (timers (mst k) !! m_timer_id x) as [t|] eqn:Hx; [|done]. cbn in Et. injection Et as Et.
      exists (m_timer_id x, t). cbn. rewrite Et. split_and!; [done| |done]. by apply elem_of_map_to_list.
Qed.

(** *** Witness and limits *)

Definition demo_activity (q : string) : WorkflowCommand :=
  ScheduleActivity (mkSchedule 1 "charge" q None None None None None None "r").
Definition demo_child : WorkflowCommand := StartChildWorkflow (mkStartChild "ns" "ship" 5 "children" None PAbandon "r").
Definition demo_ops : list core_op :=
  [Batch [(10, 10, demo_activity "a"); (10, 11, StartTimer 7 100); (11, 11, demo_child)];
   ActivityTo 1 ActStarted; Batch [(20, 20, demo_activity "b"); (20, 20, StartTimer 8 50)]; FireTimer 7].
Definition demo_core : core := core_run (core_new 0 9 1 1 "order" 0 "q") demo_ops.

Lemma refresh_regenerates_witness :
  activity_tasks (made demo_core) = [mkTransfer ActivityTask 9 1 "a" 0; mkTransfer ActivityTask 9 4 "b" 0] /\
  refresh_activities (fun _ => 30) (mst demo_core) [4; 1] = [mkTransfer ActivityTask 9 4 "b" 30] /\
  map timeless (refresh_activities (fun _ => 30) (mst demo_core) [4; 1]) ≡ₚ
    List.filter (fun t => still_scheduled (mst demo_core) (target_event_id t)) (activity_tasks (made demo_core)).
Proof.
  split; [by vm_compute|]. split; [by vm_compute|].
  refine (proj1 (proj2 (refresh_regenerates 0 9 1 1 "order" 0 "q" demo_ops (fun _ => 30) [4; 1] [3] [8; 7] demo_core eq_refl _ _ _ _))).
  - by vm_compute.
  - replace (map_to_list (activities (mst demo_core))).*1 with [4; 1] by (by vm_compute). done.
  - replace (map_to_list (child_workflows (mst demo_core))).*1 with [3] by (by vm_compute). done.
  - replace (map_to_list (timers (mst demo_core))).*1 with [7; 8] by (by vm_compute). apply perm_swap.
Defined.

(** A closed execution still takes commands: it schedules activities and closes again with another outcome. *)
Lemma closed_execution_takes_commands :
  let k := core_run (core_new 0 9 1 1 "order" 0 "q") [Batch [(1, 1, CompleteWorkflow None); (2, 2, demo_activity "a"); (3, 3, FailWorkflow "late" 0)]] in
  status (mst k) = 3 /\ close_time_ms (mst k) = Some 3 /\ activity_tasks (made k) = [mkTransfer ActivityTask 9 2 "a" 0].
Proof. by vm_compute. Qed.

(** Children are stored by the event that initiated them but canceled by workflow key, and the key is never filled in: canceling
    finds a child only by accident, and is logged as a success either way. *)
Lemma cancel_child_misses :
  let k := core_run (core_new 0 9 1 1 "order" 0 "q") [Batch [(1, 1, demo_child); (2, 2, CancelChildWorkflow 0)]] in
  c_workflow_key <$> child_workflows (mst k) !! 1 = Some 0 /\ c_state <$> child_workflows (mst k) !! 1 = Some ChInitiated /\
  map l_success (processed_commands (proc k)) = [true; true].
Proof. by vm_compute. Qed.

(** A finished activity can be canceled. *)
Lemma completed_activity_canceled :
  let k := core_run (core_new 0 9 1 1 "order" 0 "q") [Batch [(1, 1, demo_activity "a")]; ActivityTo 1 ActCompleted; Batch [(2, 2, RequestCancelActivity 1)]] in
  a_state <$> activities (mst k) !! 1 = Some ActCanceled.
Proof. by vm_compute. Qed.

(** The refreshed task of a child has lost its task queue. *)
Lemma refreshed_child_loses_queue :
  let k := core_run (core_new 0 9 1 1 "order" 0 "q") [Batch [(1, 1, demo_child)]] in
  omap (transfer_of StartChildExecution) (made k) = [mkTransfer StartChildExecution 9 1 "children" 1] /\
  refresh_children (fun _ => 1) (mst k) [1] = [mkTransfer StartChildExecution 9 1 "" 1].
Proof. by vm_compute. Qed.

End CoreRun.
