(* ===== verification/CoreTx.v ===== *)
(** * Transactions, workflow tasks, timer order and checksum of the mutable state

    [core_internals.rs], parts 4, 5, 7 and 8.  Module [Tx]: snapshots, commit and rollback.  Module [WfTask]: the workflow task
    of an execution.  Module [TimerSeq]: the ordered timers.  Module [Sum]: the checksum.  The order in which the source walks a
    [HashMap] is an argument. *)

From S2P Require Import Prelude Text CoreState.

Module Tx.
Import MState Tasks Commands Refresh CoreRun.

Inductive TransactionState : Type := Open | Committed | RolledBack.

#[export] Instance tx_state_eq_dec : EqDecision TransactionState.
Proof. solve_decision. Defined.

Record MutableStateSnapshot : Type := mkSnapshot {
  sn_workflow_key : Z;
  sn_status : Z;
  sn_close_time_ms : option Z;
  sn_next_event_id : Z;
  activity_states : gmap Z ActivityMutableState;
  timer_states : gmap Z TimerMutableState;
  child_states : gmap Z ChildWorkflowMutableState;
  signal_ids : gset string;
  external_request_count : nat;
  sn_mutation_count : Z;
}.

Record TransactionInfo : Type := mkTx {
  tx_id : Z;
  tx_state : TransactionState;
  started_at_ms : Z;
  completed_at_ms : option Z;
  commands_processed : Z;
  tasks_generated : Z;
}.

Record TransactionManager : Type := mkManager {
  snapshots : list (Z * MutableStateSnapshot);
  transactions : gmap Z TransactionInfo;
  next_tx_id : Z;
  total_committed : Z;
  total_rolled_back : Z;
}.

Definition manager_new : TransactionManager := mkManager [] ∅ 1 0 0.

Definition take_snapshot (s : WorkflowMutableState) : MutableStateSnapshot :=
  mkSnapshot (workflow_key (ident s)) (status s) (close_time_ms s) (next_event_id s) (a_state <$> activities s) (t_state <$> timers s)
    (c_state <$> child_workflows s) (signal_request_ids s) (length (external_requests s)) (mutation_count s).

Definition begin (now : Z) (m : TransactionManager) (s : WorkflowMutableState) : TransactionManager * Z :=
  let id := next_tx_id m in
  (mkManager (snapshots m ++ [(id, take_snapshot s)]) (<[id := mkTx id Open now None 0 0]> (transactions m)) (wrap 64 (id + 1))
     (total_committed m) (total_rolled_back m), id).

Definition commit (now : Z) (m : TransactionManager) (id commands tasks : Z) : TransactionManager * bool :=
  match transactions m !! id with
  | Some tx =>
      if bool_decide (tx_state tx <> Open) then (m, false)
      else (mkManager (snapshots m) (<[id := mkTx (tx_id tx) Committed (started_at_ms tx) (Some now) commands tasks]> (transactions m))
              (next_tx_id m) (wrap 64 (total_committed m + 1)) (total_rolled_back m), true)
  | None => (m, false)
  end.

Definition rollback (now : Z) (m : TransactionManager) (id : Z) : TransactionManager * option MutableStateSnapshot :=
  match transactions m !! id with
  | Some tx =>
      if bool_decide (tx_state tx <> Open) then (m, None)
      else
        let txs := <[id := mkTx (tx_id tx) RolledBack (started_at_ms tx) (Some now) (commands_processed tx) (tasks_generated tx)]> (transactions m) in
        match position (fun p => p.1 =? id) (snapshots m) with
        | Some pos =>
            (mkManager (vec_remove pos (snapshots m)) txs (next_tx_id m) (total_committed m) (wrap 64 (total_rolled_back m + 1)),
             snd <$> snapshots m !! pos)
        | None => (mkManager (snapshots m) txs (next_tx_id m) (total_committed m) (wrap 64 (total_rolled_back m + 1)), None)
        end
  | None => (m, None)
  end.

Definition restore_activity (sn : MutableStateSnapshot) (s : WorkflowMutableState) (ev : Z) : WorkflowMutableState :=
  match activity_states sn !! ev with Some st => (update_activity_state s ev st).1 | None => s end.
Definition restore_timer (sn : MutableStateSnapshot) (s : WorkflowMutableState) (id : Z) : WorkflowMutableState :=
  match timer_states sn !! id with
  | Some TmFired => (fire_timer s id).1
  | Some TmCanceled => (cancel_timer s id).1
  | _ => s
  end.
Definition restore_child (sn : MutableStateSnapshot) (s : WorkflowMutableState) (ev : Z) : WorkflowMutableState :=
  match child_states sn !! ev with Some st => (update_child_state s ev st).1 | None => s end.

(** The three loops, over the keys of the snapshot in the orders given. *)
Definition apply_snapshot (sn : MutableStateSnapshot) (s : WorkflowMutableState) (acts tms children : list Z) : WorkflowMutableState :=
  let s := with_status s (sn_status sn) (sn_close_time_ms sn) (mutation_count s) in
  let s := fold_left (restore_activity sn) acts s in
  let s := fold_left (restore_timer sn) tms s in
  fold_left (restore_child sn) children s.

Definition open_transactions (m : TransactionManager) : nat :=
  size (filter (fun p => tx_state p.2 = Open) (transactions m)).

(** *** Runs *)

Record sys : Type := mkSys {
  mgr : TransactionManager;
  exn : core;
}.

Inductive tx_op : Type :=
| Begin (now : Z)
| Commit (now id commands tasks : Z)
| Rollback (now id : Z) (acts tms children : list Z)
| Work (op : core_op).

Definition tx_step (x : sys) (op : tx_op) : sys :=
  match op with
  | Begin now => mkSys (begin now (mgr x) (mst (exn x))).1 (exn x)
  | Commit now id c t => mkSys (commit now (mgr x) id c t).1 (exn x)
  | Rollback now id acts tms children =>
      match rollback now (mgr x) id with
      | (m, Some sn) => mkSys m (mkCore (proc (exn x)) (apply_snapshot sn (mst (exn x)) acts tms children) (made (exn x)))
      | (m, None) => mkSys m (exn x)
      end
  | Work op => mkSys (mgr x) (core_step (exn x) op)
  end.

Definition tx_run (x : sys) (ops : list tx_op) : sys := fold_left tx_step ops x.

(** Operations that leave transaction [id] open. *)
Definition spares (id : Z) (op : tx_op) : Prop :=
  match op with Commit _ i _ _ | Rollback _ i _ _ _ => i <> id | _ => True end.

(** *** Applying a snapshot *)

Lemma fold_proj {S T K} (proj : S -> T) (f : S -> K -> S) (g : T -> K -> T) l :
  (forall s k, proj (f s k) = g (proj s) k) -> forall s, proj (fold_left f l s) = fold_left g l (proj s).
Proof. intros H. induction l as [|k l IH]; intros s; cbn; [done|]. by rewrite IH, H. Qed.

(** Updating the keys of a list, each with its own idempotent function. *)
Definition touch {A} (upd : Z -> option (A -> A)) (m : gmap Z A) (k : Z) : gmap Z A :=
  match upd k with Some f => alter f k m | None => m end.

Lemma touch_lookup {A} (upd : Z -> option (A -> A)) order (Hid : forall k f a, upd k = Some f -> f (f a) = f a) : forall m k,
  fold_left (touch upd) order m !! k = (fun a => if bool_decide (k ∈ order) then default id (upd k) a else a) <$> m !! k.
Proof.
  induction order as [|x order IH]; intros m k; cbn.
  { rewrite bool_decide_eq_false_2 by apply not_elem_of_nil. by destruct (m !! k). }
  rewrite IH. unfold touch. destruct (decide (k = x)) as [->|Hne].
  - rewrite (bool_decide_eq_true_2 (x ∈ x :: order)) by constructor. destruct (upd x) as [f|] eqn:E; cbn.
    + rewrite lookup_alter_eq. destruct (m !! x) as [a|]; [|done]. cbn. f_equal. case_bool_decide; [by apply (Hid x)|done].
    + destruct (m !! x); [|done]. cbn. by case_bool_decide.
  - rewrite (bool_decide_ext (k ∈ x :: order) (k ∈ order)) by (rewrite elem_of_cons; naive_solver).
    destruct (upd x); [by rewrite lookup_alter_ne|done].
Qed.

Definition activity_update (sn : MutableStateSnapshot) (ev : Z) : option (ActivityMutableInfo -> ActivityMutableInfo) :=
  set_activity_state <$> activity_states sn !! ev.
Definition timer_update (sn : MutableStateSnapshot) (id : Z) : option (TimerMutableInfo -> TimerMutableInfo) :=
  match timer_states sn !! id with Some TmFired => Some (set_timer_state TmFired) | Some TmCanceled => Some (set_timer_state TmCanceled) | _ => None end.
Definition child_update (sn : MutableStateSnapshot) (ev : Z) : option (ChildWorkflowMutableInfo -> ChildWorkflowMutableInfo) :=
  set_child_state <$> child_states sn !! ev.

Lemma insert_alter {A} (m : gmap Z A) k a f : m !! k = Some a -> <[k := f a]> m = alter f k m.
Proof.
  intros H. apply map_eq. intros i. destruct (decide (i = k)) as [->|]; [by rewrite lookup_insert_eq, lookup_alter_eq, H|].
  by rewrite lookup_insert_ne, lookup_alter_ne.
Qed.

Lemma alter_missing {A} (m : gmap Z A) k f : m !! k = None -> alter f k m = m.
Proof.
  intros H. apply map_eq. intros i. destruct (decide (i = k)) as [->|]; [by rewrite lookup_alter_eq, H|]. by rewrite lookup_alter_ne.
Qed.

(** What a restoring step does to the four parts. *)
Definition parts (s : WorkflowMutableState) : Z * option Z * gmap Z ActivityMutableInfo * gmap Z TimerMutableInfo * gmap Z ChildWorkflowMutableInfo :=
  (status s, close_time_ms s, activities s, timers s, child_workflows s).

Lemma restore_activity_parts sn s ev :
  parts (restore_activity sn s ev) = (status s, close_time_ms s, touch (activity_update sn) (activities s) ev, timers s, child_workflows s).
Proof.
  unfold restore_activity, touch, activity_update, update_activity_state. destruct (activity_states sn !! ev) as [st|]; [|done]. cbn.
  destruct (activities s !! ev) as [a|] eqn:E; cbn; [by rewrite (insert_alter _ _ _ _ E)|by rewrite alter_missing].
Qed.

Lemma restore_timer_parts sn s id :
  parts (restore_timer sn s id) = (status s, close_time_ms s, activities s, touch (timer_update sn) (timers s) id, child_workflows s).
Proof.
  unfold restore_timer, touch, timer_update, fire_timer, cancel_timer, update_timer.
  destruct (timer_states sn !! id) as [[]|]; cbn; try done;
    (destruct (timers s !! id) as [t|] eqn:E; cbn; [by rewrite (insert_alter _ _ _ _ E)|by rewrite alter_missing]).
Qed.

Lemma restore_child_parts sn s ev :
  parts (restore_child sn s ev) = (status s, close_time_ms s, activities s, timers s, touch (child_update sn) (child_workflows s) ev).
Proof.
  unfold restore_child, touch, child_update, update_child_state. destruct (child_states sn !! ev) as [st|]; [|done]. cbn.
  destruct (child_workflows s !! ev) as [a|] eqn:E; cbn; [by rewrite (insert_alter _ _ _ _ E)|by rewrite alter_missing].
Qed.

Lemma apply_snapshot_parts sn s acts tms children :
  parts (apply_snapshot sn s acts tms children) =
    (sn_status sn, sn_close_time_ms sn, fold_left (touch (activity_update sn)) acts (activities s),
     fold_left (touch (timer_update sn)) tms (timers s), fold_left (touch (child_update sn)) children (child_workflows s)).
Proof.
  unfold apply_snapshot.
  rewrite (fold_proj parts (restore_child sn) (fun p ev => (p.1, touch (child_update sn) p.2 ev))) by apply restore_child_parts.
  rewrite (fold_proj parts (restore_timer sn) (fun p id => (p.1.1, touch (timer_update sn) p.1.2 id, p.2))) by apply restore_timer_parts.
  rewrite (fold_proj parts (restore_activity sn) (fun p ev => (p.1.1.1, touch (activity_update sn) p.1.1.2 ev, p.1.2, p.2))) by apply restore_activity_parts.
  change (parts (with_status s (sn_status sn) (sn_close_time_ms sn) (mutation_count s)))
    with (sn_status sn, sn_close_time_ms sn, activities s, timers s, child_workflows s).
  generalize (activities s) as ma. induction acts as [|x acts IHa]; intros ma; cbn; [|apply IHa].
  generalize (timers s) as mt. induction tms as [|x tms IHt]; intros mt; cbn; [|apply IHt].
  generalize (child_workflows s) as mc. induction children as [|x children IHc]; intros mc; cbn; [done|apply IHc].
Qed.

(** *** Nothing is removed *)

Record grows (s s' : WorkflowMutableState) : Prop := mkGrows {
  g_acts : dom (activities s) ⊆ dom (activities s');
  g_timers : dom (timers s) ⊆ dom (timers s');
  g_children : dom (child_workflows s) ⊆ dom (child_workflows s');
}.

#[export] Instance grows_preorder : PreOrder grows.
Proof. split; [by intros s; constructor|]. intros s1 s2 s3 [] []. constructor; by etrans. Qed.

Ltac by_grows := constructor; cbn; rewrite ?dom_insert; set_solver.

Lemma activity_grows s ev st : grows s (update_activity_state s ev st).1.
Proof. unfold update_activity_state. destruct (activities s !! ev); by_grows. Qed.
Lemma timer_grows s id st : grows s (update_timer s id st).1.
Proof. unfold update_timer. destruct (timers s !! id); by_grows. Qed.
Lemma child_grows s ev st : grows s (update_child_state s ev st).1.
Proof. unfold update_child_state. destruct (child_workflows s !! ev); by_grows. Qed.
Lemma heartbeat_grows now s ev d : grows s (record_activity_heartbeat now s ev d).1.
Proof. unfold record_activity_heartbeat. destruct (activities s !! ev); by_grows. Qed.

Lemma command_grows t1 t2 s ev cmd : grows s (process_command t1 t2 s ev cmd).1.1.
Proof.
  destruct cmd; cbn [process_command fst snd]; try (by_grows); [apply child_grows|apply timer_grows|apply activity_grows].
Qed.

Lemma loop_grows cmds : forall p s, grows s (process_loop p s cmds).1.2.
Proof.
  induction cmds as [|[[t1 t2] cmd] cmds IH]; intros p s; cbn [process_loop]; [done|].
  unfold take_event_id. cbn [fst snd].
  pose proof (command_grows t1 t2 (with_event_id s (wrap 64 (next_event_id s + 1))) (next_event_id s) cmd) as C.
  destruct (process_command _ _ _ _ _) as [[s1 ts] name]. cbn [fst] in C.
  match goal with |- context [process_loop ?p' s1 cmds] => pose proof (IH p' s1) as I; destruct (process_loop p' s1 cmds) as [[p2 s2] rest] end.
  cbn [fst snd] in *. etrans; [|exact I]. etrans; [|exact C]. by_grows.
Qed.

Lemma core_step_grows k op : grows (mst k) (mst (core_step k op)).
Proof.
  destruct op; cbn [core_step on_state mst];
    [|apply activity_grows|apply heartbeat_grows|apply timer_grows|apply timer_grows|apply child_grows|by_grows..].
  pose proof (loop_grows cmds (proc k) (mst k)) as L. unfold process_commands.
  by destruct (process_loop (proc k) (mst k) cmds) as [[p s] ts].
Qed.

Lemma fold_grows {K} (f : WorkflowMutableState -> K -> WorkflowMutableState) l (Hf : forall s k, grows s (f s k)) : forall s, grows s (fold_left f l s).
Proof. induction l as [|k l IH]; intros s; cbn; [done|]. etrans; [apply Hf|apply IH]. Qed.

Lemma apply_snapshot_grows sn s acts tms children : grows s (apply_snapshot sn s acts tms children).
Proof.
  unfold apply_snapshot. etrans; [|apply fold_grows]; [etrans; [|apply fold_grows]; [etrans; [|apply fold_grows]|]|].
  - by_grows.
  - intros s' ev. unfold restore_activity. destruct (activity_states sn !! ev); [apply activity_grows|done].
  - intros s' id. unfold restore_timer. destruct (timer_states sn !! id) as [[]|]; try done; apply timer_grows.
  - intros s' ev. unfold restore_child. destruct (child_states sn !! ev); [apply child_grows|done].
Qed.

Lemma tx_step_grows x op : grows (mst (exn x)) (mst (exn (tx_step x op))).
Proof.
  destruct op; cbn [tx_step]; [done|done| |apply core_step_grows].
  destruct (rollback now (mgr x) id) as [m [sn|]]; [apply apply_snapshot_grows|done].
Qed.

Lemma tx_run_grows ops : forall x, grows (mst (exn x)) (mst (exn (tx_run x ops))).
Proof. induction ops as [|op ops IH]; intros x; cbn; [done|]. etrans; [apply tx_step_grows|apply IH]. Qed.

(** *** The snapshot of an open transaction is kept *)

Definition snapshot_of (id : Z) (l : list (Z * MutableStateSnapshot)) : option MutableStateSnapshot :=
  snd <$> List.find (fun p => p.1 =? id) l.

Record mgr_inv (n : nat) (m : TransactionManager) : Prop := mkMgrInv {
  m_next : 1 <= next_tx_id m <= Z.of_nat n + 1;
  m_snaps : Forall (fun p => p.1 < next_tx_id m) (snapshots m);
}.

(** Transaction [id] is open, and the first snapshot under its name is [sn]. *)
Definition holds (id : Z) (sn : MutableStateSnapshot) (m : TransactionManager) : Prop :=
  id < next_tx_id m /\ (exists tx, transactions m !! id = Some tx /\ tx_state tx = Open) /\ snapshot_of id (snapshots m) = Some sn.

Lemma position_find {A} (p : A -> bool) l : (position p l ≫= fun i => l !! i) = List.find p l.
Proof. induction l as [|x l IH]; cbn; [done|]. destruct (p x); [done|]. rewrite <- IH. by destruct (position p l). Qed.

Lemma find_vec_remove {A} (p q : A -> bool) l i (Hd : forall x, q x = true -> p x = false) :
  position q l = Some i -> List.find p (vec_remove i l) = List.find p l.
Proof.
  revert i. induction l as [|x l IH]; intros i; cbn; [done|]. destruct (q x) eqn:Q.
  - intros [= <-]. by rewrite (Hd x Q).
  - destruct (position q l) as [j|]; cbn; [|done]. intros [= <-]. cbn. by rewrite (IH j).
Qed.

Lemma rollback_mgr now m id n :
  mgr_inv n m -> mgr_inv n (rollback now m id).1.
Proof.
  intros [Hn Hs]. unfold rollback. destruct (transactions m !! id) as [tx|]; [|done]. case_bool_decide; [done|].
  destruct (position _ (snapshots m)) as [pos|]; constructor; cbn; try done.
  apply (sublist_Forall _ _ (snapshots m)); [apply vec_remove_sublist|done].
Qed.

Lemma commit_mgr now m id c t n : mgr_inv n m -> mgr_inv n (commit now m id c t).1.
Proof.
  intros [Hn Hs]. unfold commit. destruct (transactions m !! id) as [tx|]; [|done]. by case_bool_decide.
Qed.

Lemma begin_mgr now m s n : mgr_inv n m -> Z.of_nat n + 2 < 2 ^ 64 -> mgr_inv (S n) (begin now m s).1.
Proof.
  intros [Hn Hs] Hb. constructor; cbn; rewrite wrap_id by (unfold fits; lia); [lia|].
  apply Forall_app. split; [|constructor; [cbn; lia|done]]. eapply Forall_impl; [exact Hs|]. cbn. lia.
Qed.

Lemma mgr_inv_weaken n n' m : mgr_inv n m -> (n <= n')%nat -> mgr_inv n' m.
Proof. intros [] H. constructor; [lia|done]. Qed.

Lemma tx_step_mgr n x op : mgr_inv n (mgr x) -> Z.of_nat n + 2 < 2 ^ 64 -> mgr_inv (S n) (mgr (tx_step x op)).
Proof.
  intros I Hb. destruct op; cbn [tx_step mgr].
  - by apply begin_mgr.
  - apply (mgr_inv_weaken n); [by apply commit_mgr|lia].
  - pose proof (rollback_mgr now (mgr x) id n I) as R. destruct (rollback now (mgr x) id) as [m [sn|]]; (apply (mgr_inv_weaken n); [done|lia]).
  - apply (mgr_inv_weaken n); [done|lia].
Qed.

Lemma tx_run_mgr ops : forall n x,
  mgr_inv n (mgr x) -> Z.of_nat n + Z.of_nat (length ops) + 1 < 2 ^ 64 -> mgr_inv (n + length ops) (mgr (tx_run x ops)).
Proof.
  induction ops as [|op ops IH]; intros n x I Hb; cbn [tx_run fold_left length] in *; [by rewrite Nat.add_0_r|].
  rewrite Nat.add_succ_r. apply (IH (S n)); [apply tx_step_mgr; [done|lia]|lia].
Qed.

Lemma begin_holds now m s n : mgr_inv n m -> Z.of_nat n + 2 < 2 ^ 64 -> holds (next_tx_id m) (take_snapshot s) (begin now m s).1.
Proof.
  intros [Hn Hs] Hb. split_and!; cbn.
  - rewrite wrap_id by (unfold fits; lia). lia.
  - eexists. by rewrite lookup_insert_eq.
  - unfold snapshot_of. induction Hs as [|[i sn] l Hi _ IH]; cbn in *; [by rewrite Z.eqb_refl|]. by rewrite (proj2 (Z.eqb_neq _ _)) by lia.
Qed.

Lemma find_app_some {A} (p : A -> bool) l1 l2 x : List.find p l1 = Some x -> List.find p (l1 ++ l2) = Some x.
Proof. induction l1 as [|y l1 IH]; cbn; [done|]. by destruct (p y). Qed.

Lemma begin_keeps now m s id sn n :
  mgr_inv n m -> Z.of_nat n + 2 < 2 ^ 64 -> holds id sn m -> holds id sn (begin now m s).1.
Proof.
  intros [Hn Hs] Hb (Hi & (tx & Htx & Ho) & Hsn). split_and!; cbn.
  - rewrite wrap_id by (unfold fits; lia). lia.
  - exists tx. rewrite lookup_insert_ne by lia. done.
  - unfold snapshot_of in *. destruct (List.find _ (snapshots m)) as [p|] eqn:E; [|done]. by rewrite (find_app_some _ _ _ _ E).
Qed.

Lemma commit_keeps now m i c t id sn : i <> id -> holds id sn m -> holds id sn (commit now m i c t).1.
Proof.
  intros Hne (Hi & (tx & Htx & Ho) & Hsn). unfold commit. destruct (transactions m !! i) as [tx'|]; [|by split_and!; eauto].
  case_bool_decide; [by split_and!; eauto|]. split_and!; cbn; [done| |done]. exists tx. by rewrite lookup_insert_ne.
Qed.

Lemma rollback_keeps now m i id sn : i <> id -> holds id sn m -> holds id sn (rollback now m i).1.
Proof.
  intros Hne (Hi & (tx & Htx & Ho) & Hsn). unfold rollback. destruct (transactions m !! i) as [tx'|]; [|by split_and!; eauto].
  case_bool_decide; [by split_and!; eauto|].
  destruct (position (fun p => p.1 =? i) (snapshots m)) as [pos|] eqn:P; split_and!; cbn; try done;
    try (exists tx; by rewrite lookup_insert_ne).
  unfold snapshot_of. erewrite find_vec_remove; [exact Hsn| |exact P]. intros [j s] Hj%Z.eqb_eq. cbn in *. apply Z.eqb_neq. lia.
Qed.

Lemma tx_run_keeps id sn ops : forall n x,
  mgr_inv n (mgr x) -> Z.of_nat n + Z.of_nat (length ops) + 1 < 2 ^ 64 -> Forall (spares id) ops ->
  holds id sn (mgr x) -> holds id sn (mgr (tx_run x ops)).
Proof.
  induction ops as [|op ops IH]; intros n x I Hb Hs Hh; cbn [tx_run fold_left length] in *; [done|].
  inversion Hs as [|? ? Hop Hrest]; subst.
  apply (IH (S n)); [apply tx_step_mgr; [done|lia]|lia|done|]. destruct op; cbn [tx_step mgr spares] in *.
  - by apply (begin_keeps _ _ _ _ _ n I ltac:(lia)).
  - by apply commit_keeps.
  - pose proof (rollback_keeps now (mgr x) id0 id sn Hop Hh) as R. by destruct (rollback now (mgr x) id0) as [m [sn'|]].
  - done.
Qed.

(** Rolling back hands out the snapshot and closes the transaction. *)
Lemma rollback_hands_out now m id sn :
  holds id sn m -> exists m', rollback now m id = (m', Some sn) /\ exists tx, transactions m' !! id = Some tx /\ tx_state tx = RolledBack.
Proof.
  intros (_ & (tx & Htx & Ho) & Hsn). unfold rollback. rewrite Htx, bool_decide_eq_false_2 by (rewrite Ho; naive_solver).
  unfold snapshot_of in Hsn. rewrite <- position_find in Hsn.
  destruct (position _ (snapshots m)) as [pos|]; [|done]. cbn in Hsn. rewrite Hsn.
  eexists. split; [done|]. eexists. cbn. rewrite lookup_insert_eq. done.
Qed.

Lemma closed_rollback now m id tx : transactions m !! id = Some tx -> tx_state tx <> Open -> rollback now m id = (m, None).
Proof. intros H Hne. unfold rollback. by rewrite H, bool_decide_eq_true_2. Qed.
Lemma closed_commit now m id tx c t : transactions m !! id = Some tx -> tx_state tx <> Open -> commit now m id c t = (m, false).
Proof. intros H Hne. unfold commit. by rewrite H, bool_decide_eq_true_2. Qed.

(** *** What a rollback restores *)

(** [s] put back to [s0]: the states of everything [s0] had, except the timers that were running. *)
Record restored (s0 s s' : WorkflowMutableState) : Prop := mkRestored {
  r_status : status s' = status s0 /\ close_time_ms s' = close_time_ms s0;
  r_old_activity : forall ev a0, activities s0 !! ev = Some a0 ->
    exists a, activities s !! ev = Some a /\ activities s' !! ev = Some (set_activity_state (a_state a0) a);
  r_new_activity : forall ev, activities s0 !! ev = None -> activities s' !! ev = activities s !! ev;
  r_old_child : forall ev c0, child_workflows s0 !! ev = Some c0 ->
    exists c, child_workflows s !! ev = Some c /\ child_workflows s' !! ev = Some (set_child_state (c_state c0) c);
  r_new_child : forall ev, child_workflows s0 !! ev = None -> child_workflows s' !! ev = child_workflows s !! ev;
  r_old_timer : forall id t0, timers s0 !! id = Some t0 ->
    exists t, timers s !! id = Some t /\
      timers s' !! id = Some (if bool_decide (t_state t0 = TmFired \/ t_state t0 = TmCanceled) then set_timer_state (t_state t0) t else t);
  r_new_timer : forall id, timers s0 !! id = None -> timers s' !! id = timers s !! id;
}.

Lemma in_keys {A} (m : gmap Z A) order k : order ≡ₚ (map_to_list m).*1 -> k ∈ order <-> is_Some (m !! k).
Proof.
  intros ->. rewrite list_elem_of_fmap. split.
  - intros ([k' a] & -> & H). apply elem_of_map_to_list in H. cbn. eauto.
  - intros [a H]. exists (k, a). split; [done|]. by apply elem_of_map_to_list.
Qed.

Lemma dom_sub_lookup {A} (m m' : gmap Z A) k a : dom m ⊆ dom m' -> m !! k = Some a -> is_Some (m' !! k).
Proof. intros Hd Hk. apply elem_of_dom, Hd, elem_of_dom. eauto. Qed.

Lemma touch_old {A} (upd : Z -> option (A -> A)) (m0 m : gmap Z A) order k a0 :
  (forall k f a, upd k = Some f -> f (f a) = f a) -> order ≡ₚ (map_to_list m0).*1 -> dom m0 ⊆ dom m -> m0 !! k = Some a0 ->
  exists a, m !! k = Some a /\ fold_left (touch upd) order m !! k = Some (default id (upd k) a).
Proof.
  intros Hid Ho Hd Hk. destruct (dom_sub_lookup _ _ _ _ Hd Hk) as [a Ha]. exists a. split; [done|].
  rewrite touch_lookup, Ha by done. cbn. rewrite bool_decide_eq_true_2; [done|]. apply (in_keys m0 order k Ho). eauto.
Qed.

Lemma touch_new {A} (upd : Z -> option (A -> A)) (m0 m : gmap Z A) order k :
  (forall k f a, upd k = Some f -> f (f a) = f a) -> order ≡ₚ (map_to_list m0).*1 -> m0 !! k = None ->
  fold_left (touch upd) order m !! k = m !! k.
Proof.
  intros Hid Ho Hk. rewrite touch_lookup, bool_decide_eq_false_2 by (done || rewrite (in_keys m0 order k Ho), Hk; by intros []).
  by destruct (m !! k).
Qed.

Lemma activity_update_idem sn k f a : activity_update sn k = Some f -> f (f a) = f a.
Proof. unfold activity_update. destruct (activity_states sn !! k); [|done]. by intros [= <-]. Qed.
Lemma child_update_idem sn k f a : child_update sn k = Some f -> f (f a) = f a.
Proof. unfold child_update. destruct (child_states sn !! k); [|done]. by intros [= <-]. Qed.
Lemma timer_update_idem sn k f a : timer_update sn k = Some f -> f (f a) = f a.
Proof. unfold timer_update. by destruct (timer_states sn !! k) as [[]|]; intros [= <-]. Qed.

Lemma apply_restores s0 s acts tms children :
  grows s0 s -> acts ≡ₚ (map_to_list (activities s0)).*1 -> tms ≡ₚ (map_to_list (timers s0)).*1 ->
  children ≡ₚ (map_to_list (child_workflows s0)).*1 -> restored s0 s (apply_snapshot (take_snapshot s0) s acts tms children).
Proof.
  intros [Ga Gt Gc] Ha Ht Hc. pose proof (apply_snapshot_parts (take_snapshot s0) s acts tms children) as P.
  unfold parts in P. injection P as E1 E2 E3 E4 E5. constructor; rewrite ?E1, ?E2, ?E3, ?E4, ?E5; [done|..].
  - intros ev a0 Hev. destruct (touch_old _ _ _ _ _ _ (activity_update_idem (take_snapshot s0)) Ha Ga Hev) as (a & ? & H).
    exists a. split; [done|]. rewrite H. unfold activity_update. cbn. by rewrite lookup_fmap, Hev.
  - intros ev Hev. apply (touch_new _ (activities s0)); [apply activity_update_idem|done|done].
  - intros ev a0 Hev. destruct (touch_old _ _ _ _ _ _ (child_update_idem (take_snapshot s0)) Hc Gc Hev) as (a & ? & H).
    exists a. split; [done|]. rewrite H. unfold child_update. cbn. by rewrite lookup_fmap, Hev.
  - intros ev Hev. apply (touch_new _ (child_workflows s0)); [apply child_update_idem|done|done].
  - intros ev a0 Hev. destruct (touch_old _ _ _ _ _ _ (timer_update_idem (take_snapshot s0)) Ht Gt Hev) as (a & ? & H).
    exists a. split; [done|]. rewrite H. unfold timer_update. cbn. rewrite lookup_fmap, Hev. cbn. by destruct (t_state a0).
  - intros ev Hev. apply (touch_new _ (timers s0)); [apply timer_update_idem|done|done].
Qed.

(** C12. Whatever transactions came before, and whatever was done inside this one - commands processed, objects moved on,
    other transactions begun, committed or rolled back, nested or not - rolling a transaction back finds the snapshot taken when
    it began.  The status and the close time of that moment are back, and every activity and child that existed then has the state
    it had then, in whatever order the snapshot is walked; timers that had fired or were canceled are so again.  What was added
    since is left alone.  The transaction is closed: a second rollback finds nothing, and it cannot be committed. *)
Theorem rollback_restores (k0 : core) (ops1 ops2 : list tx_op) (t1 t2 t3 id : Z) (acts tms children : list Z) (x1 x2 x3 : sys)
  (H1 : x1 = tx_run (mkSys manager_new k0) ops1) (Hid : id = (begin t1 (mgr x1) (mst (exn x1))).2)
  (H2 : x2 = tx_run (tx_step x1 (Begin t1)) ops2) (H3 : x3 = tx_step x2 (Rollback t2 id acts tms children))
  (Hs : Forall (spares id) ops2) (Hb : Z.of_nat (length ops1) + Z.of_nat (length ops2) + 2 < 2 ^ 64)
  (Ha : acts ≡ₚ (map_to_list (activities (mst (exn x1)))).*1) (Ht : tms ≡ₚ (map_to_list (timers (mst (exn x1)))).*1)
  (Hc : children ≡ₚ (map_to_list (child_workflows (mst (exn x1)))).*1) :
  restored (mst (exn x1)) (mst (exn x2)) (mst (exn x3)) /\
  rollback t3 (mgr x3) id = (mgr x3, None) /\ forall c t, commit t3 (mgr x3) id c t = (mgr x3, false).
Proof.
  assert (I0 : mgr_inv 0 (mgr (mkSys manager_new k0))) by (constructor; cbn; [lia|constructor]).
  pose proof (tx_run_mgr ops1 0 _ I0 ltac:(lia)) as I1. rewrite <- H1 in I1. cbn [Nat.add] in I1.
  pose proof (begin_holds t1 (mgr x1) (mst (exn x1)) _ I1 ltac:(lia)) as B.
  pose proof (tx_step_mgr _ x1 (Begin t1) I1 ltac:(lia)) as I1'. cbn in Hid. rewrite <- Hid in B.
  pose proof (tx_run_keeps id _ ops2 _ (tx_step x1 (Begin t1)) I1' ltac:(lia) Hs B) as K. rewrite <- H2 in K.
  destruct (rollback_hands_out t2 _ _ _ K) as (m' & R & tx & Htx & Hst).
  cbn [tx_step] in H3. rewrite R in H3. subst x3. cbn [exn mgr mst]. split_and!.
  - apply apply_restores; [|done..]. rewrite H2. apply (tx_run_grows ops2 (tx_step x1 (Begin t1))).
  - apply (closed_rollback _ _ _ tx); [done|]. by rewrite Hst.
  - intros c t. apply (closed_commit _ _ _ tx); [done|]. by rewrite Hst.
Qed.

Definition tx_demo (ops : list tx_op) : sys :=
  tx_run (mkSys manager_new (core_new 0 9 1 1 "order" 0 "q")) ops.
(** One transaction is open, an activity and a timer are there. *)
Definition before : list tx_op := [Begin 1; Work (Batch [(1, 1, demo_activity "a"); (1, 1, StartTimer 7 10)])].
(** Inside the next one the activity completes, another is scheduled, the execution completes, the other is rolled back. *)
Definition inside : list tx_op :=
  [Work (ActivityTo 1 ActCompleted); Begin 3; Work (Batch [(4, 4, demo_activity "b"); (4, 4, CompleteWorkflow None)]); Rollback 5 3 [1] [7] []].

Lemma rollback_restores_witness :
  let x2 := tx_run (tx_step (tx_demo before) (Begin 2)) inside in
  let x3 := tx_step x2 (Rollback 6 2 [1] [7] []) in
  a_state <$> activities (mst (exn x2)) !! 1 = Some ActCompleted /\ a_state <$> activities (mst (exn x3)) !! 1 = Some ActScheduled /\
  restored (mst (exn (tx_demo before))) (mst (exn x2)) (mst (exn x3)).
Proof.
  split; [by vm_compute|]. split; [by vm_compute|].
  refine (proj1 (rollback_restores (core_new 0 9 1 1 "order" 0 "q") before inside 2 6 7 2 [1] [7] []
    (tx_demo before) (tx_run (tx_step (tx_demo before) (Begin 2)) inside) _ eq_refl _ eq_refl eq_refl _ _ _ _ _)).
  - by vm_compute.
  - repeat constructor. cbn. lia.
  - by vm_compute.
  - replace (map_to_list (activities (mst (exn (tx_demo before))))).*1 with [1] by (by vm_compute). done.
  - replace (map_to_list (timers (mst (exn (tx_demo before))))).*1 with [7] by (by vm_compute). done.
  - replace (map_to_list (child_workflows (mst (exn (tx_demo before))))).*1 with (@nil Z) by (by vm_compute). done.
Defined.

(** A timer that fires inside a transaction stays fired when it is rolled back. *)
Lemma rolled_back_timer_stays_fired :
  let x := tx_run (tx_demo before) [Begin 2; Work (FireTimer 7); Rollback 3 2 [1] [7] []] in
  t_state <$> timers (mst (exn (tx_demo before))) !! 7 = Some TmStarted /\ t_state <$> timers (mst (exn x)) !! 7 = Some TmFired.
Proof. by vm_compute. Qed.

(** What a transaction adds outlives its rollback: the activity is there and its task was generated. *)
Lemma rolled_back_activity_stays :
  let x := tx_demo [Begin 1; Work (Batch [(1, 1, demo_activity "a")]); Work (AddSignalId "s"); Rollback 2 1 [] [] []] in
  a_state <$> activities (mst (exn x)) !! 1 = Some ActScheduled /\ activity_tasks (made (exn x)) = [mkTransfer ActivityTask 9 1 "a" 0] /\
  signal_request_ids (mst (exn x)) = {["s"%string]}.
Proof. by vm_compute. Qed.

(** The snapshot of a committed transaction is never dropped. *)
Lemma committed_snapshot_kept :
  let x := tx_demo [Begin 1; Commit 2 1 0 0; Begin 3; Commit 4 2 0 0] in
  map fst (snapshots (mgr x)) = [1; 2] /\ open_transactions (mgr x) = 0%nat.
Proof. by vm_compute. Qed.

End Tx.

(** ** The workflow task *)

Module WfTask.

Inductive WorkflowTaskState : Type := WtNone | WtScheduled | WtStarted | WtCompleted | WtFailed | WtTimedOut.

#[export] Instance wt_state_eq_dec : EqDecision WorkflowTaskState.
Proof. solve_decision. Defined.

Record WorkflowTaskInfo : Type := mkInfo {
  scheduled_event_id : Z;
  started_event_id : Z;
  state : WorkflowTaskState;
  attempt : Z;
  scheduled_time_ms : Z;
  started_time_ms : option Z;
  request_id : chars;
  task_queue : string;
  sticky_task_queue : option string;
}.

Record WorkflowTaskStateMachine : Type := mkMachine {
  current_task : option WorkflowTaskInfo;
  history : list WorkflowTaskInfo;
  total_scheduled : Z;
  total_completed : Z;
  total_failed : Z;
  total_timed_out : Z;
}.

Definition machine_new : WorkflowTaskStateMachine := mkMachine None [] 0 0 0 0.

Definition schedule (now : Z) (m : WorkflowTaskStateMachine) (event_id : Z) (queue : string) (sticky : option string) : WorkflowTaskStateMachine :=
  let info := mkInfo event_id 0 WtScheduled 1 now None (of_string "wt-req-" ++ print_int event_id) queue sticky in
  mkMachine (Some info) (history m ++ [info]) (wrap 64 (total_scheduled m + 1)) (total_completed m) (total_failed m) (total_timed_out m).

Definition record_started (now : Z) (m : WorkflowTaskStateMachine) (event_id : Z) : WorkflowTaskStateMachine * bool :=
  match current_task m with
  | Some t =>
      if bool_decide (state t <> WtScheduled) then (m, false)
      else (mkMachine (Some (mkInfo (scheduled_event_id t) event_id WtStarted (attempt t) (scheduled_time_ms t) (Some now) (request_id t)
                               (task_queue t) (sticky_task_queue t)))
              (history m) (total_scheduled m) (total_completed m) (total_failed m) (total_timed_out m), true)
  | None => (m, false)
  end.

Definition record_completed (m : WorkflowTaskStateMachine) : WorkflowTaskStateMachine * bool :=
  match current_task m with
  | Some t =>
      if bool_decide (state t <> WtStarted) then (m, false)
      else (mkMachine None (history m) (total_scheduled m) (wrap 64 (total_completed m + 1)) (total_failed m) (total_timed_out m), true)
  | None => (m, false)
  end.

Definition record_failed (m : WorkflowTaskStateMachine) : WorkflowTaskStateMachine * bool :=
  match current_task m with
  | Some _ => (mkMachine None (history m) (total_scheduled m) (total_completed m) (wrap 64 (total_failed m + 1)) (total_timed_out m), true)
  | None => (m, false)
  end.

Definition record_timed_out (m : WorkflowTaskStateMachine) : WorkflowTaskStateMachine * bool :=
  match current_task m with
  | Some _ => (mkMachine None (history m) (total_scheduled m) (total_completed m) (total_failed m) (wrap 64 (total_timed_out m + 1)), true)
  | None => (m, false)
  end.

Definition has_pending_task (m : WorkflowTaskStateMachine) : bool := match current_task m with Some _ => true | None => false end.

Definition reset_sticky (m : WorkflowTaskStateMachine) : WorkflowTaskStateMachine :=
  mkMachine ((fun t => mkInfo (scheduled_event_id t) (started_event_id t) (state t) (attempt t) (scheduled_time_ms t) (started_time_ms t)
                         (request_id t) (task_queue t) None) <$> current_task m)
    (history m) (total_scheduled m) (total_completed m) (total_failed m) (total_timed_out m).

Inductive wt_op : Type :=
| Schedule (now event_id : Z) (queue : string) (sticky : option string)
| Started (now event_id : Z)
| Completed
| Failed
| TimedOut
| ResetSticky.

Definition wt_step (m : WorkflowTaskStateMachine) (op : wt_op) : WorkflowTaskStateMachine :=
  match op with
  | Schedule now ev q st => schedule now m ev q st
  | Started now ev => (record_started now m ev).1
  | Completed => (record_completed m).1
  | Failed => (record_failed m).1
  | TimedOut => (record_timed_out m).1
  | ResetSticky => reset_sticky m
  end.

(** The run, counting the tasks that were replaced while still current. *)
Definition wt_count (p : WorkflowTaskStateMachine * nat) (op : wt_op) : WorkflowTaskStateMachine * nat :=
  (wt_step p.1 op, match op with Schedule _ _ _ _ => if has_pending_task p.1 then S p.2 else p.2 | _ => p.2 end).
Definition wt_run (ops : list wt_op) : WorkflowTaskStateMachine * nat := fold_left wt_count ops (machine_new, 0%nat).

Record wt_inv (n : nat) (p : WorkflowTaskStateMachine * nat) : Prop := mkWtInv {
  w_nonneg : 0 <= total_completed p.1 /\ 0 <= total_failed p.1 /\ 0 <= total_timed_out p.1;
  w_balance : total_scheduled p.1 = total_completed p.1 + total_failed p.1 + total_timed_out p.1 + Z.of_nat p.2 + Z.b2z (has_pending_task p.1);
  w_bound : total_scheduled p.1 <= Z.of_nat n;
  w_history : Z.of_nat (length (history p.1)) = total_scheduled p.1;
  w_current : forall t, current_task p.1 = Some t -> state t = WtScheduled \/ state t = WtStarted;
}.

Lemma wt_inv_step n p op : wt_inv n p -> Z.of_nat n + 1 < 2 ^ 64 -> wt_inv (S n) (wt_count p op).
Proof.
  intros [(N1 & N2 & N3) B U H C] Hn. destruct p as [[cur hist sc co fa ti] r]. cbn in *.
  assert (Hr : 0 <= Z.of_nat r) by lia.
  assert (W : forall z, 0 <= z <= sc -> wrap 64 (z + 1) = z + 1) by (intros; apply wrap_id; unfold fits; lia).
  destruct op, cur as [t|]; unfold wt_count, wt_step; cbn in *; unfold record_started, record_completed, record_failed, record_timed_out; cbn;
    repeat case_bool_decide; constructor; cbn; rewrite ?length_app, ?W by lia; cbn; try lia; try naive_solver.
Qed.

Lemma wt_inv_run ops : forall n p, wt_inv n p -> Z.of_nat n + Z.of_nat (length ops) < 2 ^ 64 -> wt_inv (n + length ops) (fold_left wt_count ops p).
Proof.
  induction ops as [|op ops IH]; intros n p I Hb; cbn [fold_left length] in *; [by rewrite Nat.add_0_r|].
  rewrite Nat.add_succ_r. apply (IH (S n)); [apply wt_inv_step; [done|lia]|lia].
Qed.

(** The books balance: a scheduled task has completed, failed or timed out, was replaced, or is current. *)
Lemma workflow_task_books ops m r (Hr : wt_run ops = (m, r)) (Hb : Z.of_nat (length ops) < 2 ^ 64) :
  total_scheduled m = total_completed m + total_failed m + total_timed_out m + Z.of_nat r + Z.b2z (has_pending_task m) /\
  Z.of_nat (length (history m)) = total_scheduled m.
Proof.
  assert (I0 : wt_inv 0 (machine_new, 0%nat)) by (constructor; cbn; (done || lia || naive_solver)).
  pose proof (wt_inv_run ops 0 _ I0 ltac:(lia)) as I. unfold wt_run in Hr. rewrite Hr in I. destruct I. done.
Qed.

(** Scheduling drops a task a worker has started: its completion then reaches the new one's guard. *)
Lemma started_task_replaced :
  let m := (wt_run [Schedule 1 5 "q" None; Started 2 6; Schedule 3 7 "q" None]).1 in
  (record_completed m).2 = false /\ scheduled_event_id <$> current_task m = Some 7 /\ (wt_run [Schedule 1 5 "q" None; Started 2 6; Schedule 3 7 "q" None]).2 = 1%nat.
Proof. by vm_compute. Qed.

(** The history shows every task as just scheduled, whatever became of it. *)
Lemma history_frozen :
  map state (history (wt_run [Schedule 1 5 "q" None; Started 2 6; Completed; Schedule 3 7 "q" None; Failed]).1) = [WtScheduled; WtScheduled].
Proof. by vm_compute. Qed.

End WfTask.

(** ** Timers in order *)

Module TimerSeq.
Import Tasks.

Record TimerSequenceEntry : Type := mkEntry {
  timer_id : Z;
  expiry_time_ms : Z;
  task_type : TimerTaskType;
  event_id : Z;
}.

(** [slice::sort_by_key], which is stable. *)
Fixpoint sort_insert (e : TimerSequenceEntry) (l : list TimerSequenceEntry) : list TimerSequenceEntry :=
  match l with
  | [] => [e]
  | y :: l' => if expiry_time_ms e <=? expiry_time_ms y then e :: l else y :: sort_insert e l'
  end.
Definition sort_by_expiry (l : list TimerSequenceEntry) : list TimerSequenceEntry := foldr sort_insert [] l.

Definition add (timers : list TimerSequenceEntry) (e : TimerSequenceEntry) : list TimerSequenceEntry := sort_by_expiry (timers ++ [e]).

Definition next_to_fire (timers : list TimerSequenceEntry) (now_ms : Z) : option TimerSequenceEntry :=
  match head timers with Some e => if expiry_time_ms e <=? now_ms then Some e else None | None => None end.

Definition remove (timers : list TimerSequenceEntry) (id : Z) : list TimerSequenceEntry * bool :=
  let kept := List.filter (fun e => negb (timer_id e =? id)) timers in (kept, (length kept <? length timers)%nat).

Inductive seq_op : Type := Add (e : TimerSequenceEntry) | Remove (id : Z).

Definition seq_step (l : list TimerSequenceEntry) (op : seq_op) : list TimerSequenceEntry :=
  match op with Add e => add l e | Remove id => (remove l id).1 end.
Definition seq_run (ops : list seq_op) : list TimerSequenceEntry := fold_left seq_step ops [].

(** The entries alive, in the order they were added. *)
Definition alive_step (l : list TimerSequenceEntry) (op : seq_op) : list TimerSequenceEntry :=
  match op with Add e => l ++ [e] | Remove id => List.filter (fun e => negb (timer_id e =? id)) l end.
Definition alive (ops : list seq_op) : list TimerSequenceEntry := fold_left alive_step ops [].

Definition due_before (x y : TimerSequenceEntry) : Prop := expiry_time_ms x <= expiry_time_ms y.
Definition due_at (t : Z) (l : list TimerSequenceEntry) : list TimerSequenceEntry := List.filter (fun e => expiry_time_ms e =? t) l.

(** [l] is [l0] sorted, entries due at the same time kept in their order. *)
Record sorted_of (l0 l : list TimerSequenceEntry) : Prop := mkSortedOf {
  so_sorted : StronglySorted due_before l;
  so_stable : forall t, due_at t l = due_at t l0;
}.

Lemma sort_insert_sorted e l : StronglySorted due_before l -> StronglySorted due_before (sort_insert e l).
Proof.
  induction 1 as [|y l Hs IH Hy]; cbn; [by repeat constructor|]. destruct (Z.leb_spec (expiry_time_ms e) (expiry_time_ms y)).
  - constructor; [by constructor|]. constructor; [done|]. eapply Forall_impl; [exact Hy|]. unfold due_before. lia.
  - constructor; [done|]. clear IH Hs. induction l as [|z l IHl]; cbn; [constructor; [unfold due_before; lia|done]|].
    inversion Hy; subst. destruct (_ <=? _); repeat constructor; try done; [unfold due_before; lia|by apply IHl].
Qed.

Lemma sort_insert_stable e l t : due_at t (sort_insert e l) = due_at t (e :: l).
Proof.
  induction l as [|y l IH]; cbn; [done|]. destruct (Z.leb_spec (expiry_time_ms e) (expiry_time_ms y)); [done|]. cbn. fold (due_at t (sort_insert e l)).
  rewrite IH. cbn. destruct (Z.eqb_spec (expiry_time_ms e) t), (Z.eqb_spec (expiry_time_ms y) t); done || lia.
Qed.

Lemma sort_sorted_of l : sorted_of l (sort_by_expiry l).
Proof.
  induction l as [|e l [S T]]; cbn; [by split; [constructor|]|]. split; [by apply sort_insert_sorted|].
  intros t. rewrite sort_insert_stable. cbn. fold (due_at t l). by rewrite <- T.
Qed.

Lemma due_at_app t l1 l2 : due_at t (l1 ++ l2) = due_at t l1 ++ due_at t l2.
Proof. apply List.filter_app. Qed.

Lemma due_at_retain t p l : due_at t (List.filter p l) = List.filter p (due_at t l).
Proof. unfold due_at. rewrite !filter_filter. apply List.filter_ext. intros x. apply andb_comm. Qed.

Lemma seq_sorted_of ops : sorted_of (alive ops) (seq_run ops).
Proof.
  unfold alive, seq_run. induction ops as [|op ops [S T]] using rev_ind; [by split; [constructor|]|].
  rewrite !fold_left_app. cbn [fold_left]. destruct op as [e|id]; cbn [seq_step alive_step].
  - destruct (sort_sorted_of (fold_left seq_step ops [] ++ [e])) as [S' T']. split; [done|].
    intros t. unfold add. rewrite T', !due_at_app. by rewrite T.
  - split; [by apply filter_StronglySorted|]. intros t. cbn [remove fst]. by rewrite !due_at_retain, T.
Qed.

(** The first entry of a sorted list is the first added of those due first. *)
Lemma sorted_of_head l0 l e : sorted_of l0 l -> head l = Some e ->
  head (due_at (expiry_time_ms e) l0) = Some e /\ Forall (due_before e) l.
Proof.
  intros [S T] Hh. destruct l as [|y l]; [done|]. injection Hh as ->. inversion S; subst. split.
  - rewrite <- T. cbn. by rewrite Z.eqb_refl.
  - constructor; [unfold due_before; lia|done].
Qed.

Lemma sorted_of_elem l0 l x : sorted_of l0 l -> x ∈ l0 <-> x ∈ l.
Proof.
  intros [_ T]. assert (H : forall k, x ∈ k <-> x ∈ due_at (expiry_time_ms x) k).
  { intros k. unfold due_at. rewrite !list_elem_of_In, List.filter_In, Z.eqb_eq. naive_solver. }
  by rewrite (H l0), (H l), T.
Qed.

(** After any additions and removals the sequence holds the entries alive, sorted by expiry, those due together in the order they
    were added; the next to fire is the first added of those due first, and there is none exactly when nothing is due. *)
Lemma next_to_fire_earliest ops now :
  match next_to_fire (seq_run ops) now with
  | Some e => expiry_time_ms e <= now /\ head (due_at (expiry_time_ms e) (alive ops)) = Some e /\ Forall (due_before e) (seq_run ops)
  | None => forall e, e ∈ alive ops -> now < expiry_time_ms e
  end.
Proof.
  pose proof (seq_sorted_of ops) as O. unfold next_to_fire. destruct (head (seq_run ops)) as [e|] eqn:E.
  - destruct (sorted_of_head _ _ _ O E) as [H1 H2]. destruct (Z.leb_spec (expiry_time_ms e) now); [done|].
    intros x Hx. rewrite (sorted_of_elem _ _ x O) in Hx. rewrite Forall_forall in H2. specialize (H2 x Hx). unfold due_before in H2. lia.
  - intros x Hx. rewrite (sorted_of_elem _ _ x O) in Hx. destruct (seq_run ops); [by apply elem_of_nil in Hx|done].
Qed.

(** Removing by id takes every entry of the id, whatever its type. *)
Lemma remove_takes_all_types :
  (remove (seq_run [Add (mkEntry 7 10 UserTimer 1); Add (mkEntry 7 20 ActivityTimeout 2)]) 7).1 = [].
Proof. by vm_compute. Qed.

End TimerSeq.

(** ** The checksum *)

Module Sum.
Import MState CoreRun.

Definition activity_code (st : ActivityMutableState) : Z :=
  match st with ActNone => 0 | ActScheduled => 1 | ActStarted => 2 | ActCompleted => 3 | ActFailed => 4 | ActCanceled => 5 | ActTimedOut => 6 end.
Definition timer_code (st : TimerMutableState) : Z := match st with TmNone => 0 | TmStarted => 1 | TmFired => 2 | TmCanceled => 3 end.
Definition child_code (st : ChildWorkflowMutableState) : Z :=
  match st with
  | ChNone => 0 | ChInitiated => 1 | ChStarted => 2 | ChCompleted => 3 | ChFailed => 4 | ChCanceled => 5 | ChTerminated => 6 | ChTimedOut => 7
  end.

(** [hash.wrapping_mul(31).wrapping_add(x)] *)
Definition mix (hash x : Z) : Z := wrap 64 (wrap 64 (hash * 31) + x).

Definition mix_activity (s : WorkflowMutableState) (hash ev : Z) : Z :=
  match activities s !! ev with Some a => mix (mix (mix hash ev) (activity_code (a_state a))) (attempt a) | None => hash end.
Definition mix_timer (s : WorkflowMutableState) (hash id : Z) : Z :=
  match timers s !! id with Some t => mix (mix hash id) (timer_code (t_state t)) | None => hash end.
Definition mix_child (s : WorkflowMutableState) (hash ev : Z) : Z :=
  match child_workflows s !! ev with Some c => mix (mix hash ev) (child_code (c_state c)) | None => hash end.

Definition compute (s : WorkflowMutableState) (acts tms children : list Z) : Z :=
  let hash := mix (mix (workflow_key (ident s)) (status s)) (next_event_id s) in
  let hash := fold_left (mix_activity s) acts hash in
  let hash := fold_left (mix_timer s) tms hash in
  let hash := fold_left (mix_child s) children hash in
  mix hash (Z.of_nat (size (signal_request_ids s))).

Definition verify (s : WorkflowMutableState) (expected : Z) (acts tms children : list Z) : bool := compute s acts tms children =? expected.

(** The sum of a state depends on the order in which the maps are walked, which changes between maps and processes: an untouched
    state fails the check. *)
Lemma checksum_depends_on_order :
  let s := mst demo_core in
  [4; 1] ≡ₚ [1; 4] /\ compute s [4; 1] [7; 8] [3] <> compute s [1; 4] [7; 8] [3] /\ verify s (compute s [4; 1] [7; 8] [3]) [1; 4] [7; 8] [3] = false.
Proof. split; [apply perm_swap|]. by vm_compute. Qed.

End Sum.
