(* ===== verification/SearchIndex.v ===== *)
(** * The search attribute index

    [search_index.rs].  Module [Attr]: values, keys and their order.  Module [Index]: the forward and the reverse index, the
    queries and the execution of a parsed query.  Module [Bulk]: the buffering indexer.  Module [Schema]: the declared
    attributes.  Module [Lifecycle]: indices, aliases and rollover.

    A string is the list of its Unicode scalar values: Rust orders strings by their UTF-8 bytes, which is the order of these
    lists.  An [f64] is its bit pattern.  A [BTreeMap] is a [gmap] walked in the order of its keys; the elements of a
    [HashSet] come in the order of [elements], where the source leaves the order open. *)

From S2P Require Import Prelude Text.

Module Attr.

Definition ustring : Type := list Z.

Inductive SearchAttributeValue : Type :=
| SString (s : ustring) | SInteger (i : Z) | SDouble (bits : Z) | SBool (b : bool) | SDateTime (ms : Z) | SKeyword (k : ustring).

Inductive IndexedValue : Type :=
| IString (s : ustring) | IInteger (i : Z) | IDouble (bits : Z) | IBool (b : bool) | IDateTime (ms : Z) | IKeyword (k : ustring).

Definition from_value (v : SearchAttributeValue) : IndexedValue :=
  match v with
  | SString s => IString s
  | SInteger i => IInteger i
  | SDouble f => IDouble f
  | SBool b => IBool b
  | SDateTime ms => IDateTime ms
  | SKeyword k => IKeyword k
  end.

Definition to_search_attribute_value (v : IndexedValue) : SearchAttributeValue :=
  match v with
  | IString s => SString s
  | IInteger i => SInteger i
  | IDouble bits => SDouble bits
  | IBool b => SBool b
  | IDateTime ms => SDateTime ms
  | IKeyword k => SKeyword k
  end.

Record IndexKey : Type := mkKey {
  attr_name : ustring;
  attr_value : IndexedValue;
}.

#[export] Instance value_eq_dec : EqDecision IndexedValue.
Proof. solve_decision. Defined.
#[export] Instance key_eq_dec : EqDecision IndexKey.
Proof. solve_decision. Defined.

#[export] Instance value_countable : Countable IndexedValue.
Proof.
  refine (inj_countable'
    (fun v => match v with IString s => (0, s, 0) | IInteger i => (1, [], i) | IDouble i => (2, [], i) | IBool b => (3, [], Z.b2z b)
                      | IDateTime i => (4, [], i) | IKeyword s => (5, s, 0) end)
    (fun '(t, s, i) => if t =? 0 then IString s else if t =? 1 then IInteger i else if t =? 2 then IDouble i
                       else if t =? 3 then IBool (i =? 1) else if t =? 4 then IDateTime i else IKeyword s) _).
  by intros [| | |[]| |].
Defined.

#[export] Instance key_countable : Countable IndexKey.
Proof. refine (inj_countable' (fun k => (attr_name k, attr_value k)) (fun p => mkKey p.1 p.2) _). by intros []. Defined.

(** The derived orders: strings, then variants in the order of declaration and payloads, then keys by name and value. *)
Fixpoint str_compare (a b : ustring) : comparison :=
  match a, b with
  | [], [] => Eq
  | [], _ :: _ => Lt
  | _ :: _, [] => Gt
  | x :: a, y :: b => match x ?= y with Eq => str_compare a b | c => c end
  end.

Definition variant (v : IndexedValue) : Z :=
  match v with IString _ => 0 | IInteger _ => 1 | IDouble _ => 2 | IBool _ => 3 | IDateTime _ => 4 | IKeyword _ => 5 end.

Definition value_compare (v w : IndexedValue) : comparison :=
  match v, w with
  | IString a, IString b | IKeyword a, IKeyword b => str_compare a b
  | IInteger a, IInteger b | IDouble a, IDouble b | IDateTime a, IDateTime b => a ?= b
  | IBool a, IBool b => Z.b2z a ?= Z.b2z b
  | _, _ => variant v ?= variant w
  end.

Definition key_compare (k l : IndexKey) : comparison :=
  match str_compare (attr_name k) (attr_name l) with Eq => value_compare (attr_value k) (attr_value l) | c => c end.

Definition key_leb (k l : IndexKey) : bool := match key_compare k l with Gt => false | _ => true end.
Definition key_ltb (k l : IndexKey) : bool := match key_compare k l with Lt => true | _ => false end.
Definition key_le (k l : IndexKey) : Prop := key_leb k l = true.

(** [starts_with] *)
Fixpoint starts_with (s p : ustring) {struct p} : bool :=
  match p, s with
  | [], _ => true
  | x :: p, y :: s => (x =? y) && starts_with s p
  | _ :: _, [] => false
  end.

Definition matches_string_prefix (v : SearchAttributeValue) (prefix : ustring) : bool :=
  match v with
  | SString s => starts_with s prefix
  | SKeyword k => starts_with k prefix
  | _ => false
  end.

(** [char::from_u32] *)
Definition char_from_u32 (x : Z) : option Z := if (x <? 55296) || ((57344 <=? x) && (x <=? 1114111)) then Some x else None.

Definition prefix_increment (s : ustring) : ustring :=
  match rev s with
  | [] => [1114111]
  | c :: r => rev (default c (char_from_u32 (c + 1)) :: r)
  end.

(** *** The order is a total order *)

Lemma str_compare_sym a : forall b, str_compare b a = CompOpp (str_compare a b).
Proof.
  induction a as [|x a IH]; intros [|y b]; cbn; try done. rewrite (Z.compare_antisym x y). by destruct (x ?= y); cbn.
Qed.

Lemma str_compare_eq a : forall b, str_compare a b = Eq <-> a = b.
Proof.
  induction a as [|x a IH]; intros [|y b]; cbn; try done. destruct (Z.compare_spec x y) as [->|H|H]; [rewrite IH|..]; split; intros E;
    simplify_eq; try done; lia.
Qed.

Lemma str_compare_refl a : str_compare a a = Eq.
Proof. by apply str_compare_eq. Qed.

Lemma str_compare_trans a : forall b c, str_compare a b <> Gt -> str_compare b c <> Gt -> str_compare a c <> Gt.
Proof.
  induction a as [|x a IH]; intros [|y b] [|z c]; cbn; try done.
  destruct (Z.compare_spec x y) as [->|H|H], (Z.compare_spec y z) as [->|H'|H']; try done; rewrite ?Z.compare_refl.
  - apply IH.
  - by rewrite (proj2 (Z.compare_lt_iff _ _) H).
  - rewrite (proj2 (Z.compare_lt_iff x z)) by lia. done.
Qed.

Lemma value_compare_sym v w : value_compare w v = CompOpp (value_compare v w).
Proof. destruct v, w; cbn; try done; try apply str_compare_sym; apply Z.compare_antisym. Qed.

Lemma value_compare_eq v w : value_compare v w = Eq <-> v = w.
Proof.
  destruct v, w; cbn; try (split; done); rewrite ?str_compare_eq, ?Z.compare_eq_iff; try naive_solver.
  destruct b, b0; naive_solver.
Qed.

Lemma value_compare_trans v w u : value_compare v w <> Gt -> value_compare w u <> Gt -> value_compare v u <> Gt.
Proof. destruct v, w; cbn; try done; destruct u; cbn; try done; rewrite ?Z.compare_le_iff; try lia; apply str_compare_trans. Qed.

Lemma key_compare_sym k l : key_compare l k = CompOpp (key_compare k l).
Proof.
  unfold key_compare. rewrite (str_compare_sym (attr_name k)). destruct (str_compare _ _); cbn; [apply value_compare_sym|done..].
Qed.

Lemma key_leb_antisym k l : key_leb l k = negb (key_ltb k l).
Proof. unfold key_leb, key_ltb. rewrite (key_compare_sym k l). by destruct (key_compare k l). Qed.

#[export] Instance key_le_dec : RelDecision key_le.
Proof. intros k l. unfold key_le. apply _. Defined.

#[export] Instance key_le_total : Total key_le.
Proof. intros k l. unfold key_le, key_leb. rewrite (key_compare_sym k l). destruct (key_compare k l); cbn; auto. Qed.

#[export] Instance key_le_trans : Transitive key_le.
Proof.
  intros k l m. unfold key_le, key_leb, key_compare.
  pose proof (str_compare_trans (attr_name k) (attr_name l) (attr_name m)) as T.
  pose proof (value_compare_trans (attr_value k) (attr_value l) (attr_value m)) as V.
  destruct (str_compare (attr_name k) (attr_name l)) eqn:E1, (str_compare (attr_name l) (attr_name m)) eqn:E2; try done.
  - apply str_compare_eq in E1, E2. rewrite E1, E2, str_compare_refl.
    destruct (value_compare _ _), (value_compare (attr_value l) _), (value_compare (attr_value k) (attr_value m)); naive_solver.
  - apply str_compare_eq in E1. rewrite E1, E2. done.
  - apply str_compare_eq in E2. rewrite <- E2, E1. done.
  - destruct (str_compare (attr_name k) (attr_name m)) eqn:E3; [|done|by intros; exfalso; apply T].
    apply str_compare_eq in E3. rewrite E3, str_compare_sym, E2 in E1. done.
Qed.

(** Between two keys of one attribute lie only keys of the attribute. *)
Lemma key_between f v w k :
  key_leb (mkKey f v) k && key_leb k (mkKey f w) = true <->
  attr_name k = f /\ value_compare v (attr_value k) <> Gt /\ value_compare (attr_value k) w <> Gt.
Proof.
  unfold key_leb, key_compare. cbn [attr_name attr_value]. rewrite (str_compare_sym f (attr_name k)).
  destruct (str_compare f (attr_name k)) eqn:E; cbn.
  - apply str_compare_eq in E. destruct (value_compare v (attr_value k)), (value_compare (attr_value k) w); cbn; naive_solver.
  - split; [done|]. intros [<- _]. by rewrite str_compare_refl in E.
  - split; [done|]. intros [<- _]. by rewrite str_compare_refl in E.
Qed.

Lemma key_before f v w k :
  key_leb (mkKey f v) k && key_ltb k (mkKey f w) = true <->
  attr_name k = f /\ value_compare v (attr_value k) <> Gt /\ value_compare (attr_value k) w = Lt.
Proof.
  unfold key_leb, key_ltb, key_compare. cbn [attr_name attr_value]. rewrite (str_compare_sym f (attr_name k)).
  destruct (str_compare f (attr_name k)) eqn:E; cbn.
  - apply str_compare_eq in E. destruct (value_compare v (attr_value k)), (value_compare (attr_value k) w); cbn; naive_solver.
  - split; [done|]. intros [<- _]. by rewrite str_compare_refl in E.
  - split; [done|]. intros [<- _]. by rewrite str_compare_refl in E.
Qed.

(** *** Prefixes *)

Lemma starts_with_spec s p : starts_with s p = true <-> exists t, s = p ++ t.
Proof.
  revert s. induction p as [|x p IH]; intros s; cbn; [split; [intros _; by exists s|done]|].
  destruct s as [|y s]; [split; [done|by intros [t [=]]]|].
  rewrite andb_true_iff, Z.eqb_eq, IH. split; [intros [-> [t ->]]; by exists t|intros [t [= -> ->]]; eauto].
Qed.

Lemma str_compare_app p s t : str_compare (p ++ s) (p ++ t) = str_compare s t.
Proof. induction p as [|x p IH]; cbn; [done|]. by rewrite Z.compare_refl. Qed.

(** Prefixes whose last character has a successor, or the empty one. *)
Definition incrementable (p : ustring) : Prop := match last p with Some c => is_Some (char_from_u32 (c + 1)) | None => True end.

#[export] Instance incrementable_dec p : Decision (incrementable p).
Proof. unfold incrementable. destruct (last p) as [c|]; [|apply _]. destruct (char_from_u32 (c + 1)); [left; eauto|right; by intros []]. Defined.

(** Strings without the last scalar value, a noncharacter. *)
Definition plain (s : ustring) : Prop := Forall (fun c => c < 1114111) s.

Lemma prefix_increment_above p s t : incrementable p -> plain s -> s = p ++ t -> str_compare s (prefix_increment p) = Lt.
Proof.
  unfold prefix_increment, incrementable. destruct p as [|c p _] using rev_ind; intros Hi Hp ->.
  - cbn. destruct t as [|x t]; [done|]. inversion Hp as [|? ? Hx]; subst. cbn. by rewrite (proj2 (Z.compare_lt_iff _ _) Hx).
  - rewrite last_snoc in Hi. destruct Hi as [d Hd]. rewrite rev_app_distr. cbn [rev app]. rewrite Hd, rev_involutive. cbn [default].
    rewrite <- app_assoc, str_compare_app. cbn.
    assert (d = c + 1) as -> by (unfold char_from_u32 in Hd; case_match; by simplify_eq).
    rewrite (proj2 (Z.compare_lt_iff c (c + 1))) by lia. done.
Qed.

Lemma prefix_below p t : str_compare p (p ++ t) <> Gt.
Proof. rewrite <- (app_nil_r p) at 1. rewrite str_compare_app. by destruct t. Qed.

End Attr.

Module Index.
Import Attr.

Record SearchIndexStats : Type := mkStats {
  total_entries : Z;
  unique_keys : Z;
  indexed_workflows : Z;
  range_queries : Z;
  exact_queries : Z;
}.

Record SearchAttributeIndex : Type := mkIndex {
  index : gmap IndexKey (gset Z);
  reverse : gmap Z (gset IndexKey);
  stats : SearchIndexStats;
}.

Definition index_new : SearchAttributeIndex := mkIndex ∅ ∅ (mkStats 0 0 0 0 0).

(** [map.entry(k).or_default().insert(v)] *)
Definition entry_insert {K V} `{Countable K, Countable V} (m : gmap K (gset V)) (k : K) (v : V) : gmap K (gset V) :=
  <[k := {[v]} ∪ default ∅ (m !! k)]> m.

(** [if let Some(set) = map.get_mut(k) { set.remove(v); if set.is_empty() { map.remove(k) } }] *)
Definition entry_remove {K V} `{Countable K, Countable V} (m : gmap K (gset V)) (k : K) (v : V) : gmap K (gset V) :=
  match m !! k with
  | Some set => let set := set ∖ {[v]} in if decide (set = ∅) then delete k m else <[k := set]> m
  | None => m
  end.

Definition index_attribute (x : SearchAttributeIndex) (workflow_key : Z) (name : ustring) (value : SearchAttributeValue) : SearchAttributeIndex :=
  let key := mkKey name (from_value value) in
  let fwd := entry_insert (index x) key workflow_key in
  let rev := entry_insert (reverse x) workflow_key key in
  mkIndex fwd rev
    (mkStats (wrap 64 (total_entries (stats x) + 1)) (Z.of_nat (size fwd)) (Z.of_nat (size rev)) (range_queries (stats x))
       (exact_queries (stats x))).

(** One key of the loop: the entry is cleaned and counted. *)
Definition remove_key (workflow_key : Z) (p : gmap IndexKey (gset Z) * Z) (key : IndexKey) : gmap IndexKey (gset Z) * Z :=
  match p.1 !! key with Some _ => (entry_remove p.1 key workflow_key, wrap 64 (p.2 + 1)) | None => p end.

Definition remove_workflow (x : SearchAttributeIndex) (workflow_key : Z) : SearchAttributeIndex :=
  match reverse x !! workflow_key with
  | None => x
  | Some keys =>
      let rev := delete workflow_key (reverse x) in
      let '(fwd, removed) := fold_left (remove_key workflow_key) (elements keys) (index x, 0) in
      mkIndex fwd rev
        (mkStats (Z.max 0 (total_entries (stats x) - removed)) (Z.of_nat (size fwd)) (Z.of_nat (size rev)) (range_queries (stats x))
           (exact_queries (stats x)))
  end.

Definition remove_attribute (x : SearchAttributeIndex) (workflow_key : Z) (name : ustring) (value : SearchAttributeValue) : SearchAttributeIndex :=
  let key := mkKey name (from_value value) in
  mkIndex (entry_remove (index x) key workflow_key) (entry_remove (reverse x) workflow_key key) (stats x).

(** *** Queries *)

Definition count_exact (x : SearchAttributeIndex) : SearchAttributeIndex :=
  mkIndex (index x) (reverse x)
    (mkStats (total_entries (stats x)) (unique_keys (stats x)) (indexed_workflows (stats x)) (range_queries (stats x))
       (wrap 64 (exact_queries (stats x) + 1))).
Definition count_range (x : SearchAttributeIndex) : SearchAttributeIndex :=
  mkIndex (index x) (reverse x)
    (mkStats (total_entries (stats x)) (unique_keys (stats x)) (indexed_workflows (stats x)) (wrap 64 (range_queries (stats x) + 1))
       (exact_queries (stats x))).

Definition entry_le (p q : IndexKey * gset Z) : Prop := key_le p.1 q.1.
#[export] Instance entry_le_dec p q : Decision (entry_le p q).
Proof. unfold entry_le. apply _. Defined.

(** The entries in the order of their keys; [BTreeMap::range] panics when the start is above the end. *)
Definition btree_iter (m : gmap IndexKey (gset Z)) : list (IndexKey * gset Z) :=
  merge_sort entry_le (map_to_list m).
Definition range_inclusive (m : gmap IndexKey (gset Z)) (low high : IndexKey) : exec (list (IndexKey * gset Z)) :=
  if key_ltb high low then Panic else Ret (List.filter (fun p => key_leb low p.1 && key_leb p.1 high) (btree_iter m)).
Definition range_half_open (m : gmap IndexKey (gset Z)) (low high : IndexKey) : exec (list (IndexKey * gset Z)) :=
  if key_ltb high low then Panic else Ret (List.filter (fun p => key_leb low p.1 && key_ltb p.1 high) (btree_iter m)).

(** [flat_map(|(_, set)| set.iter().copied())] *)
Definition workflows_of (l : list (IndexKey * gset Z)) : list Z := flat_map (fun p => elements p.2) l.

Definition exec_map {A B} (f : A -> B) (e : exec A) : exec B := match e with Ret a => Ret (f a) | Panic => Panic end.

Definition exact_match (x : SearchAttributeIndex) (name : ustring) (value : SearchAttributeValue) : SearchAttributeIndex * list Z :=
  (count_exact x, match index x !! mkKey name (from_value value) with Some s => elements s | None => [] end).

Definition range_integer (x : SearchAttributeIndex) (name : ustring) (low high : Z) : SearchAttributeIndex * exec (list Z) :=
  (count_range x, exec_map workflows_of (range_inclusive (index x) (mkKey name (IInteger low)) (mkKey name (IInteger high)))).

Definition range_datetime (x : SearchAttributeIndex) (name : ustring) (start_ms end_ms : Z) : SearchAttributeIndex * exec (list Z) :=
  (count_range x, exec_map workflows_of (range_inclusive (index x) (mkKey name (IDateTime start_ms)) (mkKey name (IDateTime end_ms)))).

Definition prefix_match (x : SearchAttributeIndex) (name prefix : ustring) : SearchAttributeIndex * exec (list Z) :=
  let upper := prefix_increment prefix in
  (count_range x,
   exec_map (fun l => workflows_of (List.filter (fun p => matches_string_prefix (to_search_attribute_value (attr_value p.1)) prefix) l))
     (range_half_open (index x) (mkKey name (IString prefix)) (mkKey name (IString upper)))).

Definition i64_wrap (x : Z) : Z := (x + 2 ^ 63) mod 2 ^ 64 - 2 ^ 63.

Definition greater_than_integer (x : SearchAttributeIndex) (name : ustring) (value : Z) : SearchAttributeIndex * exec (list Z) :=
  (count_range x,
   exec_map workflows_of (range_inclusive (index x) (mkKey name (IInteger (i64_wrap (value + 1)))) (mkKey name (IInteger I64_MAX)))).

Definition less_than_integer (x : SearchAttributeIndex) (name : ustring) (value : Z) : SearchAttributeIndex * exec (list Z) :=
  (count_range x,
   exec_map workflows_of (range_inclusive (index x) (mkKey name (IInteger I64_MIN)) (mkKey name (IInteger (i64_wrap (value - 1)))))).

Inductive QueryValue : Type := QStr (s : ustring) | QNum (n : Z) | QFloat (bits : Z) | QBool (b : bool).

Inductive QueryNode : Type :=
| QEq (field : ustring) (value : QueryValue)
| QNeq (field : ustring) (value : QueryValue)
| QGt (field : ustring) (value : QueryValue)
| QGte (field : ustring) (value : QueryValue)
| QLt (field : ustring) (value : QueryValue)
| QLte (field : ustring) (value : QueryValue)
| QBetween (field : ustring) (low high : QueryValue)
| QLike (field pattern : ustring)
| QIn (field : ustring) (values : list QueryValue)
| QAnd (l r : QueryNode)
| QOr (l r : QueryNode)
| QNot (c : QueryNode).

Definition query_value_to_sav (v : QueryValue) : SearchAttributeValue :=
  match v with QStr s => SKeyword s | QNum n => SInteger n | QFloat f => SDouble f | QBool b => SBool b end.

Definition all_indexed_workflow_keys (x : SearchAttributeIndex) : gset Z := dom (reverse x).

(** [trim_end_matches('%')] *)
Fixpoint drop_percent (s : ustring) : ustring := match s with c :: s' => if c =? 37 then drop_percent s' else s | [] => [] end.
Definition trim_end_percent (s : ustring) : ustring := rev (drop_percent (rev s)).

Definition to_set {A} (p : A * exec (list Z)) : A * exec (gset Z) := (p.1, exec_map list_to_set p.2).

(** The loop of [IN]. *)
Fixpoint match_in (x : SearchAttributeIndex) (field : ustring) (values : list QueryValue) (acc : gset Z) : SearchAttributeIndex * gset Z :=
  match values with
  | [] => (x, acc)
  | v :: vs => let '(x, l) := exact_match x field (query_value_to_sav v) in match_in x field vs (acc ∪ list_to_set l)
  end.

Fixpoint execute_query (x : SearchAttributeIndex) (q : QueryNode) : SearchAttributeIndex * exec (gset Z) :=
  match q with
  | QEq f v => let '(x, l) := exact_match x f (query_value_to_sav v) in (x, Ret (list_to_set l))
  | QNeq f v => let '(x, l) := exact_match x f (query_value_to_sav v) in (x, Ret (all_indexed_workflow_keys x ∖ list_to_set l))
  | QGt f v => match v with QNum n => to_set (greater_than_integer x f n) | _ => (x, Ret ∅) end
  | QGte f v => match v with QNum n => to_set (range_integer x f n I64_MAX) | _ => (x, Ret ∅) end
  | QLt f v => match v with QNum n => to_set (less_than_integer x f n) | _ => (x, Ret ∅) end
  | QLte f v => match v with QNum n => to_set (range_integer x f I64_MIN n) | _ => (x, Ret ∅) end
  | QBetween f lo hi => match lo, hi with QNum a, QNum b => to_set (range_integer x f a b) | _, _ => (x, Ret ∅) end
  | QLike f pattern => to_set (prefix_match x f (trim_end_percent pattern))
  | QIn f vs => let '(x, s) := match_in x f vs ∅ in (x, Ret s)
  | QAnd l r =>
      match execute_query x l with
      | (x, Ret a) => match execute_query x r with (x, Ret b) => (x, Ret (a ∩ b)) | (x, Panic) => (x, Panic) end
      | (x, Panic) => (x, Panic)
      end
  | QOr l r =>
      match execute_query x l with
      | (x, Ret a) => match execute_query x r with (x, Ret b) => (x, Ret (a ∪ b)) | (x, Panic) => (x, Panic) end
      | (x, Panic) => (x, Panic)
      end
  | QNot c =>
      match execute_query x c with
      | (x, Ret a) => (x, Ret (all_indexed_workflow_keys x ∖ a))
      | (x, Panic) => (x, Panic)
      end
  end.

(** *** What the index stands for: which workflow has which attribute *)

Definition facts : Type := gset (Z * IndexKey).

Record reflects (F : facts) (x : SearchAttributeIndex) : Prop := mkReflects {
  rf_index : forall k wf, wf ∈ default ∅ (index x !! k) <-> (wf, k) ∈ F;
  rf_reverse : forall wf k, k ∈ default ∅ (reverse x !! wf) <-> (wf, k) ∈ F;
  rf_sets : map_Forall (fun _ s => s <> ∅) (index x);
  rf_keys : map_Forall (fun _ s => s <> ∅) (reverse x);
}.

Section Entry.
Context {K V : Type} `{Countable K, Countable V}.
Implicit Types (m : gmap K (gset V)) (k : K) (v : V).

Lemma entry_insert_members m k v k' v' :
  v' ∈ default ∅ (entry_insert m k v !! k') <-> v' ∈ default ∅ (m !! k') \/ (k', v') = (k, v).
Proof.
  unfold entry_insert. destruct (decide (k' = k)) as [->|Hne].
  - rewrite lookup_insert_eq. cbn. set_solver.
  - rewrite lookup_insert_ne by done. naive_solver.
Qed.

Lemma entry_remove_members m k v k' v' :
  v' ∈ default ∅ (entry_remove m k v !! k') <-> v' ∈ default ∅ (m !! k') /\ (k', v') <> (k, v).
Proof.
  unfold entry_remove. destruct (m !! k) as [s|] eqn:E.
  - destruct (decide (k' = k)) as [->|Hne].
    + rewrite E. cbn. case_decide as D; rewrite ?lookup_delete_eq, ?lookup_insert_eq; cbn; [|set_solver].
      split; [set_solver|]. intros [Hv Hne]. assert (v' ∈ s ∖ {[v]}) by set_solver. set_solver.
    + case_decide; rewrite ?lookup_delete_ne, ?lookup_insert_ne by done; naive_solver.
  - split; [|naive_solver]. intros Hv. split; [done|]. intros [= -> ->]. rewrite E in Hv. set_solver.
Qed.

Lemma entry_insert_nonempty m k v : map_Forall (fun _ s => s <> ∅) m -> map_Forall (fun _ s => s <> ∅) (entry_insert m k v).
Proof. intros Hm. apply map_Forall_insert_2; [set_solver|done]. Qed.

Lemma entry_remove_nonempty m k v : map_Forall (fun _ s => s <> ∅) m -> map_Forall (fun _ s => s <> ∅) (entry_remove m k v).
Proof.
  intros Hm. unfold entry_remove. destruct (m !! k); [|done]. case_decide; [by apply map_Forall_delete|by apply map_Forall_insert_2].
Qed.
End Entry.

Lemma index_attribute_reflects F x wf f v :
  reflects F x -> reflects ({[(wf, mkKey f (from_value v))]} ∪ F) (index_attribute x wf f v).
Proof.
  intros []. constructor; cbn.
  - intros k w. rewrite entry_insert_members, rf_index0. set_solver.
  - intros w k. rewrite entry_insert_members, rf_reverse0. set_solver.
  - by apply entry_insert_nonempty.
  - by apply entry_insert_nonempty.
Qed.

Lemma remove_attribute_reflects F x wf f v :
  reflects F x -> reflects (F ∖ {[(wf, mkKey f (from_value v))]}) (remove_attribute x wf f v).
Proof.
  intros []. constructor; cbn.
  - intros k w. rewrite entry_remove_members, rf_index0. set_solver.
  - intros w k. rewrite entry_remove_members, rf_reverse0. set_solver.
  - by apply entry_remove_nonempty.
  - by apply entry_remove_nonempty.
Qed.

Lemma remove_keys_members wf ks : forall m n k w,
  w ∈ default ∅ ((fold_left (remove_key wf) ks (m, n)).1 !! k) <-> w ∈ default ∅ (m !! k) /\ ~ (w = wf /\ k ∈ ks).
Proof.
  induction ks as [|y ks IH]; intros m n k w; cbn [fold_left]; [set_solver|].
  unfold remove_key at 2. cbn [fst snd]. destruct (m !! y) as [s|] eqn:E.
  - rewrite IH, entry_remove_members. set_solver.
  - rewrite IH. split; [|set_solver]. intros [Hw Hn]. split; [done|]. intros [-> [->|Hk]%elem_of_cons]; [|naive_solver].
    rewrite E in Hw. set_solver.
Qed.

Lemma remove_keys_nonempty wf ks : forall m n,
  map_Forall (fun _ s => s <> ∅) m -> map_Forall (fun _ s => s <> ∅) (fold_left (remove_key wf) ks (m, n)).1.
Proof.
  induction ks as [|y ks IH]; intros m n Hm; cbn [fold_left]; [done|]. unfold remove_key at 2. cbn [fst snd].
  destruct (m !! y); apply IH; [by apply entry_remove_nonempty|done].
Qed.

Lemma remove_workflow_reflects F x wf : reflects F x -> reflects (filter (fun p => p.1 <> wf) F) (remove_workflow x wf).
Proof.
  intros []. unfold remove_workflow. destruct (reverse x !! wf) as [keys|] eqn:E.
  - pose proof (remove_keys_members wf (elements keys) (index x) 0) as Hm.
    pose proof (remove_keys_nonempty wf (elements keys) (index x) 0 rf_sets0) as Hn.
    assert (Hk : forall k, k ∈ keys <-> (wf, k) ∈ F) by (intros k; rewrite <- rf_reverse0, E; done).
    destruct (fold_left _ _ _) as [fwd removed]. cbn [fst] in *. constructor; cbn; [..|by apply map_Forall_delete].
    + intros k w. rewrite Hm, rf_index0, elem_of_elements, Hk, elem_of_filter. cbn. naive_solver.
    + intros w k. rewrite elem_of_filter. cbn. destruct (decide (w = wf)) as [->|Hne].
      * rewrite lookup_delete_eq. set_solver.
      * rewrite lookup_delete_ne by done. rewrite rf_reverse0. naive_solver.
    + done.
  - assert (HF : filter (fun p => p.1 <> wf) F = F); [|by rewrite HF].
    apply set_eq. intros [w k]. rewrite elem_of_filter. cbn. split; [naive_solver|]. intros Hp. split; [|done]. intros ->.
    apply rf_reverse0 in Hp. rewrite E in Hp. set_solver.
Qed.

(** The workflows that have an attribute. *)
Lemma all_keys_reflects F x wf : reflects F x -> wf ∈ all_indexed_workflow_keys x <-> exists k, (wf, k) ∈ F.
Proof.
  intros []. unfold all_indexed_workflow_keys. rewrite elem_of_dom. split.
  - intros [s Hs]. pose proof (rf_keys0 wf s Hs) as Hne. cbn in Hne. apply set_choose_L in Hne as [k Hk]. exists k.
    apply rf_reverse0. by rewrite Hs.
  - intros [k Hk]. apply rf_reverse0 in Hk. destruct (reverse x !! wf); [eauto|set_solver].
Qed.

(** *** What a query means *)

Definition has (F : facts) (wf : Z) (field : ustring) (P : IndexedValue -> Prop) : Prop := exists v, (wf, mkKey field v) ∈ F /\ P v.
Definition int_where (P : Z -> Prop) (v : IndexedValue) : Prop := match v with IInteger i => P i | _ => False end.

Fixpoint meaning (F : facts) (q : QueryNode) (wf : Z) : Prop :=
  match q with
  | QEq f v => (wf, mkKey f (from_value (query_value_to_sav v))) ∈ F
  | QNeq f v => (exists k, (wf, k) ∈ F) /\ ~ (wf, mkKey f (from_value (query_value_to_sav v))) ∈ F
  | QGt f (QNum n) => has F wf f (int_where (fun i => n < i))
  | QGte f (QNum n) => has F wf f (int_where (fun i => n <= i))
  | QLt f (QNum n) => has F wf f (int_where (fun i => i < n))
  | QLte f (QNum n) => has F wf f (int_where (fun i => i <= n))
  | QBetween f (QNum a) (QNum b) => has F wf f (int_where (fun i => a <= i <= b))
  | QGt _ _ | QGte _ _ | QLt _ _ | QLte _ _ | QBetween _ _ _ => False
  | QLike f pattern => has F wf f (fun v => exists t, v = IString (trim_end_percent pattern ++ t))
  | QIn f vs => Exists (fun v => (wf, mkKey f (from_value (query_value_to_sav v))) ∈ F) vs
  | QAnd l r => meaning F l wf /\ meaning F r wf
  | QOr l r => meaning F l wf \/ meaning F r wf
  | QNot c => (exists k, (wf, k) ∈ F) /\ ~ meaning F c wf
  end.

(** Queries away from the ends of the integers, with ranges the right way round, and prefixes that have a successor. *)
Fixpoint answerable (q : QueryNode) : Prop :=
  match q with
  | QGt _ (QNum n) => I64_MIN <= n < I64_MAX
  | QGte _ (QNum n) | QLte _ (QNum n) => I64_MIN <= n <= I64_MAX
  | QLt _ (QNum n) => I64_MIN < n <= I64_MAX
  | QBetween _ (QNum a) (QNum b) => a <= b
  | QLike _ pattern => incrementable (trim_end_percent pattern)
  | QAnd l r | QOr l r => answerable l /\ answerable r
  | QNot c => answerable c
  | _ => True
  end.

(** Values within their types. *)
Definition storable (v : IndexedValue) : Prop :=
  match v with IInteger i => I64_MIN <= i <= I64_MAX | IString s => plain s | _ => True end.
Definition storable_facts (F : facts) : Prop := forall wf k, (wf, k) ∈ F -> storable (attr_value k).

Lemma btree_iter_elem m k s : (k, s) ∈ btree_iter m <-> m !! k = Some s.
Proof. unfold btree_iter. rewrite (merge_sort_Permutation entry_le). apply elem_of_map_to_list. Qed.

(** The workflows of the entries that satisfy [p]. *)
Lemma workflows_of_filter F x p wf :
  reflects F x -> wf ∈ workflows_of (List.filter (fun e => p e.1) (btree_iter (index x))) <-> exists k, (wf, k) ∈ F /\ p k = true.
Proof.
  intros []. unfold workflows_of. rewrite list_elem_of_In, in_flat_map. split.
  - intros ([k s] & [He Hp]%List.filter_In & Hs). apply list_elem_of_In, btree_iter_elem in He. apply list_elem_of_In, elem_of_elements in Hs.
    exists k. split; [|done]. apply rf_index0. by rewrite He.
  - intros (k & Hk & Hp). apply rf_index0 in Hk. destruct (index x !! k) as [s|] eqn:E; [|set_solver]. exists (k, s).
    rewrite List.filter_In, <- !list_elem_of_In, btree_iter_elem. cbn. by rewrite elem_of_elements.
Qed.

Lemma integer_between a b v :
  value_compare (IInteger a) v <> Gt /\ value_compare v (IInteger b) <> Gt <-> int_where (fun i => a <= i <= b) v.
Proof. destruct v; cbn; rewrite ?Z.compare_le_iff; naive_solver. Qed.

(** A range of integers. *)
Lemma integers_meaning F x f a b : reflects F x -> a <= b ->
  exists l, exec_map workflows_of (range_inclusive (index x) (mkKey f (IInteger a)) (mkKey f (IInteger b))) = Ret l /\
    forall wf, wf ∈ l <-> has F wf f (int_where (fun i => a <= i <= b)).
Proof.
  intros R Hab. unfold range_inclusive.
  assert (key_ltb (mkKey f (IInteger b)) (mkKey f (IInteger a)) = false) as ->.
  { unfold key_ltb, key_compare. cbn. rewrite str_compare_refl. destruct (Z.compare_spec b a); lia || done. }
  eexists. split; [done|]. intros wf. rewrite (workflows_of_filter F x (fun k => key_leb _ k && key_leb k _)) by done.
  unfold has. split.
  - intros ([n v] & Hk & (<- & Hv)%key_between). exists v. split; [done|]. by apply integer_between.
  - intros (v & Hk & Hv). exists (mkKey f v). split; [done|]. apply key_between. split; [done|]. by apply integer_between.
Qed.

Lemma has_storable F wf f P Q :
  storable_facts F -> (forall v, storable v -> P v <-> Q v) -> has F wf f P <-> has F wf f Q.
Proof. intros HF H. unfold has. split; intros (v & Hv & Hp); exists v; (split; [done|]); apply (H v); try done; by apply (HF wf (mkKey f v)). Qed.

(** The same with the source's bounds, for what the values can be. *)
Lemma integers_set F x f a b (P : Z -> Prop) : reflects F x -> storable_facts F -> a <= b ->
  (forall i, I64_MIN <= i <= I64_MAX -> a <= i <= b <-> P i) ->
  exists s : gset Z, exec_map list_to_set (exec_map workflows_of (range_inclusive (index x) (mkKey f (IInteger a)) (mkKey f (IInteger b)))) = Ret s /\
    forall wf, wf ∈ s <-> has F wf f (int_where P).
Proof.
  intros R HF Hab HP. destruct (integers_meaning F x f a b R Hab) as (l & -> & Hl). eexists. split; [done|].
  intros wf. rewrite elem_of_list_to_set, Hl. apply has_storable; [done|]. intros [] Hs; cbn; try done. by apply HP.
Qed.

Lemma i64_wrap_id z : I64_MIN <= z <= I64_MAX -> i64_wrap z = z.
Proof. unfold I64_MIN, I64_MAX, i64_wrap. intros. rewrite Z.mod_small; lia. Qed.

Lemma prefix_meaning F x f p : reflects F x -> storable_facts F -> incrementable p ->
  exists s : gset Z, exec_map list_to_set (prefix_match x f p).2 = Ret s /\
    forall wf, wf ∈ s <-> has F wf f (fun v => exists t, v = IString (p ++ t)).
Proof.
  intros R HF Hi. unfold prefix_match, range_half_open. cbn [snd].
  destruct (key_ltb (mkKey f (IString (prefix_increment p))) (mkKey f (IString p))) eqn:E.
  { exfalso. unfold key_ltb, key_compare in E. cbn in E. rewrite str_compare_refl in E.
    destruct (decide (plain p)) as [Hp|Hp].
    - pose proof (prefix_increment_above p p [] Hi Hp ltac:(by rewrite app_nil_r)) as A. by rewrite str_compare_sym, A in E.
    - revert E. unfold prefix_increment. destruct p as [|c p _] using rev_ind; [by destruct Hp; constructor|].
      unfold incrementable in Hi. rewrite last_snoc in Hi. destruct Hi as [d Hd]. rewrite rev_app_distr. cbn [rev app default].
      rewrite Hd, rev_involutive, str_compare_app. cbn.
      assert (d = c + 1) as -> by (unfold char_from_u32 in Hd; case_match; by simplify_eq).
      rewrite (proj2 (Z.compare_gt_iff (c + 1) c)) by lia. done. }
  eexists. split; [done|]. intros wf. rewrite elem_of_list_to_set, filter_filter.
  rewrite (workflows_of_filter F x (fun k => key_leb _ k && key_ltb k _ && matches_string_prefix (to_search_attribute_value (attr_value k)) p)) by done.
  unfold has. split.
  - intros ([n v] & Hk & [(<- & H1 & H2)%key_before Hm]%andb_true_iff). exists v. split; [done|]. cbn in *.
    destruct v; cbn in *; try done. apply starts_with_spec in Hm as [t ->]. by exists t.
  - intros (v & Hk & t & ->). exists (mkKey f (IString (p ++ t))). split; [done|]. rewrite andb_true_iff, key_before. cbn. split_and!.
    + done.
    + apply prefix_below.
    + apply (prefix_increment_above p (p ++ t) t Hi); [|done]. apply (HF wf _ Hk).
    + apply starts_with_spec. by exists t.
Qed.

(** Queries count themselves and leave the rest alone. *)
Definition same_entries (x y : SearchAttributeIndex) : Prop := index x = index y /\ reverse x = reverse y.

#[export] Instance same_entries_equiv : Equivalence same_entries.
Proof. split; [by intros x|by intros x y []|]. intros x y z [H1 H2] [H3 H4]. by split; etrans. Qed.

Lemma reflects_same F x y : same_entries x y -> reflects F x -> reflects F y.
Proof. intros [E1 E2] []. constructor; rewrite <- ?E1, <- ?E2; done. Qed.

Lemma match_in_meaning F f vs : forall x acc, reflects F x ->
  same_entries x (match_in x f vs acc).1 /\
  forall wf, wf ∈ (match_in x f vs acc).2 <-> wf ∈ acc \/ Exists (fun v => (wf, mkKey f (from_value (query_value_to_sav v))) ∈ F) vs.
Proof.
  induction vs as [|v vs IH]; intros x acc R; cbn [match_in].
  - split; [done|]. intros wf. rewrite Exists_nil. naive_solver.
  - unfold exact_match. destruct (IH (count_exact x) (acc ∪ list_to_set match index x !! mkKey f (from_value (query_value_to_sav v)) with
      Some s => elements s | None => [] end)) as [S M]; [by apply (reflects_same F x)|].
    split; [etrans; [|exact S]; done|]. intros wf. rewrite M, Exists_cons, elem_of_union, elem_of_list_to_set, <- (rf_index F x R).
    destruct (index x !! _) as [s|]; cbn; rewrite ?elem_of_elements; set_solver.
Qed.

Lemma exact_match_meaning F x f v wf : reflects F x -> wf ∈ (exact_match x f v).2 <-> (wf, mkKey f (from_value v)) ∈ F.
Proof.
  intros R. rewrite <- (rf_index F x R). unfold exact_match. cbn. destruct (index x !! _); cbn; [apply elem_of_elements|set_solver].
Qed.

Lemma execute_query_same x q : same_entries x (execute_query x q).1.
Proof.
  revert x. induction q; intros x; cbn [execute_query]; try done; try (destruct value; done).
  - by destruct low, high.
  - assert (H : forall vs x acc, same_entries x (match_in x field vs acc).1).
    { clear. intros vs. induction vs as [|v vs IH]; intros x acc; cbn [match_in]; [done|]. etrans; [|apply IH]. done. }
    specialize (H values x ∅). by destruct (match_in x field values ∅).
  - specialize (IHq1 x). destruct (execute_query x q1) as [x1 [a|]]; [|done]. specialize (IHq2 x1).
    destruct (execute_query x1 q2) as [x2 [b|]]; by etrans.
  - specialize (IHq1 x). destruct (execute_query x q1) as [x1 [a|]]; [|done]. specialize (IHq2 x1).
    destruct (execute_query x1 q2) as [x2 [b|]]; by etrans.
  - specialize (IHq x). by destruct (execute_query x q) as [x1 [a|]].
Qed.

(** A query answers by its meaning. *)
Definition answers (F : facts) (q : QueryNode) (e : exec (gset Z)) : Prop := exists s, e = Ret s /\ forall wf, wf ∈ s <-> meaning F q wf.

Lemma answers_no F q : (forall wf, ~ meaning F q wf) -> answers F q (Ret ∅).
Proof. intros H. exists ∅. split; [done|]. intros wf. specialize (H wf). set_solver. Qed.

Lemma execute_query_meaning F q : forall x,
  reflects F x -> storable_facts F -> answerable q -> answers F q (execute_query x q).2.
Proof.
  induction q; intros x R HF Ha; cbn [execute_query answerable] in *.
  - eexists. split; [done|]. intros wf. rewrite elem_of_list_to_set. by apply (exact_match_meaning F x).
  - eexists. split; [done|]. intros wf. rewrite elem_of_difference, elem_of_list_to_set. cbn [meaning].
    rewrite (all_keys_reflects F) by (by apply (reflects_same F x)). pose proof (exact_match_meaning F x field (query_value_to_sav value) wf R) as E.
    cbn [exact_match snd] in E. by rewrite E.
  - destruct value; try (by apply answers_no; intros wf []). unfold to_set, greater_than_integer. cbn [snd].
    rewrite i64_wrap_id by (unfold I64_MAX in *; lia). apply integers_set; [done..|lia|intros; lia].
  - destruct value; try (by apply answers_no; intros wf []). unfold to_set, range_integer. cbn [snd].
    apply integers_set; [done..|lia|intros; lia].
  - destruct value; try (by apply answers_no; intros wf []). unfold to_set, less_than_integer. cbn [snd].
    rewrite i64_wrap_id by (unfold I64_MIN in *; lia). apply integers_set; [done..|lia|intros; lia].
  - destruct value; try (by apply answers_no; intros wf []). unfold to_set, range_integer. cbn [snd].
    apply integers_set; [done..|lia|intros; lia].
  - destruct low, high; try (by apply answers_no; intros wf []). unfold to_set, range_integer. cbn [snd].
    apply integers_set; done.
  - apply prefix_meaning; done.
  - destruct (match_in_meaning F field values x ∅ R) as [_ M]. destruct (match_in x field values ∅) as [x' s]. exists s. split; [done|].
    intros wf. cbn in *. rewrite M. set_solver.
  - destruct Ha as [Ha1 Ha2]. destruct (IHq1 x R HF Ha1) as (a & Ea & Ma). pose proof (execute_query_same x q1) as S.
    destruct (execute_query x q1) as [x1 e]. cbn in Ea, S. subst e.
    destruct (IHq2 x1 (reflects_same _ _ _ S R) HF Ha2) as (b & Eb & Mb). destruct (execute_query x1 q2) as [x2 e]. cbn in Eb. subst e.
    exists (a ∩ b). split; [done|]. intros wf. cbn. by rewrite elem_of_intersection, Ma, Mb.
  - destruct Ha as [Ha1 Ha2]. destruct (IHq1 x R HF Ha1) as (a & Ea & Ma). pose proof (execute_query_same x q1) as S.
    destruct (execute_query x q1) as [x1 e]. cbn in Ea, S. subst e.
    destruct (IHq2 x1 (reflects_same _ _ _ S R) HF Ha2) as (b & Eb & Mb). destruct (execute_query x1 q2) as [x2 e]. cbn in Eb. subst e.
    exists (a ∪ b). split; [done|]. intros wf. cbn. by rewrite elem_of_union, Ma, Mb.
  - destruct (IHq x R HF Ha) as (a & Ea & Ma). pose proof (execute_query_same x q) as S.
    destruct (execute_query x q) as [x1 e]. cbn in Ea, S. subst e. eexists. split; [done|]. intros wf. cbn.
    by rewrite elem_of_difference, (all_keys_reflects F x1 wf (reflects_same _ _ _ S R)), Ma.
Qed.

(** A range comes in the order of the attribute's values. *)
#[export] Instance entry_le_total : Total entry_le.
Proof. intros p q. apply key_le_total. Qed.
#[export] Instance entry_le_trans : Transitive entry_le.
Proof. intros p q r. apply key_le_trans. Qed.

Lemma range_in_order m lo hi l : range_inclusive m lo hi = Ret l -> StronglySorted entry_le l.
Proof.
  unfold range_inclusive. destruct (key_ltb hi lo); [done|]. intros [= <-]. apply filter_StronglySorted, StronglySorted_merge_sort; apply _.
Qed.

End Index.

Module Bulk.
Import Attr Index.

Inductive BulkOperation : Type :=
| BIndex (workflow_key : Z) (attr_name : ustring) (attr_value : SearchAttributeValue)
| BRemove (workflow_key : Z)
| BRemoveAttribute (workflow_key : Z) (attr_name : ustring) (attr_value : SearchAttributeValue).

Record BulkIndexerStats : Type := mkBulkStats {
  operations_buffered : Z;
  operations_flushed : Z;
  flush_count : Z;
  errors : Z;
}.

Record BulkIndexer : Type := mkBulk {
  bulk_index : SearchAttributeIndex;
  buffer : list BulkOperation;
  max_buffer_size : Z;
  bulk_stats : BulkIndexerStats;
}.

Definition bulk_new (x : SearchAttributeIndex) (max_size : Z) : BulkIndexer := mkBulk x [] (Z.max max_size 1) (mkBulkStats 0 0 0 0).

Definition apply_operation (x : SearchAttributeIndex) (op : BulkOperation) : SearchAttributeIndex :=
  match op with
  | BIndex wf f v => index_attribute x wf f v
  | BRemove wf => remove_workflow x wf
  | BRemoveAttribute wf f v => remove_attribute x wf f v
  end.

Definition flush (b : BulkIndexer) : BulkIndexer :=
  let st := bulk_stats b in
  mkBulk (fold_left apply_operation (buffer b) (bulk_index b)) [] (max_buffer_size b)
    (mkBulkStats (operations_buffered st) (wrap 64 (operations_flushed st + Z.of_nat (length (buffer b)))) (wrap 64 (flush_count st + 1)) (errors st)).

Definition add (b : BulkIndexer) (op : BulkOperation) : BulkIndexer :=
  let st := bulk_stats b in
  let b := mkBulk (bulk_index b) (buffer b ++ [op]) (max_buffer_size b)
             (mkBulkStats (wrap 64 (operations_buffered st + 1)) (operations_flushed st) (flush_count st) (errors st)) in
  if max_buffer_size b <=? Z.of_nat (length (buffer b)) then flush b else b.

(** *** Runs: operations added, flushes, and queries in between *)

Inductive bulk_op : Type := Add (op : BulkOperation) | Flush | Query (q : QueryNode).

Definition bulk_step (b : BulkIndexer) (op : bulk_op) : BulkIndexer :=
  match op with
  | Add o => add b o
  | Flush => flush b
  | Query q => mkBulk (execute_query (bulk_index b) q).1 (buffer b) (max_buffer_size b) (bulk_stats b)
  end.
Definition bulk_run (b : BulkIndexer) (ops : list bulk_op) : BulkIndexer := fold_left bulk_step ops b.

Definition added (ops : list bulk_op) : list BulkOperation := omap (fun op => match op with Add o => Some o | _ => None end) ops.

Definition fact_step (F : facts) (op : BulkOperation) : facts :=
  match op with
  | BIndex wf f v => {[(wf, mkKey f (from_value v))]} ∪ F
  | BRemove wf => filter (fun p => p.1 <> wf) F
  | BRemoveAttribute wf f v => F ∖ {[(wf, mkKey f (from_value v))]}
  end.
Definition facts_of (ops : list BulkOperation) : facts := fold_left fact_step ops ∅.

Definition storable_op (op : BulkOperation) : Prop := match op with BIndex _ _ v => storable (from_value v) | _ => True end.

Lemma apply_operation_reflects F x op : reflects F x -> reflects (fact_step F op) (apply_operation x op).
Proof.
  destruct op; cbn; [apply index_attribute_reflects|apply remove_workflow_reflects|apply remove_attribute_reflects].
Qed.

Lemma apply_operations_reflect ops : forall F x, reflects F x -> reflects (fold_left fact_step ops F) (fold_left apply_operation ops x).
Proof. induction ops as [|op ops IH]; intros F x R; cbn; [done|]. by apply IH, apply_operation_reflects. Qed.

Lemma facts_storable ops : forall F, storable_facts F -> Forall storable_op ops -> storable_facts (fold_left fact_step ops F).
Proof.
  induction ops as [|op ops IH]; intros F HF Ho; cbn; [done|]. inversion Ho as [|? ? H1 H2]; subst. apply IH; [|done].
  intros wf k Hk. destruct op; cbn in Hk.
  - apply elem_of_union in Hk as [Hk|Hk]; [|by apply (HF wf)]. apply elem_of_singleton in Hk as [= -> ->]. done.
  - apply elem_of_filter in Hk as [_ Hk]. by apply (HF wf).
  - apply elem_of_difference in Hk as [Hk _]. by apply (HF wf).
Qed.

(** What was added is split into what the index has seen and what waits. *)
Record bulk_inv (ops : list BulkOperation) (b : BulkIndexer) (flushed : list BulkOperation) : Prop := mkBulkInv {
  bi_split : ops = flushed ++ buffer b;
  bi_index : reflects (facts_of flushed) (bulk_index b);
  bi_room : Z.of_nat (length (buffer b)) < max_buffer_size b;
}.

Lemma flush_applies ops b flushed :
  ops = flushed ++ buffer b -> reflects (facts_of flushed) (bulk_index b) -> 0 < max_buffer_size b -> bulk_inv ops (flush b) ops.
Proof.
  intros -> R Hm. constructor; cbn; [by rewrite app_nil_r| |done]. unfold facts_of. rewrite fold_left_app. by apply apply_operations_reflect.
Qed.

Lemma bulk_inv_step ops b flushed op :
  bulk_inv ops b flushed -> exists flushed', bulk_inv (ops ++ added [op]) (bulk_step b op) flushed' /\ (op = Flush -> flushed' = ops).
Proof.
  intros [E R Hm]. destruct op as [o| |q]; cbn [bulk_step].
  - unfold add. cbn [max_buffer_size buffer].
    destruct (Z.leb_spec (max_buffer_size b) (Z.of_nat (length (buffer b ++ [o])))) as [Hl|Hl].
    + exists (ops ++ [o]). split; [|done]. apply (flush_applies _ _ flushed); cbn; [by rewrite E, app_assoc|done|lia].
    + exists flushed. split; [|done]. constructor; cbn; [by rewrite E, app_assoc|done|done].
  - exists ops. split; [|done]. cbn. rewrite app_nil_r. apply (flush_applies _ _ flushed); [done|done|lia].
  - exists flushed. split; [|done]. cbn. rewrite app_nil_r. constructor; cbn; [done| |done]. apply (reflects_same _ (bulk_index b)); [apply execute_query_same|done].
Qed.

Lemma bulk_inv_run ops : forall adds b flushed, bulk_inv adds b flushed -> exists flushed', bulk_inv (adds ++ added ops) (bulk_run b ops) flushed'.
Proof.
  induction ops as [|op ops IH]; intros adds b flushed I; cbn [bulk_run fold_left].
  - exists flushed. cbn. by rewrite app_nil_r.
  - destruct (bulk_inv_step adds b flushed op I) as (fl & I' & _). destruct (IH _ _ _ I') as [fl' I'']. exists fl'.
    rewrite <- app_assoc in I''. unfold added in *. by rewrite <- omap_app in I''.
Qed.

Lemma bulk_new_inv size : bulk_inv [] (bulk_new index_new size) [].
Proof. constructor; cbn; [done| |lia]. constructor; cbn; [set_solver|set_solver|apply map_Forall_empty..]. Qed.

(** C15. However index operations are added, buffered, flushed and interleaved with queries, the index answers a query by
    its meaning over the operations flushed so far, which are all of them except the fewer than [max_buffer_size] last ones that
    wait in the buffer: comparisons and ranges select integers, LIKE the strings with the prefix, equality and IN the values of
    the literal's type, NOT and != the other workflows that have some attribute, and AND and OR combine.  No such query panics. *)
Theorem bulk_queries_meaning (size : Z) (ops : list bulk_op) (q : QueryNode) (b : BulkIndexer)
  (Hb : b = bulk_run (bulk_new index_new size) ops) (Hs : Forall storable_op (added ops)) (Hq : answerable q) :
  exists flushed, added ops = flushed ++ buffer b /\ Z.of_nat (length (buffer b)) < Z.max size 1 /\
    exists s, (execute_query (bulk_index b) q).2 = Ret s /\ forall wf, wf ∈ s <-> meaning (facts_of flushed) q wf.
Proof.
  destruct (bulk_inv_run ops [] _ _ (bulk_new_inv size)) as (flushed & [E R Hl]). cbn [app] in E. rewrite <- Hb in E, R, Hl.
  exists flushed. split; [done|]. split.
  - replace (Z.max size 1) with (max_buffer_size b); [done|]. subst b. clear. change (Z.max size 1) with (max_buffer_size (bulk_new index_new size)).
    generalize (bulk_new index_new size) as b. induction ops as [|op ops IH]; intros b; [done|]. cbn [bulk_run fold_left]. unfold bulk_run in IH. rewrite IH.
    destruct op; cbn; try done. unfold add. by case_match.
  - apply execute_query_meaning; [done| |done]. apply facts_storable; [intros ?? []%elem_of_empty|].
    rewrite E in Hs. by apply Forall_app in Hs as [Hs _].
Qed.

Definition us (s : string) : ustring := map code (of_string s).

Definition demo_ops : list bulk_op :=
  [Add (BIndex 1 (us "Prio") (SInteger 5)); Query (QGt (us "Prio") (QNum 0)); Add (BIndex 2 (us "Prio") (SInteger 9));
   Add (BIndex 2 (us "Name") (SString (us "order-7"))); Add (BIndex 1 (us "Name") (SString (us "other"))); Add (BRemove 1)].
Definition demo_query : QueryNode := QAnd (QGt (us "Prio") (QNum 5)) (QLike (us "Name") (us "ord%")).

Lemma bulk_queries_meaning_witness :
  let b := bulk_run (bulk_new index_new 2) demo_ops in
  buffer b = [BRemove 1] /\ (execute_query (bulk_index b) demo_query).2 = Ret {[2]} /\
  exists flushed, added demo_ops = flushed ++ buffer b /\ (Z.of_nat (length (buffer b)) < Z.max 2 1) /\
    exists s, (execute_query (bulk_index b) demo_query).2 = Ret s /\ forall wf, wf ∈ s <-> meaning (facts_of flushed) demo_query wf.
Proof.
  split; [by vm_compute|]. split; [by vm_compute|].
  apply (bulk_queries_meaning 2 demo_ops demo_query _ eq_refl).
  - repeat constructor; vm_compute; (done || lia).
  - cbn. split; [unfold I64_MIN, I64_MAX; lia|]. by eexists.
Defined.

(** *** Limits *)

Definition demo_index : SearchAttributeIndex :=
  fold_left apply_operation
    [BIndex 1 (us "N") (SInteger 5); BIndex 2 (us "N") (SInteger (-5)); BIndex 1 (us "S") (SString (us "abc")); BIndex 2 (us "S") (SKeyword (us "abc"))]
    index_new.

(** Above the largest and below the smallest integer every workflow is found: the bound wraps. *)
Lemma comparison_wraps :
  (execute_query demo_index (QGt (us "N") (QNum I64_MAX))).2 = Ret {[1; 2]} /\ (execute_query demo_index (QLt (us "N") (QNum I64_MIN))).2 = Ret {[1; 2]}.
Proof. by vm_compute. Qed.

(** A range given the wrong way round panics. *)
Lemma reversed_range_panics : (execute_query demo_index (QBetween (us "N") (QNum 10) (QNum 5))).2 = Panic.
Proof. by vm_compute. Qed.

(** Equality with a string finds keywords only, LIKE finds text only. *)
Lemma strings_split :
  (execute_query demo_index (QEq (us "S") (QStr (us "abc")))).2 = Ret {[2]} /\ (execute_query demo_index (QLike (us "S") (us "abc%"))).2 = Ret {[1]}.
Proof. by vm_compute. Qed.

(** A new value does not replace the old one, and indexing the same value again counts again. *)
Lemma old_value_stays :
  let x := index_attribute (index_attribute demo_index 1 (us "N") (SInteger 6)) 1 (us "N") (SInteger 6) in
  (execute_query x (QEq (us "N") (QNum 5))).2 = Ret {[1]} /\ (range_integer x (us "N") 5 6).2 = Ret [1; 1] /\
  total_entries (stats x) = 6 /\ size (index x) = 5%nat.
Proof. by vm_compute. Qed.

(** Removing an attribute leaves the statistics as they were. *)
Lemma removed_attribute_counted :
  let x := remove_attribute demo_index 1 (us "N") (SInteger 5) in unique_keys (stats x) = 4 /\ size (index x) = 3%nat.
Proof. by vm_compute. Qed.

(** A prefix that ends just below the surrogates finds nothing. *)
Lemma prefix_without_successor :
  let x := index_attribute index_new 1 (us "S") (SString [55295; 97]) in
  (execute_query x (QLike (us "S") [55295; 37])).2 = Ret ∅ /\ (execute_query x (QLike (us "S") [37])).2 = Ret {[1]}.
Proof. by vm_compute. Qed.

End Bulk.

Module Schema.
Import Attr.

(** *** Declared attributes.  Errors carry their kind; their texts are left out. *)

Inductive SearchAttributeType : Type := TText | TKeyword | TInt | TDouble | TBool | TDatetime | TKeywordList.

#[export] Instance attr_type_eq_dec : EqDecision SearchAttributeType.
Proof. solve_decision. Defined.

Inductive SchemaError : Type := UnknownField | TypeMismatch | Conflict | Forbidden.

Definition text_in (s : chars) (l : list string) : bool := existsb (fun t => bool_decide (s = of_string t)) l.

Definition from_type_name (name : chars) : option SearchAttributeType :=
  let n := map to_lower name in
  if text_in n ["text"]%string then Some TText
  else if text_in n ["keyword"]%string then Some TKeyword
  else if text_in n ["int"; "integer"; "long"]%string then Some TInt
  else if text_in n ["double"; "float"]%string then Some TDouble
  else if text_in n ["bool"; "boolean"]%string then Some TBool
  else if text_in n ["datetime"; "timestamp"]%string then Some TDatetime
  else if text_in n ["keywordlist"; "keyword_list"]%string then Some TKeywordList
  else None.

Definition type_name (t : SearchAttributeType) : string :=
  match t with
  | TText => "Text" | TKeyword => "Keyword" | TInt => "Int" | TDouble => "Double" | TBool => "Bool" | TDatetime => "Datetime"
  | TKeywordList => "KeywordList"
  end.

Definition supports_prefix (t : SearchAttributeType) : bool := match t with TText | TKeyword | TKeywordList => true | _ => false end.
Definition supports_range (t : SearchAttributeType) : bool := match t with TInt | TDouble | TDatetime => true | _ => false end.

Record SearchAttributeField : Type := mkField {
  field_name : string;
  attr_type : SearchAttributeType;
  is_system : bool;
  is_dynamic : bool;
  index_enabled : bool;
}.

(** The system fields of [new]. *)
Definition system_defs : list (string * SearchAttributeType) :=
  [("WorkflowId", TKeyword); ("RunId", TKeyword); ("WorkflowType", TKeyword); ("StartTime", TDatetime); ("CloseTime", TDatetime);
   ("ExecutionStatus", TKeyword); ("ExecutionDuration", TInt); ("HistoryLength", TInt); ("HistorySizeBytes", TInt);
   ("TaskQueue", TKeyword); ("Namespace", TKeyword); ("ParentWorkflowId", TKeyword); ("ParentRunId", TKeyword);
   ("RootWorkflowId", TKeyword); ("RootRunId", TKeyword); ("StateTransitionCount", TInt); ("BatchOperationId", TKeyword)]%string.
Definition system_fields : gmap string SearchAttributeField :=
  fold_left (fun m p => <[p.1 := mkField p.1 p.2 true false true]> m) system_defs ∅.

Definition add_search_attribute (fields : gmap string SearchAttributeField) (name : string) (t : SearchAttributeType) :
  gmap string SearchAttributeField * result unit SchemaError :=
  if bool_decide (is_Some (system_fields !! name)) then (fields, Err Conflict)
  else match fields !! name with
       | Some existing => if bool_decide (attr_type existing = t) then (fields, Ok tt) else (fields, Err TypeMismatch)
       | None => (<[name := mkField name t false true true]> fields, Ok tt)
       end.

Definition remove_search_attribute (fields : gmap string SearchAttributeField) (name : string) :
  gmap string SearchAttributeField * result unit SchemaError :=
  if bool_decide (is_Some (system_fields !! name)) then (fields, Err Forbidden) else (delete name fields, Ok tt).

Definition get_field (fields : gmap string SearchAttributeField) (name : string) : option SearchAttributeField :=
  match fields !! name with Some f => Some f | None => system_fields !! name end.

Definition type_ok (t : SearchAttributeType) (v : SearchAttributeValue) : bool :=
  match t, v with
  | TText, SString _ | TKeyword, SKeyword _ | TKeyword, SString _ | TInt, SInteger _ | TDouble, SDouble _ | TBool, SBool _
  | TDatetime, SDateTime _ | TKeywordList, SKeyword _ => true
  | _, _ => false
  end.

Definition validate_value (fields : gmap string SearchAttributeField) (name : string) (v : SearchAttributeValue) : result unit SchemaError :=
  match get_field fields name with
  | None => Err UnknownField
  | Some f => if type_ok (attr_type f) v then Ok tt else Err TypeMismatch
  end.

Inductive schema_op : Type := AddAttr (name : string) (t : SearchAttributeType) | RemoveAttr (name : string).
Definition schema_step (fields : gmap string SearchAttributeField) (op : schema_op) : gmap string SearchAttributeField :=
  match op with AddAttr n t => (add_search_attribute fields n t).1 | RemoveAttr n => (remove_search_attribute fields n).1 end.
Definition schema_run (ops : list schema_op) (fields : gmap string SearchAttributeField) : gmap string SearchAttributeField :=
  fold_left schema_step ops fields.

Lemma from_type_name_type_name t : from_type_name (of_string (type_name t)) = Some t.
Proof. by destruct t; vm_compute. Qed.

(** Once there, a field keeps its type until it is removed; system fields keep theirs for ever. *)
Lemma field_type_stable ops : forall fields name f,
  get_field fields name = Some f -> Forall (fun op => match op with RemoveAttr n => n <> name | _ => True end) ops ->
  get_field (schema_run ops fields) name = Some f.
Proof.
  induction ops as [|op ops IH]; intros fields name f Hf Ho; cbn [schema_run fold_left]; [done|].
  inversion Ho as [|? ? H1 H2]; subst. apply IH; [|done]. unfold get_field in *. destruct op as [n t|n]; cbn.
  - unfold add_search_attribute. case_bool_decide as Hs; [done|]. destruct (fields !! n) eqn:E; [by case_bool_decide|]. cbn.
    destruct (decide (n = name)) as [->|Hne]; [|by rewrite lookup_insert_ne]. rewrite E in Hf. destruct Hs. eauto.
  - unfold remove_search_attribute. case_bool_decide; [done|]. cbn. by rewrite lookup_delete_ne.
Qed.

Lemma system_field_fixed ops name f : system_fields !! name = Some f -> get_field (schema_run ops ∅) name = Some f.
Proof.
  intros Hf. assert (H : forall ops fields, fields !! name = None -> schema_run ops fields !! name = None).
  { clear -Hf. induction ops as [|op ops IH]; intros fields Hn; cbn [schema_run fold_left]; [done|]. apply IH. destruct op as [n t|n]; cbn.
    - unfold add_search_attribute. case_bool_decide as Hs; [done|]. destruct (fields !! n); [by case_bool_decide|]. cbn.
      rewrite lookup_insert_ne; [done|]. intros ->. destruct Hs. eauto.
    - unfold remove_search_attribute. case_bool_decide; [done|]. cbn. destruct (decide (n = name)) as [->|]; [apply lookup_delete_eq|by rewrite lookup_delete_ne]. }
  unfold get_field. by rewrite H by apply lookup_empty.
Qed.

End Schema.

Module Lifecycle.
Import Schema.

Inductive IndexState : Type := Creating | Active | ReadOnly | Deleting | Deleted.

#[export] Instance index_state_eq_dec : EqDecision IndexState.
Proof. solve_decision. Defined.

Record IndexMetadata : Type := mkMeta {
  meta_name : chars;
  meta_alias : option chars;
  state : IndexState;
  created_at_ms : Z;
  doc_count : Z;
  size_bytes : Z;
  schema_version : Z;
  number_of_shards : Z;
  replicas : Z;
}.

Record IndexLifecycleManager : Type := mkManager {
  indices : gmap chars IndexMetadata;
  aliases : gmap chars chars;
}.

Definition manager_new : IndexLifecycleManager := mkManager ∅ ∅.

Definition set_state (st : IndexState) (m : IndexMetadata) : IndexMetadata :=
  mkMeta (meta_name m) (meta_alias m) st (created_at_ms m) (doc_count m) (size_bytes m) (schema_version m) (number_of_shards m) (replicas m).

Definition create_index (m : IndexLifecycleManager) (name : chars) (shards reps version : Z) : IndexLifecycleManager * result unit SchemaError :=
  match indices m !! name with
  | Some _ => (m, Ok tt)
  | None => (mkManager (<[name := mkMeta name None Active 0 0 0 version shards reps]> (indices m)) (aliases m), Ok tt)
  end.

Definition delete_index (m : IndexLifecycleManager) (name : chars) : IndexLifecycleManager * result unit SchemaError :=
  match indices m !! name with
  | Some meta => (mkManager (<[name := set_state Deleted meta]> (indices m)) (filter (fun p => p.2 <> name) (aliases m)), Ok tt)
  | None => (m, Err UnknownField)
  end.

Definition put_alias (m : IndexLifecycleManager) (alias name : chars) : IndexLifecycleManager * result unit SchemaError :=
  match indices m !! name with
  | None => (m, Err UnknownField)
  | Some _ => (mkManager (indices m) (<[alias := name]> (aliases m)), Ok tt)
  end.

Definition resolve_alias (m : IndexLifecycleManager) (alias : chars) : option chars := aliases m !! alias.

Definition versioned (alias : chars) (version : Z) : chars := alias ++ of_string "-v" ++ print_int version.

Definition rollover (m : IndexLifecycleManager) (alias : chars) (shards reps version : Z) : IndexLifecycleManager * result chars SchemaError :=
  let m := match aliases m !! alias with
           | Some current =>
               match indices m !! current with
               | Some meta => mkManager (<[current := set_state ReadOnly meta]> (indices m)) (aliases m)
               | None => m
               end
           | None => m
           end in
  let name := versioned alias (wrap 64 (Z.of_nat (size (indices m)) + 1)) in
  match create_index m name shards reps version with
  | (m, Err e) => (m, Err e)
  | (m, Ok _) => match put_alias m alias name with (m, Err e) => (m, Err e) | (m, Ok _) => (m, Ok name) end
  end.

Definition list_indices (m : IndexLifecycleManager) (order : list chars) : list IndexMetadata :=
  List.filter (fun i => bool_decide (state i <> Deleted)) (omap (fun n => indices m !! n) order).
Definition active_index_count (m : IndexLifecycleManager) : nat := size (filter (fun p => state p.2 = Active) (indices m)).

Inductive life_op : Type :=
| Create (name : chars) (shards reps version : Z)
| Delete (name : chars)
| PutAlias (alias name : chars)
| Rollover (alias : chars) (shards reps version : Z).

Definition life_step (m : IndexLifecycleManager) (op : life_op) : IndexLifecycleManager :=
  match op with
  | Create n s r v => (create_index m n s r v).1
  | Delete n => (delete_index m n).1
  | PutAlias a n => (put_alias m a n).1
  | Rollover a s r v => (rollover m a s r v).1
  end.
Definition life_run (ops : list life_op) : IndexLifecycleManager := fold_left life_step ops manager_new.

(** Names given by hand that do not end in a digit. *)
Definition by_hand (op : life_op) : Prop :=
  match op with Create n _ _ _ => match last n with Some c => is_ascii_digit c = false | None => True end | _ => True end.

(** *** Names of versions *)

Lemma versioned_inj a b n k : 0 <= n -> 0 <= k -> versioned a n = versioned b k -> n = k.
Proof.
  intros Hn Hk. unfold versioned. rewrite (app_assoc a (of_string "-v")), (app_assoc b (of_string "-v")).
  change (of_string "-v") with (["-"%char] ++ ["v"%char]). rewrite !(app_assoc _ ["-"%char]), <- !(app_assoc _ ["v"%char]).
  by apply end_number_inj.
Qed.

Lemma versioned_ends_in_digit a n : 0 <= n -> exists c, last (versioned a n) = Some c /\ is_ascii_digit c = true.
Proof.
  intros Hn. pose proof (print_int_digits n Hn) as Hd.
  destruct (print_int n) as [|c ds _] eqn:E using rev_ind.
  - unfold print_int in E. replace (n <? 0) with false in E by lia. by apply dec_digits_nonempty in E.
  - exists c. unfold versioned. rewrite E, !app_assoc, last_snoc. split; [done|]. rewrite forallb_app in Hd. cbn in Hd.
    apply andb_prop in Hd as [_ Hd]. by rewrite andb_true_r in Hd.
Qed.

(** *** The invariant: versions count up, aliases lead somewhere *)

Record life_inv (m : IndexLifecycleManager) : Prop := mkLifeInv {
  l_names : forall n a k, 0 <= k -> is_Some (indices m !! n) -> n = versioned a k -> k <= Z.of_nat (size (indices m));
  l_aliases : forall a n, aliases m !! a = Some n -> is_Some (indices m !! n);
}.

Lemma life_inv_update m n meta meta' : life_inv m -> indices m !! n = Some meta -> life_inv (mkManager (<[n := meta']> (indices m)) (aliases m)).
Proof.
  intros [Hn Ha] E. assert (Hs : forall k, is_Some (<[n := meta']> (indices m) !! k) <-> is_Some (indices m !! k)).
  { intros k. rewrite lookup_insert_is_Some'. split; [intros [<-|]; eauto|auto]. }
  constructor; cbn.
  - intros k a v Hv Hk Ev. apply Hs in Hk. rewrite map_size_insert_Some by eauto. eauto.
  - intros a k Hk. apply Hs. eauto.
Qed.

Lemma create_inv m n s r v : life_inv m -> by_hand (Create n s r v) -> life_inv (create_index m n s r v).1.
Proof.
  intros [Hn Ha] Hh. unfold create_index. destruct (indices m !! n) eqn:E; [done|]. constructor; cbn.
  - intros k a w Hw Hk Ev. rewrite map_size_insert_None by done. apply lookup_insert_is_Some' in Hk as [<-|Hk].
    + exfalso. destruct (versioned_ends_in_digit a w Hw) as (c & Hl & Hd). cbn in Hh. rewrite Ev, Hl in Hh. congruence.
    + pose proof (Hn k a w Hw Hk Ev). lia.
  - intros a k Hk. apply lookup_insert_is_Some'. right. eauto.
Qed.

Lemma delete_inv m n : life_inv m -> life_inv (delete_index m n).1.
Proof.
  intros I. unfold delete_index. destruct (indices m !! n) as [meta|] eqn:E; [|done].
  destruct (life_inv_update m n meta (set_state Deleted meta) I E) as [Hn Ha]. constructor; cbn in *; [done|].
  intros a k Hk. apply map_lookup_filter_Some in Hk as [Hk _]. eauto.
Qed.

Lemma put_alias_inv m a n : life_inv m -> life_inv (put_alias m a n).1.
Proof.
  intros [Hn Ha]. unfold put_alias. destruct (indices m !! n) eqn:E; [|done]. constructor; cbn; [done|]. intros b k Hk.
  destruct (decide (b = a)) as [->|]; [rewrite lookup_insert_eq in Hk; simplify_eq; eauto|rewrite lookup_insert_ne in Hk by done; eauto].
Qed.

(** The manager with the old target of the alias closed for writing. *)
Definition closed_for (m : IndexLifecycleManager) (alias : chars) : IndexLifecycleManager :=
  match aliases m !! alias with
  | Some current => match indices m !! current with Some meta => mkManager (<[current := set_state ReadOnly meta]> (indices m)) (aliases m) | None => m end
  | None => m
  end.

Lemma closed_for_inv m a : life_inv m -> life_inv (closed_for m a).
Proof.
  intros I. unfold closed_for. destruct (aliases m !! a) as [c|]; [|done]. destruct (indices m !! c) eqn:E; [|done]. by apply (life_inv_update m c _ _ I E).
Qed.

Lemma closed_for_size m a : size (indices (closed_for m a)) = size (indices m).
Proof.
  unfold closed_for. destruct (aliases m !! a) as [c|]; [|done]. destruct (indices m !! c) eqn:E; [|done]. cbn. by rewrite map_size_insert_Some by eauto.
Qed.

(** What a rollover does. *)
Lemma rollover_spec m a s r v name :
  life_inv m -> Z.of_nat (size (indices m)) + 1 < 2 ^ 64 -> name = versioned a (Z.of_nat (size (indices m)) + 1) ->
  indices m !! name = None /\
  rollover m a s r v =
    (mkManager (<[name := mkMeta name None Active 0 0 0 v s r]> (indices (closed_for m a))) (<[a := name]> (aliases m)), Ok name).
Proof.
  intros I Hb ->. set (name := versioned a _).
  assert (Hf : forall m', life_inv m' -> size (indices m') = size (indices m) -> indices m' !! name = None).
  { intros m' I' Hs. apply eq_None_not_Some. intros H. pose proof (l_names _ I' name a (Z.of_nat (size (indices m)) + 1) ltac:(lia) H eq_refl). lia. }
  split; [by apply Hf|]. unfold rollover. fold (closed_for m a). rewrite closed_for_size, wrap_id by (unfold fits; lia). fold name.
  unfold create_index. rewrite (Hf (closed_for m a)) by (apply closed_for_inv, I || apply closed_for_size).
  unfold put_alias. cbn. rewrite lookup_insert_eq. f_equal. f_equal. unfold closed_for.
  destruct (aliases m !! a) as [c|]; [|done]. by destruct (indices m !! c).
Qed.

Lemma rollover_inv m a s r v : life_inv m -> Z.of_nat (size (indices m)) + 1 < 2 ^ 64 -> life_inv (rollover m a s r v).1.
Proof.
  intros I Hb. destruct (rollover_spec m a s r v _ I Hb eq_refl) as [Hf ->]. set (name := versioned a _) in *.
  destruct (closed_for_inv m a I) as [Hn Ha]. assert (Hf' : indices (closed_for m a) !! name = None).
  { apply eq_None_not_Some. intros H. pose proof (Hn name a (Z.of_nat (size (indices m)) + 1) ltac:(lia) H eq_refl). rewrite closed_for_size in *. lia. }
  constructor; cbn.
  - intros k b w Hw Hk Ev. rewrite map_size_insert_None by done. rewrite closed_for_size in *. apply lookup_insert_is_Some' in Hk as [<-|Hk].
    + apply versioned_inj in Ev; [lia|lia|done].
    + pose proof (Hn k b w Hw Hk Ev). lia.
  - intros b k Hk. apply lookup_insert_is_Some'. destruct (decide (b = a)) as [->|Hne].
    + rewrite lookup_insert_eq in Hk. simplify_eq. by left.
    + rewrite lookup_insert_ne in Hk by done. right. apply (Ha b). unfold closed_for. destruct (aliases m !! a) as [c|]; [|done]. by destruct (indices m !! c).
Qed.

Lemma life_step_size m op : (size (indices (life_step m op)) <= S (size (indices m)))%nat.
Proof.
  destruct op; cbn.
  - unfold create_index. destruct (indices m !! name) eqn:E; cbn; [lia|]. by rewrite map_size_insert_None.
  - unfold delete_index. destruct (indices m !! name) eqn:E; cbn; [|lia]. rewrite map_size_insert_Some by eauto. lia.
  - unfold put_alias. destruct (indices m !! name); cbn; lia.
  - unfold rollover. fold (closed_for m alias). rewrite <- (closed_for_size m alias). set (m' := closed_for m alias). unfold create_index.
    set (n := versioned _ _). destruct (indices m' !! n) eqn:E; unfold put_alias; cbn; rewrite ?E, ?lookup_insert_eq; cbn; [lia|].
    by rewrite map_size_insert_None.
Qed.

Lemma life_run_inv ops :
  Forall by_hand ops -> Z.of_nat (length ops) + 1 < 2 ^ 64 -> life_inv (life_run ops) /\ (size (indices (life_run ops)) <= length ops)%nat.
Proof.
  unfold life_run. induction ops as [|op ops IH] using rev_ind; intros Hh Hb.
  - split; [|done]. constructor; cbn; [intros ? ? ? ? []; by simplify_map_eq|by intros ? ? ?%lookup_empty_Some].
  - apply Forall_app in Hh as [Hh1 Hh2]. inversion Hh2; subst. rewrite length_app in *. cbn in *. destruct IH as [I Hs]; [done|lia|].
    rewrite fold_left_app. cbn [fold_left]. set (m := fold_left life_step ops manager_new) in *. pose proof (life_step_size m op) as Hl.
    split; [|lia]. destruct op; cbn [life_step]; [by apply create_inv|by apply delete_inv|by apply put_alias_inv|apply rollover_inv; [done|lia]].
Qed.

(** Whatever indices were created, deleted, aliased and rolled over before, as long as the names given by hand do not
    end in a digit, a rollover succeeds: the name it makes up was never used, the index is there, active and with the configuration
    asked for, the alias leads to it, the index the alias led to is read-only, and no other index and no other alias has changed. *)
Theorem rollover_fresh (ops : list life_op) (alias : chars) (shards reps version : Z) (m : IndexLifecycleManager)
  (Hm : m = life_run ops) (Hh : Forall by_hand ops) (Hb : Z.of_nat (length ops) + 1 < 2 ^ 64) :
  exists m' name, rollover m alias shards reps version = (m', Ok name) /\ indices m !! name = None /\
    indices m' !! name = Some (mkMeta name None Active 0 0 0 version shards reps) /\ resolve_alias m' alias = Some name /\
    (forall old, resolve_alias m alias = Some old -> exists meta, indices m !! old = Some meta /\ indices m' !! old = Some (set_state ReadOnly meta)) /\
    (forall n, n <> name -> resolve_alias m alias <> Some n -> indices m' !! n = indices m !! n) /\
    (forall a, a <> alias -> resolve_alias m' a = resolve_alias m a).
Proof.
  destruct (life_run_inv ops Hh Hb) as [I Hs]. rewrite <- Hm in I, Hs. clear Hm Hh.
  destruct (rollover_spec m alias shards reps version _ I ltac:(lia) eq_refl) as [Hf E]. set (name := versioned _ _) in *.
  eexists _, name. split; [exact E|]. cbn. unfold resolve_alias. cbn. split_and!.
  - done.
  - apply lookup_insert_eq.
  - apply lookup_insert_eq.
  - intros old Ho. destruct (l_aliases _ I _ _ Ho) as [meta Hold]. exists meta. split; [done|].
    rewrite lookup_insert_ne by (intros ->; congruence). unfold closed_for. rewrite Ho, Hold. cbn. apply lookup_insert_eq.
  - intros n Hn Ho. rewrite lookup_insert_ne by done. unfold closed_for. destruct (aliases m !! alias) as [c|]; [|done].
    destruct (indices m !! c); [|done]. cbn. rewrite lookup_insert_ne; [done|]. naive_solver.
  - intros a Ha. by rewrite lookup_insert_ne.
Qed.

Definition demo_life : list life_op :=
  [Create (of_string "main") 1 0 1; PutAlias (of_string "wf") (of_string "main"); Rollover (of_string "wf") 2 1 1;
   Delete (of_string "wf-v2"); Rollover (of_string "wf") 2 1 2].

Lemma rollover_fresh_witness :
  aliases (life_run demo_life) !! of_string "wf" = Some (of_string "wf-v3") /\
  exists m' name, rollover (life_run demo_life) (of_string "wf") 3 1 2 = (m', Ok name) /\ indices (life_run demo_life) !! name = None /\
    indices m' !! name = Some (mkMeta name None Active 0 0 0 2 3 1).
Proof.
  split; [by vm_compute|].
  destruct (rollover_fresh demo_life (of_string "wf") 3 1 2 _ eq_refl) as (m' & name & H1 & H2 & H3 & _).
  - repeat constructor.
  - cbn. lia.
  - eauto.
Defined.

(** An alias can be put on a deleted index, and rolling it over brings the deleted index back as a read-only one. *)
Lemma deleted_index_revived :
  let m := life_run [Create (of_string "main") 1 0 1; Delete (of_string "main"); PutAlias (of_string "wf") (of_string "main")] in
  state <$> indices m !! of_string "main" = Some Deleted /\ resolve_alias m (of_string "wf") = Some (of_string "main") /\
  state <$> indices (rollover m (of_string "wf") 1 0 1).1 !! of_string "main" = Some ReadOnly.
Proof. by vm_compute. Qed.

(** With a name that looks like a version, a rollover takes an index that exists, even a deleted one, and says it succeeded. *)
Lemma rollover_reuses :
  let m := life_run [Create (of_string "wf-v2") 1 0 1; Delete (of_string "wf-v2")] in
  (rollover m (of_string "wf") 1 0 1).2 = Ok (of_string "wf-v2") /\ state <$> indices (rollover m (of_string "wf") 1 0 1).1 !! of_string "wf-v2" = Some Deleted.
Proof. by vm_compute. Qed.

End Lifecycle.
