(* ===== verification/IndexLocks.v ===== *)
(** * The locks of the search attribute index

    [search_index.rs] keeps the forward index, the reverse index and the statistics of a [SearchAttributeIndex] behind three
    [RwLock]s.  This file has the locking of each method: which locks it takes, in which mode and order, and where the guards
    are dropped (at the end of a block, of a statement for a temporary, or of the method, last taken first).  Threads call
    methods concurrently; a step of the system is a step of one of them.  A reader waits while a writer has the lock; whether it
    also waits while a writer is waiting is left to the platform by [std::sync::RwLock], and is the parameter [prefer_writers]. *)

From S2P Require Import Prelude.

Module IndexLocks.

Inductive lock : Type := LIndex | LReverse | LStats.
Inductive mode : Type := Read | Write.
Inductive action : Type := Acquire (l : lock) (m : mode) | Release (l : lock).

#[export] Instance lock_eq_dec : EqDecision lock.
Proof. solve_decision. Defined.
#[export] Instance mode_eq_dec : EqDecision mode.
Proof. solve_decision. Defined.
#[export] Instance action_eq_dec : EqDecision action.
Proof. solve_decision. Defined.

(** [index.write()] in a block, [reverse.write()] in a block, then [stats.write()] to the end of the method, with [index.read()]
    and [reverse.read()] as temporaries. *)
Definition index_attribute_locks : list action :=
  [Acquire LIndex Write; Release LIndex; Acquire LReverse Write; Release LReverse; Acquire LStats Write; Acquire LIndex Read; Release LIndex;
   Acquire LReverse Read; Release LReverse; Release LStats].

(** [reverse.write()] in a block; when the workflow is known, [index.write()] and [stats.write()] to the end, with
    [reverse.read()] as a temporary. *)
Definition remove_workflow_locks (known : bool) : list action :=
  [Acquire LReverse Write; Release LReverse] ++
  (if known then [Acquire LIndex Write; Acquire LStats Write; Acquire LReverse Read; Release LReverse; Release LStats; Release LIndex] else []).

Definition remove_attribute_locks : list action := [Acquire LIndex Write; Release LIndex; Acquire LReverse Write; Release LReverse].

(** [exact_match] and the range queries: [index.read()] to the end, [stats.write()] as a temporary. *)
Definition query_locks : list action := [Acquire LIndex Read; Acquire LStats Write; Release LStats; Release LIndex].

Inductive call : Type := IndexAttribute | RemoveWorkflow (known : bool) | RemoveAttribute | RunQuery.

Definition call_locks (c : call) : list action :=
  match c with
  | IndexAttribute => index_attribute_locks
  | RemoveWorkflow known => remove_workflow_locks known
  | RemoveAttribute => remove_attribute_locks
  | RunQuery => query_locks
  end.

(** The guards a thread has, and what it has still to do. *)
Record thread : Type := mkThread {
  held : list (lock * mode);
  todo : list action;
}.

Definition start (calls : list call) : thread := mkThread [] (concat (map call_locks calls)).

Definition holds (l : lock) (m : mode) (t : thread) : bool := bool_decide ((l, m) ∈ held t).
Definition waits_to_write (l : lock) (t : thread) : bool := bool_decide (head (todo t) = Some (Acquire l Write)).

Definition granted (prefer_writers : bool) (ts : list thread) (l : lock) (m : mode) : bool :=
  match m with
  | Write => negb (existsb (fun t => holds l Read t || holds l Write t) ts)
  | Read => negb (existsb (holds l Write) ts) && negb (prefer_writers && existsb (waits_to_write l) ts)
  end.

Fixpoint drop_guard (l : lock) (h : list (lock * mode)) : list (lock * mode) :=
  match h with [] => [] | g :: h => if decide (g.1 = l) then h else g :: drop_guard l h end.

Definition thread_step (pw : bool) (ts : list thread) (t : thread) : option thread :=
  match todo t with
  | [] => None
  | Acquire l m :: rest => if granted pw ts l m then Some (mkThread ((l, m) :: held t) rest) else None
  | Release l :: rest => Some (mkThread (drop_guard l (held t)) rest)
  end.

Inductive step (pw : bool) (ts : list thread) : list thread -> Prop :=
| step_thread i t t' : ts !! i = Some t -> thread_step pw ts t = Some t' -> step pw ts (<[i := t']> ts).

Definition steps (pw : bool) : list thread -> list thread -> Prop := rtc (step pw).
Definition finished (ts : list thread) : Prop := Forall (fun t => todo t = []) ts.
Definition stuck (pw : bool) (ts : list thread) : Prop := ~ finished ts /\ forall ts', ~ step pw ts ts'.

(** *** Threads that only write attributes *)

Definition writes_attributes (c : call) : Prop := match c with IndexAttribute | RemoveAttribute => True | _ => False end.

(** Where such a thread can be inside a call: the guards it has and the rest of the call. *)
Definition places : list thread :=
  let p := index_attribute_locks in
  let q := remove_attribute_locks in
  [mkThread [(LIndex, Write)] (drop 1 p); mkThread [] (drop 2 p); mkThread [(LReverse, Write)] (drop 3 p); mkThread [] (drop 4 p);
   mkThread [(LStats, Write)] (drop 5 p); mkThread [(LIndex, Read); (LStats, Write)] (drop 6 p); mkThread [(LStats, Write)] (drop 7 p);
   mkThread [(LReverse, Read); (LStats, Write)] (drop 8 p); mkThread [(LStats, Write)] (drop 9 p);
   mkThread [(LIndex, Write)] (drop 1 q); mkThread [] (drop 2 q); mkThread [(LReverse, Write)] (drop 3 q); mkThread [] []].

Definition placed (t : thread) : Prop :=
  exists p calls, p ∈ places /\ Forall writes_attributes calls /\ held t = held p /\ todo t = todo p ++ concat (map call_locks calls).

(** What the thread does next, with the guards it has. *)
Inductive next : thread -> Prop :=
| next_done t : todo t = [] -> held t = [] -> next t
| next_release t l rest : todo t = Release l :: rest -> next t
| next_write t l rest : todo t = Acquire l Write :: rest -> held t = [] -> next t
| next_read t l rest : todo t = Acquire l Read :: rest -> l <> LStats -> held t = [(LStats, Write)] -> next t.

Lemma placed_next t : placed t -> next t.
Proof.
  intros (p & calls & Hp & Hc & Hh & Ht). unfold places in Hp. repeat apply elem_of_cons in Hp as [->|Hp]; try (by apply elem_of_nil in Hp);
    cbn in Hh, Ht; try (by eapply next_release); try (by eapply next_write); try (by eapply next_read).
  destruct Hc as [|c calls Hc _]; cbn in Ht; [by apply next_done|]. destruct c; try done; cbn in Ht; by eapply next_write.
Qed.

Lemma start_placed calls : Forall writes_attributes calls -> placed (start calls).
Proof. intros Hc. exists (mkThread [] []), calls. split_and!; try done. unfold places. set_solver. Qed.

Lemma placed_step pw ts t t' : placed t -> thread_step pw ts t = Some t' -> placed t'.
Proof.
  intros (p & calls & Hp & Hc & Hh & Ht) Hs. unfold thread_step in Hs. rewrite Ht in Hs.
  assert (Go : forall q cs, q ∈ places -> Forall writes_attributes cs -> held t' = held q -> todo t' = todo q ++ concat (map call_locks cs) -> placed t').
  { intros q cs ????. by exists q, cs. }
  unfold places in Hp. repeat apply elem_of_cons in Hp as [->|Hp]; try (by apply elem_of_nil in Hp); cbn in Hh, Hs; rewrite Hh in Hs.
  13: destruct Hc as [|c calls Hc Hcs]; cbn in Hs; [done|]; destruct c; try done; cbn in Hs.
  all: try (case_match; [|done]); injection Hs as <-.
  - by apply (Go (mkThread [] (drop 2 index_attribute_locks)) calls); [unfold places; set_solver|..].
  - by apply (Go (mkThread [(LReverse, Write)] (drop 3 index_attribute_locks)) calls); [unfold places; set_solver|..].
  - by apply (Go (mkThread [] (drop 4 index_attribute_locks)) calls); [unfold places; set_solver|..].
  - by apply (Go (mkThread [(LStats, Write)] (drop 5 index_attribute_locks)) calls); [unfold places; set_solver|..].
  - by apply (Go (mkThread [(LIndex, Read); (LStats, Write)] (drop 6 index_attribute_locks)) calls); [unfold places; set_solver|..].
  - by apply (Go (mkThread [(LStats, Write)] (drop 7 index_attribute_locks)) calls); [unfold places; set_solver|..].
  - by apply (Go (mkThread [(LReverse, Read); (LStats, Write)] (drop 8 index_attribute_locks)) calls); [unfold places; set_solver|..].
  - by apply (Go (mkThread [(LStats, Write)] (drop 9 index_attribute_locks)) calls); [unfold places; set_solver|..].
  - by apply (Go (mkThread [] []) calls); [unfold places; set_solver|..].
  - by apply (Go (mkThread [] (drop 2 remove_attribute_locks)) calls); [unfold places; set_solver|..].
  - by apply (Go (mkThread [(LReverse, Write)] (drop 3 remove_attribute_locks)) calls); [unfold places; set_solver|..].
  - by apply (Go (mkThread [] []) calls); [unfold places; set_solver|..].
  - by apply (Go (mkThread [(LIndex, Write)] (drop 1 index_attribute_locks)) calls); [unfold places; set_solver|..].
  - by apply (Go (mkThread [(LIndex, Write)] (drop 1 remove_attribute_locks)) calls); [unfold places; set_solver|..].
Qed.

Lemma steps_placed pw ts ts' : steps pw ts ts' -> Forall placed ts -> Forall placed ts'.
Proof.
  induction 1 as [|ts ts1 ts2 H _ IH]; intros Hp; [done|]. apply IH. destruct H as [i t t' Hi Ht].
  apply Forall_insert; [done|]. apply (placed_step pw ts t); [|done]. by apply (Forall_lookup_1 _ _ _ _ Hp Hi).
Qed.

(** *** Somebody can move *)

Lemma moves pw ts t : t ∈ ts -> is_Some (thread_step pw ts t) -> exists ts', step pw ts ts'.
Proof. intros [i Hi]%list_elem_of_lookup [t' Ht]. eexists. by eapply step_thread. Qed.

Lemma existsb_false_elem {A} (f : A -> bool) l : (forall x, x ∈ l -> f x = false) -> existsb f l = false.
Proof. induction l as [|x l IH]; intros H; cbn; [done|]. rewrite H by constructor. apply IH. intros y Hy. apply H. by constructor. Qed.

Lemma existsb_elem {A} (f : A -> bool) l : existsb f l = true -> exists x, x ∈ l /\ f x = true.
Proof. intros (x & Hx & Hf)%existsb_exists. apply list_elem_of_In in Hx. eauto. Qed.

Lemma elem_existsb {A} (f : A -> bool) l x : existsb f l = false -> x ∈ l -> f x = false.
Proof. intros H Hx. destruct (f x) eqn:E; [|done]. assert (existsb f l = true); [|congruence]. apply existsb_exists. exists x. by rewrite <- list_elem_of_In. Qed.

Definition releasing (t : thread) : bool := match todo t with Release _ :: _ => true | _ => false end.
Definition reading (t : thread) : bool := match todo t with Acquire _ Read :: _ => true | _ => false end.
Definition writing_index (t : thread) : bool := waits_to_write LIndex t || waits_to_write LReverse t.

(** When nobody is dropping a guard, the only guards are those of the statistics, and their owners read. *)
Definition only_stats (ts : list thread) : Prop :=
  forall t l m, t ∈ ts -> (l, m) ∈ held t -> l = LStats /\ reading t = true.

Lemma guards_of_waiting ts : (forall t, t ∈ ts -> next t) -> existsb releasing ts = false -> only_stats ts.
Proof.
  intros Hn NR t l m Ht Hh. apply (elem_existsb _ _ t) in NR; [|done]. unfold releasing in NR. unfold reading.
  destruct (Hn t Ht) as [t H1 H2|t l' rest H1|t l' rest H1 H2|t l' rest H1 H2 H3]; rewrite H1 in NR |- *; try done.
  - rewrite H2 in Hh. set_solver.
  - rewrite H2 in Hh. set_solver.
  - rewrite H3 in Hh. apply list_elem_of_singleton in Hh as [= -> ->]. done.
Qed.

Lemma write_granted pw ts t l rest :
  t ∈ ts -> todo t = Acquire l Write :: rest -> (forall u m, u ∈ ts -> ~ (l, m) ∈ held u) -> exists ts', step pw ts ts'.
Proof.
  intros Ht Hr Hg. apply (moves pw ts t Ht). unfold thread_step. rewrite Hr. unfold granted. rewrite existsb_false_elem; [cbn; eauto|].
  intros u Hu. unfold holds. rewrite !bool_decide_eq_false_2; [done|by apply Hg..].
Qed.

Lemma read_granted pw ts t l rest :
  t ∈ ts -> todo t = Acquire l Read :: rest -> (forall u m, u ∈ ts -> ~ (l, m) ∈ held u) -> (forall u, u ∈ ts -> waits_to_write l u = false) ->
  exists ts', step pw ts ts'.
Proof.
  intros Ht Hr Hg Hw. apply (moves pw ts t Ht). unfold thread_step. rewrite Hr. unfold granted.
  rewrite !existsb_false_elem; [rewrite andb_false_r; cbn; eauto|done|]. intros u Hu. unfold holds. rewrite bool_decide_eq_false_2; [done|by apply Hg].
Qed.

(** Droppers first, then writers of an index, then readers under the statistics, then writers of the statistics. *)
Lemma placed_progress pw ts : Forall placed ts -> finished ts \/ exists ts', step pw ts ts'.
Proof.
  intros Hp. assert (Hn : forall t, t ∈ ts -> next t) by (intros t Ht; apply placed_next; by apply (proj1 (Forall_forall _ _) Hp)).
  destruct (existsb releasing ts) eqn:NR.
  { right. apply existsb_elem in NR as (t & Ht & Hr). apply (moves pw ts t Ht). unfold thread_step, releasing in *. by destruct (todo t) as [|[] rest]. }
  pose proof (guards_of_waiting ts Hn NR) as G.
  destruct (existsb writing_index ts) eqn:NW.
  { right. apply existsb_elem in NW as (t & Ht & Hw). unfold writing_index, waits_to_write in Hw. rewrite orb_true_iff, !bool_decide_eq_true in Hw.
    destruct (todo t) as [|a rest] eqn:E; cbn in Hw; [naive_solver|].
    destruct Hw as [[= ->]|[= ->]]; apply (write_granted pw ts t _ rest Ht E); intros u m Hu [? _]%(G u _ m Hu); done. }
  destruct (existsb reading ts) eqn:NRd.
  { right. apply existsb_elem in NRd as (t & Ht & Hr). unfold reading in Hr.
    destruct (Hn t Ht) as [t H1 H2|t l rest H1|t l rest H1 H2|t l rest H1 H2 H3]; rewrite H1 in Hr; try done.
    apply (read_granted pw ts t l rest Ht H1); [by intros u m Hu [? _]%(G u _ m Hu)|]. intros u Hu.
    apply (elem_existsb _ _ u NW) in Hu. unfold writing_index in Hu. apply orb_false_iff in Hu as [? ?]. by destruct l. }
  destruct (decide (finished ts)) as [F|NF]; [by left|]. right. unfold finished in NF.
  apply not_Forall_Exists in NF; [|intros t; destruct (todo t); [by left|by right]]. apply Exists_exists in NF as (t & Ht & Hne).
  destruct (Hn t Ht) as [t H1 H2|t l rest H1|t l rest H1 H2|t l rest H1 H2 H3].
  - done.
  - apply (elem_existsb _ _ t NR) in Ht. unfold releasing in Ht. by rewrite H1 in Ht.
  - apply (write_granted pw ts t l rest Ht H1). intros u m Hu [_ Hr]%(G u _ m Hu). by rewrite (elem_existsb _ _ u NRd Hu) in Hr.
  - apply (elem_existsb _ _ t NRd) in Ht. unfold reading in Ht. by rewrite H1 in Ht.
Qed.

(** *** Every run ends *)

Definition work (ts : list thread) : nat := sum_list_with (fun t => length (todo t)) ts.

Lemma step_works pw ts ts' : step pw ts ts' -> (work ts' < work ts)%nat.
Proof.
  intros [i t t' Hi Ht]. unfold work. apply list_elem_of_split_length in Hi as (l1 & l2 & -> & ->). rewrite insert_app_r_alt, Nat.sub_diag by lia. cbn.
  rewrite !sum_list_with_app. cbn. unfold thread_step in Ht. destruct (todo t) as [|[l m|l] rest]; [done|..]; cbn.
  - destruct (granted pw _ l m); [|done]. injection Ht as <-. cbn. lia.
  - injection Ht as <-. cbn. lia.
Qed.

Lemma placed_completes pw : forall n ts, (work ts <= n)%nat -> Forall placed ts -> exists ts', steps pw ts ts' /\ finished ts'.
Proof.
  induction n as [|n IH]; intros ts Hn Hp; destruct (placed_progress pw ts Hp) as [F|[ts1 S]]; try (by exists ts; split; [apply rtc_refl|]).
  - apply step_works in S. lia.
  - destruct (IH ts1) as (ts' & Hs & F); [apply step_works in S; lia|by apply (steps_placed pw ts); [apply rtc_once|]|].
    exists ts'. split; [by eapply rtc_l|done].
Qed.

(** C39. Any number of threads that index and remove attributes, each any number of times, never get stuck on the three locks,
    whether waiting writers keep readers out or not: in every state they can reach, as long as somebody has something left to do
    somebody can take a step, and however they are scheduled all of them finish. *)
Theorem attribute_writers_complete (pw : bool) (calls : list (list call)) (ts : list thread)
  (Hc : Forall (Forall writes_attributes) calls) (Hr : steps pw (map start calls) ts) :
  ~ stuck pw ts /\ (exists ts', steps pw ts ts' /\ finished ts') /\ forall ts', step pw ts ts' -> (work ts' < work ts)%nat.
Proof.
  assert (Hp : Forall placed ts).
  { apply (steps_placed pw (map start calls)); [done|]. apply Forall_fmap. eapply Forall_impl; [exact Hc|]. intros cs. apply start_placed. }
  split_and!.
  - intros [NF NS]. destruct (placed_progress pw ts Hp) as [F|[ts' S]]; [done|by apply (NS ts')].
  - by apply (placed_completes pw (work ts)).
  - intros ts'. apply step_works.
Qed.

Definition one_step (pw : bool) (i : nat) (ts : list thread) : list thread :=
  match ts !! i with Some t => match thread_step pw ts t with Some t' => <[i := t']> ts | None => ts end | None => ts end.

Lemma one_step_steps pw i ts : steps pw ts (one_step pw i ts).
Proof.
  unfold one_step. destruct (ts !! i) as [t|] eqn:E; [|apply rtc_refl]. destruct (thread_step pw ts t) as [t'|] eqn:S; [|apply rtc_refl].
  apply rtc_once. by eapply step_thread.
Qed.

Definition schedule (pw : bool) (order : list nat) (ts : list thread) : list thread := fold_left (fun ts i => one_step pw i ts) order ts.

Lemma schedule_steps pw order : forall ts, steps pw ts (schedule pw order ts).
Proof. induction order as [|i order IH]; intros ts; cbn; [apply rtc_refl|]. etrans; [apply one_step_steps|apply IH]. Qed.

Lemma attribute_writers_complete_witness :
  let calls := [[IndexAttribute; RemoveAttribute]; [IndexAttribute]] in
  steps true (map start calls) (schedule true [0; 1; 0; 1; 1; 0; 0]%nat (map start calls)) /\
  ~ stuck true (schedule true [0; 1; 0; 1; 1; 0; 0]%nat (map start calls)).
Proof.
  split; [apply schedule_steps|].
  refine (proj1 (attribute_writers_complete true [[IndexAttribute; RemoveAttribute]; [IndexAttribute]] _ _ (schedule_steps _ _ _))).
  repeat constructor.
Defined.

(** *** Deadlocks *)

Definition all_blocked (pw : bool) (ts : list thread) : bool := forallb (fun t => match thread_step pw ts t with None => true | Some _ => false end) ts.

Lemma all_blocked_stuck pw ts : all_blocked pw ts = true -> existsb (fun t => match todo t with [] => false | _ => true end) ts = true -> stuck pw ts.
Proof.
  intros Hb Hw. split.
  - intros F. apply existsb_elem in Hw as (t & Ht & Hn). by rewrite (proj1 (Forall_forall _ _) F t Ht) in Hn.
  - intros ts' [i t t' Hi Hs]. apply list_elem_of_lookup_2 in Hi. unfold all_blocked in Hb. rewrite forallb_forall in Hb.
    specialize (Hb t (proj1 (list_elem_of_In _ _) Hi)). by rewrite Hs in Hb.
Qed.

(** One thread indexes an attribute, another removes a workflow: the first has the statistics and wants the index, the second has
    the index and wants the statistics. *)
Lemma remove_workflow_deadlocks pw : exists ts, steps pw (map start [[IndexAttribute]; [RemoveWorkflow true]]) ts /\ stuck pw ts.
Proof.
  eexists. split; [apply (schedule_steps pw [0; 0; 0; 0; 0; 1; 1; 1]%nat)|]. apply all_blocked_stuck; by destruct pw.
Qed.

(** Where waiting writers keep readers out, queries and threads that index attributes are enough: the first thread has the index
    for a query and wants the statistics, the second has the statistics and waits behind the third, which waits to write the index. *)
Lemma queries_deadlock : exists ts, steps true (map start [[RunQuery]; [IndexAttribute]; [RunQuery; IndexAttribute]]) ts /\ stuck true ts.
Proof.
  eexists. split; [apply (schedule_steps true [1; 1; 1; 1; 2; 2; 2; 1; 0; 2]%nat)|]. by apply all_blocked_stuck.
Qed.

End IndexLocks.
