(* ===== verification/VirtualObjects.v ===== *)
(** * Virtual objects

    [virtual_objects.rs]: keyed objects with state of their own, invocations that are queued per key and run one at a time,
    journals, and awakeables, which external systems resolve.  Module [VObjects]: the runtime and its operations.  Module [Lines]:
    one invocation at a time, in order of arrival.  Module [Awake]: awakeables are resolved once. *)

From S2P Require Import Prelude Text.

Module VObjects.

Record ObjectKey : Type := mkObjectKey {
  object_type : chars;
  key : chars;
}.

(** [format!("{}/{}", object_type, key)] *)
Definition slash (a b : chars) : chars := a ++ "/"%char :: b.
Definition full_key (k : ObjectKey) : chars := slash (object_type k) (key k).

Inductive HandlerState : Type := Queued | Running | Suspended | Completed | Failed.

#[export] Instance handler_state_eq_dec : EqDecision HandlerState.
Proof. solve_decision. Defined.

Inductive JournalEntryType : Type :=
| DurableStep
| StateGet (state_key : chars)
| StateSet (state_key : chars)
| StateClear (state_key : chars)
| ObjectCall (target : ObjectKey) (method : chars)
| Sleep (duration_ms : Z)
| AwakeableEntry (awakeable_id : chars)
| ResolveAwakeable (awakeable_id : chars).

Record JournalEntry : Type := mkEntry {
  sequence : Z;
  entry_type : JournalEntryType;
  e_input : bytes;
  e_output : bytes;
  e_completed : bool;
}.

Inductive HandlerKind : Type := Workflow | Service | Shared.

Record HandlerDefinition : Type := mkHandler {
  name : chars;
  handler_kind : HandlerKind;
  input_schema : option chars;
  output_schema : option chars;
}.

Record HandlerInvocation : Type := mkInvocation {
  invocation_id : Z;
  target : ObjectKey;
  handler_name : chars;
  state : HandlerState;
  input : bytes;
  output : option bytes;
  error : option chars;
  journal : list JournalEntry;
  next_sequence : Z;
  idempotency_key : option chars;
  created_ms : Z;
  completed_ms : Z;
}.

Record ObjectState : Type := mkObject {
  entries : gmap chars bytes;
  version : Z;
}.

Record VirtualObjectStats : Type := mkStats {
  total_invocations : Z;
  active_invocations : Z;
  completed_invocations : Z;
  failed_invocations : Z;
  suspended_invocations : Z;
  total_object_keys : Z;
  total_state_entries : Z;
  total_journal_entries : Z;
  queue_depth : Z;
}.

Record Awakeable : Type := mkAwakeable {
  awk_id : chars;
  owner_invocation_id : Z;
  owner_key : ObjectKey;
  resolved : bool;
  value : option bytes;
  awk_error : option chars;
}.

Inductive VirtualObjectError : Type :=
| UnknownObjectType (t : chars)
| UnknownHandler (h : chars)
| UnknownInvocation (id : Z)
| UnknownKey (k : chars)
| UnknownJournalEntry (s : Z)
| UnknownAwakeable (id : chars)
| AlreadyResolved (id : chars)
| InvalidStateTransition (from : HandlerState).

Record VirtualObjectRuntime : Type := mkRuntime {
  object_types : gmap chars (list HandlerDefinition);
  key_state : gmap chars ObjectState;
  invocations : gmap Z HandlerInvocation;
  key_queues : gmap chars (list Z);
  key_locks : gmap chars Z;
  awakeables : gmap chars Awakeable;
  idempotency_map : gmap chars Z;
  next_invocation_id : Z;
  stats : VirtualObjectStats;
}.

Definition runtime_new : VirtualObjectRuntime := mkRuntime ∅ ∅ ∅ ∅ ∅ ∅ ∅ 1 (mkStats 0 0 0 0 0 0 0 0 0).

(** *** Parts of the runtime replaced *)

Definition with_invocations (x : VirtualObjectRuntime) (m : gmap Z HandlerInvocation) (st : VirtualObjectStats) : VirtualObjectRuntime :=
  mkRuntime (object_types x) (key_state x) m (key_queues x) (key_locks x) (awakeables x) (idempotency_map x) (next_invocation_id x) st.
Definition with_locks (x : VirtualObjectRuntime) (m : gmap chars Z) : VirtualObjectRuntime :=
  mkRuntime (object_types x) (key_state x) (invocations x) (key_queues x) m (awakeables x) (idempotency_map x) (next_invocation_id x) (stats x).
Definition with_key_state (x : VirtualObjectRuntime) (m : gmap chars ObjectState) (st : VirtualObjectStats) : VirtualObjectRuntime :=
  mkRuntime (object_types x) m (invocations x) (key_queues x) (key_locks x) (awakeables x) (idempotency_map x) (next_invocation_id x) st.
Definition with_awakeables (x : VirtualObjectRuntime) (m : gmap chars Awakeable) : VirtualObjectRuntime :=
  mkRuntime (object_types x) (key_state x) (invocations x) (key_queues x) (key_locks x) m (idempotency_map x) (next_invocation_id x) (stats x).

Definition set_state (st : HandlerState) (i : HandlerInvocation) : HandlerInvocation :=
  mkInvocation (invocation_id i) (target i) (handler_name i) st (input i) (output i) (error i) (journal i) (next_sequence i)
    (idempotency_key i) (created_ms i) (completed_ms i).
Definition set_journal (i : HandlerInvocation) (j : list JournalEntry) (n : Z) : HandlerInvocation :=
  mkInvocation (invocation_id i) (target i) (handler_name i) (state i) (input i) (output i) (error i) j n
    (idempotency_key i) (created_ms i) (completed_ms i).

Definition set_active (st : VirtualObjectStats) (total active completed failed keys : Z) : VirtualObjectStats :=
  mkStats total active completed failed (suspended_invocations st) keys (total_state_entries st) (total_journal_entries st) (queue_depth st).
Definition set_suspended (st : VirtualObjectStats) (n : Z) : VirtualObjectStats :=
  mkStats (total_invocations st) (active_invocations st) (completed_invocations st) (failed_invocations st) n (total_object_keys st)
    (total_state_entries st) (total_journal_entries st) (queue_depth st).
Definition set_entries (st : VirtualObjectStats) (states journals : Z) : VirtualObjectStats :=
  mkStats (total_invocations st) (active_invocations st) (completed_invocations st) (failed_invocations st) (suspended_invocations st)
    (total_object_keys st) states journals (queue_depth st).

(** *** Types and invocations *)

Definition register_object_type (x : VirtualObjectRuntime) (type_name : chars) (handlers : list HandlerDefinition) : VirtualObjectRuntime :=
  mkRuntime (<[type_name := handlers]> (object_types x)) (key_state x) (invocations x) (key_queues x) (key_locks x) (awakeables x)
    (idempotency_map x) (next_invocation_id x) (stats x).

Definition try_dispatch (x : VirtualObjectRuntime) (fk : chars) : VirtualObjectRuntime :=
  match key_locks x !! fk with
  | Some _ => x
  | None =>
      match key_queues x !! fk with
      | Some (id :: queue) =>
          mkRuntime (object_types x) (key_state x) (alter (set_state Running) id (invocations x)) (<[fk := queue]> (key_queues x))
            (<[fk := id]> (key_locks x)) (awakeables x) (idempotency_map x) (next_invocation_id x) (stats x)
      | _ => x
      end
  end.

Definition queue_invocation (x : VirtualObjectRuntime) (k : ObjectKey) (handler : chars) (input : bytes) (idk : option chars) : VirtualObjectRuntime :=
  let id := next_invocation_id x in
  let fk := full_key k in
  let st := stats x in
  mkRuntime (object_types x)
    (match key_state x !! fk with Some _ => key_state x | None => <[fk := mkObject ∅ 0]> (key_state x) end)
    (<[id := mkInvocation id k handler Queued input None None [] 0 idk 0 0]> (invocations x))
    (<[fk := default [] (key_queues x !! fk) ++ [id]]> (key_queues x)) (key_locks x) (awakeables x)
    (match idk with Some idk => <[idk := id]> (idempotency_map x) | None => idempotency_map x end)
    (wrap 64 (id + 1))
    (set_active st (wrap 64 (total_invocations st + 1)) (wrap 64 (active_invocations st + 1)) (completed_invocations st) (failed_invocations st)
       (Z.of_nat (size (key_state x)))).

Definition invoke (x : VirtualObjectRuntime) (ty k handler : chars) (input : bytes) (idk : option chars) :
    VirtualObjectRuntime * result Z VirtualObjectError :=
  match idk ≫= fun idk => idempotency_map x !! idk with
  | Some existing => (x, Ok existing)
  | None =>
      match object_types x !! ty with
      | None => (x, Err (UnknownObjectType ty))
      | Some handlers =>
          if existsb (fun h => bool_decide (name h = handler)) handlers then
            let ok := mkObjectKey ty k in
            (try_dispatch (queue_invocation x ok handler input idk) (full_key ok), Ok (next_invocation_id x))
          else (x, Err (UnknownHandler (slash ty handler)))
      end
  end.

(** *** The journal *)

Definition append_journal (x : VirtualObjectRuntime) (id : Z) (ty : JournalEntryType) (input : bytes) : VirtualObjectRuntime * result Z VirtualObjectError :=
  match invocations x !! id with
  | None => (x, Err (UnknownInvocation id))
  | Some inv =>
      let inv' := set_journal inv (journal inv ++ [mkEntry (next_sequence inv) ty input [] false]) (wrap 32 (next_sequence inv + 1)) in
      (with_invocations x (<[id := inv']> (invocations x))
         (set_entries (stats x) (total_state_entries (stats x)) (wrap 64 (total_journal_entries (stats x) + 1))), Ok (next_sequence inv))
  end.

Definition complete_journal (x : VirtualObjectRuntime) (id seq : Z) (out : bytes) : VirtualObjectRuntime * result unit VirtualObjectError :=
  match invocations x !! id with
  | None => (x, Err (UnknownInvocation id))
  | Some inv =>
      match position (fun e => sequence e =? seq) (journal inv) with
      | None => (x, Err (UnknownJournalEntry seq))
      | Some pos =>
          let j := alter (fun e => mkEntry (sequence e) (entry_type e) (e_input e) out true) pos (journal inv) in
          (with_invocations x (<[id := set_journal inv j (next_sequence inv)]> (invocations x)) (stats x), Ok tt)
      end
  end.

(** *** State of an object *)

Definition state_get (x : VirtualObjectRuntime) (ty k state_key : chars) : option bytes :=
  key_state x !! slash ty k ≫= fun o => entries o !! state_key.

Definition state_set (x : VirtualObjectRuntime) (ty k state_key : chars) (v : bytes) : VirtualObjectRuntime * result unit VirtualObjectError :=
  match key_state x !! slash ty k with
  | None => (x, Err (UnknownKey (slash ty k)))
  | Some o =>
      let es := <[state_key := v]> (entries o) in
      (with_key_state x (<[slash ty k := mkObject es (wrap 64 (version o + 1))]> (key_state x))
         (set_entries (stats x) (Z.of_nat (size es)) (total_journal_entries (stats x))), Ok tt)
  end.

Definition state_clear (x : VirtualObjectRuntime) (ty k state_key : chars) : VirtualObjectRuntime * result unit VirtualObjectError :=
  match key_state x !! slash ty k with
  | None => (x, Err (UnknownKey (slash ty k)))
  | Some o =>
      (with_key_state x (<[slash ty k := mkObject (delete state_key (entries o)) (wrap 64 (version o + 1))]> (key_state x)) (stats x), Ok tt)
  end.

(** *** The end of an invocation *)

Definition complete_invocation (x : VirtualObjectRuntime) (id : Z) (out : bytes) : VirtualObjectRuntime * result unit VirtualObjectError :=
  match invocations x !! id with
  | None => (x, Err (UnknownInvocation id))
  | Some inv =>
      let fk := full_key (target inv) in
      let st := stats x in
      let inv' := mkInvocation (invocation_id inv) (target inv) (handler_name inv) Completed (input inv) (Some out) (error inv) (journal inv)
                    (next_sequence inv) (idempotency_key inv) (created_ms inv) 0 in
      let x := with_invocations x (<[id := inv']> (invocations x))
                 (set_active st (total_invocations st) (Z.max 0 (active_invocations st - 1)) (wrap 64 (completed_invocations st + 1))
                    (failed_invocations st) (total_object_keys st)) in
      (try_dispatch (with_locks x (delete fk (key_locks x))) fk, Ok tt)
  end.

Definition fail_invocation (x : VirtualObjectRuntime) (id : Z) (err : chars) : VirtualObjectRuntime * result unit VirtualObjectError :=
  match invocations x !! id with
  | None => (x, Err (UnknownInvocation id))
  | Some inv =>
      let fk := full_key (target inv) in
      let st := stats x in
      let inv' := mkInvocation (invocation_id inv) (target inv) (handler_name inv) Failed (input inv) (output inv) (Some err) (journal inv)
                    (next_sequence inv) (idempotency_key inv) (created_ms inv) 0 in
      let x := with_invocations x (<[id := inv']> (invocations x))
                 (set_active st (total_invocations st) (Z.max 0 (active_invocations st - 1)) (completed_invocations st)
                    (wrap 64 (failed_invocations st + 1)) (total_object_keys st)) in
      (try_dispatch (with_locks x (delete fk (key_locks x))) fk, Ok tt)
  end.

Definition suspend_invocation (x : VirtualObjectRuntime) (id : Z) : VirtualObjectRuntime * result unit VirtualObjectError :=
  match invocations x !! id with
  | None => (x, Err (UnknownInvocation id))
  | Some inv =>
      (with_invocations x (<[id := set_state Suspended inv]> (invocations x)) (set_suspended (stats x) (wrap 64 (suspended_invocations (stats x) + 1))), Ok tt)
  end.

Definition resume_invocation (x : VirtualObjectRuntime) (id : Z) : VirtualObjectRuntime * result unit VirtualObjectError :=
  match invocations x !! id with
  | None => (x, Err (UnknownInvocation id))
  | Some inv =>
      if bool_decide (state inv <> Suspended) then (x, Err (InvalidStateTransition (state inv)))
      else (with_invocations x (<[id := set_state Running inv]> (invocations x)) (set_suspended (stats x) (Z.max 0 (suspended_invocations (stats x) - 1))), Ok tt)
  end.

(** *** Awakeables *)

(** [format!("awk_{}_{}", invocation_id, self.awakeables.len())] *)
Definition awakeable_name (id n : Z) : chars := of_string "awk_" ++ print_int id ++ "_"%char :: print_int n.

Definition create_awakeable (x : VirtualObjectRuntime) (id : Z) : VirtualObjectRuntime * result chars VirtualObjectError :=
  match invocations x !! id with
  | None => (x, Err (UnknownInvocation id))
  | Some inv =>
      let name := awakeable_name id (Z.of_nat (size (awakeables x))) in
      (with_awakeables x (<[name := mkAwakeable name id (target inv) false None None]> (awakeables x)), Ok name)
  end.

(** The owner is resumed if it is suspended. *)
Definition resume_owner (x : VirtualObjectRuntime) (owner : Z) : VirtualObjectRuntime :=
  match invocations x !! owner with
  | Some inv =>
      if bool_decide (state inv = Suspended) then
        with_invocations x (<[owner := set_state Running inv]> (invocations x)) (set_suspended (stats x) (Z.max 0 (suspended_invocations (stats x) - 1)))
      else x
  | None => x
  end.

Definition resolve_awakeable (x : VirtualObjectRuntime) (aid : chars) (v : bytes) : VirtualObjectRuntime * result Z VirtualObjectError :=
  match awakeables x !! aid with
  | None => (x, Err (UnknownAwakeable aid))
  | Some a =>
      if resolved a then (x, Err (AlreadyResolved aid))
      else
        let a' := mkAwakeable (awk_id a) (owner_invocation_id a) (owner_key a) true (Some v) (awk_error a) in
        (resume_owner (with_awakeables x (<[aid := a']> (awakeables x))) (owner_invocation_id a), Ok (owner_invocation_id a))
  end.

Definition reject_awakeable (x : VirtualObjectRuntime) (aid : chars) (err : chars) : VirtualObjectRuntime * result Z VirtualObjectError :=
  match awakeables x !! aid with
  | None => (x, Err (UnknownAwakeable aid))
  | Some a =>
      if resolved a then (x, Err (AlreadyResolved aid))
      else
        let a' := mkAwakeable (awk_id a) (owner_invocation_id a) (owner_key a) true (value a) (Some err) in
        (resume_owner (with_awakeables x (<[aid := a']> (awakeables x))) (owner_invocation_id a), Ok (owner_invocation_id a))
  end.

Definition is_key_busy (x : VirtualObjectRuntime) (ty k : chars) : bool := bool_decide (is_Some (key_locks x !! slash ty k)).
Definition key_queue_depth (x : VirtualObjectRuntime) (ty k : chars) : nat := length (default [] (key_queues x !! slash ty k)).

(** *** Runs *)

Inductive vop : Type :=
| Register (ty : chars) (handlers : list HandlerDefinition)
| Invoke (ty k handler : chars) (input : bytes) (idk : option chars)
| Append (id : Z) (ty : JournalEntryType) (input : bytes)
| CompleteEntry (id seq : Z) (out : bytes)
| SetState (ty k state_key : chars) (v : bytes)
| ClearState (ty k state_key : chars)
| Complete (id : Z) (out : bytes)
| FailOp (id : Z) (err : chars)
| Suspend (id : Z)
| Resume (id : Z)
| CreateAwakeable (id : Z)
| Resolve (aid : chars) (v : bytes)
| Reject (aid : chars) (err : chars).

Definition vstep (x : VirtualObjectRuntime) (op : vop) : VirtualObjectRuntime :=
  match op with
  | Register ty hs => register_object_type x ty hs
  | Invoke ty k h i idk => (invoke x ty k h i idk).1
  | Append id ty i => (append_journal x id ty i).1
  | CompleteEntry id s o => (complete_journal x id s o).1
  | SetState ty k sk v => (state_set x ty k sk v).1
  | ClearState ty k sk => (state_clear x ty k sk).1
  | Complete id o => (complete_invocation x id o).1
  | FailOp id e => (fail_invocation x id e).1
  | Suspend id => (suspend_invocation x id).1
  | Resume id => (resume_invocation x id).1
  | CreateAwakeable id => (create_awakeable x id).1
  | Resolve a v => (resolve_awakeable x a v).1
  | Reject a e => (reject_awakeable x a e).1
  end.

Definition vrun (ops : list vop) (x : VirtualObjectRuntime) : VirtualObjectRuntime := fold_left vstep ops x.

End VObjects.

(** ** One at a time, in order of arrival *)

Module Lines.
Import VObjects.

Definition active (st : HandlerState) : bool := match st with Running | Suspended => true | _ => false end.
Definition finished (st : HandlerState) : bool := match st with Completed | Failed => true | _ => false end.

(** The invocation that has the key, then those that wait for it. *)
Definition line_of (locks : gmap chars Z) (queues : gmap chars (list Z)) (fk : chars) : list Z :=
  match locks !! fk with Some id => [id] | None => [] end ++ default [] (queues !! fk).
Definition line (x : VirtualObjectRuntime) (fk : chars) : list Z := line_of (key_locks x) (key_queues x) fk.

Definition open_on (invs : gmap Z HandlerInvocation) (fk : chars) (id : Z) : bool :=
  match invs !! id with Some inv => bool_decide (full_key (target inv) = fk) && negb (finished (state inv)) | None => false end.

(** Callers finish only what runs, and suspend only what runs. *)
Definition state_is (x : VirtualObjectRuntime) (id : Z) (p : HandlerState -> bool) : Prop :=
  match invocations x !! id with Some inv => p (state inv) = true | None => True end.
Definition op_ok (x : VirtualObjectRuntime) (op : vop) : Prop :=
  match op with
  | Complete id _ | FailOp id _ => state_is x id active
  | Suspend id => state_is x id (fun st => bool_decide (st = Running))
  | _ => True
  end.
Fixpoint ops_ok (ops : list vop) (x : VirtualObjectRuntime) : Prop :=
  match ops with [] => True | op :: ops => op_ok x op /\ ops_ok ops (vstep x op) end.

(** The invariant, with one key [ex] that may be free although somebody waits. *)
Record linv (ex : option chars) (invs : gmap Z HandlerInvocation) (queues : gmap chars (list Z)) (locks : gmap chars Z) (next : Z) : Prop := mkLinv {
  li_next : 1 <= next;
  li_dom : forall id inv, invs !! id = Some inv -> 1 <= id < next;
  li_line : forall fk, line_of locks queues fk = List.filter (open_on invs fk) (seqZ 1 (next - 1));
  li_lock : forall fk id, locks !! fk = Some id -> exists inv, invs !! id = Some inv /\ active (state inv) = true;
  li_queue : forall fk id, id ∈ default [] (queues !! fk) -> exists inv, invs !! id = Some inv /\ state inv = Queued;
  li_free : forall fk, ex <> Some fk -> locks !! fk = None -> default [] (queues !! fk) = [];
}.

Definition vinv (ex : option chars) (x : VirtualObjectRuntime) : Prop :=
  linv ex (invocations x) (key_queues x) (key_locks x) (next_invocation_id x).

Lemma lock_in_line locks queues fk id : locks !! fk = Some id -> id ∈ line_of locks queues fk.
Proof. intros H. unfold line_of. rewrite H. set_solver. Qed.
Lemma queue_in_line locks queues fk id : id ∈ default [] (queues !! fk) -> id ∈ line_of locks queues fk.
Proof. intros H. unfold line_of. set_solver. Qed.

Section Invariant.
Context {ex : option chars} {invs : gmap Z HandlerInvocation} {queues : gmap chars (list Z)} {locks : gmap chars Z} {next : Z}.
Hypothesis I : linv ex invs queues locks next.

Lemma in_line fk id : id ∈ line_of locks queues fk -> exists inv, invs !! id = Some inv /\ full_key (target inv) = fk /\ finished (state inv) = false.
Proof.
  rewrite (li_line _ _ _ _ _ I), list_elem_of_In, List.filter_In. intros [_ H]. unfold open_on in H.
  destruct (invs !! id) as [inv|]; [|done]. apply andb_true_iff in H as [H1 H2]. exists inv. rewrite bool_decide_eq_true in H1.
  by apply negb_true_iff in H2.
Qed.

Lemma line_nodup fk : NoDup (line_of locks queues fk).
Proof. rewrite (li_line _ _ _ _ _ I). apply (sublist_NoDup _ (seqZ 1 (next - 1))); [apply NoDup_seqZ|apply filter_sublist]. Qed.

(** An active invocation has its key. *)
Lemma active_has_lock id inv : invs !! id = Some inv -> active (state inv) = true -> locks !! full_key (target inv) = Some id.
Proof.
  intros Hid Ha. assert (Hl : id ∈ line_of locks queues (full_key (target inv))).
  { rewrite (li_line _ _ _ _ _ I), list_elem_of_In, List.filter_In, <- list_elem_of_In, elem_of_seqZ. split.
    - pose proof (li_dom _ _ _ _ _ I id inv Hid). lia.
    - unfold open_on. rewrite Hid, bool_decide_eq_true_2 by done. by destruct (state inv). }
  unfold line_of in Hl. apply elem_of_app in Hl as [Hl|Hl].
  - destruct (locks !! full_key (target inv)); [|by apply elem_of_nil in Hl]. by apply list_elem_of_singleton in Hl as ->.
  - apply (li_queue _ _ _ _ _ I) in Hl as (inv' & E & Hq). rewrite Hid in E. injection E as <-. by rewrite Hq in Ha.
Qed.

(** A change of an invocation that keeps its key, its being open, and whether it waits or is active. *)
Lemma touch_linv id inv inv' :
  invs !! id = Some inv -> target inv' = target inv -> (state inv' = state inv \/ active (state inv) = true /\ active (state inv') = true) ->
  linv ex (<[id := inv']> invs) queues locks next.
Proof.
  intros Hid Ht Hs. assert (Hf : finished (state inv') = finished (state inv)).
  { destruct Hs as [->|[H1 H2]]; [done|]. by destruct (state inv), (state inv'). }
  destruct I. constructor; [done|..].
  - intros j i. destruct (decide (j = id)) as [->|Hne]; [intros _; eauto|rewrite lookup_insert_ne by done; eauto].
  - intros fk. rewrite li_line0. apply List.filter_ext. intros j. unfold open_on. destruct (decide (j = id)) as [->|Hne].
    + by rewrite lookup_insert_eq, Hid, Ht, Hf.
    + by rewrite lookup_insert_ne.
  - intros fk j Hj. destruct (li_lock0 fk j Hj) as (i & Hi & Ha). destruct (decide (j = id)) as [->|Hne].
    + exists inv'. rewrite lookup_insert_eq. split; [done|]. rewrite Hid in Hi. injection Hi as <-. destruct Hs as [->|[_ H2]]; done.
    + exists i. by rewrite lookup_insert_ne.
  - intros fk j Hj. destruct (li_queue0 fk j Hj) as (i & Hi & Ha). destruct (decide (j = id)) as [->|Hne].
    + exists inv'. rewrite lookup_insert_eq. split; [done|]. rewrite Hid in Hi. injection Hi as <-. destruct Hs as [->|[H1 _]]; [done|].
      by rewrite Ha in H1.
    + exists i. by rewrite lookup_insert_ne.
  - done.
Qed.
End Invariant.

(** Dispatching restores the invariant at its key. *)
Lemma dispatch_inv x fk : vinv (Some fk) x -> vinv None (try_dispatch x fk).
Proof.
  unfold vinv. intros I. unfold try_dispatch. destruct (key_locks x !! fk) as [l|] eqn:L.
  { destruct I. constructor; try done. intros k _ Hk. destruct (decide (k = fk)) as [->|]; [by rewrite L in Hk|]. apply li_free0; [naive_solver|done]. }
  destruct (key_queues x !! fk) as [[|id q]|] eqn:Q.
  1, 3: destruct I; constructor; try done; intros k _ Hk; destruct (decide (k = fk)) as [->|]; [by rewrite Q|apply li_free0; [naive_solver|done]].
  assert (Hline : line_of (key_locks x) (key_queues x) fk = id :: q) by (unfold line_of; by rewrite L, Q).
  pose proof (line_nodup I fk) as ND. rewrite Hline in ND. apply NoDup_cons in ND as [Hnq _].
  destruct (li_queue _ _ _ _ _ I fk id) as (inv & Hid & Hst); [rewrite Q; constructor|].
  destruct (in_line I fk id) as (inv0 & E & Hfk & _); [rewrite Hline; constructor|]. rewrite Hid in E. injection E as <-.
  assert (Hother : forall k j, k <> fk -> j ∈ default [] (key_queues x !! k) -> j <> id).
  { intros k j Hk Hj ->. destruct (in_line I k id (queue_in_line _ _ k id Hj)) as (i & Hi & Ht & _). rewrite Hid in Hi. injection Hi as <-. congruence. }
  assert (HT : alter (set_state Running) id (invocations x) = <[id := set_state Running inv]> (invocations x)).
  { apply map_eq. intros j. destruct (decide (j = id)) as [->|]; [by rewrite lookup_alter_eq, lookup_insert_eq, Hid|by rewrite lookup_alter_ne, lookup_insert_ne]. }
  cbn [invocations key_queues key_locks next_invocation_id]. rewrite HT. destruct I. constructor; [done|..].
  - intros j i. destruct (decide (j = id)) as [->|Hne]; [intros _; eauto|rewrite lookup_insert_ne by done; eauto].
  - intros k. assert (Ho : forall j, open_on (<[id := set_state Running inv]> (invocations x)) k j = open_on (invocations x) k j).
    { intros j. unfold open_on. destruct (decide (j = id)) as [->|]; [by rewrite lookup_insert_eq, Hid, Hst|by rewrite lookup_insert_ne]. }
    rewrite (List.filter_ext _ _ Ho), <- li_line0. unfold line_of. destruct (decide (k = fk)) as [->|Hk].
    + by rewrite !lookup_insert_eq, L, Q.
    + by rewrite !lookup_insert_ne.
  - intros k j. destruct (decide (k = fk)) as [->|Hk].
    + rewrite lookup_insert_eq. intros [= <-]. exists (set_state Running inv). by rewrite lookup_insert_eq.
    + rewrite lookup_insert_ne by done. intros Hj. destruct (decide (j = id)) as [->|Hne].
      * exists (set_state Running inv). by rewrite lookup_insert_eq.
      * rewrite lookup_insert_ne by done. eauto.
  - intros k j. destruct (decide (k = fk)) as [->|Hk].
    + rewrite lookup_insert_eq. cbn. intros Hj. rewrite lookup_insert_ne by (intros ->; done). apply (li_queue0 fk). rewrite Q. by constructor.
    + rewrite lookup_insert_ne by done. intros Hj. rewrite lookup_insert_ne; [by apply (li_queue0 k)|]. intros ->. by apply (Hother k j Hk Hj).
  - intros k _ Hl. destruct (decide (k = fk)) as [->|Hk]; [by rewrite lookup_insert_eq in Hl|].
    rewrite lookup_insert_ne in Hl by done. rewrite lookup_insert_ne by done. apply li_free0; [naive_solver|done].
Qed.

(** Queueing appends to the line. *)
Lemma queue_inv x k h i idk : vinv None x -> next_invocation_id x + 1 < 2 ^ 64 -> vinv (Some (full_key k)) (queue_invocation x k h i idk).
Proof.
  unfold vinv. intros I Hb. cbn. destruct I. set (id := next_invocation_id x) in *. rewrite wrap_id by (unfold fits; lia).
  assert (Hnew : invocations x !! id = None) by (apply eq_None_not_Some; intros [j Hj]; pose proof (li_dom0 _ _ Hj); lia).
  constructor; cbn; [lia|..].
  - intros j inv. destruct (decide (j = id)) as [->|Hne]; [lia|]. rewrite lookup_insert_ne by done. intros Hj. pose proof (li_dom0 _ _ Hj). lia.
  - intros fk. replace (id + 1 - 1) with (id - 1 + 1) by lia. rewrite seqZ_app, List.filter_app by lia. replace (1 + (id - 1)) with id by lia.
    assert (Hold : List.filter (open_on (<[id := mkInvocation id k h Queued i None None [] 0 idk 0 0]> (invocations x)) fk) (seqZ 1 (id - 1)) =
      List.filter (open_on (invocations x) fk) (seqZ 1 (id - 1))).
    { apply List.filter_ext_in. intros j Hj%list_elem_of_In%elem_of_seqZ. unfold open_on. by rewrite lookup_insert_ne by lia. }
    rewrite Hold, <- li_line0. replace (seqZ id 1) with [id] by (cbn; f_equal; lia). unfold line_of, open_on. cbn [List.filter].
    rewrite lookup_insert_eq. cbn [target state finished negb].
    destruct (decide (fk = full_key k)) as [->|Hne].
    + rewrite lookup_insert_eq, bool_decide_eq_true_2 by done. cbn. by rewrite app_assoc.
    + rewrite lookup_insert_ne, bool_decide_eq_false_2 by done. cbn. by rewrite app_nil_r.
  - intros fk j Hj. destruct (li_lock0 fk j Hj) as (inv & Hi & Ha). exists inv. rewrite lookup_insert_ne; [done|]. intros ->. congruence.
  - intros fk j Hj. destruct (decide (j = id)) as [->|Hne].
    + eexists. rewrite lookup_insert_eq. done.
    + rewrite lookup_insert_ne by done. apply (li_queue0 fk). destruct (decide (fk = full_key k)) as [->|Hk].
      * rewrite lookup_insert_eq in Hj. cbn in Hj. set_solver.
      * by rewrite lookup_insert_ne in Hj.
  - intros fk Hk. rewrite lookup_insert_ne by congruence. apply li_free0. done.
Qed.

(** Finishing an active invocation takes it out of its line. *)
Lemma finish_inv x id inv inv' st :
  vinv None x -> invocations x !! id = Some inv -> active (state inv) = true -> target inv' = target inv -> finished (state inv') = true ->
  vinv (Some (full_key (target inv)))
    (with_locks (with_invocations x (<[id := inv']> (invocations x)) st) (delete (full_key (target inv)) (key_locks x))).
Proof.
  unfold vinv. intros I Hid Ha Ht Hf. pose proof (active_has_lock I id inv Hid Ha) as L. set (fk := full_key (target inv)) in *.
  assert (Hline : line_of (key_locks x) (key_queues x) fk = id :: default [] (key_queues x !! fk)) by (unfold line_of; by rewrite L).
  pose proof (line_nodup I fk) as ND. rewrite Hline in ND. apply NoDup_cons in ND as [Hnq NDq].
  assert (Hin : forall k, id ∈ line_of (key_locks x) (key_queues x) k -> k = fk).
  { intros k Hk. destruct (in_line I k id Hk) as (i & Hi & <- & _). rewrite Hid in Hi. by injection Hi as <-. }
  assert (Hq : forall k j, j ∈ default [] (key_queues x !! k) -> j <> id).
  { intros k j Hj ->. destruct (li_queue _ _ _ _ _ I k id Hj) as (i & Hi & Hs). rewrite Hid in Hi. injection Hi as <-. by rewrite Hs in Ha. }
  destruct I. constructor; cbn; [done|..].
  - intros j i. destruct (decide (j = id)) as [->|Hne]; [intros _; eauto|rewrite lookup_insert_ne by done; eauto].
  - intros k. assert (Ho : forall j, open_on (<[id := inv']> (invocations x)) k j = open_on (invocations x) k j && negb (j =? id)).
    { intros j. unfold open_on. destruct (decide (j = id)) as [->|Hne].
      - by rewrite lookup_insert_eq, Hf, Z.eqb_refl, !andb_false_r.
      - rewrite lookup_insert_ne, (proj2 (Z.eqb_neq _ _)) by done. cbn. by rewrite andb_true_r. }
    rewrite (List.filter_ext _ _ Ho), <- filter_filter, <- li_line0.
    assert (Hkeep : forall l, (forall j, j ∈ l -> j <> id) -> List.filter (fun j => negb (j =? id)) l = l).
    { intros l Hl. apply List.forallb_filter_id, forallb_forall. intros j Hj%list_elem_of_In. apply negb_true_iff, Z.eqb_neq. by apply Hl. }
    destruct (decide (k = fk)) as [->|Hk].
    + rewrite Hline. cbn. rewrite Z.eqb_refl. cbn. rewrite Hkeep by apply Hq. unfold line_of. by rewrite lookup_delete_eq.
    + rewrite Hkeep; [unfold line_of; by rewrite lookup_delete_ne|]. intros j Hj ->. by apply Hin in Hj.
  - intros k j. destruct (decide (k = fk)) as [->|Hk]; [by rewrite lookup_delete_eq|]. rewrite lookup_delete_ne by done. intros Hj.
    destruct (li_lock0 k j Hj) as (i & Hi & Hai). exists i. rewrite lookup_insert_ne; [done|]. intros ->. apply Hk, Hin. by apply lock_in_line.
  - intros k j Hj. rewrite lookup_insert_ne; [by apply (li_queue0 k)|]. intros ->. by apply (Hq k j).
  - intros k Hk. rewrite lookup_delete_ne by congruence. apply li_free0. done.
Qed.

Lemma touch_inv x id inv inv' st :
  vinv None x -> invocations x !! id = Some inv -> target inv' = target inv ->
  (state inv' = state inv \/ active (state inv) = true /\ active (state inv') = true) ->
  vinv None (with_invocations x (<[id := inv']> (invocations x)) st).
Proof. intros I Hid Ht Hs. apply (touch_linv I id inv inv' Hid Ht Hs). Qed.

Lemma resume_owner_inv x id : vinv None x -> vinv None (resume_owner x id).
Proof.
  intros I. unfold resume_owner. destruct (invocations x !! id) as [inv|] eqn:E; [|done]. case_bool_decide as Hs; [|done].
  apply (touch_inv x id inv); [done..|]. right. by rewrite Hs.
Qed.

Lemma vstep_inv x op : vinv None x -> op_ok x op -> next_invocation_id x + 1 < 2 ^ 64 -> vinv None (vstep x op).
Proof.
  intros I Ho Hb. destruct op; cbn [vstep op_ok] in *; unfold state_is in *.
  - done.
  - unfold invoke. destruct (idk ≫= _); [done|]. destruct (object_types x !! ty); [|done]. destruct (existsb _ _); [|done].
    by apply dispatch_inv, queue_inv.
  - unfold append_journal. destruct (invocations x !! id) as [inv|] eqn:E; [|done]. apply (touch_inv x id inv); [done..|by left].
  - unfold complete_journal. destruct (invocations x !! id) as [inv|] eqn:E; [|done]. destruct (position _ _); [|done].
    apply (touch_inv x id inv); [done..|by left].
  - unfold state_set. by destruct (key_state x !! _).
  - unfold state_clear. by destruct (key_state x !! _).
  - unfold complete_invocation. destruct (invocations x !! id) as [inv|] eqn:E; [|done]. apply dispatch_inv. by apply (finish_inv x id inv _ _ I E Ho).
  - unfold fail_invocation. destruct (invocations x !! id) as [inv|] eqn:E; [|done]. apply dispatch_inv. by apply (finish_inv x id inv _ _ I E Ho).
  - unfold suspend_invocation. destruct (invocations x !! id) as [inv|] eqn:E; [|done]. apply (touch_inv x id inv); [done..|].
    apply bool_decide_eq_true in Ho. rewrite Ho. by right.
  - unfold resume_invocation. destruct (invocations x !! id) as [inv|] eqn:E; [|done]. case_bool_decide as Hs; [done|].
    apply (touch_inv x id inv); [done..|]. right. by destruct (state inv); try (destruct Hs; done).
  - unfold create_awakeable. by destruct (invocations x !! id).
  - unfold resolve_awakeable. destruct (awakeables x !! aid) as [a|]; [|done]. destruct (resolved a); [done|]. by apply resume_owner_inv.
  - unfold reject_awakeable. destruct (awakeables x !! aid) as [a|]; [|done]. destruct (resolved a); [done|]. by apply resume_owner_inv.
Qed.

Lemma dispatch_next x fk : next_invocation_id (try_dispatch x fk) = next_invocation_id x.
Proof. unfold try_dispatch. destruct (key_locks x !! fk); [done|]. by destruct (key_queues x !! fk) as [[]|]. Qed.

Lemma vstep_next x op : 1 <= next_invocation_id x -> next_invocation_id x + 1 < 2 ^ 64 -> next_invocation_id (vstep x op) <= next_invocation_id x + 1.
Proof.
  intros H1 Hb. destruct op; cbn [vstep]; unfold invoke, append_journal, complete_journal, state_set, state_clear, complete_invocation, fail_invocation,
    suspend_invocation, resume_invocation, create_awakeable, resolve_awakeable, reject_awakeable, resume_owner;
    repeat (case_match || cbn; rewrite ?dispatch_next; cbn); try lia.
  unfold queue_invocation. cbn. rewrite wrap_id by (unfold fits; lia). lia.
Qed.

Lemma vrun_inv ops : forall x, vinv None x -> ops_ok ops x -> next_invocation_id x + Z.of_nat (length ops) < 2 ^ 64 -> vinv None (vrun ops x).
Proof.
  induction ops as [|op ops IH]; intros x I Ho Hb; cbn [vrun fold_left length ops_ok] in *; [done|]. destruct Ho as [Ho1 Ho2].
  apply IH; [by apply vstep_inv; [..|lia]|done|]. pose proof (vstep_next x op (li_next _ _ _ _ _ I) ltac:(lia)). lia.
Qed.

Lemma runtime_new_inv : vinv None runtime_new.
Proof.
  constructor; unfold line_of; cbn [runtime_new invocations key_queues key_locks next_invocation_id]; [done|..]; intros fk; rewrite ?lookup_empty;
    (done || by intros ? ?%elem_of_nil).
Qed.

(** C13. As long as callers finish and suspend only invocations that run, the invocations of a key are served one at a time
    and in order of arrival: after every run the key's line is the list of its invocations that are not finished, oldest first; the
    key belongs to the first of the line, so it is free only if nobody waits; and an invocation is running or suspended exactly if
    it has the key of its object. *)
Theorem single_writer (ops : list vop) (x : VirtualObjectRuntime)
  (Hx : x = vrun ops runtime_new) (Ho : ops_ok ops runtime_new) (Hb : Z.of_nat (length ops) + 1 < 2 ^ 64) :
  (forall fk, line x fk = List.filter (open_on (invocations x) fk) (seqZ 1 (next_invocation_id x - 1)) /\ key_locks x !! fk = head (line x fk)) /\
  (forall id inv, invocations x !! id = Some inv -> active (state inv) = true <-> key_locks x !! full_key (target inv) = Some id).
Proof.
  pose proof (vrun_inv ops runtime_new runtime_new_inv Ho ltac:(cbn; lia)) as I. rewrite <- Hx in I. unfold vinv in I. split.
  - intros fk. split; [apply (li_line _ _ _ _ _ I)|]. unfold line, line_of. destruct (key_locks x !! fk) as [id|] eqn:E; [done|].
    by rewrite (li_free _ _ _ _ _ I fk).
  - intros id inv Hid. split; [by apply (active_has_lock I)|]. intros L. destruct (li_lock _ _ _ _ _ I _ _ L) as (inv' & E & Ha).
    rewrite Hid in E. by injection E as <-.
Qed.

Definition cart : chars := of_string "Cart".
Definition demo_handlers : list HandlerDefinition := [mkHandler (of_string "add") Workflow None None; mkHandler (of_string "view") Shared None None].
Definition demo_ops : list vop :=
  [Register cart demo_handlers; Invoke cart (of_string "a") (of_string "add") [1] None; Invoke cart (of_string "a") (of_string "add") [2] None;
   Invoke cart (of_string "b") (of_string "add") [3] None; Suspend 1; Complete 1 [9]].

Lemma single_writer_witness :
  let x := vrun demo_ops runtime_new in
  line x (slash cart (of_string "a")) = [2] /\ line x (slash cart (of_string "b")) = [3] /\
  (forall id inv, invocations x !! id = Some inv -> active (state inv) = true <-> key_locks x !! full_key (target inv) = Some id).
Proof.
  split; [by vm_compute|]. split; [by vm_compute|]. refine (proj2 (single_writer demo_ops _ eq_refl _ _)); [|done].
  split_and!; vm_compute; done.
Defined.

(** *** Idempotency *)

(** A second invocation under the same idempotency key is the first one, and changes nothing. *)
Lemma invoke_idempotent x ty k h i idk x' id ty' k' h' i' :
  invoke x ty k h i (Some idk) = (x', Ok id) -> invoke x' ty' k' h' i' (Some idk) = (x', Ok id).
Proof.
  unfold invoke. cbn. intros H. assert (idempotency_map x' !! idk = Some id) as ->; [|done].
  destruct (idempotency_map x !! idk) eqn:E; [by simplify_eq|]. destruct (object_types x !! ty); [|done]. destruct (existsb _ _); [|done].
  injection H as <- <-. assert (Hd : forall y fk, idempotency_map (try_dispatch y fk) = idempotency_map y).
  { intros y fk. unfold try_dispatch. destruct (key_locks y !! fk); [done|]. by destruct (key_queues y !! fk) as [[]|]. }
  rewrite Hd. cbn. apply lookup_insert_eq.
Qed.

(** *** Limits *)

(** Finishing an invocation that waits lets the next one run beside the one that has the key. *)
Lemma queued_completion_breaks_writer :
  let x := vrun [Register cart demo_handlers; Invoke cart (of_string "a") (of_string "add") [] None; Invoke cart (of_string "a") (of_string "add") [] None;
                 Invoke cart (of_string "a") (of_string "add") [] None; Complete 3 []] runtime_new in
  state <$> invocations x !! 1 = Some Running /\ state <$> invocations x !! 2 = Some Running.
Proof. by vm_compute. Qed.

(** A finished invocation can be finished again, with another outcome, and takes the key from the next one. *)
Lemma completion_repeats :
  let x := vrun [Register cart demo_handlers; Invoke cart (of_string "a") (of_string "add") [] None; Invoke cart (of_string "a") (of_string "add") [] None;
                 Complete 1 []; FailOp 1 []] runtime_new in
  state <$> invocations x !! 1 = Some Failed /\ state <$> invocations x !! 2 = Some Running /\ key_locks x = ∅.
Proof. by vm_compute. Qed.

(** Shared handlers, which may run concurrently, wait for each other all the same. *)
Lemma shared_handlers_wait :
  let x := vrun [Register cart demo_handlers; Invoke cart (of_string "a") (of_string "view") [] None; Invoke cart (of_string "a") (of_string "view") [] None] runtime_new in
  state <$> invocations x !! 2 = Some Queued.
Proof. by vm_compute. Qed.

(** Two objects can have one combined key, and then they share their state and their line. *)
Lemma combined_keys_collide :
  slash (of_string "a/b") (of_string "c") = slash (of_string "a") (of_string "b/c").
Proof. done. Qed.

End Lines.

(** ** Awakeables *)

Module Awake.
Import VObjects.

Lemma dispatch_awakeables x fk : awakeables (try_dispatch x fk) = awakeables x.
Proof. unfold try_dispatch. destruct (key_locks x !! fk); [done|]. by destruct (key_queues x !! fk) as [[]|]. Qed.

Lemma resume_owner_awakeables x id : awakeables (resume_owner x id) = awakeables x.
Proof. unfold resume_owner. destruct (invocations x !! id); [|done]. by case_bool_decide. Qed.

(** Every awakeable bears a number below the number of awakeables. *)
Definition numbered (x : VirtualObjectRuntime) : Prop :=
  forall aid, is_Some (awakeables x !! aid) -> exists a n, aid = a ++ "_"%char :: print_int n /\ 0 <= n < Z.of_nat (size (awakeables x)).

Lemma awakeable_name_split id n : awakeable_name id n = (of_string "awk_" ++ print_int id) ++ "_"%char :: print_int n.
Proof. unfold awakeable_name. by rewrite app_assoc. Qed.

Lemma name_fresh x id : numbered x -> awakeables x !! awakeable_name id (Z.of_nat (size (awakeables x))) = None.
Proof.
  intros N. apply eq_None_not_Some. intros H. destruct (N _ H) as (a & n & E & Hn). rewrite awakeable_name_split in E.
  apply end_number_inj in E; [lia|done|done|lia|lia].
Qed.

(** What an operation does to the awakeables: nothing, a new one, or one that was open is closed. *)
Inductive awake_step (m : gmap chars Awakeable) : gmap chars Awakeable -> Prop :=
| awake_same : awake_step m m
| awake_new aid a : m !! aid = None -> resolved a = false -> value a = None /\ awk_error a = None -> (exists p, aid = p ++ "_"%char :: print_int (Z.of_nat (size m))) -> awake_step m (<[aid := a]> m)
| awake_close aid a a' : m !! aid = Some a -> resolved a = false -> resolved a' = true -> owner_invocation_id a' = owner_invocation_id a ->
    awake_step m (<[aid := a']> m).

Lemma vstep_awake x op : numbered x -> awake_step (awakeables x) (awakeables (vstep x op)).
Proof.
  intros N. destruct op; cbn [vstep]; unfold invoke, append_journal, complete_journal, state_set, state_clear, complete_invocation, fail_invocation,
    suspend_invocation, resume_invocation, create_awakeable, resolve_awakeable, reject_awakeable;
    repeat (case_match; cbn [fst]; rewrite ?dispatch_awakeables, ?resume_owner_awakeables); try apply awake_same.
  - apply awake_new; [by apply name_fresh|done..|]. eexists. apply awakeable_name_split.
  - by eapply awake_close.
  - by eapply awake_close.
Qed.

Lemma awake_step_numbered m m' (Hs : awake_step m m') :
  (forall aid, is_Some (m !! aid) -> exists a n, aid = a ++ "_"%char :: print_int n /\ 0 <= n < Z.of_nat (size m)) ->
  forall aid, is_Some (m' !! aid) -> exists a n, aid = a ++ "_"%char :: print_int n /\ 0 <= n < Z.of_nat (size m').
Proof.
  intros N. destruct Hs as [|aid a Hn _ _ [p Hp]|aid a a' Ha _ _ _]; [done|..]; intros aid' H.
  - rewrite map_size_insert_None by done. apply lookup_insert_is_Some' in H as [<-|H]; [exists p, (Z.of_nat (size m)); split; [done|lia]|].
    destruct (N aid' H) as (q & n & E & Hq). exists q, n. split; [done|lia].
  - rewrite map_size_insert_Some by eauto. apply N. apply lookup_insert_is_Some' in H as [<-|H]; [eauto|done].
Qed.

Lemma vrun_numbered ops : forall x, numbered x -> numbered (vrun ops x).
Proof.
  induction ops as [|op ops IH]; intros x N; cbn; [done|]. apply IH. unfold numbered. by apply (awake_step_numbered (awakeables x)); [apply vstep_awake|].
Qed.

Lemma runtime_new_numbered : numbered runtime_new.
Proof. intros aid [a H]. cbn in H. by rewrite lookup_empty in H. Qed.

(** A resolved awakeable keeps its outcome. *)
Lemma resolved_stays ops : forall x aid a,
  numbered x -> awakeables x !! aid = Some a -> resolved a = true -> awakeables (vrun ops x) !! aid = Some a.
Proof.
  induction ops as [|op ops IH]; intros x aid a N Ha Hr; cbn [vrun fold_left]; [done|].
  pose proof (vstep_awake x op N) as S. apply IH; [unfold numbered; by apply (awake_step_numbered (awakeables x))| |done].
  destruct S as [|aid' a' Hn _ _ _|aid' b b' Hb Hb' _ _]; [done|..]; (rewrite lookup_insert_ne; [done|]; intros ->; congruence).
Qed.

(** Creating gives a name no awakeable has had; what it creates is there afterwards, open. *)
Lemma create_fresh ops id x aid : vrun ops runtime_new = x -> (create_awakeable x id).2 = Ok aid -> awakeables x !! aid = None.
Proof.
  intros <- H. unfold create_awakeable in H. destruct (invocations _ !! id); [|done]. injection H as <-.
  apply name_fresh, vrun_numbered, runtime_new_numbered.
Qed.

(** An open awakeable has neither a value nor an error. *)
Definition unset (x : VirtualObjectRuntime) : Prop :=
  map_Forall (fun _ a => resolved a = false -> value a = None /\ awk_error a = None) (awakeables x).

Lemma vrun_unset ops : forall x, numbered x -> unset x -> unset (vrun ops x).
Proof.
  induction ops as [|op ops IH]; intros x N U; cbn; [done|]. pose proof (vstep_awake x op N) as S. apply IH.
  - unfold numbered. by apply (awake_step_numbered (awakeables x)).
  - unfold unset in *. destruct S as [|aid a Hn Hr He _|aid a a' Ha _ Hr _]; [done|by apply map_Forall_insert_2|].
    apply map_Forall_insert_2; [congruence|done].
Qed.

(** Closing an awakeable: with a value or with an error. *)
Definition settle (x : VirtualObjectRuntime) (aid : chars) (out : bytes + chars) : VirtualObjectRuntime * result Z VirtualObjectError :=
  match out with inl v => resolve_awakeable x aid v | inr err => reject_awakeable x aid err end.

Definition has_outcome (out : bytes + chars) (a : Awakeable) : Prop :=
  resolved a = true /\
  match out with inl v => value a = Some v /\ awk_error a = None | inr err => value a = None /\ awk_error a = Some err end.

Lemma settle_ok x aid out x' owner :
  unset x -> settle x aid out = (x', Ok owner) ->
  exists a, awakeables x' !! aid = Some a /\ has_outcome out a /\ owner_invocation_id a = owner.
Proof.
  intros U H. unfold settle, resolve_awakeable, reject_awakeable in H. destruct (awakeables x !! aid) as [a|] eqn:E; [|by destruct out].
  destruct (resolved a) eqn:R; [by destruct out|]. destruct (U aid a E R) as [Hv He].
  destruct out as [v|err]; injection H as <- <-; rewrite resume_owner_awakeables; cbn; rewrite lookup_insert_eq;
    (eexists; split; [done|]); unfold has_outcome; cbn; by rewrite ?Hv, ?He.
Qed.

Lemma settle_resumes x aid out x' owner inv :
  settle x aid out = (x', Ok owner) -> invocations x !! owner = Some inv -> state inv = Suspended ->
  state <$> invocations x' !! owner = Some Running.
Proof.
  intros H Hi Hs. unfold settle, resolve_awakeable, reject_awakeable in H. destruct (awakeables x !! aid) as [a|]; [|by destruct out].
  destruct (resolved a); [by destruct out|].
  destruct out as [v|err]; injection H as <- <-; unfold resume_owner; cbn; rewrite Hi, bool_decide_true by done; cbn;
    by rewrite lookup_insert_eq.
Qed.

Lemma settle_refused x aid out a : awakeables x !! aid = Some a -> resolved a = true -> settle x aid out = (x, Err (AlreadyResolved aid)).
Proof. intros H Hr. unfold settle, resolve_awakeable, reject_awakeable. destruct out; by rewrite H, Hr. Qed.

Lemma settle_numbered x aid out : numbered x -> numbered (settle x aid out).1.
Proof.
  intros N. destruct out as [v|err].
  - exact (awake_step_numbered _ _ (vstep_awake x (Resolve aid v) N) N).
  - exact (awake_step_numbered _ _ (vstep_awake x (Reject aid err) N) N).
Qed.

(** C38. An awakeable is resolved or rejected at most once.  When resolving or rejecting one succeeds, its owner runs again if it
    was suspended, and whatever else happens later the awakeable has the value, or the error, given and not the other; every later
    attempt to resolve or reject it is refused and changes nothing; and no awakeable created later has its name. *)
Theorem awakeable_resolved_once (ops1 ops2 : list vop) (x1 x2 x3 : VirtualObjectRuntime) (aid : chars) (out out' : bytes + chars) (owner id : Z)
  (H1 : x1 = vrun ops1 runtime_new) (H2 : settle x1 aid out = (x2, Ok owner)) (H3 : x3 = vrun ops2 x2) :
  (forall inv, invocations x1 !! owner = Some inv -> state inv = Suspended -> state <$> invocations x2 !! owner = Some Running) /\
  (exists a, awakeables x3 !! aid = Some a /\ has_outcome out a /\ owner_invocation_id a = owner) /\
  settle x3 aid out' = (x3, Err (AlreadyResolved aid)) /\
  (create_awakeable x3 id).2 <> Ok aid.
Proof.
  assert (N1 : numbered x1) by (rewrite H1; apply vrun_numbered, runtime_new_numbered).
  assert (U1 : unset x1) by (rewrite H1; apply vrun_unset; [apply runtime_new_numbered|apply map_Forall_empty]).
  assert (N2 : numbered x2) by (pose proof (settle_numbered x1 aid out N1) as N; by rewrite H2 in N).
  destruct (settle_ok _ _ _ _ _ U1 H2) as (a & Ha & Ho & Hw). pose proof (resolved_stays ops2 x2 aid a N2 Ha (proj1 Ho)) as H.
  rewrite <- H3 in H. split_and!.
  - intros inv. by apply (settle_resumes _ _ _ _ _ _ H2).
  - eauto.
  - by apply (settle_refused _ _ _ a), Ho.
  - intros Hc. assert (N3 : numbered x3) by (rewrite H3; by apply vrun_numbered). unfold create_awakeable in Hc.
    destruct (invocations x3 !! id); [|done]. injection Hc as Hc. rewrite <- Hc, name_fresh in H; done.
Qed.

Definition awake_ops : list vop :=
  [Register Lines.cart Lines.demo_handlers; Invoke Lines.cart (of_string "a") (of_string "add") [1] None; CreateAwakeable 1; Suspend 1].

Lemma awakeable_resolved_once_witness :
  let x2 := (reject_awakeable (vrun awake_ops runtime_new) (of_string "awk_1_0") (of_string "no")).1 in
  state <$> invocations x2 !! 1 = Some Running /\
  resolve_awakeable (vrun [CreateAwakeable 1] x2) (of_string "awk_1_0") [7] = (vrun [CreateAwakeable 1] x2, Err (AlreadyResolved (of_string "awk_1_0"))).
Proof.
  split; [by vm_compute|].
  refine (proj1 (proj2 (proj2 (awakeable_resolved_once awake_ops [CreateAwakeable 1] _
    (reject_awakeable (vrun awake_ops runtime_new) (of_string "awk_1_0") (of_string "no")).1 _ (of_string "awk_1_0") (inr (of_string "no")) (inl [7]) 1 1 eq_refl _ eq_refl)))).
  by vm_compute.
Defined.

End Awake.
