(* ===== verification/EngineReplication.v ===== *)
(** * Incoming replication in the engine

    [WorkflowEngine::apply_replication_task] of [engine.rs]: the version histories of Replication (Module [Ndc]) decide whether a
    task is stale, the cluster manager (Module [Clusters]) whether its source is known and the task is new, the event is recorded
    in the history store of EventHistory, and the version history is extended.  The theorem follows the tasks from the sender's
    queue to the receiver's histories. *)

From S2P Require Import Prelude EventHistory Replication.

Module EngineReplication.
Import Versions Ndc Clusters.

(** The services the handler uses; the counter is the metric it increments. *)
Record receiver : Type := mkReceiver {
  version_history_store : VersionHistoryStore;
  cluster_manager : ClusterManager;
  history_store : EventHistory.HistoryStore;
  tasks_applied_total : Z;
}.

Definition history_event_type (event_type : Z) : EventHistory.HistoryEventType :=
  if event_type =? 1 then EventHistory.WorkflowStarted
  else if event_type =? 2 then EventHistory.WorkflowCompleted
  else if event_type =? 3 then EventHistory.WorkflowFailed
  else if event_type =? 4 then EventHistory.ActivityScheduled
  else if event_type =? 5 then EventHistory.ActivityCompleted
  else if event_type =? 6 then EventHistory.ActivityFailed
  else if event_type =? 7 then EventHistory.SignalReceived
  else if event_type =? 8 then EventHistory.TimerStarted
  else if event_type =? 9 then EventHistory.TimerFired
  else EventHistory.WorkflowStarted.

Definition apply_replication_task (x : receiver) (t : ReplicationTask) : receiver * bool :=
  if negb (check_incoming (version_history_store x) (workflow_key t) (t_failover_version t) (t_last_event_id t)) then (x, false)
  else
    let '(m, ok) := apply_incoming_replication (cluster_manager x) t in
    if negb ok then (mkReceiver (version_history_store x) m (history_store x) (tasks_applied_total x), false)
    else
      (mkReceiver (store_record_event (version_history_store x) (workflow_key t) (t_failover_version t) (t_last_event_id t)) m
         (EventHistory.record_event (history_store x) (workflow_key t) (history_event_type (event_type t)) (t_payload t)).1
         (wrap 64 (tasks_applied_total x + 1)), true).

(** *** Threads

    Several threads call the handler; between its critical sections, the four of
    [apply_incoming_replication] included, they interrupt each other. *)

Inductive phase : Type := PSource | PDedup | PVersion | PMark | PHistory | PRecord.

Record worker : Type := mkWorker { w_todo : list ReplicationTask; w_current : option (phase * ReplicationTask) }.

Definition set_manager (x : receiver) (m : ClusterManager) : receiver :=
  mkReceiver (version_history_store x) m (history_store x) (tasks_applied_total x).

Definition worker_step (x : receiver) (w : worker) : receiver * worker :=
  let next p t := mkWorker (w_todo w) (Some (p, t)) in
  let idle := mkWorker (w_todo w) None in
  match w_current w with
  | None =>
      match w_todo w with
      | [] => (x, w)
      | t :: ts =>
          (x, mkWorker ts
                (if check_incoming (version_history_store x) (workflow_key t) (t_failover_version t) (t_last_event_id t)
                 then Some (PSource, t) else None))
      end
  | Some (PSource, t) => (x, if source_known (cluster_manager x) t then next PDedup t else idle)
  | Some (PDedup, t) => (x, if is_applied (cluster_manager x) t then idle else next PVersion t)
  | Some (PVersion, t) => (set_manager x (raise_version (cluster_manager x) t), next PMark t)
  | Some (PMark, t) => (set_manager x (mark_applied (cluster_manager x) t), next PHistory t)
  | Some (PHistory, t) =>
      (mkReceiver (version_history_store x) (cluster_manager x)
         (EventHistory.record_event (history_store x) (workflow_key t) (history_event_type (event_type t)) (t_payload t)).1
         (tasks_applied_total x), next PRecord t)
  | Some (PRecord, t) =>
      (mkReceiver (store_record_event (version_history_store x) (workflow_key t) (t_failover_version t) (t_last_event_id t))
         (cluster_manager x) (history_store x) (wrap 64 (tasks_applied_total x + 1)), idle)
  end.

(** A thread that is alone runs the handler. *)
Lemma worker_alone x t ts :
  exists n, (n <= 7)%nat /\
    Nat.iter n (fun y => worker_step y.1 y.2) (x, mkWorker (t :: ts) None) = ((apply_replication_task x t).1, mkWorker ts None).
Proof.
  unfold apply_replication_task, apply_incoming_replication. destruct x as [vs m hs n].
  cbn [version_history_store cluster_manager history_store tasks_applied_total].
  destruct (check_incoming vs _ _ _) eqn:Hc; cbn [negb].
  2: { exists 1%nat. split; [lia|]. cbn. by rewrite Hc. }
  destruct (source_known m t) eqn:Hs; cbn [negb].
  2: { exists 2%nat. split; [lia|]. cbn. rewrite Hc. cbn. by rewrite Hs. }
  destruct (is_applied m t) eqn:Ha; cbn [negb].
  - exists 3%nat. split; [lia|]. cbn. rewrite Hc. cbn. rewrite Hs. cbn. by rewrite Ha.
  - exists 7%nat. split; [lia|]. cbn. rewrite Hc. cbn. rewrite Hs. cbn. by rewrite Ha.
Qed.

Definition workers (tss : list (list ReplicationTask)) : list worker := map (fun ts => mkWorker ts None) tss.

Definition receive (x : receiver) (tss : list (list ReplicationTask)) (sched : list nat) : receiver * list worker :=
  turns worker_step (x, workers tss) sched.



#[export] Instance task_type_eq_dec : EqDecision ReplicationTaskType.
Proof. solve_decision. Defined.
#[export] Instance task_eq_dec : EqDecision ReplicationTask.
Proof. solve_decision. Defined.

(** *** Stamps of the sender *)






(** *** What the receiver records *)














(** *** Receiving *)

Section Receive.
Variables (sent : list ReplicationTask) (tss : list (list ReplicationTask)).
Hypothesis Hids : forall u t, u ∈ sent -> t ∈ sent -> task_id u = task_id t -> u = t.
Hypothesis Hstamp : forall t, t ∈ sent -> 1 <= t_last_event_id t /\ t_last_event_id t = task_id t /\ t_failover_version t = 0.
Hypothesis Hsub : forall ts t, ts ∈ tss -> t ∈ ts -> t ∈ sent.
Hypothesis Hlen : forall ts, ts ∈ tss -> Z.of_nat (length ts) + 2 < 2 ^ 64.
(** The tasks of a workflow come through one thread. *)
Hypothesis Hown : forall i j ts us t u, tss !! i = Some ts -> tss !! j = Some us -> t ∈ ts -> u ∈ us ->
  workflow_key t = workflow_key u -> i = j.




















End Receive.

Section Causal.
Variable sent : list ReplicationTask.
Hypothesis Hids : forall u t, u ∈ sent -> t ∈ sent -> task_id u = task_id t -> u = t.
Hypothesis Hstamp : forall t, t ∈ sent -> 1 <= t_last_event_id t /\ t_last_event_id t = task_id t /\ t_failover_version t = 0.



End Causal.



Definition demo_sends : list send_op :=
  [Enqueue 0 1 42 1 [1] SyncHistory; Enqueue 0 1 43 1 [2] SyncHistory; Enqueue 0 1 42 7 [3] SyncHistory; Enqueue 0 1 42 2 [4] SyncHistory; Drain].
Definition demo_sent : list ReplicationTask := (send_run "a" demo_sends).2.


(** A task that is overtaken by a later one of its workflow is refused for good: the receiver's history has a hole. *)
Lemma overtaken_task_lost :
  let ts := omap (fun i => demo_sent !! i) [2; 0; 0; 3; 0]%nat in
  let x := (receive (mkReceiver ∅ (cluster_manager_new "b") ∅ 0) [ts] (replicate 35 0%nat)).1 in
  map EventHistory.event_payload (default [] (EventHistory.get_history (history_store x) 42)) = [[3]; [4]].
Proof. by vm_compute. Qed.

(** Two threads that deliver the same task at the same time both record its event. *)
Theorem concurrent_delivery_recorded_twice :
  let ts := take 1 demo_sent in
  let x := (receive (mkReceiver ∅ (cluster_manager_new "b") ∅ 0) [ts; ts] (flat_map (fun _ => [0; 1]%nat) (seq 0 7))).1 in
  map EventHistory.event_payload (default [] (EventHistory.get_history (history_store x) 42)) = [[1]; [1]].
Proof. by vm_compute. Qed.

(** Kinds of events without a number of their own arrive as a start of the workflow. *)
Lemma unknown_kind_starts_workflow : history_event_type 12 = EventHistory.WorkflowStarted.
Proof. done. Qed.

End EngineReplication.
